(* ===== verification/_CoqProject ===== *)
-Q . S2P
Prelude.v
Bytes.v
Types.v
Eviction.v
TopicIndex.v
QueueProjection.v
TopicState.v
TopicLog.v
Gate.v
Diff.v
Broadcast.v
Watch.v
Sessions.v
Wal.v
Segment.v
Disk.v
Names.v
Auth.v
Limits.v
Http.v
Wake.v
Cohort.v
WalWriter.v
WalQueue.v
SnapshotStore.v
Router.v
Sched.v
Json.v
SegWriter.v
Startup.v
Seam.v
Reclaim.v
Engine.v
EngineLogic.v
EngineSpec.v
Forward.v
ForwardSpec.v
Api.v
Ws.v
Recovery.v
Durability.v
Snapshot.v
Replay.v
Queue.v
Listing.v
QueueSpec.v
QueueInv.v
QueueTheorems.v
Work.v
