(* ===== verification/Prelude.v ===== *)
(** * Streams: a verification development of the topics server

    The program is a server of named, append-only topics with queues, routers and
    live watches over HTTP ([src/src/]).  This library is a shallow embedding of it:
    pure code is a Rocq function, code that fails returns [result], code that changes
    the engine is a computation of the monad [EM], code over the disk one of the monad
    [IO], and code whose threads or tasks interleave is a step relation with one
    constructor per atomic action.  A [u64] is a [Z] with its saturation ([+s], [-s])
    or wrap-around written out; a [HashMap] is a [gmap]; a [VecDeque] or [Vec] a list.

    ** The parts and how they interact

    A write request ([Api.write]) is authorized ([Http], [Auth], [Limits]), builds its
    records ([Json]), stages them in the index of its topic ([TopicIndex],
    [TopicState]), submits their frames to the WAL ([Engine], [WalQueue], [WalWriter],
    [Wal]) and, in ticket order ([Gate]), publishes them; the published range is then
    handed to the segment writer ([Seam], [SegWriter], [Segment]).  Readers page
    through a topic ([Diff]) directly, through a watch stream ([Watch], [Sessions]) or
    through a WebSocket ([Ws]), the last two over a shared ring of serialized frames
    ([Broadcast]), and are woken by [Wake].  Routers ([Router], [Forward], [Sched]) copy
    records from topic to topic.  A queue is a topic with a lease projection
    ([QueueProjection], [Queue]); concurrent claims are gathered by [Cohort], and a
    worker can have jobs pushed to it over a connection ([Work]).  A snapshot
    ([Snapshot], [SnapshotStore]) and the WAL after it rebuild the engine at the next
    start ([Recovery], [Replay]); [Startup] leads from the environment of the process to
    its listening socket.

    ** Files

    Foundations
    - [Prelude] (this file): machine integers, results, list and map lemmas, the
      hint databases and tactics the other files use.
    - [Bytes]: byte strings, little-endian integers, UTF-8.
    - [Types]: [types.rs], [config.rs], [engine/filters.rs]: configuration,
      filters, validation, error codes.

    One topic
    - [Eviction]: [engine/eviction.rs], the loss floors and admission.
    - [TopicIndex], [TopicState]: [engine/topic_state.rs], the record index with its
      tag postings and every operation on it.  [TopicLog] shows that they refine an
      abstract log ([topic_refines_log], [topic_append_only], retention).
    - [Gate]: the publish tickets of [engine/topic_state.rs] and the commit half of
      [Engine::write], as interleaved writers ([publish_gate_exact]).
    - [Diff]: the read of [Engine::diff] ([diff_exact], [diff_pages_complete]).

    Streams and connections
    - [Broadcast]: [engine/broadcast.rs] and [diff_shared_frames]
      ([shared_frames_exact]).
    - [Watch], [Sessions]: [http/watch.rs], the pages and resume ids of a stream
      ([watch_resume_exact]) and the session registry ([sessions_exact]).
    - [Ws]: [http/ws.rs], commands and delivery ([ws_delivery_exact], [ws_drains],
      [ws_only_allowed]).
    - [Wake]: the order of reading a condition and registering for its signal.
    - [Auth], [Limits], [Http]: [auth.rs], [limits.rs], [http/mod.rs] and the checks
      of the handlers ([authorization_exact], [configured_access], [slots_exact]).
    - [Startup]: the server configuration of [config.rs] and the start of [main.rs]
      ([boot_fails_closed]).
    - [Listing]: the state reads and the paged listings of [engine/mod.rs]
      ([listing_exact], [router_listing_exact]).

    Storage
    - [Disk]: [storage/fs.rs] through [storage/testfs.rs], a disk with unsynced writes,
      torn sectors, injected faults and power loss, and a weakest precondition for code
      over it.  [Names]: numbered file names.
    - [Wal]: [storage/wal.rs], the frame format and its reader
      ([wal_frame_roundtrip], [wal_decode_sound], [wal_crash_prefix]).
    - [WalWriter]: the active file, rotation and [commit_batch] over the disk
      ([wal_acked_survive]).  [WalQueue]: the submission channel, the group commit and
      the shutdown handshake ([wal_queue_durable], [wal_queue_exact],
      [wal_queue_resolves]).
    - [Segment], [SegWriter], [Seam]: [storage/segment.rs], [storage/segstore.rs],
      [engine/segwriter.rs] and the materialization of [engine/topic_state.rs]
      ([sealed_payload_served], [seam_restores_order],
      [materialized_payloads_resolve]).  Every call to the files can fail, and a read
      off the writer lock is a sequence of steps that other operations interrupt.
      [Reclaim]: a topic over its segments, which serves what a topic in memory does, or
      a null payload after a failed or interrupted read ([segments_transparent]), and
      the segment reclaim of a restart ([ondisk_deletes_recovered]).
    - [SnapshotStore]: [storage/snapshot.rs] ([snapshot_crash_atomic]).

    The engine
    - [Engine], [EngineLogic], [EngineSpec]: the state and the shared paths of
      [engine/mod.rs], a Hoare logic for [EM], and what the paths do to a topic.
    - [Json]: record payloads.  [Api]: the request handlers.
    - [Router], [Forward], [ForwardSpec], [Sched]: [engine/router.rs], [sched.rs] and
      the forwarding of [engine/mod.rs] ([cycle_check_exact], [routers_acyclic],
      [catch_up_delivers], [exactly_once_delivers]).
    - [Queue], [QueueSpec], [QueueInv], [QueueTheorems]: [engine/queue.rs]
      ([queue_no_stranded_job], [claim_exclusive], [claim_complete],
      [ack_deletes_jobs]).  [Cohort]: the claim coordinator of [http/queue.rs]
      ([joined_claim_has_leader], [cancelled_leader_blocks_topic]).  [Work]: its work stream, with the claim calls of the
      engine ([work_conn_bounded], [work_conn_released]).
    - [Recovery], [Replay], [Durability], [Snapshot]: [engine/recovery.rs] and
      [engine/snapshot.rs] ([acked_requests_recovered], [restart_from_snapshot],
      [split_order_chronological], [snapshot_topic_roundtrip]).

    ** Conventions

    Third-party code is an interface: a class of operations with the laws the server
    relies on ([Serde] for serde_json, [Crypto] for sha2 and subtle, [Axum] for the
    dispatch of a path, [Net] for the resolver and the socket, [Base64], [Powf]), or an argument (the xxh3 checksum, of which
    only the width is assumed, and postcard).  Every theorem that has such hypotheses
    or others is applied to a concrete instance in the [*Samples] module of its file.
    The clock and the outcomes of the WAL are part of the engine state ([e_now],
    [e_oracle]), the faults of the file system part of the world of [IO]
    ([w_faults]): a theorem holds for all of them.

    ** Bounds and fuel

    Recursion that is not structural takes fuel that is computed from the state and
    proved to be enough: [claim_fuel] of a claim pass by the jobs in the freelist and
    ahead of the cursor ([claim_complete]), one page per seq for the pages of a diff
    ([diff_pages_complete]), one page more than there are topics for a listing
    ([listing_exact]), [thread_bound] for the writer thread ([wal_queue_resolves]), the
    size of the graph for the cycle check ([cycle_check_exact]), the length of the
    buffer for the WAL reader.  The loops that the source itself bounds keep its bound
    ([CATCH_UP_PASSES], [GET_ROUTER_PASSES]); [catch_up_delivers] asks for a backlog
    within it.  File indexes are below [10 ^ 16], where the sixteen digits of a name
    are enough.  The theorems on segments ask that a segment stays below 4 GiB
    ([config_ok], from a byte trigger or from an event trigger and a largest frame):
    past that the offsets of its locator wrap ([locator_wraps]).  Seqs are below [2 ^ 64] by hypothesis where a theorem needs it.

    ** Not modelled

    - The probe ([probe/]), a client that measures and disturbs a server.
    - The background tasks and the shutdown sequence of [main.rs], the accept loop of
      [serve.rs], the wall clock, metrics and their rendering, tracing.
    - The wire encodings of HTTP: JSON bodies, status codes, the error envelope, SSE
      framing and heartbeats; they are serde and axum over the structs of [Types].
    - The weak memory model: atomics are sequentially consistent.  Handlers that run
      under one lock, or whose lock sections are not separated by another access to the
      same data, are one step; so is the reaping of one idle session ([gc_entry]), whose
      loads and removal are separate in the source.
    - Segments under the engine: [Engine], [Forward] and [Durability] are over topics whose
      payloads are in memory; [Reclaim] relates such a topic to one over its segments.
    - [f64] arithmetic: priorities are rational. *)

From Stdlib Require Import ZArith Lia.
From stdpp Require Export base gmap strings list list_numbers sorting.

#[export] Set Default Goal Selector "!".
Open Scope Z_scope.

(** ** Machine integers

    A [u64] is a [Z] in [[0, u64_max]] and an [i64] a [Z] in
    [[i64_min, i64_max]].  The sources use saturating operations wherever a
    counter could reach the end of its range; they are written out here. *)
Definition u64_max : Z := 2 ^ 64 - 1.
Definition i64_max : Z := 2 ^ 63 - 1.
Definition i64_min : Z := - 2 ^ 63.

(** [u64::saturating_add] *)
Definition sat_add (a b : Z) : Z := Z.min (a + b) u64_max.
(** [u64::saturating_sub] *)
Definition sat_sub (a b : Z) : Z := Z.max (a - b) 0.
(** [i64::saturating_sub] *)
Definition i64_sat_sub (a b : Z) : Z := Z.max i64_min (Z.min (a - b) i64_max).
(** [i64::saturating_add] *)
Definition i64_sat_add (a b : Z) : Z := Z.max i64_min (Z.min (a + b) i64_max).
(** [x as i64] of a [u64]: two's complement reinterpretation *)
Definition as_i64 (x : Z) : Z := if x <=? i64_max then x else x - 2 ^ 64.
(** [x as u64] of an [i64] *)
Definition as_u64 (x : Z) : Z := if x <? 0 then x + 2 ^ 64 else x.

(** The [u64] range as a predicate. *)
Definition is_u64 (x : Z) : Prop := 0 <= x <= u64_max.

Declare Scope streams_scope.
Delimit Scope streams_scope with streams.
Open Scope streams_scope.
Infix "+s" := sat_add (at level 50, left associativity) : streams_scope.
Infix "-s" := sat_sub (at level 50, left associativity) : streams_scope.

(** ** Results: Rust's [Result], with the [?] operator as bind *)
Inductive result (E A : Type) : Type :=
| Ok (a : A)
| Err (e : E).
Arguments Ok {E A} _.
Arguments Err {E A} _.

Definition rbind {E A B} (m : result E A) (k : A → result E B) : result E B :=
  match m with
  | Ok a => k a
  | Err e => Err e
  end.

Notation "'let?' x := m 'in' k" := (rbind m (λ x, k))
  (at level 10, x pattern, m at level 100, k at level 200) : streams_scope.

Definition is_ok {E A} (m : result E A) : bool :=
  match m with Ok _ => true | Err _ => false end.

(** ** Tactics *)

(** Case analysis on the integer comparisons of the code, as hypotheses [lia]
    understands. *)
Ltac destruct_zcmp :=
  repeat match goal with
  | |- context [Z.ltb ?a ?b] => destruct (Z.ltb_spec a b)
  | |- context [Z.leb ?a ?b] => destruct (Z.leb_spec a b)
  | |- context [Z.eqb ?a ?b] => destruct (Z.eqb_spec a b)
  | H : context [Z.ltb ?a ?b] |- _ => destruct (Z.ltb_spec a b)
  | H : context [Z.leb ?a ?b] |- _ => destruct (Z.leb_spec a b)
  | H : context [Z.eqb ?a ?b] |- _ => destruct (Z.eqb_spec a b)
  end.

(** Unfold the saturating operations and close with [lia]. *)
Ltac sat_lia := unfold sat_add, sat_sub, is_u64, u64_max in *; lia.

(** Open existentials and conjunctions of the context. *)
Ltac open_hyps :=
  repeat match goal with
  | H : exists _, _ |- _ => destruct H as [? H]
  | H : _ /\ _ |- _ => destruct H
  end.

Create HintDb streams.

(** ** Generic lemmas: saturating arithmetic *)
Lemma sat_sub_nonneg a b : 0 <= a -s b.
Proof. sat_lia. Qed.

Lemma sat_sub_le a b : 0 <= a → 0 <= b → a -s b <= a.
Proof. sat_lia. Qed.

Lemma sat_sub_exact a b : b <= a → a -s b = a - b.
Proof. sat_lia. Qed.

Lemma sat_add_exact a b : a + b <= u64_max → a +s b = a + b.
Proof. sat_lia. Qed.

Lemma sat_add_u64 a b : is_u64 a → is_u64 b → is_u64 (a +s b).
Proof. sat_lia. Qed.

#[export] Hint Resolve sat_sub_nonneg sat_sub_le sat_add_u64 : streams.

(** ** Generic lemmas: strictly ascending lists

    [ascending l] is the invariant of every posting list, seq list and sealed
    registry of the program. *)
Definition ascending (l : list Z) : Prop := StronglySorted Z.lt l.

Lemma ascending_snoc l x :
  ascending l → (∀ y, y ∈ l → y < x) → ascending (l ++ [x]).
Proof.
  unfold ascending. induction 1 as [|a l Hl IH Ha]; intros Hx; simpl.
  - repeat constructor.
  - constructor.
    + apply IH. intros y Hy. apply Hx. by right.
    + apply Forall_app. split; [done|]. constructor; [|constructor].
      apply Hx. left.
Qed.

Lemma ascending_NoDup l : ascending l → NoDup l.
Proof.
  induction 1 as [|a l Hl IH Ha]; constructor; [|done].
  intros Hin. rewrite Forall_forall in Ha. specialize (Ha _ Hin). lia.
Qed.

Lemma ascending_filter (P : Z → Prop) `{!∀ x, Decision (P x)} l :
  ascending l → ascending (filter P l).
Proof.
  induction 1 as [|a l Hl IH Ha]; [constructor|].
  rewrite filter_cons. case_decide; [|done].
  constructor; [done|]. rewrite Forall_forall in *. intros y Hy.
  apply list_elem_of_filter in Hy as [_ Hy]. auto.
Qed.

Lemma ascending_cons_inv a l :
  ascending (a :: l) → ascending l ∧ ∀ y, y ∈ l → a < y.
Proof. inversion 1; subst. split; [done|]. by apply Forall_forall. Qed.

Lemma sorted_NoDup_ascending l : StronglySorted Z.le l → NoDup l → ascending l.
Proof.
  induction 1 as [|a l Hl IH Ha]; intros Hnd; [constructor|].
  apply NoDup_cons in Hnd as [Hna Hnd]. constructor; [by apply IH|].
  rewrite Forall_forall in *. intros y Hy. specialize (Ha y Hy).
  destruct (decide (a = y)) as [->|]; [done|lia].
Qed.

#[export] Hint Resolve ascending_snoc ascending_NoDup ascending_filter : streams.

(** Predicates that agree on a list filter it alike. *)
Lemma filter_ext_elem {A} (P Q : A → Prop) `{!∀ x, Decision (P x), !∀ x, Decision (Q x)} (l : list A) :
  (∀ x, x ∈ l → P x ↔ Q x) → filter P l = filter Q l.
Proof.
  induction l as [|x l IH]; intros Hl; [done|]. rewrite !filter_cons, IH by set_solver.
  specialize (Hl x ltac:(by left)). by repeat case_decide; try tauto.
Qed.

(** Removing one element from an ascending list, as [Vec::binary_search]
    followed by [Vec::remove] does: on an ascending vector the search finds the
    only position holding the element. *)
Definition remove_sorted (x : Z) (l : list Z) : list Z :=
  filter (λ y, y ≠ x) l.

Lemma elem_of_remove_sorted x y l : y ∈ remove_sorted x l ↔ y ≠ x ∧ y ∈ l.
Proof. unfold remove_sorted. by rewrite list_elem_of_filter. Qed.

(** ** Strings as ordered keys

    A Rust [String] compares by its bytes; [String.le] is that order. *)
Definition starts_with (p s : string) : bool := String.prefix p s.

Fixpoint take_while {A} (p : A → bool) (l : list A) : list A :=
  match l with
  | [] => []
  | x :: l => if p x then x :: take_while p l else []
  end.

(** [BTreeMap::iter]: the entries in ascending key order. *)
Definition key_le {A} (x y : string * A) : Prop := String.le x.1 y.1.

#[export] Instance key_le_dec {A} (x y : string * A) : Decision (key_le x y).
Proof. unfold key_le. apply _. Defined.

Definition btree_entries {A} (m : gmap string A) : list (string * A) :=
  merge_sort key_le (map_to_list m).

(** [BTreeMap::range(lo..)] *)
Definition btree_range_from {A} (lo : string) (m : gmap string A) : list (string * A) :=
  filter (λ e, String.le lo e.1) (btree_entries m).

Lemma starts_with_cons a p s :
  starts_with (String a p) s = true ↔
    ∃ s', s = String a s' ∧ starts_with p s' = true.
Proof.
  unfold starts_with. destruct s as [|b s]; simpl.
  - split; [done|]. intros (? & ? & ?); done.
  - destruct (Ascii.ascii_dec a b) as [->|]; split.
    + eauto.
    + intros (? & [= <-] & ?); done.
    + done.
    + intros (? & [= ? ?] & ?); done.
Qed.

Lemma ascii_compare_refl a : Ascii.compare a a = Eq.
Proof. unfold Ascii.compare. apply N.compare_refl. Qed.

Lemma ascii_compare_lt_trans a b c :
  Ascii.compare a b = Lt → Ascii.compare b c = Lt → Ascii.compare a c = Lt.
Proof. unfold Ascii.compare. rewrite !N.compare_lt_iff. lia. Qed.

(** The keys with a given prefix are a contiguous run of the key order that
    starts at the prefix itself. *)
Lemma starts_with_le p s : starts_with p s = true → String.le p s.
Proof.
  revert s. induction p as [|a p IH]; intros s Hs.
  - by destruct s.
  - apply starts_with_cons in Hs as (s' & -> & Hs'). apply IH in Hs'.
    unfold String.le, String.leb in *. simpl.
    by rewrite ascii_compare_refl.
Qed.

Lemma starts_with_convex p x y :
  String.le p x → String.le x y → starts_with p y = true →
  starts_with p x = true.
Proof.
  revert x y. induction p as [|a p IH]; intros x y Hpx Hxy Hpy.
  { by destruct x. }
  apply starts_with_cons in Hpy as (y' & -> & Hy').
  destruct x as [|b x]; [done|].
  unfold String.le, String.leb in Hpx, Hxy. simpl in Hpx, Hxy.
  destruct (Ascii.compare a b) eqn:Hab; [| |done].
  - apply Ascii.compare_eq_iff in Hab as ->.
    rewrite ascii_compare_refl in Hxy.
    apply starts_with_cons. exists x. split; [done|].
    eapply IH; [exact Hpx|exact Hxy|done].
  - rewrite Ascii.compare_antisym, Hab in Hxy. done.
Qed.

#[export] Instance key_le_trans {A} : Transitive (@key_le A).
Proof. intros x y z. unfold key_le. apply transitivity. Qed.

#[export] Instance key_le_total {A} : Total (@key_le A).
Proof. intros x y. unfold key_le. apply total. apply _. Qed.

Lemma btree_entries_sorted {A} (m : gmap string A) :
  StronglySorted key_le (btree_entries m).
Proof. apply StronglySorted_merge_sort; apply _. Qed.

Lemma btree_entries_permutation {A} (m : gmap string A) :
  btree_entries m ≡ₚ map_to_list m.
Proof. apply merge_sort_Permutation. Qed.

Lemma elem_of_btree_entries {A} (m : gmap string A) k v :
  (k, v) ∈ btree_entries m ↔ m !! k = Some v.
Proof. by rewrite btree_entries_permutation, elem_of_map_to_list. Qed.

Lemma take_while_none {A} (p : A → bool) l :
  (∀ x, x ∈ l → p x = false) → take_while p l = [].
Proof.
  destruct l as [|x l]; simpl; [done|]. intros H. rewrite (H x); [done|left].
Qed.

Lemma filter_none {A} (P : A → Prop) `{!∀ x, Decision (P x)} (l : list A) :
  (∀ x, x ∈ l → ¬ P x) → filter P l = [].
Proof.
  induction l as [|x l IH]; intros Hno; [done|].
  rewrite filter_cons, decide_False by (apply Hno; left).
  apply IH. intros y Hy. apply Hno. by right.
Qed.

Lemma list_filter_all {A} (P : A → Prop) `{!∀ x, Decision (P x)} (l : list A) :
  (∀ x, x ∈ l → P x) → filter P l = l.
Proof.
  induction l as [|x l IH]; intros Hall; [done|].
  rewrite filter_cons, decide_True by (apply Hall; left).
  f_equal. apply IH. intros y Hy. apply Hall. by right.
Qed.

Lemma StronglySorted_filter {A} (R : A → A → Prop) (P : A → Prop)
    `{!∀ x, Decision (P x)} (l : list A) :
  StronglySorted R l → StronglySorted R (filter P l).
Proof.
  induction 1 as [|a l Hl IH Ha]; [constructor|].
  rewrite filter_cons. case_decide; [|done]. constructor; [done|].
  rewrite Forall_forall in *. intros y [_ Hy]%list_elem_of_filter. auto.
Qed.

(** The range scan of a prefix visits exactly the entries with that prefix. *)
Lemma btree_prefix_scan {A} (m : gmap string A) p :
  take_while (λ e : string * A, starts_with p e.1) (btree_range_from p m)
  = filter (λ e, starts_with p e.1 = true) (btree_entries m).
Proof.
  unfold btree_range_from. generalize (btree_entries_sorted m).
  generalize (btree_entries m) as l. induction 1 as [|[k v] l Hl IH Hk]; [done|].
  rewrite Forall_forall in Hk.
  rewrite !filter_cons. simpl. destruct (starts_with p k) eqn:Hpk.
  - rewrite decide_True by (by apply starts_with_le).
    rewrite decide_True by done. simpl. rewrite Hpk. by rewrite IH.
  - case_decide as Hle.
    + rewrite decide_False by congruence. simpl. rewrite Hpk.
      symmetry. apply filter_none. intros [k' v'] Hin Hp. simpl in *.
      assert (starts_with p k = true); [|congruence].
      eapply starts_with_convex; [done| |done]. by apply (Hk (k', v')).
    + rewrite decide_False by congruence. done.
Qed.

Lemma omap_ext_in {A B} (f g : A → option B) (l : list A) :
  (∀ x, x ∈ l → f x = g x) → omap f l = omap g l.
Proof.
  induction l as [|x l IH]; intros Hfg; [done|].
  assert (∀ h : A → option B, omap h (x :: l) = match h x with Some y => y :: omap h l | None => omap h l end)
    as E by done.
  rewrite !E, (Hfg x) by left. rewrite IH; [done|]. intros y Hy. apply Hfg. by right.
Qed.

(** [partition_point] of a list that the predicate partitions. *)
Fixpoint partition_point {A} (p : A → bool) (l : list A) : nat :=
  match l with
  | [] => 0
  | x :: l => if p x then S (partition_point p l) else 0
  end.

(** ** Weighted counts of a list: what the tasks of a system hold together *)
Definition held {A} (w : A → Z) (ts : list A) : Z := foldr Z.add 0 (w <$> ts).

Lemma held_app {A} (w : A → Z) ts1 ts2 : held w (ts1 ++ ts2) = held w ts1 + held w ts2.
Proof. unfold held. rewrite fmap_app. induction (w <$> ts1) as [|z zs IH]; simpl in *; lia. Qed.

Lemma held_snoc {A} (w : A → Z) ts t : held w (ts ++ [t]) = held w ts + w t.
Proof. rewrite held_app. unfold held. simpl. lia. Qed.

Lemma held_cons {A} (w : A → Z) t ts : held w (t :: ts) = w t + held w ts.
Proof. done. Qed.

Lemma held_insert {A} (w : A → Z) ts i t t' :
  ts !! i = Some t → held w (<[i := t']> ts) = held w ts - w t + w t'.
Proof.
  revert i. induction ts as [|x ts IH]; intros [|i] Hi; simplify_eq/=; rewrite !held_cons; [lia|].
  rewrite (IH i) by done. lia.
Qed.

Lemma held_nonneg {A} (w : A → Z) ts : (∀ t, 0 <= w t) → 0 <= held w ts.
Proof. intros Hw. induction ts as [|t ts IH]; [done|]. rewrite held_cons. specialize (Hw t). lia. Qed.

Lemma held_lookup {A} (w : A → Z) ts i t : (∀ t, 0 <= w t) → ts !! i = Some t → w t <= held w ts.
Proof.
  intros Hw. revert i. induction ts as [|x ts IH]; intros [|i] Hi; simplify_eq/=; rewrite held_cons.
  - pose proof (held_nonneg w ts Hw). lia.
  - specialize (IH i Hi). specialize (Hw x). lia.
Qed.

Lemma held_zero {A} (w : A → Z) ts : (∀ t, w t = 0) → held w ts = 0.
Proof. intros Hw. induction ts as [|t ts IH]; [done|]. rewrite held_cons, Hw. lia. Qed.
