(* ===== verification/Bytes.v ===== *)
(** * Byte strings

    The byte-level vocabulary shared by the WAL, segment and snapshot formats:
    little-endian integers ([to_le_bytes]/[from_le_bytes]), length-prefixed
    strings, UTF-8 validation ([String::from_utf8]) and readers that consume a
    prefix of a buffer.  A Rust [String] is a Rocq [string], the sequence of its
    UTF-8 bytes. *)

From Stdlib Require Import NArith.
From Stdlib Require Export Strings.Byte.
From S2P Require Import Prelude.

Abbreviation bytes := (list byte).

#[export] Instance byte_eq_dec : EqDecision byte := Byte.byte_eq_dec.

(** ** Integers as bytes *)
Definition byte_of_Z (z : Z) : byte :=
  match Byte.of_N (Z.to_N (z mod 256)) with
  | Some b => b
  | None => x00
  end.

Definition Z_of_byte (b : byte) : Z := Z.of_N (Byte.to_N b).

(** [x.to_le_bytes()] of an [n]-byte integer, also of a truncating cast. *)
Fixpoint le_bytes (n : nat) (z : Z) : bytes :=
  match n with
  | O => []
  | S n => byte_of_Z z :: le_bytes n (z / 256)
  end.


(** [from_le_bytes] *)
Fixpoint le_value (l : bytes) : Z :=
  match l with
  | [] => 0
  | b :: l => Z_of_byte b + 256 * le_value l
  end.

(** [&buf[a..b]] for [a <= b <= buf.len()] *)
Definition slice {A} (l : list A) (a b : nat) : list A := take (b - a) (drop a l).

(** ** UTF-8 *)
Definition in_range (lo hi : Z) (b : byte) : bool :=
  (lo <=? Z_of_byte b) && (Z_of_byte b <=? hi).

Definition cont (b : byte) : bool := in_range 128 191 b.

(** The well-formed byte sequences accepted by [std::str::from_utf8]. *)
Fixpoint utf8_valid (l : bytes) : bool :=
  match l with
  | [] => true
  | b0 :: l1 =>
      if in_range 0 127 b0 then utf8_valid l1
      else
        match l1 with
        | [] => false
        | b1 :: l2 =>
            if in_range 194 223 b0 then cont b1 && utf8_valid l2
            else
              match l2 with
              | [] => false
              | b2 :: l3 =>
                  if in_range 224 224 b0
                  then in_range 160 191 b1 && cont b2 && utf8_valid l3
                  else if in_range 225 236 b0 || in_range 238 239 b0
                  then cont b1 && cont b2 && utf8_valid l3
                  else if in_range 237 237 b0
                  then in_range 128 159 b1 && cont b2 && utf8_valid l3
                  else
                    match l3 with
                    | [] => false
                    | b3 :: l4 =>
                        if in_range 240 240 b0
                        then in_range 144 191 b1 && cont b2 && cont b3 && utf8_valid l4
                        else if in_range 241 243 b0
                        then cont b1 && cont b2 && cont b3 && utf8_valid l4
                        else if in_range 244 244 b0
                        then in_range 128 143 b1 && cont b2 && cont b3 && utf8_valid l4
                        else false
                    end
              end
        end
  end.

(** [s.as_bytes()] *)
Definition as_bytes (s : string) : bytes := String.list_byte_of_string s.

(** [String::from_utf8(b).ok()] *)
Definition from_utf8 (b : bytes) : option string :=
  if utf8_valid b then Some (String.string_of_list_byte b) else None.

(** A Rocq string that is a Rust string. *)
Definition is_str (s : string) : Prop := utf8_valid (as_bytes s) = true.

(** ** Readers: a value and the rest of the buffer *)
Definition read_bytes (n : nat) (buf : bytes) : option (bytes * bytes) :=
  if (length buf <? n)%nat then None else Some (take n buf, drop n buf).

Definition read_u8 (buf : bytes) : option (Z * bytes) :=
  match buf with
  | [] => None
  | b :: buf => Some (Z_of_byte b, buf)
  end.

Definition read_u32 (buf : bytes) : option (Z * bytes) :=
  '(b, rest) ← read_bytes 4 buf; Some (le_value b, rest).

Definition read_u64 (buf : bytes) : option (Z * bytes) :=
  '(b, rest) ← read_bytes 8 buf; Some (le_value b, rest).

(** [read_lp_bytes] *)
Definition read_lp_bytes (buf : bytes) : option (bytes * bytes) :=
  '(n, rest) ← read_u32 buf; read_bytes (Z.to_nat n) rest.

(** [read_lp_str] *)
Definition read_lp_str (buf : bytes) : option (string * bytes) :=
  '(b, rest) ← read_lp_bytes buf;
  s ← from_utf8 b; Some (s, rest).

(** [write_lp_bytes] *)
Definition write_lp_bytes (b : bytes) : bytes := le_bytes 4 (Z.of_nat (length b)) ++ b.


(** ** Lemmas *)
Lemma Z_of_byte_of_Z z : Z_of_byte (byte_of_Z z) = z mod 256.
Proof.
  unfold Z_of_byte, byte_of_Z. pose proof (Z.mod_pos_bound z 256 ltac:(lia)).
  destruct (Byte.of_N (Z.to_N (z mod 256))) as [b|] eqn:Hb.
  - apply Byte.to_of_N in Hb. rewrite Hb. lia.
  - apply Byte.of_N_None_iff in Hb. lia.
Qed.

Lemma byte_of_Z_of_byte b : byte_of_Z (Z_of_byte b) = b.
Proof.
  unfold Z_of_byte, byte_of_Z. pose proof (Byte.to_N_bounded b).
  rewrite Z.mod_small by lia. by rewrite N2Z.id, Byte.of_to_N.
Qed.

Lemma Z_of_byte_bounds b : 0 <= Z_of_byte b < 256.
Proof. unfold Z_of_byte. pose proof (Byte.to_N_bounded b). lia. Qed.

Lemma le_bytes_S n z : le_bytes (S n) z = byte_of_Z z :: le_bytes n (z / 256).
Proof. done. Qed.

Lemma length_le_bytes n z : length (le_bytes n z) = n.
Proof. revert z. induction n as [|n IH]; intros z; [done|]. rewrite le_bytes_S. simpl. by rewrite IH. Qed.

Lemma le_value_bounds l : 0 <= le_value l < 256 ^ Z.of_nat (length l).
Proof.
  induction l as [|b l IH]; simpl length; [simpl; lia|].
  rewrite Nat2Z.inj_succ, Z.pow_succ_r by lia. simpl. pose proof (Z_of_byte_bounds b). lia.
Qed.

Lemma length_write_lp_bytes b : length (write_lp_bytes b) = (4 + length b)%nat.
Proof. unfold write_lp_bytes. by rewrite length_app, length_le_bytes. Qed.

(** The round trip of an integer in the range of its width. *)
Lemma le_value_bytes n z : 0 <= z < 256 ^ Z.of_nat n → le_value (le_bytes n z) = z.
Proof.
  revert z. induction n as [|n IH]; intros z Hz; [simpl in *; lia|].
  rewrite Nat2Z.inj_succ, Z.pow_succ_r in Hz by lia. rewrite le_bytes_S. simpl.
  rewrite Z_of_byte_of_Z, IH.
  - pose proof (Z.div_mod z 256 ltac:(lia)). lia.
  - split; [apply Z.div_pos; lia|]. apply Z.div_lt_upper_bound; lia.
Qed.

Lemma le_bytes_value l : le_bytes (length l) (le_value l) = l.
Proof.
  induction l as [|b l IH]; [done|]. simpl length. rewrite le_bytes_S. simpl le_value.
  pose proof (Z_of_byte_bounds b). f_equal.
  - rewrite <-(byte_of_Z_of_byte b) at 2. unfold byte_of_Z. do 2 f_equal.
    by rewrite Z.mul_comm, Z.mod_add by lia.
  - replace ((Z_of_byte b + 256 * le_value l) / 256) with (le_value l); [done|].
    rewrite Z.add_comm, Z.mul_comm, Z.div_add_l, Z.div_small by lia. lia.
Qed.

(** The encoding keeps the low bytes of its integer, as an [as u32] cast does. *)
Lemma le_bytes_wrap n z : le_bytes n (z mod 256 ^ Z.of_nat n) = le_bytes n z.
Proof.
  revert z. induction n as [|n IH]; intros z; [done|]. rewrite Nat2Z.inj_succ, Z.pow_succ_r by lia.
  rewrite !le_bytes_S, Z.rem_mul_r by lia. f_equal.
  - unfold byte_of_Z. do 2 f_equal. by rewrite Z.mul_comm, Z.mod_add, Z.mod_mod by lia.
  - rewrite <-(IH (z / 256)). f_equal. rewrite Z.add_comm, Z.mul_comm, Z.div_add_l by lia.
    rewrite (Z.div_small (z mod 256)) by (apply Z.mod_pos_bound; lia). lia.
Qed.

Lemma from_utf8_as_bytes s : is_str s → from_utf8 (as_bytes s) = Some s.
Proof.
  intros Hs. unfold from_utf8. rewrite Hs. unfold as_bytes.
  by rewrite String.string_of_list_byte_of_string.
Qed.

Lemma read_bytes_app b rest : read_bytes (length b) (b ++ rest) = Some (b, rest).
Proof.
  unfold read_bytes. rewrite length_app, (proj2 (Nat.ltb_ge _ _)) by lia.
  by rewrite take_app_length, drop_app_length.
Qed.

Lemma read_u8_cons z rest : 0 <= z < 256 → read_u8 (byte_of_Z z :: rest) = Some (z, rest).
Proof. intros Hz. unfold read_u8. by rewrite Z_of_byte_of_Z, Z.mod_small. Qed.

Lemma read_u32_app z rest : 0 <= z < 2 ^ 32 → read_u32 (le_bytes 4 z ++ rest) = Some (z, rest).
Proof.
  intros Hz. unfold read_u32. pose proof (read_bytes_app (le_bytes 4 z) rest) as Hr.
  rewrite length_le_bytes in Hr. rewrite Hr. cbv [mbind option_bind].
  by rewrite le_value_bytes.
Qed.

Lemma read_u64_app z rest : is_u64 z → read_u64 (le_bytes 8 z ++ rest) = Some (z, rest).
Proof.
  intros Hz. unfold read_u64. pose proof (read_bytes_app (le_bytes 8 z) rest) as Hr.
  rewrite length_le_bytes in Hr. rewrite Hr. cbv [mbind option_bind].
  rewrite le_value_bytes; [done|]. unfold is_u64, u64_max in Hz. simpl. lia.
Qed.

Lemma read_lp_bytes_app b rest :
  Z.of_nat (length b) < 2 ^ 32 → read_lp_bytes (write_lp_bytes b ++ rest) = Some (b, rest).
Proof.
  intros Hb. unfold read_lp_bytes, write_lp_bytes. rewrite <-app_assoc, read_u32_app by lia.
  simpl. rewrite Nat2Z.id. apply read_bytes_app.
Qed.

Lemma read_lp_str_app s rest :
  is_str s → Z.of_nat (length (as_bytes s)) < 2 ^ 32 →
  read_lp_str (write_lp_bytes (as_bytes s) ++ rest) = Some (s, rest).
Proof.
  intros Hs Hl. unfold read_lp_str. rewrite read_lp_bytes_app by done. simpl.
  by rewrite from_utf8_as_bytes.
Qed.

(** ** Slices of concatenations *)
Lemma slice_skip {A} (l1 l2 : list A) a b :
  (length l1 <= a)%nat → slice (l1 ++ l2) a b = slice l2 (a - length l1) (b - length l1).
Proof.
  intros Ha. unfold slice. rewrite drop_app_ge by done. f_equal. lia.
Qed.

Lemma slice_first {A} (l1 l2 : list A) n : length l1 = n → slice (l1 ++ l2) 0 n = l1.
Proof. intros <-. unfold slice. rewrite drop_0, Nat.sub_0_r. apply take_app_length. Qed.

(** The integer stored at an offset of a buffer. *)
Lemma le_value_slice n z (l1 l2 : bytes) a b :
  0 <= z < 256 ^ Z.of_nat n → length l1 = a → b = (a + n)%nat →
  le_value (slice (l1 ++ le_bytes n z ++ l2) a b) = z.
Proof.
  intros Hz <- ->. rewrite slice_skip by lia. rewrite Nat.sub_diag.
  rewrite slice_first by (rewrite length_le_bytes; lia). by apply le_value_bytes.
Qed.

(** ** Decoded values: whatever the bytes are, a reader that succeeds yields a
    value of its type *)
Lemma le_value_u64 l : (length l <= 8)%nat → is_u64 (le_value l).
Proof.
  intros Hl. pose proof (le_value_bounds l).
  assert (256 ^ Z.of_nat (length l) <= 256 ^ 8) by (apply Z.pow_le_mono_r; lia).
  unfold is_u64, u64_max. lia.
Qed.

Lemma read_bytes_typed n buf b rest : read_bytes n buf = Some (b, rest) → length b = n.
Proof. unfold read_bytes. destruct (Nat.ltb_spec (length buf) n); [done|]. intros [= <- <-]. rewrite length_take. lia. Qed.

Lemma read_u8_typed buf v rest : read_u8 buf = Some (v, rest) → 0 <= v < 256.
Proof. destruct buf as [|b buf]; [done|]. intros [= <- <-]. apply Z_of_byte_bounds. Qed.

Lemma read_u64_typed buf v rest : read_u64 buf = Some (v, rest) → is_u64 v.
Proof.
  unfold read_u64. intros H. destruct (read_bytes 8 buf) as [[b r]|] eqn:Hb; simplify_eq/=.
  apply read_bytes_typed in Hb. apply le_value_u64. lia.
Qed.

Lemma from_utf8_typed b v : from_utf8 b = Some v → is_str v ∧ as_bytes v = b.
Proof.
  unfold from_utf8, is_str, as_bytes. destruct (utf8_valid b) eqn:Hv; [|done]. intros [= <-].
  by rewrite String.list_byte_of_string_of_list_byte.
Qed.

Lemma read_lp_str_typed buf v rest : read_lp_str buf = Some (v, rest) → is_str v.
Proof.
  unfold read_lp_str. intros H. destruct (read_lp_bytes buf) as [[b r]|]; simplify_eq/=.
  destruct (from_utf8 b) as [v'|] eqn:Hu; simplify_eq/=. by apply from_utf8_typed in Hu as [? _].
Qed.

(** The readers consume what the writers of their values write. *)
Lemma read_bytes_len n buf b rest : read_bytes n buf = Some (b, rest) → length buf = (n + length rest)%nat ∧ length b = n.
Proof.
  unfold read_bytes. destruct (Nat.ltb_spec (length buf) n) as [|Hn]; [done|]. intros [= <- <-]. rewrite length_drop, length_take. lia.
Qed.
Lemma read_u8_len buf v rest : read_u8 buf = Some (v, rest) → length buf = S (length rest).
Proof. unfold read_u8. destruct buf as [|b buf]; [done|]. by intros [= _ <-]. Qed.
Lemma read_u32_len buf v rest : read_u32 buf = Some (v, rest) → length buf = (4 + length rest)%nat ∧ 0 <= v.
Proof.
  unfold read_u32. destruct (read_bytes 4 buf) as [[b r]|] eqn:E; [|done]. intros [= <- <-].
  apply read_bytes_len in E as [? _]. split; [done|apply le_value_bounds].
Qed.
Lemma read_u64_len buf v rest : read_u64 buf = Some (v, rest) → length buf = (8 + length rest)%nat.
Proof. unfold read_u64. destruct (read_bytes 8 buf) as [[b r]|] eqn:E; [|done]. intros [= <- <-]. by apply read_bytes_len in E as [? _]. Qed.
Lemma read_lp_len buf b rest : read_lp_bytes buf = Some (b, rest) → length buf = (length (write_lp_bytes b) + length rest)%nat.
Proof.
  unfold read_lp_bytes. destruct (read_u32 buf) as [[n b1]|] eqn:E; [|done]. intros H.
  apply read_u32_len in E as [-> _]. apply read_bytes_len in H as [-> <-]. rewrite length_write_lp_bytes. lia.
Qed.
Lemma read_str_len buf v rest : read_lp_str buf = Some (v, rest) → length buf = (length (write_lp_bytes (as_bytes v)) + length rest)%nat.
Proof.
  unfold read_lp_str. destruct (read_lp_bytes buf) as [[b r]|] eqn:E; [|done]. cbv [mbind option_bind]. destruct (from_utf8 b) as [x|] eqn:Hx; [|done].
  intros [= <- <-]. apply from_utf8_typed in Hx as [_ ->]. by apply read_lp_len.
Qed.

(** The encodings compute; proofs go through the lemmas above. *)
#[global] Opaque le_bytes write_lp_bytes byte_of_Z Z_of_byte.
#[global] Opaque read_u8 read_u32 read_u64 read_lp_bytes read_lp_str.
