(* ===== verification/Types.v ===== *)
(** * Domain types, the read filter pipeline, and name/config validation

    Models [src/types.rs] (topic config, durability classes, tag and node
    filters, tombstones, error codes), [src/engine/filters.rs] and the pure
    validation helpers of [src/config.rs] and [src/engine/mod.rs]. *)

From Stdlib Require Import Ascii.
From S2P Require Import Prelude.

(** ** Enumerations of [types.rs] *)
Inductive Durability := Ephemeral | Memory | Disk | Fsync.
Inductive TopicType := Log | Queue.
Inductive Discard := Old | Reject.
(** The operator of a tag filter, qualified as in the source. *)
Module FilterOp.
Inductive t := Eq | Glob.
End FilterOp.
Inductive RouterGuarantee := AtLeastOnce | ExactlyOnce.
Inductive TombstoneReason :=
| Cap | Ttl | Mixed | Recreated | SourceTrim | FromSeqTooOld.

#[export] Instance Durability_eq_dec : EqDecision Durability.
Proof. solve_decision. Defined.
#[export] Instance TopicType_eq_dec : EqDecision TopicType.
Proof. solve_decision. Defined.
#[export] Instance Discard_eq_dec : EqDecision Discard.
Proof. solve_decision. Defined.
#[export] Instance FilterOp_eq_dec : EqDecision FilterOp.t.
Proof. solve_decision. Defined.
#[export] Instance RouterGuarantee_eq_dec : EqDecision RouterGuarantee.
Proof. solve_decision. Defined.
#[export] Instance TombstoneReason_eq_dec : EqDecision TombstoneReason.
Proof. solve_decision. Defined.

(** ** Error codes *)
Inductive ErrorCode :=
| InvalidRequest | BatchTooLarge | RecordTooLarge | Unauthorized | Forbidden
| TopicNotFound | RouterNotFound | NotFound | MethodNotAllowed | NotAcceptable
| RouterCycle | TopicExistsIncompatible | TopicNotEmpty | NotAQueue
| PayloadTooLarge | UnsupportedMediaType | TopicFull | Throttled | Internal
| NotReady | ShuttingDown.

#[export] Instance ErrorCode_eq_dec : EqDecision ErrorCode.
Proof. solve_decision. Defined.

(** [ErrorCode::status] *)
Definition status (c : ErrorCode) : Z :=
  match c with
  | InvalidRequest | BatchTooLarge | RecordTooLarge => 400
  | Unauthorized => 401
  | Forbidden => 403
  | TopicNotFound | RouterNotFound | NotFound => 404
  | MethodNotAllowed => 405
  | NotAcceptable => 406
  | RouterCycle | TopicExistsIncompatible | TopicNotEmpty | NotAQueue => 409
  | PayloadTooLarge => 413
  | UnsupportedMediaType => 415
  | TopicFull => 422
  | Throttled => 429
  | Internal => 500
  | NotReady | ShuttingDown => 503
  end.

(** [ErrorCode::code] *)
Definition code (c : ErrorCode) : string :=
  match c with
  | InvalidRequest => "invalid_request"
  | BatchTooLarge => "batch_too_large"
  | RecordTooLarge => "record_too_large"
  | Unauthorized => "unauthorized"
  | Forbidden => "forbidden"
  | TopicNotFound => "topic_not_found"
  | RouterNotFound => "router_not_found"
  | NotFound => "not_found"
  | MethodNotAllowed => "method_not_allowed"
  | NotAcceptable => "not_acceptable"
  | RouterCycle => "router_cycle"
  | TopicExistsIncompatible => "topic_exists_incompatible"
  | TopicNotEmpty => "topic_not_empty"
  | NotAQueue => "not_a_queue"
  | PayloadTooLarge => "payload_too_large"
  | UnsupportedMediaType => "unsupported_media_type"
  | TopicFull => "topic_full"
  | Throttled => "throttled"
  | Internal => "internal"
  | NotReady => "not_ready"
  | ShuttingDown => "shutting_down"
  end.

(** ** Topic configuration *)
Record TopicConfig := mkTopicConfig {
  cfg_type : TopicType;
  cfg_ttl_ms : Z;
  cfg_cap_records : Z;
  cfg_cap_bytes : Z;
  cfg_discard : Discard;
  cfg_durable : bool;
  cfg_durability : option Durability;
  cfg_priority : option Z;
  cfg_auto_priority : bool;
  cfg_auto_create : bool;
  cfg_idempotency_window_ms : Z;
  cfg_dedupe_node : bool;
  cfg_lease_ms : Z;
  cfg_claim_jitter_ms : Z;
  cfg_max_deliveries : Z;
  cfg_dead_letter : option string;
  cfg_leases_durable : bool
}.

#[export] Instance TopicConfig_eq_dec : EqDecision TopicConfig.
Proof. solve_decision. Defined.

(** [TopicConfig::default] *)
Definition default_config : TopicConfig := {|
  cfg_type := Log; cfg_ttl_ms := 0; cfg_cap_records := 0; cfg_cap_bytes := 0;
  cfg_discard := Old; cfg_durable := false; cfg_durability := None;
  cfg_priority := None; cfg_auto_priority := true; cfg_auto_create := true;
  cfg_idempotency_window_ms := 120000; cfg_dedupe_node := true;
  cfg_lease_ms := 30000; cfg_claim_jitter_ms := 0; cfg_max_deliveries := 0;
  cfg_dead_letter := None; cfg_leases_durable := false |}.

Definition is_queue (c : TopicConfig) : bool := bool_decide (cfg_type c = Queue).

Definition durability_class (c : TopicConfig) : Durability :=
  match cfg_durability c with
  | Some d => d
  | None => if cfg_durable c then Fsync else Disk
  end.

Definition is_durable (c : TopicConfig) : bool :=
  bool_decide (durability_class c = Fsync).

Definition uses_persistent_record_store (c : TopicConfig) : bool :=
  negb (bool_decide (durability_class c = Ephemeral)).

(** A config with the named durability fields replaced; every other field is
    kept. *)
Definition set_durability (c : TopicConfig) (d : option Durability) (b : bool) : TopicConfig :=
  mkTopicConfig (cfg_type c) (cfg_ttl_ms c) (cfg_cap_records c) (cfg_cap_bytes c)
    (cfg_discard c) b d (cfg_priority c) (cfg_auto_priority c) (cfg_auto_create c)
    (cfg_idempotency_window_ms c) (cfg_dedupe_node c) (cfg_lease_ms c)
    (cfg_claim_jitter_ms c) (cfg_max_deliveries c) (cfg_dead_letter c)
    (cfg_leases_durable c).

Definition normalize_durability (c : TopicConfig) : TopicConfig :=
  set_durability c (Some (durability_class c)) (bool_decide (durability_class c = Fsync)).

(** [config::MIN_LEASE_MS], [MAX_LEASE_MS] and [MAX_CLAIM_JITTER_MS] *)
Definition MIN_LEASE_MS : Z := 100.
Definition MAX_LEASE_MS : Z := 86400000.
Definition MAX_CLAIM_JITTER_MS : Z := 5000.

(** [Ord::clamp] *)
Definition clamp (lo hi x : Z) : Z := if x <? lo then lo else if hi <? x then hi else x.

(** [engine::normalize_config] *)
Definition normalize_config (c : TopicConfig) : TopicConfig :=
  mkTopicConfig (cfg_type c) (cfg_ttl_ms c) (cfg_cap_records c) (cfg_cap_bytes c)
    (cfg_discard c) (cfg_durable c) (cfg_durability c) (cfg_priority c)
    (cfg_auto_priority c) (cfg_auto_create c) (cfg_idempotency_window_ms c)
    (cfg_dedupe_node c) (clamp MIN_LEASE_MS MAX_LEASE_MS (cfg_lease_ms c))
    (Z.min (cfg_claim_jitter_ms c) MAX_CLAIM_JITTER_MS)
    (cfg_max_deliveries c) (cfg_dead_letter c) (cfg_leases_durable c).

(** ** Names

    [u8::is_ascii_alphanumeric] and the charset tests of [config.rs]. *)
Definition is_ascii_alphanumeric (a : Ascii.ascii) : bool :=
  let n := Ascii.N_of_ascii a in
  ((48 <=? n) && (n <=? 57) || (65 <=? n) && (n <=? 90) || (97 <=? n) && (n <=? 122))%N.

Definition name_char (a : Ascii.ascii) : bool :=
  is_ascii_alphanumeric a
  || existsb (Ascii.eqb a) ["."; "_"; ":"; "-"]%char.

Definition router_name_char (a : Ascii.ascii) : bool :=
  name_char a || bool_decide (a = ">"%char).

Fixpoint string_forallb (p : Ascii.ascii → bool) (s : string) : bool :=
  match s with
  | EmptyString => true
  | String a s => p a && string_forallb p s
  end.

Definition valid_name_with (p : Ascii.ascii → bool) (name : string) : bool :=
  match name with
  | EmptyString => false
  | String first _ =>
      if (255 <? String.length name)%nat then false
      else if negb (is_ascii_alphanumeric first) then false
      else string_forallb p name
  end.

(** [config::is_valid_name] *)
Definition is_valid_name (name : string) : bool := valid_name_with name_char name.

(** [config::is_valid_router_name] *)
Definition is_valid_router_name (name : string) : bool := valid_name_with router_name_char name.

(** [engine::validate_config] *)
Definition validate_config (c : TopicConfig) : result ErrorCode unit :=
  match cfg_dead_letter c with
  | Some dl => if is_valid_name dl then Ok tt else Err InvalidRequest
  | None => Ok tt
  end.

(** [engine::name_allowed]: the allowlist test of a prefix-limited key. *)
Definition name_allowed (name : string) (allow_prefixes : list string) : bool :=
  match allow_prefixes with
  | [] => true
  | _ => existsb (λ p, starts_with p name) allow_prefixes
  end.

(** ** Node filters *)
Inductive NodeFilter :=
| One (s : string)
| Many (v : list string).

(** [NodeFilter::matches] *)
Definition node_matches (f : NodeFilter) (node : string) : bool :=
  match f with
  | One s => bool_decide (s = node)
  | Many v => existsb (λ s, bool_decide (s = node)) v
  end.

(** ** Tag filters *)
Record Filter := mkFilter { f_op : FilterOp.t; f_value : string }.

#[export] Instance Filter_eq_dec : EqDecision Filter.
Proof. solve_decision. Defined.

(** [Filter::matches] *)
Definition filter_matches (f : Filter) (tag : string) : bool :=
  match f_op f with
  | FilterOp.Eq => bool_decide (tag = f_value f)
  | FilterOp.Glob => starts_with (f_value f) tag
  end.

(** [str::strip_suffix('*')] *)
Fixpoint strip_star (s : string) : option string :=
  match s with
  | EmptyString => None
  | String a EmptyString => if bool_decide (a = "*"%char) then Some EmptyString else None
  | String a s' => String a <$> strip_star s'
  end.

(** [Filter::from_shorthand] *)
Definition from_shorthand (s : string) : Filter :=
  match strip_star s with
  | Some prefix => mkFilter FilterOp.Glob prefix
  | None => mkFilter FilterOp.Eq s
  end.

(** What serde hands to [Filter::deserialize]: a bare string or an array of
    strings. *)
Inductive FilterRaw :=
| Bare (s : string)
| Tuple (v : list string).

(** [Filter::serialize] *)
Definition filter_serialize (f : Filter) : FilterRaw :=
  match f_op f with
  | FilterOp.Eq => Tuple ["tag"; "Eq"; f_value f]
  | FilterOp.Glob => Tuple ["tag"; "Glob"; f_value f +:+ "*"]
  end.

(** [Filter::deserialize]; [None] is a custom serde error. *)
Definition filter_deserialize (raw : FilterRaw) : option Filter :=
  match raw with
  | Bare s => Some (from_shorthand s)
  | Tuple [t; op; v] =>
      if negb (bool_decide (t = "tag")) then None
      else if bool_decide (op = "Eq") then Some (mkFilter FilterOp.Eq v)
      else if bool_decide (op = "Glob") then mkFilter FilterOp.Glob <$> strip_star v
      else None
  | Tuple _ => None
  end.

(** ** Tombstones *)
Record Tombstone := mkTombstone {
  t_gap_from : Z;
  t_gap_to : Z;
  t_reason : TombstoneReason;
  t_missed_estimate : Z;
  t_earliest_seq : Z;
  t_head_seq : Z
}.

(** ** The read pipeline of [filters.rs] *)
Inductive ReadDecision := Deliver | Deleted | NodeFiltered | Expired.

#[export] Instance ReadDecision_eq_dec : EqDecision ReadDecision.
Proof. solve_decision. Defined.

(** [filters::evaluate] *)
Definition evaluate (node_filter : option NodeFilter) (ttl_ms now_ms record_ts : Z)
    (deleted : bool) (record_node : option string) : ReadDecision :=
  if (0 <? ttl_ms) && (as_i64 ttl_ms <? i64_sat_sub now_ms record_ts) then Expired
  else if deleted then Deleted
  else match node_filter, record_node with
       | Some filter, Some node =>
           if node_matches filter node then NodeFiltered else Deliver
       | _, _ => Deliver
       end.

(** ** Theorems *)

Lemma strip_star_app s : strip_star (s +:+ "*") = Some s.
Proof.
  induction s as [|a s IH]; [done|].
  change (String a s +:+ "*") with (String a (s +:+ "*")).
  cbn [strip_star]. destruct (s +:+ "*") eqn:E.
  - by destruct s.
  - by rewrite IH.
Qed.

Lemma strip_star_Some s p : strip_star s = Some p → s = p +:+ "*".
Proof.
  revert p. induction s as [|a s IH]; intros p; [done|].
  cbn [strip_star]. destruct s as [|b s].
  - case_bool_decide; [|done]. intros [= <-]. by subst.
  - destruct (strip_star (String b s)) as [q|] eqn:Hq; [|done].
    intros [= <-]. by rewrite (IH q eq_refl).
Qed.

Lemma existsb_bool_decide_elem (x : string) (v : list string) :
  existsb (λ s, bool_decide (s = x)) v = true ↔ x ∈ v.
Proof.
  rewrite existsb_exists. setoid_rewrite bool_decide_eq_true.
  rewrite list_elem_of_In. naive_solver.
Qed.

(** The canonical wire form of a tag filter decodes to the filter, for both
    operators and every value. *)
Theorem filter_serialize_roundtrip f :
  filter_deserialize (filter_serialize f) = Some f.
Proof.
  destruct f as [[] v]; unfold filter_serialize; simpl; [done|].
  by rewrite strip_star_app.
Qed.

Theorem evaluate_deliver_iff nf ttl now ts del node :
  evaluate nf ttl now ts del node = Deliver ↔
    (0 < ttl → i64_sat_sub now ts <= as_i64 ttl) ∧ del = false ∧
    (∀ f n, nf = Some f → node = Some n → node_matches f n = false).
Proof.
  unfold evaluate. destruct ((0 <? ttl) && _) eqn:Httl.
  { apply andb_true_iff in Httl as [?%Z.ltb_lt ?%Z.ltb_lt].
    split; [done|]. intros [Hexp _]. lia. }
  apply andb_false_iff in Httl. rewrite !Z.ltb_ge in Httl.
  destruct del; [by naive_solver|].
  destruct nf as [f|], node as [n|]; try destruct (node_matches f n) eqn:?;
    split; try done; try (intros (_ & _ & Hn); by rewrite (Hn f n) in *);
    (intros _; split_and!; [lia|done|naive_solver]).
Qed.

Lemma normalize_durability_idemp c :
  normalize_durability (normalize_durability c) = normalize_durability c.
Proof. by destruct c. Qed.

Lemma normalize_durability_class c :
  durability_class (normalize_durability c) = durability_class c.
Proof. done. Qed.
