(* ===== verification/Eviction.v ===== *)
(** * Loss floors, admission and tombstones

    Models [src/engine/eviction.rs]: the four floors behind [earliest_seq], the
    admission test of a full topic, and the gap a tombstone reports. *)

From S2P Require Import Prelude Types.

(** ** The floors *)
Record Floors := mkFloors {
  evict_floor : Z;
  expiry_floor : Z;
  delete_floor : Z;
  source_trim_floor : Z
}.

(** [Floors::default] *)
Definition default_floors : Floors := mkFloors 0 0 0 0.

(** [Floors::earliest_seq] *)
Definition floors_earliest_seq (f : Floors) (seq_base head_seq : Z) : Z :=
  let floor := Z.max (Z.max (Z.max (evict_floor f) (expiry_floor f)) (delete_floor f))
                     (source_trim_floor f) in
  let earliest := Z.max (floor +s 1) seq_base in
  Z.min earliest (head_seq +s 1).

(** [Floors::evict_earliest] *)
Definition evict_earliest (f : Floors) (seq_base head_seq : Z) : Z :=
  let floor := Z.max (Z.max (evict_floor f) (expiry_floor f)) (source_trim_floor f) in
  let earliest := Z.max (floor +s 1) seq_base in
  Z.min earliest (head_seq +s 1).

(** [Floors::reason_for_gap] *)
Definition reason_for_gap (f : Floors) (gap_from : Z) : TombstoneReason :=
  let cap := (gap_from <=? evict_floor f) && (0 <? evict_floor f) in
  let ttl := (gap_from <=? expiry_floor f) && (0 <? expiry_floor f) in
  let src_trim := (gap_from <=? source_trim_floor f) && (0 <? source_trim_floor f) in
  match cap, ttl with
  | true, true => Mixed
  | false, true => Ttl
  | true, false => Cap
  | false, false => if src_trim then SourceTrim else Cap
  end.

(** ** Admission *)
Inductive AdmitDecision := Admit | RejectWrite.

(** [eviction::admit] *)
Definition admit_write (discard : Discard) (cap_records cap_bytes current_records current_bytes
    incoming_records incoming_bytes : Z) : AdmitDecision :=
  match discard with
  | Old => Admit
  | Reject =>
      let proj_records := current_records +s incoming_records in
      let proj_bytes := current_bytes +s incoming_bytes in
      if (0 <? cap_records) && (cap_records <? proj_records) then RejectWrite
      else if (0 <? cap_bytes) && (cap_bytes <? proj_bytes) then RejectWrite
      else Admit
  end.

(** ** Tombstones *)

(** [eviction::build_tombstone] *)
Definition build_tombstone (from_seq earliest_seq head_seq : Z)
    (reason : TombstoneReason) : Tombstone :=
  let gap_from := from_seq +s 1 in
  let gap_to := earliest_seq -s 1 in
  let missed_estimate := (gap_to -s gap_from) +s 1 in
  mkTombstone gap_from gap_to reason missed_estimate earliest_seq head_seq.

(** ** Theorems *)
Definition floors_u64 (f : Floors) : Prop :=
  is_u64 (evict_floor f) ∧ is_u64 (expiry_floor f) ∧
  is_u64 (delete_floor f) ∧ is_u64 (source_trim_floor f).

Lemma default_floors_u64 : floors_u64 default_floors.
Proof. unfold floors_u64. simpl. sat_lia. Qed.

#[export] Hint Resolve default_floors_u64 : streams.

(** [earliest_seq] stays within the topic's seq range. *)
Lemma earliest_seq_bounds f seq_base head :
  0 <= head < u64_max → 0 <= seq_base <= head + 1 →
  seq_base <= floors_earliest_seq f seq_base head <= head + 1.
Proof. unfold floors_earliest_seq. sat_lia. Qed.

(** The involuntary boundary never exceeds the reported one: what a tombstone
    covers is always below the first live seq. *)
Lemma evict_earliest_le f seq_base head :
  evict_earliest f seq_base head <= floors_earliest_seq f seq_base head.
Proof. unfold evict_earliest, floors_earliest_seq. sat_lia. Qed.

(** Raising the delete floor leaves the tombstone boundary where it was. *)
Lemma evict_earliest_delete_silent e x d d' s seq_base head :
  evict_earliest (mkFloors e x d s) seq_base head
  = evict_earliest (mkFloors e x d' s) seq_base head.
Proof. done. Qed.

(** A seq at or above [earliest_seq] lies above every floor. *)
Lemma earliest_above_floors f seq_base head s :
  0 <= head < u64_max → s <= head →
  floors_earliest_seq f seq_base head <= s →
  evict_floor f < s ∧ expiry_floor f < s ∧ delete_floor f < s ∧ source_trim_floor f < s.
Proof. unfold floors_earliest_seq. sat_lia. Qed.

(** The gap of a tombstone is exactly the seqs strictly between the cursor and
    [earliest_seq], and its estimate is their number. *)
Lemma build_tombstone_gap from earliest head reason s :
  0 <= from → from + 1 < earliest → earliest <= u64_max →
  let t := build_tombstone from earliest head reason in
  (t_gap_from t <= s <= t_gap_to t ↔ from < s < earliest) ∧
  t_missed_estimate t = earliest - 1 - from.
Proof. simpl. sat_lia. Qed.

Lemma admit_reject_within_caps cr cb nr nb ir ib :
  0 <= nr → 0 <= nb → 0 <= ir → 0 <= ib → cr < u64_max → cb < u64_max →
  admit_write Reject cr cb nr nb ir ib = Admit →
  (0 < cr → nr + ir <= cr) ∧ (0 < cb → nb + ib <= cb).
Proof.
  unfold admit_write. intros. destruct_zcmp; simpl in *; try done; sat_lia.
Qed.
