(* ===== verification/TopicIndex.v ===== *)
(** * The seq index of a topic

    Models [StoredRecord] and [TopicIndex] of [src/engine/topic_state.rs]: a
    contiguous deque of slots offset by [base_seq], with a tag index from each
    tag to the ascending seqs that carry it.  The main results are that the tag
    index is at all times exactly the tags of the slots, and that the point
    lookup and the prefix scan return exactly the live matching seqs. *)

From S2P Require Import Prelude Types.

(** The payload type is serde_json's [Value], which the index only stores and
    frees; [json_null] is [Value::Null]. *)
Class JsonNull (V : Type) := json_null : V.

Record StoredRecord (V : Type) := mkRecord {
  r_ts : Z;
  r_node : option string;
  r_tag : option string;
  r_data : V;
  r_meta : option V;
  r_bytes : Z;
  r_deleted : bool;
  r_payload_resident : bool;
  r_hops : Z
}.
Arguments mkRecord {V}.
Arguments r_ts {V}.
Arguments r_node {V}.
Arguments r_tag {V}.
Arguments r_data {V}.
Arguments r_meta {V}.
Arguments r_bytes {V}.
Arguments r_deleted {V}.
Arguments r_payload_resident {V}.
Arguments r_hops {V}.

Record TopicIndex (V : Type) := mkTopicIndex {
  base_seq : Z;
  records : list (StoredRecord V);
  tag_index : gmap string (list Z);
  delete_below : Z
}.
Arguments mkTopicIndex {V}.
Arguments base_seq {V}.
Arguments records {V}.
Arguments tag_index {V}.
Arguments delete_below {V}.

(** The postings of a tag; an absent key has none. *)
Definition postings (m : gmap string (list Z)) (t : string) : list Z :=
  default [] (m !! t).

(** [TopicIndex::index_tag] *)
Definition index_tag (seq : Z) (tag : string) (m : gmap string (list Z)) :
    gmap string (list Z) :=
  <[tag := postings m tag ++ [seq]]> m.

(** [TopicIndex::unindex_tag] *)
Definition unindex_tag (tag : string) (seq : Z) (m : gmap string (list Z)) :
    gmap string (list Z) :=
  match m !! tag with
  | None => m
  | Some v =>
      match remove_sorted seq v with
      | [] => delete tag m
      | v' => <[tag := v']> m
      end
  end.

Section index.
Context {V : Type} `{!JsonNull V}.
Implicit Types (ix : TopicIndex V) (r : StoredRecord V).

(** [TopicIndex::new] *)
Definition index_new (base : Z) : TopicIndex V := mkTopicIndex base [] ∅ 0.

(** [base_seq + records.len()]: the seq the next staged record receives. *)
Definition tail_seq (ix : TopicIndex V) : Z :=
  base_seq ix + Z.of_nat (length (records ix)).

(** [TopicIndex::get] *)
Definition get (ix : TopicIndex V) (seq : Z) : option (StoredRecord V) :=
  if seq <? base_seq ix then None
  else records ix !! Z.to_nat (seq - base_seq ix).

(** [TopicIndex::slot_idx] *)
Definition slot_idx (ix : TopicIndex V) (seq : Z) : option nat :=
  if seq <? base_seq ix then None
  else
    let i := Z.to_nat (seq - base_seq ix) in
    if (i <? length (records ix))%nat then Some i else None.

(** [TopicIndex::is_dead] *)
Definition is_dead (ix : TopicIndex V) (seq : Z) : bool :=
  if seq <? delete_below ix then true
  else match slot_idx ix seq with
       | Some i =>
           match records ix !! i with
           | Some r => r_deleted r
           | None => false
           end
       | None => seq <? base_seq ix
       end.

(** [TopicIndex::range_all_dead] *)
Definition range_all_dead (ix : TopicIndex V) (start end_ : Z) : bool :=
  forallb (is_dead ix) (seqZ start (end_ - start + 1)).

(** [TopicIndex::matching_live_seqs] *)
Definition matching_live_seqs (ix : TopicIndex V) (f : Filter) (bound : Z) : list Z :=
  let below := filter (λ s, s < bound) in
  merge_sort Z.le
    match f_op f with
    | FilterOp.Eq =>
        match tag_index ix !! f_value f with
        | Some seqs => below seqs
        | None => []
        end
    | FilterOp.Glob =>
        concat
          ((λ e : string * list Z, below e.2) <$>
            take_while (λ e, starts_with (f_value f) e.1)
              (btree_range_from (f_value f) (tag_index ix)))
    end.

(** The loop of [TopicIndex::drain_front] over the slots it pops. *)
Fixpoint drain_loop (seq : Z) (recs : list (StoredRecord V))
    (m : gmap string (list Z)) (live_popped : Z) : gmap string (list Z) * Z :=
  match recs with
  | [] => (m, live_popped)
  | r :: recs =>
      let live_popped := if r_deleted r then live_popped else live_popped + 1 in
      let m := match r_tag r with Some t => unindex_tag t seq m | None => m end in
      drain_loop (seq + 1) recs m live_popped
  end.

(** [TopicIndex::drain_front] *)
Definition drain_front (ix : TopicIndex V) (n : nat) : TopicIndex V * Z :=
  let n := (n `min` length (records ix))%nat in
  let '(m, live) := drain_loop (base_seq ix) (take n (records ix)) (tag_index ix) 0 in
  (mkTopicIndex (base_seq ix + Z.of_nat n) (drop n (records ix)) m (delete_below ix), live).

(** A slot whose payload, tag and bytes are freed. *)
Definition clear_slot (r : StoredRecord V) : StoredRecord V :=
  mkRecord (r_ts r) (r_node r) None json_null None 0 true
    (r_payload_resident r) (r_hops r).

(** [TopicIndex::mark_deleted] *)
Definition mark_deleted (ix : TopicIndex V) (seq : Z) : TopicIndex V * option Z :=
  match slot_idx ix seq with
  | None => (ix, None)
  | Some i =>
      match records ix !! i with
      | None => (ix, None)
      | Some r =>
          if r_deleted r then (ix, None)
          else
            let m := match r_tag r with
                     | Some t => unindex_tag t seq (tag_index ix)
                     | None => tag_index ix
                     end in
            (mkTopicIndex (base_seq ix) (<[i := clear_slot r]> (records ix)) m
               (delete_below ix), Some (r_bytes r))
      end
  end.

(** Whether the slot of [seq] is present and live, as
    [index.get(seq).map(|r| !r.deleted).unwrap_or(false)] computes it. *)
Definition live_at (ix : TopicIndex V) (seq : Z) : bool :=
  match get ix seq with
  | Some r => negb (r_deleted r)
  | None => false
  end.

(** One push of the staging loop: the tag posting, then the slot. *)
Definition push_record (ix : TopicIndex V) (r : StoredRecord V) : TopicIndex V :=
  let m := match r_tag r with
           | Some t => index_tag (tail_seq ix) t (tag_index ix)
           | None => tag_index ix
           end in
  mkTopicIndex (base_seq ix) (records ix ++ [r]) m (delete_below ix).

(** [deleted_hole] *)
Definition deleted_hole : StoredRecord V :=
  mkRecord 0 None None json_null None 0 true true 0.

(** ** The index invariant *)

(** The tag index [m] is exactly the tags of the slots [recs] from [base]. *)
Record tags_ok (base : Z) (recs : list (StoredRecord V))
    (m : gmap string (list Z)) : Prop := {
  tags_nonempty t l : m !! t = Some l → l ≠ [];
  tags_ascending t : ascending (postings m t);
  tags_exact t s :
    s ∈ postings m t ↔
      ∃ (i : nat) r, recs !! i = Some r ∧ s = base + Z.of_nat i ∧ r_tag r = Some t
}.

(** A deleted slot holds no tag and accounts for no bytes. *)
Definition slot_ok (r : StoredRecord V) : Prop :=
  0 <= r_bytes r ∧ (r_deleted r = true → r_tag r = None ∧ r_bytes r = 0).

Record index_wf (ix : TopicIndex V) : Prop := {
  wf_base : 0 <= base_seq ix;
  wf_slots : Forall slot_ok (records ix);
  wf_tags : tags_ok (base_seq ix) (records ix) (tag_index ix);
  wf_delete_below : is_u64 (delete_below ix)
}.

(** ** Lookups *)
Lemma get_slot ix s r :
  get ix s = Some r ↔
    ∃ i : nat, records ix !! i = Some r ∧ s = base_seq ix + Z.of_nat i.
Proof.
  unfold get. destruct (Z.ltb_spec s (base_seq ix)).
  - split; [done|]. intros (i & _ & ->). lia.
  - split.
    + intros Hr. exists (Z.to_nat (s - base_seq ix)). split; [done|lia].
    + intros (i & Hi & ->). by replace (Z.to_nat _) with i by lia.
Qed.

Lemma slot_idx_get ix s i :
  slot_idx ix s = Some i ↔
    s = base_seq ix + Z.of_nat i ∧ (i < length (records ix))%nat.
Proof.
  unfold slot_idx. destruct (Z.ltb_spec s (base_seq ix)).
  - split; [done|]. lia.
  - destruct (Nat.ltb_spec (Z.to_nat (s - base_seq ix)) (length (records ix))).
    + split; [intros [= <-]; lia|]. intros [-> ?]. f_equal. lia.
    + split; [done|]. lia.
Qed.

Lemma slot_idx_None ix s :
  slot_idx ix s = None ↔ s < base_seq ix ∨ tail_seq ix <= s.
Proof.
  unfold slot_idx, tail_seq. destruct (Z.ltb_spec s (base_seq ix)).
  - split; [by left|done].
  - destruct (Nat.ltb_spec (Z.to_nat (s - base_seq ix)) (length (records ix))).
    + split; [done|lia].
    + split; [lia|done].
Qed.

Lemma get_is_Some ix s :
  is_Some (get ix s) ↔ base_seq ix <= s < tail_seq ix.
Proof.
  unfold get, tail_seq. destruct (Z.ltb_spec s (base_seq ix)).
  - split; [intros [? ?]; done|lia].
  - rewrite lookup_lt_is_Some. lia.
Qed.

(** ** Posting lists *)
Lemma postings_unindex m t s t' :
  postings (unindex_tag t s m) t' =
    if decide (t = t') then remove_sorted s (postings m t') else postings m t'.
Proof.
  unfold unindex_tag, postings. case_decide as Ht; subst.
  - destruct (m !! t') as [v|] eqn:Hv; simpl.
    + destruct (remove_sorted s v) as [|a l] eqn:Hr;
        by rewrite ?lookup_delete_eq, ?lookup_insert_eq.
    + by rewrite Hv.
  - destruct (m !! t) as [v|]; [|done].
    destruct (remove_sorted s v); by rewrite ?lookup_delete_ne, ?lookup_insert_ne.
Qed.

Lemma postings_index m t s t' :
  postings (index_tag s t m) t' =
    if decide (t = t') then postings m t' ++ [s] else postings m t'.
Proof.
  unfold index_tag, postings. rewrite lookup_insert. by case_decide; subst.
Qed.

Lemma unindex_nonempty m t s :
  (∀ t l, m !! t = Some l → l ≠ []) →
  ∀ t' l, unindex_tag t s m !! t' = Some l → l ≠ [].
Proof.
  intros Hm t' l. unfold unindex_tag. destruct (m !! t) as [v|]; [|apply Hm].
  destruct (remove_sorted s v) as [|a v'] eqn:Hr.
  - rewrite lookup_delete. case_decide; [done|apply Hm].
  - rewrite lookup_insert. case_decide; [|apply Hm]. by intros [= <-].
Qed.

Lemma postings_unindex_ascending m t s t' :
  ascending (postings m t') → ascending (postings (unindex_tag t s m) t').
Proof.
  intros. rewrite postings_unindex. case_decide; [|done].
  by apply ascending_filter.
Qed.

(** Forgetting the tag of one slot. [recs'] is [recs] without (or with a cleared)
    slot [s]: every other slot keeps its seq and tag. *)
Lemma tags_ok_forget base base' recs recs' m s t :
  tags_ok base recs m →
  (∀ t' s', (∃ (i : nat) r, recs' !! i = Some r ∧ s' = base' + Z.of_nat i ∧ r_tag r = Some t')
     ↔ s' ≠ s ∧ ∃ (i : nat) r, recs !! i = Some r ∧ s' = base + Z.of_nat i ∧ r_tag r = Some t') →
  (∀ t', t' ≠ t → s ∉ postings m t') →
  tags_ok base' recs' (unindex_tag t s m).
Proof.
  intros [Hne Hasc Hex] Hrecs Hs. split.
  - by apply unindex_nonempty.
  - intros t'. by apply postings_unindex_ascending.
  - intros t' s'. rewrite postings_unindex, Hrecs. case_decide as Ht; subst.
    + rewrite elem_of_remove_sorted. by rewrite Hex.
    + rewrite <-Hex. split; [|by intros [_ ?]].
      intros Hin. split; [|done]. intros ->. by apply (Hs t').
Qed.

Lemma tags_ok_keep base base' recs recs' m :
  tags_ok base recs m →
  (∀ t' s', (∃ (i : nat) r, recs' !! i = Some r ∧ s' = base' + Z.of_nat i ∧ r_tag r = Some t')
     ↔ ∃ (i : nat) r, recs !! i = Some r ∧ s' = base + Z.of_nat i ∧ r_tag r = Some t') →
  tags_ok base' recs' m.
Proof.
  intros [Hne Hasc Hex] Hrecs. split; [done|done|].
  intros t s. by rewrite Hrecs, Hex.
Qed.

(** A slot's seq is posted under no tag but its own. *)
Lemma tags_ok_other base recs m i r t t' :
  tags_ok base recs m → recs !! i = Some r → r_tag r = Some t → t' ≠ t →
  (base + Z.of_nat i) ∉ postings m t'.
Proof.
  intros [_ _ Hex] Hi Ht Hne Hin. apply Hex in Hin as (j & r' & Hj & Heq & Ht').
  assert (j = i) as -> by lia. congruence.
Qed.

(** ** Preservation of the tag index *)
Lemma tags_ok_nil base : tags_ok base [] ∅.
Proof.
  split.
  - by intros t l ?%lookup_empty_Some.
  - intros t. unfold postings. rewrite lookup_empty. constructor.
  - intros t s. unfold postings. rewrite lookup_empty. simpl.
    split; [by intros ?%elem_of_nil|]. intros (i & r & ? & _). done.
Qed.

Lemma tags_ok_push base recs m r :
  tags_ok base recs m →
  tags_ok base (recs ++ [r])
    match r_tag r with
    | Some t => index_tag (base + Z.of_nat (length recs)) t m
    | None => m
    end.
Proof.
  intros Hok. destruct Hok as [Hne Hasc Hex].
  assert (Hsnoc : ∀ t s,
    (∃ (i : nat) r', (recs ++ [r]) !! i = Some r' ∧ s = base + Z.of_nat i ∧ r_tag r' = Some t)
    ↔ s ∈ postings m t ∨ s = base + Z.of_nat (length recs) ∧ r_tag r = Some t).
  { intros t s. rewrite Hex. setoid_rewrite lookup_app_Some.
    setoid_rewrite list_lookup_singleton_Some. split.
    - intros (i & r' & [?|(? & ? & ?)] & -> & ?); [left; eauto|right].
      subst. split; [f_equal; lia|done].
    - intros [(i & r' & ? & -> & ?)|[-> ?]]; [eauto 8|].
      exists (length recs), r. split_and!; [right|done|done].
      split; [done|]. split; [lia|done]. }
  destruct (r_tag r) as [tg|] eqn:Htag.
  - split.
    + intros t l. unfold index_tag. rewrite lookup_insert. case_decide; [|apply Hne].
      intros [= <-]. by destruct (postings m tg).
    + intros t. rewrite postings_index. case_decide; [|done]. subst.
      apply ascending_snoc; [done|]. intros y (i & r' & Hi & -> & _)%Hex.
      apply lookup_lt_Some in Hi. lia.
    + intros t s. rewrite Hsnoc, postings_index. case_decide; subst.
      * rewrite elem_of_app, list_elem_of_singleton. naive_solver.
      * naive_solver.
  - split; [done|done|]. intros t s. rewrite Hsnoc. naive_solver.
Qed.

Lemma tags_ok_pop_front base r recs m :
  tags_ok base (r :: recs) m →
  tags_ok (base + 1) recs
    match r_tag r with Some t => unindex_tag t base m | None => m end.
Proof.
  intros Hok.
  assert (Htl : ∀ t s,
    (∃ (i : nat) r', recs !! i = Some r' ∧ s = base + 1 + Z.of_nat i ∧ r_tag r' = Some t)
    ↔ s ≠ base ∧ ∃ (i : nat) r', (r :: recs) !! i = Some r' ∧ s = base + Z.of_nat i ∧ r_tag r' = Some t).
  { intros t s. split.
    - intros (i & r' & ? & -> & ?). split; [lia|]. exists (S i), r'.
      split_and!; [done|lia|done].
    - intros (Hs & [|i] & r' & ? & -> & ?); [lia|]. exists i, r'.
      split_and!; [done|lia|done]. }
  destruct (r_tag r) as [tg|] eqn:Htag.
  - eapply tags_ok_forget; [done|done|]. intros t' Ht'.
    replace base with (base + Z.of_nat 0) by lia. by eapply tags_ok_other.
  - eapply tags_ok_keep; [done|]. intros t s. rewrite Htl. split; [by intros [_ ?]|].
    intros (i & r' & Hi & -> & Hr'). split; [|eauto]. destruct i; [|lia]. naive_solver.
Qed.

Lemma tags_ok_pop_back base r recs m :
  tags_ok base (recs ++ [r]) m →
  tags_ok base recs
    match r_tag r with
    | Some t => unindex_tag t (base + Z.of_nat (length recs)) m
    | None => m
    end.
Proof.
  intros Hok. assert (Hlast : (recs ++ [r]) !! length recs = Some r)
    by (by apply list_lookup_middle).
  assert (Hin : ∀ t s,
    (∃ (i : nat) r', recs !! i = Some r' ∧ s = base + Z.of_nat i ∧ r_tag r' = Some t)
    ↔ s ≠ base + Z.of_nat (length recs) ∧
      ∃ (i : nat) r', (recs ++ [r]) !! i = Some r' ∧ s = base + Z.of_nat i ∧ r_tag r' = Some t).
  { intros t s. split.
    - intros (i & r' & Hi & -> & ?). split.
      + apply lookup_lt_Some in Hi. lia.
      + exists i, r'. split_and!; [by apply lookup_app_l_Some|done|done].
    - intros (Hs & i & r' & Hi & -> & ?). exists i, r'. split_and!; [|done|done].
      apply lookup_app_Some in Hi as [?|[? Hi]]; [done|].
      apply list_lookup_singleton_Some in Hi as [? _]. lia. }
  destruct (r_tag r) as [tg|] eqn:Htag.
  - eapply tags_ok_forget; [done|done|]. intros t' Ht'. by eapply tags_ok_other.
  - eapply tags_ok_keep; [done|]. intros t s. rewrite Hin. split; [by intros [_ ?]|].
    intros (i & r' & Hi & -> & Hr'). split; [|eauto]. intros Heq.
    assert (i = length recs) as -> by lia. naive_solver.
Qed.

Lemma tags_ok_clear base recs m i r r' :
  tags_ok base recs m → recs !! i = Some r → r_tag r' = None →
  tags_ok base (<[i := r']> recs)
    match r_tag r with
    | Some t => unindex_tag t (base + Z.of_nat i) m
    | None => m
    end.
Proof.
  intros Hok Hi Hr'.
  assert (Hin : ∀ t s,
    (∃ (j : nat) q, (<[i := r']> recs) !! j = Some q ∧ s = base + Z.of_nat j ∧ r_tag q = Some t)
    ↔ s ≠ base + Z.of_nat i ∧
      ∃ (j : nat) q, recs !! j = Some q ∧ s = base + Z.of_nat j ∧ r_tag q = Some t).
  { intros t s. split.
    - intros (j & q & Hj & -> & ?). apply list_lookup_insert_Some in Hj as
        [(-> & <- & _)|[? Hj]]; [congruence|]. split; [lia|eauto].
    - intros (Hs & j & q & Hj & -> & ?). exists j, q. split_and!; [|done|done].
      rewrite list_lookup_insert_ne; [done|]. intros ->. by apply Hs. }
  destruct (r_tag r) as [tg|] eqn:Htag.
  - eapply tags_ok_forget; [done|done|]. intros t' Ht'. by eapply tags_ok_other.
  - eapply tags_ok_keep; [done|]. intros t s. rewrite Hin. split; [by intros [_ ?]|].
    intros (j & q & Hj & -> & Hq). split; [|eauto]. intros Heq.
    assert (j = i) as -> by lia. naive_solver.
Qed.

(** ** Accounting of the slots *)
Definition live_slots (recs : list (StoredRecord V)) : Z :=
  Z.of_nat (length (filter (λ r, r_deleted r = false) recs)).

Definition total_bytes (recs : list (StoredRecord V)) : Z :=
  foldr (λ r acc, r_bytes r + acc) 0 recs.

Lemma live_slots_nonneg recs : 0 <= live_slots recs.
Proof. unfold live_slots. lia. Qed.

Lemma live_slots_cons r recs :
  live_slots (r :: recs) = (if r_deleted r then 0 else 1) + live_slots recs.
Proof. unfold live_slots. rewrite filter_cons. by destruct (r_deleted r); simpl; lia. Qed.

Lemma live_slots_app recs1 recs2 :
  live_slots (recs1 ++ recs2) = live_slots recs1 + live_slots recs2.
Proof. unfold live_slots. rewrite filter_app, length_app. lia. Qed.

Lemma total_bytes_app recs1 recs2 :
  total_bytes (recs1 ++ recs2) = total_bytes recs1 + total_bytes recs2.
Proof. induction recs1 as [|r recs1 IH]; simpl; [done|]. lia. Qed.

Lemma total_bytes_nonneg recs : Forall slot_ok recs → 0 <= total_bytes recs.
Proof. induction 1 as [|r recs [Hr _] _ IH]; simpl; lia. Qed.

Lemma live_slots_insert recs i r r' :
  recs !! i = Some r → r_deleted r = false → r_deleted r' = true →
  live_slots (<[i := r']> recs) = live_slots recs - 1.
Proof.
  revert i. induction recs as [|q recs IH]; intros [|i] Hi Hr Hr'; simplify_eq/=.
  - rewrite !live_slots_cons, Hr, Hr'. lia.
  - rewrite !live_slots_cons, IH by done. lia.
Qed.

Lemma total_bytes_insert recs i r r' :
  recs !! i = Some r → r_bytes r' = 0 →
  total_bytes (<[i := r']> recs) = total_bytes recs - r_bytes r.
Proof.
  revert i. induction recs as [|q recs IH]; intros [|i] Hi Hr'; simplify_eq/=.
  - lia.
  - rewrite IH by done. lia.
Qed.

(** ** Preservation of the index invariant *)
Lemma index_new_wf base : 0 <= base → index_wf (index_new base).
Proof. split; simpl; [done|constructor|apply tags_ok_nil|by unfold is_u64]. Qed.

Lemma push_record_wf ix r : index_wf ix → slot_ok r → index_wf (push_record ix r).
Proof.
  intros [Hb Hs Ht ?] Hr. split; simpl; [done| | |done].
  - apply Forall_app. split; [done|]. by apply Forall_singleton.
  - by apply tags_ok_push.
Qed.

Lemma push_record_tail ix r : tail_seq (push_record ix r) = tail_seq ix + 1.
Proof. unfold tail_seq. simpl. rewrite length_app. simpl. lia. Qed.

Lemma drain_loop_spec base recs1 recs2 m k :
  tags_ok base (recs1 ++ recs2) m →
  tags_ok (base + Z.of_nat (length recs1)) recs2 (drain_loop base recs1 m k).1 ∧
  (drain_loop base recs1 m k).2 = k + live_slots recs1.
Proof.
  revert base m k. induction recs1 as [|r recs1 IH]; intros base m k Hok; simpl.
  - split; [by rewrite Z.add_0_r|]. unfold live_slots. simpl. lia.
  - apply tags_ok_pop_front in Hok. apply (IH _ _ (if r_deleted r then k else k + 1)) in Hok
      as [Htags Hlive]. split.
    + by replace (base + Z.of_nat (S (length recs1)))
        with (base + 1 + Z.of_nat (length recs1)) by lia.
    + rewrite Hlive, live_slots_cons. destruct (r_deleted r); lia.
Qed.

Lemma drain_front_records ix n :
  records (drain_front ix n).1 = drop n (records ix) ∧
  base_seq (drain_front ix n).1 = base_seq ix + Z.of_nat (n `min` length (records ix)) ∧
  delete_below (drain_front ix n).1 = delete_below ix.
Proof.
  unfold drain_front. destruct (drain_loop _ _ _ _). simpl. split_and!; [|done|done].
  destruct (decide (n <= length (records ix))%nat).
  - by rewrite Nat.min_l.
  - by rewrite Nat.min_r, !drop_ge by lia.
Qed.

Lemma drain_front_tail ix n : tail_seq (drain_front ix n).1 = tail_seq ix.
Proof.
  unfold tail_seq. destruct (drain_front_records ix n) as (-> & -> & _).
  rewrite length_drop. lia.
Qed.

Lemma drain_front_wf ix n : index_wf ix → index_wf (drain_front ix n).1.
Proof.
  intros [Hb Hs Ht Hd]. unfold drain_front.
  set (k := (n `min` length (records ix))%nat).
  rewrite <-(take_drop k (records ix)) in Ht.
  destruct (drain_loop_spec _ _ _ _ 0 Ht) as [Htags _].
  rewrite length_take, (Nat.min_l k) in Htags by lia.
  destruct (drain_loop _ _ _ _) as [m live]. split; simpl in *; [lia| |done|done].
  by apply Forall_drop.
Qed.

(** [drain_front] reports exactly the live slots it pops. *)
Lemma drain_front_live ix n :
  index_wf ix → (drain_front ix n).2 = live_slots (take n (records ix)).
Proof.
  intros [_ _ Ht]. unfold drain_front.
  set (k := (n `min` length (records ix))%nat).
  rewrite <-(take_drop k (records ix)) in Ht.
  destruct (drain_loop_spec _ _ _ _ 0 Ht) as [_ Hlive].
  destruct (drain_loop _ _ _ _) as [m live]. simpl in *. rewrite Hlive.
  unfold k. destruct (decide (n <= length (records ix))%nat).
  - rewrite Nat.min_l by lia. lia.
  - rewrite Nat.min_r, !take_ge by lia. lia.
Qed.

(** Popping the front leaves every remaining seq where it was. *)
Lemma drain_front_get ix n s :
  get (drain_front ix n).1 s =
    if s <? base_seq ix + Z.of_nat (n `min` length (records ix)) then None else get ix s.
Proof.
  unfold get. destruct (drain_front_records ix n) as (-> & -> & _).
  destruct_zcmp; [done|lia|]. rewrite lookup_drop.
  destruct (decide (n <= length (records ix))%nat).
  - f_equal. lia.
  - rewrite !lookup_ge_None_2; [done|lia|lia].
Qed.

Lemma mark_deleted_cases ix s :
  (mark_deleted ix s = (ix, None) ∧
     ∀ r, get ix s = Some r → r_deleted r = true) ∨
  (∃ (i : nat) r m, records ix !! i = Some r ∧ s = base_seq ix + Z.of_nat i ∧
     r_deleted r = false ∧ get ix s = Some r ∧
     m = match r_tag r with Some t => unindex_tag t s (tag_index ix) | None => tag_index ix end ∧
     mark_deleted ix s =
       (mkTopicIndex (base_seq ix) (<[i := clear_slot r]> (records ix)) m (delete_below ix),
        Some (r_bytes r))).
Proof.
  unfold mark_deleted. destruct (slot_idx ix s) as [i|] eqn:Hi.
  - apply slot_idx_get in Hi as [Hs Hlt].
    destruct (lookup_lt_is_Some_2 _ _ Hlt) as [r Hr]. rewrite Hr.
    assert (Hg : get ix s = Some r) by (apply get_slot; eauto).
    destruct (r_deleted r) eqn:Hd.
    + left. split; [done|]. intros r' Hr'. congruence.
    + right. exists i, r. eauto 10.
  - left. split; [done|]. intros r Hr. apply slot_idx_None in Hi.
    assert (is_Some (get ix s)) as ?%get_is_Some by eauto. lia.
Qed.

Lemma clear_slot_ok r : slot_ok (clear_slot r).
Proof. by split. Qed.

Lemma deleted_hole_ok : slot_ok deleted_hole.
Proof. by split. Qed.

Lemma mark_deleted_wf ix s : index_wf ix → index_wf (mark_deleted ix s).1.
Proof.
  intros Hwf. destruct (mark_deleted_cases ix s) as
    [[-> _]|(i & r & m & Hi & -> & Hd & _ & -> & ->)]; [done|].
  destruct Hwf as [Hb Hs Ht ?]. split; simpl; [done| | |done].
  - apply Forall_insert; [done|apply clear_slot_ok].
  - by apply tags_ok_clear.
Qed.

Lemma mark_deleted_shape ix s :
  base_seq (mark_deleted ix s).1 = base_seq ix ∧
  length (records (mark_deleted ix s).1) = length (records ix) ∧
  tail_seq (mark_deleted ix s).1 = tail_seq ix ∧
  delete_below (mark_deleted ix s).1 = delete_below ix.
Proof.
  unfold tail_seq. destruct (mark_deleted_cases ix s) as
    [[-> _]|(i & r & m & _ & _ & _ & _ & _ & ->)]; simpl; [done|].
  by rewrite length_insert.
Qed.

(** [mark_deleted] clears the slot of [s] when it is live and touches nothing
    else. *)
Lemma mark_deleted_get ix s s' :
  get (mark_deleted ix s).1 s' =
    match get ix s' with
    | Some r => Some (if bool_decide (s = s' ∧ r_deleted r = false) then clear_slot r else r)
    | None => None
    end.
Proof.
  destruct (mark_deleted_cases ix s) as
    [[-> Hdead]|(i & r & m & Hi & -> & Hd & Hg & _ & ->)]; simpl.
  - destruct (get ix s') as [r|] eqn:Hr; [|done].
    rewrite bool_decide_eq_false_2; [done|]. intros [-> Hl].
    by rewrite (Hdead r) in Hl.
  - unfold get in *. simpl. destruct (Z.ltb_spec s' (base_seq ix)); [done|].
    destruct (decide (Z.to_nat (s' - base_seq ix) = i)) as [<-|Hne].
    + rewrite list_lookup_insert_eq by (by eapply lookup_lt_Some).
      rewrite Hi, bool_decide_eq_true_2; [done|]. split; [lia|done].
    + rewrite list_lookup_insert_ne by done.
      destruct (records ix !! Z.to_nat (s' - base_seq ix)) as [r'|]; [|done].
      rewrite bool_decide_eq_false_2; [done|]. lia.
Qed.

(** The bytes it reports are those the slot accounted for. *)
Lemma mark_deleted_accounting ix s :
  match (mark_deleted ix s).2 with
  | Some freed =>
      (∃ r, get ix s = Some r ∧ r_deleted r = false ∧ r_bytes r = freed) ∧
      live_slots (records (mark_deleted ix s).1) = live_slots (records ix) - 1 ∧
      total_bytes (records (mark_deleted ix s).1) = total_bytes (records ix) - freed
  | None =>
      (mark_deleted ix s).1 = ix ∧ ∀ r, get ix s = Some r → r_deleted r = true
  end.
Proof.
  destruct (mark_deleted_cases ix s) as
    [[-> Hdead]|(i & r & m & Hi & -> & Hd & Hg & _ & ->)]; simpl; [done|].
  split_and!; [eauto|by eapply live_slots_insert|by eapply total_bytes_insert].
Qed.

(** Marking an unpublished or popped seq is a no-op. *)
Lemma mark_deleted_out ix s :
  s < base_seq ix ∨ tail_seq ix <= s → mark_deleted ix s = (ix, None).
Proof. intros Hs. unfold mark_deleted. by rewrite (proj2 (slot_idx_None ix s)). Qed.

(** ** Tag lookups *)
Definition live_tagged ix (f : Filter) (s : Z) : Prop :=
  ∃ r t, get ix s = Some r ∧ r_deleted r = false ∧ r_tag r = Some t ∧
         filter_matches f t = true.

Lemma elem_of_postings ix t s :
  index_wf ix →
  (s ∈ postings (tag_index ix) t ↔
   ∃ r, get ix s = Some r ∧ r_deleted r = false ∧ r_tag r = Some t).
Proof.
  intros [_ Hs Ht]. rewrite (tags_exact _ _ _ Ht). setoid_rewrite get_slot. split.
  - intros (i & r & Hi & -> & Hr). exists r. split; [eauto|]. split; [|done].
    destruct (r_deleted r) eqn:Hd; [|done].
    apply Forall_lookup_1 with (i := i) (x := r) in Hs as [_ Hs]; [|done].
    destruct (Hs Hd). congruence.
  - intros (r & (i & Hi & ->) & _ & Hr). eauto.
Qed.

Lemma btree_postings m t s :
  s ∈ postings m t ↔ ∃ l, (t, l) ∈ btree_entries m ∧ s ∈ l.
Proof.
  setoid_rewrite elem_of_btree_entries. unfold postings.
  destruct (m !! t) as [l|]; simpl.
  - naive_solver.
  - split; [by intros ?%elem_of_nil|naive_solver].
Qed.

(** The postings of all entries with a prefix, as the scan collects them. *)
Lemma elem_of_prefix_scan m p bound s :
  s ∈ concat ((λ e : string * list Z, filter (λ s, s < bound) e.2) <$>
               filter (λ e, starts_with p e.1 = true) (btree_entries m))
  ↔ s < bound ∧ ∃ t, starts_with p t = true ∧ s ∈ postings m t.
Proof.
  rewrite list_elem_of_In, in_concat. setoid_rewrite <-list_elem_of_In. split.
  - intros (l & ([t l'] & -> & [Hp He]%list_elem_of_filter)%list_elem_of_fmap & Hs).
    simpl in *. apply list_elem_of_filter in Hs as [Hb Hs]. split; [done|].
    exists t. split; [done|]. apply btree_postings. eauto.
  - intros (Hb & t & Hp & (l & He & Hs)%btree_postings).
    exists (filter (λ s, s < bound) l). split.
    + apply list_elem_of_fmap. exists (t, l). split; [done|].
      by apply list_elem_of_filter.
    + by apply list_elem_of_filter.
Qed.

Lemma matching_live_seqs_elem ix f bound s :
  index_wf ix →
  (s ∈ matching_live_seqs ix f bound ↔ s < bound ∧ live_tagged ix f s).
Proof.
  intros Hwf. unfold matching_live_seqs, live_tagged, filter_matches.
  rewrite merge_sort_Permutation. destruct f as [[] v]; simpl.
  - assert (s ∈ match tag_index ix !! v with Some seqs => filter (λ s, s < bound) seqs
            | None => [] end ↔ s < bound ∧ s ∈ postings (tag_index ix) v) as ->.
    { unfold postings. destruct (tag_index ix !! v); simpl.
      - by rewrite list_elem_of_filter.
      - rewrite elem_of_nil. naive_solver. }
    rewrite elem_of_postings by done. setoid_rewrite bool_decide_eq_true. naive_solver.
  - rewrite btree_prefix_scan, elem_of_prefix_scan.
    setoid_rewrite elem_of_postings; [|done]. naive_solver.
Qed.

(** A seq is posted under one tag only. *)
Lemma postings_disjoint ix t t' s :
  index_wf ix → s ∈ postings (tag_index ix) t → s ∈ postings (tag_index ix) t' → t = t'.
Proof.
  intros Hwf Ht Ht'. apply elem_of_postings in Ht as (r & Hr & _ & Hrt); [|done].
  apply elem_of_postings in Ht' as (r' & Hr' & _ & Hrt'); [|done]. congruence.
Qed.

Lemma prefix_scan_NoDup ix p bound :
  index_wf ix →
  NoDup (concat ((λ e : string * list Z, filter (λ s, s < bound) e.2) <$>
           filter (λ e, starts_with p e.1 = true) (btree_entries (tag_index ix)))).
Proof.
  intros Hwf.
  assert (Hkeys : NoDup (btree_entries (tag_index ix)).*1).
  { rewrite btree_entries_permutation. apply NoDup_fst_map_to_list. }
  assert (Hent : ∀ t l, (t, l) ∈ btree_entries (tag_index ix) →
                   l = postings (tag_index ix) t).
  { intros t l Hl%elem_of_btree_entries. unfold postings. by rewrite Hl. }
  revert Hkeys Hent. generalize (btree_entries (tag_index ix)) as es.
  induction es as [|[t l] es IH]; intros Hkeys Hent; [constructor|].
  simpl in Hkeys. apply NoDup_cons in Hkeys as [Hnew Hkeys].
  rewrite filter_cons. simpl. case_decide; simpl.
  2: { apply IH; [done|]. intros t' l' Hl'. apply Hent. by right. }
  apply NoDup_app. split_and!.
  - apply NoDup_filter. rewrite (Hent t l) by left.
    apply ascending_NoDup, (wf_tags _ Hwf).
  - intros s [_ Hs]%list_elem_of_filter Hin.
    rewrite list_elem_of_In, in_concat in Hin.
    destruct Hin as (k & Hk & Hsk). rewrite <-list_elem_of_In in Hk.
    rewrite <-list_elem_of_In in Hsk.
    apply list_elem_of_fmap in Hk as ([t' l'] & -> & [_ He]%list_elem_of_filter).
    simpl in Hsk. apply list_elem_of_filter in Hsk as [_ Hsk].
    rewrite (Hent t l) in Hs by left. rewrite (Hent t' l') in Hsk by (by right).
    apply Hnew, list_elem_of_fmap. exists (t', l'). split; [|done]. simpl.
    by eapply postings_disjoint.
  - apply IH; [done|]. intros t' l' Hl'. apply Hent. by right.
Qed.

Lemma matching_live_seqs_ascending ix f bound :
  index_wf ix → ascending (matching_live_seqs ix f bound).
Proof.
  intros Hwf. unfold matching_live_seqs. apply sorted_NoDup_ascending.
  - apply (StronglySorted_merge_sort _); apply _.
  - rewrite merge_sort_Permutation. destruct (f_op f).
    + destruct (tag_index ix !! f_value f) as [l|] eqn:Hl; [|constructor].
      apply NoDup_filter, ascending_NoDup.
      generalize (tags_ascending _ _ _ (wf_tags _ Hwf) (f_value f)).
      unfold postings. by rewrite Hl.
    + rewrite btree_prefix_scan. by apply prefix_scan_NoDup.
Qed.

End index.

#[export] Hint Resolve index_new_wf push_record_wf drain_front_wf mark_deleted_wf
  deleted_hole_ok clear_slot_ok : streams.
