(* ===== verification/QueueProjection.v ===== *)
(** * The materialized lease projection of a queue

    Models [Lease] and [QueueProjection] of [src/engine/queue.rs]: who holds
    which job until when, the reclaim freelist, the delayed nacks and the claim
    cursor.  A [BinaryHeap] is modelled by the ascending list of its elements:
    [push] inserts, [pop] and [peek] act on the head; nothing of its layout is
    observable.

    The invariant [proj_wf] bounds every tracked seq by the claim cursor and
    every lease id by the allocator; [accounted] says that a seq the cursor has
    passed is leased, on the freelist, or delayed, so that no live job is ever
    out of reach of a claim. *)

From S2P Require Import Prelude Types.

Record Lease := mkLease {
  l_node : string;
  l_lease_id : Z;
  l_deadline_ms : Z;
  l_by_work_conn : option Z
}.

#[export] Instance Lease_eq_dec : EqDecision Lease.
Proof. solve_decision. Defined.

Record QueueProjection := mkProjection {
  leases : gmap Z Lease;
  deliveries : gmap Z Z;
  reclaim : list Z;
  delayed : list (Z * Z);
  claim_cursor : Z;
  dead_lettered : Z;
  next_lease_id : Z;
  in_reclaim : gset Z
}.

(** ** Heaps *)
Fixpoint heap_push {A} (le : A → A → bool) (x : A) (l : list A) : list A :=
  match l with
  | [] => [x]
  | y :: l' => if le x y then x :: l else y :: heap_push le x l'
  end.

(** The order of [(i64, u64)] pairs. *)
Definition pair_leb (x y : Z * Z) : bool :=
  (x.1 <? y.1) || ((x.1 =? y.1) && (x.2 <=? y.2)).

(** ** Field updates *)
Definition set_leases (q : QueueProjection) (l : gmap Z Lease) : QueueProjection :=
  mkProjection l (deliveries q) (reclaim q) (delayed q) (claim_cursor q)
    (dead_lettered q) (next_lease_id q) (in_reclaim q).
Definition set_deliveries (q : QueueProjection) (d : gmap Z Z) : QueueProjection :=
  mkProjection (leases q) d (reclaim q) (delayed q) (claim_cursor q)
    (dead_lettered q) (next_lease_id q) (in_reclaim q).
Definition set_reclaim (q : QueueProjection) (r : list Z) (s : gset Z) : QueueProjection :=
  mkProjection (leases q) (deliveries q) r (delayed q) (claim_cursor q)
    (dead_lettered q) (next_lease_id q) s.
Definition set_delayed (q : QueueProjection) (d : list (Z * Z)) : QueueProjection :=
  mkProjection (leases q) (deliveries q) (reclaim q) d (claim_cursor q)
    (dead_lettered q) (next_lease_id q) (in_reclaim q).
Definition set_cursor (q : QueueProjection) (c : Z) : QueueProjection :=
  mkProjection (leases q) (deliveries q) (reclaim q) (delayed q) c
    (dead_lettered q) (next_lease_id q) (in_reclaim q).
Definition set_dead_lettered (q : QueueProjection) (n : Z) : QueueProjection :=
  mkProjection (leases q) (deliveries q) (reclaim q) (delayed q) (claim_cursor q)
    n (next_lease_id q) (in_reclaim q).
Definition set_next_lease_id (q : QueueProjection) (n : Z) : QueueProjection :=
  mkProjection (leases q) (deliveries q) (reclaim q) (delayed q) (claim_cursor q)
    (dead_lettered q) n (in_reclaim q).

(** ** Operations *)

(** [QueueProjection::new] *)
Definition projection_new (seq_base : Z) : QueueProjection :=
  mkProjection ∅ ∅ [] [] seq_base 0 1 ∅.

(** [QueueProjection::alloc_lease_id] *)
Definition alloc_lease_id (q : QueueProjection) : Z * QueueProjection :=
  (next_lease_id q, set_next_lease_id q (next_lease_id q + 1)).

(** [QueueProjection::push_reclaim] *)
Definition push_reclaim (q : QueueProjection) (seq : Z) : QueueProjection :=
  if decide (seq ∈ in_reclaim q) then q
  else set_reclaim q (heap_push Z.leb seq (reclaim q)) ({[seq]} ∪ in_reclaim q).

(** [QueueProjection::pop_reclaim] *)
Definition pop_reclaim (q : QueueProjection) : option (Z * QueueProjection) :=
  match reclaim q with
  | [] => None
  | seq :: rest => Some (seq, set_reclaim q rest (in_reclaim q ∖ {[seq]}))
  end.

(** [QueueProjection::push_delayed] *)
Definition push_delayed (q : QueueProjection) (ready_at_ms seq : Z) : QueueProjection :=
  set_delayed q (heap_push pair_leb (ready_at_ms, seq) (delayed q)).

(** The loop of [sweep_expired] over the delayed heap. *)
Fixpoint sweep_delayed (d : list (Z * Z)) (now_ms : Z) (q : QueueProjection) : QueueProjection :=
  match d with
  | [] => set_delayed q []
  | (ready_at, seq) :: d' =>
      if now_ms <? ready_at then set_delayed q d
      else
        let q := match leases q !! seq with
                 | Some _ => q
                 | None => push_reclaim q seq
                 end in
        sweep_delayed d' now_ms q
  end.

(** The seqs whose lease deadline has passed, as collected by [sweep_expired]. *)
Definition expired_seqs (q : QueueProjection) (now_ms : Z) : list Z :=
  (filter (λ e : Z * Lease, l_deadline_ms e.2 < now_ms) (map_to_list (leases q))).*1.

(** Dropping a lease onto the freelist. *)
Definition release_to_reclaim (q : QueueProjection) (seq : Z) : QueueProjection :=
  push_reclaim (set_leases q (delete seq (leases q))) seq.

(** [QueueProjection::sweep_expired] *)
Definition sweep_expired (q : QueueProjection) (now_ms : Z) : QueueProjection :=
  let q := sweep_delayed (delayed q) now_ms q in
  foldl release_to_reclaim q (expired_seqs q now_ms).

(** [QueueProjection::in_flight] *)
Definition in_flight (q : QueueProjection) (now_ms : Z) : Z :=
  Z.of_nat (length (filter (λ e : Z * Lease, now_ms <= l_deadline_ms e.2)
                      (map_to_list (leases q)))).

(** [LeaseEvent], the discriminants logged in a lease frame. *)
Inductive LeaseEvent := Claimed | Released | Extended | Acked.

(** Whether the lease held for [seq] is the one with this id. *)
Definition current_lease_matches (q : QueueProjection) (seq lease_id : Z) : bool :=
  match leases q !! seq with
  | Some l => l_lease_id l =? lease_id
  | None => false
  end.

(** [QueueProjection::apply_lease_event] *)
Definition apply_lease_event (q : QueueProjection) (event : LeaseEvent) (seq : Z)
    (node : string) (lease_id deadline_ms delivs : Z) : QueueProjection :=
  let q := if next_lease_id q <=? lease_id then set_next_lease_id q (lease_id + 1) else q in
  match event with
  | Claimed =>
      let q := set_deliveries q (<[seq := delivs]> (deliveries q)) in
      let q := set_leases q (<[seq := mkLease node lease_id deadline_ms None]> (leases q)) in
      if claim_cursor q <=? seq then set_cursor q (seq + 1) else q
  | Released =>
      if current_lease_matches q seq lease_id then release_to_reclaim q seq else q
  | Extended =>
      match leases q !! seq with
      | Some l =>
          if l_lease_id l =? lease_id
          then set_leases q (<[seq := mkLease (l_node l) (l_lease_id l) deadline_ms
                                        (l_by_work_conn l)]> (leases q))
          else q
      | None => q
      end
  | Acked =>
      if current_lease_matches q seq lease_id
      then set_deliveries (set_leases q (delete seq (leases q))) (delete seq (deliveries q))
      else q
  end.

(** ** The invariant *)
Record proj_wf (q : QueueProjection) : Prop := {
  pw_reclaim_ascending : ascending (reclaim q);
  pw_in_reclaim s : s ∈ in_reclaim q ↔ s ∈ reclaim q;
  pw_reclaim_cursor s : s ∈ reclaim q → s < claim_cursor q;
  pw_leases_cursor s l : leases q !! s = Some l → s < claim_cursor q;
  pw_delayed_sorted : StronglySorted (λ x y, pair_leb x y = true) (delayed q);
  pw_delayed_cursor e : e ∈ delayed q → e.2 < claim_cursor q;
  pw_lease_ids s l : leases q !! s = Some l → l_lease_id l < next_lease_id q;
  pw_lease_ids_inj s s' l l' :
    leases q !! s = Some l → leases q !! s' = Some l' →
    l_lease_id l = l_lease_id l' → s = s'
}.

(** A seq the projection still tracks: leased, on the freelist, or delayed. *)
Definition accounted (q : QueueProjection) (s : Z) : Prop :=
  is_Some (leases q !! s) ∨ s ∈ reclaim q ∨ ∃ at_, (at_, s) ∈ delayed q.

(** ** Heaps *)
Lemma heap_push_perm {A} (le : A → A → bool) x l : heap_push le x l ≡ₚ x :: l.
Proof.
  induction l as [|y l IH]; simpl; [done|]. destruct (le x y); [done|].
  rewrite IH. apply Permutation_swap.
Qed.

Lemma elem_of_heap_push {A} (le : A → A → bool) x y l :
  y ∈ heap_push le x l ↔ y = x ∨ y ∈ l.
Proof. by rewrite heap_push_perm, elem_of_cons. Qed.

Lemma heap_push_ascending x l :
  ascending l → x ∉ l → ascending (heap_push Z.leb x l).
Proof.
  intros Hl. induction Hl as [|a l Hl IH Ha]; intros Hx; simpl.
  - repeat constructor.
  - apply not_elem_of_cons in Hx as [Hxa Hx]. destruct (Z.leb_spec x a).
    + constructor; [by constructor|]. constructor; [lia|].
      eapply Forall_impl; [exact Ha|]. simpl. lia.
    + constructor; [by apply IH|]. rewrite Forall_forall in *. intros y Hy.
      apply elem_of_heap_push in Hy as [->|Hy]; [lia|auto].
Qed.

Lemma pair_leb_total x y : pair_leb x y = false → pair_leb y x = true.
Proof. unfold pair_leb. destruct x, y; simpl. destruct_zcmp; simpl; (done || lia). Qed.

Lemma pair_leb_trans x y z :
  pair_leb x y = true → pair_leb y z = true → pair_leb x z = true.
Proof.
  unfold pair_leb. destruct x, y, z; simpl. destruct_zcmp; simpl; (done || lia).
Qed.

Lemma heap_push_pairs_sorted x l :
  StronglySorted (λ x y, pair_leb x y = true) l →
  StronglySorted (λ x y, pair_leb x y = true) (heap_push pair_leb x l).
Proof.
  induction 1 as [|a l Hl IH Ha]; simpl; [repeat constructor|].
  destruct (pair_leb x a) eqn:Hxa.
  - constructor; [by constructor|]. constructor; [done|].
    eapply Forall_impl; [exact Ha|]. intros y Hy. by eapply pair_leb_trans.
  - constructor; [done|]. rewrite Forall_forall in *. intros y Hy.
    apply elem_of_heap_push in Hy as [->|Hy]; [by apply pair_leb_total|auto].
Qed.

(** ** Freelist operations *)
Lemma push_reclaim_fields q s :
  leases (push_reclaim q s) = leases q ∧
  deliveries (push_reclaim q s) = deliveries q ∧
  delayed (push_reclaim q s) = delayed q ∧
  claim_cursor (push_reclaim q s) = claim_cursor q ∧
  next_lease_id (push_reclaim q s) = next_lease_id q ∧
  dead_lettered (push_reclaim q s) = dead_lettered q.
Proof. unfold push_reclaim. by case_decide. Qed.

Lemma elem_of_push_reclaim q s s' :
  proj_wf q → (s' ∈ reclaim (push_reclaim q s) ↔ s' = s ∨ s' ∈ reclaim q).
Proof.
  intros Hwf. unfold push_reclaim. case_decide as Hin; simpl.
  - rewrite (pw_in_reclaim _ Hwf) in Hin. naive_solver.
  - apply elem_of_heap_push.
Qed.

Lemma push_reclaim_wf q s : proj_wf q → s < claim_cursor q → proj_wf (push_reclaim q s).
Proof.
  intros Hwf Hs. pose proof (λ s', elem_of_push_reclaim q s s' Hwf) as Hel.
  pose proof (push_reclaim_fields q s) as (Hl & Hd & Hdl & Hc & Hn & _).
  destruct Hwf as [Hasc Hin Hrc Hlc Hds Hdc Hid Hinj].
  split; rewrite ?Hl, ?Hd, ?Hdl, ?Hc, ?Hn; try done.
  - unfold push_reclaim. case_decide as Hd'; [done|]. simpl.
    apply heap_push_ascending; [done|]. by rewrite <-Hin.
  - intros s'. rewrite Hel. unfold push_reclaim. case_decide as Hd'; simpl.
    + rewrite Hin. rewrite Hin in Hd'. naive_solver.
    + rewrite elem_of_union, elem_of_singleton, Hin. naive_solver.
  - intros s' [->|?]%Hel; auto.
Qed.

Lemma pop_reclaim_wf q s q' : proj_wf q → pop_reclaim q = Some (s, q') → proj_wf q'.
Proof.
  intros [Hasc Hin Hrc Hlc Hds Hdc Hid Hinj]. unfold pop_reclaim.
  destruct (reclaim q) as [|s0 rest] eqn:Hr; [done|]. intros [= <- <-].
  apply ascending_cons_inv in Hasc as [Hasc Hlt].
  split; simpl; try done.
  - intros s'. rewrite elem_of_difference, elem_of_singleton, Hin, elem_of_cons.
    split; [naive_solver|]. intros Hs'. split; [by right|]. specialize (Hlt s' Hs'). lia.
  - intros s' Hs'. apply Hrc. by right.
Qed.

Lemma set_leases_delete_wf q s :
  proj_wf q → proj_wf (set_leases q (delete s (leases q))).
Proof.
  intros [Hasc Hin Hrc Hlc Hds Hdc Hid Hinj]. split; simpl; try done.
  - intros s' l [_ ?]%lookup_delete_Some. eauto.
  - intros s' l [_ ?]%lookup_delete_Some. eauto.
  - intros s1 s2 l1 l2 [_ ?]%lookup_delete_Some [_ ?]%lookup_delete_Some. eauto.
Qed.

Lemma set_deliveries_wf q d : proj_wf q → proj_wf (set_deliveries q d).
Proof. by intros []. Qed.

Lemma set_dead_lettered_wf q n : proj_wf q → proj_wf (set_dead_lettered q n).
Proof. by intros []. Qed.

Lemma push_delayed_wf q at_ s : proj_wf q → s < claim_cursor q → proj_wf (push_delayed q at_ s).
Proof.
  intros [Hasc Hin Hrc Hlc Hds Hdc Hid Hinj] Hs. split; simpl; try done.
  { by apply heap_push_pairs_sorted. }
  intros e [->|?]%elem_of_heap_push; [done|auto].
Qed.

#[export] Hint Resolve push_reclaim_wf pop_reclaim_wf set_leases_delete_wf
  set_deliveries_wf set_dead_lettered_wf push_delayed_wf : streams.

(** ** Sweeping *)
Lemma sweep_delayed_fields d now q :
  leases (sweep_delayed d now q) = leases q ∧
  deliveries (sweep_delayed d now q) = deliveries q ∧
  claim_cursor (sweep_delayed d now q) = claim_cursor q ∧
  next_lease_id (sweep_delayed d now q) = next_lease_id q ∧
  dead_lettered (sweep_delayed d now q) = dead_lettered q.
Proof.
  revert q. induction d as [|[at_ s] d IH]; intros q; simpl; [done|].
  destruct (now <? at_); [done|].
  destruct (leases q !! s); [apply IH|].
  destruct (IH (push_reclaim q s)) as (-> & -> & -> & -> & ->).
  destruct (push_reclaim_fields q s) as (-> & -> & _ & -> & -> & ->). done.
Qed.

Lemma sweep_delayed_delayed d now q :
  StronglySorted (λ x y, pair_leb x y = true) d →
  delayed (sweep_delayed d now q) = filter (λ e, now < e.1) d.
Proof.
  intros Hd. revert q. induction Hd as [|[at_ s] d Hd IH Ha]; intros q; simpl; [done|].
  rewrite filter_cons. simpl. destruct (Z.ltb_spec now at_).
  - rewrite decide_True by done. simpl. f_equal. symmetry.
    apply list_filter_all. rewrite Forall_forall in Ha. intros e He.
    specialize (Ha e He). revert Ha. unfold pair_leb. simpl. destruct_zcmp; simpl; (done || lia).
  - rewrite decide_False by lia. apply IH.
Qed.

Lemma sweep_delayed_reclaim d now q s :
  proj_wf q → StronglySorted (λ x y, pair_leb x y = true) d →
  (∀ e, e ∈ d → e.2 < claim_cursor q) →
  proj_wf (set_delayed (sweep_delayed d now q) (delayed q)) ∧
  (s ∈ reclaim (sweep_delayed d now q) ↔
     s ∈ reclaim q ∨ leases q !! s = None ∧ ∃ at_, at_ <= now ∧ (at_, s) ∈ d).
Proof.
  intros Hwf Hd. revert q Hwf. induction Hd as [|[at_ s0] d Hd IH Ha]; intros q Hwf Hc; simpl.
  - split; [by destruct q|]. setoid_rewrite elem_of_nil. naive_solver.
  - destruct (Z.ltb_spec now at_).
    + split; [by destruct q|]. simpl. split; [by left|]. intros [?|(_ & a & Ha' & Hin)]; [done|].
      exfalso. apply elem_of_cons in Hin as [[= -> ->]|Hin]; [lia|].
      rewrite Forall_forall in Ha. specialize (Ha _ Hin). revert Ha. unfold pair_leb.
      simpl. destruct_zcmp; simpl; (done || lia).
    + destruct (leases q !! s0) as [l|] eqn:Hl.
      * destruct (IH q Hwf) as [Hwf' Hiff].
        { intros e He. apply Hc. by right. }
        split; [done|]. rewrite Hiff. split.
        -- intros [?|(? & a & ? & ?)]; [by left|]. right. split; [done|]. exists a.
           split; [done|]. by right.
        -- intros [?|(? & a & ? & [[= -> ->]|?]%elem_of_cons)]; [by left|congruence|eauto 8].
      * assert (Hs0 : s0 < claim_cursor q) by (apply (Hc (at_, s0)); left).
        destruct (push_reclaim_fields q s0) as (Hpl & _ & Hpd & Hpc & _).
        destruct (IH (push_reclaim q s0)) as [Hwf' Hiff].
        { by apply push_reclaim_wf. }
        { rewrite Hpc. intros e He. apply Hc. by right. }
        rewrite Hpd in Hwf'. split; [done|].
        rewrite Hiff, elem_of_push_reclaim, Hpl by done. split.
        -- intros [[->|?]|(? & a & ? & ?)]; [right|by left|right].
           ++ split; [done|]. exists at_. split; [lia|left].
           ++ split; [done|]. exists a. split; [done|by right].
        -- intros [?|(? & a & ? & [[= -> ->]|?]%elem_of_cons)]; [by eauto|by eauto|eauto 8].
Qed.

Lemma release_to_reclaim_spec q s :
  proj_wf q → s < claim_cursor q →
  proj_wf (release_to_reclaim q s) ∧
  leases (release_to_reclaim q s) = delete s (leases q) ∧
  (∀ s', s' ∈ reclaim (release_to_reclaim q s) ↔ s' = s ∨ s' ∈ reclaim q) ∧
  deliveries (release_to_reclaim q s) = deliveries q ∧
  delayed (release_to_reclaim q s) = delayed q ∧
  claim_cursor (release_to_reclaim q s) = claim_cursor q ∧
  next_lease_id (release_to_reclaim q s) = next_lease_id q ∧
  dead_lettered (release_to_reclaim q s) = dead_lettered q.
Proof.
  intros Hwf Hs. unfold release_to_reclaim.
  assert (Hwf' := set_leases_delete_wf q s Hwf).
  destruct (push_reclaim_fields (set_leases q (delete s (leases q))) s)
    as (-> & -> & -> & -> & -> & ->).
  split_and!; try done.
  - by apply push_reclaim_wf.
  - intros s'. by rewrite (elem_of_push_reclaim _ s s' Hwf').
Qed.

Lemma foldl_release_spec ss q :
  proj_wf q → (∀ s, s ∈ ss → s < claim_cursor q) →
  let q' := foldl release_to_reclaim q ss in
  proj_wf q' ∧
  (∀ s, leases q' !! s = if decide (s ∈ ss) then None else leases q !! s) ∧
  (∀ s, s ∈ reclaim q' ↔ s ∈ ss ∨ s ∈ reclaim q) ∧
  deliveries q' = deliveries q ∧ delayed q' = delayed q ∧
  claim_cursor q' = claim_cursor q ∧ next_lease_id q' = next_lease_id q ∧
  dead_lettered q' = dead_lettered q.
Proof.
  revert q. induction ss as [|s ss IH]; intros q Hwf Hss; simpl.
  - split_and!; try done. set_solver.
  - destruct (release_to_reclaim_spec q s) as (Hw & Hl & Hr & Hd & Hdl & Hc & Hn & Hdd);
      [done|apply Hss; left|].
    destruct (IH (release_to_reclaim q s)) as (? & Hl' & Hr' & -> & -> & -> & -> & ->); [done| |].
    { rewrite Hc. intros s' ?. apply Hss. by right. }
    split_and!; try done.
    + intros s'. rewrite Hl', Hl, lookup_delete.
      repeat case_decide; subst; set_solver.
    + intros s'. rewrite Hr', Hr. set_solver.
Qed.

Lemma elem_of_expired_seqs q now s :
  s ∈ expired_seqs q now ↔ ∃ l, leases q !! s = Some l ∧ l_deadline_ms l < now.
Proof.
  unfold expired_seqs. rewrite list_elem_of_fmap.
  setoid_rewrite list_elem_of_filter. split.
  - intros ([s' l] & -> & Hd & Hin%elem_of_map_to_list). eauto.
  - intros (l & Hl & Hd). exists (s, l). split_and!; [done|done|].
    by apply elem_of_map_to_list.
Qed.

(** What a sweep does: expired leases are dropped onto the freelist together with
    the delayed nacks that have elapsed; every other lease stays. *)
Lemma sweep_expired_spec q now :
  proj_wf q →
  let q' := sweep_expired q now in
  proj_wf q' ∧
  (∀ s l, leases q' !! s = Some l ↔ leases q !! s = Some l ∧ now <= l_deadline_ms l) ∧
  (∀ s, s ∈ reclaim q' ↔
     s ∈ reclaim q ∨
     (∃ l, leases q !! s = Some l ∧ l_deadline_ms l < now) ∨
     (leases q !! s = None ∧ ∃ at_, at_ <= now ∧ (at_, s) ∈ delayed q)) ∧
  delayed q' = filter (λ e, now < e.1) (delayed q) ∧
  deliveries q' = deliveries q ∧ claim_cursor q' = claim_cursor q ∧
  next_lease_id q' = next_lease_id q ∧ dead_lettered q' = dead_lettered q.
Proof.
  intros Hwf. unfold sweep_expired.
  pose proof (sweep_delayed_fields (delayed q) now q) as (Hl & Hdv & Hc & Hn & Hdd).
  pose proof (sweep_delayed_delayed (delayed q) now q (pw_delayed_sorted _ Hwf)) as Hdl.
  pose proof (λ s, sweep_delayed_reclaim (delayed q) now q s Hwf (pw_delayed_sorted _ Hwf)
                (pw_delayed_cursor _ Hwf)) as Hr.
  set (q1 := sweep_delayed (delayed q) now q) in *.
  assert (Hwf1 : proj_wf q1).
  { destruct (Hr 0) as [[Hasc Hin Hrc Hlc Hds Hdc Hid Hinj] _]. simpl in *.
    split; try done; rewrite Hdl.
    - apply StronglySorted_filter. by destruct Hwf.
    - intros e [_ He]%list_elem_of_filter. rewrite Hc. by apply (pw_delayed_cursor _ Hwf). }
  destruct (foldl_release_spec (expired_seqs q1 now) q1) as
    (Hwf2 & Hl2 & Hr2 & -> & -> & -> & -> & ->); [done| |].
  { intros s (l & Hs & _)%elem_of_expired_seqs. by eapply pw_leases_cursor. }
  split_and!; try done.
  - intros s l. rewrite Hl2, Hl. case_decide as He.
    + apply elem_of_expired_seqs in He as (l' & Hs & ?). rewrite Hl in Hs.
      split; [done|]. intros [Hs' ?]. naive_solver lia.
    + rewrite elem_of_expired_seqs, Hl in He. split.
      * intros Hs. split; [done|]. destruct (Z.le_gt_cases now (l_deadline_ms l)); [done|].
        destruct He. eauto.
      * by intros [? _].
  - intros s. rewrite Hr2, elem_of_expired_seqs, Hl. destruct (Hr s) as [_ ->]. naive_solver.
Qed.

(** A sweep loses track of nothing. *)
Lemma sweep_expired_accounted q now s :
  proj_wf q → accounted q s → accounted (sweep_expired q now) s.
Proof.
  intros Hwf. destruct (sweep_expired_spec q now Hwf) as (_ & Hl & Hr & Hd & _).
  unfold accounted. rewrite Hr, Hd. intros Hacc.
  destruct (leases q !! s) as [l|] eqn:Hs.
  - destruct (Z.le_gt_cases now (l_deadline_ms l)).
    + left. exists l. by apply Hl.
    + right. left. right. left. eauto.
  - destruct Hacc as [[? ?]|[?|(at_ & Hin)]]; [done|by eauto|].
    destruct (Z.le_gt_cases at_ now).
    + right. left. right. right. eauto.
    + right. right. exists at_. by apply list_elem_of_filter.
Qed.

(** ** Replay of lease events keeps the invariant. *)
Lemma set_next_lease_id_wf q n :
  proj_wf q → next_lease_id q <= n → proj_wf (set_next_lease_id q n).
Proof.
  intros [Hasc Hin Hrc Hlc Hds Hdc Hid Hinj] Hn. split; simpl; try done.
  intros s l Hs. specialize (Hid s l Hs). lia.
Qed.

Lemma projection_new_wf base : proj_wf (projection_new base).
Proof.
  split; simpl; try (intros *; rewrite ?lookup_empty, ?elem_of_nil; done); constructor.
Qed.

#[export] Hint Resolve projection_new_wf : streams.
