(* ===== verification/TopicState.v ===== *)
(** * The state of one topic

    Models [TopicState] of [src/engine/topic_state.rs]: staging, publishing and
    rolling back appends, retention (TTL, record cap, byte cap), permanent
    deletes, and the head watermark of recovery.

    A method that takes the topic's locks one after another is modelled as one
    function from state to state.  Only the in-memory side is modelled here: the
    segment writer is [None], so [reclaim_segments], [flag_sealed_deletes] and
    [materialize_published] return at their first line, as they do in the source
    for such a topic; [Reclaim] models the topic that has one. *)

From S2P Require Import Prelude Types Eviction TopicIndex QueueProjection.

Record DedupeEntry := mkDedupe {
  d_seqs : list Z;
  d_head_seq : Z;
  d_created_ms : Z
}.

Record TopicState (V : Type) := mkTopic {
  b_name : string;
  b_topic_id : Z;
  b_config : TopicConfig;
  b_index : TopicIndex V;
  b_floors : Floors;
  b_dedupe : gmap string DedupeEntry;
  b_head_seq : Z;
  b_reserved_head : Z;
  b_seq_base : Z;
  b_epoch : Z;
  b_bytes_retained : Z;
  b_live_count : Z;
  b_last_write_ms : Z;
  b_last_read_ms : Z;
  b_last_consumed_ms : Z;
  b_queue : option QueueProjection
}.
Arguments mkTopic {V}.
Arguments b_name {V}.
Arguments b_topic_id {V}.
Arguments b_config {V}.
Arguments b_index {V}.
Arguments b_floors {V}.
Arguments b_dedupe {V}.
Arguments b_head_seq {V}.
Arguments b_reserved_head {V}.
Arguments b_seq_base {V}.
Arguments b_epoch {V}.
Arguments b_bytes_retained {V}.
Arguments b_live_count {V}.
Arguments b_last_write_ms {V}.
Arguments b_last_read_ms {V}.
Arguments b_last_consumed_ms {V}.
Arguments b_queue {V}.

(** [TS_NEVER]: a recency clock that has never fired. *)
Definition TS_NEVER : Z := i64_min.

Record StagedAppend := mkStaged {
  sa_start : Z;
  sa_count : Z;
  sa_added_bytes : Z;
  sa_pre_len : nat
}.

(** [StagedAppend::empty], [is_empty], [seqs], [publish_head] *)
Definition staged_empty : StagedAppend := mkStaged 0 0 0 0.
Definition staged_is_empty (s : StagedAppend) : bool := sa_count s =? 0.
Definition staged_seqs (s : StagedAppend) : list Z := seqZ (sa_start s) (sa_count s).
Definition publish_head (s : StagedAppend) : Z :=
  if sa_count s =? 0 then 0 else sa_start s + sa_count s - 1.

Record RetentionAdvance := mkAdvance {
  ra_floor_advanced : bool;
  ra_durable_advance : bool;
  ra_evict_floor : Z;
  ra_expiry_floor : Z;
  ra_bytes_reclaimed : Z
}.

(** [RetentionAdvance::NONE] *)
Definition no_advance : RetentionAdvance := mkAdvance false false 0 0 0.

Record DeleteStats := mkDeleteStats { ds_deleted : Z; ds_bytes_freed : Z }.

Section topic.
Context {V : Type} `{!JsonNull V}.
Implicit Types (b : TopicState V) (ix : TopicIndex V) (r : StoredRecord V)
  (recs : list (StoredRecord V)).

(** ** Field updates *)
Definition with_config (b : TopicState V) (config' : TopicConfig) : TopicState V :=
  mkTopic (b_name b) (b_topic_id b) config' (b_index b) (b_floors b) (b_dedupe b)
    (b_head_seq b) (b_reserved_head b) (b_seq_base b) (b_epoch b) (b_bytes_retained b)
    (b_live_count b) (b_last_write_ms b) (b_last_read_ms b) (b_last_consumed_ms b)
    (b_queue b).
Definition with_index (b : TopicState V) (index' : TopicIndex V) : TopicState V :=
  mkTopic (b_name b) (b_topic_id b) (b_config b) index' (b_floors b) (b_dedupe b)
    (b_head_seq b) (b_reserved_head b) (b_seq_base b) (b_epoch b) (b_bytes_retained b)
    (b_live_count b) (b_last_write_ms b) (b_last_read_ms b) (b_last_consumed_ms b)
    (b_queue b).
Definition with_floors (b : TopicState V) (floors' : Floors) : TopicState V :=
  mkTopic (b_name b) (b_topic_id b) (b_config b) (b_index b) floors' (b_dedupe b)
    (b_head_seq b) (b_reserved_head b) (b_seq_base b) (b_epoch b) (b_bytes_retained b)
    (b_live_count b) (b_last_write_ms b) (b_last_read_ms b) (b_last_consumed_ms b)
    (b_queue b).
Definition with_dedupe (b : TopicState V) (dedupe' : gmap string DedupeEntry) : TopicState V :=
  mkTopic (b_name b) (b_topic_id b) (b_config b) (b_index b) (b_floors b) dedupe'
    (b_head_seq b) (b_reserved_head b) (b_seq_base b) (b_epoch b) (b_bytes_retained b)
    (b_live_count b) (b_last_write_ms b) (b_last_read_ms b) (b_last_consumed_ms b)
    (b_queue b).
Definition with_head (b : TopicState V) (head_seq' : Z) : TopicState V :=
  mkTopic (b_name b) (b_topic_id b) (b_config b) (b_index b) (b_floors b) (b_dedupe b)
    head_seq' (b_reserved_head b) (b_seq_base b) (b_epoch b) (b_bytes_retained b)
    (b_live_count b) (b_last_write_ms b) (b_last_read_ms b) (b_last_consumed_ms b)
    (b_queue b).
Definition with_reserved (b : TopicState V) (reserved_head' : Z) : TopicState V :=
  mkTopic (b_name b) (b_topic_id b) (b_config b) (b_index b) (b_floors b) (b_dedupe b)
    (b_head_seq b) reserved_head' (b_seq_base b) (b_epoch b) (b_bytes_retained b)
    (b_live_count b) (b_last_write_ms b) (b_last_read_ms b) (b_last_consumed_ms b)
    (b_queue b).
Definition with_counts (b : TopicState V) (bytes_retained' : Z) (live_count' : Z) : TopicState V :=
  mkTopic (b_name b) (b_topic_id b) (b_config b) (b_index b) (b_floors b) (b_dedupe b)
    (b_head_seq b) (b_reserved_head b) (b_seq_base b) (b_epoch b) bytes_retained'
    live_count' (b_last_write_ms b) (b_last_read_ms b) (b_last_consumed_ms b) (b_queue
    b).
Definition with_last_write (b : TopicState V) (last_write_ms' : Z) : TopicState V :=
  mkTopic (b_name b) (b_topic_id b) (b_config b) (b_index b) (b_floors b) (b_dedupe b)
    (b_head_seq b) (b_reserved_head b) (b_seq_base b) (b_epoch b) (b_bytes_retained b)
    (b_live_count b) last_write_ms' (b_last_read_ms b) (b_last_consumed_ms b) (b_queue
    b).
Definition with_last_read (b : TopicState V) (last_read_ms' : Z) : TopicState V :=
  mkTopic (b_name b) (b_topic_id b) (b_config b) (b_index b) (b_floors b) (b_dedupe b)
    (b_head_seq b) (b_reserved_head b) (b_seq_base b) (b_epoch b) (b_bytes_retained b)
    (b_live_count b) (b_last_write_ms b) last_read_ms' (b_last_consumed_ms b) (b_queue
    b).
Definition with_last_consumed (b : TopicState V) (last_consumed_ms' : Z) : TopicState V :=
  mkTopic (b_name b) (b_topic_id b) (b_config b) (b_index b) (b_floors b) (b_dedupe b)
    (b_head_seq b) (b_reserved_head b) (b_seq_base b) (b_epoch b) (b_bytes_retained b)
    (b_live_count b) (b_last_write_ms b) (b_last_read_ms b) last_consumed_ms' (b_queue
    b).
Definition with_queue (b : TopicState V) (queue' : option QueueProjection) : TopicState V :=
  mkTopic (b_name b) (b_topic_id b) (b_config b) (b_index b) (b_floors b) (b_dedupe b)
    (b_head_seq b) (b_reserved_head b) (b_seq_base b) (b_epoch b) (b_bytes_retained b)
    (b_live_count b) (b_last_write_ms b) (b_last_read_ms b) (b_last_consumed_ms b)
    queue'.

(** ** Construction and derived views *)

(** [TopicState::new] *)
Definition topic_new (name : string) (topic_id : Z) (config : TopicConfig)
    (seq_base epoch : Z) : TopicState V :=
  mkTopic name topic_id config (index_new seq_base) default_floors ∅
    (seq_base -s 1) (seq_base -s 1) seq_base epoch 0 0 TS_NEVER TS_NEVER TS_NEVER
    (if is_queue config then Some (projection_new seq_base) else None).

(** [TopicState::next_seq] *)
Definition next_seq b : Z := b_head_seq b +s 1.

(** [TopicState::earliest_seq] *)
Definition earliest_seq b : Z :=
  let head := b_head_seq b in
  let floor_earliest := floors_earliest_seq (b_floors b) (b_seq_base b) head in
  Z.min (Z.max floor_earliest (base_seq (b_index b))) (head +s 1).

(** [TopicState::evict_earliest_seq] *)
Definition evict_earliest_seq b : Z :=
  evict_earliest (b_floors b) (b_seq_base b) (b_head_seq b).

(** [TopicState::involuntary_floor] *)
Definition involuntary_floor b : Z :=
  Z.max (evict_floor (b_floors b)) (expiry_floor (b_floors b)).

(** The slot that [TopicState::forward_lookup] takes under the index lock: all of it for a
    topic without a segment writer, whose payloads stay in their slots.  A freed payload
    is resolved by [Reclaim.forward_lookup_seg]. *)
Definition forward_lookup b (seq : Z) : option (StoredRecord V * bool) :=
  match get (b_index b) seq with
  | None => None
  | Some r => Some (r, negb (r_deleted r))
  end.

(** ** Head reservation *)

(** [TopicState::set_reserved_head] *)
Definition set_reserved_head b (reserved : Z) : TopicState V :=
  with_reserved b (Z.max (b_reserved_head b) reserved).

(** The index with its tail padded by deleted holes up to [reserved]. *)
Definition pad_holes ix (reserved : Z) : TopicIndex V :=
  mkTopicIndex (base_seq ix)
    (records ix ++ replicate (Z.to_nat (reserved + 1 - tail_seq ix)) deleted_hole)
    (tag_index ix) (delete_below ix).

(** [TopicState::restore_head_watermark] *)
Definition restore_head_watermark b (reserved : Z) : TopicState V :=
  let b := set_reserved_head b reserved in
  if reserved <=? b_head_seq b then b
  else with_head (with_index b (pad_holes (b_index b) reserved)) reserved.

(** ** Appending *)

(** [TopicState::stage_append] *)
Definition stage_append b (recs : list (StoredRecord V)) : TopicState V * StagedAppend :=
  match recs with
  | [] => (b, staged_empty)
  | _ =>
      let ix := b_index b in
      (with_index b (foldl push_record ix recs),
       mkStaged (tail_seq ix) (Z.of_nat (length recs))
         (foldl (λ acc r, acc +s r_bytes r) 0 recs) (length (records ix)))
  end.

(** [TopicState::publish_staged_no_seal]; the published range is returned. *)
Definition publish_staged_no_seal b (s : StagedAppend) (now_ms : Z) :
    TopicState V * option (Z * Z) :=
  if staged_is_empty s then (b, None)
  else
    let new_head := sa_start s + sa_count s - 1 in
    let b := with_head b new_head in
    let b := with_counts b (b_bytes_retained b + sa_added_bytes s)
                           (b_live_count b + sa_count s) in
    let b := with_last_write b now_ms in
    (b, Some (sa_start s, new_head)).

(** [TopicState::append]: stage and publish in one go. *)
Definition append b (recs : list (StoredRecord V)) (now_ms : Z) : TopicState V * list Z :=
  let '(b, s) := stage_append b recs in
  if staged_is_empty s then (b, [])
  else ((publish_staged_no_seal b s now_ms).1, staged_seqs s).

(** One iteration of the loop of [rollback_staged]: pop the last slot. *)
Definition pop_back ix : TopicIndex V :=
  match last (records ix) with
  | None => ix
  | Some r =>
      let seq := tail_seq ix - 1 in
      let m := match r_tag r with
               | Some t => unindex_tag t seq (tag_index ix)
               | None => tag_index ix
               end in
      mkTopicIndex (base_seq ix) (take (length (records ix) - 1) (records ix)) m
        (delete_below ix)
  end.

(** [TopicState::rollback_staged]: truncate the deque back to its length before
    the batch was staged. *)
Definition rollback_staged b (s : StagedAppend) : TopicState V :=
  if staged_is_empty s then b
  else
    let ix := b_index b in
    with_index b (Nat.iter (length (records ix) - sa_pre_len s) pop_back ix).

(** Marking a list of seqs deleted, with the freed bytes and the count, as the
    delete paths accumulate them. *)
Fixpoint mark_all ix (seqs : list Z) (freed deleted : Z) : TopicIndex V * Z * Z :=
  match seqs with
  | [] => (ix, freed, deleted)
  | s :: seqs =>
      match mark_deleted ix s with
      | (ix, Some f) => mark_all ix seqs (freed +s f) (deleted + 1)
      | (ix, None) => mark_all ix seqs freed deleted
      end
  end.

(** [TopicState::rollback_staged_by_seqs]: the batch's seqs become deleted holes. *)
Definition rollback_staged_by_seqs b (s : StagedAppend) : TopicState V :=
  if staged_is_empty s then b
  else with_index b (mark_all (b_index b) (staged_seqs s) 0 0).1.1.

(** Raising the source-trim floor. *)
Definition raise_source_trim (f : Floors) (s : Z) : Floors :=
  mkFloors (evict_floor f) (expiry_floor f) (delete_floor f)
    (if source_trim_floor f <? s then s else source_trim_floor f).

(** [TopicState::note_source_trim]: one hole of a derived destination. *)
Definition note_source_trim b : TopicState V :=
  let '(b, s) := stage_append b [deleted_hole] in
  let hole_seq := sa_start s in
  let b := with_head b hole_seq in
  with_floors b (raise_source_trim (b_floors b) hole_seq).

(** ** Retention *)

(** The TTL scan of the index front. *)
Fixpoint ttl_scan (now_ms ttl seq : Z) (recs : list (StoredRecord V)) (expired_upto : Z) : Z :=
  match recs with
  | [] => expired_upto
  | r :: recs =>
      if ttl <? i64_sat_sub now_ms (r_ts r)
      then ttl_scan now_ms ttl (seq + 1) recs seq
      else expired_upto
  end.

(** The byte-cap scan: evict oldest slots until [over] is gone. *)
Fixpoint bytes_scan (current_floor seq : Z) (recs : list (StoredRecord V))
    (over evict_to : Z) : Z :=
  match recs with
  | [] => evict_to
  | r :: recs =>
      if seq <=? current_floor then bytes_scan current_floor (seq + 1) recs over evict_to
      else if over =? 0 then evict_to
      else
        let over := over -s r_bytes r in
        if over =? 0 then seq
        else bytes_scan current_floor (seq + 1) recs over seq
  end.

(** The TTL part of the plan: the new expiry floor. *)
Definition plan_ttl b (now_ms : Z) : Z :=
  let ttl_ms := cfg_ttl_ms (b_config b) in
  let expiry := expiry_floor (b_floors b) in
  if 0 <? ttl_ms
  then Z.max expiry (ttl_scan now_ms (as_i64 ttl_ms) (base_seq (b_index b))
                       (records (b_index b)) expiry)
  else expiry.

(** The record-cap part: the new evict floor. *)
Definition plan_cap_records b : Z :=
  let cap := cfg_cap_records (b_config b) in
  let evict := evict_floor (b_floors b) in
  if (0 <? cap) && (cap <? b_head_seq b) then Z.max evict (b_head_seq b - cap) else evict.

(** The byte-cap part, given the floors planned so far. *)
Definition plan_cap_bytes b (evict expiry : Z) : Z :=
  let cap := cfg_cap_bytes (b_config b) in
  if (0 <? cap) && (cap <? b_bytes_retained b)
  then Z.max evict (bytes_scan (Z.max evict expiry) (base_seq (b_index b))
                      (records (b_index b)) (b_bytes_retained b - cap) evict)
  else evict.

(** The whole plan of [enforce_retention_hardened], nothing mutated yet. *)
Definition plan_retention b (now_ms : Z) : RetentionAdvance :=
  let expiry := plan_ttl b now_ms in
  let evict1 := plan_cap_records b in
  let evict2 := plan_cap_bytes b evict1 expiry in
  let ttl_adv := expiry_floor (b_floors b) <? expiry in
  let cap_adv := evict_floor (b_floors b) <? evict1 in
  let bytes_adv := evict1 <? evict2 in
  mkAdvance (ttl_adv || cap_adv || bytes_adv) (ttl_adv || bytes_adv) evict2 expiry 0.

(** The count of already-deleted slots at the front of [recs]. *)
Fixpoint deleted_run (recs : list (StoredRecord V)) : nat :=
  match recs with
  | r :: recs => if r_deleted r then S (deleted_run recs) else O
  | [] => O
  end.

(** [TopicState::subtract_bytes_retained] and [subtract_live_count] *)
Definition subtract_counts b (bytes live : Z) : TopicState V :=
  with_counts b (b_bytes_retained b -s bytes) (b_live_count b -s live).

(** How many slots [reclaim_front] pops. *)
Definition front_drop b (head : Z) : nat :=
  let ix := b_index b in
  let earliest := floors_earliest_seq (b_floors b) (b_seq_base b) head in
  let n := if base_seq ix <? earliest
           then (Z.to_nat (earliest - base_seq ix) `min` length (records ix))%nat
           else O in
  (n + deleted_run (drop n (records ix)))%nat.

(** [TopicState::reclaim_front] *)
Definition reclaim_front b (head : Z) : TopicState V * Z :=
  let ix := b_index b in
  let n := front_drop b head in
  match n with
  | O => (b, 0)
  | _ =>
      let freed := foldl (λ acc r, acc +s r_bytes r) 0 (take n (records ix)) in
      let '(ix', live_popped) := drain_front ix n in
      (subtract_counts (with_index b ix') freed live_popped, freed)
  end.

(** Committing planned floors: never below the current ones. *)
Definition commit_floors (f : Floors) (plan : RetentionAdvance) : Floors :=
  mkFloors (Z.max (evict_floor f) (ra_evict_floor plan))
    (Z.max (expiry_floor f) (ra_expiry_floor plan)) (delete_floor f) (source_trim_floor f).

(** [TopicState::enforce_retention_hardened] *)
Definition enforce_retention_hardened {E} b (now_ms : Z)
    (harden : RetentionAdvance → result E unit) : TopicState V * result E RetentionAdvance :=
  let c := b_config b in
  if b_head_seq b =? 0 then (b, Ok no_advance)
  else if (cfg_ttl_ms c =? 0) && (cfg_cap_records c =? 0) && (cfg_cap_bytes c =? 0)
  then (b, Ok no_advance)
  else
    let plan := plan_retention b now_ms in
    let hardened := if ra_floor_advanced plan && ra_durable_advance plan
                    then harden plan else Ok tt in
    match hardened with
    | Err e => (b, Err e)
    | Ok _ =>
        let b1 := if ra_floor_advanced plan
                  then with_floors b (commit_floors (b_floors b) plan) else b in
        let '(b2, freed) := reclaim_front b1 (b_head_seq b) in
        (b2, Ok (mkAdvance (ra_floor_advanced plan) (ra_durable_advance plan)
                   (ra_evict_floor plan) (ra_expiry_floor plan) freed))
    end.

(** [TopicState::enforce_retention]: the no-op harden never fails. *)
Definition enforce_retention b (now_ms : Z) : TopicState V * RetentionAdvance :=
  match enforce_retention_hardened (E := Empty_set) b now_ms (λ _, Ok tt) with
  | (b, Ok ra) => (b, ra)
  | (b, Err e) => match e with end
  end.

(** ** Deletes *)

(** The point-in-time bound of a delete. *)
Definition delete_bound b (before_seq bound_head : option Z) : Z :=
  let pit := default (b_head_seq b +s 1) bound_head in
  match before_seq with
  | Some s => Z.min s pit
  | None => pit
  end.

(** The live seqs of [[lo, bound)], collected one by one. *)
Definition live_range ix (lo bound : Z) : list Z :=
  filter (λ s, live_at ix s = true) (seqZ lo (bound - lo)).

(** The victims a delete selects. *)
Definition delete_victims b (match_ : option Filter) (bound : Z) : list Z :=
  match match_ with
  | Some f => matching_live_seqs (b_index b) f bound
  | None => live_range (b_index b) (Z.max (earliest_seq b) (base_seq (b_index b))) bound
  end.

(** Raising [delete_below] for a prefix delete. *)
Definition raise_delete_below ix (effective : Z) : TopicIndex V :=
  mkTopicIndex (base_seq ix) (records ix) (tag_index ix)
    (if delete_below ix <? effective then effective else delete_below ix).

(** Raising the voluntary delete floor. *)
Definition raise_delete_floor (f : Floors) (below : Z) : Floors :=
  let new_floor := below -s 1 in
  mkFloors (evict_floor f) (expiry_floor f)
    (if (0 <? below) && (delete_floor f <? new_floor) then new_floor else delete_floor f)
    (source_trim_floor f).

(** [TopicState::apply_delete_stats] *)
Definition apply_delete_stats b (before_seq : option Z) (match_ : option Filter)
    (bound_head : option Z) (now_ms : Z) : TopicState V * DeleteStats :=
  let '(b, retention) := enforce_retention b now_ms in
  let head := b_head_seq b in
  let bound := delete_bound b before_seq bound_head in
  let victims := delete_victims b match_ bound in
  let '(ix, freed, deleted) := mark_all (b_index b) victims 0 0 in
  let ix := match match_, before_seq with
            | None, Some _ => raise_delete_below ix bound
            | _, _ => ix
            end in
  let b := subtract_counts (with_index b ix) freed deleted in
  let b := with_floors b (raise_delete_floor (b_floors b) (delete_below ix)) in
  let '(b, front_freed) := reclaim_front b head in
  (b, mkDeleteStats deleted ((ra_bytes_reclaimed retention +s freed) +s front_freed)).

(** [TopicState::delete_seqs_stats] *)
Definition delete_seqs_stats b (seqs : list Z) : TopicState V * DeleteStats :=
  let head := b_head_seq b in
  let '(ix, freed, deleted) := mark_all (b_index b) seqs 0 0 in
  let b := subtract_counts (with_index b ix) freed deleted in
  let '(b, front_freed) := reclaim_front b head in
  (b, mkDeleteStats deleted (freed +s front_freed)).

(** ** The topic invariant *)

(** The slots a reader can see: those at or below the head. *)
Definition published b : list (StoredRecord V) :=
  take (Z.to_nat (b_head_seq b + 1 - base_seq (b_index b))) (records (b_index b)).

Record topic_wf b : Prop := {
  tw_index : index_wf (b_index b);
  tw_seq_base : 1 <= b_seq_base b <= base_seq (b_index b);
  tw_head_lo : b_seq_base b - 1 <= b_head_seq b;
  tw_head_hi : b_head_seq b < tail_seq (b_index b) <= u64_max;
  tw_live : b_live_count b = live_slots (published b);
  tw_bytes : b_bytes_retained b = total_bytes (published b);
  tw_total : total_bytes (records (b_index b)) <= u64_max;
  tw_floors : floors_u64 (b_floors b);
  tw_delete : delete_below (b_index b) <= delete_floor (b_floors b) + 1
}.

(** The live seqs a reader can reach: present, not deleted, at or below the
    head, and above every loss floor. *)
Definition visible b (s : Z) : Prop :=
  live_at (b_index b) s = true ∧ earliest_seq b <= s <= b_head_seq b.

(** ** Byte totals *)
Lemma foldl_sat_bytes recs acc :
  Forall slot_ok recs → 0 <= acc → acc + total_bytes recs <= u64_max →
  foldl (λ acc r, acc +s r_bytes r) acc recs = acc + total_bytes recs.
Proof.
  revert acc. induction recs as [|r recs IH]; intros acc Hok Hacc Hle; simpl in *; [lia|].
  apply Forall_cons in Hok as [[Hr _] Hok].
  pose proof (total_bytes_nonneg recs Hok).
  rewrite sat_add_exact by lia. rewrite IH; [lia|done|lia|lia].
Qed.

Lemma total_bytes_take recs n :
  Forall slot_ok recs → 0 <= total_bytes (take n recs) <= total_bytes recs.
Proof.
  intros Hok. rewrite <-(take_drop n recs) at 3. rewrite total_bytes_app.
  pose proof (total_bytes_nonneg (take n recs) ltac:(by apply Forall_take)).
  pose proof (total_bytes_nonneg (drop n recs) ltac:(by apply Forall_drop)). lia.
Qed.

Lemma dead_slots_zero recs :
  Forall slot_ok recs → Forall (λ r, r_deleted r = true) recs →
  live_slots recs = 0 ∧ total_bytes recs = 0.
Proof.
  induction recs as [|r recs IH]; intros Hok Hd; [done|].
  apply Forall_cons in Hok as [[_ Hr] Hok]. apply Forall_cons in Hd as [Hdr Hd].
  destruct (IH Hok Hd) as [Hl Hb]. rewrite live_slots_cons, Hdr. simpl.
  destruct (Hr Hdr). lia.
Qed.

(** Popping [n] slots, of which those beyond the first [k] are deleted, removes
    from the first [k] exactly what the popped slots account for. *)
Lemma take_pop_accounting recs (k n : nat) :
  Forall slot_ok recs →
  Forall (λ r, r_deleted r = true) (drop k (take n recs)) →
  live_slots (take (k - n) (drop n recs)) = live_slots (take k recs) - live_slots (take n recs) ∧
  total_bytes (take (k - n) (drop n recs)) = total_bytes (take k recs) - total_bytes (take n recs).
Proof.
  intros Hok Hdead. destruct (decide (n <= k)%nat) as [Hle|Hgt].
  - replace (take k recs) with (take n recs ++ take (k - n) (drop n recs)).
    + rewrite live_slots_app, total_bytes_app. lia.
    + rewrite take_drop_commute. replace (n + (k - n))%nat with k by lia.
      rewrite <-(take_drop n (take k recs)) at 2. rewrite take_take. f_equal.
      f_equal. lia.
  - replace (k - n)%nat with 0%nat by lia. rewrite take_0.
    replace (take n recs) with (take k recs ++ drop k (take n recs)).
    + rewrite live_slots_app, total_bytes_app.
      destruct (dead_slots_zero (drop k (take n recs))) as [-> ->]; [|done|].
      * by apply Forall_drop, Forall_take.
      * unfold live_slots. simpl. lia.
    + rewrite <-(take_drop k (take n recs)) at 2. rewrite take_take.
      f_equal. f_equal. lia.
Qed.

Lemma deleted_run_dead recs :
  Forall (λ r, r_deleted r = true) (take (deleted_run recs) recs).
Proof.
  induction recs as [|r recs IH]; simpl; [constructor|].
  destruct (r_deleted r) eqn:Hd; simpl; [by constructor|constructor].
Qed.

Lemma deleted_run_next recs r :
  recs !! deleted_run recs = Some r → r_deleted r = false.
Proof.
  induction recs as [|r' recs IH]; simpl; [done|].
  destruct (r_deleted r') eqn:Hd; simpl; [done|]. intros [= <-]. done.
Qed.

Lemma deleted_run_le recs : (deleted_run recs <= length recs)%nat.
Proof.
  induction recs as [|r recs IH]; simpl; [lia|]. destruct (r_deleted r); lia.
Qed.

(** ** [reclaim_front] *)

(** The slots beyond the head that [reclaim_front] pops are deleted ones. *)
Lemma front_drop_beyond b head :
  topic_wf b → head = b_head_seq b →
  (front_drop b head <= length (records (b_index b)))%nat ∧
  Forall (λ r, r_deleted r = true)
    (drop (Z.to_nat (head + 1 - base_seq (b_index b)))
       (take (front_drop b head) (records (b_index b)))).
Proof.
  intros [_ Hsb Hlo Hhi _ _ _ _] ->. unfold front_drop.
  set (ix := b_index b) in *. set (e := floors_earliest_seq _ _ _).
  assert (He : e <= b_head_seq b + 1).
  { apply earliest_seq_bounds; lia. }
  set (n := if base_seq ix <? e then _ else _).
  assert (Hn : (n <= Z.to_nat (b_head_seq b + 1 - base_seq ix))%nat).
  { unfold n. destruct (Z.ltb_spec (base_seq ix) e); lia. }
  assert (Hn' : (n <= length (records ix))%nat).
  { unfold n. destruct (base_seq ix <? e); lia. }
  pose proof (deleted_run_le (drop n (records ix))) as Hrun. rewrite length_drop in Hrun.
  split; [lia|].
  pose proof (deleted_run_dead (drop n (records ix))) as Hdead.
  rewrite take_drop_commute in Hdead.
  set (m := (n + deleted_run (drop n (records ix)))%nat) in *.
  set (k := Z.to_nat (b_head_seq b + 1 - base_seq ix)) in *.
  replace (drop k (take m (records ix)))
    with (drop (k - n) (drop n (take m (records ix)))).
  - by apply Forall_drop.
  - rewrite drop_drop. f_equal. lia.
Qed.

Lemma reclaim_front_state b :
  let n := front_drop b (b_head_seq b) in
  topic_wf b →
  reclaim_front b (b_head_seq b) =
    (subtract_counts (with_index b (drain_front (b_index b) n).1)
       (total_bytes (take n (records (b_index b))))
       (live_slots (take n (records (b_index b)))),
     total_bytes (take n (records (b_index b)))).
Proof.
  intros n Hwf. unfold reclaim_front. fold n. clearbody n.
  assert (Hok := wf_slots _ (tw_index _ Hwf)).
  pose proof (total_bytes_take _ n Hok). pose proof (tw_total _ Hwf).
  rewrite foldl_sat_bytes; [|by apply Forall_take|lia|lia].
  rewrite <-(drain_front_live (b_index b) n (tw_index _ Hwf)).
  destruct (drain_front (b_index b) n) as [ix' live] eqn:Hdr. simpl.
  destruct n as [|n]; [|by rewrite Z.add_0_l].
  f_equal.
  assert (ix' = b_index b ∧ live = 0) as [-> ->].
  { revert Hdr. unfold drain_front. simpl. rewrite Z.add_0_r.
    intros [= <- <-]. by destruct (b_index b). }
  change (total_bytes (take 0 (records (b_index b)))) with 0.
  pose proof (tw_bytes _ Hwf) as Hb. pose proof (tw_live _ Hwf) as Hl.
  pose proof (live_slots_nonneg (published b)).
  pose proof (total_bytes_nonneg (published b) ltac:(by apply Forall_take)).
  unfold subtract_counts. destruct b; simpl in *. unfold with_counts, with_index. simpl.
  f_equal; sat_lia.
Qed.

Lemma reclaim_front_wf b :
  topic_wf b → topic_wf (reclaim_front b (b_head_seq b)).1.
Proof.
  intros Hwf. rewrite reclaim_front_state by done. simpl.
  set (n := front_drop b (b_head_seq b)).
  destruct (front_drop_beyond b _ Hwf eq_refl) as [Hle Hdead]. fold n in Hle, Hdead.
  destruct (drain_front_records (b_index b) n) as (Hrecs & Hbase & Hdb).
  assert (Hok := wf_slots _ (tw_index _ Hwf)).
  pose proof (total_bytes_take _ n Hok) as Hbytes.
  destruct (take_pop_accounting _ _ n Hok Hdead) as [Hl Hb].
  rewrite Nat.min_l in Hbase by done.
  assert (Hpub : published (with_index b (drain_front (b_index b) n).1) =
    take (Z.to_nat (b_head_seq b + 1 - base_seq (b_index b)) - n) (drop n (records (b_index b)))).
  { unfold published. simpl. rewrite Hrecs, Hbase. f_equal. lia. }
  destruct Hwf as [Hix Hsb Hlo Hhi Hlive Hby Htot Hfl Hdl].
  pose proof (live_slots_nonneg (take (Z.to_nat (b_head_seq b + 1 - base_seq (b_index b)) - n)
                                   (drop n (records (b_index b))))).
  pose proof (total_bytes_nonneg (take (Z.to_nat (b_head_seq b + 1 - base_seq (b_index b)) - n)
     (drop n (records (b_index b)))) ltac:(by apply Forall_take, Forall_drop)).
  unfold published in Hlive, Hby.
  split; simpl.
  - by apply drain_front_wf.
  - rewrite Hbase. lia.
  - done.
  - rewrite drain_front_tail. done.
  - change (published _) with (published (with_index b (drain_front (b_index b) n).1)).
    rewrite Hpub, Hl, Hlive. rewrite sat_sub_exact; [done|lia].
  - change (published _) with (published (with_index b (drain_front (b_index b) n).1)).
    rewrite Hpub, Hb, Hby. rewrite sat_sub_exact; [done|lia].
  - rewrite Hrecs. rewrite <-(take_drop n (records (b_index b))), total_bytes_app in Htot. lia.
  - done.
  - by rewrite Hdb.
Qed.

Lemma reclaim_front_fields b head :
  b_head_seq (reclaim_front b head).1 = b_head_seq b ∧
  b_floors (reclaim_front b head).1 = b_floors b ∧
  b_config (reclaim_front b head).1 = b_config b ∧
  b_seq_base (reclaim_front b head).1 = b_seq_base b ∧
  b_queue (reclaim_front b head).1 = b_queue b ∧
  b_reserved_head (reclaim_front b head).1 = b_reserved_head b.
Proof.
  unfold reclaim_front. destruct (front_drop b head); [done|].
  by destruct (drain_front _ _).
Qed.

Lemma reclaim_front_tail b head :
  tail_seq (b_index (reclaim_front b head).1) = tail_seq (b_index b).
Proof.
  unfold reclaim_front. destruct (front_drop b head) as [|n]; [done|].
  pose proof (drain_front_tail (b_index b) (S n)) as Ht.
  destruct (drain_front _ _). by simpl in *.
Qed.

(** Looking a seq up after a reclaim: popped seqs are gone, the rest is as it
    was. *)
Lemma reclaim_front_get b s :
  topic_wf b →
  get (b_index (reclaim_front b (b_head_seq b)).1) s =
    if s <? base_seq (b_index b) + Z.of_nat (front_drop b (b_head_seq b)) then None
    else get (b_index b) s.
Proof.
  intros Hwf. rewrite reclaim_front_state by done. simpl.
  rewrite drain_front_get.
  destruct (front_drop_beyond b _ Hwf eq_refl) as [Hle _]. by rewrite Nat.min_l.
Qed.

(** What [reclaim_front] pops was out of reach already: below [earliest_seq] or
    deleted. *)
Lemma front_drop_dead b s :
  topic_wf b →
  base_seq (b_index b) <= s < base_seq (b_index b) + Z.of_nat (front_drop b (b_head_seq b)) →
  s < floors_earliest_seq (b_floors b) (b_seq_base b) (b_head_seq b) ∨
  live_at (b_index b) s = false.
Proof.
  intros Hwf. unfold front_drop. set (ix := b_index b). set (e := floors_earliest_seq _ _ _).
  set (n := if base_seq ix <? e then _ else _). intros Hs.
  destruct (decide (s < base_seq ix + Z.of_nat n)) as [Hn|Hn].
  - left. unfold n in Hn. destruct (Z.ltb_spec (base_seq ix) e); lia.
  - right. pose proof (deleted_run_dead (drop n (records ix))) as Hdead.
    set (j := Z.to_nat (s - base_seq ix - Z.of_nat n)).
    unfold live_at, get. destruct (Z.ltb_spec s (base_seq ix)); [done|].
    destruct (records ix !! Z.to_nat (s - base_seq ix)) as [r|] eqn:Hr; [|done].
    replace (Z.to_nat (s - base_seq ix)) with (n + j)%nat in Hr by lia.
    rewrite <-lookup_drop in Hr.
    rewrite (Forall_lookup_1 _ _ j r Hdead); [done|].
    rewrite lookup_take. rewrite decide_True by lia. done.
Qed.

Lemma reclaim_front_visible b s :
  topic_wf b → (visible (reclaim_front b (b_head_seq b)).1 s ↔ visible b s).
Proof.
  intros Hwf. unfold visible, live_at, earliest_seq.
  rewrite reclaim_front_get by done.
  destruct (reclaim_front_fields b (b_head_seq b)) as (-> & -> & _ & -> & _).
  rewrite reclaim_front_state by done. simpl.
  destruct (front_drop_beyond b _ Hwf eq_refl) as [Hle _].
  destruct (drain_front_records (b_index b) (front_drop b (b_head_seq b))) as (_ & -> & _).
  rewrite Nat.min_l by done.
  pose proof (tw_seq_base _ Hwf) as Hsb. pose proof (tw_head_lo _ Hwf) as Hlo.
  pose proof (tw_head_hi _ Hwf) as Hhi.
  destruct (Z.ltb_spec s (base_seq (b_index b) + Z.of_nat (front_drop b (b_head_seq b)))) as [Hlt|Hge].
  - split; [by intros [? _]|]. intros [Hl He]. exfalso.
    destruct (front_drop_dead b s Hwf) as [Hd|Hd].
    + split; [|done]. destruct (get (b_index b) s) eqn:Hg; [|done].
      assert (is_Some (get (b_index b) s)) as ?%get_is_Some by eauto. lia.
    + sat_lia.
    + unfold live_at in Hd. congruence.
  - split; intros [Hl He]; (split; [done|]); sat_lia.
Qed.

(** ** The retention plan *)
Lemma ttl_scan_range now ttl seq recs upto :
  ttl_scan now ttl seq recs upto = upto ∨
  seq <= ttl_scan now ttl seq recs upto < seq + Z.of_nat (length recs).
Proof.
  revert seq upto. induction recs as [|r recs IH]; intros seq upto; simpl; [by left|].
  destruct (ttl <? _); [|by left]. destruct (IH (seq + 1) seq) as [->|?]; lia.
Qed.

Lemma bytes_scan_range cf seq recs over evict_to :
  bytes_scan cf seq recs over evict_to = evict_to ∨
  seq <= bytes_scan cf seq recs over evict_to < seq + Z.of_nat (length recs).
Proof.
  revert seq over evict_to. induction recs as [|r recs IH]; intros seq over evict_to; simpl;
    [by left|].
  destruct (seq <=? cf).
  - destruct (IH (seq + 1) over evict_to) as [->|?]; lia.
  - destruct (over =? 0); [by left|]. destruct (over -s r_bytes r =? 0); [lia|].
    destruct (IH (seq + 1) (over -s r_bytes r) seq) as [->|?]; lia.
Qed.

(** Every slot before the scan's stopping point is expired. *)
Lemma ttl_scan_complete now ttl seq recs upto i r :
  recs !! i = Some r → ttl < i64_sat_sub now (r_ts r) →
  (∀ j r', (j < i)%nat → recs !! j = Some r' → ttl < i64_sat_sub now (r_ts r')) →
  seq + Z.of_nat i <= ttl_scan now ttl seq recs upto.
Proof.
  revert seq upto i. induction recs as [|r0 recs IH]; intros seq upto i Hi Hr Hbefore; [done|].
  simpl. destruct i as [|i]; simplify_eq/=.
  - rewrite (proj2 (Z.ltb_lt _ _) Hr).
    destruct (ttl_scan_range now ttl (seq + 1) recs seq) as [->|?]; lia.
  - rewrite (proj2 (Z.ltb_lt _ _) (Hbefore 0%nat r0 ltac:(lia) eq_refl)).
    pose proof (IH (seq + 1) seq i Hi Hr) as IH'.
    replace (seq + Z.of_nat (S i)) with (seq + 1 + Z.of_nat i) by lia. apply IH'.
    intros j r' Hj. apply (Hbefore (S j)). lia.
Qed.

(** The bytes of the slots from [seq] up to and including [e]. *)
Definition bytes_upto (seq : Z) (recs : list (StoredRecord V)) (e : Z) : Z :=
  total_bytes (take (Z.to_nat (e + 1 - seq)) recs).

(** The byte scan frees what is over, or runs out of slots. *)
Lemma bytes_scan_enough cf seq recs over evict_to :
  Forall slot_ok recs → 0 <= over →
  let e := Z.max (bytes_scan cf seq recs over evict_to) cf in
  over <= bytes_upto seq recs e ∨ ∀ i, (i < length recs)%nat → seq + Z.of_nat i <= e.
Proof.
  intros Hok. revert seq over evict_to.
  induction Hok as [|r recs Hrok Hok IH]; intros seq over evict_to Hover; simpl.
  { right. intros i Hi. simpl in Hi. lia. }
  assert (Hr := proj1 Hrok).
  assert (Hsnoc : ∀ e, seq <= e →
    bytes_upto seq (r :: recs) e = r_bytes r + bytes_upto (seq + 1) recs e).
  { intros e He. unfold bytes_upto.
    replace (Z.to_nat (e + 1 - seq)) with (S (Z.to_nat (e + 1 - (seq + 1)))) by lia. done. }
  assert (Hup : ∀ e, 0 <= bytes_upto (seq + 1) recs e).
  { intros e. unfold bytes_upto. by apply total_bytes_take. }
  assert (Hstep : ∀ o e, seq <= e → o <= bytes_upto (seq + 1) recs e ∨
      (∀ i, (i < length recs)%nat → seq + 1 + Z.of_nat i <= e) →
    o + r_bytes r <= bytes_upto seq (r :: recs) e ∨
    ∀ i, (i < S (length recs))%nat → seq + Z.of_nat i <= e).
  { intros o e He [?|Hall]; [left; rewrite Hsnoc by done; lia|right].
    intros [|i] Hi; [lia|]. specialize (Hall i ltac:(lia)). lia. }
  destruct (Z.leb_spec seq cf).
  - destruct (Hstep over (Z.max (bytes_scan cf (seq + 1) recs over evict_to) cf)) as [?|?];
      [lia|by apply IH|left; lia|by right].
  - destruct (Z.eqb_spec over 0) as [->|?].
    { left. unfold bytes_upto. apply total_bytes_take. by apply Forall_cons. }
    destruct (Z.eqb_spec (over -s r_bytes r) 0) as [Hz|Hz].
    + left. rewrite Hsnoc by lia. specialize (Hup (Z.max seq cf)). sat_lia.
    + assert (Hb : over -s r_bytes r = over - r_bytes r) by sat_lia.
      pose proof (bytes_scan_range cf (seq + 1) recs (over -s r_bytes r) seq).
      destruct (Hstep (over -s r_bytes r)
        (Z.max (bytes_scan cf (seq + 1) recs (over -s r_bytes r) seq) cf)) as [?|?];
        [lia|apply IH; sat_lia|left; lia|by right].
Qed.

(** The byte scan stops at the first slot that suffices: what lies strictly
    before it is not enough. *)
Lemma bytes_scan_minimal cf seq recs over evict_to :
  Forall slot_ok recs → 0 < over → cf < seq → evict_to < seq →
  let e := bytes_scan cf seq recs over evict_to in
  seq <= e → bytes_upto seq recs (e - 1) < over.
Proof.
  intros Hok. revert seq over evict_to.
  induction Hok as [|r recs [Hr _] Hok IH]; intros seq over evict_to Hover Hcf Hev e He; simpl in *.
  { lia. }
  unfold e in *. clear e.
  rewrite (proj2 (Z.leb_gt _ _)) in He |- * by lia.
  rewrite (proj2 (Z.eqb_neq over 0)) in He |- * by lia.
  destruct (Z.eqb_spec (over -s r_bytes r) 0) as [Hz|Hz].
  - unfold bytes_upto. replace (Z.to_nat (seq - 1 + 1 - seq)) with 0%nat by lia. done.
  - assert (Hb : over -s r_bytes r = over - r_bytes r) by sat_lia.
    set (e := bytes_scan cf (seq + 1) recs (over -s r_bytes r) seq) in *.
    destruct (decide (seq + 1 <= e)) as [Hlt|Hge].
    + assert (bytes_upto (seq + 1) recs (e - 1) < over -s r_bytes r) by (apply IH; sat_lia).
      unfold bytes_upto in *.
      replace (Z.to_nat (e - 1 + 1 - seq)) with (S (Z.to_nat (e - 1 + 1 - (seq + 1)))) by lia.
      simpl. lia.
    + unfold bytes_upto. replace (Z.to_nat (e - 1 + 1 - seq)) with 0%nat by lia. done.
Qed.

(** ** Retention keeps the invariant and enforces its limits *)
Lemma with_floors_wf b f :
  topic_wf b → floors_u64 f → delete_floor (b_floors b) <= delete_floor f →
  topic_wf (with_floors b f).
Proof. intros [] ??. split; simpl; try done. lia. Qed.

Lemma plan_ttl_bounds b now :
  topic_wf b →
  expiry_floor (b_floors b) <= plan_ttl b now <= u64_max ∧ 0 <= plan_ttl b now.
Proof.
  intros [Hix Hsb Hlo Hhi _ _ _ (He & Hx & _ & _) _]. unfold plan_ttl, tail_seq in *.
  destruct (0 <? _); [|sat_lia].
  pose proof (ttl_scan_range now (as_i64 (cfg_ttl_ms (b_config b))) (base_seq (b_index b))
    (records (b_index b)) (expiry_floor (b_floors b))). sat_lia.
Qed.

Lemma plan_cap_records_bounds b :
  topic_wf b →
  evict_floor (b_floors b) <= plan_cap_records b <= u64_max ∧ 0 <= plan_cap_records b.
Proof.
  intros [Hix Hsb Hlo Hhi _ _ _ (He & Hx & _ & _) _]. unfold plan_cap_records, tail_seq in *.
  destruct (Z.ltb_spec 0 (cfg_cap_records (b_config b))); simpl; [|sat_lia].
  destruct (Z.ltb_spec (cfg_cap_records (b_config b)) (b_head_seq b)); sat_lia.
Qed.

Lemma plan_cap_bytes_bounds b evict expiry :
  topic_wf b → is_u64 evict →
  evict <= plan_cap_bytes b evict expiry <= u64_max.
Proof.
  intros [Hix Hsb Hlo Hhi _ _ _ _ _] He. unfold plan_cap_bytes, tail_seq in *.
  destruct (_ && _); [|sat_lia].
  pose proof (bytes_scan_range (Z.max evict expiry) (base_seq (b_index b))
    (records (b_index b)) (b_bytes_retained b - cfg_cap_bytes (b_config b)) evict). sat_lia.
Qed.

Lemma plan_retention_floors b now :
  topic_wf b → floors_u64 (commit_floors (b_floors b) (plan_retention b now)).
Proof.
  intros Hwf. pose proof (plan_ttl_bounds b now Hwf) as [Ht1 Ht2].
  pose proof (plan_cap_records_bounds b Hwf) as [Hr1 Hr2].
  pose proof (plan_cap_bytes_bounds b (plan_cap_records b) (plan_ttl b now) Hwf) as Hb.
  destruct (tw_floors _ Hwf) as (? & ? & ? & ?).
  unfold floors_u64, commit_floors. simpl. split_and!; sat_lia.
Qed.

Lemma enforce_retention_hardened_wf {E} b now (harden : RetentionAdvance → result E unit) :
  topic_wf b → topic_wf (enforce_retention_hardened b now harden).1.
Proof.
  intros Hwf. unfold enforce_retention_hardened.
  destruct (b_head_seq b =? 0); [done|]. destruct (_ && _ && _); [done|].
  destruct (if _ : bool then harden _ else _); [|done].
  set (b1 := if ra_floor_advanced _ then _ else _).
  assert (Hwf1 : topic_wf b1).
  { unfold b1. destruct (ra_floor_advanced _); [|done].
    apply with_floors_wf; [done|by apply plan_retention_floors|done]. }
  assert (Hh : b_head_seq b1 = b_head_seq b) by (unfold b1; by destruct (ra_floor_advanced _)).
  pose proof (reclaim_front_wf b1 Hwf1) as Hw. rewrite Hh in Hw.
  by destruct (reclaim_front b1 (b_head_seq b)).
Qed.

(** The state after a successful pass: the floors committed, the dead front
    popped. *)
Definition retained b now : TopicState V :=
  (reclaim_front (with_floors b (commit_floors (b_floors b) (plan_retention b now)))
     (b_head_seq b)).1.

Lemma commit_no_advance b now :
  ra_floor_advanced (plan_retention b now) = false → topic_wf b →
  commit_floors (b_floors b) (plan_retention b now) = b_floors b.
Proof.
  intros Hadv Hwf. pose proof (plan_ttl_bounds b now Hwf) as [Ht1 Ht2].
  pose proof (plan_cap_records_bounds b Hwf) as [Hr1 Hr2].
  pose proof (plan_cap_bytes_bounds b (plan_cap_records b) (plan_ttl b now) Hwf) as Hb.
  unfold plan_retention in Hadv |- *. simpl in *. rewrite !orb_false_iff, !Z.ltb_ge in Hadv.
  destruct (b_floors b). unfold commit_floors. simpl in *. f_equal; sat_lia.
Qed.

Lemma enforce_retention_state b now :
  topic_wf b → b_head_seq b ≠ 0 →
  (cfg_ttl_ms (b_config b) ≠ 0 ∨ cfg_cap_records (b_config b) ≠ 0 ∨
   cfg_cap_bytes (b_config b) ≠ 0) →
  (enforce_retention b now).1 = retained b now.
Proof.
  intros Hwf Hh Hcfg. unfold enforce_retention, enforce_retention_hardened, retained.
  rewrite (proj2 (Z.eqb_neq _ _) Hh).
  replace (_ && _ && _) with false.
  2: { symmetry. rewrite !andb_false_iff, !Z.eqb_neq. tauto. }
  destruct (if _ : bool then Ok tt else Ok tt) as [u|[]] eqn:Hif.
  destruct (ra_floor_advanced (plan_retention b now)) eqn:Hadv.
  - by destruct (reclaim_front (with_floors b _) _).
  - rewrite commit_no_advance by done.
    replace (with_floors b (b_floors b)) with b by (by destruct b).
    by destruct (reclaim_front b _).
Qed.

Lemma retained_fields b now :
  b_head_seq (retained b now) = b_head_seq b ∧
  b_config (retained b now) = b_config b ∧
  b_seq_base (retained b now) = b_seq_base b ∧
  b_queue (retained b now) = b_queue b ∧
  b_floors (retained b now) = commit_floors (b_floors b) (plan_retention b now).
Proof.
  unfold retained.
  destruct (reclaim_front_fields
    (with_floors b (commit_floors (b_floors b) (plan_retention b now))) (b_head_seq b))
    as (-> & -> & -> & -> & -> & _). done.
Qed.

Lemma retained_wf b now : topic_wf b → topic_wf (retained b now).
Proof.
  intros Hwf. apply (reclaim_front_wf (with_floors b _)).
  apply with_floors_wf; [done|by apply plan_retention_floors|done].
Qed.

(** [earliest_seq] lies above every committed floor that is below the head. *)
Lemma retained_earliest b now s :
  topic_wf b → earliest_seq (retained b now) <= s <= b_head_seq b →
  plan_ttl b now < s ∧ plan_cap_bytes b (plan_cap_records b) (plan_ttl b now) < s ∧
  plan_cap_records b < s.
Proof.
  intros Hwf. pose proof (plan_cap_records_bounds b Hwf) as [Hr1 Hr2].
  pose proof (plan_cap_bytes_bounds b (plan_cap_records b) (plan_ttl b now) Hwf) as Hb.
  unfold earliest_seq. destruct (retained_fields b now) as (-> & _ & -> & _ & ->).
  pose proof (tw_head_hi _ Hwf) as Hhi. pose proof (tw_head_lo _ Hwf) as Hlo.
  pose proof (tw_seq_base _ Hwf) as Hsb.
  unfold floors_earliest_seq, commit_floors, plan_retention. simpl. sat_lia.
Qed.

Lemma total_bytes_take_mono recs (n m : nat) :
  Forall slot_ok recs → (n <= m)%nat → total_bytes (take n recs) <= total_bytes (take m recs).
Proof.
  intros Hok Hnm. replace n with (n `min` m)%nat by lia. rewrite <-take_take.
  apply total_bytes_take. by apply Forall_take.
Qed.

(** The front is popped up to any floor that is committed. *)
Lemma front_drop_floor b e :
  topic_wf b →
  e <= Z.max (evict_floor (b_floors b)) (expiry_floor (b_floors b)) → e <= b_head_seq b →
  (Z.to_nat (e + 1 - base_seq (b_index b)) `min` length (records (b_index b))
   <= front_drop b (b_head_seq b))%nat.
Proof.
  intros Hwf He Hh. unfold front_drop. set (fe := floors_earliest_seq _ _ _).
  assert (e + 1 <= fe).
  { pose proof (tw_head_hi _ Hwf). pose proof (tw_head_lo _ Hwf).
    pose proof (tw_seq_base _ Hwf). destruct (tw_floors _ Hwf) as (? & ? & ? & ?).
    unfold fe, floors_earliest_seq. sat_lia. }
  destruct (Z.ltb_spec (base_seq (b_index b)) fe); lia.
Qed.

Lemma retained_bytes_cap b now :
  topic_wf b → 0 < cfg_cap_bytes (b_config b) →
  b_bytes_retained (retained b now) <= cfg_cap_bytes (b_config b).
Proof.
  intros Hwf Hcap. set (cap := cfg_cap_bytes (b_config b)) in *.
  set (b1 := with_floors b (commit_floors (b_floors b) (plan_retention b now))).
  assert (Hwf1 : topic_wf b1).
  { apply with_floors_wf; [done|by apply plan_retention_floors|done]. }
  unfold retained. fold b1. change (b_head_seq b) with (b_head_seq b1).
  rewrite reclaim_front_state by done. simpl. set (n := front_drop b1 (b_head_seq b)).
  assert (Hok := wf_slots _ (tw_index _ Hwf)).
  pose proof (total_bytes_take _ n Hok) as Hn. pose proof (tw_bytes _ Hwf) as Hbytes.
  unfold published in Hbytes. set (recs := records (b_index b)) in *.
  set (base := base_seq (b_index b)) in *. set (k := Z.to_nat (b_head_seq b + 1 - base)) in *.
  enough (b_bytes_retained b - total_bytes (take n recs) <= cap) by sat_lia.
  destruct (Z.le_gt_cases (b_bytes_retained b) cap) as [?|Hover]; [lia|].
  set (evict1 := plan_cap_records b). set (expiry := plan_ttl b now).
  set (e := Z.max (bytes_scan (Z.max evict1 expiry) base recs (b_bytes_retained b - cap) evict1)
                  (Z.max evict1 expiry)).
  assert (Hfl : e <= Z.max (evict_floor (b_floors b1)) (expiry_floor (b_floors b1))).
  { unfold b1, commit_floors, plan_retention, plan_cap_bytes. simpl. fold cap evict1 expiry base recs.
    rewrite (proj2 (Z.ltb_lt 0 cap)), (proj2 (Z.ltb_lt cap _)) by lia. simpl. lia. }
  assert (Hall : b_head_seq b <= e → b_bytes_retained b - total_bytes (take n recs) <= cap).
  { intros He. pose proof (front_drop_floor b1 (b_head_seq b) Hwf1 (Z.le_trans _ _ _ He Hfl) (Z.le_refl _)) as Hd.
    change (b_head_seq b1) with (b_head_seq b) in Hd. fold n in Hd.
    change (b_index b1) with (b_index b) in Hd. fold base recs k in Hd.
    assert (total_bytes (take k recs) <= total_bytes (take n recs)); [|lia].
    rewrite <-(firstn_all recs) at 1. rewrite take_take.
    by apply total_bytes_take_mono. }
  destruct (Z.le_gt_cases (b_head_seq b) e) as [He|He]; [by apply Hall|].
  pose proof (bytes_scan_enough (Z.max evict1 expiry) base recs (b_bytes_retained b - cap)
    evict1 Hok ltac:(lia)) as Hscan. cbv zeta in Hscan. fold e in Hscan.
  destruct Hscan as [Henough|Hlast].
  - pose proof (front_drop_floor b1 e Hwf1 Hfl ltac:(simpl; lia)) as Hd.
    change (b_head_seq b1) with (b_head_seq b) in Hd. fold n in Hd.
    change (b_index b1) with (b_index b) in Hd. fold base recs in Hd.
    assert (bytes_upto base recs e <= total_bytes (take n recs)); [|lia].
    unfold bytes_upto. rewrite <-(firstn_all recs) at 1. rewrite take_take.
    by apply total_bytes_take_mono.
  - destruct recs as [|r0 rs] eqn:Hrecs; [rewrite take_nil in Hbytes; simpl in Hbytes; lia|].
    specialize (Hlast (length rs) ltac:(simpl; lia)).
    pose proof (tw_head_hi _ Hwf) as Hhi. unfold tail_seq in Hhi.
    fold base recs in Hhi. rewrite Hrecs in Hhi. simpl in Hhi. lia.
Qed.

(** ** Staging and rolling back *)
Lemma foldl_push_fields recs ix :
  base_seq (foldl push_record ix recs) = base_seq ix ∧
  records (foldl push_record ix recs) = records ix ++ recs ∧
  delete_below (foldl push_record ix recs) = delete_below ix ∧
  tail_seq (foldl push_record ix recs) = tail_seq ix + Z.of_nat (length recs).
Proof.
  revert ix. induction recs as [|r recs IH]; intros ix; simpl.
  - by rewrite app_nil_r, Z.add_0_r.
  - destruct (IH (push_record ix r)) as (-> & -> & -> & ->).
    rewrite push_record_tail. simpl. rewrite <-app_assoc. split_and!; try done. lia.
Qed.

Lemma foldl_push_wf recs ix :
  index_wf ix → Forall slot_ok recs → index_wf (foldl push_record ix recs).
Proof.
  intros Hwf Hok. revert ix Hwf. induction Hok as [|r recs Hr Hok IH]; intros ix Hwf; [done|].
  apply IH. by apply push_record_wf.
Qed.

(** Pushed records sit at consecutive seqs from the tail; older seqs keep their
    slots. *)
Lemma foldl_push_get recs ix s :
  get (foldl push_record ix recs) s =
    if s <? tail_seq ix then get ix s else recs !! Z.to_nat (s - tail_seq ix).
Proof.
  unfold get. destruct (foldl_push_fields recs ix) as (-> & -> & _ & _).
  unfold tail_seq. destruct_zcmp.
  - done.
  - lia.
  - rewrite lookup_app_l by lia. done.
  - rewrite lookup_app_r by lia. f_equal. lia.
Qed.

Lemma push_published b recs :
  topic_wf b →
  published (with_index b (foldl push_record (b_index b) recs)) = published b.
Proof.
  intros Hwf. unfold published. simpl.
  destruct (foldl_push_fields recs (b_index b)) as (-> & -> & _ & _).
  pose proof (tw_head_hi _ Hwf) as Hhi. unfold tail_seq in Hhi.
  apply take_app_le. lia.
Qed.

Lemma stage_append_wf b recs :
  topic_wf b → Forall slot_ok recs →
  tail_seq (b_index b) + Z.of_nat (length recs) <= u64_max →
  total_bytes (records (b_index b)) + total_bytes recs <= u64_max →
  topic_wf (stage_append b recs).1.
Proof.
  intros Hwf Hok Htail Htot. destruct recs as [|r0 recs0] eqn:Hrecs; [done|].
  rewrite <-Hrecs in *. assert (Hst : (stage_append b recs).1 =
    with_index b (foldl push_record (b_index b) recs)) by (by rewrite Hrecs). rewrite Hst.
  destruct (foldl_push_fields recs (b_index b)) as (Hb & Hr & Hdb & Ht).
  pose proof (push_published b recs Hwf) as Hpub.
  destruct Hwf as [Hix Hsb Hlo Hhi Hlive Hby Hto Hfl Hdl].
  split; simpl; rewrite ?Hb, ?Ht, ?Hr, ?Hdb; try done.
  - by apply foldl_push_wf.
  - lia.
  - change (published _) with (published (with_index b (foldl push_record (b_index b) recs))).
    by rewrite Hpub.
  - change (published _) with (published (with_index b (foldl push_record (b_index b) recs))).
    by rewrite Hpub.
  - by rewrite total_bytes_app.
Qed.

Lemma unindex_index m s t :
  (∀ t l, m !! t = Some l → l ≠ []) → s ∉ postings m t →
  unindex_tag t s (index_tag s t m) = m.
Proof.
  intros Hne Hs. unfold unindex_tag, index_tag. rewrite lookup_insert_eq.
  assert (Hrm : remove_sorted s (postings m t ++ [s]) = postings m t).
  { unfold remove_sorted. rewrite filter_app, filter_cons, decide_False by naive_solver.
    rewrite filter_nil, app_nil_r. apply list_filter_all. by intros y Hy ->. }
  rewrite Hrm. unfold postings in *. destruct (m !! t) as [l|] eqn:Ht; simpl in *.
  - destruct l as [|a l]; [by destruct (Hne t [])|].
    rewrite insert_insert_eq. by apply insert_id.
  - by rewrite delete_insert_id.
Qed.

Lemma pop_back_push ix r : index_wf ix → pop_back (push_record ix r) = ix.
Proof.
  intros [_ _ Htags]. unfold pop_back. simpl. rewrite last_snoc, push_record_tail.
  rewrite length_app. simpl. rewrite Nat.add_sub, take_app_length.
  destruct ix as [base recs m db]. simpl in *. f_equal.
  destruct (r_tag r) as [t|]; [|done].
  rewrite Z.add_simpl_r. apply unindex_index.
  - apply Htags.
  - intros (i & r' & Hi & Heq & _)%(tags_exact _ _ _ Htags).
    apply lookup_lt_Some in Hi. unfold tail_seq in Heq. simpl in Heq. lia.
Qed.

Lemma iter_pop_back_push recs ix :
  index_wf ix → Forall slot_ok recs →
  Nat.iter (length recs) pop_back (foldl push_record ix recs) = ix.
Proof.
  induction recs as [|r recs IH] using rev_ind; intros Hwf Hok; [done|].
  apply Forall_app in Hok as [Hok Hr]. rewrite foldl_snoc, length_app. simpl.
  rewrite Nat.add_1_r, Nat.iter_succ_r, pop_back_push by (by apply foldl_push_wf).
  by apply IH.
Qed.

(** Rolling back a batch that failed to reach the log restores the topic exactly. *)
Lemma rollback_stage b recs :
  index_wf (b_index b) → Forall slot_ok recs →
  rollback_staged (stage_append b recs).1 (stage_append b recs).2 = b.
Proof.
  intros Hwf Hok. destruct recs as [|r recs]; [done|].
  set (rs := r :: recs). unfold rollback_staged, stage_append. simpl fst. simpl snd.
  unfold staged_is_empty. simpl sa_count.
  rewrite (proj2 (Z.eqb_neq _ 0)) by lia. simpl.
  destruct (foldl_push_fields rs (b_index b)) as (_ & Hr & _ & _).
  unfold rs in Hr. simpl in Hr. rewrite Hr. rewrite length_app.
  replace (length (records (b_index b)) + length (r :: recs) - length (records (b_index b)))%nat
    with (length rs) by (unfold rs; lia).
  change (foldl push_record (push_record (b_index b) r) recs)
    with (foldl push_record (b_index b) rs).
  rewrite iter_pop_back_push by done. by destruct b.
Qed.

(** ** Marking a set of seqs *)
Lemma mark_all_spec seqs ix freed deleted :
  index_wf ix → 0 <= freed → freed + total_bytes (records ix) <= u64_max →
  let '(ix', freed', deleted') := mark_all ix seqs freed deleted in
  index_wf ix' ∧ base_seq ix' = base_seq ix ∧ delete_below ix' = delete_below ix ∧
  length (records ix') = length (records ix) ∧
  (∀ s, get ix' s = match get ix s with
                    | Some r => Some (if bool_decide (s ∈ seqs ∧ r_deleted r = false)
                                      then clear_slot r else r)
                    | None => None
                    end) ∧
  freed <= freed' ∧ deleted <= deleted' ∧
  freed' - freed = total_bytes (records ix) - total_bytes (records ix') ∧
  deleted' - deleted = live_slots (records ix) - live_slots (records ix').
Proof.
  revert ix freed deleted. induction seqs as [|s seqs IH]; intros ix freed deleted Hwf Hf Htot; simpl.
  { split_and!; try done; try lia. intros s. by destruct (get ix s). }
  pose proof (mark_deleted_wf ix s Hwf) as Hwf'.
  pose proof (mark_deleted_shape ix s) as (Hb & Hlen & _ & Hdb).
  pose proof (mark_deleted_get ix s) as Hget.
  pose proof (mark_deleted_accounting ix s) as Hacc.
  pose proof (total_bytes_nonneg _ (wf_slots _ Hwf')) as Hnn.
  destruct (mark_deleted ix s) as [ix1 [f|]] eqn:Hmd; simpl in *.
  - destruct Hacc as ((r & Hr & Hlive & Hrb) & Hl & Ht).
    assert (0 <= f).
    { subst f. apply get_slot in Hr as (i & Hi & _).
      apply (Forall_lookup_1 _ _ i r (wf_slots _ Hwf)) in Hi as [? _]. done. }
    rewrite sat_add_exact by lia.
    specialize (IH ix1 (freed + f) (deleted + 1) Hwf' ltac:(lia) ltac:(lia)).
    destruct (mark_all ix1 seqs _ _) as [[ix2 freed2] deleted2].
    destruct IH as (? & -> & -> & -> & Hg & ? & ? & ? & ?).
    split_and!; try done; try lia.
    intros s'. rewrite Hg, Hget. destruct (get ix s') as [r'|]; [|done]. f_equal.
    repeat case_bool_decide; try done; destruct_and?; subst; simpl in *;
      rewrite ?elem_of_cons in *; naive_solver.
  - destruct Hacc as [-> Hdead].
    specialize (IH ix freed deleted Hwf Hf Htot).
    destruct (mark_all ix seqs _ _) as [[ix2 freed2] deleted2].
    destruct IH as (? & -> & -> & -> & Hg & ? & ? & ? & ?). split_and!; try done.
    intros s'. rewrite Hg. destruct (get ix s') as [r'|] eqn:Hr'; [|done]. f_equal.
    assert (bool_decide (s' ∈ seqs ∧ r_deleted r' = false)
            = bool_decide (s' ∈ s :: seqs ∧ r_deleted r' = false)) as ->; [|done].
    apply bool_decide_ext. rewrite elem_of_cons. split; [tauto|].
    intros [[->|Hin] Hd]; [|done]. by rewrite (Hdead r' Hr') in Hd.
Qed.

Lemma get_records_ext ix ix' (k : nat) :
  base_seq ix' = base_seq ix → length (records ix') = length (records ix) →
  (∀ s, base_seq ix + Z.of_nat k <= s → get ix' s = get ix s) →
  drop k (records ix') = drop k (records ix).
Proof.
  intros Hb Hlen Hget. apply list_eq. intros i. rewrite !lookup_drop.
  specialize (Hget (base_seq ix + Z.of_nat (k + i)) ltac:(lia)).
  unfold get in Hget. rewrite Hb in Hget.
  rewrite (proj2 (Z.ltb_ge _ _)) in Hget by lia.
  replace (Z.to_nat (base_seq ix + Z.of_nat (k + i) - base_seq ix)) with (k + i)%nat in Hget by lia.
  done.
Qed.

(** Deleting published seqs adjusts both counters by what was live. *)
Lemma mark_all_topic_wf b seqs :
  topic_wf b → (∀ s, s ∈ seqs → s <= b_head_seq b ∨ tail_seq (b_index b) <= s) →
  let '(ix', freed, deleted) := mark_all (b_index b) seqs 0 0 in
  topic_wf (subtract_counts (with_index b ix') freed deleted).
Proof.
  intros Hwf Hseqs.
  pose proof (mark_all_spec seqs (b_index b) 0 0 (tw_index _ Hwf) ltac:(lia)
                ltac:(pose proof (tw_total _ Hwf); lia)) as Hm.
  destruct (mark_all (b_index b) seqs 0 0) as [[ix' freed] deleted].
  destruct Hm as (Hix' & Hb & Hdb & Hlen & Hget & Hf0 & Hd0 & Hfr & Hde).
  set (k := Z.to_nat (b_head_seq b + 1 - base_seq (b_index b))).
  assert (Hdrop : drop k (records ix') = drop k (records (b_index b))).
  { apply get_records_ext; [done|done|]. intros s Hs. rewrite Hget.
    destruct (get (b_index b) s) as [r|] eqn:Hg; [|done].
    pose proof (proj1 (get_is_Some (b_index b) s) ltac:(eauto)).
    rewrite bool_decide_eq_false_2; [done|]. intros [Hin _]. specialize (Hseqs s Hin). lia. }
  rewrite <-(take_drop k (records (b_index b))), <-(take_drop k (records ix')), Hdrop,
    !total_bytes_app in Hfr.
  rewrite <-(take_drop k (records (b_index b))), <-(take_drop k (records ix')), Hdrop,
    !live_slots_app in Hde.
  pose proof (live_slots_nonneg (take k (records ix'))).
  pose proof (total_bytes_take (records ix') k (wf_slots _ Hix')).
  assert (Hpub : published (with_index b ix') = take k (records ix')).
  { unfold published. simpl. by rewrite Hb. }
  assert (Htail : tail_seq ix' = tail_seq (b_index b)) by (unfold tail_seq; by rewrite Hb, Hlen).
  destruct Hwf as [Hix Hsb Hlo Hhi Hlive Hby Hto Hfl Hdl].
  unfold published in Hlive, Hby. fold k in Hlive, Hby.
  split; simpl; try done; try (rewrite Htail || rewrite Hb || rewrite Hdb; lia).
  - unfold published in *. simpl. rewrite Hb. fold k. sat_lia.
  - unfold published in *. simpl. rewrite Hb. fold k. sat_lia.
  - rewrite <-(take_drop k (records ix')), Hdrop, total_bytes_app.
    rewrite <-(take_drop k (records (b_index b))), total_bytes_app in Hto. lia.
Qed.
End topic.
