(* ===== verification/TopicLog.v ===== *)
(** * The topic as a log

    What a reader of a topic can see ([view]), and the behaviour of every
    mutation of [TopicState] in terms of it: appends extend the log at the
    head, retention removes a prefix, deletes remove exactly the records they
    select, front reclamation removes nothing.  The last part states this as a
    refinement of an abstract log. *)

From stdpp Require Import base gmap list strings sorting list_numbers.
From S2P Require Import Prelude Types Eviction TopicIndex QueueProjection TopicState.

Section topic_log.
Context {V : Type} `{!JsonNull V}.
Implicit Types (b : TopicState V) (ix : TopicIndex V) (recs : list (StoredRecord V)).

(** ** Definitions *)

(** The record a reader gets at [s]. *)
Definition view b (s : Z) : option (StoredRecord V) :=
  if (earliest_seq b <=? s) && (s <=? b_head_seq b)
  then match get (b_index b) s with
       | Some r => if r_deleted r then None else Some r
       | None => None
       end
  else None.

Definition floors_max (f : Floors) : Z :=
  Z.max (Z.max (evict_floor f) (expiry_floor f)) (Z.max (delete_floor f) (source_trim_floor f)).

(** A topic with no staged, unpublished batch. *)
Record settled b : Prop := {
  st_wf : topic_wf b;
  st_tail : tail_seq (b_index b) = b_head_seq b + 1;
  st_floors : floors_max (b_floors b) <= b_head_seq b
}.

(** What a delete selects: the seq lies below the bound and the record's tag
    matches the filter, if there is one. *)
Definition del_selects (match_ : option Filter) (bound s : Z) (r : StoredRecord V) : bool :=
  (s <? bound) &&
  match match_ with
  | None => true
  | Some f => match r_tag r with Some t => filter_matches f t | None => false end
  end.

(** ** The view *)

(** A published seq is reachable when it lies above every floor and its slot has
    not been popped. *)
Lemma earliest_seq_le b s :
  topic_wf b → s <= b_head_seq b →
  (earliest_seq b <= s ↔ floors_max (b_floors b) < s ∧ base_seq (b_index b) <= s).
Proof.
  intros [_ Hsb Hlo Hhi _ _ _ (? & ? & ? & ?) _] Hs.
  unfold earliest_seq, floors_earliest_seq, floors_max.
  rewrite (sat_add_exact (b_head_seq b)) by lia. rewrite Z.min_le_iff, Z.max_lub_iff, Z.min_le_iff,
    Z.max_lub_iff, !Z.max_lub_lt_iff.
  unfold sat_add. rewrite Z.min_le_iff, Z.add_1_r, Z.le_succ_l, !Z.max_lub_lt_iff.
  unfold is_u64 in *. lia.
Qed.

Lemma view_Some b s r :
  view b s = Some r ↔
    earliest_seq b <= s <= b_head_seq b ∧ get (b_index b) s = Some r ∧ r_deleted r = false.
Proof.
  unfold view. destruct (Z.leb_spec (earliest_seq b) s), (Z.leb_spec s (b_head_seq b)); simpl;
    [|split; [done|lia]..].
  destruct (get _ s) as [r'|]; [|naive_solver]. destruct (r_deleted r') eqn:?; [|naive_solver].
  split; [done|]. intros (_ & [= ->] & ?). congruence.
Qed.

Lemma view_visible b s : is_Some (view b s) ↔ visible b s.
Proof.
  unfold visible, live_at. split.
  - intros [r (Hr & Hg & Hd)%view_Some]. by rewrite Hg, Hd.
  - intros [Hl Hr]. destruct (get _ s) as [r|] eqn:Hg; [|done]. exists r. apply view_Some.
    split_and!; try done; try lia. by destruct (r_deleted r).
Qed.

(** Two topics with the same visible seqs and slots have the same view. *)
Lemma view_ext b b' s :
  (visible b' s ↔ visible b s) →
  (visible b s → get (b_index b') s = get (b_index b) s) →
  view b' s = view b s.
Proof.
  intros Hv Hg. destruct (view b s) as [r|] eqn:Hr.
  - assert (Hvis : visible b s) by (apply view_visible; eauto).
    pose proof (proj2 Hv Hvis) as [_ Hrange]. apply view_Some in Hr as (_ & Hr & Hd).
    apply view_Some. rewrite (Hg Hvis). naive_solver lia.
  - destruct (view b' s) as [r'|] eqn:Hr'; [|done].
    assert (Hvis : visible b s) by (apply Hv, view_visible; eauto).
    apply view_visible in Hvis as [? ?]. congruence.
Qed.

(** Popping the dead front changes nothing a reader sees. *)
Lemma reclaim_front_view b s :
  topic_wf b → view (reclaim_front b (b_head_seq b)).1 s = view b s.
Proof.
  intros Hwf. pose proof (reclaim_front_visible b s Hwf) as Hv.
  apply view_ext; [done|]. intros Hs. rewrite reclaim_front_get by done.
  destruct (Z.ltb_spec s (base_seq (b_index b) + Z.of_nat (front_drop b (b_head_seq b))));
    [|done].
  apply Hv in Hs as [Hlive _]. unfold live_at in Hlive. rewrite reclaim_front_get in Hlive by done.
  by rewrite (proj2 (Z.ltb_lt _ _)) in Hlive by lia.
Qed.

Lemma view_head b s : b_head_seq b < s → view b s = None.
Proof. intros ?. unfold view. rewrite (proj2 (Z.leb_gt s _)) by lia. by rewrite andb_false_r. Qed.

(** ** Appends *)

(** What the write path guarantees of a batch it appends. *)
Definition appendable b recs : Prop :=
  Forall (λ r, 0 <= r_bytes r ∧ r_deleted r = false) recs ∧
  tail_seq (b_index b) + Z.of_nat (length recs) <= u64_max ∧
  total_bytes (records (b_index b)) + total_bytes recs <= u64_max.

Lemma appendable_slots b recs : appendable b recs → Forall slot_ok recs.
Proof.
  intros [Hr _]. eapply Forall_impl; [done|]. intros r [? Hd]. split; [done|].
  by rewrite Hd.
Qed.

Lemma live_slots_all recs :
  Forall (λ r : StoredRecord V, r_deleted r = false) recs → live_slots recs = Z.of_nat (length recs).
Proof.
  induction 1 as [|r recs Hr _ IH]; [done|]. rewrite live_slots_cons, Hr, IH. simpl. lia.
Qed.

(** [append] in one step. *)
Definition appended b recs (now : Z) : TopicState V :=
  with_last_write
    (with_counts
       (with_head (with_index b (foldl push_record (b_index b) recs))
          (tail_seq (b_index b) + Z.of_nat (length recs) - 1))
       (b_bytes_retained b + total_bytes recs) (b_live_count b + Z.of_nat (length recs))) now.

Lemma append_eq b recs now :
  topic_wf b → recs ≠ [] → appendable b recs →
  append b recs now = (appended b recs now, seqZ (tail_seq (b_index b)) (Z.of_nat (length recs))).
Proof.
  intros Hwf Hne Happ. pose proof (appendable_slots _ _ Happ) as Hok.
  destruct Happ as (_ & _ & Hbytes).
  pose proof (total_bytes_nonneg _ (wf_slots _ (tw_index _ Hwf))).
  pose proof (foldl_sat_bytes recs 0 Hok ltac:(lia) ltac:(lia)) as Hsum.
  unfold append. destruct recs as [|r0 recs0] eqn:Hrecs; [done|]. rewrite <-Hrecs in *.
  assert (0 < Z.of_nat (length recs)) by (rewrite Hrecs; simpl; lia).
  replace (stage_append b recs) with (with_index b (foldl push_record (b_index b) recs),
    mkStaged (tail_seq (b_index b)) (Z.of_nat (length recs)) (total_bytes recs)
      (length (records (b_index b)))) by (rewrite Hrecs in *; simpl in *; by rewrite Hsum).
  unfold publish_staged_no_seal, staged_is_empty, staged_seqs. simpl.
  by rewrite (proj2 (Z.eqb_neq _ _)) by lia.
Qed.

Lemma appended_settled b recs now :
  settled b → appendable b recs → settled (appended b recs now).
Proof.
  intros [Hwf Htail Hfl] Happ. pose proof (appendable_slots _ _ Happ) as Hok.
  destruct Happ as (Hlive & Hroom & Hbytes).
  destruct (foldl_push_fields recs (b_index b)) as (Hb & Hr & Hdb & Ht).
  pose proof (tw_live _ Hwf) as Hl. pose proof (tw_bytes _ Hwf) as Hby.
  unfold published in Hl, Hby. unfold tail_seq in Htail.
  rewrite take_ge in Hl by lia. rewrite take_ge in Hby by lia.
  assert (Hpub : published (appended b recs now) = records (b_index b) ++ recs).
  { unfold published. simpl. rewrite Hb, Hr. apply take_ge. rewrite length_app.
    unfold tail_seq. lia. }
  assert (Hlr : live_slots recs = Z.of_nat (length recs)).
  { apply live_slots_all. eapply Forall_impl; [exact Hlive|]. by intros ? []. }
  destruct Hwf as [Hix Hsb Hlo Hhi _ _ Hto Hfu Hdl].
  split; [split|..]; rewrite ?Hpub; simpl; rewrite ?Hb, ?Ht, ?Hdb, ?Hr, ?live_slots_app,
    ?total_bytes_app; unfold tail_seq in *; try done; try lia.
  by apply foldl_push_wf.
Qed.

(** Older records keep their content, and the new ones are the batch in order. *)
Lemma appended_view b recs now s :
  settled b → appendable b recs →
  view (appended b recs now) s =
    if s <=? b_head_seq b then view b s else recs !! Z.to_nat (s - (b_head_seq b + 1)).
Proof.
  intros Hst Happ. pose proof (st_wf _ (appended_settled b recs now Hst Happ)) as Hwf'.
  destruct Hst as [Hwf Htail Hfl], Happ as (Hlive & _ & _).
  destruct (foldl_push_fields recs (b_index b)) as (Hb & _).
  apply option_eq. intros r. rewrite view_Some. simpl. rewrite foldl_push_get.
  destruct (Z.leb_spec s (b_head_seq b)).
  - rewrite view_Some, (proj2 (Z.ltb_lt s _)) by lia.
    apply and_iff_compat_r. pose proof (earliest_seq_le b s Hwf ltac:(done)).
    pose proof (earliest_seq_le _ s Hwf' ltac:(simpl; lia)) as He. simpl in He. rewrite Hb in He. lia.
  - rewrite (proj2 (Z.ltb_ge s _)) by lia. rewrite Htail.
    split; [by intros (_ & ? & _)|]. intros Hr. pose proof (lookup_lt_Some _ _ _ Hr).
    pose proof (Forall_lookup_1 _ _ _ _ Hlive Hr) as [_ Hd].
    pose proof (tw_head_hi _ Hwf). pose proof (earliest_seq_le _ s Hwf') as He. simpl in He. rewrite Hb in He.
    unfold tail_seq in *. split_and!; try done; [|lia]. apply He; lia.
Qed.

(** ** Retention *)
Lemma enforce_retention_cases b now :
  topic_wf b →
  (enforce_retention b now).1 = b ∨ (enforce_retention b now).1 = retained b now.
Proof.
  intros Hwf. destruct (decide (b_head_seq b = 0)) as [H0|H0].
  { left. unfold enforce_retention, enforce_retention_hardened. by rewrite H0. }
  destruct (decide (cfg_ttl_ms (b_config b) = 0 ∧ cfg_cap_records (b_config b) = 0 ∧
                    cfg_cap_bytes (b_config b) = 0)) as [(Ht & Hr & Hb)|Hc].
  - left. unfold enforce_retention, enforce_retention_hardened.
    rewrite Ht, Hr, Hb, (proj2 (Z.eqb_neq _ _)) by done. done.
  - right. apply enforce_retention_state; [done..|]. lia.
Qed.

(** Planned floors never pass the last slot or the head. *)
Lemma plan_floors_max b now :
  topic_wf b →
  floors_max (commit_floors (b_floors b) (plan_retention b now)) <=
    Z.max (floors_max (b_floors b)) (tail_seq (b_index b) - 1).
Proof.
  intros [_ Hsb Hlo Hhi _ _ _ _ _].
  unfold floors_max, commit_floors, plan_retention. simpl.
  assert (Ht : plan_ttl b now <= Z.max (expiry_floor (b_floors b)) (tail_seq (b_index b) - 1)).
  { unfold plan_ttl, tail_seq. destruct (0 <? _); [|lia].
    pose proof (ttl_scan_range now (as_i64 (cfg_ttl_ms (b_config b))) (base_seq (b_index b))
      (records (b_index b)) (expiry_floor (b_floors b))). lia. }
  assert (Hr : plan_cap_records b <= Z.max (evict_floor (b_floors b)) (tail_seq (b_index b) - 1)).
  { unfold plan_cap_records. destruct (Z.ltb_spec 0 (cfg_cap_records (b_config b))); simpl; [|lia].
    destruct (_ <? _); lia. }
  assert (Hb : ∀ e x, plan_cap_bytes b e x <= Z.max e (tail_seq (b_index b) - 1)).
  { intros e x. unfold plan_cap_bytes, tail_seq. destruct (_ && _); [|lia].
    pose proof (bytes_scan_range (Z.max e x) (base_seq (b_index b)) (records (b_index b))
      (b_bytes_retained b - cfg_cap_bytes (b_config b)) e). lia. }
  specialize (Hb (plan_cap_records b) (plan_ttl b now)). lia.
Qed.

Lemma retained_tail b now : tail_seq (b_index (retained b now)) = tail_seq (b_index b).
Proof. unfold retained. by rewrite reclaim_front_tail. Qed.

Lemma retained_settled b now : settled b → settled (retained b now).
Proof.
  intros [Hwf Ht Hf]. pose proof (plan_floors_max b now Hwf).
  destruct (retained_fields b now) as (Hh & _ & _ & _ & Hfl).
  split; [by apply retained_wf|by rewrite retained_tail, Hh|]. rewrite Hfl, Hh. lia.
Qed.

Lemma retained_view_floors b now s :
  topic_wf b →
  view (retained b now) s =
    view (with_floors b (commit_floors (b_floors b) (plan_retention b now))) s.
Proof.
  intros Hwf. unfold retained. set (f := commit_floors (b_floors b) (plan_retention b now)).
  change (b_head_seq b) with (b_head_seq (with_floors b f)). apply reclaim_front_view.
  apply with_floors_wf; [done|by apply plan_retention_floors|done].
Qed.

(** Retention removes exactly the records below its new earliest seq. *)
Lemma retained_view b now s :
  topic_wf b →
  view (retained b now) s =
    if earliest_seq (retained b now) <=? s then view b s else None.
Proof.
  intros Hwf. set (f := commit_floors (b_floors b) (plan_retention b now)).
  assert (Hwf1 : topic_wf (with_floors b f)).
  { apply with_floors_wf; [done|by apply plan_retention_floors|done]. }
  assert (Hle : floors_max (b_floors b) <= floors_max f).
  { unfold f, floors_max, commit_floors. simpl. lia. }
  pose proof (λ s, retained_view_floors b now s Hwf) as Hv1. fold f in Hv1.
  apply option_eq. intros r. destruct (Z.leb_spec (earliest_seq (retained b now)) s) as [He|He].
  - rewrite Hv1, !view_Some. simpl. apply and_iff_compat_r.
    destruct (decide (s <= b_head_seq b)) as [Hs|]; [|lia].
    pose proof (earliest_seq_le b s Hwf Hs). pose proof (earliest_seq_le _ s Hwf1 Hs) as He1.
    destruct (retained_fields b now) as (Hh & _ & _ & _ & Hfl).
    pose proof (earliest_seq_le _ s (retained_wf b now Hwf) ltac:(by rewrite Hh)) as He2.
    rewrite Hfl in He2. fold f in He2. simpl in He1.
    assert (base_seq (b_index b) <= base_seq (b_index (retained b now))); [|lia].
    unfold retained. fold f. change (b_head_seq b) with (b_head_seq (with_floors b f)).
    rewrite (reclaim_front_state (with_floors b f)) by done. simpl.
    destruct (drain_front_records (b_index b)
      (front_drop (with_floors b f) (b_head_seq b))) as (_ & -> & _). lia.
  - split; [|done]. intros Hv. apply view_Some in Hv. lia.
Qed.

(** ** Deletes *)

(** The topic after marking [seqs] deleted. *)
Definition marked b (seqs : list Z) : TopicState V :=
  let '(ix, freed, deleted) := mark_all (b_index b) seqs 0 0 in
  subtract_counts (with_index b ix) freed deleted.

Lemma marked_get b seqs s :
  topic_wf b →
  get (b_index (marked b seqs)) s =
    match get (b_index b) s with
    | Some r => Some (if bool_decide (s ∈ seqs ∧ r_deleted r = false) then clear_slot r else r)
    | None => None
    end.
Proof.
  intros Hwf. pose proof (mark_all_spec seqs (b_index b) 0 0 (tw_index _ Hwf) ltac:(lia)
    ltac:(pose proof (tw_total _ Hwf); lia)) as Hm.
  unfold marked. destruct (mark_all _ _ _ _) as [[ix' freed] deleted].
  destruct Hm as (_ & _ & _ & _ & Hget & _). apply Hget.
Qed.

Lemma marked_fields b seqs :
  topic_wf b →
  b_head_seq (marked b seqs) = b_head_seq b ∧ b_floors (marked b seqs) = b_floors b ∧
  base_seq (b_index (marked b seqs)) = base_seq (b_index b) ∧
  tail_seq (b_index (marked b seqs)) = tail_seq (b_index b) ∧
  delete_below (b_index (marked b seqs)) = delete_below (b_index b).
Proof.
  intros Hwf. pose proof (mark_all_spec seqs (b_index b) 0 0 (tw_index _ Hwf) ltac:(lia)
    ltac:(pose proof (tw_total _ Hwf); lia)) as Hm.
  unfold marked. destruct (mark_all _ _ _ _) as [[ix' freed] deleted].
  destruct Hm as (_ & Hb & Hd & Hl & _). unfold tail_seq. simpl. by rewrite Hb, Hd, Hl.
Qed.

Lemma marked_wf b seqs :
  topic_wf b → (∀ s, s ∈ seqs → s <= b_head_seq b ∨ tail_seq (b_index b) <= s) → topic_wf (marked b seqs).
Proof.
  intros Hwf Hs. pose proof (mark_all_topic_wf b seqs Hwf Hs). unfold marked.
  by destruct (mark_all _ _ _ _) as [[ix' freed] deleted].
Qed.

Lemma marked_view b seqs s :
  topic_wf b → (∀ s, s ∈ seqs → s <= b_head_seq b ∨ tail_seq (b_index b) <= s) →
  view (marked b seqs) s = if decide (s ∈ seqs) then None else view b s.
Proof.
  intros Hwf Hs. pose proof (marked_wf b seqs Hwf Hs) as Hwf'.
  destruct (marked_fields b seqs Hwf) as (Hh & Hf & Hb & _ & _).
  destruct (decide (s <= b_head_seq b)) as [Hle|]; cycle 1.
  { rewrite !view_head by (rewrite ?Hh; lia). by destruct (decide _). }
  pose proof (earliest_seq_le _ s Hwf' ltac:(lia)) as He'.
  pose proof (earliest_seq_le _ s Hwf Hle) as He. rewrite Hf, Hb in He'.
  apply option_eq. intros r. rewrite view_Some, marked_get, Hh by done.
  destruct (decide (s ∈ seqs)) as [Hin|Hin].
  - split; [|done]. intros (_ & Hg & Hd). destruct (get _ s) as [r'|]; [|done].
    injection Hg as <-. case_bool_decide as Hc; [done|]. tauto.
  - rewrite view_Some. rewrite He, He'. destruct (get _ s) as [r'|]; [|naive_solver].
    rewrite bool_decide_eq_false_2; [done|]. tauto.
Qed.

(** The counter of a delete of distinct live seqs is their number. *)
Lemma mark_all_count seqs ix freed deleted :
  NoDup seqs → (∀ s, s ∈ seqs → live_at ix s = true) →
  (mark_all ix seqs freed deleted).2 = deleted + Z.of_nat (length seqs).
Proof.
  revert ix freed deleted. induction seqs as [|s seqs IH]; intros ix freed deleted Hnd Hl.
  { simpl. lia. }
  apply NoDup_cons in Hnd as [Hs Hnd].
  pose proof (mark_deleted_get ix s) as Hget. pose proof (mark_deleted_accounting ix s) as Hacc.
  pose proof (Hl s ltac:(by left)) as Hls. unfold live_at in Hls.
  simpl. destruct (mark_deleted ix s) as [ix1 [f|]]; simpl in *.
  - rewrite IH; [lia|done|]. intros s' Hs'. unfold live_at. rewrite Hget.
    specialize (Hl s' ltac:(by right)). unfold live_at in Hl. destruct (get ix s') as [r|]; [|done].
    rewrite bool_decide_eq_false_2; [done|]. intros [-> _]. done.
  - destruct Hacc as [_ Hd]. destruct (get ix s) as [r|]; [|done]. by rewrite (Hd r eq_refl) in Hls.
Qed.

Lemma live_at_get ix s : live_at ix s = true ↔ ∃ r, get ix s = Some r ∧ r_deleted r = false.
Proof.
  unfold live_at. destruct (get ix s) as [r|]; [|naive_solver].
  rewrite negb_true_iff. naive_solver.
Qed.

(** The victims of a delete are distinct live seqs below the bound. *)
Lemma delete_victims_live b match_ bound s :
  topic_wf b → s ∈ delete_victims b match_ bound → s < bound ∧ live_at (b_index b) s = true.
Proof.
  intros Hwf. destruct match_ as [f|]; simpl.
  - rewrite matching_live_seqs_elem by apply Hwf. intros [? (r & t & Hr & Hd & _)].
    rewrite live_at_get. eauto.
  - unfold live_range. rewrite list_elem_of_filter, elem_of_seqZ. intros [? ?]. split; [lia|done].
Qed.

Lemma delete_victims_NoDup b match_ bound : topic_wf b → NoDup (delete_victims b match_ bound).
Proof.
  intros Hwf. destruct match_ as [f|]; simpl.
  - apply ascending_NoDup, matching_live_seqs_ascending, Hwf.
  - apply NoDup_filter, NoDup_seqZ.
Qed.

Lemma delete_victims_selected b match_ bound s r :
  topic_wf b → view b s = Some r →
  (s ∈ delete_victims b match_ bound ↔ del_selects match_ bound s r = true).
Proof.
  intros Hwf ((He & Hh) & Hg & Hd)%view_Some. unfold del_selects.
  rewrite andb_true_iff, Z.ltb_lt. destruct match_ as [f|]; simpl.
  - rewrite matching_live_seqs_elem by apply Hwf. apply and_iff_compat_l. unfold live_tagged.
    rewrite Hg. split.
    + intros (r' & t & [= <-] & _ & -> & Hm). done.
    + destruct (r_tag r) as [t|] eqn:Ht; [|done]. intros Hm. exists r, t. done.
  - unfold live_range. rewrite list_elem_of_filter, elem_of_seqZ, live_at_get.
    pose proof (proj1 (earliest_seq_le b s Hwf Hh) He). split.
    + intros [_ ?]. split; [lia|done].
    + intros [? _]. split; [eauto|lia].
Qed.

(** The topic after the floor update that follows the marking. *)
Definition prefix_floored b (before_seq : option Z) (match_ : option Filter) (bound : Z) :
    TopicState V :=
  let ix := match match_, before_seq with
            | None, Some _ => raise_delete_below (b_index b) bound
            | _, _ => b_index b
            end in
  with_floors (with_index b ix) (raise_delete_floor (b_floors b) (delete_below ix)).

Lemma apply_delete_eq b before_seq match_ bound_head now :
  let b0 := (enforce_retention b now).1 in
  let bound := delete_bound b0 before_seq bound_head in
  let b1 := marked b0 (delete_victims b0 match_ bound) in
  (apply_delete_stats b before_seq match_ bound_head now).1 =
    (reclaim_front (prefix_floored b1 before_seq match_ bound) (b_head_seq b0)).1.
Proof.
  unfold apply_delete_stats, prefix_floored, marked.
  destruct (enforce_retention b now) as [b0 ra]. simpl.
  destruct (mark_all _ _ _ _) as [[ix freed] deleted]. simpl.
  destruct match_, before_seq; simpl; by destruct (reclaim_front _ _).
Qed.

Lemma prefix_floored_fields b before_seq match_ bound :
  topic_wf b → 0 <= bound <= b_head_seq b + 1 →
  let b' := prefix_floored b before_seq match_ bound in
  topic_wf b' ∧ b_head_seq b' = b_head_seq b ∧
  base_seq (b_index b') = base_seq (b_index b) ∧ records (b_index b') = records (b_index b) ∧
  floors_max (b_floors b') <= Z.max (floors_max (b_floors b)) (bound - 1) ∧
  floors_max (b_floors b) <= floors_max (b_floors b') ∧
  (floors_max (b_floors b') = floors_max (b_floors b) ∨ match_ = None ∧ is_Some before_seq).
Proof.
  intros Hwf Hbound. unfold prefix_floored.
  set (ix := match match_, before_seq with
             | None, Some _ => raise_delete_below (b_index b) bound | _, _ => b_index b end).
  pose proof (tw_head_hi _ Hwf) as Hhi. pose proof (tw_index _ Hwf) as Hi.
  assert (Hix : base_seq ix = base_seq (b_index b) ∧ records ix = records (b_index b) ∧
    index_wf ix ∧ (delete_below ix = delete_below (b_index b) ∨
      (match_ = None ∧ is_Some before_seq) ∧ delete_below ix = bound)).
  { unfold ix. destruct match_, before_seq; simpl; try by eauto 10.
    split_and!; try done; [destruct Hi; split; simpl; try done|];
      destruct (delete_below (b_index b) <? bound); eauto. split; lia. }
  destruct Hix as (Hb & Hr & Hiwf & Hdb).
  set (f := raise_delete_floor (b_floors b) (delete_below ix)).
  pose proof (wf_delete_below _ Hiwf) as [? ?]. pose proof (tw_delete _ Hwf) as Htd.
  destruct (tw_floors _ Hwf) as ([? ?] & [? ?] & [? ?] & [? ?]).
  assert (Hf : delete_floor f = Z.max (delete_floor (b_floors b)) (delete_below ix - 1)).
  { unfold f, raise_delete_floor. simpl. destruct (Z.ltb_spec 0 (delete_below ix)); simpl; [|lia].
    rewrite sat_sub_exact by lia.
    destruct (Z.ltb_spec (delete_floor (b_floors b)) (delete_below ix - 1)); lia. }
  assert (He : evict_floor f = evict_floor (b_floors b) ∧ expiry_floor f = expiry_floor (b_floors b)
    ∧ source_trim_floor f = source_trim_floor (b_floors b)) by done.
  clearbody f ix. simpl. unfold floors_max. split_and!; try done; try lia.
  - destruct Hwf as [_ Hsb Hlo _ Hlv Hby Hto _ _].
    split; simpl; unfold published, tail_seq in *; simpl; rewrite ?Hb, ?Hr; try done; try lia.
    unfold floors_u64, is_u64. lia.
  - destruct Hdb as [?|[[??] ?]]; [left|right; done]. lia.
Qed.

(** Raising the delete floor past seqs that are all gone changes nothing a
    reader sees. *)
Lemma prefix_floored_view b before_seq match_ bound s :
  topic_wf b → 0 <= bound <= b_head_seq b + 1 →
  (match_ = None → is_Some before_seq → s < bound → view b s = None) →
  view (prefix_floored b before_seq match_ bound) s = view b s.
Proof.
  intros Hwf Hbound Hgone.
  pose proof (prefix_floored_fields b before_seq match_ bound Hwf Hbound) as Hpf.
  cbv zeta in Hpf. set (b' := prefix_floored _ _ _ _) in *. clearbody b'.
  destruct Hpf as (Hwf' & Hh & Hb & Hr & Hle & Hge & Hc).
  destruct (decide (s <= b_head_seq b)) as [Hs|]; [|by rewrite !view_head by lia].
  pose proof (earliest_seq_le _ s Hwf' ltac:(lia)) as He'.
  pose proof (earliest_seq_le _ s Hwf ltac:(lia)) as He. rewrite Hb in He'.
  assert (Hg : get (b_index b') s = get (b_index b) s) by (unfold get; by rewrite Hb, Hr).
  apply option_eq. intros r. rewrite !view_Some, Hg, Hh.
  destruct Hc as [Hc|[Hm Hbs]]; [rewrite Hc in He'; naive_solver lia|].
  split; [naive_solver lia|]. intros (Hrange & Hgr & Hd).
  assert (¬ s < bound).
  { intros Hlt. specialize (Hgone Hm Hbs Hlt).
    assert (view b s = Some r) by (apply view_Some; tauto). congruence. }
  split_and!; try done; lia.
Qed.

(** ** Mutations of a settled topic *)

Lemma marked_settled b seqs : settled b → settled (marked b seqs).
Proof.
  intros [Hwf Ht Hf]. destruct (marked_fields b seqs Hwf) as (Hh & Hfl & _ & Htl & _).
  split; [apply marked_wf; [done|lia]|by rewrite Htl, Hh|by rewrite Hfl, Hh].
Qed.

Lemma reclaim_settled b : settled b → settled (reclaim_front b (b_head_seq b)).1.
Proof.
  intros [Hwf Ht Hf]. destruct (reclaim_front_fields b (b_head_seq b)) as (Hh & Hfl & _).
  split; [by apply reclaim_front_wf|by rewrite reclaim_front_tail, Hh|by rewrite Hfl, Hh].
Qed.

Lemma delete_seqs_eq b seqs :
  (delete_seqs_stats b seqs).1 = (reclaim_front (marked b seqs) (b_head_seq b)).1.
Proof.
  unfold delete_seqs_stats, marked. destruct (mark_all _ _ _ _) as [[ix freed] deleted].
  by destruct (reclaim_front _ _).
Qed.

(** An explicit delete removes the listed seqs and nothing else. *)
Lemma delete_seqs_spec b seqs :
  settled b →
  settled (delete_seqs_stats b seqs).1 ∧
  b_head_seq (delete_seqs_stats b seqs).1 = b_head_seq b ∧
  ∀ s, view (delete_seqs_stats b seqs).1 s = if decide (s ∈ seqs) then None else view b s.
Proof.
  intros Hst. pose proof (st_wf _ Hst) as Hwf. pose proof (st_tail _ Hst) as Ht.
  rewrite delete_seqs_eq. pose proof (marked_settled b seqs Hst) as Hm.
  destruct (marked_fields b seqs Hwf) as (Hh & _). rewrite <-Hh.
  split_and!; [by apply reclaim_settled| |].
  - by destruct (reclaim_front_fields (marked b seqs) (b_head_seq (marked b seqs))) as (-> & _).
  - intros s. rewrite reclaim_front_view by apply Hm. apply marked_view; [done|lia].
Qed.

Definition u64_opt (o : option Z) : Prop := match o with Some x => 0 <= x | None => True end.

Lemma delete_bound_range b before_seq bound_head :
  topic_wf b → u64_opt before_seq → u64_opt bound_head →
  (∀ x, bound_head = Some x → x <= b_head_seq b + 1) →
  0 <= delete_bound b before_seq bound_head <= b_head_seq b + 1.
Proof.
  intros Hwf Hb Hp Hx. pose proof (tw_head_hi _ Hwf). pose proof (tw_head_lo _ Hwf).
  pose proof (tw_seq_base _ Hwf). unfold delete_bound.
  destruct bound_head as [p|]; [specialize (Hx p eq_refl)|]; destruct before_seq; simpl in *; sat_lia.
Qed.

Lemma enforce_retention_settled b now : settled b → settled (enforce_retention b now).1.
Proof.
  intros Hst. destruct (enforce_retention_cases b now (st_wf _ Hst)) as [->| ->]; [done|].
  by apply retained_settled.
Qed.

Lemma enforce_retention_head b now :
  topic_wf b → b_head_seq (enforce_retention b now).1 = b_head_seq b.
Proof.
  intros Hwf. destruct (enforce_retention_cases b now Hwf) as [->| ->]; [done|].
  apply retained_fields.
Qed.

(** Retention keeps every visible record at or above the new earliest seq. *)
Lemma enforce_retention_view b now s :
  topic_wf b →
  view (enforce_retention b now).1 s =
    if earliest_seq (enforce_retention b now).1 <=? s then view b s else None.
Proof.
  intros Hwf. destruct (enforce_retention_cases b now Hwf) as [->| ->]; [|by apply retained_view].
  unfold view. by destruct (earliest_seq b <=? s).
Qed.

(** A filtered or prefix delete removes, from what retention left, exactly the
    records it selects. *)
Lemma apply_delete_spec b before_seq match_ bound_head now :
  settled b → u64_opt before_seq → u64_opt bound_head →
  (∀ x, bound_head = Some x → x <= b_head_seq b + 1) →
  let b0 := (enforce_retention b now).1 in
  let b' := (apply_delete_stats b before_seq match_ bound_head now).1 in
  settled b' ∧ b_head_seq b' = b_head_seq b ∧
  ∀ s, view b' s =
    match view b0 s with
    | Some r => if del_selects match_ (delete_bound b before_seq bound_head) s r
                then None else Some r
    | None => None
    end.
Proof.
  intros Hst Hbs Hbh Hx. rewrite apply_delete_eq.
  pose proof (enforce_retention_settled b now Hst) as Hst0.
  pose proof (enforce_retention_head b now (st_wf _ Hst)) as Hh0.
  assert (Hbd : delete_bound (enforce_retention b now).1 before_seq bound_head
                = delete_bound b before_seq bound_head) by (unfold delete_bound; by rewrite Hh0).
  rewrite Hbd. pose proof (delete_bound_range b _ _ (st_wf _ Hst) Hbs Hbh Hx) as Hbound.
  rewrite <-Hh0 in *. set (b0 := (enforce_retention b now).1) in *. clearbody b0.
  set (bound := delete_bound b _ _) in *. clearbody bound. clear Hbd Hx Hst.
  set (vs := delete_victims b0 match_ bound). set (b1 := marked b0 vs).
  assert (Hst1 : settled b1) by (by apply marked_settled).
  destruct (marked_fields b0 vs (st_wf _ Hst0)) as (Hh1 & Hf1 & _). fold b1 in Hh1, Hf1.
  assert (Hv1 : ∀ s, view b1 s = match view b0 s with
    | Some r => if del_selects match_ bound s r then None else Some r | None => None end).
  { intros s. unfold b1. pose proof (st_tail _ Hst0).
    rewrite marked_view by (apply Hst0 || lia).
    destruct (view b0 s) as [r|] eqn:Hr; [|by destruct (decide _)].
    pose proof (delete_victims_selected b0 match_ bound s r (st_wf _ Hst0) Hr) as Hsel. fold vs in Hsel.
    destruct (decide (s ∈ vs)), (del_selects match_ bound s r); naive_solver. }
  rewrite <-Hh1 in *. clearbody b1.
  pose proof (prefix_floored_fields b1 before_seq match_ bound (st_wf _ Hst1) Hbound) as Hpf.
  cbv zeta in Hpf. destruct Hpf as (Hwf2 & Hh2 & Hb2 & Hr2 & Hle2 & _).
  assert (Hst2 : settled (prefix_floored b1 before_seq match_ bound)).
  { destruct Hst1 as [_ Ht1 Hfl1]. split; [done| |lia]. unfold tail_seq in *. by rewrite Hb2, Hr2, Hh2. }
  rewrite <-Hh2. split_and!; [by apply reclaim_settled| |].
  - by destruct (reclaim_front_fields (prefix_floored b1 before_seq match_ bound)
      (b_head_seq (prefix_floored b1 before_seq match_ bound))) as (-> & _).
  - intros s. rewrite reclaim_front_view by done. rewrite prefix_floored_view; [done|apply Hst1|done|].
    intros -> _ Hs. rewrite Hv1. destruct (view b0 s) as [r|]; [|done].
    unfold del_selects. by rewrite (proj2 (Z.ltb_lt _ _)) by lia.
Qed.

(** *** Holes *)
Lemma pad_holes_fields ix reserved :
  index_wf ix → tail_seq ix <= reserved + 1 →
  index_wf (pad_holes ix reserved) ∧ tail_seq (pad_holes ix reserved) = reserved + 1 ∧
  live_slots (records (pad_holes ix reserved)) = live_slots (records ix) ∧
  total_bytes (records (pad_holes ix reserved)) = total_bytes (records ix).
Proof.
  intros [Hb Hs Ht Hd] Hle. unfold pad_holes, tail_seq in *.
  set (n := Z.to_nat (reserved + 1 - (base_seq ix + Z.of_nat (length (records ix))))).
  assert (Hok : Forall slot_ok (replicate n (deleted_hole (V := V)))).
  { apply Forall_replicate, deleted_hole_ok. }
  destruct (dead_slots_zero (replicate n deleted_hole) Hok) as [Hl0 Hb0];
    [by apply Forall_replicate|].
  split_and!; simpl.
  - split; simpl; try done; [by apply Forall_app|].
    eapply tags_ok_keep; [done|]. intros t s'. split.
    + intros (i & r & [Hi|[? Hi]]%lookup_app_Some & ? & Htag); [by eauto 10|].
      apply lookup_replicate in Hi as [-> _]. done.
    + intros (i & r & Hi & ? & Htag). exists i, r. by rewrite lookup_app_l by (by eapply lookup_lt_Some).
  - rewrite length_app, length_replicate. lia.
  - rewrite live_slots_app, Hl0. lia.
  - rewrite total_bytes_app, Hb0. lia.
Qed.

Lemma pad_holes_get ix reserved s :
  get (pad_holes ix reserved) s =
    match get ix s with
    | Some r => Some r
    | None => if (tail_seq ix <=? s) && (s <=? reserved) && (base_seq ix <=? s)
              then Some deleted_hole else None
    end.
Proof.
  unfold get, pad_holes, tail_seq. simpl. destruct (Z.ltb_spec s (base_seq ix)).
  { by rewrite (proj2 (Z.leb_gt (base_seq ix) s)), andb_false_r by lia. }
  destruct (records ix !! Z.to_nat (s - base_seq ix)) as [r|] eqn:Hr.
  - by rewrite lookup_app_l by (by eapply lookup_lt_Some).
  - apply lookup_ge_None in Hr. rewrite lookup_app_r by done.
    destruct (_ && _ && _) eqn:Hc.
    + rewrite !andb_true_iff, !Z.leb_le in Hc. apply lookup_replicate_2. lia.
    + apply lookup_ge_None. rewrite length_replicate.
      rewrite !andb_false_iff, !Z.leb_gt in Hc. lia.
Qed.

(** The topic padded with holes up to [reserved]. *)
Definition padded b (reserved : Z) : TopicState V :=
  with_head (with_index b (pad_holes (b_index b) reserved)) reserved.

Lemma padded_settled b reserved :
  settled b → b_head_seq b <= reserved < u64_max → settled (padded b reserved).
Proof.
  intros [Hwf Ht Hf] Hr.
  destruct (pad_holes_fields (b_index b) reserved (tw_index _ Hwf) ltac:(lia)) as (Hix & Htl & Hl & Hby).
  destruct Hwf as [Hi Hsb Hlo Hhi Hlv Hbt Hto Hfl Hdl]. unfold published in *.
  rewrite take_ge in Hlv by (unfold tail_seq in Ht; lia).
  rewrite take_ge in Hbt by (unfold tail_seq in Ht; lia).
  assert (Hbase : base_seq (pad_holes (b_index b) reserved) = base_seq (b_index b)) by done.
  assert (Hdb : delete_below (pad_holes (b_index b) reserved) = delete_below (b_index b)) by done.
  unfold padded. set (ix := pad_holes (b_index b) reserved) in *. clearbody ix.
  split; [split|..]; unfold published; simpl; rewrite ?Hbase, ?Hdb; try done; try lia.
  - rewrite take_ge by (unfold tail_seq in *; lia). lia.
  - rewrite take_ge by (unfold tail_seq in *; lia). lia.
Qed.

Lemma padded_view b reserved s :
  settled b → b_head_seq b <= reserved < u64_max → view (padded b reserved) s = view b s.
Proof.
  intros Hst Hr. pose proof (st_wf _ (padded_settled b reserved Hst Hr)) as Hwf'.
  destruct Hst as [Hwf Ht Hf]. apply option_eq. intros r. rewrite !view_Some.
  simpl b_index. rewrite pad_holes_get. simpl b_head_seq.
  destruct (decide (s <= b_head_seq b)) as [Hs|Hs].
  - pose proof (earliest_seq_le b s Hwf Hs) as He.
    pose proof (earliest_seq_le _ s Hwf' ltac:(simpl; lia)) as He'. simpl in He'.
    rewrite (proj2 (Z.leb_gt (tail_seq (b_index b)) s)) by lia. simpl.
    destruct (get (b_index b) s); naive_solver lia.
  - split; [|lia]. intros (_ & Hg & Hd).
    destruct (get (b_index b) s) as [r'|] eqn:Hg'.
    + pose proof (proj1 (get_is_Some (b_index b) s) ltac:(eauto)). lia.
    + destruct (_ && _ && _); [|done]. by injection Hg as <-.
Qed.

(** Restoring a head reservation never regresses the head, keeps every record
    and puts the next seq past the reservation. *)
Lemma restore_head_spec b reserved :
  settled b → reserved < u64_max →
  let b' := restore_head_watermark b reserved in
  settled b' ∧ b_head_seq b' = Z.max (b_head_seq b) reserved ∧
  ∀ s, view b' s = view b s.
Proof.
  intros Hst Hr. unfold restore_head_watermark. simpl.
  assert (Hst1 : settled (set_reserved_head b reserved)).
  { destruct Hst as [[] Ht Hf]. by split; [split|..]. }
  destruct (Z.leb_spec reserved (b_head_seq b)) as [Hle|Hgt].
  { split_and!; [done|simpl; lia|done]. }
  change (with_head _ _) with (padded (set_reserved_head b reserved) reserved).
  split_and!; [apply padded_settled; [done|simpl; lia]|simpl; lia|].
  intros s. rewrite padded_view; [done|done|simpl; lia].
Qed.

(** A source-trim hole takes the next seq, and the floor raised to it hides
    everything before it. *)
Lemma source_trim_spec b :
  settled b → b_head_seq b + 1 < u64_max →
  settled (note_source_trim b) ∧ b_head_seq (note_source_trim b) = b_head_seq b + 1 ∧
  source_trim_floor (b_floors (note_source_trim b)) = b_head_seq b + 1 ∧
  ∀ s, view (note_source_trim b) s = None.
Proof.
  intros Hst Hu. pose proof Hst as [Hwf Ht Hf].
  assert (Hpad : push_record (b_index b) deleted_hole = pad_holes (b_index b) (b_head_seq b + 1)).
  { unfold pad_holes, push_record. simpl. rewrite Ht.
    by replace (Z.to_nat (b_head_seq b + 1 + 1 - (b_head_seq b + 1))) with 1%nat by lia. }
  set (f := raise_source_trim (b_floors b) (b_head_seq b + 1)).
  assert (Heq : note_source_trim b = with_floors (padded b (b_head_seq b + 1)) f).
  { unfold note_source_trim. simpl. rewrite Hpad, Ht. done. }
  pose proof (padded_settled b (b_head_seq b + 1) Hst ltac:(lia)) as [Hwfp Htp _].
  destruct (tw_floors _ Hwf) as (? & ? & ? & ?).
  pose proof (tw_head_lo _ Hwf). pose proof (tw_seq_base _ Hwf).
  assert (Htf : source_trim_floor f = b_head_seq b + 1).
  { unfold f, raise_source_trim. simpl. unfold floors_max in Hf. destruct (Z.ltb_spec (source_trim_floor (b_floors b)) (b_head_seq b + 1)); lia. }
  assert (Hwf' : topic_wf (with_floors (padded b (b_head_seq b + 1)) f)).
  { apply with_floors_wf; [done| |done]. unfold floors_u64. rewrite Htf. unfold is_u64. simpl. sat_lia. }
  rewrite Heq. split_and!; simpl; try done.
  - split; [done..|]. unfold floors_max in *. simpl in *. rewrite Htf. lia.
  - intros s. destruct (decide (s <= b_head_seq b + 1)) as [Hs|]; [|apply view_head; simpl; lia].
    destruct (view _ s) as [r|] eqn:Hv; [|done]. apply view_Some in Hv as ((He & _) & _).
    apply earliest_seq_le in He; [|done|simpl; lia]. simpl in He. unfold floors_max in He. lia.
Qed.

(** ** The abstract log *)

(** What a topic promises its readers: a head and a partial map from seqs to
    records. *)
Record ALog := mkALog {
  al_head : Z;
  al_at : Z → option (StoredRecord V)
}.

Definition alog_of b : ALog := mkALog (b_head_seq b) (view b).

(** The mutations of a topic outside the staged window. *)
Inductive TopicOp :=
  | OpAppend (recs : list (StoredRecord V)) (now : Z)
  | OpRetention (now : Z)
  | OpDelete (before_seq : option Z) (match_ : option Filter) (bound_head : option Z) (now : Z)
  | OpDeleteSeqs (seqs : list Z)
  | OpSourceTrim
  | OpRestoreHead (reserved : Z).

Definition exec_op (op : TopicOp) b : TopicState V :=
  match op with
  | OpAppend recs now => (append b recs now).1
  | OpRetention now => (enforce_retention b now).1
  | OpDelete before_seq match_ bound_head now =>
      (apply_delete_stats b before_seq match_ bound_head now).1
  | OpDeleteSeqs seqs => (delete_seqs_stats b seqs).1
  | OpSourceTrim => note_source_trim b
  | OpRestoreHead reserved => restore_head_watermark b reserved
  end.

(** The arguments stay within the u64 seq space; a replayed delete bound is a
    head the topic had. *)
Definition op_ok (op : TopicOp) b : Prop :=
  match op with
  | OpAppend recs _ => appendable b recs
  | OpRetention _ | OpDeleteSeqs _ => True
  | OpDelete before_seq _ bound_head _ =>
      u64_opt before_seq ∧ u64_opt bound_head ∧
      ∀ x, bound_head = Some x → x <= b_head_seq b + 1
  | OpSourceTrim => b_head_seq b + 1 < u64_max
  | OpRestoreHead reserved => reserved < u64_max
  end.

(** The abstract log's transitions. *)
Inductive astep : TopicOp → ALog → ALog → Prop :=
  | astep_append recs now l l' :
      al_head l' = al_head l + Z.of_nat (length recs) →
      (∀ s, al_at l' s = if s <=? al_head l then al_at l s
                         else recs !! Z.to_nat (s - (al_head l + 1))) →
      astep (OpAppend recs now) l l'
  | astep_retention now l l' e :
      al_head l' = al_head l →
      (∀ s, al_at l' s = if e <=? s then al_at l s else None) →
      astep (OpRetention now) l l'
  | astep_delete before_seq match_ bound_head now l l' e bound :
      bound = (let pit := default (al_head l +s 1) bound_head in
               match before_seq with Some s => Z.min s pit | None => pit end) →
      al_head l' = al_head l →
      (∀ s, al_at l' s =
         if e <=? s
         then match al_at l s with
              | Some r => if del_selects match_ bound s r then None else Some r
              | None => None
              end
         else None) →
      astep (OpDelete before_seq match_ bound_head now) l l'
  | astep_delete_seqs seqs l l' :
      al_head l' = al_head l →
      (∀ s, al_at l' s = if decide (s ∈ seqs) then None else al_at l s) →
      astep (OpDeleteSeqs seqs) l l'
  | astep_source_trim l l' :
      al_head l' = al_head l + 1 → (∀ s, al_at l' s = None) →
      astep OpSourceTrim l l'
  | astep_restore_head reserved l l' :
      al_head l' = Z.max (al_head l) reserved → (∀ s, al_at l' s = al_at l s) →
      astep (OpRestoreHead reserved) l l'.

(** Running a sequence of operations, each within its bounds. *)
Fixpoint run_ops (ops : list TopicOp) b : TopicState V :=
  match ops with
  | [] => b
  | op :: ops => run_ops ops (exec_op op b)
  end.

Fixpoint ops_ok (ops : list TopicOp) b : Prop :=
  match ops with
  | [] => True
  | op :: ops => op_ok op b ∧ ops_ok ops (exec_op op b)
  end.

Lemma append_nil b now : append b [] now = (b, []).
Proof. done. Qed.

Lemma exec_op_refines op b :
  settled b → op_ok op b →
  settled (exec_op op b) ∧ astep op (alog_of b) (alog_of (exec_op op b)).
Proof.
  intros Hst Hok. pose proof (st_wf _ Hst) as Hwf.
  destruct op as [recs now|now|bs m bh now|seqs| |reserved]; simpl in *.
  - destruct (decide (recs = [])) as [->|Hne].
    { split; [done|]. apply astep_append; simpl; [lia|]. intros s.
      destruct (Z.leb_spec s (b_head_seq b)); [done|]. rewrite view_head by lia.
      by rewrite lookup_nil. }
    rewrite append_eq by done. split; [by apply appended_settled|].
    apply astep_append; simpl; [rewrite (st_tail _ Hst); lia|]. intros s. by apply appended_view.
  - split; [by apply enforce_retention_settled|].
    eapply astep_retention; simpl; [by apply enforce_retention_head|].
    intros s. by apply enforce_retention_view.
  - destruct Hok as (H1 & H2 & H3).
    destruct (apply_delete_spec b bs m bh now Hst H1 H2 H3) as (Hs & Hh & Hv).
    split; [done|]. apply (astep_delete bs m bh now _ _ (earliest_seq (enforce_retention b now).1)
      (delete_bound b bs bh)); simpl; [done|done|]. intros s. rewrite Hv.
    rewrite (enforce_retention_view b now s) by done. by destruct (_ <=? s).
  - destruct (delete_seqs_spec b seqs Hst) as (Hs & Hh & Hv). split; [done|]. by apply astep_delete_seqs.
  - destruct (source_trim_spec b Hst Hok) as (Hs & Hh & _ & Hv). split; [done|]. by apply astep_source_trim.
  - destruct (restore_head_spec b reserved Hst Hok) as (Hs & Hh & Hv). split; [done|]. by apply astep_restore_head.
Qed.

Lemma astep_monotone op l l' s :
  astep op l l' → al_head l <= al_head l' ∧
    (s <= al_head l → al_at l' s = al_at l s ∨ al_at l' s = None).
Proof.
  destruct 1 as [recs now l l' Hh Hv|now l l' e Hh Hv|bs m bh now l l' e bound _ Hh Hv
                |seqs l l' Hh Hv|l l' Hh Hv|reserved l l' Hh Hv];
    (split; [lia|]); intros Hs; rewrite Hv.
  - rewrite (proj2 (Z.leb_le _ _)) by done. by left.
  - destruct (e <=? s); auto.
  - destruct (e <=? s), (al_at l s); auto. destruct (del_selects _ _ _ _); auto.
  - destruct (decide _); auto.
  - by right.
  - by left.
Qed.

Lemma run_ops_settled ops b : settled b → ops_ok ops b → settled (run_ops ops b).
Proof.
  revert b. induction ops as [|op ops IH]; intros b Hst; simpl; [done|].
  intros [Ho Hok]. apply IH; [|done]. by apply exec_op_refines.
Qed.

Lemma run_ops_monotone ops b s :
  settled b → ops_ok ops b →
  b_head_seq b <= b_head_seq (run_ops ops b) ∧
  (s <= b_head_seq b → view (run_ops ops b) s = view b s ∨ view (run_ops ops b) s = None).
Proof.
  revert b. induction ops as [|op ops IH]; intros b Hst; simpl; [split; [lia|auto]|].
  intros [Ho Hok]. destruct (exec_op_refines op b Hst Ho) as [Hst' Ha].
  destruct (astep_monotone _ _ _ s Ha) as [Hh Hv]. simpl in Hh, Hv.
  destruct (IH _ Hst' Hok) as [IHh IHv]. split; [lia|]. intros Hs.
  destruct (Hv Hs) as [Hv'|Hv'], (IHv ltac:(lia)) as [IH'|IH']; rewrite IH', ?Hv'; auto.
Qed.

Lemma topic_new_settled name id config seq_base epoch :
  1 <= seq_base <= u64_max → settled (topic_new name id config seq_base epoch).
Proof.
  intros Hb. unfold topic_new. split; [split|..]; unfold tail_seq, published; simpl;
    rewrite ?sat_sub_exact by lia; rewrite ?take_nil; try done; try lia.
  - apply index_new_wf. lia.
  - unfold floors_max; simpl. lia.
Qed.

(** ** What retention achieves *)
Lemma live_slots_le recs : live_slots recs <= Z.of_nat (length recs).
Proof. unfold live_slots. pose proof (length_filter (λ r : StoredRecord V, r_deleted r = false) recs). lia. Qed.

Lemma retained_base b now e :
  topic_wf b → e <= plan_cap_records b → e <= b_head_seq b →
  e + 1 <= base_seq (b_index (retained b now)).
Proof.
  intros Hwf He Hlt. set (f := commit_floors (b_floors b) (plan_retention b now)).
  assert (Hwf1 : topic_wf (with_floors b f)).
  { apply with_floors_wf; [done|by apply plan_retention_floors|done]. }
  pose proof (plan_cap_records_bounds b Hwf).
  pose proof (plan_cap_bytes_bounds b (plan_cap_records b) (plan_ttl b now) Hwf ltac:(split; lia)).
  pose proof (front_drop_floor (with_floors b f) e Hwf1) as Hd. simpl in Hd.
  specialize (Hd ltac:(lia) ltac:(lia)).
  pose proof (tw_head_hi _ Hwf). unfold tail_seq in *. unfold retained. fold f.
  change (b_head_seq b) with (b_head_seq (with_floors b f)).
  rewrite (reclaim_front_state (with_floors b f)) by done. simpl.
  destruct (drain_front_records (b_index b)
    (front_drop (with_floors b f) (b_head_seq b))) as (_ & -> & _). lia.
Qed.

Lemma retained_records_cap b now :
  topic_wf b → 0 < cfg_cap_records (b_config b) →
  b_live_count (retained b now) <= cfg_cap_records (b_config b).
Proof.
  intros Hwf Hc. rewrite (tw_live _ (retained_wf b now Hwf)).
  pose proof (live_slots_le (published (retained b now))) as Hl.
  unfold published in Hl at 2. rewrite length_take in Hl.
  destruct (retained_fields b now) as (Hh & _). rewrite Hh in Hl.
  pose proof (tw_seq_base _ (retained_wf b now Hwf)).
  assert (b_head_seq b + 1 - base_seq (b_index (retained b now)) <= cfg_cap_records (b_config b));
    [|lia].
  destruct (decide (cfg_cap_records (b_config b) < b_head_seq b)); [|lia].
  assert (Hp : b_head_seq b - cfg_cap_records (b_config b) <= plan_cap_records b).
  { unfold plan_cap_records. rewrite !(proj2 (Z.ltb_lt _ _)) by lia. simpl. lia. }
  pose proof (retained_base b now (b_head_seq b - cfg_cap_records (b_config b)) Hwf Hp ltac:(lia)). lia.
Qed.

(** With timestamps that never go back, the TTL scan leaves no expired slot. *)
Definition ts_nondecreasing recs : Prop :=
  ∀ i j r r', (i <= j)%nat → recs !! i = Some r → recs !! j = Some r' → r_ts r <= r_ts r'.

Lemma plan_ttl_complete b now s r :
  topic_wf b → ts_nondecreasing (records (b_index b)) →
  0 < cfg_ttl_ms (b_config b) <= i64_max →
  get (b_index b) s = Some r → cfg_ttl_ms (b_config b) < i64_sat_sub now (r_ts r) →
  s <= plan_ttl b now.
Proof.
  intros Hwf Hts Httl (i & Hi & ->)%get_slot Hexp. unfold plan_ttl.
  rewrite (proj2 (Z.ltb_lt 0 _)) by lia.
  replace (as_i64 (cfg_ttl_ms (b_config b))) with (cfg_ttl_ms (b_config b))
    by (unfold as_i64; by rewrite (proj2 (Z.leb_le _ _)) by lia).
  etrans; [|apply Z.le_max_r]. apply (ttl_scan_complete _ _ _ _ _ i r); [done|done|].
  intros j r' Hj Hr'. specialize (Hts j i r' r ltac:(lia) Hr' Hi). unfold i64_sat_sub in *. lia.
Qed.

(** ** Properties *)

(** C5. Every mutation of a settled topic (append, retention, filtered or prefix
    delete, explicit delete, source-trim hole, head restore) keeps the topic
    invariant and implements its abstract transition: appends extend the log at
    the head, retention drops a prefix, deletes drop exactly what they select. *)
Theorem topic_refines_log op b :
  settled b → op_ok op b →
  settled (exec_op op b) ∧ astep op (alog_of b) (alog_of (exec_op op b)).
Proof. apply exec_op_refines. Qed.

(** C18. Over any sequence of operations on a new topic the invariant holds, the
    head never decreases, and a seq that was handed out is never given another
    record: it reads as the same record or as nothing. *)
Theorem topic_append_only name id config seq_base epoch ops1 ops2 :
  1 <= seq_base <= u64_max →
  ops_ok (ops1 ++ ops2) (topic_new name id config seq_base epoch) →
  let b1 := run_ops ops1 (topic_new name id config seq_base epoch) in
  let b2 := run_ops ops2 b1 in
  settled b1 ∧ settled b2 ∧ b_head_seq b1 <= b_head_seq b2 ∧
  ∀ s, s <= b_head_seq b1 → view b2 s = view b1 s ∨ view b2 s = None.
Proof.
  intros Hb. pose proof (topic_new_settled name id config seq_base epoch Hb) as Hst.
  revert Hst. generalize (topic_new (V := V) name id config seq_base epoch).
  induction ops1 as [|op ops1 IH]; intros b Hst; simpl.
  - intros Hok. split_and!; [done|by apply run_ops_settled|..].
    + by apply (run_ops_monotone ops2 b 0).
    + intros s. by apply run_ops_monotone.
  - intros [Ho Hok]. apply IH; [|done]. by apply exec_op_refines.
Qed.

(** Appending to a settled topic hands out the next contiguous seqs and puts
    the batch there in order, leaving every earlier record as it was. *)
Theorem append_contiguous b recs now :
  settled b → recs ≠ [] → appendable b recs →
  let '(b', seqs) := append b recs now in
  seqs = seqZ (b_head_seq b + 1) (Z.of_nat (length recs)) ∧
  b_head_seq b' = b_head_seq b + Z.of_nat (length recs) ∧
  (∀ i r, recs !! i = Some r → ∃ s, seqs !! i = Some s ∧ view b' s = Some r) ∧
  (∀ s, s <= b_head_seq b → view b' s = view b s).
Proof.
  intros Hst Hne Happ. rewrite append_eq by (done || apply Hst). rewrite (st_tail _ Hst).
  split_and!; [done|simpl; rewrite (st_tail _ Hst); lia|..].
  - intros i r Hi. exists (b_head_seq b + 1 + Z.of_nat i). pose proof (lookup_lt_Some _ _ _ Hi).
    split; [apply lookup_seqZ; lia|]. rewrite appended_view by done.
    rewrite (proj2 (Z.leb_gt _ _)) by lia. rewrite <-Hi. f_equal. lia.
  - intros s Hs. rewrite appended_view by done. by rewrite (proj2 (Z.leb_le _ _)).
Qed.

(** C39. A retention pass on a non-empty topic leaves at most [cap_records] live
    records and [cap_bytes] retained bytes, for the caps that are set. *)
Theorem retention_meets_caps b now :
  topic_wf b → b_head_seq b ≠ 0 →
  let b' := (enforce_retention b now).1 in
  (0 < cfg_cap_records (b_config b) → b_live_count b' <= cfg_cap_records (b_config b)) ∧
  (0 < cfg_cap_bytes (b_config b) → b_bytes_retained b' <= cfg_cap_bytes (b_config b)).
Proof.
  intros Hwf Hh. split; intros Hc; rewrite enforce_retention_state by (done || lia).
  - by apply retained_records_cap.
  - by apply retained_bytes_cap.
Qed.

(** When record timestamps never go back, no record a reader can see after a
    retention pass is older than the TTL. *)
Theorem retention_expires b now s r :
  topic_wf b → b_head_seq b ≠ 0 → ts_nondecreasing (records (b_index b)) →
  0 < cfg_ttl_ms (b_config b) <= i64_max →
  view (enforce_retention b now).1 s = Some r →
  i64_sat_sub now (r_ts r) <= cfg_ttl_ms (b_config b).
Proof.
  intros Hwf Hh Hts Httl. rewrite enforce_retention_state by (done || lia).
  rewrite retained_view by done. destruct (Z.leb_spec (earliest_seq (retained b now)) s) as [He|];
    [|done].
  intros ((_ & Hs) & Hg & _)%view_Some. destruct (retained_earliest b now s Hwf ltac:(done)) as [Ht _].
  destruct (decide (i64_sat_sub now (r_ts r) <= cfg_ttl_ms (b_config b))); [done|].
  pose proof (plan_ttl_complete b now s r Hwf Hts Httl Hg ltac:(lia)). lia.
Qed.

(** With only a byte cap configured, retention never evicts more than it has
    to: had it kept the last record it evicted, the topic would still exceed
    [cap_bytes]. *)
Theorem retention_bytes_minimal b now s r :
  settled b → cfg_ttl_ms (b_config b) = 0 → cfg_cap_records (b_config b) = 0 →
  0 < cfg_cap_bytes (b_config b) → floors_max (b_floors b) < base_seq (b_index b) →
  view b s = Some r → view (enforce_retention b now).1 s = None →
  cfg_cap_bytes (b_config b) <
    total_bytes (drop (Z.to_nat (s - base_seq (b_index b))) (records (b_index b))).
Proof.
  intros Hst Httl Hcr Hcb Hfl Hv Hgone. pose proof (st_wf _ Hst) as Hwf.
  pose proof Hv as ((He & Hs) & Hg & Hd)%view_Some.
  apply earliest_seq_le in He as [_ Hbs]; [|done..].
  pose proof (tw_seq_base _ Hwf). pose proof (tw_head_hi _ Hwf). pose proof (tw_bytes _ Hwf) as Hby.
  rewrite enforce_retention_state, retained_view_floors in Hgone by (done || lia).
  assert (Hpt : plan_ttl b now = expiry_floor (b_floors b)) by (unfold plan_ttl; by rewrite Httl).
  assert (Hpr : plan_cap_records b = evict_floor (b_floors b)) by (unfold plan_cap_records; by rewrite Hcr).
  assert (Hsf : s <= plan_cap_bytes b (evict_floor (b_floors b)) (expiry_floor (b_floors b))).
  { destruct (decide (s <= plan_cap_bytes b (evict_floor (b_floors b)) (expiry_floor (b_floors b))))
      as [|Hn]; [done|]. exfalso.
    assert (Hv' : view (with_floors b (commit_floors (b_floors b) (plan_retention b now))) s = Some r);
      [|congruence].
    apply view_Some. split_and!; try done. apply earliest_seq_le; try done.
    - apply with_floors_wf; [done|by apply plan_retention_floors|done].
    - unfold plan_retention, commit_floors, floors_max in *. simpl. rewrite Hpt, Hpr. lia. }
  unfold floors_max in Hfl. unfold plan_cap_bytes in Hsf.
  rewrite (proj2 (Z.ltb_lt 0 _)) in Hsf by lia. simpl in Hsf.
  destruct (Z.ltb_spec (cfg_cap_bytes (b_config b)) (b_bytes_retained b)) as [Hover|]; [|lia].
  set (e := bytes_scan _ _ _ _ _) in Hsf. assert (Hse : s <= e) by lia.
  pose proof (bytes_scan_minimal _ _ (records (b_index b)) (b_bytes_retained b - cfg_cap_bytes (b_config b))
    (evict_floor (b_floors b)) (wf_slots _ (tw_index _ Hwf)) ltac:(lia)
    (ltac:(lia) : Z.max (evict_floor (b_floors b)) (expiry_floor (b_floors b)) < base_seq (b_index b))
    ltac:(lia)) as Hmin.
  cbv zeta in Hmin. fold e in Hmin. specialize (Hmin ltac:(lia)). unfold bytes_upto in Hmin.
  unfold published in Hby. pose proof (st_tail _ Hst) as Ht. unfold tail_seq in Ht.
  rewrite take_ge in Hby by lia.
  pose proof (total_bytes_take_mono (records (b_index b)) (Z.to_nat (s - base_seq (b_index b)))
    (Z.to_nat (e - 1 + 1 - base_seq (b_index b))) (wf_slots _ (tw_index _ Hwf)) ltac:(lia)).
  rewrite <-(take_drop (Z.to_nat (s - base_seq (b_index b))) (records (b_index b))),
    total_bytes_app in Hby. lia.
Qed.

(** Eviction is durable before it shows: a pass whose hardening fails leaves
    the topic untouched, and a pass that advances the TTL floor, or the evict
    floor past the record cap, has hardened the very floors it commits. *)
Theorem retention_hardened_first {E} b now (harden : RetentionAdvance → result E unit) :
  topic_wf b →
  let '(b', res) := enforce_retention_hardened b now harden in
  (∀ e, res = Err e → b' = b) ∧
  (expiry_floor (b_floors b) < expiry_floor (b_floors b') ∨
     plan_cap_records b < evict_floor (b_floors b') →
   harden (plan_retention b now) = Ok () ∧
   expiry_floor (b_floors b') = ra_expiry_floor (plan_retention b now) ∧
   evict_floor (b_floors b') = ra_evict_floor (plan_retention b now)).
Proof.
  intros Hwf. unfold enforce_retention_hardened.
  pose proof (plan_cap_records_bounds b Hwf) as [Hr1 Hr2]. pose proof (plan_ttl_bounds b now Hwf) as [Ht1 Ht2].
  pose proof (plan_cap_bytes_bounds b (plan_cap_records b) (plan_ttl b now) Hwf ltac:(split; lia)) as Hb1.
  destruct (b_head_seq b =? 0); [split; [done|lia]|]. destruct (_ && _ && _); [split; [done|lia]|].
  set (plan := plan_retention b now).
  destruct (if _ : bool then harden plan else Ok ()) as [[]|e] eqn:Hh; [|split; [done|lia]].
  destruct (ra_floor_advanced plan) eqn:Hadv.
  - pose proof (reclaim_front_fields (with_floors b (commit_floors (b_floors b) plan)) (b_head_seq b))
      as (_ & Hf & _).
    destruct (reclaim_front _ _) as [b2 freed]. split; [done|]. simpl in Hf. rewrite Hf. simpl.
    assert (Hx : ra_expiry_floor plan = plan_ttl b now) by done.
    assert (He : ra_evict_floor plan = plan_cap_bytes b (plan_cap_records b) (plan_ttl b now)) by done.
    intros Hd. split_and!; [|lia|lia].
    destruct (ra_durable_advance plan) eqn:Hg; [done|]. exfalso.
    unfold plan, plan_retention in Hg. simpl in Hg.
    rewrite !orb_false_iff, !Z.ltb_ge in Hg. lia.
  - pose proof (reclaim_front_fields b (b_head_seq b)) as (_ & Hf & _).
    destruct (reclaim_front _ _) as [b2 freed]. split; [done|]. simpl in Hf. rewrite Hf. lia.
Qed.

(** Staging a batch and rolling it back leaves the topic exactly as it was:
    slots, tag postings and counters. *)
Theorem stage_rollback_identity b recs :
  topic_wf b → Forall slot_ok recs →
  rollback_staged (stage_append b recs).1 (stage_append b recs).2 = b.
Proof. intros Hwf. apply rollback_stage, Hwf. Qed.

(** Recording a source-trim hole on a topic that already holds records hides
    every one of them: the floor jumps to the new hole, above all older seqs. *)
Theorem source_trim_hides_all b :
  settled b → b_head_seq b + 1 < u64_max → ∀ s, view (note_source_trim b) s = None.
Proof. intros Hst Hu. by apply source_trim_spec. Qed.
End topic_log.

(** ** Concrete topics *)

Module Samples.
#[export] Instance unit_null : JsonNull unit := tt.

Definition sample_rec (ts bytes : Z) (tag : option string) : StoredRecord unit :=
  mkRecord ts None tag tt None bytes false true 0.

Definition sample_config (ttl caprec capbytes : Z) : TopicConfig := {|
  cfg_type := Log; cfg_ttl_ms := ttl; cfg_cap_records := caprec; cfg_cap_bytes := capbytes;
  cfg_discard := Old; cfg_durable := false; cfg_durability := None;
  cfg_priority := None; cfg_auto_priority := true; cfg_auto_create := true;
  cfg_idempotency_window_ms := 120000; cfg_dedupe_node := true;
  cfg_lease_ms := 30000; cfg_claim_jitter_ms := 0; cfg_max_deliveries := 0;
  cfg_dead_letter := None; cfg_leases_durable := false |}.

(** [n] records of 10 bytes, one per millisecond. *)
Definition sample_batch (n : nat) : list (StoredRecord unit) :=
  (λ i, sample_rec (Z.of_nat i) 10 (Some (if Nat.even i then "even" else "odd")%string)) <$> seq 0 n.

Definition sample_new (ttl caprec capbytes : Z) : TopicState unit :=
  topic_new "orders" 7 (sample_config ttl caprec capbytes) 1 0.

Definition sample_topic (ttl caprec capbytes : Z) (n : nat) : TopicState unit :=
  (append (sample_new ttl caprec capbytes) (sample_batch n) 0).1.

Lemma sample_appendable ttl cr cb : appendable (sample_new ttl cr cb) (sample_batch 10).
Proof.
  split; [|by vm_compute]. repeat (apply Forall_cons; split; [by vm_compute|]). apply Forall_nil_2.
Qed.

Lemma sample_topic_settled ttl cr cb : settled (sample_topic ttl cr cb 10).
Proof.
  apply (exec_op_refines (OpAppend (sample_batch 10) 0)); [|apply sample_appendable].
  apply topic_new_settled. by vm_compute.
Qed.

Lemma topic_refines_log_witness :
  let b := sample_topic 0 0 0 10 in
  let op := OpDelete None (Some (mkFilter FilterOp.Eq "odd")) None 5 in
  settled (exec_op op b) ∧ astep op (alog_of b) (alog_of (exec_op op b)) ∧
  view (exec_op op b) 2 = None ∧ is_Some (view (exec_op op b) 3).
Proof.
  cbv zeta. destruct (topic_refines_log (OpDelete None (Some (mkFilter FilterOp.Eq "odd")) None 5)
    (sample_topic 0 0 0 10)) as [Hs Ha]; [apply sample_topic_settled|done|].
  split; [done|]. split; [done|]. split; [by vm_compute|]. eexists. by vm_compute.
Defined.

Lemma topic_append_only_witness :
  let ops1 := [OpAppend (sample_batch 10) 0] in
  let ops2 := [OpDeleteSeqs [3]; OpRetention 1] in
  let b1 := run_ops ops1 (sample_new 0 4 0) in
  let b2 := run_ops ops2 b1 in
  settled b1 ∧ settled b2 ∧ b_head_seq b1 <= b_head_seq b2 ∧
  ∀ s, s <= b_head_seq b1 → view b2 s = view b1 s ∨ view b2 s = None.
Proof.
  cbv zeta. apply (topic_append_only "orders" 7 (sample_config 0 4 0) 1 0); [by vm_compute|].
  split; [apply sample_appendable|]. by repeat split.
Defined.

Lemma append_contiguous_witness :
  let '(b', seqs) := append (sample_new 0 0 0) (sample_batch 10) 0 in
  seqs = seqZ 1 10 ∧ b_head_seq b' = 10 ∧
  (∀ i r, sample_batch 10 !! i = Some r → ∃ s, seqs !! i = Some s ∧ view b' s = Some r) ∧
  (∀ s, s <= 0 → view b' s = view (sample_new 0 0 0) s).
Proof.
  apply (append_contiguous (sample_new 0 0 0) (sample_batch 10) 0);
    [apply topic_new_settled; by vm_compute|done|apply sample_appendable].
Defined.

Lemma retention_meets_caps_witness :
  b_live_count (enforce_retention (sample_topic 0 4 60 10) 0).1 <= 4 ∧
  b_bytes_retained (enforce_retention (sample_topic 0 4 60 10) 0).1 <= 60.
Proof.
  destruct (retention_meets_caps (sample_topic 0 4 60 10) 0) as [Hr Hb];
    [apply sample_topic_settled|done|]. split; [by apply Hr|by apply Hb].
Defined.

Lemma retention_expires_witness :
  ∃ r, view (enforce_retention (sample_topic 3 0 0 10) 9).1 10 = Some r ∧
       i64_sat_sub 9 (r_ts r) <= 3.
Proof.
  eexists. split; [by vm_compute|].
  apply (retention_expires (sample_topic 3 0 0 10) 9 10); [apply sample_topic_settled|done| |done|by vm_compute].
  assert (Hr : records (b_index (sample_topic 3 0 0 10)) = sample_batch 10) by done. rewrite Hr.
  intros i j r r' Hij Hi Hj. unfold sample_batch in *.
  apply list_lookup_fmap_Some in Hi as (k & -> & Hk). apply list_lookup_fmap_Some in Hj as (k' & -> & Hk').
  apply lookup_seq in Hk. apply lookup_seq in Hk'. simpl. lia.
Defined.

Lemma retention_bytes_minimal_witness :
  view (sample_topic 0 0 60 10) 4 = Some (sample_rec 3 10 (Some "odd"%string)) ∧
  view (enforce_retention (sample_topic 0 0 60 10) 0).1 4 = None ∧
  60 < total_bytes (drop 3 (records (b_index (sample_topic 0 0 60 10)))).
Proof.
  split; [by vm_compute|]. split; [by vm_compute|].
  apply (retention_bytes_minimal (sample_topic 0 0 60 10) 0 4 (sample_rec 3 10 (Some "odd"%string)));
    [apply sample_topic_settled|done|done|done|done|by vm_compute|by vm_compute].
Defined.

Lemma retention_hardened_first_witness :
  let '(b', res) := enforce_retention_hardened (sample_topic 3 0 0 10) 9
                      (λ _, Err (A := unit) "disk full"%string) in
  (∀ e, res = Err e → b' = sample_topic 3 0 0 10) ∧ res = Err "disk full"%string.
Proof.
  pose proof (retention_hardened_first (sample_topic 3 0 0 10) 9
    (λ _, Err (A := unit) "disk full"%string) (st_wf _ (sample_topic_settled 3 0 0))) as Hw.
  assert (Hres : (enforce_retention_hardened (sample_topic 3 0 0 10) 9
    (λ _, Err (A := unit) "disk full"%string)).2 = Err "disk full"%string) by (by vm_compute).
  destruct (enforce_retention_hardened _ _ _) as [b' res]. simpl in Hres.
  destruct Hw as [Hw _]. split; [exact Hw|exact Hres].
Defined.

Lemma stage_rollback_identity_witness :
  let b := sample_topic 0 0 0 10 in
  rollback_staged (stage_append b (sample_batch 2)).1 (stage_append b (sample_batch 2)).2 = b.
Proof.
  cbv zeta. apply (stage_rollback_identity (sample_topic 0 0 0 10) (sample_batch 2));
    [apply sample_topic_settled|].
  apply Forall_cons. split; [by vm_compute|]. apply Forall_cons. split; [by vm_compute|]. apply Forall_nil_2.
Defined.

Lemma source_trim_hides_all_witness :
  is_Some (view (sample_topic 0 0 0 10) 10) ∧
  ∀ s, view (note_source_trim (sample_topic 0 0 0 10)) s = None.
Proof.
  split; [eexists; by vm_compute|].
  apply (source_trim_hides_all (sample_topic 0 0 0 10)); [apply sample_topic_settled|by vm_compute].
Defined.

(** A record cap and a byte cap together evict more than either asks for: ten
    10-byte records under [cap_records = 5] and [cap_bytes = 60] keep one record,
    though the five newest already satisfy both caps. *)
Example byte_cap_over_evicts :
  b_live_count (enforce_retention (sample_topic 0 5 0 10) 0).1 = 5 ∧
  b_bytes_retained (enforce_retention (sample_topic 0 5 0 10) 0).1 = 50 ∧
  b_live_count (enforce_retention (sample_topic 0 5 60 10) 0).1 = 1.
Proof. by vm_compute. Qed.
End Samples.
