(* ===== verification/Gate.v ===== *)
(** * The publish gate

    Models the concurrent writers of one topic ([Engine::write] of
    [src/engine/mod.rs] from the append lock on, and [next_publish_ticket],
    [publish_wait_turn], [publish_done] and [PublishGuard] of
    [src/engine/topic_state.rs]).  A writer stages its batch and enqueues it to the
    WAL under the append lock, takes a ticket, waits for its commit off the lock, and
    publishes or rolls back when the gate reaches its ticket.  A guard that is dropped
    without [done] waits for its turn, rolls its batch back and releases the ticket,
    which is the path of a failed commit.  Readers run retention at any time.

    [publish_gate_exact]: in every interleaving readers see only records of committed
    batches, an acknowledged batch is published whole, and the gate always has a
    writer to wait for.  The enqueue of a batch can be refused; the roll-back then
    pops the deque to the length it had before, which is right only if no reader has
    popped the front meanwhile ([refused_batch_appears]). *)

From stdpp Require Import base gmap list strings list_numbers relations.
From S2P Require Import Prelude Types Eviction TopicIndex QueueProjection TopicState TopicLog.

Section gate.
Context {V : Type} `{!JsonNull V}.
Implicit Types (b : TopicState V) (recs : list (StoredRecord V)) (s : StagedAppend).

(** Where a write is. *)
Inductive WriteTask :=
  | WIdle recs
  | WStaged s recs
  | WTicket s recs (tk : Z)
  | WTurn s recs (tk : Z) (ok : bool)
  | WRelease (tk : Z) (res : option (StagedAppend * list (StoredRecord V)))
  | WDone (res : option (StagedAppend * list (StoredRecord V))).

(** The topic, the holder of its [append_lock], [publish_ticket] and the
    [publish_next] of the gate, and the writers. *)
Record Gate := mkGate {
  ga_topic : TopicState V;
  ga_lock : option nat;
  ga_ticket : Z;
  ga_next : Z;
  ga_tasks : list WriteTask
}.

(** Under the append lock: the batch is staged. *)
Definition gate_stage (g : Gate) (i : nat) recs : Gate :=
  let '(b, s) := stage_append (ga_topic g) recs in
  mkGate b (Some i) (ga_ticket g) (ga_next g) (<[i := WStaged s recs]> (ga_tasks g)).

(** The WAL took the frames: [next_publish_ticket], and the lock is dropped. *)
Definition gate_enqueued (g : Gate) (i : nat) s recs : Gate :=
  mkGate (ga_topic g) None (ga_ticket g + 1) (ga_next g) (<[i := WTicket s recs (ga_ticket g)]> (ga_tasks g)).

(** The WAL refused the frames. *)
Definition gate_refused (g : Gate) (i : nat) s : Gate :=
  mkGate (rollback_staged (ga_topic g) s) None (ga_ticket g) (ga_next g) (<[i := WDone None]> (ga_tasks g)).

(** The commit token. *)
Definition gate_token (g : Gate) (i : nat) s recs (tk : Z) (ok : bool) : Gate :=
  mkGate (ga_topic g) (ga_lock g) (ga_ticket g) (ga_next g) (<[i := WTurn s recs tk ok]> (ga_tasks g)).

(** The turn of a ticket. *)
Definition gate_publish (g : Gate) (i : nat) s recs (tk now : Z) : Gate :=
  mkGate (publish_staged_no_seal (ga_topic g) s now).1 (ga_lock g) (ga_ticket g) (ga_next g)
    (<[i := WRelease tk (Some (s, recs))]> (ga_tasks g)).
Definition gate_rollback (g : Gate) (i : nat) s (tk : Z) : Gate :=
  mkGate (rollback_staged_by_seqs (ga_topic g) s) (ga_lock g) (ga_ticket g) (ga_next g)
    (<[i := WRelease tk None]> (ga_tasks g)).

(** [publish_done] *)
Definition gate_release (g : Gate) (i : nat) (tk : Z) (res : option (StagedAppend * list (StoredRecord V))) : Gate :=
  mkGate (ga_topic g) (ga_lock g) (ga_ticket g) (tk + 1) (<[i := WDone res]> (ga_tasks g)).

(** A reader enforces retention. *)
Definition gate_retain (g : Gate) (now : Z) : Gate :=
  mkGate (enforce_retention (ga_topic g) now).1 (ga_lock g) (ga_ticket g) (ga_next g) (ga_tasks g).

(** The front of the deque has not been popped since the batch was staged. *)
Definition unpopped (g : Gate) s recs : Prop :=
  length (records (b_index (ga_topic g))) = (sa_pre_len s + length recs)%nat.

(** The steps of the writers and the readers; [refusable] restricts when a batch is
    refused.  A committed batch can still be rolled back at its turn, when the head
    reservation of a disk topic fails. *)
Inductive gate_step (refusable : Gate → StagedAppend → list (StoredRecord V) → Prop) : Gate → Gate → Prop :=
  | gs_stage g i recs :
      ga_lock g = None → ga_tasks g !! i = Some (WIdle recs) → recs ≠ [] → appendable (ga_topic g) recs →
      gate_step refusable g (gate_stage g i recs)
  | gs_enqueued g i s recs :
      ga_tasks g !! i = Some (WStaged s recs) → gate_step refusable g (gate_enqueued g i s recs)
  | gs_refused g i s recs :
      ga_tasks g !! i = Some (WStaged s recs) → refusable g s recs → gate_step refusable g (gate_refused g i s)
  | gs_token g i s recs tk ok :
      ga_tasks g !! i = Some (WTicket s recs tk) → gate_step refusable g (gate_token g i s recs tk ok)
  | gs_publish g i s recs tk now :
      ga_tasks g !! i = Some (WTurn s recs tk true) → ga_next g = tk →
      gate_step refusable g (gate_publish g i s recs tk now)
  | gs_rollback g i s recs tk ok :
      ga_tasks g !! i = Some (WTurn s recs tk ok) → ga_next g = tk → gate_step refusable g (gate_rollback g i s tk)
  | gs_release g i tk res :
      ga_tasks g !! i = Some (WRelease tk res) → gate_step refusable g (gate_release g i tk res)
  | gs_retain g now : gate_step refusable g (gate_retain g now).

(** A topic at rest and writers that have not started. *)
Definition gate_init b (batches : list (list (StoredRecord V))) : Gate :=
  mkGate b None 0 0 (WIdle <$> batches).

(** ** The topic under a staged batch *)
(** The slots from the head to a batch, and the batch itself. *)
Definition batch_at b (start : Z) recs : Prop := ∀ (j : nat) r, recs !! j = Some r → get (b_index b) (start + Z.of_nat j) = Some r.
Definition gap_dead b (upto : Z) : Prop := ∀ q, b_head_seq b < q < upto → live_at (b_index b) q = false.

Lemma take_batch b start recs :
  topic_wf b → recs ≠ [] → batch_at b start recs → b_head_seq b < start → gap_dead b start →
  ∃ gap, take (Z.to_nat (start + Z.of_nat (length recs) - base_seq (b_index b))) (records (b_index b)) = published b ++ gap ++ recs ∧
    Forall (λ r, r_deleted r = true) gap.
Proof.
  intros Hwf Hne Hat Hlt Hgap. set (ix := b_index b) in *. set (m := Z.to_nat (start - base_seq ix)).
  destruct recs as [|r0 rs] eqn:Hrs; [done|]. rewrite <-Hrs in *.
  assert (Hb : base_seq ix <= start < tail_seq ix).
  { apply get_is_Some. exists r0. specialize (Hat 0%nat r0). rewrite Z.add_0_r in Hat. apply Hat. by rewrite Hrs. }
  set (n0 := Z.to_nat (b_head_seq b + 1 - base_seq ix)). exists (drop n0 (take m (records ix))).
  unfold tail_seq in Hb. split.
  - assert (Hpre : take n0 (records ix) ++ drop n0 (take m (records ix)) = take m (records ix)).
    { rewrite <-(take_drop n0 (take m (records ix))) at 2. rewrite take_take. do 2 f_equal. lia. }
    unfold published. fold ix n0. rewrite (assoc_L (++)), Hpre. apply list_eq. intros j.
    destruct (decide (j < m)%nat) as [Hj|Hj].
    + rewrite lookup_take_lt by lia. rewrite lookup_app_l by (rewrite length_take; lia). by rewrite lookup_take_lt.
    + rewrite lookup_app_r by (rewrite length_take; lia). rewrite length_take, Nat.min_l by lia.
      destruct (recs !! (j - m)%nat) as [r|] eqn:Hr.
      * pose proof (lookup_lt_Some _ _ _ Hr). rewrite lookup_take_lt by lia. apply Hat in Hr. unfold get in Hr. fold ix in Hr.
        rewrite (proj2 (Z.ltb_ge _ _)) in Hr by lia. rewrite <-Hr. f_equal. lia.
      * apply lookup_ge_None in Hr. apply lookup_take_ge. lia.
  - apply Forall_lookup. intros j r Hj. rewrite lookup_drop in Hj. apply lookup_take_Some in Hj as [Hj Hm].
    specialize (Hgap (base_seq ix + Z.of_nat (n0 + j)) ltac:(lia)). unfold live_at in Hgap. fold ix in Hgap.
    unfold get in Hgap. rewrite (proj2 (Z.ltb_ge _ _)) in Hgap by lia.
    replace (Z.to_nat (base_seq ix + Z.of_nat (n0 + j) - base_seq ix)) with (n0 + j)%nat in Hgap by lia. rewrite Hj in Hgap.
    by destruct (r_deleted r).
Qed.

(** A seq below a floor or the front of the deque. *)
Definition gone b (q : Z) : Prop := q <= floors_max (b_floors b) ∨ q < base_seq (b_index b).

(** What every step keeps of the published part. *)
Record extends b b' : Prop := {
  ex_wf : topic_wf b';
  ex_head : b_head_seq b <= b_head_seq b';
  ex_get q : q <= b_head_seq b → get (b_index b') q = get (b_index b) q ∨ get (b_index b') q = None ∧ gone b' q;
  ex_gone q : gone b q → gone b' q
}.

Lemma gone_earliest b q : topic_wf b → q <= b_head_seq b → gone b q ↔ q < earliest_seq b.
Proof. intros Hwf Hq. pose proof (earliest_seq_le b q Hwf Hq). unfold gone. lia. Qed.

(** A batch in the deque that is not yet published. *)
Record staged_in b s recs : Prop := {
  si_nonempty : recs ≠ [];
  si_count : sa_count s = Z.of_nat (length recs);
  si_bytes : sa_added_bytes s = total_bytes recs;
  si_live : Forall (λ r, r_deleted r = false) recs;
  si_at : batch_at b (sa_start s) recs
}.

Lemma staged_in_keep b b' s recs :
  staged_in b s recs →
  (∀ q r, sa_start s <= q < sa_start s + Z.of_nat (length recs) → get (b_index b) q = Some r → r_deleted r = false →
     get (b_index b') q = Some r) →
  staged_in b' s recs.
Proof.
  intros [? ? ? Hl Hat] Hk. split; try done. intros j r Hj. pose proof (lookup_lt_Some _ _ _ Hj).
  apply Hk; [lia|by apply Hat|by eapply Forall_lookup_1 in Hl].
Qed.

Lemma staged_not_empty b s recs : staged_in b s recs → staged_is_empty s = false.
Proof.
  intros [Hne Hc _ _ _]. unfold staged_is_empty. apply Z.eqb_neq. rewrite Hc. destruct recs; [done|simpl; lia].
Qed.

Lemma publish_facts b s recs now :
  topic_wf b → staged_in b s recs → b_head_seq b < sa_start s → gap_dead b (sa_start s) →
  let b' := (publish_staged_no_seal b s now).1 in
  extends b b' ∧ b_head_seq b' = sa_start s + Z.of_nat (length recs) - 1 ∧ b_index b' = b_index b ∧ b_floors b' = b_floors b.
Proof.
  intros Hwf Hs Hlt Hgap. pose proof (staged_not_empty _ _ _ Hs) as He. destruct Hs as [Hne Hc Hb Hl Hat].
  destruct (take_batch b (sa_start s) recs Hwf Hne Hat Hlt Hgap) as (gap & Htake & Hdead).
  unfold publish_staged_no_seal. rewrite He. simpl. rewrite Hc. split_and!; [|done..].
  assert (Hpos : (0 < length recs)%nat) by (destruct recs; [done|simpl; lia]).
  assert (Hlast : sa_start s + Z.of_nat (length recs) - 1 < tail_seq (b_index b)).
  { destruct (lookup_lt_is_Some_2 recs (length recs - 1)) as [r Hr]; [lia|]. apply Hat in Hr.
    pose proof (proj1 (get_is_Some (b_index b) _) ltac:(eauto)). lia. }
  assert (Hgap0 : live_slots gap = 0 ∧ total_bytes gap = 0).
  { apply dead_slots_zero; [|done]. pose proof (wf_slots _ (tw_index _ Hwf)) as Hok. eapply Forall_take in Hok.
    erewrite Htake in Hok. by apply Forall_app in Hok as [_ [? _]%Forall_app]. }
  split; simpl; [|lia|by left|done].
  destruct Hwf as [Hix Hsb Hlo Hhi Hlive Hbytes Htot Hfl Hdel].
  split; simpl; unfold published; simpl; rewrite ?Z.sub_add, ?Htake, ?live_slots_app, ?total_bytes_app, ?(live_slots_all recs);
    try done; lia.
Qed.

Lemma published_ext b (ix' : TopicIndex V) :
  topic_wf b → base_seq ix' = base_seq (b_index b) → b_head_seq b < tail_seq ix' →
  (∀ q, q <= b_head_seq b → get ix' q = get (b_index b) q) → published (with_index b ix') = published b.
Proof.
  intros Hwf Hb Ht Hget. pose proof (tw_head_hi _ Hwf) as Hhi. unfold published. simpl. rewrite Hb. unfold tail_seq in *.
  set (n := Z.to_nat _). apply list_eq. intros j. destruct (decide (j < n)%nat); [|by rewrite !lookup_take_ge by lia].
  rewrite !lookup_take_lt by done. specialize (Hget (base_seq (b_index b) + Z.of_nat j) ltac:(lia)). unfold get in Hget.
  rewrite Hb, (proj2 (Z.ltb_ge _ _)) in Hget by lia. by replace (Z.to_nat _) with j in Hget by lia.
Qed.

(** Replacing the index beyond the head. *)
Lemma with_index_extends b (ix' : TopicIndex V) :
  topic_wf b → index_wf ix' → base_seq ix' = base_seq (b_index b) → delete_below ix' = delete_below (b_index b) →
  b_head_seq b < tail_seq ix' <= u64_max → total_bytes (records ix') <= u64_max →
  (∀ q, q <= b_head_seq b → get ix' q = get (b_index b) q) → extends b (with_index b ix').
Proof.
  intros Hwf Hix Hb Hd Ht Htot Hget. pose proof (published_ext b ix' Hwf Hb ltac:(lia) Hget) as Hp.
  destruct Hwf as [_ Hsb Hlo Hhi Hlive Hbytes _ Hfl Hdel]. split; simpl; [|done|by left; auto|].
  - split; simpl; rewrite ?Hp, ?Hb, ?Hd; done.
  - unfold gone. simpl. by rewrite Hb.
Qed.

Lemma stage_facts b recs :
  topic_wf b → appendable b recs → recs ≠ [] →
  let '(b', s) := stage_append b recs in
  extends b b' ∧ staged_in b' s recs ∧ sa_start s = tail_seq (b_index b) ∧ b_head_seq b' = b_head_seq b ∧
  tail_seq (b_index b') = tail_seq (b_index b) + Z.of_nat (length recs) ∧
  ∀ q, q < tail_seq (b_index b) → get (b_index b') q = get (b_index b) q.
Proof.
  intros Hwf Happ Hne. pose proof (appendable_slots _ _ Happ) as Hok. destruct Happ as (Hlive & Hroom & Hbytes).
  pose proof (total_bytes_nonneg _ (wf_slots _ (tw_index _ Hwf))).
  pose proof (foldl_sat_bytes recs 0 Hok ltac:(lia) ltac:(lia)) as Hsum.
  assert (Hst : stage_append b recs = (with_index b (foldl push_record (b_index b) recs),
    mkStaged (tail_seq (b_index b)) (Z.of_nat (length recs)) (total_bytes recs) (length (records (b_index b))))).
  { destruct recs; [done|]. unfold stage_append. rewrite Hsum. done. }
  rewrite Hst. destruct (foldl_push_fields recs (b_index b)) as (Hb & Hr & Hdb & Ht). pose proof (tw_head_hi _ Hwf).
  assert (Hsame : ∀ q, q < tail_seq (b_index b) → get (foldl push_record (b_index b) recs) q = get (b_index b) q).
  { intros q Hq. by rewrite foldl_push_get, (proj2 (Z.ltb_lt _ _)). }
  split_and!; simpl; [|split; simpl|done..].
  - apply with_index_extends; try done; [by apply foldl_push_wf; [apply Hwf|]|lia|rewrite Hr, total_bytes_app; lia|].
    intros q Hq. apply Hsame. lia.
  - done.
  - done.
  - done.
  - eapply Forall_impl; [exact Hlive|]. by intros ? [].
  - intros j r Hj. simpl. rewrite foldl_push_get, (proj2 (Z.ltb_ge _ _)) by lia. rewrite <-Hj. f_equal. lia.
Qed.

Lemma rollback_seqs_facts b s recs :
  topic_wf b → staged_in b s recs → b_head_seq b < sa_start s →
  let b' := rollback_staged_by_seqs b s in
  extends b b' ∧ b_head_seq b' = b_head_seq b ∧ tail_seq (b_index b') = tail_seq (b_index b) ∧
  (∀ q, ~ (sa_start s <= q < sa_start s + Z.of_nat (length recs)) → get (b_index b') q = get (b_index b) q) ∧
  (∀ q, sa_start s <= q < sa_start s + Z.of_nat (length recs) → live_at (b_index b') q = false).
Proof.
  intros Hwf Hs Hlt. unfold rollback_staged_by_seqs. rewrite (staged_not_empty _ _ _ Hs).
  assert (Hin : ∀ q, q ∈ staged_seqs s ↔ sa_start s <= q < sa_start s + Z.of_nat (length recs)).
  { intros q. unfold staged_seqs. rewrite elem_of_seqZ, (si_count _ _ _ Hs). done. }
  pose proof (mark_all_spec (staged_seqs s) (b_index b) 0 0 (tw_index _ Hwf) ltac:(lia)
                ltac:(pose proof (tw_total _ Hwf); lia)) as Hm.
  destruct (mark_all (b_index b) (staged_seqs s) 0 0) as [[ix' freed] deleted].
  destruct Hm as (Hix' & Hb & Hdb & Hlen & Hget & Hf0 & _ & Hfr & _). simpl.
  assert (Hout : ∀ q, ~ (sa_start s <= q < sa_start s + Z.of_nat (length recs)) → get ix' q = get (b_index b) q).
  { intros q Hq. rewrite Hget. destruct (get (b_index b) q) as [r|]; [|done]. rewrite bool_decide_false; [done|].
    rewrite Hin. tauto. }
  assert (Htail : tail_seq ix' = tail_seq (b_index b)) by (unfold tail_seq; by rewrite Hb, Hlen).
  pose proof (tw_head_hi _ Hwf). pose proof (tw_total _ Hwf).
  split_and!; [|done..|].
  - apply with_index_extends; try done; [lia..|]. intros q Hq. apply Hout. lia.
  - intros q Hq. unfold live_at. rewrite Hget. destruct (get (b_index b) q) as [r|]; [|done].
    case_bool_decide as Hd; [done|]. rewrite Hin in Hd. destruct (r_deleted r) eqn:E; [done|]. tauto.
Qed.

Lemma pop_back_facts (ix : TopicIndex V) :
  index_wf ix → (0 < length (records ix))%nat →
  index_wf (pop_back ix) ∧ base_seq (pop_back ix) = base_seq ix ∧ delete_below (pop_back ix) = delete_below ix ∧
  records (pop_back ix) = take (length (records ix) - 1) (records ix).
Proof.
  intros [Hb Hok Htags Hd] Hlen. unfold pop_back. destruct (last (records ix)) as [r|] eqn:Hl.
  2:{ apply last_None in Hl. rewrite Hl in Hlen. simpl in Hlen. lia. }
  split_and!; [|done..]. apply last_Some in Hl as [l Hl]. split; simpl; [done|by apply Forall_take| |done].
  rewrite Hl, length_app in *. simpl. replace (length l + 1 - 1)%nat with (length l) by lia. rewrite take_app_length.
  pose proof (tags_ok_pop_back (base_seq ix) r l (tag_index ix) Htags) as Hp. unfold tail_seq. rewrite Hl, length_app. simpl.
  by replace (base_seq ix + Z.of_nat (length l + 1) - 1) with (base_seq ix + Z.of_nat (length l)) by lia.
Qed.

Lemma iter_pop_facts n (ix : TopicIndex V) :
  index_wf ix → (n <= length (records ix))%nat →
  index_wf (Nat.iter n pop_back ix) ∧ base_seq (Nat.iter n pop_back ix) = base_seq ix ∧
  delete_below (Nat.iter n pop_back ix) = delete_below ix ∧
  records (Nat.iter n pop_back ix) = take (length (records ix) - n) (records ix).
Proof.
  intros Hwf. induction n as [|n IH]; intros Hn; simpl.
  { split_and!; try done. by rewrite Nat.sub_0_r, take_ge. }
  destruct IH as (Hi & Hb & Hd & Hr); [lia|]. set (ix' := Nat.iter n pop_back ix) in *.
  assert (Hl : length (records ix') = (length (records ix) - n)%nat) by (rewrite Hr, length_take; lia).
  destruct (pop_back_facts ix' Hi ltac:(lia)) as (? & ? & ? & Hr'). split_and!; try congruence.
  rewrite Hr', Hl, Hr, take_take. f_equal. lia.
Qed.

Lemma rollback_facts b s recs :
  topic_wf b → staged_in b s recs → length (records (b_index b)) = (sa_pre_len s + length recs)%nat →
  b_head_seq b < tail_seq (b_index b) - Z.of_nat (length recs) →
  let b' := rollback_staged b s in
  extends b b' ∧ b_head_seq b' = b_head_seq b ∧
  tail_seq (b_index b') = tail_seq (b_index b) - Z.of_nat (length recs) ∧
  ∀ q, q < tail_seq (b_index b) - Z.of_nat (length recs) → get (b_index b') q = get (b_index b) q.
Proof.
  intros Hwf Hs Hlen Hlt. unfold rollback_staged. rewrite (staged_not_empty _ _ _ Hs).
  replace (length (records (b_index b)) - sa_pre_len s)%nat with (length recs) by lia.
  destruct (iter_pop_facts (length recs) (b_index b) (tw_index _ Hwf) ltac:(lia)) as (Hi & Hb & Hd & Hr).
  set (ix' := Nat.iter _ _ _) in *.
  assert (Ht : tail_seq ix' = tail_seq (b_index b) - Z.of_nat (length recs)).
  { unfold tail_seq. rewrite Hb, Hr, length_take. lia. }
  assert (Hget : ∀ q, q < tail_seq (b_index b) - Z.of_nat (length recs) → get ix' q = get (b_index b) q).
  { intros q Hq. unfold get. rewrite Hb, Hr. unfold tail_seq in Hq. destruct (Z.ltb_spec q (base_seq (b_index b))); [done|].
    apply lookup_take_lt. lia. }
  pose proof (tw_head_hi _ Hwf). pose proof (tw_total _ Hwf).
  pose proof (total_bytes_take (records (b_index b)) (length (records (b_index b)) - length recs) (wf_slots _ (tw_index _ Hwf))).
  simpl. split_and!; [|done..]. apply with_index_extends; try done; [lia|rewrite Hr; lia|]. intros q Hq. apply Hget. lia.
Qed.

Lemma retain_facts b now :
  topic_wf b →
  let b' := (enforce_retention b now).1 in
  extends b b' ∧ b_head_seq b' = b_head_seq b ∧ tail_seq (b_index b') = tail_seq (b_index b) ∧
  (∀ q r, b_head_seq b < q → get (b_index b) q = Some r → r_deleted r = false → get (b_index b') q = Some r) ∧
  (∀ q, live_at (b_index b) q = false → live_at (b_index b') q = false).
Proof.
  intros Hwf. destruct (enforce_retention_cases b now Hwf) as [-> | ->]; [split_and!; try done; split; by auto|].
  pose proof (retained_wf b now Hwf) as Hwf'. pose proof (retained_tail b now) as Ht.
  destruct (retained_fields b now) as (Hh & _ & _ & _ & Hfl).
  set (b1 := with_floors b (commit_floors (b_floors b) (plan_retention b now))) in *.
  assert (Hwf1 : topic_wf b1) by (apply with_floors_wf; [done|by apply plan_retention_floors|done]).
  assert (Hb : ∃ m, base_seq (b_index (retained b now)) = m ∧ base_seq (b_index b) <= m ∧
    (∀ q, get (b_index (retained b now)) q = if q <? m then None else get (b_index b) q) ∧
    ∀ q r, get (b_index b) q = Some r → r_deleted r = false → b_head_seq b < q → m <= q).
  { exists (base_seq (b_index b) + Z.of_nat (front_drop b1 (b_head_seq b))).
    unfold retained. fold b1. change (b_head_seq b) with (b_head_seq b1). split_and!; [|lia| |].
    - rewrite reclaim_front_state by done. simpl.
      destruct (drain_front_records (b_index b) (front_drop b1 (b_head_seq b))) as (_ & -> & _).
      destruct (front_drop_beyond b1 _ Hwf1 eq_refl) as [Hle _]. simpl in *. lia.
    - intros q. exact (reclaim_front_get b1 q Hwf1).
    - intros q r Hg Hd Hq. apply Z.nlt_ge. intros Hlt. pose proof (proj1 (get_is_Some _ _) (mk_is_Some _ _ Hg)).
      destruct (front_drop_dead b1 q Hwf1 ltac:(simpl in *; lia)) as [He|He].
      + pose proof (tw_head_lo _ Hwf1). pose proof (tw_head_hi _ Hwf1). pose proof (tw_seq_base _ Hwf1).
        pose proof (earliest_seq_bounds (b_floors b1) (b_seq_base b1) (b_head_seq b1) ltac:(lia) ltac:(lia)). lia.
      + unfold live_at in He. simpl in He. by rewrite Hg, Hd in He. }
  destruct Hb as (m & Hbase & Hm & Hget & Hkeep).
  split_and!; [split; [done|lia| |]|done|done| |].
  - intros q _. rewrite Hget. destruct (Z.ltb_spec q m); [right|by left]. split; [done|]. right. lia.
  - intros q. unfold gone. rewrite Hbase, Hfl. unfold floors_max, commit_floors, plan_retention. simpl.
    pose proof (plan_ttl_bounds b now Hwf). pose proof (plan_cap_records_bounds b Hwf).
    pose proof (plan_cap_bytes_bounds b (plan_cap_records b) (plan_ttl b now) Hwf). lia.
  - intros q r Hq Hg Hd. rewrite Hget, (proj2 (Z.ltb_ge q m)); eauto.
  - intros q. unfold live_at. rewrite Hget. by destruct (q <? m).
Qed.

(** ** The invariant *)

(** The ticket a writer holds, whether it has had its turn, the batch it is still to
    publish, and the batch it has published. *)
Definition task_ticket (t : WriteTask) : option Z :=
  match t with WTicket _ _ tk | WTurn _ _ tk _ | WRelease tk _ => Some tk | _ => None end.
Definition past_turn (t : WriteTask) : bool := match t with WRelease _ _ => true | _ => false end.
Definition task_pending (t : WriteTask) : option (Z * StagedAppend * list (StoredRecord V)) :=
  match t with WTicket s recs tk | WTurn s recs tk _ => Some (tk, s, recs) | _ => None end.
Definition task_published (t : WriteTask) : option (StagedAppend * list (StoredRecord V)) :=
  match t with WRelease _ res | WDone res => res | _ => None end.

(** The tickets: [cur] is the next one to have its turn. *)
Record tickets_ok (cur : Z) (g : Gate) : Prop := {
  tk_range : ga_next g <= cur <= ga_ticket g;
  tk_holds i t tk : ga_tasks g !! i = Some t → task_ticket t = Some tk →
    tk < ga_ticket g ∧ if past_turn t then tk = ga_next g ∧ cur = ga_next g + 1 else cur <= tk;
  tk_unique i j t t' tk : ga_tasks g !! i = Some t → ga_tasks g !! j = Some t' →
    task_ticket t = Some tk → task_ticket t' = Some tk → i = j;
  tk_holder tk : ga_next g <= tk < ga_ticket g → ∃ i t, ga_tasks g !! i = Some t ∧ task_ticket t = Some tk
}.

(** The batches that wait for their turn, at the seqs [st] gives their tickets. *)
Definition pending_ok (st : Z → Z) b (tasks : list WriteTask) : Prop :=
  ∀ i t tk s recs, tasks !! i = Some t → task_pending t = Some (tk, s, recs) →
    sa_start s = st tk ∧ st (tk + 1) = st tk + Z.of_nat (length recs) ∧ staged_in b s recs.

(** The published batches, and where the records above [h0] come from. *)
Definition shown b s recs : Prop :=
  ∀ (j : nat) r, recs !! j = Some r → let q := sa_start s + Z.of_nat j in
    q <= b_head_seq b ∧ r_deleted r = false ∧ (get (b_index b) q = Some r ∨ gone b q).
Definition published_by (tasks : list WriteTask) (q : Z) (r : StoredRecord V) : Prop :=
  ∃ i t s recs (j : nat), tasks !! i = Some t ∧ task_published t = Some (s, recs) ∧ q = sa_start s + Z.of_nat j ∧ recs !! j = Some r.
Definition done_ok (h0 : Z) b (tasks : list WriteTask) : Prop :=
  (∀ i t s recs, tasks !! i = Some t → task_published t = Some (s, recs) → shown b s recs) ∧
  (∀ q r, h0 < q <= b_head_seq b → get (b_index b) q = Some r → r_deleted r = false → published_by tasks q r).

(** The staged batch ends the deque. *)
Definition staged_ok (st : Z → Z) (g : Gate) : Prop :=
  match ga_lock g with
  | None => tail_seq (b_index (ga_topic g)) = st (ga_ticket g) ∧ ∀ i s recs, ga_tasks g !! i ≠ Some (WStaged s recs)
  | Some k => ∃ s recs, ga_tasks g !! k = Some (WStaged s recs) ∧ (∀ i s' recs', ga_tasks g !! i = Some (WStaged s' recs') → i = k) ∧
      sa_start s = st (ga_ticket g) ∧ tail_seq (b_index (ga_topic g)) = st (ga_ticket g) + Z.of_nat (length recs) ∧
      staged_in (ga_topic g) s recs
  end.

Record gate_ok (st : Z → Z) (cur h0 : Z) (g : Gate) : Prop := {
  go_tickets : tickets_ok cur g;
  go_wf : topic_wf (ga_topic g);
  go_head : b_head_seq (ga_topic g) < st cur;
  go_gap : gap_dead (ga_topic g) (st cur);
  go_pending : pending_ok st (ga_topic g) (ga_tasks g);
  go_staged : staged_ok st g;
  go_done : done_ok h0 (ga_topic g) (ga_tasks g)
}.

Ltac task_cases H := apply list_lookup_insert_Some in H as [(<- & <- & _)|[? H]].

Lemma tickets_ok_same cur g b lock i t t' :
  tickets_ok cur g → ga_tasks g !! i = Some t → task_ticket t' = task_ticket t → past_turn t' = past_turn t →
  tickets_ok cur (mkGate b lock (ga_ticket g) (ga_next g) (<[i := t']> (ga_tasks g))).
Proof.
  intros [Hr Hh Hu Ho] Hi Ht Hp. pose proof (lookup_lt_Some _ _ _ Hi). split; simpl; [done|..].
  - intros k u tk Hk Htk. task_cases Hk; [rewrite Hp; rewrite Ht in Htk|]; eauto.
  - intros k l u u' tk Hk Hl Hu1 Hu2. task_cases Hk; task_cases Hl; [done|..]; rewrite ?Ht in *; eauto.
  - intros tk (k & u & Hk & Hu')%Ho. destruct (decide (k = i)) as [-> |].
    + exists i, t'. rewrite list_lookup_insert_eq by done. split; [done|]. congruence.
    + exists k, u. by rewrite list_lookup_insert_ne.
Qed.

Lemma tickets_ok_enqueued cur g i s recs :
  tickets_ok cur g → ga_tasks g !! i = Some (WStaged s recs) → tickets_ok cur (gate_enqueued g i s recs).
Proof.
  intros [Hr Hh Hu Ho] Hi. pose proof (lookup_lt_Some _ _ _ Hi). split; simpl; [lia|..].
  - intros k u tk Hk Htk. task_cases Hk; simpl in *; [simplify_eq; lia|]. destruct (Hh _ _ _ Hk Htk). split; [lia|done].
  - intros k l u u' tk Hk Hl Hu1 Hu2. task_cases Hk; task_cases Hl; simpl in *; simplify_eq; [done|..|by eauto];
      match goal with H : ga_tasks g !! _ = Some ?u, H' : task_ticket ?u = _ |- _ => destruct (Hh _ _ _ H H'); lia end.
  - intros tk Htk. destruct (decide (tk = ga_ticket g)) as [-> |].
    + exists i. eexists. by rewrite list_lookup_insert_eq.
    + destruct (Ho tk) as (k & u & Hk & Hu'); [lia|]. exists k, u. rewrite list_lookup_insert_ne; [done|].
      intros ->. rewrite Hi in Hk. by simplify_eq.
Qed.

(** A turn is taken by the holder of the next ticket only. *)
Lemma turn_cur cur g i t :
  tickets_ok cur g → ga_tasks g !! i = Some t → task_ticket t = Some (ga_next g) → past_turn t = false →
  cur = ga_next g ∧ cur < ga_ticket g.
Proof. intros Hok Hi Ht Hp. destruct (tk_holds _ _ Hok _ _ _ Hi Ht) as [? Hc]. rewrite Hp in Hc. pose proof (tk_range _ _ Hok). lia. Qed.

Lemma tickets_ok_turn cur g b i t res :
  tickets_ok cur g → ga_tasks g !! i = Some t → task_ticket t = Some (ga_next g) → past_turn t = false →
  tickets_ok (cur + 1) (mkGate b (ga_lock g) (ga_ticket g) (ga_next g) (<[i := WRelease (ga_next g) res]> (ga_tasks g))).
Proof.
  intros Hok Hi Ht Hp. destruct (turn_cur _ _ _ _ Hok Hi Ht Hp) as [-> Hlt]. pose proof (lookup_lt_Some _ _ _ Hi).
  destruct Hok as [Hr Hh Hu Ho]. split; simpl; [lia|..].
  - intros k u tk Hk Htk. task_cases Hk; simpl in *; [simplify_eq; lia|]. destruct (Hh _ _ _ Hk Htk) as [? Hc].
    split; [lia|]. destruct (past_turn u); [lia|].
    assert (tk ≠ ga_next g); [|lia]. intros ->. assert (i = k) by (eapply Hu; eauto). done.
  - intros k l u u' tk Hk Hl Hu1 Hu2. task_cases Hk; task_cases Hl; simpl in *; simplify_eq; eauto.
  - intros tk (k & u & Hk & Hu')%Ho. destruct (decide (k = i)) as [-> |].
    + exists i. eexists. rewrite list_lookup_insert_eq by done. split; [done|]. simpl. congruence.
    + exists k, u. by rewrite list_lookup_insert_ne.
Qed.

Lemma tickets_ok_release cur g i tk res :
  tickets_ok cur g → ga_tasks g !! i = Some (WRelease tk res) → tickets_ok cur (gate_release g i tk res) ∧ cur = tk + 1.
Proof.
  intros [Hr Hh Hu Ho] Hi. pose proof (lookup_lt_Some _ _ _ Hi). destruct (Hh _ _ _ Hi eq_refl) as [? [-> Hc]]. simpl in *.
  split; [|done]. split; simpl; [lia|..].
  - intros k u tk Hk Htk. task_cases Hk; [done|]. destruct (Hh _ _ _ Hk Htk) as [? Hp]. split; [done|].
    destruct (past_turn u); [|lia]. destruct Hp as [-> _]. assert (i = k) by (eapply Hu; eauto). done.
  - intros k l u u' tk Hk Hl Hu1 Hu2. task_cases Hk; task_cases Hl; simpl in *; simplify_eq; eauto.
  - intros tk Htk. destruct (Ho tk) as (k & u & Hk & Hu'); [lia|]. exists k, u. rewrite list_lookup_insert_ne; [done|].
    intros ->. rewrite Hi in Hk. injection Hk as <-. simpl in Hu'. simplify_eq. lia.
Qed.

(** Batches follow each other in ticket order. *)
Lemma starts_mono st cur h0 g a c :
  gate_ok st cur h0 g → cur <= a <= c → c <= ga_ticket g → st a <= st c.
Proof.
  intros Hok Ha Hc. replace c with (a + Z.of_nat (Z.to_nat (c - a))) in * by lia. revert Hc.
  assert (cur <= a) by lia. generalize (Z.to_nat (c - a)) as n. clear Ha. induction n as [|n IH]; intros Hn; [by rewrite Z.add_0_r|]. specialize (IH ltac:(lia)).
  pose proof (go_tickets _ _ _ _ Hok) as Htk. pose proof (tk_range _ _ Htk).
  destruct (tk_holder _ _ Htk (a + Z.of_nat n)) as (i & t & Hi & Ht); [lia|].
  destruct (tk_holds _ _ Htk _ _ _ Hi Ht) as [_ Hp].
  replace (a + Z.of_nat (S n)) with (a + Z.of_nat n + 1) by lia.
  destruct t as [|? ?|s recs tk|s recs tk ?|tk ?|?]; simplify_eq/=; [..|lia];
    destruct (go_pending _ _ _ _ Hok _ _ _ _ _ Hi eq_refl) as (_ & Hs & _); lia.
Qed.

Lemma pending_between st cur h0 g i t tk s recs :
  gate_ok st cur h0 g → ga_tasks g !! i = Some t → task_pending t = Some (tk, s, recs) →
  cur <= tk < ga_ticket g ∧ st cur <= sa_start s ∧ sa_start s + Z.of_nat (length recs) = st (tk + 1) ∧ st (tk + 1) <= st (ga_ticket g).
Proof.
  intros Hok Hi Ht. pose proof (go_tickets _ _ _ _ Hok) as Htk.
  assert (task_ticket t = Some tk ∧ past_turn t = false) as [Htt Hp] by (by destruct t; simplify_eq/=).
  destruct (tk_holds _ _ Htk _ _ _ Hi Htt) as [Hlt Hc]. rewrite Hp in Hc.
  destruct (go_pending _ _ _ _ Hok _ _ _ _ _ Hi Ht) as (-> & Hs & _).
  pose proof (starts_mono _ _ _ _ cur tk Hok ltac:(lia) ltac:(lia)).
  pose proof (starts_mono _ _ _ _ (tk + 1) (ga_ticket g) Hok ltac:(lia) ltac:(lia)). lia.
Qed.

Lemma shown_extends b b' s recs : extends b b' → shown b s recs → shown b' s recs.
Proof.
  intros [_ Hh Hg Hgo] Hs j r Hj. destruct (Hs j r Hj) as (Hq & Hd & Hc). split_and!; [lia|done|].
  destruct Hc as [Hc|Hc]; [|by right; apply Hgo]. destruct (Hg _ Hq) as [-> |[_ ?]]; by auto.
Qed.

Lemma published_by_insert tasks i t t' q r :
  published_by tasks q r → tasks !! i = Some t → task_published t = None ∨ task_published t' = task_published t →
  published_by (<[i := t']> tasks) q r.
Proof.
  intros (k & u & s & recs & j & Hk & Hu & Hq & Hr) Hi Ht. destruct (decide (k = i)) as [-> |].
  - exists i, t', s, recs, j. rewrite list_lookup_insert_eq by (by eapply lookup_lt_Some). split_and!; try done.
    rewrite Hi in Hk. simplify_eq. destruct Ht; congruence.
  - exists k, u, s, recs, j. by rewrite list_lookup_insert_ne.
Qed.

Lemma visible_extends b b' q r :
  extends b b' → q <= b_head_seq b → get (b_index b') q = Some r → get (b_index b) q = Some r.
Proof. intros He Hq Hg. destruct (ex_get _ _ He q Hq) as [<- |[? _]]; congruence. Qed.

Lemma done_ok_step h0 b b' tasks i t t' :
  done_ok h0 b tasks → extends b b' → b_head_seq b' = b_head_seq b → tasks !! i = Some t →
  task_published t' = task_published t → done_ok h0 b' (<[i := t']> tasks).
Proof.
  intros [Hs Hv] He Hh Hi Ht. split.
  - intros k u s recs Hk Hu. apply (shown_extends b); [done|]. task_cases Hk; [rewrite Ht in Hu|]; eauto.
  - intros q r Hq Hg Hd. rewrite Hh in Hq. eapply published_by_insert; [|done|by right].
    apply Hv; [done| |done]. eapply visible_extends; [done|lia|done].
Qed.

Lemma done_ok_publish h0 b s recs now tasks i t tk :
  done_ok h0 b tasks → topic_wf b → staged_in b s recs → b_head_seq b < sa_start s → gap_dead b (sa_start s) →
  tasks !! i = Some t → task_published t = None →
  done_ok h0 (publish_staged_no_seal b s now).1 (<[i := WRelease tk (Some (s, recs))]> tasks).
Proof.
  intros [Hsh Hv] Hwf Hs Hlt Hgap Hi Ht. destruct (publish_facts b s recs now Hwf Hs Hlt Hgap) as (He & Hh & Hix & Hfl).
  set (b' := (publish_staged_no_seal b s now).1) in *. clearbody b'. destruct Hs as [_ _ _ Hl Hat]. split.
  - intros k u s' recs' Hk Hu. task_cases Hk; simplify_eq/=.
    + intros j r Hj. pose proof (lookup_lt_Some _ _ _ Hj). simpl. rewrite Hh, Hix.
      split_and!; [lia|by eapply Forall_lookup_1 in Hl|]. left. by apply Hat.
    + apply (shown_extends b); [done|]. eauto.
  - intros q r Hq Hg Hd. rewrite Hh in Hq. rewrite Hix in Hg. destruct (decide (q <= b_head_seq b)).
    { eapply published_by_insert; [|done|by left]. apply Hv; [lia|done..]. }
    destruct (decide (q < sa_start s)).
    { specialize (Hgap q ltac:(lia)). unfold live_at in Hgap. by rewrite Hg, Hd in Hgap. }
    destruct (lookup_lt_is_Some_2 recs (Z.to_nat (q - sa_start s))) as [r' Hr']; [lia|].
    pose proof (Hat _ _ Hr') as Hg'. replace (sa_start s + _) with q in Hg' by lia.
    exists i. eexists _, s, recs, (Z.to_nat (q - sa_start s)). rewrite list_lookup_insert_eq by (by eapply lookup_lt_Some).
    split_and!; [done..|lia|congruence].
Qed.

(** Pending batches under a step of another writer. *)
Lemma pending_ok_step st b b' tasks i t t' :
  pending_ok st b tasks → tasks !! i = Some t →
  (∀ k u tk s recs, k ≠ i → tasks !! k = Some u → task_pending u = Some (tk, s, recs) → staged_in b s recs → staged_in b' s recs) →
  (∀ tk s recs, task_pending t' = Some (tk, s, recs) →
     sa_start s = st tk ∧ st (tk + 1) = st tk + Z.of_nat (length recs) ∧ staged_in b' s recs) →
  pending_ok st b' (<[i := t']> tasks).
Proof.
  intros Hp Hi Hk Ht' k u tk s recs Hu Hpu. task_cases Hu; [by apply Ht'|].
  destruct (Hp _ _ _ _ _ Hu Hpu) as (? & ? & ?). eauto 10.
Qed.

Definition is_staged (t : WriteTask) : bool := match t with WStaged _ _ => true | _ => false end.

Lemma staged_ok_step st g b' next' i t t' :
  staged_ok st g → ga_tasks g !! i = Some t → is_staged t = false → is_staged t' = false →
  tail_seq (b_index b') = tail_seq (b_index (ga_topic g)) →
  (∀ s recs, sa_start s = st (ga_ticket g) → staged_in (ga_topic g) s recs → staged_in b' s recs) →
  staged_ok st (mkGate b' (ga_lock g) (ga_ticket g) next' (<[i := t']> (ga_tasks g))).
Proof.
  unfold staged_ok. simpl. intros Hs Hi Ht Ht' Htail Hk. rewrite Htail. destruct (ga_lock g) as [k|].
  - destruct Hs as (s & recs & Hw & Hu & Hst & Htl & Hin). exists s, recs. split_and!; eauto.
    + rewrite list_lookup_insert_ne; [done|]. intros ->. by simplify_eq/=.
    + intros j s' recs' [(_ & -> & _)|[_ Hj]]%list_lookup_insert_Some; [done|eauto].
  - destruct Hs as [Hst Hno]. split; [done|]. intros j s recs [(_ & -> & _)|[_ Hj]]%list_lookup_insert_Some; [done|]. by eapply Hno.
Qed.

(** The staged task is the one under the lock. *)
Lemma staged_task st g i s recs :
  staged_ok st g → ga_tasks g !! i = Some (WStaged s recs) →
  ga_lock g = Some i ∧ (∀ k s' recs', ga_tasks g !! k = Some (WStaged s' recs') → k = i) ∧ sa_start s = st (ga_ticket g) ∧
  tail_seq (b_index (ga_topic g)) = st (ga_ticket g) + Z.of_nat (length recs) ∧ staged_in (ga_topic g) s recs.
Proof.
  unfold staged_ok. intros Hs Hi. destruct (ga_lock g) as [k|]; [|destruct Hs as [_ Hs]; by destruct (Hs i s recs)].
  destruct Hs as (s' & recs' & Hk & Hu & Hrest). assert (i = k) as -> by eauto. simplify_eq. done.
Qed.

Lemma staged_in_below b b' s recs bound :
  staged_in b s recs → sa_start s + Z.of_nat (length recs) <= bound →
  (∀ q, q < bound → get (b_index b') q = get (b_index b) q) → staged_in b' s recs.
Proof. intros Hs Hb Hg. eapply staged_in_keep; [done|]. intros q r Hq Hr _. rewrite Hg; [done|lia]. Qed.

Lemma gap_dead_below b b' upto :
  gap_dead b upto → b_head_seq b <= b_head_seq b' → (∀ q, q < upto → get (b_index b') q = get (b_index b) q) → gap_dead b' upto.
Proof. intros Hg Hh Hq q Hlt. unfold live_at. rewrite Hq by lia. apply Hg. lia. Qed.

Lemma stage_ok st cur h0 g i recs :
  gate_ok st cur h0 g → ga_lock g = None → ga_tasks g !! i = Some (WIdle recs) → recs ≠ [] → appendable (ga_topic g) recs →
  gate_ok st cur h0 (gate_stage g i recs).
Proof.
  intros Hok Hl Hi Hne Happ. pose proof Hok as [Htk Hwf Hh Hgap Hp Hs Hd]. unfold staged_ok in Hs. rewrite Hl in Hs.
  destruct Hs as [Htail Hno]. pose proof (starts_mono _ _ _ _ cur (ga_ticket g) Hok ltac:(pose proof (tk_range _ _ Htk); lia) ltac:(lia)).
  unfold gate_stage. pose proof (stage_facts _ recs Hwf Happ Hne) as Hf.
  destruct (stage_append (ga_topic g) recs) as [b' s]. destruct Hf as (Hext & Hin & Hst & Hh' & Ht' & Hsame).
  pose proof (lookup_lt_Some _ _ _ Hi). split; simpl.
  - by eapply tickets_ok_same.
  - apply Hext.
  - lia.
  - eapply gap_dead_below; [done|lia|]. intros q Hq. apply Hsame. lia.
  - eapply pending_ok_step; [done..| |done]. intros k u tk s' recs' _ Hk Hu Hs'.
    destruct (pending_between _ _ _ _ _ _ _ _ _ Hok Hk Hu) as (_ & _ & ? & ?). eapply staged_in_below; [done| |done]. lia.
  - unfold staged_ok. simpl. exists s, recs. rewrite list_lookup_insert_eq by done. split_and!; [done| |lia..|done].
    intros k s' recs' [(-> & _ & _)|[_ Hk]]%list_lookup_insert_Some; [done|]. by apply Hno in Hk.
  - by eapply done_ok_step.
Qed.

Lemma enqueued_ok st cur h0 g i s recs :
  gate_ok st cur h0 g → ga_tasks g !! i = Some (WStaged s recs) →
  gate_ok (λ x, if x =? ga_ticket g + 1 then tail_seq (b_index (ga_topic g)) else st x) cur h0 (gate_enqueued g i s recs).
Proof.
  intros Hok Hi. pose proof Hok as [Htk Hwf Hh Hgap Hp Hs Hd].
  destruct (staged_task _ _ _ _ _ Hs Hi) as (_ & Hu & Hst & Htl & Hin). pose proof (tk_range _ _ Htk).
  assert (Hcur : (cur =? ga_ticket g + 1) = false) by (apply Z.eqb_neq; lia).
  split; simpl; rewrite ?Hcur; [by eapply tickets_ok_enqueued|done..| | |].
  - intros k u tk s' recs' [(<- & <- & _)|[_ Hk]]%list_lookup_insert_Some Hpu.
    + simplify_eq/=. rewrite Z.eqb_refl, (proj2 (Z.eqb_neq _ _)) by lia. done.
    + destruct (pending_between _ _ _ _ _ _ _ _ _ Hok Hk Hpu) as (? & _). destruct (Hp _ _ _ _ _ Hk Hpu) as (? & ? & ?).
      by rewrite !(proj2 (Z.eqb_neq _ _)) by lia.
  - unfold staged_ok. simpl. rewrite Z.eqb_refl. split; [done|].
    intros k s' recs' [(_ & ? & _)|[Hne Hk]]%list_lookup_insert_Some; [done|]. by apply Hu in Hk.
  - eapply done_ok_step; [done| |done..]. split; by auto.
Qed.

Lemma refused_ok st cur h0 g i s recs :
  gate_ok st cur h0 g → ga_tasks g !! i = Some (WStaged s recs) → unpopped g s recs → gate_ok st cur h0 (gate_refused g i s).
Proof.
  intros Hok Hi Hun. pose proof Hok as [Htk Hwf Hh Hgap Hp Hs Hd].
  destruct (staged_task _ _ _ _ _ Hs Hi) as (_ & Hu & Hst & Htl & Hin).
  pose proof (starts_mono _ _ _ _ cur (ga_ticket g) Hok ltac:(pose proof (tk_range _ _ Htk); lia) ltac:(lia)).
  destruct (rollback_facts _ s recs Hwf Hin Hun ltac:(lia)) as (Hext & Hh' & Ht' & Hsame). split; simpl.
  - by eapply tickets_ok_same.
  - apply Hext.
  - lia.
  - eapply gap_dead_below; [done|lia|]. intros q Hq. apply Hsame. lia.
  - eapply pending_ok_step; [done..| |done]. intros k u tk s' recs' _ Hk Hpu Hs'.
    destruct (pending_between _ _ _ _ _ _ _ _ _ Hok Hk Hpu) as (_ & _ & ? & ?). eapply staged_in_below; [done| |done]. lia.
  - unfold staged_ok. simpl. split; [lia|]. intros k s' recs' [(_ & ? & _)|[Hne Hk]]%list_lookup_insert_Some; [done|]. by apply Hu in Hk.
  - by eapply done_ok_step.
Qed.

Lemma token_ok st cur h0 g i s recs tk ok :
  gate_ok st cur h0 g → ga_tasks g !! i = Some (WTicket s recs tk) → gate_ok st cur h0 (gate_token g i s recs tk ok).
Proof.
  intros [Htk Hwf Hh Hgap Hp Hs Hd] Hi. split; simpl; try done.
  - by eapply tickets_ok_same.
  - eapply pending_ok_step; [done..|]. intros ??? [= <- <- <-]. by eapply (Hp i).
  - by eapply staged_ok_step.
  - eapply done_ok_step; [done| |done..]. split; by auto.
Qed.

(** The turn of a writer: the batches that follow are kept. *)
Lemma turn_keeps st cur h0 g i s recs tk ok b' :
  gate_ok st cur h0 g → ga_tasks g !! i = Some (WTurn s recs tk ok) → ga_next g = tk →
  (∀ q, st (cur + 1) <= q → get (b_index b') q = get (b_index (ga_topic g)) q) →
  cur = tk ∧ sa_start s = st cur ∧ st (cur + 1) = st cur + Z.of_nat (length recs) ∧ staged_in (ga_topic g) s recs ∧
  (∀ k u tk' s' recs', k ≠ i → ga_tasks g !! k = Some u → task_pending u = Some (tk', s', recs') →
     staged_in (ga_topic g) s' recs' → staged_in b' s' recs') ∧
  (∀ s' recs', sa_start s' = st (ga_ticket g) → staged_in (ga_topic g) s' recs' → staged_in b' s' recs').
Proof.
  intros Hok Hi <- Hsame. pose proof Hok as [Htk _ _ _ Hp _ _].
  destruct (turn_cur _ _ _ _ Htk Hi eq_refl eq_refl) as [-> Hlt]. destruct (Hp _ _ _ _ _ Hi eq_refl) as (Hst & Hlen & Hin).
  split_and!; [done..| |].
  - intros k u tk' s' recs' Hk Hu Hpu Hs'. destruct (pending_between _ _ _ _ _ _ _ _ _ Hok Hu Hpu) as (Htk' & _).
    destruct (Hp _ _ _ _ _ Hu Hpu) as (Hst' & _). assert (tk' ≠ ga_next g).
    { intros ->. apply Hk. eapply (tk_unique _ _ Htk); [done..| |done]. by destruct u; simplify_eq/=. }
    pose proof (starts_mono _ _ _ _ (ga_next g + 1) tk' Hok ltac:(lia) ltac:(lia)).
    eapply staged_in_keep; [done|]. intros q r Hq Hr _. rewrite Hsame; [done|lia].
  - intros s' recs' Hs' Hin'. pose proof (starts_mono _ _ _ _ (ga_next g + 1) (ga_ticket g) Hok ltac:(lia) ltac:(lia)).
    eapply staged_in_keep; [done|]. intros q r Hq Hr _. rewrite Hsame; [done|lia].
Qed.

Lemma publish_ok st cur h0 g i s recs tk now :
  gate_ok st cur h0 g → ga_tasks g !! i = Some (WTurn s recs tk true) → ga_next g = tk →
  gate_ok st (cur + 1) h0 (gate_publish g i s recs tk now).
Proof.
  intros Hok Hi Hn. pose proof Hok as [Htk Hwf Hh Hgap Hp Hs Hd].
  destruct (turn_keeps st cur h0 g i s recs tk true (ga_topic g) Hok Hi Hn) as (Hc & Hst & Hlen & Hin & _ & _); [done|].
  destruct (publish_facts (ga_topic g) s recs now Hwf Hin ltac:(lia) ltac:(by rewrite Hst)) as (Hext & Hh' & Hix & Hfl).
  destruct (turn_keeps st cur h0 g i s recs tk true (publish_staged_no_seal (ga_topic g) s now).1 Hok Hi Hn) as (_ & _ & _ & _ & Hkp & Hks); [by rewrite Hix|].
  split; simpl; rewrite ?Hh'.
  - rewrite <-Hn. eapply tickets_ok_turn; [done..|by rewrite <-Hn|done].
  - apply Hext.
  - lia.
  - intros q. rewrite Hh'. lia.
  - by eapply pending_ok_step.
  - eapply staged_ok_step; [done..|by rewrite Hix|done].
  - eapply done_ok_publish; try done; [lia|by rewrite Hst].
Qed.

Lemma rollback_ok st cur h0 g i s recs tk ok :
  gate_ok st cur h0 g → ga_tasks g !! i = Some (WTurn s recs tk ok) → ga_next g = tk →
  gate_ok st (cur + 1) h0 (gate_rollback g i s tk).
Proof.
  intros Hok Hi Hn. pose proof Hok as [Htk Hwf Hh Hgap Hp Hs Hd].
  destruct (turn_keeps st cur h0 g i s recs tk ok (ga_topic g) Hok Hi Hn) as (Hc & Hst & Hlen & Hin & _ & _); [done|].
  destruct (rollback_seqs_facts (ga_topic g) s recs Hwf Hin ltac:(lia)) as (Hext & Hh' & Ht' & Hout & Hdead).
  destruct (turn_keeps st cur h0 g i s recs tk ok (rollback_staged_by_seqs (ga_topic g) s) Hok Hi Hn) as (_ & _ & _ & _ & Hkp & Hks).
  { intros q Hq. apply Hout. lia. }
  split; simpl; rewrite ?Hh'.
  - rewrite <-Hn. eapply tickets_ok_turn; [done..|by rewrite <-Hn|done].
  - apply Hext.
  - lia.
  - intros q Hq. rewrite Hh' in Hq. destruct (decide (q < sa_start s)) as [Hlt|]; [|apply Hdead; lia].
    unfold live_at. rewrite Hout by lia. apply Hgap. lia.
  - by eapply pending_ok_step.
  - by eapply staged_ok_step.
  - by eapply done_ok_step.
Qed.

Lemma release_ok st cur h0 g i tk res :
  gate_ok st cur h0 g → ga_tasks g !! i = Some (WRelease tk res) → gate_ok st cur h0 (gate_release g i tk res).
Proof.
  intros [Htk Hwf Hh Hgap Hp Hs Hd] Hi. split; simpl; try done.
  - by eapply tickets_ok_release.
  - eapply pending_ok_step; by eauto.
  - by eapply staged_ok_step.
  - eapply done_ok_step; [done| |done..]. split; by auto.
Qed.

Lemma retain_ok st cur h0 g now : gate_ok st cur h0 g → gate_ok st cur h0 (gate_retain g now).
Proof.
  intros Hok. pose proof Hok as [Htk Hwf Hh Hgap Hp Hs Hd].
  destruct (retain_facts _ now Hwf) as (Hext & Hh' & Ht' & Hkeep & Hdead). unfold gate_retain.
  set (b' := (enforce_retention (ga_topic g) now).1) in *. clearbody b'.
  assert (Hin : ∀ s recs, st cur <= sa_start s → staged_in (ga_topic g) s recs → staged_in b' s recs).
  { intros s recs Hst Hin. eapply staged_in_keep; [done|]. intros q r Hq. apply Hkeep. lia. }
  split; simpl.
  - by destruct Htk.
  - apply Hext.
  - lia.
  - intros q Hq. apply Hdead, Hgap. lia.
  - intros i t tk s recs Hi Ht. destruct (Hp _ _ _ _ _ Hi Ht) as (? & ? & ?).
    destruct (pending_between _ _ _ _ _ _ _ _ _ Hok Hi Ht) as (_ & ? & _). auto.
  - pose proof (starts_mono _ _ _ _ cur (ga_ticket g) Hok ltac:(pose proof (tk_range _ _ Htk); lia) ltac:(lia)).
    unfold staged_ok in *. simpl. rewrite Ht'. destruct (ga_lock g); [|done].
    destruct Hs as (s & recs & ? & ? & Hst & ? & ?). exists s, recs. split_and!; try done. apply Hin; [lia|done].
  - destruct Hd as [Hsh Hv]. split; [intros; eapply shown_extends; eauto|]. intros q r Hq Hg Hdl. rewrite Hh' in Hq.
    apply Hv; [done| |done]. eapply visible_extends; [done|lia|done].
Qed.

Lemma gate_step_ok st cur h0 g g' :
  gate_ok st cur h0 g → gate_step unpopped g g' → ∃ st' cur', gate_ok st' cur' h0 g'.
Proof.
  intros Hok Hst. destruct Hst; eauto using stage_ok, enqueued_ok, refused_ok, token_ok, publish_ok, rollback_ok, release_ok, retain_ok.
Qed.

Lemma gate_init_ok b batches : settled b → gate_ok (λ _, tail_seq (b_index b)) 0 (b_head_seq b) (gate_init b batches).
Proof.
  intros [Hwf Ht Hf]. assert (Hidle : ∀ i t, (WIdle <$> batches) !! i = Some t → ∃ r, t = WIdle r).
  { intros i t Hi. rewrite list_lookup_fmap in Hi. apply fmap_Some in Hi as (r & _ & ->). eauto. }
  split; simpl.
  - split; simpl; [lia|..].
    + intros i t tk [r ->]%Hidle. done.
    + intros i j t t' tk [r ->]%Hidle. done.
    + lia.
  - done.
  - lia.
  - intros q. lia.
  - intros i t tk s recs [r ->]%Hidle. done.
  - unfold staged_ok. simpl. split; [done|]. by intros i s recs [? ?]%Hidle.
  - split; [intros i t s recs [r ->]%Hidle; done|]. intros q r Hq. lia.
Qed.

Lemma gate_run_ok b batches g :
  settled b → rtc (gate_step unpopped) (gate_init b batches) g → ∃ st cur, gate_ok st cur (b_head_seq b) g.
Proof.
  intros Hb Hr. assert (∃ st cur, gate_ok st cur (b_head_seq b) (gate_init b batches)) as Hi.
  { do 2 eexists. by apply gate_init_ok. }
  induction Hr as [|g1 g2 g3 Hst _ IH]; [done|]. apply IH. destruct Hi as (? & ? & ?). by eapply gate_step_ok.
Qed.

(** ** Progress *)

(** How many steps a writer is from its answer. *)
Definition task_work (t : WriteTask) : nat :=
  match t with WStaged _ _ => 4 | WTicket _ _ _ => 3 | WTurn _ _ _ _ => 2 | WRelease _ _ => 1 | WIdle _ | WDone _ => 0 end.
Definition gate_work (tasks : list WriteTask) : nat := foldr (λ t n, task_work t + n)%nat 0%nat tasks.

Lemma gate_work_insert tasks i t t' :
  tasks !! i = Some t → (task_work t' < task_work t)%nat → (gate_work (<[i := t']> tasks) < gate_work tasks)%nat.
Proof.
  revert i. induction tasks as [|u tasks IH]; intros [|i] Hi Hlt; simplify_eq/=; [lia|]. specialize (IH i Hi Hlt). lia.
Qed.

Lemma gate_work_zero tasks : gate_work tasks = 0%nat → Forall (λ t, task_work t = 0%nat) tasks.
Proof. induction tasks as [|t tasks IH]; simpl; intros H; constructor; [lia|apply IH; lia]. Qed.

(** A writer that has started can always move, or waits for one that can: the holder
    of the lock, or of the ticket the gate is at. *)
Lemma gate_moves st cur h0 g i t (now : Z) :
  gate_ok st cur h0 g → ga_tasks g !! i = Some t → task_work t ≠ 0%nat →
  ∃ g', gate_step unpopped g g' ∧ (gate_work (ga_tasks g') < gate_work (ga_tasks g))%nat.
Proof.
  intros Hok Hi Hw. pose proof (go_tickets _ _ _ _ Hok) as Htk.
  destruct (is_staged t) eqn:Hst.
  { destruct t as [|s recs|s recs tk|s recs tk ok|tk res|]; try done. eexists. split; [by eapply gs_enqueued|].
    by eapply gate_work_insert; [done|simpl; lia]. }
  assert (ga_next g < ga_ticket g) as Hlt.
  { assert (∃ tk, task_ticket t = Some tk) as [tk Ht] by (destruct t; simpl in *; try done; eauto).
    destruct (tk_holds _ _ Htk _ _ _ Hi Ht) as [? Hp]. pose proof (tk_range _ _ Htk). destruct (past_turn t); lia. }
  clear i t Hi Hw Hst. destruct (tk_holder _ _ Htk (ga_next g)) as (i & t & Hi & Ht); [lia|].
  destruct t as [|s recs|s recs tk|s recs tk ok|tk res|]; simplify_eq/=.
  - eexists. split; [by eapply (gs_token _ _ _ _ _ _ true)|]. by eapply gate_work_insert; [done|simpl; lia].
  - destruct ok.
    + eexists. split; [by eapply (gs_publish _ _ _ _ _ _ now)|]. by eapply gate_work_insert; [done|simpl; lia].
    + eexists. split; [by eapply gs_rollback|]. by eapply gate_work_insert; [done|simpl; lia].
  - eexists. split; [by eapply gs_release|]. by eapply gate_work_insert; [done|simpl; lia].
Qed.

Lemma gate_drains st cur h0 g (now : Z) :
  gate_ok st cur h0 g →
  ∃ g', rtc (gate_step unpopped) g g' ∧ Forall (λ t, task_work t = 0%nat) (ga_tasks g').
Proof.
  remember (gate_work (ga_tasks g)) as n eqn:Hn. revert st cur g Hn.
  induction n as [n IH] using lt_wf_ind. intros st cur g -> Hok.
  destruct (decide (Forall (λ t, task_work t = 0%nat) (ga_tasks g))) as [|Hno]; [eauto using rtc_refl|].
  apply not_Forall_Exists, Exists_exists in Hno as (t & (i & Hi)%list_elem_of_lookup & Hw); [|apply _].
  destruct (gate_moves _ _ _ _ _ _ now Hok Hi Hw) as (g1 & Hst & Hlt).
  destruct (gate_step_ok _ _ _ _ _ Hok Hst) as (st' & cur' & Hok'). destruct (IH _ Hlt _ _ _ eq_refl Hok') as (g' & ? & ?).
  eauto using rtc_l.
Qed.

(** ** The theorem *)

(** C7.  In every interleaving of the writers of a topic and of readers that enforce
    retention, provided no reader pops the front while a refused batch is staged: the
    topic stays well formed; a visible record that was not there before belongs to a
    batch whose commit and turn have come; every record of a batch that was answered
    is at or below the head, and is visible unless retention has taken it; and the
    writers that have started can all run to their answer. *)
Theorem publish_gate_exact b batches g :
  settled b → rtc (gate_step unpopped) (gate_init b batches) g →
  let b' := ga_topic g in
  topic_wf b' ∧
  (∀ q r, b_head_seq b < q → view b' q = Some r → published_by (ga_tasks g) q r) ∧
  (∀ i s recs j r, ga_tasks g !! i = Some (WDone (Some (s, recs))) → recs !! j = Some r →
     let q := sa_start s + Z.of_nat j in q <= b_head_seq b' ∧ (view b' q = Some r ∨ q < earliest_seq b')) ∧
  ∃ g', rtc (gate_step unpopped) g g' ∧ ∀ i t, ga_tasks g' !! i = Some t → (∃ recs, t = WIdle recs) ∨ ∃ res, t = WDone res.
Proof.
  intros Hb Hr. destruct (gate_run_ok b batches g Hb Hr) as (st & cur & Hok). simpl.
  pose proof (go_wf _ _ _ _ Hok) as Hwf. destruct (go_done _ _ _ _ Hok) as [Hsh Hv]. split_and!; [done|..].
  - intros q r Hq (He & Hg & Hd)%view_Some. apply Hv; [lia|done..].
  - intros i s recs j r Hi Hj. destruct (Hsh _ _ _ _ Hi eq_refl j r Hj) as (Hq & Hd & Hc). split; [done|].
    pose proof (gone_earliest _ _ Hwf Hq) as Hge.
    destruct (decide (sa_start s + Z.of_nat j < earliest_seq (ga_topic g))); [by right|]. left.
    destruct Hc as [Hc|Hc]; [|by apply Hge in Hc]. apply view_Some. split_and!; [lia..|done|done].
  - destruct (gate_drains _ _ _ _ 0 Hok) as (g' & Hrun & Hall). exists g'. split; [done|]. intros i t Hi.
    pose proof (Forall_lookup_1 _ _ _ _ Hall Hi). destruct t; naive_solver.
Qed.
End gate.

(** ** Samples *)
Module GateSamples.
Import TopicLog.Samples.

(** A topic with one old record, and two writers. *)
Definition gate_topic : TopicState unit := (append (sample_new 60 0 0) [sample_rec 0 10 None] 0).1.
Definition batch_a : list (StoredRecord unit) := [sample_rec 50 10 (Some "a"%string)].
Definition batch_b : list (StoredRecord unit) := [sample_rec 90 10 (Some "b"%string); sample_rec 90 10 None].
Definition start : Gate := gate_init gate_topic [batch_a; batch_b].

Lemma gate_topic_settled : settled gate_topic.
Proof.
  apply (exec_op_refines (OpAppend [sample_rec 0 10 None] 0)); [apply topic_new_settled; by vm_compute|].
  split; [|by vm_compute]. repeat constructor; by vm_compute.
Qed.

Lemma batch_b_appendable b :
  (tail_seq (b_index b) <=? 1000) && (total_bytes (records (b_index b)) <=? 1000) = true → appendable b batch_b.
Proof.
  intros [?%Z.leb_le ?%Z.leb_le]%andb_true_iff. split; [repeat constructor; by vm_compute|].
  change (total_bytes batch_b) with 20. change (Z.of_nat (length batch_b)) with 2. unfold u64_max. lia.
Qed.

Lemma batch_a_appendable : appendable gate_topic batch_a.
Proof. split; [repeat constructor; by vm_compute|by vm_compute]. Qed.

(** The first batch's commit fails after the second's has succeeded. *)
Definition staged_a : StagedAppend := mkStaged 2 1 10 1.
Definition staged_b : StagedAppend := mkStaged 3 2 20 2.
Definition both_enqueued : Gate :=
  gate_enqueued (gate_stage (gate_enqueued (gate_stage start 0 batch_a) 0 staged_a batch_a) 1 batch_b) 1 staged_b batch_b.
Definition both_committed : Gate :=
  gate_token (gate_token both_enqueued 1 staged_b batch_b 1 true) 0 staged_a batch_a 0 false.
Definition both_done : Gate :=
  gate_release (gate_publish (gate_release (gate_rollback both_committed 0 staged_a 0) 0 0 None) 1 staged_b batch_b 1 100)
    1 1 (Some (staged_b, batch_b)).

Lemma both_done_reached : rtc (gate_step unpopped) start both_done.
Proof.
  eapply rtc_l; [by apply (gs_stage _ _ 0%nat batch_a); [..|apply batch_a_appendable]|].
  eapply rtc_l; [by apply (gs_enqueued _ _ 0%nat staged_a batch_a)|].
  eapply rtc_l; [apply (gs_stage _ _ 1%nat batch_b); [done..|by apply batch_b_appendable]|].
  eapply rtc_l; [by apply (gs_enqueued _ _ 1%nat staged_b batch_b)|].
  eapply rtc_l; [by apply (gs_token _ _ 1%nat staged_b batch_b 1 true)|].
  eapply rtc_l; [by apply (gs_token _ _ 0%nat staged_a batch_a 0 false)|].
  eapply rtc_l; [by apply (gs_rollback _ _ 0%nat staged_a batch_a 0 false)|].
  eapply rtc_l; [by apply (gs_release _ _ 0%nat 0 None)|].
  eapply rtc_l; [by apply (gs_publish _ _ 1%nat staged_b batch_b 1 100)|].
  eapply rtc_l; [by apply (gs_release _ _ 1%nat 1 (Some (staged_b, batch_b)))|]. apply rtc_refl.
Qed.

Lemma publish_gate_exact_witness :
  let b' := ga_topic both_done in
  topic_wf b' ∧ (∀ q r, 1 < q → view b' q = Some r → published_by (ga_tasks both_done) q r) ∧
  view b' 2 = None ∧ view b' 3 = batch_b !! 0%nat ∧ view b' 4 = batch_b !! 1%nat.
Proof.
  destruct (publish_gate_exact gate_topic [batch_a; batch_b] both_done gate_topic_settled both_done_reached) as (Hwf & Hv & _).
  split; [done|]. split; [exact Hv|]. by split_and!; vm_compute.
Defined.

(** A reader drops the expired front while the first batch is staged; the WAL refuses
    the batch, whose writer gets an error; and the roll-back, which pops down to the
    length of the deque before the batch, leaves it.  The next batch that is published
    makes it visible. *)
Definition refused_run : Gate :=
  let g := gate_refused (gate_retain (gate_stage start 0 batch_a) 100) 0 staged_a in
  let s := mkStaged 3 2 20 1 in
  gate_release (gate_publish (gate_token (gate_enqueued (gate_stage g 1 batch_b) 1 s batch_b) 1 s batch_b 0 true) 1 s batch_b 0 100)
    1 0 (Some (s, batch_b)).

Example refused_batch_appears :
  rtc (gate_step (λ _ _ _, True)) start refused_run ∧
  ga_tasks refused_run !! 0%nat = Some (WDone None) ∧ view (ga_topic refused_run) 2 = batch_a !! 0%nat.
Proof.
  split; [|by vm_compute]. set (s := mkStaged 3 2 20 1).
  eapply rtc_l; [by apply (gs_stage _ _ 0%nat batch_a); [..|apply batch_a_appendable]|].
  eapply rtc_l; [by apply (gs_retain _ _ 100)|].
  eapply rtc_l; [by apply (gs_refused _ _ 0%nat staged_a batch_a)|].
  eapply rtc_l; [apply (gs_stage _ _ 1%nat batch_b); [done..|by apply batch_b_appendable]|].
  eapply rtc_l; [by apply (gs_enqueued _ _ 1%nat s batch_b)|].
  eapply rtc_l; [by apply (gs_token _ _ 1%nat s batch_b 0 true)|].
  eapply rtc_l; [by apply (gs_publish _ _ 1%nat s batch_b 0 100)|].
  eapply rtc_l; [by apply (gs_release _ _ 1%nat 0 (Some (s, batch_b)))|]. apply rtc_refl.
Qed.
End GateSamples.
