(* ===== verification/Diff.v ===== *)
(** * Reading from a cursor

    Models the part of [Engine::diff] ([src/engine/mod.rs]) that runs on one
    topic after retention: the clamping of the request, the tombstone that
    reports an involuntary gap or a recreated topic, and the bounded walk over the
    index.  [diff_shared_frames] selects records with the same walk.

    [diff_exact]: what a page returns.  [diff_pages_complete]: following
    [next_from_seq] until [caught_up] delivers every deliverable record once, in
    order. *)

From stdpp Require Import base gmap list strings sorting list_numbers.
From S2P Require Import Prelude Types Eviction TopicIndex QueueProjection TopicState TopicLog.

Definition DEFAULT_LIMIT : Z := 256.
Definition MAX_LIMIT : Z := 1000.
Definition DEFAULT_MAX_BATCH_BYTES : Z := Z.shiftl 1 20.
Definition MAX_BATCH_BYTES : Z := Z.shiftl 8 20.

Record DiffRequest := mkDiffRequest {
  dr_from_seq : Z;
  dr_limit : Z;
  dr_node : option NodeFilter;
  dr_include_tags : bool;
  dr_include_meta : bool;
  dr_max_batch_bytes : Z
}.

Record RecordOut (V : Type) := mkOut {
  ro_seq : Z;
  ro_ts : Z;
  ro_node : option string;
  ro_tag : option string;
  ro_data : V;
  ro_meta : option V
}.
Arguments mkOut {V}.
Arguments ro_seq {V}.
Arguments ro_ts {V}.
Arguments ro_node {V}.
Arguments ro_tag {V}.
Arguments ro_data {V}.
Arguments ro_meta {V}.

Record DiffResponse (V : Type) := mkDiff {
  df_records : list (RecordOut V);
  df_next_from_seq : Z;
  df_head_seq : Z;
  df_earliest_seq : Z;
  df_caught_up : bool;
  df_tombstone : option Tombstone;
  df_lag : Z
}.
Arguments mkDiff {V}.
Arguments df_records {V}.
Arguments df_next_from_seq {V}.
Arguments df_head_seq {V}.
Arguments df_earliest_seq {V}.
Arguments df_caught_up {V}.
Arguments df_tombstone {V}.
Arguments df_lag {V}.

(** The local variables of the walk: records collected, the cursor after the last
    slot passed, and the bytes collected. *)
Record Walk (V : Type) := mkWalk {
  w_records : list (RecordOut V);
  w_next : Z;
  w_bytes : Z
}.
Arguments mkWalk {V}.
Arguments w_records {V}.
Arguments w_next {V}.
Arguments w_bytes {V}.

Section diff.
Context {V : Type} `{!JsonNull V}.
Implicit Types (b : TopicState V) (ix : TopicIndex V) (r : StoredRecord V) (req : DiffRequest).

(** The clamped record limit and byte budget. *)
Definition diff_limit req : Z :=
  if dr_limit req =? 0 then DEFAULT_LIMIT else Z.min (dr_limit req) MAX_LIMIT.
Definition diff_budget req : Z :=
  if dr_max_batch_bytes req =? 0 then DEFAULT_MAX_BATCH_BYTES
  else Z.min (dr_max_batch_bytes req) MAX_BATCH_BYTES.

(** The tombstone, and the cursor the walk starts from. *)
Definition diff_start b req : option Tombstone * Z :=
  let head := b_head_seq b in
  let earliest := earliest_seq b in
  let evict_earliest := evict_earliest_seq b in
  let from_seq := dr_from_seq req in
  if head <? from_seq then
    (Some (mkTombstone (b_seq_base b) head Recreated ((head -s b_seq_base b) +s 1) earliest head),
     earliest -s 1)
  else if from_seq +s 1 <? evict_earliest then
    (Some (build_tombstone from_seq evict_earliest head
             (reason_for_gap (b_floors b) (from_seq +s 1))),
     Z.max (earliest -s 1) from_seq)
  else (None, from_seq).

Definition diff_node_filter b req : option NodeFilter :=
  if cfg_dedupe_node (b_config b) then dr_node req else None.

Definition diff_delivers b (now : Z) req r : bool :=
  bool_decide (evaluate (diff_node_filter b req) (cfg_ttl_ms (b_config b)) now (r_ts r) (r_deleted r)
                 (r_node r) = Deliver).

Definition record_out req (seq : Z) r : RecordOut V :=
  mkOut seq (r_ts r) (r_node r) (if dr_include_tags req then r_tag r else None) (r_data r)
    (if dr_include_meta req then r_meta r else None).

(** The walk of [diff] over the seqs after the cursor. *)
Fixpoint diff_walk b (now : Z) req (seqs : list Z) (w : Walk V) : Walk V :=
  match seqs with
  | [] => w
  | seq :: seqs =>
      if diff_limit req <=? Z.of_nat (length (w_records w)) then w
      else
        match get (b_index b) seq with
        | None => diff_walk b now req seqs (mkWalk (w_records w) seq (w_bytes w))
        | Some r =>
            if diff_delivers b now req r then
              if negb (bool_decide (w_records w = [])) && (diff_budget req <? w_bytes w +s r_bytes r)
              then w
              else diff_walk b now req seqs
                     (mkWalk (w_records w ++ [record_out req seq r]) seq (w_bytes w +s r_bytes r))
            else diff_walk b now req seqs (mkWalk (w_records w) seq (w_bytes w))
        end
  end.

(** [Engine::diff] on a topic whose retention is up to date. *)
Definition diff_read b (now : Z) req : DiffResponse V :=
  let head := b_head_seq b in
  let '(tombstone, cursor) := diff_start b req in
  let first := cursor +s 1 in
  let w := diff_walk b now req (seqZ first (head + 1 - first)) (mkWalk [] cursor 0) in
  mkDiff (w_records w) (w_next w) head (earliest_seq b) (w_next w =? head) tombstone
    (head -s w_next w).

(** ** What a page holds *)

(** What the walk delivers of a seq. *)
Definition slot_out b (now : Z) req (seq : Z) : option (RecordOut V) :=
  match get (b_index b) seq with
  | Some r => if diff_delivers b now req r then Some (record_out req seq r) else None
  | None => None
  end.

(** Why a walk stops early. *)
Definition walk_full b req (w : Walk V) (seq : Z) : Prop :=
  diff_limit req <= Z.of_nat (length (w_records w)) ∨
  w_records w ≠ [] ∧ ∃ r, get (b_index b) seq = Some r ∧ diff_budget req < w_bytes w +s r_bytes r.

(** The walk passes a prefix of the seqs and delivers what it should of each. *)
Lemma diff_walk_spec b now req seqs w :
  ∃ n w', diff_walk b now req seqs w = w' ∧ (n <= length seqs)%nat ∧
    w_records w' = w_records w ++ omap (slot_out b now req) (take n seqs) ∧
    w_next w' = default (w_next w) (last (take n seqs)) ∧
    (∀ seq, seqs !! n = Some seq → walk_full b req w' seq) ∧
    (Z.of_nat (length (w_records w)) <= diff_limit req →
     Z.of_nat (length (w_records w')) <= diff_limit req).
Proof.
  revert w. induction seqs as [|seq seqs IH]; intros w; simpl.
  { exists 0%nat, w. rewrite app_nil_r. by split_and!. }
  destruct (Z.leb_spec (diff_limit req) (Z.of_nat (length (w_records w)))) as [Hl|Hl].
  { exists 0%nat, w. simpl. rewrite app_nil_r. split_and!; try done; [lia|]. by left. }
  assert (Hstep : ∀ w1, w_next w1 = seq →
    w_records w1 = w_records w ++ option_list (slot_out b now req seq) →
    ∃ n w', diff_walk b now req seqs w1 = w' ∧ (n <= S (length seqs))%nat ∧
      w_records w' = w_records w ++ omap (slot_out b now req) (take n (seq :: seqs)) ∧
      w_next w' = default (w_next w) (last (take n (seq :: seqs))) ∧
      (∀ s, (seq :: seqs) !! n = Some s → walk_full b req w' s) ∧
      (Z.of_nat (length (w_records w)) <= diff_limit req →
       Z.of_nat (length (w_records w')) <= diff_limit req)).
  { intros w1 Hnext Hrecs. destruct (IH w1) as (n & w' & Hw & Hn & Hr & Hx & Hf & Hlim).
    exists (S n), w'. split_and!; try done; [lia|..].
    - rewrite Hr, Hrecs, <-app_assoc. simpl. by destruct (slot_out b now req seq).
    - rewrite Hx, Hnext. simpl. destruct (take n seqs) as [|x l]; [done|].
      rewrite (last_cons seq (x :: l)). by destruct (last (x :: l)).
    - intros _. apply Hlim. rewrite Hrecs, length_app. destruct (slot_out b now req seq); simpl; lia. }
  unfold slot_out in Hstep at 1.
  destruct (get (b_index b) seq) as [r|] eqn:Hg; [|apply Hstep; [done|by rewrite app_nil_r]].
  destruct (diff_delivers b now req r) eqn:Hd; [|apply Hstep; [done|by rewrite app_nil_r]].
  case_bool_decide as Hnil; simpl; [by apply Hstep|].
  destruct (Z.ltb_spec (diff_budget req) (w_bytes w +s r_bytes r)); [|by apply Hstep].
  exists 0%nat, w. simpl. rewrite app_nil_r. split_and!; try done; [lia|].
  intros s [= <-]. right. eauto.
Qed.

(** The cursor a page starts from. *)
Lemma diff_start_cursor b req :
  settled b → 0 <= dr_from_seq req ->
  let c := (diff_start b req).2 in
  0 <= c <= b_head_seq b ∧ evict_earliest_seq b <= c + 1 ∧
  (dr_from_seq req <= b_head_seq b → dr_from_seq req <= c) ∧
  (∀ s r, view b s = Some r → dr_from_seq req < s ∨ b_head_seq b < dr_from_seq req → c < s).
Proof.
  intros [Hwf Htail Hfl] Hfrom. pose proof Hwf as [_ Hsb Hlo Hhi _ _ _ Hfu _].
  assert (He : b_seq_base b <= earliest_seq b <= b_head_seq b + 1).
  { unfold earliest_seq. rewrite (sat_add_exact (b_head_seq b)) by lia.
    pose proof (earliest_seq_bounds (b_floors b) (b_seq_base b) (b_head_seq b)
      ltac:(lia) ltac:(lia)). lia. }
  assert (Hv : evict_earliest_seq b <= earliest_seq b).
  { unfold evict_earliest_seq. pose proof (evict_earliest_le (b_floors b) (b_seq_base b) (b_head_seq b)).
    unfold earliest_seq. rewrite (sat_add_exact (b_head_seq b)) by lia.
    pose proof (earliest_seq_bounds (b_floors b) (b_seq_base b) (b_head_seq b)
      ltac:(lia) ltac:(lia)). lia. }
  assert (Hvis : ∀ s r, view b s = Some r → earliest_seq b <= s).
  { intros s r Hs. apply view_Some in Hs. lia. }
  unfold diff_start. rewrite (sat_sub_exact (earliest_seq b)) by lia.
  destruct (Z.ltb_spec (b_head_seq b) (dr_from_seq req)) as [Hf|Hf]; simpl.
  { split_and!; try lia. intros s r Hs _. apply Hvis in Hs. lia. }
  rewrite sat_add_exact by lia.
  destruct (Z.ltb_spec (dr_from_seq req + 1) (evict_earliest_seq b)); simpl; split_and!; try lia.
  intros s r Hs [?|?]; [|lia]. apply Hvis in Hs. lia.
Qed.

Lemma take_seqZ (n : nat) a k : Z.of_nat n <= k → take n (seqZ a k) = seqZ a (Z.of_nat n).
Proof.
  intros Hn. apply list_eq. intros i. apply option_eq. intros x.
  rewrite lookup_take_Some, !lookup_seqZ. lia.
Qed.

Lemma last_seqZ_eq a n : last (seqZ a n) = if n <=? 0 then None else Some (a + n - 1).
Proof.
  rewrite last_lookup, length_seqZ. destruct (Z.leb_spec n 0).
  - rewrite seqZ_nil by lia. done.
  - apply lookup_seqZ. lia.
Qed.

(** A page starting at cursor [c]: its records, where it ends and why. *)
Lemma diff_read_spec b now req :
  settled b → 0 <= dr_from_seq req → 0 <= dr_limit req →
  let d := diff_read b now req in
  let c := (diff_start b req).2 in
  c <= df_next_from_seq d <= b_head_seq b ∧
  df_records d = omap (slot_out b now req) (seqZ (c + 1) (df_next_from_seq d - c)) ∧
  Z.of_nat (length (df_records d)) <= diff_limit req ∧
  (df_next_from_seq d < b_head_seq b → c < df_next_from_seq d).
Proof.
  intros Hst Hfrom Hlim. destruct (diff_start_cursor b req Hst Hfrom) as (Hc & _).
  pose proof (tw_head_hi _ (st_wf _ Hst)).
  assert (Hl : 0 < diff_limit req).
  { unfold diff_limit, DEFAULT_LIMIT, MAX_LIMIT. destruct (Z.eqb_spec (dr_limit req) 0); lia. }
  unfold diff_read. destruct (diff_start b req) as [tomb c]. simpl in *.
  rewrite sat_add_exact by lia.
  destruct (diff_walk_spec b now req (seqZ (c + 1) (b_head_seq b + 1 - (c + 1))) (mkWalk [] c 0))
    as (n & w' & -> & Hn & Hr & Hx & Hf & Hlen). rewrite length_seqZ in Hn. simpl in *.
  rewrite take_seqZ in Hr, Hx by lia. rewrite last_seqZ_eq in Hx.
  assert (Hnext : w_next w' = c + Z.of_nat n).
  { rewrite Hx. destruct (Z.leb_spec (Z.of_nat n) 0); simpl; lia. }
  split_and!; [lia|lia|rewrite Hr; f_equal; f_equal; lia|lia|].
  intros Hlt. rewrite Hnext. destruct n as [|n]; [|lia].
  destruct (Hf (c + 1)) as [?|[[] _]].
  - apply lookup_seqZ. lia.
  - rewrite Hr in *. simpl in *. lia.
  - done.
Qed.

(** ** Following the cursor *)

(** A client that repeats the request from [next_from_seq] until it has caught
    up, with the records it received. *)
Fixpoint read_pages (fuel : nat) b (now : Z) req : list (RecordOut V) * bool :=
  let d := diff_read b now req in
  if df_caught_up d then (df_records d, true)
  else match fuel with
       | O => (df_records d, false)
       | S fuel =>
           let '(rs, done) := read_pages fuel b now
             (mkDiffRequest (df_next_from_seq d) (dr_limit req) (dr_node req) (dr_include_tags req)
                (dr_include_meta req) (dr_max_batch_bytes req)) in
           (df_records d ++ rs, done)
       end.

(** The request for the next page. *)
Definition next_request b (now : Z) req : DiffRequest :=
  mkDiffRequest (df_next_from_seq (diff_read b now req)) (dr_limit req) (dr_node req)
    (dr_include_tags req) (dr_include_meta req) (dr_max_batch_bytes req).

Lemma next_page_start b now req :
  settled b → 0 <= dr_from_seq req → 0 <= dr_limit req →
  (diff_start b (next_request b now req)).2 = df_next_from_seq (diff_read b now req).
Proof.
  intros Hst Hfrom Hlim. destruct (diff_start_cursor b req Hst Hfrom) as (Hc & Hev & _).
  destruct (diff_read_spec b now req Hst Hfrom Hlim) as (Hn & _).
  pose proof (tw_head_hi _ (st_wf _ Hst)).
  unfold diff_start at 1. simpl. rewrite (proj2 (Z.ltb_ge _ _)) by lia.
  rewrite sat_add_exact by lia. by rewrite (proj2 (Z.ltb_ge _ _)) by lia.
Qed.

Lemma diff_caught_up b now req :
  df_caught_up (diff_read b now req) = (df_next_from_seq (diff_read b now req) =? b_head_seq b).
Proof. unfold diff_read. by destruct (diff_start b req). Qed.

Lemma read_pages_spec fuel b now req :
  settled b → 0 <= dr_from_seq req → 0 <= dr_limit req →
  let c := (diff_start b req).2 in
  b_head_seq b - c <= Z.of_nat fuel →
  read_pages fuel b now req = (omap (slot_out b now req) (seqZ (c + 1) (b_head_seq b - c)), true).
Proof.
  revert req. induction fuel as [|fuel IH]; intros req Hst Hfrom Hlim c Hfuel;
    destruct (diff_read_spec b now req Hst Hfrom Hlim) as (Hn & Hr & _ & Hp); fold c in Hn, Hr, Hp;
    cbn [read_pages]; rewrite diff_caught_up;
    destruct (Z.eqb_spec (df_next_from_seq (diff_read b now req)) (b_head_seq b)) as [He|Hne];
    try (by rewrite Hr, He); [lia|].
  destruct (diff_start_cursor b req Hst Hfrom) as (Hc & _). fold c in Hc.
  pose proof (next_page_start b now req Hst Hfrom Hlim) as Hnx.
  change (mkDiffRequest _ _ _ _ _ _) with (next_request b now req).
  rewrite (IH (next_request b now req) Hst); [|simpl; lia|done|rewrite Hnx; lia].
  rewrite Hnx, Hr. change (slot_out b now (next_request b now req)) with (slot_out b now req).
  f_equal. rewrite <-omap_app. f_equal.
  replace (b_head_seq b - c) with ((df_next_from_seq (diff_read b now req) - c) +
    (b_head_seq b - df_next_from_seq (diff_read b now req))) by lia.
  rewrite seqZ_app by lia. f_equal. f_equal; lia.
Qed.

(** ** Theorems *)

(** C11. One page of [diff] on a settled topic: it holds exactly the deliverable
    slots between the cursor it starts from and [next_from_seq], in seq order, at
    most [limit] of them; the starting cursor never skips a visible record after
    [from_seq] (nor any visible record when [from_seq] lies beyond the head);
    and a page that does not reach the head makes progress. *)
Theorem diff_exact b now req :
  settled b → 0 <= dr_from_seq req → 0 <= dr_limit req →
  let d := diff_read b now req in
  let c := (diff_start b req).2 in
  df_records d = omap (slot_out b now req) (seqZ (c + 1) (df_next_from_seq d - c)) ∧
  Z.of_nat (length (df_records d)) <= diff_limit req ∧
  df_caught_up d = (df_next_from_seq d =? b_head_seq b) ∧
  (df_next_from_seq d < b_head_seq b → dr_from_seq req < df_next_from_seq d ∨ b_head_seq b < dr_from_seq req) ∧
  (∀ s r, view b s = Some r → diff_delivers b now req r = true →
     dr_from_seq req < s ∨ b_head_seq b < dr_from_seq req → s <= df_next_from_seq d →
     record_out req s r ∈ df_records d).
Proof.
  intros Hst Hfrom Hlim d c. destruct (diff_start_cursor b req Hst Hfrom) as (Hc & _ & Hle & Hvis).
  destruct (diff_read_spec b now req Hst Hfrom Hlim) as (Hn & Hr & Hlen & Hp).
  split_and!; [done|done|apply diff_caught_up| |].
  - intros Hlt. specialize (Hp Hlt). fold c d in Hp, Hle |- *. lia.
  - intros s r Hv Hd Hs Hsn. unfold d. rewrite Hr. apply list_elem_of_omap. exists s. split.
    + apply elem_of_seqZ. specialize (Hvis s r Hv Hs). fold c d in Hvis |- *. lia.
    + apply view_Some in Hv as (_ & Hg & _). unfold slot_out. by rewrite Hg, Hd.
Qed.

(** C12. Paging is complete: a client that follows [next_from_seq] from any
    cursor reaches the head after at most one page per seq, and has then received
    every deliverable slot after its starting cursor once, in seq order, whatever
    the limit and the byte budget. *)
Theorem diff_pages_complete b now req :
  settled b → 0 <= dr_from_seq req → 0 <= dr_limit req →
  let c := (diff_start b req).2 in
  read_pages (Z.to_nat (b_head_seq b - c)) b now req =
    (omap (slot_out b now req) (seqZ (c + 1) (b_head_seq b - c)), true).
Proof.
  intros Hst Hfrom Hlim c. destruct (diff_start_cursor b req Hst Hfrom) as (Hc & _).
  apply read_pages_spec; [done..|]. fold c in Hc |- *. lia.
Qed.
End diff.

Module DiffSamples.
Import Samples.

(** Ten records of which the odd-tagged ones are deleted, read three at a time. *)
Definition page_topic : TopicState unit :=
  exec_op (OpDelete None (Some (mkFilter FilterOp.Eq "odd")) None 5) (sample_topic 0 0 0 10).

Definition page_request (from limit : Z) : DiffRequest := mkDiffRequest from limit None true true 0.

Lemma page_topic_settled : settled page_topic.
Proof. apply exec_op_refines; [apply sample_topic_settled|done]. Qed.

Lemma diff_exact_witness :
  ro_seq <$> df_records (diff_read page_topic 5 (page_request 2 3)) = [3; 5; 7] ∧
  2 < df_next_from_seq (diff_read page_topic 5 (page_request 2 3)).
Proof.
  destruct (diff_exact page_topic 5 (page_request 2 3) page_topic_settled) as (_ & _ & _ & Hp & _);
    [by vm_compute..|].
  split; [by vm_compute|]. destruct Hp as [Hp|Hp]; [by vm_compute|exact Hp|by vm_compute in Hp].
Defined.

Lemma diff_pages_complete_witness :
  ro_seq <$> (read_pages 8 page_topic 5 (page_request 2 3)).1 = [3; 5; 7; 9] ∧
  (read_pages 8 page_topic 5 (page_request 2 3)).2 = true.
Proof.
  pose proof (diff_pages_complete page_topic 5 (page_request 2 3) page_topic_settled
    ltac:(by vm_compute) ltac:(by vm_compute)) as H.
  change (Z.to_nat _) with 8%nat in H. rewrite H. split; [by vm_compute|done].
Defined.
End DiffSamples.
