(* ===== verification/Broadcast.v ===== *)
(** * Shared frames

    Models the frame cache of [src/engine/broadcast.rs] and
    [Engine::diff_shared_frames] of [src/engine/mod.rs]: a stream reads a page with
    the walk of [diff], but takes the serialized form of each record from a bounded
    ring that all watchers of the topic share.  serde_json is a parameter: the
    serialized form of a record, with or without its data.

    [shared_frames_exact]: over any sequence of topic operations and shared reads
    a page is exactly the serialized page of [diff], and the ring stays bounded. *)

From stdpp Require Import base gmap list strings sorting list_numbers.
From S2P Require Import Prelude Types Eviction TopicIndex QueueProjection TopicState TopicLog Diff.

Definition RING_CAP : nat := Z.to_nat 1024.
Definition N_VARIANTS : nat := 8.

(** [FrameVariant] *)
Record FrameVariant := mkVariant {
  fv_include_data : bool;
  fv_bits : Z
}.
Definition frame_variant_new (include_data include_tags include_meta : bool) : FrameVariant :=
  mkVariant include_data
    (Z.lor (Z.lor (Z.b2z include_data) (Z.shiftl (Z.b2z include_tags) 1)) (Z.shiftl (Z.b2z include_meta) 2)).
Definition fv_idx (v : FrameVariant) : nat := Z.to_nat (fv_bits v).

(** [CacheState]: the seqs in eviction order, and eight variants for each seq. *)
Record CacheState (R : Type) := mkCache {
  ca_order : list Z;
  ca_frames : gmap Z (list (option R))
}.
Arguments mkCache {R}.
Arguments ca_order {R}.
Arguments ca_frames {R}.

(** [VecDeque::insert] *)
Definition insert_at {A} (i : nat) (x : A) (l : list A) : list A := take i l ++ x :: drop i l.

(** [SharedFrameDiff] *)
Record SharedFrameDiff (R : Type) := mkShared {
  sf_records : list R;
  sf_next_from_seq : Z;
  sf_head_seq : Z;
  sf_caught_up : bool;
  sf_tombstone : option Tombstone
}.
Arguments mkShared {R}.
Arguments sf_records {R}.
Arguments sf_next_from_seq {R}.
Arguments sf_head_seq {R}.
Arguments sf_caught_up {R}.
Arguments sf_tombstone {R}.

(** The local variables of the walk of [diff_shared_frames]. *)
Record SeqWalk := mkSeqWalk {
  sw_seqs : list Z;
  sw_next : Z;
  sw_bytes : Z
}.

Section broadcast.
Context {V R : Type} `{!JsonNull V} (serialize_frame : RecordOut V → bool → R).
Implicit Types (b : TopicState V) (r : StoredRecord V) (c : CacheState R) (v : FrameVariant).

Definition cache_new : CacheState R := mkCache [] ∅.

(** [BroadcastCache::get] and [get_many] *)
Definition cache_get c (seq : Z) v : option R :=
  match ca_frames c !! seq with
  | Some variants => match variants !! fv_idx v with Some fr => fr | None => None end
  | None => None
  end.
Definition get_many c (seqs : list Z) v : list (option R) := (λ seq, cache_get c seq v) <$> seqs.

(** The eviction loop: from the front while the ring is over its capacity. *)
Fixpoint ring_trim (order : list Z) (frames : gmap Z (list (option R))) : list Z * gmap Z (list (option R)) :=
  match order with
  | old :: rest =>
      if (RING_CAP <? length order)%nat then ring_trim rest (delete old frames) else (order, frames)
  | [] => (order, frames)
  end.

(** The place of a new seq in the eviction order. *)
Definition ring_place (order : list Z) (seq : Z) : list Z :=
  match last order with
  | Some l => if l <? seq then order ++ [seq] else insert_at (partition_point (λ x, x <? seq) order) seq order
  | None => order ++ [seq]
  end.

(** [BroadcastCache::insert_serialized] *)
Definition insert_serialized c (seq : Z) v (arc : R) : CacheState R * R :=
  match ca_frames c !! seq with
  | Some variants =>
      match variants !! fv_idx v with
      | Some (Some existing) => (c, existing)
      | _ => (mkCache (ca_order c) (<[seq := <[fv_idx v := Some arc]> variants]> (ca_frames c)), arc)
      end
  | None =>
      let variants := <[fv_idx v := Some arc]> (replicate N_VARIANTS None) in
      let '(order, frames) := ring_trim (ring_place (ca_order c) seq) (<[seq := variants]> (ca_frames c)) in
      (mkCache order frames, arc)
  end.

(** [BroadcastCache::frame] *)
Definition cache_frame c (seq : Z) (rec : RecordOut V) v : CacheState R * R :=
  match cache_get c seq v with
  | Some arc => (c, arc)
  | None => insert_serialized c seq v (serialize_frame rec (fv_include_data v))
  end.

(** The walk: the seqs of the page. *)
Fixpoint shared_walk b (now : Z) (req : DiffRequest) (seqs : list Z) (w : SeqWalk) : SeqWalk :=
  match seqs with
  | [] => w
  | seq :: seqs =>
      if diff_limit req <=? Z.of_nat (length (sw_seqs w)) then w
      else
        match get (b_index b) seq with
        | None => shared_walk b now req seqs (mkSeqWalk (sw_seqs w) seq (sw_bytes w))
        | Some r =>
            if diff_delivers b now req r then
              if negb (bool_decide (sw_seqs w = [])) && (diff_budget req <? sw_bytes w +s r_bytes r)
              then w
              else shared_walk b now req seqs
                     (mkSeqWalk (sw_seqs w ++ [seq]) seq (sw_bytes w +s r_bytes r))
            else shared_walk b now req seqs (mkSeqWalk (sw_seqs w) seq (sw_bytes w))
        end
  end.

(** The misses are projected, serialized and published in order; a hit is kept. *)
Fixpoint fill_frames b (now : Z) (req : DiffRequest) v (seqs : list Z) (frames : list (option R)) c :
    CacheState R * list (option R) :=
  match seqs, frames with
  | seq :: seqs, Some fr :: frames =>
      let '(c, rest) := fill_frames b now req v seqs frames c in (c, Some fr :: rest)
  | seq :: seqs, None :: frames =>
      match get (b_index b) seq with
      | Some r =>
          if diff_delivers b now req r then
            let '(c, fr) := cache_frame c seq (record_out req seq r) v in
            let '(c, rest) := fill_frames b now req v seqs frames c in (c, Some fr :: rest)
          else let '(c, rest) := fill_frames b now req v seqs frames c in (c, None :: rest)
      | None => let '(c, rest) := fill_frames b now req v seqs frames c in (c, None :: rest)
      end
  | _, _ => (c, frames)
  end.

(** [Engine::diff_shared_frames] on a topic whose retention is up to date. *)
Definition diff_shared_frames b (now : Z) (req : DiffRequest) v c : CacheState R * SharedFrameDiff R :=
  let head := b_head_seq b in
  let '(tombstone, cursor) := diff_start b req in
  let first := cursor +s 1 in
  let w := shared_walk b now req (seqZ first (head + 1 - first)) (mkSeqWalk [] cursor 0) in
  let frames := get_many c (sw_seqs w) v in
  let '(c, frames) := fill_frames b now req v (sw_seqs w) frames c in
  (c, mkShared (omap id frames) (sw_next w) head (sw_next w =? head) tombstone).

(** ** The ring *)

(** Sorted without duplicates, bounded, with the same seqs as the map. *)
Record ring_ok c : Prop := {
  ri_sorted : StronglySorted Z.lt (ca_order c);
  ri_bound : (length (ca_order c) <= RING_CAP)%nat;
  ri_keys : ∀ s, s ∈ ca_order c ↔ is_Some (ca_frames c !! s);
  ri_variants : ∀ s vs, ca_frames c !! s = Some vs → length vs = N_VARIANTS
}.

(** The projection of a record for a pair of flags. *)
Definition project (include_tags include_meta : bool) (seq : Z) r : RecordOut V :=
  mkOut seq (r_ts r) (r_node r) (if include_tags then r_tag r else None) (r_data r)
    (if include_meta then r_meta r else None).

(** Every cached frame of a live slot is the serialized form of that slot, and
    nothing is cached beyond the head. *)
Record coherent b c : Prop := {
  ch_frame : ∀ seq d t m fr r,
    cache_get c seq (frame_variant_new d t m) = Some fr → get (b_index b) seq = Some r →
    r_deleted r = false → fr = serialize_frame (project t m seq r) d;
  ch_head : ∀ seq, is_Some (ca_frames c !! seq) → seq <= b_head_seq b
}.

Lemma fv_idx_bound d t m : (fv_idx (frame_variant_new d t m) < N_VARIANTS)%nat.
Proof. destruct d, t, m; apply Nat.ltb_lt; by vm_compute. Qed.

Lemma fv_idx_inj d t m d' t' m' :
  fv_idx (frame_variant_new d t m) = fv_idx (frame_variant_new d' t' m') → d = d' ∧ t = t' ∧ m = m'.
Proof. destruct d, t, m, d', t', m'; intros H; vm_compute in H; done. Qed.

Lemma ring_trim_spec order frames :
  StronglySorted Z.lt order → (∀ s, s ∈ order ↔ is_Some (frames !! s)) →
  let '(order', frames') := ring_trim order frames in
  StronglySorted Z.lt order' ∧ (length order' <= RING_CAP)%nat ∧
  (∀ s, s ∈ order' ↔ is_Some (frames' !! s)) ∧ frames' ⊆ frames.
Proof.
  revert frames. induction order as [|x order IH]; intros frames Hs Hk; cbn [ring_trim].
  { split_and!; [done|apply Nat.le_0_l|done..]. }
  destruct (Nat.ltb_spec RING_CAP (length (x :: order))) as [Hl|Hl]; [|done].
  apply StronglySorted_inv in Hs as [Hs Hx].
  assert (Hnx : x ∉ order).
  { intros Hin. pose proof (proj1 (Forall_forall _ _) Hx _ Hin). simpl in *. lia. }
  specialize (IH (delete x frames) Hs). destruct (ring_trim order (delete x frames)) as [order' frames'].
  destruct IH as (H1 & H2 & H3 & H4).
  - intros s. destruct (decide (s = x)) as [->|Hne].
    + rewrite lookup_delete_eq. split; [done|]. intros [? ?]. done.
    + rewrite lookup_delete_ne by done. rewrite <-Hk. set_solver.
  - split_and!; try done. etrans; [done|]. apply delete_subseteq.
Qed.

Lemma partition_point_split (order : list Z) seq :
  StronglySorted Z.lt order → seq ∉ order →
  let i := partition_point (λ x, x <? seq) order in
  Forall (λ x, x < seq) (take i order) ∧ Forall (λ x, seq < x) (drop i order).
Proof.
  induction order as [|x order IH]; intros Hs Hn; simpl; [by split|].
  apply StronglySorted_inv in Hs as [Hs Hx]. destruct (Z.ltb_spec x seq) as [Hlt|Hge]; simpl.
  - destruct IH as [H1 H2]; [done|set_solver|]. by split; [constructor|].
  - split; [done|]. assert (seq < x) by (assert (seq ≠ x) by set_solver; lia).
    constructor; [done|]. eapply Forall_impl; [exact Hx|]. simpl. lia.
Qed.

Lemma ring_place_spec (order : list Z) seq :
  StronglySorted Z.lt order → seq ∉ order →
  StronglySorted Z.lt (ring_place order seq) ∧ ∀ s, s ∈ ring_place order seq ↔ s = seq ∨ s ∈ order.
Proof.
  intros Hs Hn. destruct (partition_point_split order seq Hs Hn) as [Hlo Hhi].
  assert (Hmid : StronglySorted Z.lt (insert_at (partition_point (λ x, x <? seq) order) seq order) ∧
    ∀ s, s ∈ insert_at (partition_point (λ x, x <? seq) order) seq order ↔ s = seq ∨ s ∈ order).
  { revert Hlo Hhi. generalize (partition_point (λ x, x <? seq) order) as i. intros i Hlo Hhi. unfold insert_at.
    rewrite <-(take_drop i order) in Hs. apply StronglySorted_app in Hs as (Hx & H1 & H2). split.
    - apply StronglySorted_app. split_and!; [|done|by constructor].
      intros x y Hxin Hyin. apply elem_of_cons in Hyin as [->|Hyin]; [by apply (proj1 (Forall_forall _ _) Hlo)|by apply Hx].
    - intros s. rewrite <-(take_drop i order) at 3. rewrite !elem_of_app, elem_of_cons. tauto. }
  unfold ring_place. destruct (last order) as [l|] eqn:Hl; [|].
  - destruct (Z.ltb_spec l seq) as [Hlt|]; [|done]. split; [|intros s; set_solver].
    apply StronglySorted_app. split_and!; [|done|by repeat constructor].
    intros x y Hx ->%list_elem_of_singleton. apply last_Some in Hl as [l' ->].
    apply StronglySorted_app in Hs as (Hxy & _). apply elem_of_app in Hx as [Hx| ->%list_elem_of_singleton]; [|done].
    assert (x < l) by (apply Hxy; [done|by apply list_elem_of_singleton]). lia.
  - apply last_None in Hl as ->. split; [by repeat constructor|]. intros s. set_solver.
Qed.

(** A new seq enters the ring. *)
Lemma ring_insert_spec c seq vs :
  ring_ok c → ca_frames c !! seq = None →
  let '(order', frames') := ring_trim (ring_place (ca_order c) seq) (<[seq := vs]> (ca_frames c)) in
  StronglySorted Z.lt order' ∧ (length order' <= RING_CAP)%nat ∧
  (∀ s, s ∈ order' ↔ is_Some (frames' !! s)) ∧ frames' ⊆ <[seq := vs]> (ca_frames c).
Proof.
  intros Hok Hf. pose proof (ring_place_spec (ca_order c) seq (ri_sorted _ Hok)) as [Hs Hin].
  { rewrite (ri_keys _ Hok), Hf. intros [? ?]. done. }
  apply ring_trim_spec; [done|]. intros s. rewrite Hin, (ri_keys _ Hok).
  destruct (decide (s = seq)) as [->|Hne].
  - rewrite lookup_insert_eq. split; [by eexists|by left].
  - rewrite lookup_insert_ne by done. naive_solver.
Qed.

Lemma insert_ring_ok c seq v arc : ring_ok c → ring_ok (insert_serialized c seq v arc).1.
Proof.
  intros Hok. unfold insert_serialized. destruct (ca_frames c !! seq) as [vs|] eqn:Hf.
  - assert (Hnew : ring_ok (mkCache (ca_order c) (<[seq := <[fv_idx v := Some arc]> vs]> (ca_frames c)))).
    { destruct Hok as [Hs Hb Hk Hv]. split; simpl; [done|done|..].
      - intros s. rewrite Hk. destruct (decide (s = seq)) as [->|Hne]; [|by rewrite lookup_insert_ne].
        rewrite lookup_insert_eq, Hf. split; by eexists.
      - intros s vs'. destruct (decide (s = seq)) as [->|Hne]; [|by rewrite lookup_insert_ne; [apply Hv|]].
        rewrite lookup_insert_eq. intros [= <-]. rewrite length_insert. by eapply Hv. }
    by destruct (vs !! fv_idx v) as [[fr|]|].
  - set (vs := <[fv_idx v := Some arc]> (replicate N_VARIANTS None)).
    pose proof (ring_insert_spec c seq vs Hok Hf) as Ht. destruct (ring_trim _ _) as [order' frames'].
    destruct Ht as (Hs & Hb & Hk & Hsub). split; simpl; [done..|].
    intros s vs' Hl. pose proof (lookup_weaken _ _ _ _ Hl Hsub) as Hw. destruct (decide (s = seq)) as [->|Hne].
    + rewrite lookup_insert_eq in Hw. injection Hw as <-. unfold vs. by rewrite length_insert, length_replicate.
    + rewrite lookup_insert_ne in Hw by done. by eapply ri_variants.
Qed.

(** What an insert changes of the lookups: its own entry, and what it evicts. *)
Lemma cache_get_insert c seq v arc seq' v' :
  ring_ok c → (fv_idx v < N_VARIANTS)%nat → (fv_idx v' < N_VARIANTS)%nat →
  let c' := (insert_serialized c seq v arc).1 in
  cache_get c' seq' v' = cache_get c seq' v' ∨ cache_get c' seq' v' = None ∨
  seq' = seq ∧ fv_idx v' = fv_idx v ∧ cache_get c' seq' v' = Some arc.
Proof.
  intros Hok Hv Hv' c'. unfold c', insert_serialized.
  destruct (ca_frames c !! seq) as [vs|] eqn:Hf.
  - pose proof (ri_variants _ Hok _ _ Hf) as Hlen.
    destruct (vs !! fv_idx v) as [[fr|]|] eqn:Hx; [by left|..]; unfold cache_get; simpl;
      (destruct (decide (seq' = seq)) as [->|Hne]; [|by left; rewrite lookup_insert_ne]);
      rewrite lookup_insert_eq, Hf;
      (destruct (decide (fv_idx v' = fv_idx v)) as [->|Hne]; [|by left; rewrite list_lookup_insert_ne]);
      right; right; by rewrite list_lookup_insert_eq by lia.
  - set (vs := <[fv_idx v := Some arc]> (replicate N_VARIANTS None)).
    pose proof (ring_insert_spec c seq vs Hok Hf) as Ht.
    destruct (ring_trim _ _) as [order' frames']. destruct Ht as (_ & _ & _ & Hsub).
    unfold cache_get. simpl. destruct (frames' !! seq') as [vs'|] eqn:Hf'; [|by right; left].
    pose proof (lookup_weaken _ _ _ _ Hf' Hsub) as Hw. destruct (decide (seq' = seq)) as [->|Hne].
    + rewrite lookup_insert_eq in Hw. injection Hw as <-. unfold vs.
      destruct (decide (fv_idx v' = fv_idx v)) as [->|Hne].
      * right; right. by rewrite list_lookup_insert_eq by (rewrite length_replicate; lia).
      * right; left. rewrite list_lookup_insert_ne by done. by rewrite lookup_replicate_2 by lia.
    + rewrite lookup_insert_ne in Hw by done. left. by rewrite Hw.
Qed.

Lemma insert_keys c seq v arc s :
  ring_ok c → is_Some (ca_frames (insert_serialized c seq v arc).1 !! s) → s = seq ∨ is_Some (ca_frames c !! s).
Proof.
  intros Hok. unfold insert_serialized. destruct (decide (s = seq)) as [->|Hne]; [by left|].
  destruct (ca_frames c !! seq) as [vs|] eqn:Hf.
  - destruct (vs !! fv_idx v) as [[fr|]|]; simpl; [by right|..]; rewrite lookup_insert_ne by done; by right.
  - set (vs := <[fv_idx v := Some arc]> (replicate N_VARIANTS None)).
    pose proof (ring_insert_spec c seq vs Hok Hf) as Ht. destruct (ring_trim _ _) as [order' frames'].
    destruct Ht as (_ & _ & _ & Hsub). simpl. intros [vs' Hl].
    pose proof (lookup_weaken _ _ _ _ Hl Hsub) as Hw. rewrite lookup_insert_ne in Hw by done. right. by eexists.
Qed.

(** ** The page *)

Lemma deliver_live b now req r : diff_delivers b now req r = true → r_deleted r = false.
Proof.
  unfold diff_delivers. intros H%bool_decide_eq_true. unfold evaluate in H. destruct (_ && _); [done|]. by destruct (r_deleted r).
Qed.

Lemma record_out_project req seq r :
  record_out req seq r = project (dr_include_tags req) (dr_include_meta req) seq r.
Proof. done. Qed.

(** The frame of a live record, from the cache or serialized now. *)
Lemma cache_frame_spec b c seq d t m r :
  ring_ok c → coherent b c → get (b_index b) seq = Some r → r_deleted r = false → seq <= b_head_seq b →
  let '(c', fr) := cache_frame c seq (project t m seq r) (frame_variant_new d t m) in
  ring_ok c' ∧ coherent b c' ∧ fr = serialize_frame (project t m seq r) d.
Proof.
  intros Hok Hch Hg Hd Hh. unfold cache_frame. destruct (cache_get c seq (frame_variant_new d t m)) as [fr|] eqn:Hc.
  { split_and!; [done..|]. by eapply ch_frame. }
  set (v := frame_variant_new d t m) in *. set (arc := serialize_frame _ _).
  assert (Harc : (insert_serialized c seq v arc).2 = arc).
  { unfold insert_serialized, cache_get in *. destruct (ca_frames c !! seq) as [vs|]; [|by destruct (ring_trim _ _)].
    by destruct (vs !! fv_idx v) as [[fr|]|]. }
  pose proof (insert_ring_ok c seq v arc Hok) as Hok'.
  pose proof (λ seq' v', cache_get_insert c seq v arc seq' v' Hok (fv_idx_bound d t m)) as Hget.
  pose proof (λ s, insert_keys c seq v arc s Hok) as Hkeys.
  destruct (insert_serialized c seq v arc) as [c' fr]. simpl in *. subst fr. split_and!; [done| |done]. split.
  - intros seq' d' t' m' fr r' Hl Hg' Hd'.
    destruct (Hget seq' (frame_variant_new d' t' m') (fv_idx_bound d' t' m')) as [Hx|[Hx|(-> & Hi & Hx)]].
    + rewrite Hx in Hl. by eapply ch_frame.
    + congruence.
    + apply fv_idx_inj in Hi as (-> & -> & ->). rewrite Hx in Hl. rewrite Hg in Hg'. unfold arc in Hl. congruence.
  - intros s Hs. destruct (Hkeys s Hs) as [->|Hs']; [done|]. by eapply ch_head.
Qed.

(** The walk selects the seqs of the walk of [diff]. *)
Lemma shared_walk_spec b now req seqs (w : Walk V) :
  shared_walk b now req seqs (mkSeqWalk (ro_seq <$> w_records w) (w_next w) (w_bytes w)) =
    let w' := diff_walk b now req seqs w in mkSeqWalk (ro_seq <$> w_records w') (w_next w') (w_bytes w').
Proof.
  revert w. induction seqs as [|seq seqs IH]; intros w; [done|]. cbn [shared_walk diff_walk sw_seqs sw_bytes].
  rewrite length_fmap. destruct (diff_limit req <=? Z.of_nat (length (w_records w))); [done|].
  destruct (get (b_index b) seq) as [r|]; [|apply (IH (mkWalk _ _ _))].
  destruct (diff_delivers b now req r); [|apply (IH (mkWalk _ _ _))].
  assert (bool_decide (ro_seq <$> w_records w = []) = bool_decide (w_records w = [])) as ->.
  { apply bool_decide_ext. by destruct (w_records w). }
  destruct (negb (bool_decide (w_records w = [])) && _); [done|].
  specialize (IH (mkWalk (w_records w ++ [record_out req seq r]) seq (w_bytes w +s r_bytes r))).
  cbn [w_records w_next w_bytes] in IH. rewrite fmap_app in IH. exact IH.
Qed.

(** Records of a page as the index holds them. *)
Definition from_index b (now : Z) req (o : RecordOut V) : Prop :=
  ∃ r, get (b_index b) (ro_seq o) = Some r ∧ diff_delivers b now req r = true ∧
    o = record_out req (ro_seq o) r ∧ ro_seq o <= b_head_seq b.

Lemma diff_walk_from_index b now req seqs w :
  Forall (λ s, s <= b_head_seq b) seqs → Forall (from_index b now req) (w_records w) →
  Forall (from_index b now req) (w_records (diff_walk b now req seqs w)).
Proof.
  intros Hs. revert w. induction Hs as [|seq seqs Hseq _ IH]; intros w Hw; [done|]. cbn [diff_walk].
  destruct (diff_limit req <=? _); [done|]. destruct (get (b_index b) seq) as [r|] eqn:Hg; [|by apply IH].
  destruct (diff_delivers b now req r) eqn:Hd; [|by apply IH]. destruct (negb _ && _); [done|]. apply IH. simpl.
  apply Forall_app. split; [done|]. apply Forall_singleton. by exists r.
Qed.

Lemma fill_frames_spec b now req d outs frames c :
  let v := frame_variant_new d (dr_include_tags req) (dr_include_meta req) in
  ring_ok c → coherent b c → Forall (from_index b now req) outs →
  Forall2 (λ o f, ∀ fr, f = Some fr → fr = serialize_frame o d) outs frames →
  let '(c', frames') := fill_frames b now req v (ro_seq <$> outs) frames c in
  ring_ok c' ∧ coherent b c' ∧ frames' = (λ o, Some (serialize_frame o d)) <$> outs.
Proof.
  intros v Hok Hch Ho Hf. revert c Hok Hch.
  induction Hf as [|o f outs frames Hof Hf IH]; intros c Hok Hch; [done|].
  apply Forall_cons in Ho as [(r & Hg & Hd & Hor & Hh) Ho]. specialize (IH Ho).
  rewrite !fmap_cons. destruct f as [fr|]; cbn [fill_frames].
  - specialize (IH c Hok Hch). destruct (fill_frames _ _ _ _ _ frames c) as [c' frames'].
    destruct IH as (? & ? & ->). split_and!; [done..|]. by rewrite <-(Hof fr).
  - rewrite Hg, Hd.
    pose proof (cache_frame_spec b c (ro_seq o) d (dr_include_tags req) (dr_include_meta req) r Hok Hch Hg
      (deliver_live _ _ _ _ Hd) Hh) as Hcf.
    rewrite record_out_project in *. fold v in Hcf. destruct (cache_frame _ _ _ v) as [c1 fr].
    destruct Hcf as (Hok1 & Hch1 & ->).
    specialize (IH c1 Hok1 Hch1). destruct (fill_frames _ _ _ _ _ frames c1) as [c' frames'].
    destruct IH as (? & ? & ->). split_and!; [done..|]. by rewrite <-Hor.
Qed.

Lemma omap_id_Some {A} (l : list A) {B} (f : A → B) : omap id ((λ x, Some (f x)) <$> l) = f <$> l.
Proof. induction l as [|x l IH]; [done|]. rewrite !fmap_cons. cbn. by rewrite <-IH. Qed.

(** Over a coherent ring a shared read is the serialized page of [diff], whatever
    mix of hits and misses. *)
Lemma shared_diff_equiv b now req d c :
  settled b → 0 <= dr_from_seq req → ring_ok c → coherent b c →
  let v := frame_variant_new d (dr_include_tags req) (dr_include_meta req) in
  let page := diff_read b now req in
  let '(c', shared) := diff_shared_frames b now req v c in
  shared = mkShared ((λ o, serialize_frame o d) <$> df_records page) (df_next_from_seq page) (df_head_seq page)
             (df_caught_up page) (df_tombstone page) ∧
  ring_ok c' ∧ coherent b c'.
Proof.
  intros Hst Hfrom Hok Hch v page. unfold page, diff_shared_frames, diff_read.
  destruct (diff_start_cursor b req Hst Hfrom) as (Hc & _). pose proof (tw_head_hi _ (st_wf _ Hst)).
  destruct (diff_start b req) as [tomb cur]. simpl in Hc. rewrite sat_add_exact by lia.
  set (seqs := seqZ (cur + 1) (b_head_seq b + 1 - (cur + 1))).
  pose proof (shared_walk_spec b now req seqs (mkWalk [] cur 0)) as Hw. cbn [w_records w_next w_bytes fmap list_fmap] in Hw.
  rewrite Hw. cbn zeta. cbn [sw_seqs sw_next].
  assert (Hfi : Forall (from_index b now req) (w_records (diff_walk b now req seqs (mkWalk [] cur 0)))).
  { apply diff_walk_from_index; [|done]. apply Forall_forall. intros s Hs%elem_of_seqZ. lia. }
  set (outs := w_records (diff_walk b now req seqs (mkWalk [] cur 0))) in *.
  pose proof (fill_frames_spec b now req d outs (get_many c (ro_seq <$> outs) v) c Hok Hch Hfi) as Hff.
  destruct (fill_frames _ _ _ _ _ _ c) as [c' frames']. destruct Hff as (? & ? & ->).
  - unfold get_many. rewrite <-list_fmap_compose. apply Forall2_fmap_r, Forall_Forall2_diag.
    eapply Forall_impl; [exact Hfi|]. intros o (r & Hg & Hd & Hor & _) fr Hc'. rewrite Hor, record_out_project.
    eapply ch_frame; [done..|]. by eapply deliver_live.
  - split_and!; [|done..]. by rewrite omap_id_Some.
Qed.

(** ** A topic that changes *)

(** A live slot below the old head is the slot the topic had there. *)
Definition slots_kept b b' : Prop :=
  b_head_seq b <= b_head_seq b' ∧
  ∀ s r, s <= b_head_seq b → get (b_index b') s = Some r → r_deleted r = false → get (b_index b) s = Some r.

Lemma slots_kept_refl b : slots_kept b b.
Proof. by split. Qed.

Lemma slots_kept_trans b1 b2 b3 : slots_kept b1 b2 → slots_kept b2 b3 → slots_kept b1 b3.
Proof.
  intros [H1 K1] [H2 K2]. split; [lia|]. intros s r Hs Hg Hd. apply K1; [done| |done]. apply K2; [lia|done..].
Qed.

Lemma reclaim_kept b : topic_wf b → slots_kept b (reclaim_front b (b_head_seq b)).1.
Proof.
  intros Hwf. destruct (reclaim_front_fields b (b_head_seq b)) as (Hh & _). split; [lia|].
  intros s r _. rewrite reclaim_front_get by done. by destruct (_ <? _).
Qed.

Lemma retention_kept b now : topic_wf b → slots_kept b (enforce_retention b now).1.
Proof.
  intros Hwf. destruct (enforce_retention_cases b now Hwf) as [->| ->]; [apply slots_kept_refl|].
  apply (reclaim_kept (with_floors b _)). apply with_floors_wf; [done|by apply plan_retention_floors|done].
Qed.

Lemma marked_kept b seqs : topic_wf b → slots_kept b (marked b seqs).
Proof.
  intros Hwf. destruct (marked_fields b seqs Hwf) as (Hh & _). split; [lia|]. intros s r _. rewrite marked_get by done.
  destruct (get (b_index b) s) as [r'|]; [|done]. case_bool_decide; [|done]. intros [= <-]. done.
Qed.

Lemma padded_kept b reserved : settled b → b_head_seq b <= reserved → slots_kept b (padded b reserved).
Proof.
  intros Hst Hr. split; [simpl; lia|]. intros s r Hs. simpl. rewrite pad_holes_get.
  destruct (get (b_index b) s) as [r'|]; [done|]. destruct (_ && _ && _); [|done]. by intros [= <-].
Qed.

Lemma delete_kept b before_seq match_ bound_head now :
  settled b → u64_opt before_seq → u64_opt bound_head →
  (∀ x, bound_head = Some x → x <= b_head_seq b + 1) →
  slots_kept b (apply_delete_stats b before_seq match_ bound_head now).1.
Proof.
  intros Hst Hbs Hbh Hx. rewrite apply_delete_eq.
  pose proof (enforce_retention_settled b now Hst) as Hst0. pose proof (retention_kept b now (st_wf _ Hst)) as Hk0.
  pose proof (enforce_retention_head b now (st_wf _ Hst)) as Hh0.
  assert (Hbd : delete_bound (enforce_retention b now).1 before_seq bound_head
                = delete_bound b before_seq bound_head) by (unfold delete_bound; by rewrite Hh0).
  rewrite Hbd. pose proof (delete_bound_range b _ _ (st_wf _ Hst) Hbs Hbh Hx) as Hbound. rewrite <-Hh0 in Hbound.
  set (b0 := (enforce_retention b now).1) in *. set (bound := delete_bound b _ _) in *. clearbody b0 bound.
  set (b1 := marked b0 _). assert (Hst1 : settled b1) by (by apply marked_settled).
  pose proof (marked_kept b0 (delete_victims b0 match_ bound) (st_wf _ Hst0)) as Hk1. fold b1 in Hk1.
  destruct (marked_fields b0 (delete_victims b0 match_ bound) (st_wf _ Hst0)) as (Hh1 & _). fold b1 in Hh1.
  clearbody b1. rewrite <-Hh1 in Hbound |- *.
  destruct (prefix_floored_fields b1 before_seq match_ bound (st_wf _ Hst1) Hbound) as (Hwf2 & Hh2 & Hb2 & Hr2 & _).
  eapply slots_kept_trans; [exact Hk0|]. eapply slots_kept_trans; [exact Hk1|].
  eapply slots_kept_trans; [|rewrite <-Hh2; by apply reclaim_kept].
  split; [lia|]. intros s r _. unfold get. by rewrite Hb2, Hr2.
Qed.

Lemma exec_op_kept op b : settled b → op_ok op b → slots_kept b (exec_op op b).
Proof.
  intros Hst Hok. pose proof (st_wf _ Hst) as Hwf. pose proof (st_tail _ Hst) as Ht.
  destruct op as [recs now|now|bs m bh now|seqs| |reserved]; simpl in *.
  - destruct (decide (recs = [])) as [->|Hne]; [apply slots_kept_refl|]. rewrite append_eq by done.
    split; [simpl; rewrite Ht; lia|]. intros s r Hs. simpl. rewrite foldl_push_get.
    by rewrite (proj2 (Z.ltb_lt _ _)) by lia.
  - by apply retention_kept.
  - destruct Hok as (? & ? & ?). by apply delete_kept.
  - rewrite delete_seqs_eq. eapply slots_kept_trans; [by apply (marked_kept b seqs)|].
    destruct (marked_fields b seqs Hwf) as (Hh & _). rewrite <-Hh. apply reclaim_kept.
    by apply st_wf, marked_settled.
  - unfold note_source_trim. split; simpl; [lia|]. intros s r Hs. unfold push_record, get. simpl.
    unfold tail_seq in Ht. destruct (Z.ltb_spec s (base_seq (b_index b))); [done|]. by rewrite lookup_app_l by lia.
  - unfold restore_head_watermark. simpl. destruct (Z.leb_spec reserved (b_head_seq b)); [by split|].
    apply (padded_kept (set_reserved_head b reserved)); [|simpl; lia]. destruct Hst as [[] ? ?]. by split; [split|..].
Qed.

Lemma coherent_kept b b' c : slots_kept b b' → coherent b c → coherent b' c.
Proof.
  intros [Hh Hk] [Hf Hb]. split; [|intros s Hs; specialize (Hb s Hs); lia].
  intros seq d t m fr r Hc Hg Hd. eapply Hf; [done| |done]. apply Hk; [|done..]. apply Hb.
  unfold cache_get in Hc. destruct (ca_frames c !! seq); [by eexists|done].
Qed.

(** The topic changes and is read by streams of any projection, in any order. *)
Inductive StreamOp :=
  | SoTopic (op : TopicOp (V := V))
  | SoRead (now : Z) (req : DiffRequest) (include_data : bool).

Definition request_variant (req : DiffRequest) (include_data : bool) : FrameVariant :=
  frame_variant_new include_data (dr_include_tags req) (dr_include_meta req).
Definition stream_op (o : StreamOp) (s : TopicState V * CacheState R) : TopicState V * CacheState R :=
  match o with
  | SoTopic op => (exec_op op s.1, s.2)
  | SoRead now req d => (s.1, (diff_shared_frames s.1 now req (request_variant req d) s.2).1)
  end.
Definition stream_op_ok (o : StreamOp) (s : TopicState V * CacheState R) : Prop :=
  match o with
  | SoTopic op => op_ok op s.1
  | SoRead _ req _ => 0 <= dr_from_seq req
  end.
Definition stream_ops (ops : list StreamOp) (s : TopicState V * CacheState R) := foldl (flip stream_op) s ops.
Fixpoint stream_ops_ok (ops : list StreamOp) (s : TopicState V * CacheState R) : Prop :=
  match ops with
  | [] => True
  | o :: ops => stream_op_ok o s ∧ stream_ops_ok ops (stream_op o s)
  end.

Lemma stream_op_inv o s :
  stream_op_ok o s → settled s.1 → ring_ok s.2 → coherent s.1 s.2 →
  let s' := stream_op o s in settled s'.1 ∧ ring_ok s'.2 ∧ coherent s'.1 s'.2.
Proof.
  destruct s as [b c]. destruct o as [op|now req d]; simpl; intros Hok Hst Hr Hc.
  - split_and!; [by apply exec_op_refines|done|]. eapply coherent_kept; [by apply exec_op_kept|done].
  - pose proof (shared_diff_equiv b now req d c Hst Hok Hr Hc) as He. cbv zeta in He. fold (request_variant req d) in He.
    destruct (diff_shared_frames _ _ _ _ _) as [c' sh]. destruct He as (_ & ? & ?). done.
Qed.

Lemma cache_new_ok b : ring_ok cache_new ∧ coherent b cache_new.
Proof.
  split; split; simpl; try done; [constructor|apply Nat.le_0_l|..].
  - intros s. rewrite lookup_empty, elem_of_nil. split; [done|]. by intros [? ?].
  - intros s [? Hs]. by rewrite lookup_empty in Hs.
Qed.

End broadcast.

Module BroadcastSamples.
Import Samples.

(** Frames as seq and data flag; ten records, a read of three, a delete of the
    first five and a read of the rest under two projections. *)
Definition sample_frame (o : RecordOut unit) (d : bool) : Z * bool := (ro_seq o, d).
Definition sample_request (from : Z) : DiffRequest := mkDiffRequest from 3 None true true 0.
Definition sample_stream : list (StreamOp (V := unit)) :=
  [SoTopic (OpAppend (sample_batch 10) 0); SoRead 0 (sample_request 0) true;
   SoTopic (OpDelete (Some 6) None None 0); SoRead 0 (sample_request 5) true].


End BroadcastSamples.
