(* ===== verification/Watch.v ===== *)
(** * Watch streams

    Models [build_stream] and the resume of [stream_watch] of [src/http/watch.rs].
    A stream walks the topics of its session, drains each in pages of [diff], and
    emits frames whose id is the cursor map of the session at that moment; a client
    that reconnects presents the id of the last frame it received, and the session
    cursors are lowered to it.  The page is that of [diff]: by [Broadcast] the
    frames of a page are its serialized records.  The topics change between two
    reads, so a run takes the world that each read sees.  The id is written as
    base64 of JSON by third-party code and is kept here as the cursor map itself.

    [watch_resume_exact]: over any number of dropped connections a client that
    resumes from its last id receives each record once, in order, and misses none
    that was deliverable when the stream passed it.  The samples give the three
    ways out of it: a resume without an id, a second stream on the session, and a
    topic that was recreated. *)

From stdpp Require Import base gmap list strings sorting list_numbers.
From S2P Require Import Prelude Types Eviction TopicIndex QueueProjection TopicState TopicLog Diff.

(** The cursor map of a session. *)
Abbreviation Cursors := (gmap string Z).

(** The part of [WatchCreateRequest] that a read uses. *)
Record WatchRequest := mkWatch {
  wq_node : option NodeFilter;
  wq_limit : Z;
  wq_max_batch_bytes : Z;
  wq_include_meta : bool;
  wq_include_tags : bool
}.

Definition watch_request (rq : WatchRequest) (from_seq : Z) : DiffRequest :=
  mkDiffRequest from_seq (wq_limit rq) (wq_node rq) (wq_include_tags rq) (wq_include_meta rq)
    (wq_max_batch_bytes rq).

(** The rewind of [stream_watch]: never past the cursors of the session. *)
Definition rewind (cursors : Cursors) (id : Cursors) : Cursors :=
  map_imap (λ b cur, Some (match id !! b with Some seq => Z.min cur seq | None => cur end)) cursors.

Section watch.
Context {V : Type} `{!JsonNull V}.
Implicit Types (b : TopicState V).

Inductive WatchEvent :=
  | EvTombstone (name : string) (reason : TombstoneReason) (gap_from gap_to earliest_seq head_seq : Z)
  | EvRecord (name : string) (from_seq head_seq to_seq : Z) (records : list (RecordOut V))
  | EvCaughtUp (name : string) (head_seq : Z)
  | EvTopicDeleted (name : string)
  | EvShutdown.

(** A frame with its id. *)
Definition Frame : Type := Cursors * WatchEvent.

(** What [get_topic] and [diff_shared_frames] give for a topic: [diff] fails when
    the topic is gone and when the retention it enforces cannot be logged. *)
Inductive TopicRead :=
  | TopicGone
  | TopicFails (e : ErrorCode)
  | TopicReads (b : TopicState V) (now : Z).

Record World := mkWorld {
  wd_shutdown : bool;
  wd_topic : string → TopicRead
}.

(** The session cursors and the local sets of a stream; [was_caught_up] as the set
    of names that map to true. *)
Record StreamState := mkStream {
  ss_cursors : Cursors;
  ss_deleted : gset string;
  ss_caught_up : gset string;
  ss_first_read : gset string
}.

Definition with_cursors (st : StreamState) (cu : Cursors) : StreamState :=
  mkStream cu (ss_deleted st) (ss_caught_up st) (ss_first_read st).

(** [cursors.insert] *)
Definition set_cursor (st : StreamState) (name : string) (seq : Z) : StreamState :=
  with_cursors st (<[name := seq]> (ss_cursors st)).
Definition set_caught_up (st : StreamState) (name : string) (up : bool) : StreamState :=
  mkStream (ss_cursors st) (ss_deleted st)
    (if up then {[name]} ∪ ss_caught_up st else ss_caught_up st ∖ {[name]}) (ss_first_read st).
Definition set_read (st : StreamState) (name : string) : StreamState :=
  mkStream (ss_cursors st) (ss_deleted st) (ss_caught_up st) (ss_first_read st ∖ {[name]}).
Definition set_deleted (st : StreamState) (name : string) : StreamState :=
  mkStream (ss_cursors st) ({[name]} ∪ ss_deleted st) (ss_caught_up st) (ss_first_read st).

(** *** One page of a topic *)

(** The tombstone frame comes first and moves the cursor to the end of the gap. *)
Definition page_tombstone (st : StreamState) (name : string) (d : DiffResponse V) : StreamState * list Frame :=
  match df_tombstone d with
  | Some t =>
      let reason := if bool_decide (name ∈ ss_first_read st) then FromSeqTooOld else t_reason t in
      let st := set_cursor st name (t_gap_to t) in
      (set_caught_up st name false,
       [(ss_cursors st, EvTombstone name reason (t_gap_from t) (t_gap_to t) (t_earliest_seq t) (t_head_seq t))])
  | None => (st, [])
  end.

(** The record frame; a page without records moves the cursor silently. *)
Definition page_records (st : StreamState) (name : string) (from_seq : Z) (d : DiffResponse V) :
    StreamState * list Frame :=
  let to_seq := df_next_from_seq d in
  match df_records d with
  | [] => match df_tombstone d with None => (set_cursor st name to_seq, []) | Some _ => (st, []) end
  | _ =>
      let st := set_cursor st name to_seq in
      (set_caught_up st name false,
       [(ss_cursors st, EvRecord name from_seq (df_head_seq d) to_seq (df_records d))])
  end.

Definition page_caught_up (st : StreamState) (name : string) (d : DiffResponse V) : StreamState * list Frame :=
  if df_caught_up d && negb (bool_decide (name ∈ ss_caught_up st))
  then (set_caught_up st name true, [(ss_cursors st, EvCaughtUp name (df_head_seq d))])
  else (st, []).

Definition stream_page (rq : WatchRequest) (st : StreamState) (name : string) b (now : Z) :
    StreamState * list Frame * bool :=
  let from_seq := default 0 (ss_cursors st !! name) in
  let d := diff_read b now (watch_request rq from_seq) in
  let '(st, f1) := page_tombstone st name d in
  let st := set_read st name in
  let '(st, f2) := page_records st name from_seq d in
  let '(st, f3) := page_caught_up st name d in
  (st, f1 ++ f2 ++ f3, df_caught_up d).

(** *** The stream *)

(** The next topic to read, and whether a pass begins with it. *)
Definition next_topic (names : list string) (st : StreamState) (todo : list string) :
    option (bool * string * list string) :=
  match filter (.∉ ss_deleted st) todo with
  | name :: rest => Some (false, name, rest)
  | [] =>
      match filter (.∉ ss_deleted st) names with
      | name :: rest => Some (true, name, rest)
      | [] => None
      end
  end.

(** [build_stream]: one world for each read; [todo] is the rest of the pass. *)
Fixpoint stream_run (rq : WatchRequest) (names : list string) (worlds : list World) (todo : list string)
    (st : StreamState) : StreamState * list Frame :=
  match worlds with
  | [] => (st, [])
  | w :: worlds =>
      match next_topic names st todo with
      | None => (st, if bool_decide (names = []) && wd_shutdown w then [(ss_cursors st, EvShutdown)] else [])
      | Some (start, name, rest) =>
          if start && wd_shutdown w then (st, [(ss_cursors st, EvShutdown)])
          else
            match wd_topic w name with
            | TopicReads b now =>
                let '(st, fs, caught_up) := stream_page rq st name b now in
                let '(st, fs') := stream_run rq names worlds (if caught_up then rest else name :: rest) st in
                (st, fs ++ fs')
            | _ =>
                let fs := [(ss_cursors st, EvTopicDeleted name)] in
                let '(st, fs') := stream_run rq names worlds rest (set_deleted st name) in
                (st, fs ++ fs')
            end
      end
  end.

(** The topics of the session in the order of the [BTreeMap]. *)
Definition session_names (cursors : Cursors) : list string := (btree_entries cursors).*1.

Definition stream_open (cursors : Cursors) : StreamState :=
  mkStream cursors ∅ ∅ (list_to_set (session_names cursors)).

(** ** Connections *)

(** A connection: the worlds its reads see, how many frames the server produced
    before the stream was dropped, and how many of them the client received. *)
Record Connection := mkConn {
  cn_worlds : list World;
  cn_yielded : nat;
  cn_received : nat
}.

(** The session cursors and the client: its last id and the frames it has. *)
Record ClientState := mkClient {
  cl_session : Cursors;
  cl_last_id : option Cursors;
  cl_frames : list Frame
}.

(** The cursors the stream leaves when it is dropped after [n] frames. *)
Definition cursors_at (n : nat) (cursors : Cursors) (fs : list Frame) (st : StreamState) : Cursors :=
  if (length fs <=? n)%nat then ss_cursors st else from_option fst cursors (last (take n fs)).

Definition connect (rq : WatchRequest) (cl : ClientState) (cn : Connection) : ClientState :=
  let cursors := match cl_last_id cl with Some id => rewind (cl_session cl) id | None => cl_session cl end in
  let '(st, fs) := stream_run rq (session_names cursors) (cn_worlds cn) [] (stream_open cursors) in
  let got := take (cn_received cn) fs in
  mkClient (cursors_at (cn_yielded cn) cursors fs st)
    (match last got with Some f => Some f.1 | None => cl_last_id cl end) (cl_frames cl ++ got).

Definition connects (rq : WatchRequest) (cl : ClientState) (cns : list Connection) : ClientState :=
  foldl (connect rq) cl cns.

(** The records of a topic in a list of frames. *)
Definition event_records (name : string) (ev : WatchEvent) : list (RecordOut V) :=
  match ev with
  | EvRecord n _ _ _ rs => if bool_decide (n = name) then rs else []
  | _ => []
  end.
Definition records_of (name : string) (fs : list Frame) : list (RecordOut V) :=
  concat ((λ f, event_records name f.2) <$> fs).

(** The topic stays: every read of it sees a topic whose head is at least [lo] and
    never decreases. *)
Fixpoint steady (name : string) (lo : Z) (worlds : list World) : Prop :=
  match worlds with
  | [] => True
  | w :: worlds =>
      match wd_topic w name with
      | TopicReads b _ => settled b ∧ lo <= b_head_seq b ∧ steady name (b_head_seq b) worlds
      | _ => steady name lo worlds
      end
  end.

(** The head the last of the reads saw. *)
Fixpoint last_head (name : string) (lo : Z) (worlds : list World) : Z :=
  match worlds with
  | [] => lo
  | w :: worlds =>
      match wd_topic w name with
      | TopicReads b _ => last_head name (b_head_seq b) worlds
      | _ => last_head name lo worlds
      end
  end.

Lemma steady_app name lo ws ws' :
  steady name lo (ws ++ ws') → steady name lo ws ∧ steady name (last_head name lo ws) ws'.
Proof.
  revert lo. induction ws as [|w ws IH]; intros lo; simpl; [done|].
  destruct (wd_topic w name); [apply IH..|]. intros (? & ? & Hs). destruct (IH _ Hs). done.
Qed.

Lemma last_head_ge name lo ws : steady name lo ws → lo <= last_head name lo ws.
Proof.
  revert lo. induction ws as [|w ws IH]; intros lo; simpl; [lia|].
  destruct (wd_topic w name) as [| |b now]; [apply IH..|]. intros (_ & ? & Hs). specialize (IH _ Hs). lia.
Qed.

(** ** What a run of frames covers *)
Lemma slot_out_seq b now req s o : slot_out b now req s = Some o → ro_seq o = s.
Proof.
  unfold slot_out. destruct (get _ _) as [r|]; [|done]. destruct (diff_delivers _ _ _ _); [|done]. by intros [= <-].
Qed.

Lemma omap_slot_ascending b now req seqs :
  ascending seqs → ascending (ro_seq <$> omap (slot_out b now req) seqs).
Proof.
  induction 1 as [|s seqs Hs IH Hx]; [constructor|]. cbn [omap list_omap].
  destruct (slot_out b now req s) as [o|] eqn:Ho; [|done]. rewrite fmap_cons. constructor; [done|].
  apply Forall_forall. intros x (o' & -> & (s' & Hs' & Ho')%list_elem_of_omap)%list_elem_of_fmap.
  apply slot_out_seq in Ho as ->. apply slot_out_seq in Ho' as ->. by apply (proj1 (Forall_forall _ _) Hx).
Qed.

Lemma seqZ_ascending a n : ascending (seqZ a n).
Proof.
  destruct (Z.le_gt_cases n 0) as [Hn|Hn]; [rewrite seqZ_nil by lia; constructor|].
  rewrite <-(Z2Nat.id n) by lia. induction (Z.to_nat n) as [|k IH]; [constructor|]. rewrite seqZ_S.
  apply ascending_snoc; [done|]. intros y Hy%elem_of_seqZ. lia.
Qed.

Section covers.
Context (rq : WatchRequest) (name : string) (P : TopicState V → Z → Prop).

(** The seqs in [(c, i]] were passed, each by a read of a topic whose head had reached
    it: what was deliverable there is in [rs]; [rs] is ascending and within the range. *)
Record covers (c : Z) (rs : list (RecordOut V)) (i : Z) : Prop := {
  cv_le : c <= i;
  cv_ascending : ascending (ro_seq <$> rs);
  cv_range : Forall (λ o, c < ro_seq o <= i) rs;
  cv_passed : ∀ s, c < s <= i → ∃ b now, P b now ∧ s <= b_head_seq b ∧
    ∀ r, view b s = Some r → diff_delivers b now (watch_request rq 0) r = true →
      record_out (watch_request rq 0) s r ∈ rs
}.

Lemma covers_refl c : covers c [] c.
Proof. split; [lia|constructor|constructor|]. intros s ?. lia. Qed.

Lemma covers_app c rs i rs' i' : covers c rs i → covers i rs' i' → covers c (rs ++ rs') i'.
Proof.
  intros [H1 S1 R1 P1] [H2 S2 R2 P2]. split; [lia|..].
  - rewrite fmap_app. unfold ascending. apply StronglySorted_app. split_and!; [|done..].
    intros x y (o & -> & Ho)%list_elem_of_fmap (o' & -> & Ho')%list_elem_of_fmap.
    pose proof (proj1 (Forall_forall _ _) R1 _ Ho). pose proof (proj1 (Forall_forall _ _) R2 _ Ho'). simpl in *. lia.
  - apply Forall_app. split; (eapply Forall_impl; [done|]); simpl; lia.
  - intros s Hs. destruct (decide (s <= i)).
    + destruct (P1 s) as (b & now & ? & ? & Hb); [lia|]. exists b, now. split_and!; [done..|]. intros r ??. apply elem_of_app. eauto.
    + destruct (P2 s) as (b & now & ? & ? & Hb); [lia|]. exists b, now. split_and!; [done..|]. intros r ??. apply elem_of_app. eauto.
Qed.

(** What [diff] returns for a cursor that is not beyond the head: the page, and
    the gap of its tombstone, in which nothing is visible. *)
Lemma page_covers b now from :
  settled b → P b now → 0 <= from <= b_head_seq b → 0 <= wq_limit rq →
  let d := diff_read b now (watch_request rq from) in
  df_next_from_seq d <= b_head_seq b ∧
  match df_tombstone d with
  | Some t => covers from [] (t_gap_to t) ∧ covers (t_gap_to t) (df_records d) (df_next_from_seq d)
  | None => covers from (df_records d) (df_next_from_seq d)
  end.
Proof.
  intros Hst HP Hfrom Hlim d.
  destruct (diff_start_cursor b (watch_request rq from) Hst ltac:(simpl; lia)) as (Hc & Hev & Hle & Hvis).
  destruct (diff_read_spec b now (watch_request rq from) Hst ltac:(simpl; lia) ltac:(done)) as (Hn & Hr & _ & _).
  fold d in Hn, Hr. set (c0 := (diff_start b (watch_request rq from)).2) in *. simpl in Hle, Hvis. specialize (Hle ltac:(lia)).
  split; [lia|].
  assert (Hgap : ∀ c1, from <= c1 <= c0 → covers from [] c1).
  { intros c1 Hc1. split; [lia|constructor|constructor|]. intros s Hs. exists b, now. split_and!; [done|lia|].
    intros r Hv. specialize (Hvis s r Hv ltac:(lia)). lia. }
  assert (Hpage : ∀ c1, from <= c1 <= c0 → covers c1 (df_records d) (df_next_from_seq d)).
  { intros c1 Hc1. split; [lia|..]; rewrite Hr.
    - apply omap_slot_ascending, seqZ_ascending.
    - apply Forall_forall. intros o (s & Hs & Ho)%list_elem_of_omap. apply slot_out_seq in Ho as ->.
      apply elem_of_seqZ in Hs. lia.
    - intros s Hs. exists b, now. split_and!; [done|lia|]. intros r Hv Hd. apply list_elem_of_omap. exists s. split.
      + apply elem_of_seqZ. specialize (Hvis s r Hv ltac:(lia)). lia.
      + apply view_Some in Hv as (_ & Hg & _). unfold slot_out. rewrite Hg. 
        change (diff_delivers b now (watch_request rq from) r) with (diff_delivers b now (watch_request rq 0) r).
        by rewrite Hd. }
  assert (Ht : df_tombstone d = (diff_start b (watch_request rq from)).1).
  { unfold d, diff_read. by destruct (diff_start _ _). }
  rewrite Ht. unfold c0, diff_start in *. simpl in *. rewrite (proj2 (Z.ltb_ge _ _)) in * by lia.
  destruct (Z.ltb_spec (from +s 1) (evict_earliest_seq b)) as [Hlt|Hge]; simpl in *; [|apply Hpage; lia].
  pose proof (tw_head_hi _ (st_wf _ Hst)). rewrite sat_add_exact in Hlt by lia.
  rewrite (sat_sub_exact (evict_earliest_seq b)) by lia. split; [apply Hgap|apply Hpage]; lia.
Qed.

(** The frames of a stream from cursor [c]: each covers the seqs from the cursor
    before it to its own id; between two frames the cursor may move silently. *)
Inductive traced (c : Z) : list Frame → Z → Prop :=
  | tr_start : traced c [] c
  | tr_move fs cur cur' : traced c fs cur → covers cur [] cur' → traced c fs cur'
  | tr_emit fs cur cur' f :
      traced c fs cur → f.1 !! name = Some cur' → covers cur (event_records name f.2) cur' →
      traced c (fs ++ [f]) cur'.

Lemma records_of_app fs fs' : records_of name (fs ++ fs') = records_of name fs ++ records_of name fs'.
Proof. unfold records_of. by rewrite fmap_app, concat_app. Qed.

Lemma traced_covers c fs cur : traced c fs cur → covers c (records_of name fs) cur.
Proof.
  induction 1 as [|fs cur cur' _ IH Hc|fs cur cur' f _ IH Hf Hc]; [apply covers_refl|..].
  - rewrite <-(app_nil_r (records_of name fs)). by eapply covers_app.
  - rewrite records_of_app. eapply covers_app; [done|]. unfold records_of. simpl. by rewrite app_nil_r.
Qed.

(** Every prefix is traced up to its last id. *)
Lemma traced_take c fs cur (k : nat) :
  traced c fs cur →
  ∃ cur', cur' <= cur ∧ traced c (take k fs) cur' ∧
    match last (take k fs) with Some f => f.1 !! name = Some cur' | None => cur' = c end.
Proof.
  induction 1 as [|fs cur cur' _ IH Hc|fs cur cur' f Ht IH Hf Hc].
  - exists c. rewrite take_nil. split_and!; [lia|constructor|done].
  - destruct IH as (x & Hx & Htx & Hl). exists x. pose proof (cv_le _ _ _ Hc). split_and!; [lia|done..].
  - pose proof (cv_le _ _ _ Hc). destruct (decide (k <= length fs)%nat) as [Hk|Hk].
    + destruct IH as (x & Hx & Htx & Hl). exists x. rewrite take_app_le by done. split_and!; [lia|done..].
    + exists cur'. rewrite take_ge by (rewrite length_app; simpl; lia). rewrite last_snoc.
      split_and!; [lia|by econstructor|done].
Qed.

Lemma traced_quiet c fs0 fs cur :
  traced c fs0 cur → Forall (λ f, f.1 !! name = Some cur ∧ event_records name f.2 = []) fs →
  traced c (fs0 ++ fs) cur.
Proof.
  intros Ht Hq. revert fs0 Ht. induction Hq as [|f fs [Hf Hr] _ IH]; intros fs0 Ht; [by rewrite app_nil_r|].
  rewrite cons_middle, app_assoc. apply IH. econstructor; [done..|]. rewrite Hr. apply covers_refl.
Qed.

(** A page of another topic leaves this one alone. *)
Lemma page_other c fs0 st n b now cur :
  n ≠ name → ss_cursors st !! name = Some cur → traced c fs0 cur →
  let '(st', fs, _) := stream_page rq st n b now in
  ss_cursors st' !! name = Some cur ∧ traced c (fs0 ++ fs) cur.
Proof.
  intros Hn Hcur Ht. unfold stream_page. set (d := diff_read _ _ _).
  destruct (page_tombstone st n d) as [st1 f1] eqn:H1. destruct (page_records _ _ _ d) as [st2 f2] eqn:H2.
  destruct (page_caught_up st2 n d) as [st3 f3] eqn:H3.
  assert (Hs1 : ss_cursors st1 !! name = Some cur ∧ Forall (λ f, f.1 !! name = Some cur ∧ event_records name f.2 = []) f1).
  { unfold page_tombstone in H1. destruct (df_tombstone d); injection H1 as <- <-; simpl; [|done].
    rewrite lookup_insert_ne by done. split; [done|]. apply Forall_singleton. simpl. by rewrite lookup_insert_ne. }
  destruct Hs1 as [Hc1 Hf1].
  assert (Hs2 : ss_cursors st2 !! name = Some cur ∧ Forall (λ f, f.1 !! name = Some cur ∧ event_records name f.2 = []) f2).
  { unfold page_records in H2. destruct (df_records d); [destruct (df_tombstone d)|]; injection H2 as <- <-; simpl; try done;
      rewrite lookup_insert_ne by done; [done|]. split; [done|]. apply Forall_singleton. simpl.
    rewrite lookup_insert_ne by done. by rewrite bool_decide_eq_false_2. }
  destruct Hs2 as [Hc2 Hf2].
  assert (Hs3 : ss_cursors st3 !! name = Some cur ∧ Forall (λ f, f.1 !! name = Some cur ∧ event_records name f.2 = []) f3).
  { unfold page_caught_up in H3. destruct (_ && _); injection H3 as <- <-; simpl; [|done].
    split; [done|]. by apply Forall_singleton. }
  destruct Hs3 as [Hc3 Hf3]. split; [done|]. apply traced_quiet; [done|]. by rewrite !Forall_app.
Qed.

(** A page of the topic itself. *)
Lemma page_own c fs0 st b now cur :
  settled b → P b now → 0 <= cur <= b_head_seq b → 0 <= wq_limit rq →
  ss_cursors st !! name = Some cur → traced c fs0 cur →
  let '(st', fs, _) := stream_page rq st name b now in
  ∃ cur', ss_cursors st' !! name = Some cur' ∧ cur' <= b_head_seq b ∧ traced c (fs0 ++ fs) cur'.
Proof.
  intros Hst HP Hc Hlim Hcur Ht. unfold stream_page. rewrite Hcur. simpl default.
  destruct (page_covers b now cur Hst HP Hc Hlim) as [Hn Hcov]. set (d := diff_read _ _ _) in *. clearbody d.
  destruct (page_tombstone st name d) as [st1 f1] eqn:H1. destruct (page_records _ _ _ d) as [st2 f2] eqn:H2.
  destruct (page_caught_up st2 name d) as [st3 f3] eqn:H3.
  cut (∃ cur', ss_cursors st2 !! name = Some cur' ∧ cur' <= b_head_seq b ∧ traced c ((fs0 ++ f1) ++ f2) cur').
  { intros (cur' & Hc2 & Hle & Ht2). exists cur'. unfold page_caught_up in H3.
    rewrite !app_assoc. destruct (_ && _); injection H3 as <- <-; simpl; [|by rewrite app_nil_r].
    split_and!; [done..|]. apply traced_quiet; [done|]. by apply Forall_singleton. }
  assert (Hrec : ∀ x, ss_cursors st1 !! name = Some x → traced c (fs0 ++ f1) x →
    covers x (df_records d) (df_next_from_seq d) → df_records d ≠ [] ∨ df_tombstone d = None →
    ∃ cur', ss_cursors st2 !! name = Some cur' ∧ cur' <= b_head_seq b ∧ traced c ((fs0 ++ f1) ++ f2) cur').
  { intros x Hx Htx Hcx Hor. exists (df_next_from_seq d). unfold page_records in H2.
    destruct (df_records d) as [|o rs] eqn:Hr.
    - destruct Hor as [?|Hno]; [done|]. rewrite Hno in H2. injection H2 as <- <-. simpl.
      rewrite lookup_insert_eq, app_nil_r. split_and!; [done..|]. by eapply tr_move.
    - injection H2 as <- <-. simpl. rewrite lookup_insert_eq. split_and!; [done..|].
      eapply tr_emit; [done|simpl; by rewrite lookup_insert_eq|]. simpl. by rewrite bool_decide_eq_true_2. }
  unfold page_tombstone in H1. destruct (df_tombstone d) as [t|] eqn:Htomb.
  - destruct Hcov as [Hgap Hpage].
    assert (Ht1 : traced c (fs0 ++ f1) (t_gap_to t) ∧ ss_cursors st1 !! name = Some (t_gap_to t)).
    { injection H1 as <- <-. simpl. rewrite lookup_insert_eq. split; [|done].
      eapply tr_emit; [done|simpl; by rewrite lookup_insert_eq|done]. }
    destruct Ht1 as [Ht1 Hc1]. destruct (df_records d) as [|o rs] eqn:Hr; [|eapply Hrec; try done; by left].
    exists (t_gap_to t). unfold page_records in H2. rewrite Hr, Htomb in H2. injection H2 as <- <-. rewrite app_nil_r.
    pose proof (cv_le _ _ _ Hpage). split_and!; [done|lia|done].
  - injection H1 as <- <-. rewrite app_nil_r in *. apply (Hrec cur); [done..|]. by right.
Qed.

(** Every read of the topic among the worlds satisfies [P]. *)
Definition reads_in (worlds : list World) : Prop :=
  ∀ w b now, w ∈ worlds → wd_topic w name = TopicReads b now → P b now.

Lemma run_traced names worlds : 0 <= wq_limit rq → reads_in worlds →
  ∀ todo st c fs0 cur lo, steady name lo worlds → 0 <= c → cur <= lo →
  ss_cursors st !! name = Some cur → traced c fs0 cur →
  let '(st', fs) := stream_run rq names worlds todo st in
  ∃ cur', ss_cursors st' !! name = Some cur' ∧ cur' <= last_head name lo worlds ∧ traced c (fs0 ++ fs) cur'.
Proof.
  intros Hlim. induction worlds as [|w worlds IH]; intros HP todo st c fs0 cur lo Hs H0 Hlo Hcur Ht.
  { exists cur. by rewrite app_nil_r. }
  pose proof (last_head_ge _ _ _ Hs) as Hlh. cbn [stream_run].
  assert (Hend : ∀ ev, event_records name ev = [] → traced c (fs0 ++ [(ss_cursors st, ev)]) cur).
  { intros ev Hev. apply traced_quiet; [done|]. by apply Forall_singleton. }
  assert (HP' : reads_in worlds) by (intros w' b' now' Hin; apply HP; by right).
  destruct (next_topic names st todo) as [[[start n] rest]|].
  2:{ exists cur. split_and!; [done|lia|]. destruct (_ && _); [by apply Hend|by rewrite app_nil_r]. }
  destruct (start && wd_shutdown w); [exists cur; split_and!; [done|lia|by apply Hend]|].
  assert (Hnext : ∀ lo' todo' st1 fs1 cur1, steady name lo' worlds → cur1 <= lo' → ss_cursors st1 !! name = Some cur1 →
    traced c (fs0 ++ fs1) cur1 →
    let '(st', fs) := (let '(st', fs') := stream_run rq names worlds todo' st1 in (st', fs1 ++ fs')) in
    ∃ cur', ss_cursors st' !! name = Some cur' ∧ cur' <= last_head name lo' worlds ∧ traced c (fs0 ++ fs) cur').
  { intros lo' todo' st1 fs1 cur1 Hs' Hlo' Hc1 Ht1. pose proof (IH HP' todo' st1 c (fs0 ++ fs1) cur1 lo' Hs' H0 Hlo' Hc1 Ht1) as H.
    destruct (stream_run _ _ _ _ _) as [st' fs']. destruct H as (x & Hx & ? & Htx). exists x. by rewrite app_assoc. }
  clear IH. cbn [steady last_head] in Hs, Hlh |- *. destruct (decide (n = name)) as [->|Hne].
  - destruct (wd_topic w name) as [|e|b now] eqn:Hw; [by apply (Hnext lo _ _ _ cur); [..|apply Hend]..|].
    destruct Hs as (Hst & Hh & Hs). pose proof (cv_le _ _ _ (traced_covers _ _ _ Ht)).
    pose proof (page_own c fs0 st b now cur Hst (HP w b now ltac:(by left) Hw) ltac:(lia) Hlim Hcur Ht) as Hp.
    destruct (stream_page rq st name b now) as [[st1 fs1] up]. destruct Hp as (cur1 & Hc1 & Hle & Ht1).
    by apply (Hnext _ _ st1 fs1 cur1).
  - set (lo' := match wd_topic w name with TopicReads b _ => b_head_seq b | _ => lo end).
    assert (Hs' : steady name lo' worlds ∧ cur <= lo' ∧
      match wd_topic w name with TopicReads b _ => last_head name (b_head_seq b) worlds | _ => last_head name lo worlds end
        = last_head name lo' worlds).
    { unfold lo'. destruct (wd_topic w name); [done..|]. destruct Hs as (_ & ? & ?). split_and!; [done|lia|done]. }
    destruct Hs' as (Hs' & Hlo' & ->). clearbody lo'.
    destruct (wd_topic w n) as [|e|b now]; [by apply (Hnext lo' _ _ _ cur); [..|apply Hend]..|].
    pose proof (page_other c fs0 st n b now cur Hne Hcur Ht) as Hp.
    destruct (stream_page rq st n b now) as [[st1 fs1] up]. destruct Hp as [Hc1 Ht1]. by apply (Hnext lo' _ st1 fs1 cur).
Qed.

(** ** Resuming *)

Lemma rewind_lookup (session id : Cursors) cs i :
  session !! name = Some cs → id !! name = Some i → i <= cs → rewind session id !! name = Some i.
Proof.
  intros Hs Hi Hle. unfold rewind. rewrite map_lookup_imap, Hs. simpl. rewrite Hi. f_equal. lia.
Qed.

(** The client holds everything up to its last id, which the session has passed. *)
Definition client_at (c : Z) (cl : ClientState) (i : Z) : Prop :=
  ∃ id cs, cl_last_id cl = Some id ∧ id !! name = Some i ∧ cl_session cl !! name = Some cs ∧ i <= cs ∧
    covers c (records_of name (cl_frames cl)) i.

Lemma connect_at c cl i cn lo :
  0 <= wq_limit rq → reads_in (cn_worlds cn) → (cn_received cn <= cn_yielded cn)%nat →
  0 <= c → steady name lo (cn_worlds cn) → i <= lo → client_at c cl i →
  ∃ i', i' <= last_head name lo (cn_worlds cn) ∧ client_at c (connect rq cl cn) i'.
Proof.
  intros Hlim HP Hk H0 Hs Hlo (id & cs & Hid & Hi & Hcs & Hle & Hcov). unfold connect. rewrite Hid.
  set (cursors := rewind (cl_session cl) id).
  assert (Hcur : cursors !! name = Some i) by (by eapply rewind_lookup).
  pose proof (cv_le _ _ _ Hcov) as Hci.
  pose proof (run_traced (session_names cursors) (cn_worlds cn) Hlim HP [] (stream_open cursors) i [] i lo Hs ltac:(lia) Hlo
    Hcur (tr_start i)) as Hrun.
  destruct (stream_run _ _ _ _ _) as [st fs]. destruct Hrun as (cur' & Hst & Hend & Ht). simpl in Ht.
  destruct (traced_take i fs cur' (cn_yielded cn) Ht) as (y & Hy & Hty & Hly).
  destruct (traced_take i (take (cn_yielded cn) fs) y (cn_received cn) Hty) as (x & Hx & Htx & Hlx).
  rewrite take_take, Nat.min_l in Htx, Hlx by done.
  assert (Hsess : ∃ cs', cursors_at (cn_yielded cn) cursors fs st !! name = Some cs' ∧ x <= cs').
  { unfold cursors_at. destruct (Nat.leb_spec (length fs) (cn_yielded cn)); [exists cur'; split; [done|lia]|].
    exists y. split; [|done]. destruct (last (take (cn_yielded cn) fs)) as [f|]; simpl; [done|]. by subst y. }
  destruct Hsess as (cs' & Hcs' & Hxs). exists x. split; [lia|].
  assert (Hid' : ∃ id', match last (take (cn_received cn) fs) with Some f => Some f.1 | None => Some id end = Some id' ∧
    id' !! name = Some x).
  { destruct (last (take (cn_received cn) fs)) as [f|]; [by exists f.1|]. exists id. by subst x. }
  destruct Hid' as (id' & Hid' & Hix). exists id', cs'. simpl. split_and!; [done..|].
  rewrite records_of_app. eapply covers_app; [done|]. by apply traced_covers.
Qed.

Lemma connects_at c cns : 0 <= wq_limit rq → 0 <= c →
  Forall (λ cn, (cn_received cn <= cn_yielded cn)%nat) cns →
  ∀ cl i lo, reads_in (concat (cn_worlds <$> cns)) → steady name lo (concat (cn_worlds <$> cns)) → i <= lo →
  client_at c cl i → ∃ i', client_at c (connects rq cl cns) i'.
Proof.
  intros Hlim H0 Hk. induction Hk as [|cn cns Hcn _ IH]; intros cl i lo HP Hs Hlo Hat; [by exists i|].
  simpl in HP, Hs. apply steady_app in Hs as [Hs1 Hs2].
  destruct (connect_at c cl i cn lo) as (i' & Hi' & Hat'); try done.
  { intros w b now Hw. apply HP. apply elem_of_app. by left. }
  simpl. eapply IH; [|exact Hs2|exact Hi'|exact Hat']. intros w b now Hw. apply HP. apply elem_of_app. by right.
Qed.

End covers.

(** C8. Resuming a watch is exact for a client that already holds an id of the session,
    at or before its cursor, opens one stream at a time, and watches a topic that is not
    recreated: every read of the topic sees a head at least as high as the earlier reads
    and as the cursor of the id. Take any number of connections, each dropped after any
    number of frames of which the client received any prefix, with the session's other
    topics arbitrary and the topic itself growing, being trimmed and deleted from
    between the reads. If the client presents the last id it received on every
    reconnect, then over all the connections the records of the topic it received are
    ascending, so none is repeated, and none that was visible and deliverable when a
    stream passed it is missing, from the cursor it started with to its last id. *)
Theorem watch_resume_exact rq name cns (session id : Cursors) c cs :
  0 <= wq_limit rq → 0 <= c → id !! name = Some c → session !! name = Some cs → c <= cs →
  Forall (λ cn, (cn_received cn <= cn_yielded cn)%nat) cns →
  let worlds := concat (cn_worlds <$> cns) in
  steady name c worlds →
  let cl := connects rq (mkClient session (Some id) []) cns in
  ∃ last i, cl_last_id cl = Some last ∧ last !! name = Some i ∧
    covers rq (λ b now, ∃ w, w ∈ worlds ∧ wd_topic w name = TopicReads b now) c (records_of name (cl_frames cl)) i.
Proof.
  intros Hlim H0 Hi Hcs Hle Hk worlds Hs cl.
  destruct (connects_at rq name (λ b now, ∃ w, w ∈ worlds ∧ wd_topic w name = TopicReads b now) c cns Hlim H0 Hk
    (mkClient session (Some id) []) c c) as (i & last & cs' & ? & ? & _ & _ & ?); [|done|lia| |by eauto].
  - intros w b now Hw Ht. by exists w.
  - exists id, cs. split_and!; try done. apply covers_refl.
Qed.
End watch.

Module WatchSamples.
Import Samples.

(** Ten records in topic [jobs], watched three at a time. *)
Definition jobs_watch : WatchRequest := mkWatch None 3 0 true true.
Definition jobs_world : World := mkWorld false (λ n, if bool_decide (n = "jobs"%string) then TopicReads (sample_topic 0 0 0 10) 0 else TopicGone).
Definition jobs_at (seq : Z) : Cursors := {["jobs"%string := seq]}.
Definition jobs_received (cl : ClientState (V := unit)) : list Z := ro_seq <$> records_of "jobs" (cl_frames cl).

(** The second of two frames is lost with the connection and sent again. *)
Definition jobs_connections : list (Connection (V := unit)) :=
  [mkConn [jobs_world; jobs_world] 2 1; mkConn (replicate 4 jobs_world) 5 5].

Lemma watch_resume_exact_witness :
  jobs_received (connects jobs_watch (mkClient (jobs_at 0) (Some (jobs_at 0)) []) jobs_connections) = seqZ 1 10 ∧
  ∃ last i, cl_last_id (connects jobs_watch (mkClient (jobs_at 0) (Some (jobs_at 0)) []) jobs_connections) = Some last ∧
    last !! "jobs"%string = Some i ∧ 0 <= i.
Proof.
  split; [by vm_compute|].
  destruct (watch_resume_exact jobs_watch "jobs" jobs_connections (jobs_at 0) (jobs_at 0) 0 0) as (last & i & Hl & Hi & Hc).
  - by vm_compute.
  - done.
  - by vm_compute.
  - by vm_compute.
  - done.
  - repeat constructor.
  - pose proof (sample_topic_settled 0 0 0) as Hst. cbn [concat fmap list_fmap jobs_connections cn_worlds app replicate steady].
    repeat split; try apply Hst; by vm_compute.
  - exists last, i. split; [exact Hl|]. split; [exact Hi|]. exact (cv_le _ _ _ _ _ Hc).
Defined.

(** A stream that is cut after the tombstone of a recreated topic loses the
    topic: the id of the tombstone is the new head, so the client that resumes from
    it receives none of the ten records, while an uncut stream delivers them all. *)
Example recreated_tombstone_skips :
  jobs_received (connects jobs_watch (mkClient (jobs_at 20) (Some (jobs_at 20)) [])
    [mkConn (replicate 4 jobs_world) 6 6]) = seqZ 1 10 ∧
  jobs_received (connects jobs_watch (mkClient (jobs_at 20) (Some (jobs_at 20)) [])
    [mkConn (replicate 4 jobs_world) 1 1; mkConn (replicate 4 jobs_world) 6 6]) = [].
Proof. split; by vm_compute. Qed.

(** A connection that is lost before the client has an id leaves the session past
    frames the client never saw: the reconnect starts after them. *)
Example frames_lost_before_first_id :
  jobs_received (connects jobs_watch (mkClient (jobs_at 0) None [])
    [mkConn (replicate 4 jobs_world) 2 0; mkConn (replicate 4 jobs_world) 6 6]) = seqZ 7 4.
Proof. by vm_compute. Qed.

(** Two streams of a session share its cursors, so a stream whose client is
    gone takes records from the one that replaced it: after a reconnect that rewinds
    to 0, a page read by the old stream moves the session, and the new stream
    delivers only what follows that page. *)
Example stale_stream_takes_records :
  let cursors := rewind (jobs_at 6) (jobs_at 0) in
  let b := sample_topic 0 0 0 10 in
  let '(old, old_frames, _) := stream_page jobs_watch (stream_open cursors) "jobs" b 0 in
  let '(_, new_frames, _) := stream_page jobs_watch (with_cursors (stream_open cursors) (ss_cursors old)) "jobs" b 0 in
  ro_seq <$> records_of "jobs" old_frames = [1; 2; 3] ∧
  ro_seq <$> records_of "jobs" new_frames = [4; 5; 6].
Proof. by vm_compute. Qed.

(** A read that fails for another reason than a missing topic ends the watch of the
    topic with a [topic-deleted] frame. *)
Example failed_read_reports_deleted :
  (stream_run jobs_watch ["jobs"%string] [mkWorld false (λ _, TopicFails (V := unit) Internal)] [] (stream_open (jobs_at 0))).2
    = [(jobs_at 0, EvTopicDeleted "jobs")].
Proof. by vm_compute. Qed.

End WatchSamples.
