(* ===== verification/Sessions.v ===== *)
(** * The watch session registry

    Models [SessionStore] and [StreamHandle] of [src/http/watch.rs]: sessions are
    created under a cap that an atomic gauge enforces, reaped when they are idle, and
    kept while a stream is open.  Requests interleave between their accesses to the
    shared state: the reservation and the insert of a create, the fetch and the open
    of a stream, the reaping of one entry.  A session is shared by reference, so a
    stream holds it whether or not it is still registered.

    [sessions_exact]: the gauge counts the registered sessions and the creates in
    flight, stays within the cap, and no session that has an open stream is reaped.
    [fetched_session_reaped]: a session between the fetch and the open of a stream
    can be. *)

From stdpp Require Import base gmap list strings relations.
From S2P Require Import Prelude Types.

Definition SESSION_TTL_MS : Z := 300000.

(** The shared counters of a [Session]. *)
Record SessionCell := mkSession {
  se_active_streams : Z;
  se_last_access_ms : Z
}.

(** [Session::is_expired] *)
Definition is_expired (c : SessionCell) (now_ms : Z) : bool :=
  (se_active_streams c =? 0) && (as_i64 SESSION_TTL_MS <? i64_sat_sub now_ms (se_last_access_ms c)).

(** A request for a stream: the session it fetched, then the handle it holds. *)
Inductive StreamTask :=
  | StFetched (a : nat)
  | StOpen (a : nat)
  | StClosed.

(** The sessions by identity, the registry, the gauge, the creates that have
    reserved a slot, and the stream requests. *)
Record SessionStore := mkStore {
  so_cells : list SessionCell;
  so_sessions : gmap string nat;
  so_count : Z;
  so_creating : Z;
  so_streams : list StreamTask
}.
Definition store_new : SessionStore := mkStore [] ∅ 0 0 [].

(** The reservation of [try_insert_capped]: the loop that the compare-exchange
    ends, or [fetch_add] without a cap. *)
Definition reserve (cap : Z) (s : SessionStore) : option SessionStore :=
  if negb (cap =? 0) && (cap <=? so_count s) then None
  else Some (mkStore (so_cells s) (so_sessions s) (so_count s + 1) (so_creating s + 1) (so_streams s)).

(** Its insert under a fresh [wid]. *)
Definition insert_session (wid : string) (now_ms : Z) (s : SessionStore) : SessionStore :=
  mkStore (so_cells s ++ [mkSession 0 now_ms]) (<[wid := length (so_cells s)]> (so_sessions s)) (so_count s)
    (so_creating s - 1) (so_streams s).

(** [gc_expired] on one entry.  The loads of [is_expired] and the removal are one step: a
    stream that fetched the session before can open it in between, which is the order
    [fetched_session_reaped] shows with the open after the removal. *)
Definition gc_entry (wid : string) (now_ms : Z) (s : SessionStore) : SessionStore :=
  match so_sessions s !! wid with
  | Some a =>
      match so_cells s !! a with
      | Some c =>
          if is_expired c now_ms
          then mkStore (so_cells s) (delete wid (so_sessions s)) (so_count s - 1) (so_creating s) (so_streams s)
          else s
      | None => s
      end
  | None => s
  end.

(** [SessionStore::get] *)
Definition fetch (wid : string) (s : SessionStore) : SessionStore :=
  match so_sessions s !! wid with
  | Some a => mkStore (so_cells s) (so_sessions s) (so_count s) (so_creating s) (so_streams s ++ [StFetched a])
  | None => s
  end.

(** [open_on] of the fetched session, and the drop of the [StreamHandle]. *)
Definition open_on (i : nat) (now_ms : Z) (s : SessionStore) : SessionStore :=
  match so_streams s !! i with
  | Some (StFetched a) =>
      match so_cells s !! a with
      | Some c =>
          mkStore (<[a := mkSession (se_active_streams c + 1) now_ms]> (so_cells s)) (so_sessions s) (so_count s)
            (so_creating s) (<[i := StOpen a]> (so_streams s))
      | None => s
      end
  | _ => s
  end.
Definition handle_drop (i : nat) (now_ms : Z) (s : SessionStore) : SessionStore :=
  match so_streams s !! i with
  | Some (StOpen a) =>
      match so_cells s !! a with
      | Some c =>
          mkStore (<[a := mkSession (se_active_streams c - 1) now_ms]> (so_cells s)) (so_sessions s) (so_count s)
            (so_creating s) (<[i := StClosed]> (so_streams s))
      | None => s
      end
  | _ => s
  end.

(** One access of some request; random [wid]s do not collide. *)
Inductive session_step (cap : Z) : SessionStore → SessionStore → Prop :=
  | sess_reserve s s' : reserve cap s = Some s' → session_step cap s s'
  | sess_insert s wid now :
      0 < so_creating s → so_sessions s !! wid = None → session_step cap s (insert_session wid now s)
  | sess_gc s wid now : session_step cap s (gc_entry wid now s)
  | sess_fetch s wid : session_step cap s (fetch wid s)
  | sess_open s i now : session_step cap s (open_on i now s)
  | sess_drop s i now : session_step cap s (handle_drop i now s).

(** The streams open on a session. *)
Definition open_streams (a : nat) (t : StreamTask) : Z :=
  match t with StOpen a' => if bool_decide (a' = a) then 1 else 0 | _ => 0 end.

Record sessions_ok (cap : Z) (s : SessionStore) : Prop := {
  so_gauge : so_count s = Z.of_nat (size (so_sessions s)) + so_creating s;
  so_cap : cap = 0 ∨ so_count s <= cap;
  so_pending : 0 <= so_creating s;
  so_known : ∀ wid a, so_sessions s !! wid = Some a → (a < length (so_cells s))%nat;
  so_active : ∀ a c, so_cells s !! a = Some c → se_active_streams c = held (open_streams a) (so_streams s);
  so_task : ∀ i a, so_streams s !! i = Some (StFetched a) ∨ so_streams s !! i = Some (StOpen a) →
    (a < length (so_cells s))%nat
}.

Lemma open_streams_nonneg a t : 0 <= open_streams a t.
Proof. destruct t; simpl; [lia| |lia]. case_bool_decide; lia. Qed.

(** A step that only moves tasks and cells keeps the registry part. *)
Lemma ok_streams cap s cells streams :
  sessions_ok cap s → length cells = length (so_cells s) →
  (∀ a c, cells !! a = Some c → se_active_streams c = held (open_streams a) streams) →
  (∀ i a, streams !! i = Some (StFetched a) ∨ streams !! i = Some (StOpen a) → (a < length (so_cells s))%nat) →
  sessions_ok cap (mkStore cells (so_sessions s) (so_count s) (so_creating s) streams).
Proof. intros [] Hlen Ha Ht. split; simpl; try done; rewrite ?Hlen; done. Qed.

(** A stream task moves between closed and open on session [a]. *)
Lemma ok_move cap s i a c t t' now :
  sessions_ok cap s → so_streams s !! i = Some t → so_cells s !! a = Some c →
  t = StFetched a ∨ t = StOpen a → t' = StOpen a ∨ t' = StClosed →
  sessions_ok cap (mkStore (<[a := mkSession (se_active_streams c - open_streams a t + open_streams a t') now]> (so_cells s))
    (so_sessions s) (so_count s) (so_creating s) (<[i := t']> (so_streams s))).
Proof.
  intros Hok Hi Hc Ht Ht'. pose proof (so_active _ _ Hok) as Ha. apply ok_streams; [done|by rewrite length_insert|..].
  - intros a' c' Hc'. rewrite (held_insert _ _ _ t) by done. destruct (decide (a' = a)) as [->|Hne].
    + rewrite list_lookup_insert_eq in Hc' by (by eapply lookup_lt_Some). injection Hc' as <-. simpl.
      rewrite (Ha a c Hc). lia.
    + rewrite list_lookup_insert_ne in Hc' by done. rewrite (Ha a' c' Hc').
      assert (open_streams a' t = 0 ∧ open_streams a' t' = 0) as [-> ->]; [|lia].
      split; [destruct Ht as [->| ->]|destruct Ht' as [->| ->]]; simpl; try done; by rewrite bool_decide_eq_false_2.
  - intros j a' Hj. destruct (decide (j = i)) as [->|Hne].
    + rewrite list_lookup_insert_eq in Hj by (by eapply lookup_lt_Some).
      destruct Ht' as [->| ->]; destruct Hj as [Hj|Hj]; simplify_eq. by eapply lookup_lt_Some.
    + rewrite list_lookup_insert_ne in Hj by done. by eapply so_task.
Qed.

Lemma insert_ok cap s wid now :
  sessions_ok cap s → 0 < so_creating s → so_sessions s !! wid = None → sessions_ok cap (insert_session wid now s).
Proof.
  intros [Hg Hcap Hpd Hk Ha Ht] Hp Hw. split; simpl; try done; try lia.
  - rewrite map_size_insert_None by done. lia.
  - intros wid' a Hl. rewrite length_app. simpl. apply lookup_insert_Some in Hl as [[_ <-]|[_ Hl]]; [lia|].
    specialize (Hk _ _ Hl). lia.
  - intros a c Hl. apply lookup_app_Some in Hl as [Hl|[Hge Hl]]; [by apply Ha|].
    apply list_lookup_singleton_Some in Hl as [Hz <-]. simpl. symmetry.
    assert (Hna : ∀ j, so_streams s !! j ≠ Some (StOpen a)).
    { intros j Hj. specialize (Ht j a (or_intror Hj)). lia. }
    clear -Hna. induction (so_streams s) as [|t ts IH]; [done|]. rewrite held_cons, IH by (intros j; apply (Hna (S j))).
    destruct t as [|a'|]; simpl; try done. rewrite bool_decide_eq_false_2; [done|]. intros ->. by apply (Hna 0%nat).
  - intros i a Hi. rewrite length_app. simpl. specialize (Ht i a Hi). lia.
Qed.

Lemma gc_ok cap s wid now : sessions_ok cap s → sessions_ok cap (gc_entry wid now s).
Proof.
  intros Hok. unfold gc_entry. destruct (so_sessions s !! wid) as [a|] eqn:Hw; [|done]. destruct (so_cells s !! a) as [c|]; [|done].
  destruct (is_expired c now); [|done]. destruct Hok as [Hg Hcap Hpd Hk Ha Ht]. split; simpl; try done; try lia.
  - assert (size (so_sessions s) ≠ 0%nat).
    { intros Hz. apply map_size_empty_iff in Hz. by rewrite Hz, lookup_empty in Hw. }
    rewrite map_size_delete_Some by (by eexists). lia.
  - intros wid' a' Hl. apply lookup_delete_Some in Hl as [_ Hl]. by eapply Hk.
Qed.

Lemma fetch_ok cap s wid : sessions_ok cap s → sessions_ok cap (fetch wid s).
Proof.
  intros Hok. unfold fetch. destruct (so_sessions s !! wid) as [a|] eqn:Hw; [|done]. apply ok_streams; [done|done|..].
  - intros a' c Hl. rewrite held_snoc. simpl. rewrite (so_active _ _ Hok a' c Hl). lia.
  - intros i a' Hi. rewrite !lookup_app_Some in Hi.
    assert (Hone : ∀ j t, [StFetched a] !! j = Some t → t = StFetched a).
    { intros j t Hj. by apply list_lookup_singleton_Some in Hj as [_ <-]. }
    destruct Hi as [[Hi|[_ Hi]]|[Hi|[_ Hi]]]; try (by (eapply so_task; [done|]; eauto)); apply Hone in Hi; simplify_eq.
    by eapply so_known.
Qed.

Lemma session_step_ok cap s s' : 0 <= cap → sessions_ok cap s → session_step cap s s' → sessions_ok cap s'.
Proof.
  intros H0 Hok Hst. destruct Hst as [s s' Hr|s wid now Hp Hw|s wid now|s wid|s i now|s i now].
  - unfold reserve in Hr. destruct (_ && _) eqn:Hg; [done|]. injection Hr as <-. destruct Hok. split; simpl; try done; lia.
  - by apply insert_ok.
  - by apply gc_ok.
  - by apply fetch_ok.
  - unfold open_on. destruct (so_streams s !! i) as [[a| |]|] eqn:Hi; [|done..]. destruct (so_cells s !! a) as [c|] eqn:Hc; [|done].
    pose proof (ok_move cap s i a c (StFetched a) (StOpen a) now Hok Hi Hc ltac:(by left) ltac:(by left)) as H. simpl in H.
    rewrite bool_decide_eq_true_2 in H by done. by rewrite Z.sub_0_r in H.
  - unfold handle_drop. destruct (so_streams s !! i) as [[|a|]|] eqn:Hi; [done| |done..].
    destruct (so_cells s !! a) as [c|] eqn:Hc; [|done].
    pose proof (ok_move cap s i a c (StOpen a) StClosed now Hok Hi Hc ltac:(by right) ltac:(by right)) as H. simpl in H.
    rewrite (bool_decide_eq_true_2 (a = a)) in H by done. by rewrite Z.add_0_r in H.
Qed.

Lemma sessions_reachable cap s : 0 <= cap → rtc (session_step cap) store_new s → sessions_ok cap s.
Proof.
  intros H0. revert s. apply rtc_ind_r; [|intros; by eapply session_step_ok].
  split; simpl; try done; [lia|intros i a [?|?]; done].
Qed.

Lemma open_active cap s i a c :
  sessions_ok cap s → so_streams s !! i = Some (StOpen a) → so_cells s !! a = Some c → 0 < se_active_streams c.
Proof.
  intros Hok Hi Hc. rewrite (so_active _ _ Hok a c Hc).
  pose proof (held_lookup (open_streams a) _ _ _ (open_streams_nonneg a) Hi) as H. simpl in H.
  rewrite bool_decide_eq_true_2 in H by done. lia.
Qed.

(** C36. In every interleaving of creates, stream opens and closes and idle
    reaping: the gauge counts exactly the registered sessions and the creates that
    hold a reservation, and never exceeds [max_watch_sessions]; and a registered
    session that has an open stream stays registered through any further step. *)
Theorem sessions_exact cap s :
  0 <= cap → rtc (session_step cap) store_new s →
  so_count s = Z.of_nat (size (so_sessions s)) + so_creating s ∧ 0 <= so_creating s ∧
  (cap = 0 ∨ so_count s <= cap) ∧
  ∀ s' i a wid, so_streams s !! i = Some (StOpen a) → so_sessions s !! wid = Some a →
    session_step cap s s' → so_sessions s' !! wid = Some a.
Proof.
  intros H0 Hr. pose proof (sessions_reachable cap s H0 Hr) as Hok. pose proof Hok as [Hg Hcap Hpd Hk Ha Ht].
  split_and!; [done..|]. intros s' i a wid Hi Hw Hst.
  destruct Hst as [s s' Hrs|s wid' now Hp Hn|s wid' now|s wid'|s j now|s j now].
  - unfold reserve in Hrs. destruct (_ && _); [done|]. by injection Hrs as <-.
  - simpl. rewrite lookup_insert_ne; [done|]. intros ->. congruence.
  - unfold gc_entry. destruct (so_sessions s !! wid') as [a'|] eqn:Hw'; [|done].
    destruct (so_cells s !! a') as [c|] eqn:Hc; [|done]. destruct (is_expired c now) eqn:Hx; [|done]. simpl.
    rewrite lookup_delete_ne; [done|]. intros ->. assert (a' = a) as -> by congruence.
    pose proof (open_active cap s i a c Hok Hi Hc). unfold is_expired in Hx. lia.
  - unfold fetch. by destruct (so_sessions s !! wid').
  - unfold open_on. destruct (so_streams s !! j) as [[a'| |]|]; [|done..]. by destruct (so_cells s !! a').
  - unfold handle_drop. destruct (so_streams s !! j) as [[|a'|]|]; [done| |done..]. by destruct (so_cells s !! a').
Qed.

Module SessionSamples.

(** Under a cap of one: a create, a stream opened on the session. *)
Definition one_open : SessionStore :=
  mkStore [mkSession 1 5] {["wid_a"%string := 0%nat]} 1 0 [StOpen 0].

Lemma sessions_exact_witness :
  rtc (session_step 1) store_new one_open ∧ so_count one_open = Z.of_nat (size (so_sessions one_open)) + 0 ∧
  so_sessions (gc_entry "wid_a" 1000000 one_open) !! "wid_a"%string = Some 0%nat.
Proof.
  assert (Hr : rtc (session_step 1) store_new one_open).
  { eapply rtc_l; [by apply (sess_reserve 1 _ (mkStore [] ∅ 1 1 []))|].
    eapply rtc_l; [by apply (sess_insert 1 _ "wid_a" 0)|]. eapply rtc_l; [apply (sess_fetch 1 _ "wid_a")|].
    eapply rtc_l; [apply (sess_open 1 _ 0 5)|]. vm_compute. apply rtc_refl. }
  split; [exact Hr|]. destruct (sessions_exact 1 one_open ltac:(done) Hr) as (Hg & _ & _ & Hk).
  split; [exact Hg|]. apply (Hk _ 0%nat 0%nat "wid_a"%string); [done|by vm_compute|apply sess_gc].
Defined.

(** A stream open fetches an idle session, another request reaps it, and the
    stream then opens on a session that is no longer registered. *)
Example fetched_session_reaped :
  ∃ s, rtc (session_step 0) store_new s ∧ so_streams s = [StOpen 0] ∧ so_sessions s = ∅.
Proof.
  exists (mkStore [mkSession 1 400000] ∅ 0 0 [StOpen 0]). split; [|done].
  eapply rtc_l; [by apply (sess_reserve 0 _ (mkStore [] ∅ 1 1 []))|].
  eapply rtc_l; [by apply (sess_insert 0 _ "wid_a" 0)|]. eapply rtc_l; [apply (sess_fetch 0 _ "wid_a")|].
  eapply rtc_l; [apply (sess_gc 0 _ "wid_a" 400000)|]. eapply rtc_l; [apply (sess_open 0 _ 0 400000)|].
  vm_compute. apply rtc_refl.
Qed.

End SessionSamples.
