(* ===== verification/Wal.v ===== *)
(** * The write-ahead log format

    Models [src/storage/wal.rs]: the record types, [encode_frame], [decode_one]
    and the torn-tail-safe [WalReader].  A frame is

      frame_len:u32 | type flags topic_id seq ts node_len tag_len data_len
                    | node tag data | xxh3:u64

    and the reader stops at the first frame that is short, inconsistent or fails
    its checksum.  The XXH3-64 hash is third-party code: a parameter [crc] of
    which only the 64-bit range is assumed.  [wal_frame_roundtrip]: a frame that was
    encoded is decoded.  [wal_decode_sound]: a frame that is decoded was framed so.
    [wal_crash_prefix]: a torn log gives the frames before the tear.  [pos]-based readers are modelled by
    the remaining buffer ([pos == data.len()] is an empty remainder). *)

From S2P Require Import Prelude Bytes.

(** ** Records *)
Inductive MatchSel :=
  | SelEq (v : string)
  | SelGlob (v : string).

Record RouterOp := mkRouterOp {
  ro_name : string;
  ro_source : string;
  ro_dest : string;
  ro_preserve_node : bool;
  ro_preserve_tag : bool;
  ro_create_dest : bool;
  ro_allow_cycle : bool;
  ro_exactly_once : bool;
  ro_filter : option MatchSel;
  ro_initial_cursor : Z;
  ro_initial_dest_base : Z
}.

Record TopicConfigOp := mkTopicConfigOp {
  tc_name : string;
  tc_config : bytes
}.

Module WalRecord.
Inductive t :=
  | Append (topic_id seq ts : Z) (node tag : option string) (data : bytes)
  | Delete (topic_id : Z) (before_seq : option Z) (match_ : option MatchSel)
      (seqs : list Z) (bound_head : option Z) (ts : Z)
  | TopicConfig (topic_id : Z) (op : TopicConfigOp) (tombstone : bool) (ts : Z)
  | RouterCreate (op : RouterOp) (ts : Z)
  | RouterDelete (name : string) (ts : Z)
  | EvictWatermark (topic_id evict_floor expiry_floor earliest_seq ts : Z)
  | CheckpointMark (last_checkpoint_seq ts : Z)
  | Lease (topic_id seq event : Z) (node : string) (lease_id deadline deliveries ts : Z)
  | HeadWatermark (topic_id head_seq ts : Z).
End WalRecord.

#[export] Instance MatchSel_eq_dec : EqDecision MatchSel.
Proof. solve_decision. Defined.
#[export] Instance RouterOp_eq_dec : EqDecision RouterOp.
Proof. solve_decision. Defined.
#[export] Instance TopicConfigOp_eq_dec : EqDecision TopicConfigOp.
Proof. solve_decision. Defined.
#[export] Instance WalRecord_eq_dec : EqDecision WalRecord.t.
Proof. solve_decision. Defined.

Record WalFrame := mkWalFrame {
  wf_record : WalRecord.t;
  wf_durable : bool
}.

Definition FRAME_HEADER_LEN : nat := 34.
Definition FRAME_CRC_LEN : nat := 8.
Definition FRAME_LEN_PREFIX : nat := 4.

Definition T_APPEND : Z := 1.
Definition T_BOX_CREATE : Z := 2.
Definition T_BOX_DELETE : Z := 3.
Definition T_ROUTER_CREATE : Z := 4.
Definition T_ROUTER_DELETE : Z := 5.
Definition T_DELETE : Z := 6.
Definition T_EVICT_WATERMARK : Z := 7.
Definition T_CHECKPOINT_MARK : Z := 8.
Definition T_CONFIG_UPDATE : Z := 9.
Definition T_LEASE : Z := 10.
Definition T_HEAD_WATERMARK : Z := 11.

Definition FLAG_HAS_TAG : Z := 1.
Definition FLAG_HAS_NODE : Z := 2.
Definition FLAG_DURABLE : Z := 4.

Import WalRecord.

Definition type_tag (r : WalRecord.t) : Z :=
  match r with
  | Append _ _ _ _ _ _ => T_APPEND
  | Delete _ _ _ _ _ _ => T_DELETE
  | TopicConfig _ _ false _ => T_BOX_CREATE
  | TopicConfig _ _ true _ => T_BOX_DELETE
  | RouterCreate _ _ => T_ROUTER_CREATE
  | RouterDelete _ _ => T_ROUTER_DELETE
  | EvictWatermark _ _ _ _ _ => T_EVICT_WATERMARK
  | CheckpointMark _ _ => T_CHECKPOINT_MARK
  | Lease _ _ _ _ _ _ _ _ => T_LEASE
  | HeadWatermark _ _ _ => T_HEAD_WATERMARK
  end.

(** [WalRecord::topic_id] *)
Definition record_topic_id (r : WalRecord.t) : Z :=
  match r with
  | Append id _ _ _ _ _ | Delete id _ _ _ _ _ | TopicConfig id _ _ _
  | EvictWatermark id _ _ _ _ | Lease id _ _ _ _ _ _ _ | HeadWatermark id _ _ => id
  | RouterCreate _ _ | RouterDelete _ _ | CheckpointMark _ _ => 0
  end.

(** [WalRecord::seq] *)
Definition record_seq (r : WalRecord.t) : Z :=
  match r with
  | Append _ seq _ _ _ _ => seq
  | Lease _ seq _ _ _ _ _ _ => seq
  | _ => 0
  end.

Definition record_ts (r : WalRecord.t) : Z :=
  match r with
  | Append _ _ ts _ _ _ | Delete _ _ _ _ _ ts | TopicConfig _ _ _ ts | RouterCreate _ ts
  | RouterDelete _ ts | EvictWatermark _ _ _ _ ts | CheckpointMark _ ts
  | Lease _ _ _ _ _ _ _ ts | HeadWatermark _ _ ts => ts
  end.

(** ** Body codec *)

(** [write_match] *)
Definition write_match (m : option MatchSel) : bytes :=
  match m with
  | None => [byte_of_Z 0]
  | Some (SelEq v) => byte_of_Z 1 :: byte_of_Z 0 :: write_lp_bytes (as_bytes v)
  | Some (SelGlob v) => byte_of_Z 1 :: byte_of_Z 1 :: write_lp_bytes (as_bytes v)
  end.

(** [read_match] *)
Definition read_match (buf : bytes) : option (option MatchSel * bytes) :=
  '(present, buf) ← read_u8 buf;
  if present =? 0 then Some (None, buf)
  else if present =? 1 then
    '(op, buf) ← read_u8 buf;
    '(v, buf) ← read_lp_str buf;
    if op =? 0 then Some (Some (SelEq v), buf)
    else if op =? 1 then Some (Some (SelGlob v), buf)
    else None
  else None.

(** The optional u64 of a [Delete] body: a presence byte, then the value. *)
Definition write_opt_u64 (o : option Z) : bytes :=
  match o with
  | Some b => byte_of_Z 1 :: le_bytes 8 b
  | None => [byte_of_Z 0]
  end.

(** [has_before] accepts any byte other than 1 as absent. *)
Definition read_before (buf : bytes) : option (option Z * bytes) :=
  '(has_before, buf) ← read_u8 buf;
  if has_before =? 1 then '(v, buf) ← read_u64 buf; Some (Some v, buf) else Some (None, buf).

(** The bound must be flagged 0 or 1. *)
Definition read_bound (buf : bytes) : option (option Z * bytes) :=
  '(has_bound, buf) ← read_u8 buf;
  if has_bound =? 1 then '(v, buf) ← read_u64 buf; Some (Some v, buf)
  else if has_bound =? 0 then Some (None, buf)
  else None.

Fixpoint read_seqs (n : nat) (buf : bytes) : option (list Z * bytes) :=
  match n with
  | O => Some ([], buf)
  | S n => '(s, buf) ← read_u64 buf; '(l, buf) ← read_seqs n buf; Some (s :: l, buf)
  end.

Definition b2z (b : bool) : Z := if b then 1 else 0.

Definition router_bools (op : RouterOp) : Z :=
  Z.lor (Z.lor (Z.lor (Z.lor (b2z (ro_preserve_node op))
    (Z.shiftl (b2z (ro_preserve_tag op)) 1)) (Z.shiftl (b2z (ro_create_dest op)) 2))
    (Z.shiftl (b2z (ro_allow_cycle op)) 3)) (Z.shiftl (b2z (ro_exactly_once op)) 4).

(** The [node], [tag] and [data] sections of a record. *)
Definition record_node (r : WalRecord.t) : option string :=
  match r with Append _ _ _ node _ _ => node | _ => None end.
Definition record_tag (r : WalRecord.t) : option string :=
  match r with Append _ _ _ _ tag _ => tag | _ => None end.
Definition opt_bytes (s : option string) : bytes :=
  match s with Some s => as_bytes s | None => [] end.

Definition encode_body (r : WalRecord.t) : bytes :=
  match r with
  | Append _ _ _ _ _ data => data
  | Delete _ before_seq match_ seqs bound_head _ =>
      write_opt_u64 before_seq ++ write_match match_ ++
      le_bytes 4 (Z.of_nat (length seqs)) ++ concat (le_bytes 8 <$> seqs) ++
      write_opt_u64 bound_head
  | TopicConfig _ op _ _ =>
      write_lp_bytes (as_bytes (tc_name op)) ++ write_lp_bytes (tc_config op)
  | RouterCreate op _ =>
      write_lp_bytes (as_bytes (ro_name op)) ++ write_lp_bytes (as_bytes (ro_source op)) ++
      write_lp_bytes (as_bytes (ro_dest op)) ++ [byte_of_Z (router_bools op)] ++
      write_match (ro_filter op) ++ le_bytes 8 (ro_initial_cursor op) ++
      le_bytes 8 (ro_initial_dest_base op)
  | RouterDelete name _ => write_lp_bytes (as_bytes name)
  | EvictWatermark _ evict_floor expiry_floor earliest_seq _ =>
      le_bytes 8 evict_floor ++ le_bytes 8 earliest_seq ++ le_bytes 8 expiry_floor
  | CheckpointMark last _ => le_bytes 8 last
  | Lease _ _ event node lease_id deadline deliveries _ =>
      [byte_of_Z event] ++ le_bytes 8 lease_id ++ le_bytes 8 deadline ++
      le_bytes 8 deliveries ++ write_lp_bytes (as_bytes node)
  | HeadWatermark _ head_seq _ => le_bytes 8 head_seq
  end.

(** The flags byte. *)
Definition encode_flags (r : WalRecord.t) (durable : bool) : Z :=
  Z.lor (Z.lor (if durable then FLAG_DURABLE else 0)
    match record_node r with Some _ => FLAG_HAS_NODE | None => 0 end)
    match record_tag r with Some _ => FLAG_HAS_TAG | None => 0 end.

(** The per-type [match] of [decode_one] on the data section. *)
Definition decode_body (tag topic_id seq ts : Z) (node_s tag_s : option string)
    (data : bytes) : option WalRecord.t :=
  if tag =? T_APPEND then Some (Append topic_id seq ts node_s tag_s data)
  else if tag =? T_DELETE then
    '(before_seq, buf) ← read_before data;
    '(match_, buf) ← read_match buf;
    '(n, buf) ← read_u32 buf;
    '(seqs, buf) ← read_seqs (Z.to_nat n) buf;
    '(bound_head, buf) ← read_bound buf;
    match buf with
    | [] => Some (Delete topic_id before_seq match_ seqs bound_head ts)
    | _ => None
    end
  else if (tag =? T_BOX_CREATE) || (tag =? T_BOX_DELETE) then
    '(name, buf) ← read_lp_str data;
    '(config, _) ← read_lp_bytes buf;
    Some (TopicConfig topic_id (mkTopicConfigOp name config) (tag =? T_BOX_DELETE) ts)
  else if tag =? T_ROUTER_CREATE then
    '(name, buf) ← read_lp_str data;
    '(source, buf) ← read_lp_str buf;
    '(dest, buf) ← read_lp_str buf;
    '(bools, buf) ← read_u8 buf;
    '(filter, buf) ← read_match buf;
    '(initial_cursor, buf) ← read_u64 buf;
    '(initial_dest_base, buf) ← read_u64 buf;
    let bit n := negb (Z.land bools n =? 0) in
    match buf with
    | [] =>
        Some (RouterCreate
          (mkRouterOp name source dest (bit 1) (bit 2) (bit 4) (bit 8) (bit 16)
             filter initial_cursor initial_dest_base) ts)
    | _ => None
    end
  else if tag =? T_ROUTER_DELETE then
    '(name, _) ← read_lp_str data; Some (RouterDelete name ts)
  else if tag =? T_EVICT_WATERMARK then
    '(evict_floor, buf) ← read_u64 data;
    '(earliest_seq, buf) ← read_u64 buf;
    '(expiry_floor, buf) ← read_u64 buf;
    match buf with
    | [] => Some (EvictWatermark topic_id evict_floor expiry_floor earliest_seq ts)
    | _ => None
    end
  else if tag =? T_CONFIG_UPDATE then
    '(name, buf) ← read_lp_str data;
    '(config, _) ← read_lp_bytes buf;
    Some (TopicConfig topic_id (mkTopicConfigOp name config) false ts)
  else if tag =? T_CHECKPOINT_MARK then
    '(last, _) ← read_u64 data; Some (CheckpointMark last ts)
  else if tag =? T_LEASE then
    '(event, buf) ← read_u8 data;
    '(lease_id, buf) ← read_u64 buf;
    '(deadline, buf) ← read_u64 buf;
    '(deliveries, buf) ← read_u64 buf;
    '(node, _) ← read_lp_str buf;
    Some (Lease topic_id seq event node lease_id deadline deliveries ts)
  else if tag =? T_HEAD_WATERMARK then
    '(head_seq, _) ← read_u64 data; Some (HeadWatermark topic_id head_seq ts)
  else None.

(** The optional [node]/[tag] of a frame, [None] for invalid UTF-8. *)
Definition decode_opt_str (present : bool) (b : bytes) : option (option string) :=
  if present then s ← from_utf8 b; Some (Some s) else Some None.

Inductive DecodeStep :=
  | Frame (frame : WalFrame) (consumed : nat)
  | Torn.

Section wal.
(** [xxh3_64] *)
Variable crc : bytes → Z.

(** The part of a frame its checksum covers: header, node, tag and data. *)
Definition frame_payload (r : WalRecord.t) (durable : bool) : bytes :=
  let node := opt_bytes (record_node r) in
  let tag := opt_bytes (record_tag r) in
  let data := encode_body r in
  le_bytes 1 (type_tag r) ++ le_bytes 1 (encode_flags r durable) ++
  le_bytes 8 (record_topic_id r) ++ le_bytes 8 (record_seq r) ++ le_bytes 8 (record_ts r) ++
  le_bytes 2 (Z.of_nat (length node)) ++ le_bytes 2 (Z.of_nat (length tag)) ++
  le_bytes 4 (Z.of_nat (length data)) ++ node ++ tag ++ data.

(** [encode_frame] *)
Definition encode_frame (r : WalRecord.t) (durable : bool) : bytes :=
  let payload := frame_payload r durable in
  let body := payload ++ le_bytes 8 (crc payload) in
  le_bytes 4 (Z.of_nat (length body)) ++ body.

(** [decode_one] *)
Definition decode_one (buf : bytes) : DecodeStep :=
  if (length buf <? FRAME_LEN_PREFIX)%nat then Torn
  else
    let frame_len := Z.to_nat (le_value (slice buf 0 4)) in
    if (frame_len <? FRAME_HEADER_LEN + FRAME_CRC_LEN)%nat then Torn
    else
      let total := (FRAME_LEN_PREFIX + frame_len)%nat in
      if (length buf <? total)%nat then Torn
      else
        let crc_start := (total - FRAME_CRC_LEN)%nat in
        let stored_crc := le_value (slice buf crc_start total) in
        let computed := crc (slice buf FRAME_LEN_PREFIX crc_start) in
        if negb (stored_crc =? computed) then Torn
        else
          let h := drop FRAME_LEN_PREFIX buf in
          let tag := le_value (slice h 0 1) in
          let flags := le_value (slice h 1 2) in
          let topic_id := le_value (slice h 2 10) in
          let seq := le_value (slice h 10 18) in
          let ts := le_value (slice h 18 26) in
          let node_len := Z.to_nat (le_value (slice h 26 28)) in
          let tag_len := Z.to_nat (le_value (slice h 28 30)) in
          let data_len := Z.to_nat (le_value (slice h 30 34)) in
          let body := slice h FRAME_HEADER_LEN (crc_start - FRAME_LEN_PREFIX) in
          if negb (node_len + tag_len + data_len =? length body)%nat then Torn
          else
            let node := slice body 0 node_len in
            let tag_b := slice body node_len (node_len + tag_len) in
            let data := drop (node_len + tag_len) body in
            let durable := negb (Z.land flags FLAG_DURABLE =? 0) in
            match decode_opt_str (negb (Z.land flags FLAG_HAS_NODE =? 0)) node,
                  decode_opt_str (negb (Z.land flags FLAG_HAS_TAG =? 0)) tag_b with
            | Some node_s, Some tag_s =>
                match decode_body tag topic_id seq ts node_s tag_s data with
                | Some r => Frame (mkWalFrame r durable) total
                | None => Torn
                end
            | _, _ => Torn
            end.

(** [WalReader] drained: the frames it yields and the final [valid_len]. *)
Fixpoint read_frames (fuel : nat) (buf : bytes) (pos : nat) : list WalFrame * nat :=
  match fuel with
  | O => ([], pos)
  | S fuel =>
      match decode_one (drop pos buf) with
      | Frame frame consumed =>
          let '(frames, valid_len) := read_frames fuel buf (pos + consumed) in
          (frame :: frames, valid_len)
      | Torn => ([], pos)
      end
  end.

(** Every frame consumes bytes, so the length of the buffer is enough fuel. *)
Definition wal_read (buf : bytes) : list WalFrame * nat := read_frames (S (length buf)) buf 0.

(** ** Well-formed records

    The values fit their widths and the strings are UTF-8, as the Rust types
    guarantee; the sections fit the frame's length fields. *)
Definition opt_str_ok (o : option string) : Prop :=
  match o with Some s => is_str s ∧ Z.of_nat (length (as_bytes s)) < 2 ^ 16 | None => True end.
Definition sel_ok (m : option MatchSel) : Prop :=
  match m with Some (SelEq v) | Some (SelGlob v) => is_str v | None => True end.
Definition opt_u64_ok (o : option Z) : Prop :=
  match o with Some v => is_u64 v | None => True end.

Definition fields_ok (r : WalRecord.t) : Prop :=
  match r with
  | Append _ _ _ node tag _ => opt_str_ok node ∧ opt_str_ok tag
  | Delete _ before_seq match_ seqs bound_head _ =>
      opt_u64_ok before_seq ∧ sel_ok match_ ∧ Forall is_u64 seqs ∧ opt_u64_ok bound_head
  | TopicConfig _ op _ _ => is_str (tc_name op)
  | RouterCreate op _ =>
      is_str (ro_name op) ∧ is_str (ro_source op) ∧ is_str (ro_dest op) ∧
      sel_ok (ro_filter op) ∧ is_u64 (ro_initial_cursor op) ∧ is_u64 (ro_initial_dest_base op)
  | RouterDelete name _ => is_str name
  | EvictWatermark _ evict expiry earliest _ => is_u64 evict ∧ is_u64 expiry ∧ is_u64 earliest
  | CheckpointMark last _ => is_u64 last
  | Lease _ _ event node lease_id deadline deliveries _ =>
      0 <= event < 256 ∧ is_str node ∧ is_u64 lease_id ∧ is_u64 deadline ∧ is_u64 deliveries
  | HeadWatermark _ head_seq _ => is_u64 head_seq
  end.

Definition record_ok (r : WalRecord.t) : Prop :=
  fields_ok r ∧ is_u64 (record_topic_id r) ∧ is_u64 (record_seq r) ∧ is_u64 (record_ts r) ∧
  Z.of_nat (length (encode_body r)) < 2 ^ 31.

(** ** Body round trip *)
Lemma read_match_app m rest :
  sel_ok m → Z.of_nat (length (write_match m)) < 2 ^ 32 →
  read_match (write_match m ++ rest) = Some (m, rest).
Proof.
  destruct m as [[v|v]|]; unfold write_match; intros Hv Hl; [..|done];
    rewrite !length_cons, length_write_lp_bytes in Hl; cbv [read_match mbind option_bind];
    cbn [app]; rewrite !read_u8_cons by lia; simpl;
    rewrite read_lp_str_app by (done || lia); done.
Qed.

Lemma read_before_app o rest : opt_u64_ok o → read_before (write_opt_u64 o ++ rest) = Some (o, rest).
Proof.
  destruct o as [v|]; simpl; intros Hv; cbv [read_before mbind option_bind];
    cbn [app]; rewrite !read_u8_cons by lia; simpl; [|done].
  by rewrite read_u64_app.
Qed.

Lemma read_bound_app o rest : opt_u64_ok o → read_bound (write_opt_u64 o ++ rest) = Some (o, rest).
Proof.
  destruct o as [v|]; simpl; intros Hv; cbv [read_bound mbind option_bind];
    cbn [app]; rewrite !read_u8_cons by lia; simpl; [|done].
  by rewrite read_u64_app.
Qed.

Lemma read_seqs_app seqs rest :
  Forall is_u64 seqs →
  read_seqs (length seqs) (concat (le_bytes 8 <$> seqs) ++ rest) = Some (seqs, rest).
Proof.
  induction 1 as [|s seqs Hs _ IH]; simpl length; [done|].
  rewrite fmap_cons. cbn [concat read_seqs]. rewrite <-app_assoc, read_u64_app by done.
  simpl. by rewrite IH.
Qed.

Lemma length_seqs_bytes seqs : length (concat (le_bytes 8 <$> seqs)) = (8 * length seqs)%nat.
Proof.
  induction seqs as [|s seqs IH]; [done|]. rewrite fmap_cons. cbn [concat].
  rewrite length_app, length_le_bytes, IH. simpl. lia.
Qed.

Lemma router_bools_bits op :
  let bit n := negb (Z.land (router_bools op) n =? 0) in
  0 <= router_bools op < 256 ∧
  bit 1 = ro_preserve_node op ∧ bit 2 = ro_preserve_tag op ∧ bit 4 = ro_create_dest op ∧
  bit 8 = ro_allow_cycle op ∧ bit 16 = ro_exactly_once op.
Proof. destruct op as [? ? ? [] [] [] [] [] ? ? ?]; by vm_compute. Qed.

(** Readers at the end of the buffer. *)
Lemma read_u64_end z : is_u64 z → read_u64 (le_bytes 8 z) = Some (z, []).
Proof. intros. rewrite <-(app_nil_r (le_bytes 8 z)). by apply read_u64_app. Qed.

Lemma read_lp_str_end v :
  is_str v → Z.of_nat (length (as_bytes v)) < 2 ^ 32 →
  read_lp_str (write_lp_bytes (as_bytes v)) = Some (v, []).
Proof. intros. rewrite <-(app_nil_r (write_lp_bytes _)). by apply read_lp_str_app. Qed.

Lemma read_lp_bytes_end b :
  Z.of_nat (length b) < 2 ^ 32 → read_lp_bytes (write_lp_bytes b) = Some (b, []).
Proof. intros. rewrite <-(app_nil_r (write_lp_bytes _)). by apply read_lp_bytes_app. Qed.

Lemma read_bound_end o : opt_u64_ok o → read_bound (write_opt_u64 o) = Some (o, []).
Proof. intros. rewrite <-(app_nil_r (write_opt_u64 _)). by apply read_bound_app. Qed.

(** One reader step of a body, discharging the width side conditions. *)
Ltac read_step :=
  first
    [ rewrite read_u64_app by done | rewrite read_u64_end by done
    | rewrite read_lp_str_app by (done || lia) | rewrite read_lp_str_end by (done || lia)
    | rewrite read_lp_bytes_app by lia | rewrite read_lp_bytes_end by lia
    | rewrite read_u8_cons by lia ]; cbn [mbind option_bind].

(** Decoding the body of an encoded record gives the record back. *)
Lemma decode_encode_body r :
  record_ok r →
  decode_body (type_tag r) (record_topic_id r) (record_seq r) (record_ts r)
    (record_node r) (record_tag r) (encode_body r) = Some r.
Proof.
  intros (Hf & _ & _ & _ & Hlen).
  destruct r as [id seq ts node tag data|id before m seqs bound ts|id [name config] [] ts
    |op ts|name ts|id ev ex ea ts|last ts
    |id seq event node lid dl dv ts|id h ts]; cbn [type_tag record_topic_id record_seq record_ts
    record_node record_tag encode_body fields_ok] in *; unfold decode_body; simpl Z.eqb; cbv iota;
    rewrite ?length_app, ?length_write_lp_bytes, ?length_le_bytes, ?length_seqs_bytes in Hlen; simpl in Hf;
    destruct_and?; try done.
  - rewrite read_before_app by done. cbn [mbind option_bind].
    rewrite read_match_app by (done || lia). cbn [mbind option_bind].
    rewrite read_u32_app by lia. cbn [mbind option_bind]. rewrite Nat2Z.id, read_seqs_app by done.
    cbn [mbind option_bind]. by rewrite read_bound_end.
  - by repeat read_step.
  - by repeat read_step.
  - repeat read_step. destruct (router_bools_bits op) as (Hb & Hbits). cbn [app].
    read_step. rewrite read_match_app by (done || lia). cbn [mbind option_bind]. repeat read_step.
    destruct Hbits as (-> & -> & -> & -> & ->). by destruct op.
  - by repeat read_step.
  - by repeat read_step.
  - by repeat read_step.
  - simpl app. by repeat read_step.
  - by repeat read_step.
Qed.

(** ** Frame round trip *)
Hypothesis crc_u64 : ∀ b, is_u64 (crc b).

Lemma opt_str_roundtrip o :
  opt_str_ok o →
  decode_opt_str match o with Some _ => true | None => false end (opt_bytes o) = Some o.
Proof. destruct o as [s|]; [|done]. intros [Hs _]. simpl. by rewrite from_utf8_as_bytes. Qed.

Lemma record_strs_ok r : fields_ok r → opt_str_ok (record_node r) ∧ opt_str_ok (record_tag r).
Proof. by destruct r. Qed.

Lemma flags_bits r durable :
  0 <= encode_flags r durable < 256 ∧
  negb (Z.land (encode_flags r durable) FLAG_DURABLE =? 0) = durable ∧
  negb (Z.land (encode_flags r durable) FLAG_HAS_NODE =? 0) =
    match record_node r with Some _ => true | None => false end ∧
  negb (Z.land (encode_flags r durable) FLAG_HAS_TAG =? 0) =
    match record_tag r with Some _ => true | None => false end.
Proof. unfold encode_flags. by destruct durable, (record_node r), (record_tag r). Qed.

Lemma opt_bytes_len o : opt_str_ok o → Z.of_nat (length (opt_bytes o)) < 2 ^ 16.
Proof. destruct o as [s|]; [by intros [_ ?]|done]. Qed.

Lemma length_frame_payload r durable :
  length (frame_payload r durable) =
    (34 + length (opt_bytes (record_node r)) + length (opt_bytes (record_tag r)) +
     length (encode_body r))%nat.
Proof. unfold frame_payload. rewrite !length_app, !length_le_bytes. lia. Qed.

(** The header fields of a payload, read back at their offsets. *)
Lemma payload_fields r durable rest :
  record_ok r →
  let h := frame_payload r durable ++ rest in
  let node := opt_bytes (record_node r) in
  let tag := opt_bytes (record_tag r) in
  le_value (slice h 0 1) = type_tag r ∧ le_value (slice h 1 2) = encode_flags r durable ∧
  le_value (slice h 2 10) = record_topic_id r ∧ le_value (slice h 10 18) = record_seq r ∧
  le_value (slice h 18 26) = record_ts r ∧
  le_value (slice h 26 28) = Z.of_nat (length node) ∧
  le_value (slice h 28 30) = Z.of_nat (length tag) ∧
  le_value (slice h 30 34) = Z.of_nat (length (encode_body r)) ∧
  slice h 34 (length (frame_payload r durable)) = node ++ tag ++ encode_body r.
Proof.
  intros (Hf & Hid & Hseq & Hts & Hlen) h node tag.
  destruct (record_strs_ok r Hf) as [Hn%opt_bytes_len Ht%opt_bytes_len].
  pose proof (flags_bits r durable) as [Hfl _].
  assert (Hty : 0 <= type_tag r < 256) by (by destruct r as [| |? ? []| | | | | |]).
  unfold h. rewrite length_frame_payload. unfold frame_payload. fold node tag. fold node in Hn. fold tag in Ht.
  rewrite <-!app_assoc. unfold is_u64, u64_max in *.
  set (B := encode_body r) in *. clearbody B node tag.
  split_and!;
    repeat (rewrite slice_skip by (rewrite length_le_bytes; lia); rewrite length_le_bytes; simpl Nat.sub);
    rewrite ?slice_first by (rewrite length_le_bytes; lia); rewrite ?le_value_bytes; simpl; try lia.
  rewrite !app_assoc. rewrite slice_first by (rewrite !length_app; lia). done.
Qed.

Lemma length_encode_frame r durable :
  length (encode_frame r durable) = (12 + length (frame_payload r durable))%nat.
Proof. unfold encode_frame. rewrite !length_app, !length_le_bytes. lia. Qed.

Lemma payload_len_bound r durable :
  record_ok r → Z.of_nat (length (frame_payload r durable)) + 8 < 2 ^ 32.
Proof.
  intros (Hf & _ & _ & _ & Hlen). rewrite length_frame_payload.
  destruct (record_strs_ok r Hf) as [Hn%opt_bytes_len Ht%opt_bytes_len]. lia.
Qed.

(** The length prefix of an encoded frame. *)
Lemma frame_len_read r durable rest :
  record_ok r →
  Z.to_nat (le_value (slice (encode_frame r durable ++ rest) 0 4)) =
    (length (frame_payload r durable) + 8)%nat.
Proof.
  intros Hr. pose proof (payload_len_bound r durable Hr).
  unfold encode_frame. rewrite <-app_assoc, slice_first by apply length_le_bytes.
  rewrite le_value_bytes; rewrite length_app, length_le_bytes; [lia|simpl; lia].
Qed.

(** Decoding an encoded frame gives the record and the durable flag back and
    consumes exactly its bytes, whatever follows. *)
Lemma decode_encode_frame r durable rest :
  record_ok r →
  decode_one (encode_frame r durable ++ rest) =
    Frame (mkWalFrame r durable) (length (encode_frame r durable)).
Proof.
  intros Hr. pose proof Hr as (Hf & _). destruct (record_strs_ok r Hf) as [Hn Ht].
  pose proof (flags_bits r durable) as (_ & Hfd & Hfn & Hft).
  unfold decode_one. rewrite length_app, length_encode_frame.
  unfold FRAME_LEN_PREFIX, FRAME_HEADER_LEN, FRAME_CRC_LEN.
  rewrite (proj2 (Nat.ltb_ge _ 4)) by lia. rewrite frame_len_read by done.
  pose proof (length_frame_payload r durable) as Hlp.
  set (P := frame_payload r durable) in *.
  rewrite (proj2 (Nat.ltb_ge (length P + 8) _)) by lia.
  rewrite (proj2 (Nat.ltb_ge _ (4 + (length P + 8)))) by lia.
  replace (4 + (length P + 8) - 8)%nat with (4 + length P)%nat by lia.
  assert (He : encode_frame r durable ++ rest =
    le_bytes 4 (Z.of_nat (length (P ++ le_bytes 8 (crc P)))) ++ P ++ le_bytes 8 (crc P) ++ rest).
  { unfold encode_frame. fold P. by rewrite <-!app_assoc. }
  rewrite He. rewrite (app_assoc _ P), le_value_slice; cycle 1.
  { destruct (crc_u64 P). unfold u64_max in *. simpl. lia. }
  { rewrite length_app, length_le_bytes. lia. }
  { lia. }
  rewrite <-(app_assoc _ P), slice_skip by (rewrite length_le_bytes; lia).
  rewrite length_le_bytes. replace (4 + length P - 4)%nat with (length P) by lia. simpl (4 - 4)%nat.
  rewrite slice_first by done. rewrite Z.eqb_refl. simpl negb. cbv iota.
  rewrite drop_app_ge by (rewrite length_le_bytes; lia). rewrite length_le_bytes. simpl (4 - 4)%nat.
  rewrite drop_0. destruct (payload_fields r durable (le_bytes 8 (crc P) ++ rest) Hr) as
    (H0 & H1 & H2 & H3 & H4 & H5 & H6 & H7 & H8). fold P in H0, H1, H2, H3, H4, H5, H6, H7, H8.
  rewrite H0, H1, H2, H3, H4, H5, H6, H7, H8, !Nat2Z.id, !length_app.
  rewrite (proj2 (Nat.eqb_eq _ _)) by lia. simpl negb. cbv iota.
  rewrite slice_first by done. rewrite slice_skip by done. rewrite Nat.sub_diag, Nat.add_sub', slice_first by done.
  rewrite app_assoc, drop_app_length' by (by rewrite length_app).
  rewrite Hfd, Hfn, Hft, !opt_str_roundtrip by done. rewrite decode_encode_body by done.
  f_equal. lia.
Qed.

(** ** The reader *)
Lemma decode_nil : decode_one [] = Torn.
Proof. done. Qed.

(** A frame cut short anywhere is torn: its length prefix overruns the buffer. *)
Lemma decode_cut r durable n :
  record_ok r → (n < length (encode_frame r durable))%nat →
  decode_one (take n (encode_frame r durable)) = Torn.
Proof.
  intros Hr Hn. unfold decode_one. rewrite length_take, Nat.min_l by lia.
  unfold FRAME_LEN_PREFIX. destruct (Nat.ltb_spec n 4) as [|Hn4]; [done|].
  replace (slice (take n (encode_frame r durable)) 0 4)
    with (slice (encode_frame r durable ++ []) 0 4).
  2: { unfold slice. rewrite !drop_0, app_nil_r, take_take. f_equal. lia. }
  rewrite frame_len_read by done. rewrite length_encode_frame in Hn.
  destruct (_ <? _)%nat; [done|]. by rewrite (proj2 (Nat.ltb_lt n _)) by lia.
Qed.

(** Preallocated zeros are torn. *)
Lemma decode_zeros n : decode_one (replicate n x00) = Torn.
Proof.
  unfold decode_one. rewrite length_replicate. unfold FRAME_LEN_PREFIX.
  destruct (Nat.ltb_spec n 4) as [|Hn]; [done|].
  replace (slice (replicate n x00) 0 4) with [x00; x00; x00; x00].
  2: { unfold slice. rewrite drop_0, take_replicate, Nat.min_l by lia. done. }
  assert (le_value [x00; x00; x00; x00] = 0) as -> by (by vm_compute). done.
Qed.

Definition encode_all (fs : list WalFrame) : bytes :=
  concat ((λ f, encode_frame (wf_record f) (wf_durable f)) <$> fs).

Definition frames_ok (fs : list WalFrame) : Prop := Forall (λ f, record_ok (wf_record f)) fs.

Lemma encode_all_cons f fs :
  encode_all (f :: fs) = encode_frame (wf_record f) (wf_durable f) ++ encode_all fs.
Proof. done. Qed.

Lemma read_frames_all fs pre tail fuel :
  frames_ok fs → decode_one tail = Torn → (length fs < fuel)%nat →
  read_frames fuel (pre ++ encode_all fs ++ tail) (length pre) =
    (fs, (length pre + length (encode_all fs))%nat).
Proof.
  intros Hfs Htail. revert pre fuel. induction Hfs as [|[r d] fs Hr _ IH]; intros pre fuel Hfuel;
    (destruct fuel as [|fuel]; [simpl in Hfuel; lia|]); cbn [read_frames].
  - rewrite drop_app_length. simpl. rewrite Htail. f_equal. lia.
  - rewrite encode_all_cons, <-app_assoc, drop_app_length. cbn [wf_record wf_durable] in *.
    rewrite decode_encode_frame by done.
    rewrite (app_assoc pre), <-length_app, IH by (simpl in Hfuel; lia).
    f_equal. rewrite !length_app. lia.
Qed.

(** Replay yields exactly the frames written, and [valid_len] is their length. *)
Lemma wal_read_all fs tail :
  frames_ok fs → decode_one tail = Torn →
  wal_read (encode_all fs ++ tail) = (fs, length (encode_all fs)).
Proof.
  intros Hfs Htail. unfold wal_read. apply (read_frames_all fs [] tail); [done|done|].
  rewrite length_app. clear -Hfs. induction Hfs as [|[r d] fs _ _ IH]; [simpl; lia|].
  rewrite encode_all_cons, length_app, length_encode_frame. simpl length. lia.
Qed.

(** The frames wholly inside the first [n] bytes. *)
Fixpoint whole_frames (n : nat) (fs : list WalFrame) : list WalFrame :=
  match fs with
  | [] => []
  | f :: fs =>
      let len := length (encode_frame (wf_record f) (wf_durable f)) in
      if (len <=? n)%nat then f :: whole_frames (n - len) fs else []
  end.

Lemma take_encode_all n fs :
  frames_ok fs →
  ∃ tail, take n (encode_all fs) = encode_all (whole_frames n fs) ++ tail ∧
          decode_one tail = Torn ∧ frames_ok (whole_frames n fs).
Proof.
  intros Hfs. revert n. induction Hfs as [|[r d] fs Hr Hfs IH]; intros n.
  - exists []. change (encode_all []) with (@nil byte).
    split_and!; [by rewrite take_nil|done|constructor].
  - rewrite encode_all_cons. cbn [whole_frames wf_record wf_durable] in *.
    destruct (Nat.leb_spec (length (encode_frame r d)) n) as [Hle|Hgt].
    + destruct (IH (n - length (encode_frame r d))%nat) as (tail & Ht & Htorn & Hok).
      exists tail. rewrite take_app_ge, Ht, encode_all_cons, app_assoc by done.
      split_and!; [done|done|by constructor].
    + exists (take n (encode_frame r d)). rewrite take_app_le by lia.
      split_and!; [done|by apply decode_cut|constructor].
Qed.

Lemma wal_read_cut n fs :
  frames_ok fs →
  wal_read (take n (encode_all fs)) =
    (whole_frames n fs, length (encode_all (whole_frames n fs))).
Proof.
  intros Hfs. destruct (take_encode_all n fs Hfs) as (tail & -> & Ht & Hok).
  by apply wal_read_all.
Qed.

Lemma whole_frames_prefix n fs : whole_frames n fs `prefix_of` fs.
Proof.
  revert n. induction fs as [|f fs IH]; intros n; simpl; [done|].
  destruct (_ <=? _)%nat; [by apply prefix_cons|apply prefix_nil].
Qed.

Lemma whole_frames_app n fs1 fs2 :
  (length (encode_all fs1) <= n)%nat →
  whole_frames n (fs1 ++ fs2) = fs1 ++ whole_frames (n - length (encode_all fs1)) fs2.
Proof.
  revert n. induction fs1 as [|f fs1 IH]; intros n Hn; simpl; [f_equal; simpl; lia|].
  rewrite encode_all_cons, length_app in *. rewrite (proj2 (Nat.leb_le _ _)) by lia.
  rewrite IH by lia. do 3 f_equal. lia.
Qed.

(** ** Decoded values: a reader that succeeds yields values of its type *)
Lemma read_seqs_typed n buf l rest : read_seqs n buf = Some (l, rest) → Forall is_u64 l.
Proof.
  revert buf l rest. induction n as [|n IH]; intros buf l rest H; cbn [read_seqs] in H; [by simplify_eq|].
  destruct (read_u64 buf) as [[v b1]|] eqn:Hv; simplify_eq/=.
  destruct (read_seqs n b1) as [[l' b2]|] eqn:Hl; simplify_eq/=.
  constructor; [by eapply read_u64_typed|by eapply IH].
Qed.

Lemma read_opt_typed buf o rest :
  read_before buf = Some (o, rest) ∨ read_bound buf = Some (o, rest) → opt_u64_ok o.
Proof.
  unfold read_before, read_bound. intros [H|H]; destruct (read_u8 buf) as [[h b1]|]; simplify_eq/=;
    (destruct (h =? 1); [|try destruct (h =? 0); by simplify_eq/=]);
    destruct (read_u64 b1) as [[v b2]|] eqn:Hv; simplify_eq/=; by eapply read_u64_typed.
Qed.

Lemma read_match_typed buf m rest : read_match buf = Some (m, rest) → sel_ok m.
Proof.
  unfold read_match. intros H. destruct (read_u8 buf) as [[pr b1]|]; simplify_eq/=.
  destruct (pr =? 0); [by simplify_eq/=|]. destruct (pr =? 1); [|done].
  destruct (read_u8 b1) as [[op b2]|]; simplify_eq/=. destruct (read_lp_str b2) as [[v b3]|] eqn:Hv; simplify_eq/=.
  apply read_lp_str_typed in Hv. destruct (op =? 0); [by simplify_eq/=|]. destruct (op =? 1); by simplify_eq/=.
Qed.

Create HintDb typed.
Hint Resolve read_u8_typed read_u64_typed read_lp_str_typed read_seqs_typed read_match_typed : typed.
Hint Extern 1 (opt_u64_ok _) => eapply read_opt_typed; eauto : typed.

(** Run the binds of a decoder. *)
Ltac decode_binds :=
  repeat match goal with
  | H : match ?m with Some _ => _ | None => _ end = Some _ |- _ =>
      let E := fresh "E" in destruct m as [[? ?]|] eqn:E; [|discriminate H]
  | H : match ?b with [] => _ | _ => _ end = Some _ |- _ => destruct b; [|discriminate H]
  end.
Ltac decode_typed :=
  unfold mbind, option_bind; intros H'; decode_binds; injection H' as <-; simpl; repeat first [solve [eauto with typed] | split].

Lemma decode_body_typed tag topic_id seq ts node_s tag_s data r :
  is_u64 topic_id → is_u64 seq → is_u64 ts → opt_str_ok node_s → opt_str_ok tag_s →
  decode_body tag topic_id seq ts node_s tag_s data = Some r →
  fields_ok r ∧ is_u64 (record_topic_id r) ∧ is_u64 (record_seq r) ∧ is_u64 (record_ts r).
Proof.
  intros Hid Hseq Hts Hn Ht. unfold decode_body. assert (H0 : is_u64 0) by (by vm_compute).
  destruct (tag =? T_APPEND); [decode_typed|]. destruct (tag =? T_DELETE); [decode_typed|].
  destruct (_ || _); [decode_typed|]. destruct (tag =? T_ROUTER_CREATE); [decode_typed|].
  destruct (tag =? T_ROUTER_DELETE); [decode_typed|]. destruct (tag =? T_EVICT_WATERMARK); [decode_typed|].
  destruct (tag =? T_CONFIG_UPDATE); [decode_typed|]. destruct (tag =? T_CHECKPOINT_MARK); [decode_typed|].
  destruct (tag =? T_LEASE); [decode_typed|]. destruct (tag =? T_HEAD_WATERMARK); [decode_typed|done].
Qed.

Lemma slice_length {A} (l : list A) a b : (length (slice l a b) <= b - a)%nat.
Proof. unfold slice. rewrite length_take. lia. Qed.

Lemma le_slice_u64 l a b : (b - a <= 8)%nat → is_u64 (le_value (slice l a b)).
Proof. intros Hab. apply le_value_u64. pose proof (slice_length l a b). lia. Qed.

Lemma decode_opt_str_typed present b o :
  Z.of_nat (length b) < 2 ^ 16 → decode_opt_str present b = Some o → opt_str_ok o.
Proof.
  intros Hb. unfold decode_opt_str. destruct present; [|by intros [= <-]].
  destruct (from_utf8 b) as [v|] eqn:Hv; [|done]. intros [= <-]. apply from_utf8_typed in Hv as [Hs <-]. by split.
Qed.

(** ** Properties *)

(** *** What an accepted frame says of the bytes *)

(** The wire layout of the part of a frame that its checksum covers, and of the frame. *)
Definition frame_layout (tag flags topic_id seq ts : Z) (node tag_b data : bytes) : bytes :=
  le_bytes 1 tag ++ le_bytes 1 flags ++ le_bytes 8 topic_id ++ le_bytes 8 seq ++ le_bytes 8 ts ++
  le_bytes 2 (Z.of_nat (length node)) ++ le_bytes 2 (Z.of_nat (length tag_b)) ++
  le_bytes 4 (Z.of_nat (length data)) ++ node ++ tag_b ++ data.
Definition framed (payload : bytes) : bytes :=
  le_bytes 4 (Z.of_nat (length payload + 8)) ++ payload ++ le_bytes 8 (crc payload).

(** An optional string and the bytes of its section. *)
Definition names (present : bool) (b : bytes) (o : option string) : Prop :=
  match o with Some v => present = true ∧ as_bytes v = b | None => present = false end.

(** The record of a frame with the given header and sections. *)
Definition header_of (r : WalRecord.t) (tag flags topic_id seq ts : Z) (node tag_b data : bytes) : Prop :=
  (tag = type_tag r ∨ tag = T_CONFIG_UPDATE ∧ type_tag r = T_BOX_CREATE) ∧ record_ts r = ts ∧
  match r with
  | Append id s _ n t d =>
      (id, s, d) = (topic_id, seq, data) ∧ names (negb (Z.land flags FLAG_HAS_NODE =? 0)) node n ∧
      names (negb (Z.land flags FLAG_HAS_TAG =? 0)) tag_b t
  | Lease id s _ _ _ _ _ _ => (id, s) = (topic_id, seq)
  | Delete id _ _ _ _ _ | TopicConfig id _ _ _ | EvictWatermark id _ _ _ _ | HeadWatermark id _ _ => id = topic_id
  | RouterCreate _ _ | RouterDelete _ _ | CheckpointMark _ _ => True
  end.

Lemma slice_join {A} (l : list A) a b c : (a <= b <= c)%nat → slice l a b ++ slice l b c = slice l a c.
Proof.
  intros H. unfold slice. replace (drop b l) with (drop (b - a) (drop a l)) by (rewrite drop_drop; f_equal; lia).
  replace (c - a)%nat with ((b - a) + (c - b))%nat by lia. by rewrite take_take_drop.
Qed.

Lemma slice_full {A} (l : list A) a b : (a <= b <= length l)%nat → length (slice l a b) = (b - a)%nat.
Proof. intros H. unfold slice. rewrite length_take, length_drop. lia. Qed.

Lemma le_slice k (l : bytes) a b : (a + k = b)%nat → (b <= length l)%nat → le_bytes k (le_value (slice l a b)) = slice l a b.
Proof. intros <- Hl. pose proof (slice_full l a (a + k) ltac:(lia)) as Hk. replace (a + k - a)%nat with k in Hk by lia. rewrite <-Hk at 1. apply le_bytes_value. Qed.

(** The header and the sections are the bytes at their offsets. *)
Lemma layout_of_slices (h : bytes) (len nl tl : nat) :
  (34 <= len <= length h)%nat →
  nl = Z.to_nat (le_value (slice h 26 28)) → tl = Z.to_nat (le_value (slice h 28 30)) →
  let body := slice h 34 len in
  (nl + tl + Z.to_nat (le_value (slice h 30 34)) = length body)%nat →
  frame_layout (le_value (slice h 0 1)) (le_value (slice h 1 2)) (le_value (slice h 2 10)) (le_value (slice h 10 18))
    (le_value (slice h 18 26)) (slice body 0 nl) (slice body nl (nl + tl)) (drop (nl + tl) body) = slice h 0 len.
Proof.
  intros Hlen Hnl Htl body Hbody. pose proof (slice_full h 34 len ltac:(lia)) as Hb. fold body in Hb.
  unfold frame_layout. rewrite !slice_full by lia. rewrite length_drop.
  pose proof (le_value_bounds (slice h 26 28)). pose proof (le_value_bounds (slice h 28 30)). pose proof (le_value_bounds (slice h 30 34)).
  replace (Z.of_nat (nl - 0)) with (le_value (slice h 26 28)) by lia.
  replace (Z.of_nat (nl + tl - nl)) with (le_value (slice h 28 30)) by lia.
  replace (Z.of_nat (length body - (nl + tl))) with (le_value (slice h 30 34)) by lia.
  rewrite !le_slice by lia.
  assert (slice body 0 nl ++ slice body nl (nl + tl) ++ drop (nl + tl) body = body) as ->.
  { rewrite app_assoc, slice_join by lia. unfold slice. rewrite drop_0, Nat.sub_0_r. apply take_drop. }
  unfold body. by rewrite !slice_join by lia.
Qed.

Lemma decode_opt_names present b o : decode_opt_str present b = Some o → names present b o.
Proof.
  unfold decode_opt_str. destruct present; [|by intros [= <-]]. destruct (from_utf8 b) as [v|] eqn:Hv; [|done].
  intros [= <-]. by apply from_utf8_typed in Hv as [_ Hv].
Qed.

Ltac decode_header :=
  unfold mbind, option_bind; intros H'; decode_binds; injection H' as <-; unfold header_of; simpl; split_and!; auto.

Lemma decode_body_header tag flags topic_id seq ts node tag_b node_s tag_s data r :
  names (negb (Z.land flags FLAG_HAS_NODE =? 0)) node node_s → names (negb (Z.land flags FLAG_HAS_TAG =? 0)) tag_b tag_s →
  decode_body tag topic_id seq ts node_s tag_s data = Some r →
  header_of r tag flags topic_id seq ts node tag_b data.
Proof.
  intros Hn Ht. unfold decode_body.
  destruct (Z.eqb_spec tag T_APPEND); [decode_header|]. destruct (Z.eqb_spec tag T_DELETE); [decode_header|].
  destruct (Z.eqb_spec tag T_BOX_CREATE), (Z.eqb_spec tag T_BOX_DELETE); cbn [orb]; [subst; done|decode_header..|].
  destruct (Z.eqb_spec tag T_ROUTER_CREATE); [decode_header|]. destruct (Z.eqb_spec tag T_ROUTER_DELETE); [decode_header|].
  destruct (Z.eqb_spec tag T_EVICT_WATERMARK); [decode_header|]. destruct (Z.eqb_spec tag T_CONFIG_UPDATE); [decode_header|].
  destruct (Z.eqb_spec tag T_CHECKPOINT_MARK); [decode_header|]. destruct (Z.eqb_spec tag T_LEASE); [decode_header|].
  destruct (Z.eqb_spec tag T_HEAD_WATERMARK); [decode_header|done].
Qed.

Lemma read_match_len buf m rest : read_match buf = Some (m, rest) → length buf = (length (write_match m) + length rest)%nat.
Proof.
  unfold read_match. destruct (read_u8 buf) as [[pr b1]|] eqn:E1; [|done]. simpl. apply read_u8_len in E1 as ->.
  destruct (pr =? 0); [by intros [= <- <-]|]. destruct (pr =? 1); [|done].
  destruct (read_u8 b1) as [[op b2]|] eqn:E2; [|done]. simpl. apply read_u8_len in E2 as ->.
  destruct (read_lp_str b2) as [[v b3]|] eqn:E3; [|done]. simpl. apply read_str_len in E3 as ->.
  destruct (op =? 0); [intros [= <- <-]; simpl; lia|]. destruct (op =? 1); [intros [= <- <-]; simpl; lia|done].
Qed.
Lemma read_opt_len buf o rest :
  read_before buf = Some (o, rest) ∨ read_bound buf = Some (o, rest) → length buf = (length (write_opt_u64 o) + length rest)%nat.
Proof.
  unfold read_before, read_bound. intros [H|H]; destruct (read_u8 buf) as [[h b1]|] eqn:E; simplify_eq/=;
    apply read_u8_len in E as ->; (destruct (h =? 1); [|try destruct (h =? 0); by simplify_eq/=]);
    destruct (read_u64 b1) as [[v b2]|] eqn:Hv; simplify_eq/=; apply read_u64_len in Hv as ->; by rewrite length_le_bytes.
Qed.
Lemma read_seqs_len n buf l rest :
  read_seqs n buf = Some (l, rest) → length buf = (length (concat (le_bytes 8 <$> l)) + length rest)%nat ∧ length l = n.
Proof.
  revert buf l rest. induction n as [|n IH]; intros buf l rest H; cbn [read_seqs] in H; [by simplify_eq|].
  destruct (read_u64 buf) as [[v b1]|] eqn:Hv; simplify_eq/=. apply read_u64_len in Hv as ->.
  destruct (read_seqs n b1) as [[l' b2]|] eqn:Hl; simplify_eq/=. apply IH in Hl as [-> <-]. rewrite !length_app, length_le_bytes. lia.
Qed.

Ltac decode_len :=
  unfold mbind, option_bind; intros H'; decode_binds; injection H' as <-; cbn [encode_body];
  repeat match goal with
  | H : read_u8 _ = Some _ |- _ => apply read_u8_len in H
  | H : read_u32 _ = Some _ |- _ => apply read_u32_len in H as [H _]
  | H : read_u64 _ = Some _ |- _ => apply read_u64_len in H
  | H : read_lp_bytes _ = Some _ |- _ => apply read_lp_len in H
  | H : read_lp_str _ = Some _ |- _ => apply read_str_len in H
  | H : read_match _ = Some _ |- _ => apply read_match_len in H
  | H : read_before _ = Some _ |- _ => apply (λ h, read_opt_len _ _ _ (or_introl h)) in H
  | H : read_bound _ = Some _ |- _ => apply (λ h, read_opt_len _ _ _ (or_intror h)) in H
  | H : read_seqs _ _ = Some _ |- _ => apply read_seqs_len in H as [H _]
  end; rewrite ?length_app, ?length_le_bytes; simpl in *; lia.

Lemma decode_body_len tag topic_id seq ts node_s tag_s data r :
  decode_body tag topic_id seq ts node_s tag_s data = Some r → (length (encode_body r) <= length data)%nat.
Proof.
  unfold decode_body. destruct (tag =? T_APPEND); [decode_len|]. destruct (tag =? T_DELETE); [decode_len|].
  destruct (_ || _); [decode_len|]. destruct (tag =? T_ROUTER_CREATE); [decode_len|].
  destruct (tag =? T_ROUTER_DELETE); [decode_len|]. destruct (tag =? T_EVICT_WATERMARK); [decode_len|].
  destruct (tag =? T_CONFIG_UPDATE); [decode_len|]. destruct (tag =? T_CHECKPOINT_MARK); [decode_len|].
  destruct (tag =? T_LEASE); [decode_len|]. destruct (tag =? T_HEAD_WATERMARK); [decode_len|done].
Qed.

(** The checks and the fields of a frame that [decode_one] accepts. *)
Lemma decode_one_inv buf fr n :
  decode_one buf = Frame fr n →
  ∃ tag flags topic_id seq ts node tag_b data node_s tag_s,
    take n buf = framed (frame_layout tag flags topic_id seq ts node tag_b data) ∧
    is_u64 topic_id ∧ is_u64 seq ∧ is_u64 ts ∧ (length data <= n)%nat ∧ (n <= length buf)%nat ∧
    Z.of_nat (length node) < 2 ^ 16 ∧ Z.of_nat (length tag_b) < 2 ^ 16 ∧
    wf_durable fr = negb (Z.land flags FLAG_DURABLE =? 0) ∧
    decode_opt_str (negb (Z.land flags FLAG_HAS_NODE =? 0)) node = Some node_s ∧
    decode_opt_str (negb (Z.land flags FLAG_HAS_TAG =? 0)) tag_b = Some tag_s ∧
    decode_body tag topic_id seq ts node_s tag_s data = Some (wf_record fr).
Proof.
  unfold decode_one, FRAME_LEN_PREFIX, FRAME_HEADER_LEN, FRAME_CRC_LEN. destruct (Nat.ltb_spec (length buf) 4) as [|H4]; [done|].
  set (flen := Z.to_nat (le_value (slice buf 0 4))).
  destruct (Nat.ltb_spec flen (34 + 8)) as [|Hlen]; [done|]. destruct (Nat.ltb_spec (length buf) (4 + flen)) as [|Htot]; [done|].
  destruct (Z.eqb_spec (le_value (slice buf (4 + flen - 8) (4 + flen))) (crc (slice buf 4 (4 + flen - 8)))) as [Hcrc|]; [|done].
  cbn [negb]. set (h := drop 4 buf). replace (4 + flen - 8 - 4)%nat with (flen - 8)%nat by lia. set (body := slice h 34 (flen - 8)).
  set (nl := Z.to_nat (le_value (slice h 26 28))). set (tl := Z.to_nat (le_value (slice h 28 30))).
  destruct (Nat.eqb_spec (nl + tl + Z.to_nat (le_value (slice h 30 34))) (length body)) as [Hbody|]; [|done]. cbn [negb].
  assert (Hh : length h = (length buf - 4)%nat) by apply length_drop.
  assert (Hl : (34 <= flen - 8 <= length h)%nat). { rewrite Hh. clear -Hlen Htot. lia. }
  pose proof (layout_of_slices h (flen - 8) nl tl Hl eq_refl eq_refl Hbody) as Hlay. cbv zeta in Hlay. fold body in Hlay.
  assert (Hp : slice h 0 (flen - 8) = slice buf 4 (4 + flen - 8)).
  { unfold slice, h. rewrite drop_0, Nat.sub_0_r. f_equal. lia. }
  pose proof (le_value_bounds (slice h 26 28)) as Hb1. pose proof (le_value_bounds (slice h 28 30)) as Hb2.
  rewrite slice_full in Hb1, Hb2 by lia. simpl in Hb1, Hb2.
  destruct (decode_opt_str _ (slice body 0 nl)) as [node_s|] eqn:Hn; [|done].
  destruct (decode_opt_str _ (slice body nl (nl + tl))) as [tag_s|] eqn:Ht; [|done].
  destruct (decode_body _ _ _ _ _ _ _) as [r|] eqn:Hb; [|done]. intros [= <- <-].
  do 10 eexists. split_and!; [|..|exact Hn|exact Ht|exact Hb]; try done; try (apply le_slice_u64; lia); try (rewrite slice_full; unfold nl, tl in *; lia).
  - rewrite Hlay, Hp. unfold framed. rewrite slice_full, <-Hcrc by lia.
    replace (4 + flen - 8 - 4 + 8)%nat with flen by lia.
    pose proof (le_value_bounds (slice buf 0 4)). replace (Z.of_nat flen) with (le_value (slice buf 0 4)) by (unfold flen; lia).
    rewrite !le_slice by lia. rewrite !slice_join by lia. unfold slice. by rewrite drop_0, Nat.sub_0_r.
  - rewrite length_drop. unfold body. rewrite slice_full by lia. lia.
Qed.

(** C29. What the replay takes from a log is what was framed there.  Whatever the bytes, a
    frame that [decode_one] accepts is a length prefix, a payload of exactly that length
    and the checksum of this payload; the payload is the header, node, tag and data
    sections at their places; and the record it hands on has the header's type, timestamp,
    topic and seq, for an append also exactly the node, tag and data sections.  And a
    record accepted from a frame below 2 GiB survives being logged again: its own encoding
    decodes, whatever follows, to the same record and durable flag. *)
Theorem wal_decode_sound buf fr n :
  decode_one buf = Frame fr n →
  (∃ tag flags topic_id seq ts node tag_b data,
     take n buf = framed (frame_layout tag flags topic_id seq ts node tag_b data) ∧ (n <= length buf)%nat ∧
     wf_durable fr = negb (Z.land flags FLAG_DURABLE =? 0) ∧
     header_of (wf_record fr) tag flags topic_id seq ts node tag_b data) ∧
  (Z.of_nat n < 2 ^ 31 → ∀ rest,
     decode_one (encode_frame (wf_record fr) (wf_durable fr) ++ rest) =
       Frame fr (length (encode_frame (wf_record fr) (wf_durable fr)))).
Proof.
  intros (tag & flags & id & seq & ts & node & tag_b & data & node_s & tag_s & Hframe & Hid & Hseq & Hts & Hdata & Hn &
    Hnl & Htl & Hdur & Hnode & Htag & Hbody)%decode_one_inv. split.
  - exists tag, flags, id, seq, ts, node, tag_b, data. split_and!; [done..|].
    eapply decode_body_header; [by apply decode_opt_names|by apply decode_opt_names|done].
  - intros Hlen rest. destruct (decode_body_typed _ _ _ _ _ _ _ _ Hid Hseq Hts (decode_opt_str_typed _ _ _ Hnl Hnode)
      (decode_opt_str_typed _ _ _ Htl Htag) Hbody) as (? & ? & ? & ?).
    rewrite decode_encode_frame; [by destruct fr|]. split_and!; [done..|].
    apply decode_body_len in Hbody. lia.
Qed.

(** C27. A frame decodes back to the record and durable flag it was encoded from
    and consumes exactly its own bytes, whatever bytes follow it. *)
Theorem wal_frame_roundtrip r durable rest :
  record_ok r →
  decode_one (encode_frame r durable ++ rest) =
    Frame (mkWalFrame r durable) (length (encode_frame r durable)).
Proof. apply decode_encode_frame. Qed.

(** C26. Crash consistency of replay: a log cut at any byte offset replays a prefix
    of the frames written, reports their length as the truncation point, and loses
    none of the frames that lie wholly before the cut. *)
Theorem wal_crash_prefix fs1 fs2 n :
  frames_ok (fs1 ++ fs2) → (length (encode_all fs1) <= n)%nat →
  ∃ fs, wal_read (take n (encode_all (fs1 ++ fs2))) = (fs, length (encode_all fs)) ∧
        fs1 `prefix_of` fs ∧ fs `prefix_of` fs1 ++ fs2.
Proof.
  intros Hok Hn. exists (whole_frames n (fs1 ++ fs2)). split_and!.
  - by apply wal_read_cut.
  - rewrite whole_frames_app by done. by eexists.
  - apply whole_frames_prefix.
Qed.

(** Replay of a preallocated file: the frames written are read back in order
    and the zeros behind them end the log. *)
Theorem wal_zero_tail fs n :
  frames_ok fs → wal_read (encode_all fs ++ replicate n x00) = (fs, length (encode_all fs)).
Proof. intros Hfs. apply wal_read_all; [done|apply decode_zeros]. Qed.
End wal.

(** ** Concrete frames *)
Module WalSamples.
(** A checksum for the examples: the sum of the bytes. *)
Definition sum_crc (b : bytes) : Z := foldr (λ x acc, Z_of_byte x + acc) 0 b mod 2 ^ 64.

Lemma sum_crc_u64 b : is_u64 (sum_crc b).
Proof.
  unfold sum_crc, is_u64, u64_max.
  pose proof (Z.mod_pos_bound (foldr (λ x acc, Z_of_byte x + acc) 0 b) (2 ^ 64) ltac:(lia)). lia.
Qed.

Definition sample_frames : list WalFrame :=
  [ mkWalFrame (TopicConfig 7 (mkTopicConfigOp "orders" [x7b; x7d]) false 1) true;
    mkWalFrame (Append 7 1 2 (Some "n1"%string) None [x01; x02]) true;
    mkWalFrame (Delete 7 (Some 5) (Some (SelGlob "a/")) [] (Some 2) 3) true ].

Lemma sample_frames_ok : frames_ok sample_frames.
Proof. repeat constructor; by vm_compute. Qed.

Lemma wal_frame_roundtrip_witness :
  decode_one sum_crc (encode_frame sum_crc (Append 7 1 2 (Some "n1"%string) None [x01; x02]) true ++ [xff]) =
    Frame (mkWalFrame (Append 7 1 2 (Some "n1"%string) None [x01; x02]) true) 50.
Proof.
  apply (wal_frame_roundtrip sum_crc sum_crc_u64 (Append 7 1 2 (Some "n1"%string) None [x01; x02]) true [xff]).
  repeat split; by vm_compute.
Defined.

(** A frame with trailing bytes, decoded. *)
Lemma wal_decode_sound_witness :
  let r := Append 7 1 2 (Some "n1"%string) None [x01; x02] in
  let buf := encode_frame sum_crc r true ++ [xff] in
  decode_one sum_crc buf = Frame (mkWalFrame r true) 50 ∧
  (∃ tag flags topic_id seq ts node tag_b data,
     take 50 buf = framed sum_crc (frame_layout tag flags topic_id seq ts node tag_b data) ∧ node = as_bytes "n1" ∧ data = [x01; x02]) ∧
  decode_one sum_crc (encode_frame sum_crc r true ++ [xff]) = Frame (mkWalFrame r true) (length (encode_frame sum_crc r true)).
Proof.
  intros r buf.
  assert (Hd : decode_one sum_crc buf = Frame (mkWalFrame r true) 50) by (by vm_compute).
  destruct (wal_decode_sound sum_crc sum_crc_u64 buf _ _ Hd) as [(tag & flags & id & seq & ts & node & tag_b & data & Hf & _ & _ & _ & _ & Hs & [_ Hn] & _) Hr].
  split; [exact Hd|]. split; [|apply Hr; lia]. exists tag, flags, id, seq, ts, node, tag_b, data.
  split; [exact Hf|]. split; [done|]. by injection Hs as _ _ <-.
Defined.

Lemma wal_crash_prefix_witness :
  ∃ fs, wal_read sum_crc (take 120 (encode_all sum_crc sample_frames)) =
          (fs, length (encode_all sum_crc fs)) ∧
        take 1 sample_frames `prefix_of` fs ∧ fs `prefix_of` sample_frames.
Proof.
  apply (wal_crash_prefix sum_crc sum_crc_u64 (take 1 sample_frames) (drop 1 sample_frames) 120).
  - rewrite take_drop. apply sample_frames_ok.
  - apply Nat.leb_le. by vm_compute.
Defined.

Lemma wal_zero_tail_witness :
  wal_read sum_crc (encode_all sum_crc sample_frames ++ replicate 64 x00) =
    (sample_frames, length (encode_all sum_crc sample_frames)).
Proof. apply (wal_zero_tail sum_crc sum_crc_u64 sample_frames 64), sample_frames_ok. Defined.
End WalSamples.
