(* ===== verification/Segment.v ===== *)
(** * Segment files

    Models [src/storage/segment.rs]: the [.data] frame with its in-place delete
    flag, the fixed-stride [.idx] locator, the lookup by seq and the
    [SegmentBuilder]; and the one-byte flip of
    [LocalSegmentStore::mark_record_deleted] ([src/storage/segstore.rs]).

    The flag byte lies outside the checksum: the theorems show that flipping it
    deletes exactly its record, that any other value leaves the record live, and
    that a built segment returns every record it was given at its seq. *)

From S2P Require Import Prelude Bytes.

(** ** Format *)
Record SegmentRecord := mkSegRec {
  sr_seq : Z;
  sr_ts : Z;
  sr_node : option string;
  sr_tag : option string;
  sr_data : bytes
}.

Record IdxEntry := mkIdx {
  ie_offset : Z;
  ie_len : Z;
  ie_ts : Z;
  ie_flags : Z
}.

Inductive SegmentError := Corrupt (why : string).

Definition SEG_FRAME_HEADER_LEN : nat := 25.
Definition SEG_FRAME_CRC_LEN : nat := 8.
Definition SEG_FRAME_DEL_LEN : nat := 1.
Definition SEG_FRAME_LEN_PREFIX : nat := 4.
Definition SEG_DEL_SENTINEL : byte := xd5.
Definition SEG_DEL_LIVE : byte := x00.
Definition IDX_STRIDE : nat := 20.
Definition SEG_FLAG_HAS_TAG : Z := 1.
Definition SEG_FLAG_HAS_NODE : Z := 2.

Definition seg_str_bytes (o : option string) : bytes :=
  match o with Some s => as_bytes s | None => [] end.

Definition seg_flags (rec : SegmentRecord) : Z :=
  Z.lor match sr_node rec with Some _ => SEG_FLAG_HAS_NODE | None => 0 end
        match sr_tag rec with Some _ => SEG_FLAG_HAS_TAG | None => 0 end.

(** [IdxEntry::has_tag], [IdxEntry::has_node] *)
Definition has_tag (e : IdxEntry) : bool := negb (Z.land (ie_flags e) SEG_FLAG_HAS_TAG =? 0).
Definition has_node (e : IdxEntry) : bool := negb (Z.land (ie_flags e) SEG_FLAG_HAS_NODE =? 0).

(** The checksummed part of a frame. *)
Definition seg_payload (rec : SegmentRecord) : bytes :=
  let node := seg_str_bytes (sr_node rec) in
  let tag := seg_str_bytes (sr_tag rec) in
  le_bytes 1 (seg_flags rec) ++ le_bytes 8 (sr_seq rec) ++ le_bytes 8 (sr_ts rec) ++
  le_bytes 2 (Z.of_nat (length node)) ++ le_bytes 2 (Z.of_nat (length tag)) ++
  le_bytes 4 (Z.of_nat (length (sr_data rec))) ++ node ++ tag ++ sr_data rec.

(** [parse_body] *)
Definition parse_body (h : bytes) : result SegmentError SegmentRecord :=
  if (length h <? SEG_FRAME_HEADER_LEN)%nat then Err (Corrupt "frame body too short")
  else
    let flags := le_value (slice h 0 1) in
    let seq := le_value (slice h 1 9) in
    let ts := le_value (slice h 9 17) in
    let node_len := Z.to_nat (le_value (slice h 17 19)) in
    let tag_len := Z.to_nat (le_value (slice h 19 21)) in
    let data_len := Z.to_nat (le_value (slice h 21 25)) in
    let body := drop SEG_FRAME_HEADER_LEN h in
    if negb (node_len + tag_len + data_len =? length body)%nat
    then Err (Corrupt "internal length inconsistency")
    else
      let node_bytes := slice body 0 node_len in
      let tag_bytes := slice body node_len (node_len + tag_len) in
      let data := drop (node_len + tag_len) body in
      let? node :=
        if negb (Z.land flags SEG_FLAG_HAS_NODE =? 0)
        then match from_utf8 node_bytes with
             | Some s => Ok (Some s)
             | None => Err (Corrupt "node not utf-8")
             end
        else Ok None in
      let? tag :=
        if negb (Z.land flags SEG_FLAG_HAS_TAG =? 0)
        then match from_utf8 tag_bytes with
             | Some s => Ok (Some s)
             | None => Err (Corrupt "tag not utf-8")
             end
        else Ok None in
      Ok (mkSegRec seq ts node tag data).

(** [del_flag_offset_in_frame] *)
Definition del_flag_offset_in_frame (framed_len : nat) : nat := (framed_len - SEG_FRAME_DEL_LEN)%nat.

Section segment.
(** [xxh3_64] *)
Variable crc : bytes → Z.

(** [encode_data_frame]: the frame appended to the [.data] buffer. *)
Definition encode_data_frame (rec : SegmentRecord) : bytes :=
  let payload := seg_payload rec in
  let body := payload ++ le_bytes 8 (crc payload) ++ [SEG_DEL_LIVE] in
  le_bytes 4 (Z.of_nat (length body)) ++ body.

(** [decode_data_frame_full] *)
Definition decode_data_frame_full (buf : bytes) : result SegmentError (SegmentRecord * bool) :=
  if (length buf <? SEG_FRAME_LEN_PREFIX)%nat
  then Err (Corrupt "shorter than frame_len prefix")
  else
    let frame_len := Z.to_nat (le_value (slice buf 0 4)) in
    let total := (SEG_FRAME_LEN_PREFIX + frame_len)%nat in
    if (length buf <? total)%nat then Err (Corrupt "frame_len overruns the slice")
    else
      let min_len := (SEG_FRAME_HEADER_LEN + SEG_FRAME_CRC_LEN + SEG_FRAME_DEL_LEN)%nat in
      let crc_end := (total - SEG_FRAME_DEL_LEN)%nat in
      let crc_start := (crc_end - SEG_FRAME_CRC_LEN)%nat in
      if (min_len <=? frame_len)%nat &&
         (le_value (slice buf crc_start crc_end) =? crc (slice buf SEG_FRAME_LEN_PREFIX crc_start))
      then
        let? rec := parse_body (slice buf SEG_FRAME_LEN_PREFIX crc_start) in
        Ok (rec, bool_decide (buf !! crc_end = Some SEG_DEL_SENTINEL))
      else if (frame_len <? min_len)%nat then Err (Corrupt "frame_len below the minimum")
      else Err (Corrupt "checksum mismatch").

(** [decode_data_frame] *)
Definition decode_data_frame (buf : bytes) : result SegmentError SegmentRecord :=
  let? r := decode_data_frame_full buf in Ok r.1.

(** [frame_is_deleted] *)
Definition frame_is_deleted (buf : bytes) : bool :=
  match decode_data_frame_full buf with
  | Ok (_, true) => true
  | _ => false
  end.

(** ** The locator *)

(** [encode_idx_entry] *)
Definition encode_idx_entry (e : IdxEntry) : bytes :=
  le_bytes 4 (ie_offset e) ++ le_bytes 4 (ie_len e) ++ le_bytes 8 (ie_ts e) ++
  le_bytes 1 (ie_flags e) ++ [x00; x00; x00].

(** [idx_entry_at]; an index whose byte position overflows is past the end. *)
Definition idx_entry_at (idx_buf : bytes) (entry_idx : nat) : option IdxEntry :=
  let start := (entry_idx * IDX_STRIDE)%nat in
  let end_ := (start + IDX_STRIDE)%nat in
  if (length idx_buf <? end_)%nat then None
  else
    let e := slice idx_buf start end_ in
    Some (mkIdx (le_value (slice e 0 4)) (le_value (slice e 4 8)) (le_value (slice e 8 16))
            (le_value (slice e 16 17))).

(** [idx_len] *)
Definition idx_len (idx_buf : bytes) : nat := (length idx_buf / IDX_STRIDE)%nat.

(** [lookup] *)
Definition seg_lookup (idx_buf : bytes) (start_seq seq : Z) : option IdxEntry :=
  if seq <? start_seq then None else idx_entry_at idx_buf (Z.to_nat (seq - start_seq)).

(** ** The builder *)
Record SegmentBuilder := mkBuilder {
  sb_start_seq : Z;
  sb_next_seq : Z;
  sb_data : bytes;
  sb_idx : bytes
}.

(** [SegmentBuilder::new] *)
Definition builder_new (start_seq : Z) : SegmentBuilder := mkBuilder start_seq start_seq [] [].

(** [SegmentBuilder::push].  The [as u32] casts of the offset and of the length are the
    four bytes [encode_idx_entry] keeps of each (lemma [locator_wraps]). *)
Definition builder_push (sb : SegmentBuilder) (rec : SegmentRecord) : SegmentBuilder :=
  let frame := encode_data_frame rec in
  let entry := mkIdx (Z.of_nat (length (sb_data sb))) (Z.of_nat (length frame)) (sr_ts rec)
                 (seg_flags rec) in
  mkBuilder (sb_start_seq sb) (sb_next_seq sb + 1) (sb_data sb ++ frame)
    (sb_idx sb ++ encode_idx_entry entry).

(** [SegmentBuilder::end_seq], [record_count], [data_len] *)
Definition end_seq (sb : SegmentBuilder) : Z := sb_next_seq sb -s 1.
Definition record_count (sb : SegmentBuilder) : nat := idx_len (sb_idx sb).
Definition data_len (sb : SegmentBuilder) : nat := length (sb_data sb).

(** A segment built from a run of records. *)
Definition build (start_seq : Z) (recs : list SegmentRecord) : SegmentBuilder :=
  foldl builder_push (builder_new start_seq) recs.

(** Reading one record of a segment, as [scan_ondisk_deleted] does: locate it in
    the [.idx] buffer, slice its frame out of the [.data] buffer if it is in
    bounds, and decode it. *)
Definition read_record (data idx : bytes) (start_seq seq : Z) :
    option (result SegmentError (SegmentRecord * bool)) :=
  e ← seg_lookup idx start_seq seq;
  let lo := Z.to_nat (ie_offset e) in
  let hi := (lo + Z.to_nat (ie_len e))%nat in
  if (length data <? hi)%nat then None
  else Some (decode_data_frame_full (slice data lo hi)).

(** [scan_ondisk_deleted] on one segment: the seqs whose frame decodes, is flagged
    deleted, and carries the seq its locator claims. *)
Definition flagged (data idx : bytes) (start_seq seq : Z) : bool :=
  match read_record data idx start_seq seq with
  | Some (Ok (rec, true)) => sr_seq rec =? seq
  | _ => false
  end.

Definition scan_deleted (data idx : bytes) (start_seq : Z) : list Z :=
  filter (λ seq, flagged data idx start_seq seq = true) (seqZ start_seq (Z.of_nat (idx_len idx))).

(** The byte flip of [mark_record_deleted] at a record's delete flag. *)
Definition flip_deleted (data : bytes) (e : IdxEntry) : bytes :=
  <[(Z.to_nat (ie_offset e) + del_flag_offset_in_frame (Z.to_nat (ie_len e)))%nat
      := SEG_DEL_SENTINEL]> data.

(** ** Well-formed records *)
Definition seg_str_ok (o : option string) : Prop :=
  match o with Some s => is_str s ∧ Z.of_nat (length (as_bytes s)) < 2 ^ 16 | None => True end.

Definition seg_ok (rec : SegmentRecord) : Prop :=
  is_u64 (sr_seq rec) ∧ is_u64 (sr_ts rec) ∧ seg_str_ok (sr_node rec) ∧ seg_str_ok (sr_tag rec) ∧
  Z.of_nat (length (sr_data rec)) < 2 ^ 31.

Lemma seg_flags_bits rec :
  0 <= seg_flags rec < 256 ∧
  negb (Z.land (seg_flags rec) SEG_FLAG_HAS_NODE =? 0) =
    match sr_node rec with Some _ => true | None => false end ∧
  negb (Z.land (seg_flags rec) SEG_FLAG_HAS_TAG =? 0) =
    match sr_tag rec with Some _ => true | None => false end.
Proof. unfold seg_flags. by destruct (sr_node rec), (sr_tag rec). Qed.

Lemma seg_str_len o : seg_str_ok o → Z.of_nat (length (seg_str_bytes o)) < 2 ^ 16.
Proof. destruct o; [by intros [_ ?]|done]. Qed.

Lemma length_seg_payload rec :
  length (seg_payload rec) =
    (25 + length (seg_str_bytes (sr_node rec)) + length (seg_str_bytes (sr_tag rec)) +
     length (sr_data rec))%nat.
Proof. unfold seg_payload. rewrite !length_app, !length_le_bytes. lia. Qed.

(** An optional string read back under its presence bit. *)
Lemma seg_str_read o why :
  seg_str_ok o →
  (if match o with Some _ => true | None => false end
   then match from_utf8 (seg_str_bytes o) with
        | Some s => Ok (Some s)
        | None => Err (Corrupt why)
        end
   else Ok None) = Ok o.
Proof. destruct o as [s|]; [|done]. intros [Hs _]. simpl. by rewrite from_utf8_as_bytes. Qed.

Lemma parse_payload rec : seg_ok rec → parse_body (seg_payload rec) = Ok rec.
Proof.
  intros (Hseq & Hts & Hno & Hta & Hdata). unfold parse_body.
  pose proof (length_seg_payload rec) as Hlp. unfold SEG_FRAME_HEADER_LEN.
  rewrite (proj2 (Nat.ltb_ge _ _)) by lia. pose proof (seg_flags_bits rec) as (Hfl & Hbn & Hbt).
  pose proof (seg_str_len _ Hno) as Hn. pose proof (seg_str_len _ Hta) as Ht.
  unfold seg_payload. unfold is_u64, u64_max in Hseq, Hts.
  set (node := seg_str_bytes (sr_node rec)) in *. set (tag := seg_str_bytes (sr_tag rec)) in *.
  repeat match goal with
  | |- context [slice (le_bytes ?n ?z ++ ?l) 0 ?m] =>
      rewrite (slice_first (le_bytes n z) l m) by apply length_le_bytes
  | |- context [slice (le_bytes ?n ?z ++ ?l) ?a ?b] =>
      rewrite (slice_skip (le_bytes n z) l a b) by (rewrite length_le_bytes; lia);
      rewrite length_le_bytes; simpl Nat.sub
  end.
  rewrite !le_value_bytes by (simpl; lia). rewrite !Nat2Z.id.
  replace (drop 25 _) with (node ++ tag ++ sr_data rec).
  2: { by do 6 (rewrite drop_app_ge by (rewrite length_le_bytes; lia);
         rewrite length_le_bytes; simpl Nat.sub). }
  rewrite !length_app, (proj2 (Nat.eqb_eq _ _)) by lia. simpl negb. cbv iota.
  rewrite slice_first by done. rewrite slice_skip by done.
  rewrite Nat.sub_diag, Nat.add_sub', slice_first by done.
  rewrite (app_assoc node), drop_app_length' by (by rewrite length_app).
  rewrite Hbn, Hbt. unfold node, tag. rewrite !seg_str_read by done. simpl. by destruct rec.
Qed.

(** ** Frames *)
Hypothesis crc_u64 : ∀ b, is_u64 (crc b).

(** A frame whose delete flag holds [d]. *)
Definition frame_with (rec : SegmentRecord) (d : byte) : bytes :=
  let payload := seg_payload rec in
  le_bytes 4 (Z.of_nat (length payload + 9)) ++ payload ++ le_bytes 8 (crc payload) ++ [d].

Lemma encode_frame_live rec : encode_data_frame rec = frame_with rec SEG_DEL_LIVE.
Proof.
  unfold encode_data_frame, frame_with. rewrite !length_app, length_le_bytes. done.
Qed.

Lemma length_frame_with rec d : length (frame_with rec d) = (13 + length (seg_payload rec))%nat.
Proof. unfold frame_with. rewrite !length_app, !length_le_bytes. simpl length. lia. Qed.

Lemma seg_payload_bound rec : seg_ok rec → Z.of_nat (length (seg_payload rec) + 9) < 2 ^ 32.
Proof.
  intros (_ & _ & Hn%seg_str_len & Ht%seg_str_len & Hd). rewrite length_seg_payload. lia.
Qed.

(** Decoding a frame: the record, and deleted exactly when the flag is the
    sentinel. *)
Lemma decode_frame_with rec d :
  seg_ok rec →
  decode_data_frame_full (frame_with rec d) = Ok (rec, bool_decide (d = SEG_DEL_SENTINEL)).
Proof.
  intros Hok. pose proof (seg_payload_bound rec Hok) as Hb.
  pose proof (length_seg_payload rec) as Hlp.
  unfold decode_data_frame_full. rewrite length_frame_with.
  unfold SEG_FRAME_LEN_PREFIX, SEG_FRAME_HEADER_LEN, SEG_FRAME_CRC_LEN, SEG_FRAME_DEL_LEN.
  rewrite (proj2 (Nat.ltb_ge _ 4)) by lia.
  assert (Hfl : Z.to_nat (le_value (slice (frame_with rec d) 0 4)) = (length (seg_payload rec) + 9)%nat).
  { unfold frame_with. rewrite slice_first by apply length_le_bytes.
    rewrite le_value_bytes by (simpl; lia). lia. }
  rewrite Hfl. set (P := seg_payload rec) in *.
  rewrite (proj2 (Nat.ltb_ge _ (4 + (length P + 9)))) by lia.
  rewrite (proj2 (Nat.leb_le _ _)) by lia.
  replace (4 + (length P + 9) - 1)%nat with (12 + length P)%nat by lia.
  replace (12 + length P - 8)%nat with (4 + length P)%nat by lia.
  assert (Hs : slice (frame_with rec d) 4 (4 + length P) = P).
  { unfold frame_with. fold P. rewrite slice_skip by (rewrite length_le_bytes; lia).
    rewrite length_le_bytes, Nat.add_sub'. by rewrite slice_first. }
  rewrite Hs. unfold frame_with at 1. fold P.
  rewrite (app_assoc _ P), le_value_slice; cycle 1.
  { destruct (crc_u64 P). unfold u64_max in *. simpl. lia. }
  { rewrite length_app, length_le_bytes. lia. }
  { lia. }
  rewrite Z.eqb_refl. simpl. unfold P. rewrite parse_payload by done. simpl. do 2 f_equal.
  apply bool_decide_ext. unfold frame_with. fold P. rewrite !app_assoc.
  rewrite lookup_app_r by (rewrite !length_app, !length_le_bytes; lia).
  rewrite !length_app, !length_le_bytes.
  replace (S (S (S (S (S (S (S (S (S (S (S (S (length P)))))))))))) - (4 + length P + 8))%nat with 0%nat by lia.
  simpl. naive_solver.
Qed.

(** ** The locator *)
Definition idx_ok (e : IdxEntry) : Prop :=
  0 <= ie_offset e < 2 ^ 32 ∧ 0 <= ie_len e < 2 ^ 32 ∧ is_u64 (ie_ts e) ∧ 0 <= ie_flags e < 256.

Lemma length_idx_entry e : length (encode_idx_entry e) = 20%nat.
Proof. unfold encode_idx_entry. by rewrite !length_app, !length_le_bytes. Qed.

Lemma length_idx es : length (concat (encode_idx_entry <$> es)) = (length es * 20)%nat.
Proof.
  induction es as [|e es IH]; [done|]. rewrite fmap_cons. cbn [concat].
  rewrite length_app, length_idx_entry, IH. simpl. lia.
Qed.

Lemma idx_entry_decode e rest :
  idx_ok e →
  let b := slice (encode_idx_entry e ++ rest) 0 20 in
  mkIdx (le_value (slice b 0 4)) (le_value (slice b 4 8)) (le_value (slice b 8 16))
    (le_value (slice b 16 17)) = e.
Proof.
  intros (Ho & Hl & Hts & Hf). unfold is_u64, u64_max in Hts.
  rewrite slice_first by apply length_idx_entry. unfold encode_idx_entry.
  repeat match goal with
  | |- context [slice (le_bytes ?n ?z ++ ?l) 0 ?m] =>
      rewrite (slice_first (le_bytes n z) l m) by apply length_le_bytes
  | |- context [slice (le_bytes ?n ?z ++ ?l) ?a ?b] =>
      rewrite (slice_skip (le_bytes n z) l a b) by (rewrite length_le_bytes; lia);
      rewrite length_le_bytes; simpl Nat.sub
  end.
  rewrite !le_value_bytes by (simpl; lia). by destruct e.
Qed.

Lemma idx_entry_at_spec es i :
  Forall idx_ok es → idx_entry_at (concat (encode_idx_entry <$> es)) i = es !! i.
Proof.
  intros Hes. unfold idx_entry_at, IDX_STRIDE. rewrite length_idx.
  destruct (es !! i) as [e|] eqn:He.
  - pose proof (lookup_lt_Some _ _ _ He). rewrite (proj2 (Nat.ltb_ge _ _)) by lia. f_equal.
    pose proof (Forall_lookup_1 _ _ _ _ Hes He) as Hok.
    rewrite <-(take_drop_middle es i e He).
    assert (Hi : length (take i es) = i) by (rewrite length_take; lia).
    set (es1 := take i es) in *. clearbody es1. subst i.
    rewrite fmap_app, concat_app, fmap_cons. cbn [concat].
    rewrite slice_skip by (rewrite length_idx; lia). rewrite length_idx, Nat.sub_diag, Nat.add_sub'.
    by apply idx_entry_decode.
  - apply lookup_ge_None in He. by rewrite (proj2 (Nat.ltb_lt _ _)) by lia.
Qed.

(** ** Built segments *)

(** A [.data] buffer: the records with the current value of their delete flag. *)
Definition seg_data (rds : list (SegmentRecord * byte)) : bytes :=
  concat ((λ rd, frame_with rd.1 rd.2) <$> rds).

(** The entries of a run of records from offset [off]. *)
Fixpoint entries_from (off : Z) (recs : list SegmentRecord) : list IdxEntry :=
  match recs with
  | [] => []
  | rec :: recs =>
      let len := Z.of_nat (length (encode_data_frame rec)) in
      mkIdx off len (sr_ts rec) (seg_flags rec) :: entries_from (off + len) recs
  end.

Lemma foldl_push_builder recs sb :
  let sb' := foldl builder_push sb recs in
  sb_data sb' = sb_data sb ++ seg_data ((λ r, (r, SEG_DEL_LIVE)) <$> recs) ∧
  sb_idx sb' = sb_idx sb ++
    concat (encode_idx_entry <$> entries_from (Z.of_nat (length (sb_data sb))) recs) ∧
  sb_start_seq sb' = sb_start_seq sb ∧
  sb_next_seq sb' = sb_next_seq sb + Z.of_nat (length recs).
Proof.
  revert sb. induction recs as [|rec recs IH]; intros sb; cbn [foldl].
  { simpl. rewrite !app_nil_r. split_and!; try done. lia. }
  destruct (IH (builder_push sb rec)) as (Hd & Hi & Hs & Hn). rewrite Hd, Hi, Hs, Hn.
  unfold builder_push. cbn [sb_data sb_idx sb_start_seq sb_next_seq]. split_and!; [..|done|simpl length; lia].
  - rewrite <-app_assoc, encode_frame_live. done.
  - rewrite <-app_assoc, length_app, Nat2Z.inj_add. done.
Qed.

Lemma build_fields start recs :
  sb_data (build start recs) = seg_data ((λ r, (r, SEG_DEL_LIVE)) <$> recs) ∧
  sb_idx (build start recs) = concat (encode_idx_entry <$> entries_from 0 recs) ∧
  end_seq (build start recs) = (start + Z.of_nat (length recs)) -s 1.
Proof.
  unfold build, end_seq. destruct (foldl_push_builder recs (builder_new start)) as (-> & -> & _ & ->).
  done.
Qed.

Definition frames_len (recs : list SegmentRecord) : nat :=
  foldr (λ rec acc, (length (encode_data_frame rec) + acc)%nat) 0%nat recs.

Lemma length_seg_data rds : length (seg_data rds) = frames_len rds.*1.
Proof.
  induction rds as [|[rec d] rds IH]; [done|]. unfold seg_data in *. rewrite fmap_cons. cbn [concat].
  rewrite length_app, IH. simpl. by rewrite encode_frame_live, !length_frame_with.
Qed.

Lemma entries_lookup off recs i rec :
  recs !! i = Some rec →
  entries_from off recs !! i =
    Some (mkIdx (off + Z.of_nat (frames_len (take i recs)))
            (Z.of_nat (length (encode_data_frame rec))) (sr_ts rec) (seg_flags rec)).
Proof.
  revert off i. induction recs as [|r recs IH]; intros off i Hi; [done|].
  destruct i as [|i]; simplify_eq/=; [do 2 f_equal; lia|].
  rewrite IH by done. do 2 f_equal. lia.
Qed.

Lemma length_entries off recs : length (entries_from off recs) = length recs.
Proof. revert off. induction recs as [|r recs IH]; intros off; simpl; [done|]. by rewrite IH. Qed.

Lemma frames_len_take recs i : (frames_len (take i recs) <= frames_len recs)%nat.
Proof. revert i. induction recs as [|r recs IH]; intros [|i]; simpl; [lia..|]. specialize (IH i). lia. Qed.

Lemma frames_len_lookup recs i rec :
  recs !! i = Some rec →
  (frames_len (take i recs) + length (encode_data_frame rec) <= frames_len recs)%nat.
Proof.
  revert i. induction recs as [|r recs IH]; intros i Hi; [done|].
  destruct i as [|i]; simplify_eq/=; [lia|]. specialize (IH i Hi). lia.
Qed.

Lemma entries_ok recs :
  Forall seg_ok recs → Z.of_nat (frames_len recs) < 2 ^ 32 → Forall idx_ok (entries_from 0 recs).
Proof.
  intros Hrecs Hlen. apply Forall_lookup. intros i e Hi.
  destruct (recs !! i) as [rec|] eqn:Hr; cycle 1.
  { apply lookup_ge_None in Hr. apply lookup_lt_Some in Hi. rewrite length_entries in Hi. lia. }
  rewrite (entries_lookup 0 recs i rec Hr) in Hi. injection Hi as <-.
  pose proof (frames_len_lookup _ _ _ Hr). pose proof (Forall_lookup_1 _ _ _ _ Hrecs Hr) as (_ & Hts & _).
  pose proof (seg_flags_bits rec) as [Hf _]. unfold idx_ok. simpl.
  split_and!; try done; lia.
Qed.

(** The locator entry of a record, however long the segment: its offset is the position
    of the frame modulo 4 GiB, so a record past the first 4 GiB is looked for in the
    wrong place. *)
Lemma locator_wraps start recs i rec :
  Forall seg_ok recs → recs !! i = Some rec →
  seg_lookup (sb_idx (build start recs)) start (start + Z.of_nat i) =
    Some (mkIdx (Z.of_nat (frames_len (take i recs)) mod 2 ^ 32)
            (Z.of_nat (length (encode_data_frame rec))) (sr_ts rec) (seg_flags rec)).
Proof.
  intros Hok Hi. destruct (build_fields start recs) as (_ & -> & _). unfold seg_lookup.
  rewrite (proj2 (Z.ltb_ge _ _)) by lia. replace (Z.to_nat (start + Z.of_nat i - start)) with i by lia.
  set (wrap e := mkIdx (ie_offset e mod 2 ^ 32) (ie_len e) (ie_ts e) (ie_flags e)).
  assert (encode_idx_entry <$> entries_from 0 recs = encode_idx_entry <$> (wrap <$> entries_from 0 recs)) as ->.
  { rewrite <-list_fmap_compose. apply list_fmap_ext. intros j e _. unfold encode_idx_entry, compose, wrap. simpl ie_offset.
    by rewrite <-(le_bytes_wrap 4 (ie_offset e)). }
  rewrite idx_entry_at_spec, list_lookup_fmap, (entries_lookup _ _ _ _ Hi); [done|].
  apply Forall_fmap, Forall_lookup. intros j e Hj. destruct (recs !! j) as [r|] eqn:Hr; cycle 1.
  { apply lookup_ge_None in Hr. apply lookup_lt_Some in Hj. rewrite length_entries in Hj. lia. }
  rewrite (entries_lookup 0 recs j r Hr) in Hj. injection Hj as <-.
  pose proof (Forall_lookup_1 _ _ _ _ Hok Hr) as (_ & Hts & Hno & Hta & Hd). pose proof (seg_flags_bits r) as [Hf _].
  apply seg_str_len in Hno, Hta. unfold idx_ok, compose, wrap. cbn [ie_offset ie_len ie_ts ie_flags].
  pose proof (Z.mod_pos_bound (0 + Z.of_nat (frames_len (take j recs))) (2 ^ 32) ltac:(lia)).
  rewrite encode_frame_live, length_frame_with, length_seg_payload. split_and!; done || lia.
Qed.

(** A record's frame is the slice its entry names. *)
Lemma seg_data_slice rds i rec d :
  rds !! i = Some (rec, d) →
  seg_data rds = seg_data (take i rds) ++ frame_with rec d ++ seg_data (drop (S i) rds).
Proof.
  intros Hi. rewrite <-(take_drop_middle rds i (rec, d) Hi) at 1. unfold seg_data.
  by rewrite fmap_app, concat_app, fmap_cons.
Qed.

Lemma take_fmap_fst {A B} (l : list (A * B)) i : (take i l).*1 = take i l.*1.
Proof. by rewrite fmap_take. Qed.

Lemma read_record_spec start rds i rec d :
  Forall seg_ok rds.*1 → Z.of_nat (frames_len rds.*1) < 2 ^ 32 →
  rds !! i = Some (rec, d) →
  read_record (seg_data rds) (sb_idx (build start rds.*1)) start (start + Z.of_nat i) =
    Some (Ok (rec, bool_decide (d = SEG_DEL_SENTINEL))).
Proof.
  intros Hok Hlen Hi. destruct (build_fields start rds.*1) as (_ & -> & _).
  assert (Hr : rds.*1 !! i = Some rec) by (by rewrite list_lookup_fmap, Hi).
  unfold read_record, seg_lookup. rewrite (proj2 (Z.ltb_ge _ _)) by lia.
  replace (Z.to_nat (start + Z.of_nat i - start)) with i by lia.
  rewrite idx_entry_at_spec by (by apply entries_ok). rewrite (entries_lookup _ _ _ _ Hr).
  cbn [mbind option_bind ie_offset ie_len]. rewrite !Nat2Z.id, Z.add_0_l, Nat2Z.id.
  rewrite (seg_data_slice rds i rec d Hi). rewrite <-take_fmap_fst, <-length_seg_data.
  rewrite (proj2 (Nat.ltb_ge _ _)) by (rewrite encode_frame_live, !length_app, !length_frame_with; lia).
  rewrite slice_skip by lia. rewrite Nat.sub_diag, Nat.add_sub'.
  rewrite slice_first by (by rewrite encode_frame_live, !length_frame_with).
  rewrite decode_frame_with; [done|]. by apply (Forall_lookup_1 _ _ _ _ Hok Hr).
Qed.

(** Flipping the flag of one record changes that record's flag only. *)
Lemma flip_deleted_spec rds i rec d e :
  rds !! i = Some (rec, d) → entries_from 0 rds.*1 !! i = Some e →
  flip_deleted (seg_data rds) e = seg_data (<[i := (rec, SEG_DEL_SENTINEL)]> rds).
Proof.
  intros Hi He. assert (Hr : rds.*1 !! i = Some rec) by (by rewrite list_lookup_fmap, Hi).
  rewrite (entries_lookup _ _ _ _ Hr) in He. injection He as <-.
  pose proof (lookup_lt_Some _ _ _ Hi).
  rewrite (seg_data_slice (<[i := (rec, SEG_DEL_SENTINEL)]> rds) i rec SEG_DEL_SENTINEL)
    by (by apply list_lookup_insert_eq).
  rewrite take_insert_ge, drop_insert_lt by lia.
  rewrite (seg_data_slice rds i rec d Hi). unfold flip_deleted, del_flag_offset_in_frame, SEG_FRAME_DEL_LEN.
  cbn [ie_offset ie_len]. rewrite !Nat2Z.id, Z.add_0_l, Nat2Z.id, <-take_fmap_fst, <-length_seg_data.
  rewrite encode_frame_live, length_frame_with.
  rewrite insert_app_r, insert_app_l by (rewrite length_frame_with; lia). f_equal. f_equal.
  unfold frame_with. set (P := seg_payload rec).
  rewrite !app_assoc, insert_app_r_alt by (rewrite !length_app, !length_le_bytes; lia).
  f_equal. rewrite !length_app, !length_le_bytes.
  by replace (13 + length P - 1 - (4 + length P + 8))%nat with 0%nat by lia.
Qed.

Lemma read_record_outside start rds seq :
  Forall seg_ok rds.*1 → Z.of_nat (frames_len rds.*1) < 2 ^ 32 →
  seq < start ∨ start + Z.of_nat (length rds) <= seq →
  read_record (seg_data rds) (sb_idx (build start rds.*1)) start seq = None.
Proof.
  intros Hok Hlen Hseq. destruct (build_fields start rds.*1) as (_ & -> & _).
  unfold read_record, seg_lookup. destruct (Z.ltb_spec seq start); [done|].
  rewrite idx_entry_at_spec by (by apply entries_ok).
  rewrite (lookup_ge_None_2 (entries_from 0 rds.*1)); [done|].
  rewrite length_entries, length_fmap. lia.
Qed.

(** ** Properties *)

(** A built segment returns every record at its seq, live, and nothing for
    a seq outside its range. *)
Theorem segment_read_back start recs seq :
  Forall seg_ok recs → Z.of_nat (frames_len recs) < 2 ^ 32 →
  read_record (sb_data (build start recs)) (sb_idx (build start recs)) start seq =
    if (start <=? seq) && (seq <? start + Z.of_nat (length recs))
    then (λ rec, Ok (rec, false)) <$> recs !! Z.to_nat (seq - start)
    else None.
Proof.
  intros Hok Hlen. destruct (build_fields start recs) as (-> & _ & _).
  set (rds := (λ r, (r, SEG_DEL_LIVE)) <$> recs).
  assert (Hfst : rds.*1 = recs) by (unfold rds; rewrite <-list_fmap_compose; apply list_fmap_id).
  rewrite <-Hfst in Hok, Hlen. rewrite <-Hfst at 1.
  destruct (Z.leb_spec start seq), (Z.ltb_spec seq (start + Z.of_nat (length recs))); simpl;
    try (apply read_record_outside; [done..|unfold rds; rewrite length_fmap; lia]).
  destruct (lookup_lt_is_Some_2 recs (Z.to_nat (seq - start)) ltac:(lia)) as [rec Hrec].
  rewrite Hrec. simpl. replace seq with (start + Z.of_nat (Z.to_nat (seq - start))) at 1 by lia.
  rewrite (read_record_spec start rds _ rec SEG_DEL_LIVE); [done..|].
  unfold rds. by rewrite list_lookup_fmap, Hrec.
Qed.

(** Flipping a record's delete flag in place deletes that record and no
    other: each record of the segment reads as before, the flipped one as
    deleted. *)
Theorem segment_flip_deletes start rds i rec d e j :
  Forall seg_ok rds.*1 → Z.of_nat (frames_len rds.*1) < 2 ^ 32 →
  rds !! i = Some (rec, d) →
  seg_lookup (sb_idx (build start rds.*1)) start (start + Z.of_nat i) = Some e →
  read_record (flip_deleted (seg_data rds) e) (sb_idx (build start rds.*1)) start (start + Z.of_nat j) =
    if decide (i = j) then Some (Ok (rec, true))
    else read_record (seg_data rds) (sb_idx (build start rds.*1)) start (start + Z.of_nat j).
Proof.
  intros Hok Hlen Hi He. destruct (build_fields start rds.*1) as (_ & Hidx & _).
  rewrite Hidx in He. unfold seg_lookup in He. rewrite (proj2 (Z.ltb_ge _ _)) in He by lia.
  replace (Z.to_nat (start + Z.of_nat i - start)) with i in He by lia.
  rewrite idx_entry_at_spec in He by (by apply entries_ok).
  rewrite (flip_deleted_spec rds i rec d e Hi He).
  set (rds' := <[i := (rec, SEG_DEL_SENTINEL)]> rds).
  assert (Hfst : rds'.*1 = rds.*1).
  { unfold rds'. rewrite list_fmap_insert. apply list_insert_id. by rewrite list_lookup_fmap, Hi. }
  pose proof (lookup_lt_Some _ _ _ Hi). rewrite <-Hfst. destruct (decide (i = j)) as [->|Hne].
  - rewrite (read_record_spec start rds' j rec SEG_DEL_SENTINEL); rewrite ?Hfst; [done..|].
    unfold rds'. by apply list_lookup_insert_eq.
  - destruct (rds !! j) as [[rec' d']|] eqn:Hj.
    + rewrite (read_record_spec start rds' j rec' d'); rewrite ?Hfst; [|done..|].
      2: { unfold rds'. by rewrite list_lookup_insert_ne. }
      by rewrite (read_record_spec start rds j rec' d').
    + apply lookup_ge_None in Hj. rewrite (read_record_outside start rds'); rewrite ?Hfst; [|done..|].
      2: { unfold rds'. rewrite length_insert. lia. }
      rewrite (read_record_outside start rds); [done..|lia].
Qed.

Lemma idx_len_build start recs : idx_len (sb_idx (build start recs)) = length recs.
Proof.
  destruct (build_fields start recs) as (_ & -> & _). unfold idx_len.
  rewrite <-(length_entries 0 recs). induction (entries_from 0 recs) as [|e es IH]; [done|].
  rewrite fmap_cons. cbn [concat]. rewrite length_app.
  replace (length (encode_idx_entry e)) with (1 * IDX_STRIDE)%nat
    by (unfold encode_idx_entry; rewrite !length_app, !length_le_bytes; done).
  rewrite Nat.div_add_l by done. by rewrite IH.
Qed.

(** Deletes are recovered from the segment files alone: scanning a segment
    finds exactly the records whose delete flag is the sentinel, however the
    other flags are torn. *)
Theorem segment_scan_exact start rds s :
  Forall seg_ok rds.*1 → Z.of_nat (frames_len rds.*1) < 2 ^ 32 →
  (∀ i rec d, rds !! i = Some (rec, d) → sr_seq rec = start + Z.of_nat i) →
  s ∈ scan_deleted (seg_data rds) (sb_idx (build start rds.*1)) start ↔
    ∃ i rec, s = start + Z.of_nat i ∧ rds !! i = Some (rec, SEG_DEL_SENTINEL).
Proof.
  intros Hok Hlen Hseq. unfold scan_deleted.
  rewrite list_elem_of_filter, elem_of_seqZ, idx_len_build, length_fmap. unfold flagged. split.
  - intros [Hf Hs]. destruct (lookup_lt_is_Some_2 rds (Z.to_nat (s - start)) ltac:(lia)) as [[rec d] Hi].
    replace s with (start + Z.of_nat (Z.to_nat (s - start))) in Hf by lia.
    rewrite (read_record_spec start rds _ rec d) in Hf by done.
    case_bool_decide; [|done]. subst d. exists (Z.to_nat (s - start)), rec. split; [lia|done].
  - intros (i & rec & -> & Hi). rewrite (read_record_spec start rds i rec SEG_DEL_SENTINEL) by done.
    rewrite bool_decide_true by done. pose proof (lookup_lt_Some _ _ _ Hi).
    rewrite (Hseq i rec _ Hi). split; [lia|lia].
Qed.

(** A torn flip is harmless: whatever byte the delete flag holds, the record
    decodes, and it reads as deleted only for the exact sentinel. *)
Theorem segment_torn_flip rec d :
  seg_ok rec →
  decode_data_frame_full (frame_with rec d) = Ok (rec, bool_decide (d = SEG_DEL_SENTINEL)) ∧
  encode_data_frame rec = frame_with rec SEG_DEL_LIVE.
Proof. split; [by apply decode_frame_with|apply encode_frame_live]. Qed.
End segment.

(** ** A concrete segment *)
Module SegmentSamples.
Definition len_crc (b : bytes) : Z := Z.of_nat (length b) mod 2 ^ 64.

Lemma len_crc_u64 b : is_u64 (len_crc b).
Proof.
  unfold len_crc, is_u64, u64_max.
  pose proof (Z.mod_pos_bound (Z.of_nat (length b)) (2 ^ 64) ltac:(lia)). lia.
Qed.

Definition sample_recs : list SegmentRecord :=
  [ mkSegRec 5 100 (Some "n1"%string) None [x01]; mkSegRec 6 101 None (Some "a/b"%string) [x02; x03] ].

Lemma sample_recs_ok : Forall seg_ok sample_recs.
Proof. repeat constructor; by vm_compute. Qed.

Lemma segment_read_back_witness :
  read_record len_crc (sb_data (build len_crc 5 sample_recs)) (sb_idx (build len_crc 5 sample_recs)) 5 6
  = Some (Ok (mkSegRec 6 101 None (Some "a/b"%string) [x02; x03], false)).
Proof.
  rewrite (segment_read_back len_crc len_crc_u64 5 sample_recs 6 sample_recs_ok); [done|by vm_compute].
Defined.

Definition sample_rds : list (SegmentRecord * byte) := (λ r, (r, SEG_DEL_LIVE)) <$> sample_recs.

Lemma segment_flip_deletes_witness :
  let idx := sb_idx (build len_crc 5 sample_rds.*1) in
  let e := mkIdx 0 41 100 2 in
  seg_lookup idx 5 (5 + Z.of_nat 0) = Some e ∧
  read_record len_crc (flip_deleted (seg_data len_crc sample_rds) e) idx 5 (5 + Z.of_nat 0)
  = Some (Ok (mkSegRec 5 100 (Some "n1"%string) None [x01], true)).
Proof.
  cbv zeta. split; [by vm_compute|].
  rewrite (segment_flip_deletes len_crc len_crc_u64 5 sample_rds 0
    (mkSegRec 5 100 (Some "n1"%string) None [x01]) SEG_DEL_LIVE (mkIdx 0 41 100 2) 0);
    [done|apply sample_recs_ok|by vm_compute|done|by vm_compute].
Defined.

Lemma segment_scan_exact_witness :
  let rds := [(mkSegRec 5 100 None None [x01], x50); (mkSegRec 6 100 None None [x02], SEG_DEL_SENTINEL)] in
  6 ∈ scan_deleted len_crc (seg_data len_crc rds) (sb_idx (build len_crc 5 rds.*1)) 5.
Proof.
  intros rds. apply (segment_scan_exact len_crc len_crc_u64 5 rds 6).
  - repeat constructor; by vm_compute.
  - by vm_compute.
  - intros [|[|i]] rec d [= <- <-]; done.
  - exists 1%nat, (mkSegRec 6 100 None None [x02]). done.
Defined.

Lemma segment_torn_flip_witness :
  decode_data_frame_full len_crc (frame_with len_crc (mkSegRec 5 100 None None [x01]) x50) =
    Ok (mkSegRec 5 100 None None [x01], false).
Proof.
  apply (segment_torn_flip len_crc len_crc_u64 (mkSegRec 5 100 None None [x01]) x50).
  repeat split; by vm_compute.
Defined.
End SegmentSamples.
