(* ===== verification/Disk.v ===== *)
(** * The disk

    Models the file-system seam of [src/storage/fs.rs] through the two
    implementations its crash tests use ([src/storage/testfs.rs]): [FakeDisk],
    which separates what is visible from what survives a power loss, and
    [FaultFs], which makes any call fail.  Bytes become durable when their file
    is synced and names when their directory is; [crash] keeps what is durable
    and may leave a damaged part of the last unsynced write of each file.

    Code over the disk is a computation of the monad [IO].  The answers of the
    fault injector are the list [w_faults], one per call, so a statement over all
    lists covers every plan of [FaultFs] and every point at which a power loss
    can stop the code: a device that refuses every further call leaves the disk
    as it was at that point.  [wp] is the weakest precondition of a computation
    over the disk, for all faults or for none.

    File offsets and lengths are natural numbers; they index lists of bytes in
    memory. *)

From stdpp Require Import base gmap list strings sorting.
From S2P Require Import Prelude Bytes.

(** ** File images *)

(** A path: its parent directory and its file name. *)
Abbreviation Path := (string * string)%type.

Record FileImage := mkImage {
  im_durable : bytes;
  im_pending : list (nat * bytes);
  im_pending_len : option nat
}.

Definition empty_image : FileImage := mkImage [] [] None.

(** A positioned write over a buffer, which grows with zeros when needed. *)
Definition overlay (buf : bytes) (w : nat * bytes) : bytes :=
  let fin := (w.1 + length w.2)%nat in
  let buf := if (length buf <? fin)%nat then resize fin x00 buf else buf in
  take w.1 buf ++ w.2 ++ drop fin buf.

Definition set_length (o : option nat) (buf : bytes) : bytes :=
  match o with Some t => resize t x00 buf | None => buf end.

(** [FileImage::visible_bytes] *)
Definition visible_bytes (img : FileImage) : bytes :=
  foldl overlay (set_length (im_pending_len img) (im_durable img)) (im_pending img).

(** [FileImage::logical_len] *)
Definition logical_len (img : FileImage) : nat :=
  foldl (λ len w, Nat.max len (w.1 + length w.2))
    (default (length (im_durable img)) (im_pending_len img)) (im_pending img).

(** [FileImage::promote] *)
Definition promote (img : FileImage) : FileImage := mkImage (visible_bytes img) [] None.

Inductive TornDamage := NoDamage | PrefixTruncate | ZeroSector | Garble.

(** ** The disk image *)
Record DiskState := mkDisk {
  live_dir : gmap Path nat;
  durable_dir : gmap Path nat;
  inodes : gmap nat FileImage;
  dirs : gset string;
  next_inode : nat;
  lying_fsync : bool;
  frozen : bool;
  seed : Z
}.

(** [FakeDisk::with_seed] *)
Definition disk_new (s : Z) : DiskState := mkDisk ∅ ∅ ∅ ∅ 0 false false s.

Definition set_live (d : DiskState) (l : gmap Path nat) : DiskState :=
  mkDisk l (durable_dir d) (inodes d) (dirs d) (next_inode d) (lying_fsync d) (frozen d) (seed d).
Definition set_inodes (d : DiskState) (m : gmap nat FileImage) : DiskState :=
  mkDisk (live_dir d) (durable_dir d) m (dirs d) (next_inode d) (lying_fsync d) (frozen d) (seed d).

(** [DiskState::alloc_inode] *)
Definition alloc_inode (d : DiskState) : DiskState * nat :=
  let id := S (next_inode d) in
  (mkDisk (live_dir d) (durable_dir d) (<[id := empty_image]> (inodes d)) (dirs d) id
     (lying_fsync d) (frozen d) (seed d), id).

(** The step of the damage generator, a wrapping [u64] addition. *)
Definition SEED_STEP : Z := 0x9E3779B97F4A7C15.
Definition next_seed (s : Z) : Z := (s + SEED_STEP) mod 2 ^ 64.

(** [FakeDisk::tear]: the bytes of a torn write that reached the media. *)
Definition tear (bs : bytes) (damage : TornDamage) (s : Z) : bytes * Z :=
  match bs with
  | [] => ([], s)
  | _ =>
      let pick n := Z.to_nat (s mod Z.of_nat n) in
      (match damage with
       | NoDamage => []
       | PrefixTruncate => take (pick (length bs)) bs
       | ZeroSector =>
           let nsec := Nat.max ((length bs + 511) / 512) 1 in
           let start := (pick nsec * 512)%nat in
           let fin := Nat.min (start + 512) (length bs) in
           take start bs ++ replicate (fin - start) x00 ++ drop fin bs
       | Garble =>
           alter (λ b, byte_of_Z (Z.lxor (Z_of_byte b) 255)) (pick (length bs)) bs
       end, next_seed s)
  end.

(** What a crash leaves of one file. *)
Definition crash_image (damage : TornDamage) (img : FileImage) (s : Z) : FileImage * Z :=
  match last (im_pending img) with
  | None => (mkImage (im_durable img) [] None, s)
  | Some (off, bs) =>
      let '(torn, s) := tear bs damage s in
      (mkImage (match torn with [] => im_durable img | _ => overlay (im_durable img) (off, torn) end)
         [] None, s)
  end.

Definition crash_inode (damage : TornDamage) (acc : gmap nat FileImage * Z) (id : nat) :
    gmap nat FileImage * Z :=
  match acc.1 !! id with
  | Some img => let '(img, s) := crash_image damage img acc.2 in (<[id := img]> acc.1, s)
  | None => acc
  end.

(** [FakeDisk::crash] *)
Definition crash (damage : TornDamage) (d : DiskState) : DiskState :=
  let ids := merge_sort le (elements (dom (inodes d))) in
  let '(inos, s) := foldl (crash_inode damage) (inodes d, seed d) ids in
  mkDisk (durable_dir d) (durable_dir d)
    (filter (λ kv, kv.1 ∈ (map_to_list (durable_dir d)).*2) inos)
    (dirs d) (next_inode d) (lying_fsync d) true s.

(** [FakeDisk::reset_power] *)
Definition reset_power (d : DiskState) : DiskState :=
  mkDisk (live_dir d) (durable_dir d) (inodes d) (dirs d) (next_inode d) (lying_fsync d) false (seed d).

(** ** Calls on the disk *)
Inductive FaultKind := Eio | Enospc | ShortWrite | Estale.
Inductive IoError := NotFound | WriteZero | Injected (k : FaultKind).

Record World := mkWorld { w_disk : DiskState; w_faults : list (option FaultKind) }.

Definition IO (A : Type) : Type := World → World * result IoError A.

#[export] Instance IO_ret : MRet IO := λ A a w, (w, Ok a).
#[export] Instance IO_bind : MBind IO :=
  λ A B k m w, match m w with
               | (w, Ok a) => k a w
               | (w, Err c) => (w, Err c)
               end.

Definition io_fail {A} (c : IoError) : IO A := λ w, (w, Err c).
Definition io_get : IO DiskState := λ w, (w, Ok (w_disk w)).
Definition io_put (d : DiskState) : IO unit := λ w, (mkWorld d (w_faults w), Ok tt).
(** [match m { Ok(_) => .., Err(_) => .. }] *)
Definition io_try {A} (m : IO A) : IO (result IoError A) := λ w, let '(w, r) := m w in (w, Ok r).

(** [FaultPlan::check], for the next call. *)
Definition next_fault : IO (option FaultKind) :=
  λ w, match w_faults w with
       | [] => (w, Ok None)
       | f :: fs => (mkWorld (w_disk w) fs, Ok f)
       end.

(** A call of [FaultFs] around one of the inner file system. *)
Definition faulted {A} (m : IO A) : IO A :=
  f ← next_fault;
  match f with Some k => io_fail (Injected k) | None => m end.

(** The image of an open file. *)
Definition image_of (ino : nat) : IO FileImage :=
  d ← io_get;
  match inodes d !! ino with Some img => mret img | None => io_fail NotFound end.

(** [File::write_at]: the number of bytes written. *)
Definition inner_write_at (ino off : nat) (buf : bytes) : IO nat :=
  d ← io_get;
  if frozen d then mret (length buf)
  else
    img ← image_of ino;
    _ ← io_put (set_inodes d (<[ino := mkImage (im_durable img) (im_pending img ++ [(off, buf)])
                                        (im_pending_len img)]> (inodes d)));
    mret (length buf).

Definition write_at (ino off : nat) (buf : bytes) : IO nat :=
  f ← next_fault;
  match f with
  | Some ShortWrite =>
      inner_write_at ino off (take (Nat.min (Nat.max (length buf / 2) 1) (length buf)) buf)
  | Some k => io_fail (Injected k)
  | None => inner_write_at ino off buf
  end.

(** [File::set_len] *)
Definition set_len (ino len : nat) : IO unit :=
  faulted (
    d ← io_get;
    if frozen d then mret tt
    else
      img ← image_of ino;
      io_put (set_inodes d
        (<[ino := mkImage (im_durable img) (filter (λ w, (w.1 < len)%nat) (im_pending img)) (Some len)]>
           (inodes d)))).

(** [File::sync_data]; [File::sync_all] is the same call here. *)
Definition sync_data (ino : nat) : IO unit :=
  faulted (
    d ← io_get;
    if frozen d || lying_fsync d then mret tt
    else io_put (set_inodes d (alter promote ino (inodes d)))).
Definition sync_all : nat → IO unit := sync_data.

(** [File::metadata_len] *)
Definition metadata_len (ino : nat) : IO nat :=
  img ← image_of ino; mret (logical_len img).

(** [File::read_to_end_from] offset 0 *)
Definition read_to_end (ino : nat) : IO bytes :=
  faulted (img ← image_of ino; mret (visible_bytes img)).

Record OpenOpts := mkOpts { oo_create : bool; oo_truncate : bool }.
Definition read_only : OpenOpts := mkOpts false false.
Definition create_truncate : OpenOpts := mkOpts true true.
Definition create_keep : OpenOpts := mkOpts true false.
Definition rw_existing : OpenOpts := mkOpts false false.

(** [Fs::open] *)
Definition open (path : Path) (opts : OpenOpts) : IO nat :=
  faulted (
    d ← io_get;
    match live_dir d !! path with
    | None =>
        if negb (oo_create opts) then io_fail NotFound
        else
          let '(d, id) := alloc_inode d in
          _ ← io_put (if frozen d then d else set_live d (<[path := id]> (live_dir d)));
          mret id
    | Some id =>
        if oo_truncate opts && negb (frozen d) then
          let '(d, id) := alloc_inode d in
          _ ← io_put (set_live d (<[path := id]> (live_dir d)));
          mret id
        else mret id
    end).

(** [Fs::rename] *)
Definition rename (src dst : Path) : IO unit :=
  faulted (
    d ← io_get;
    if frozen d then mret tt
    else match live_dir d !! src with
         | None => io_fail NotFound
         | Some id => io_put (set_live d (<[dst := id]> (delete src (live_dir d))))
         end).

(** [Fs::remove_file] *)
Definition remove_file (path : Path) : IO unit :=
  faulted (
    d ← io_get;
    if frozen d then mret tt
    else match live_dir d !! path with
         | None => io_fail NotFound
         | Some _ => io_put (set_live d (delete path (live_dir d)))
         end).

(** [Fs::read_dir]: the names under a directory, in order. *)
Definition names_in (dir : string) (m : gmap Path nat) : list string :=
  merge_sort String.le
    (omap (λ kv : Path * nat, if decide (kv.1.1 = dir) then Some kv.1.2 else None) (map_to_list m)).
Definition read_dir (dir : string) : IO (list string) :=
  d ← io_get; mret (names_in dir (live_dir d)).

(** [Fs::sync_dir]: the durable names of the directory become the live ones. *)
Definition synced_names (dir : string) (live durable : gmap Path nat) : gmap Path nat :=
  filter (λ kv, kv.1.1 = dir) live ∪ filter (λ kv, kv.1.1 ≠ dir) durable.
Definition sync_dir (dir : string) : IO unit :=
  faulted (
    d ← io_get;
    if frozen d then mret tt
    else io_put (mkDisk (live_dir d) (synced_names dir (live_dir d) (durable_dir d)) (inodes d)
                   (dirs d) (next_inode d) (lying_fsync d) (frozen d) (seed d))).

(** [Fs::create_dir_all]; a directory is named by its full path. *)
Definition create_dir_all (dir : string) : IO unit :=
  faulted (
    d ← io_get;
    io_put (mkDisk (live_dir d) (durable_dir d) (inodes d) ({[dir]} ∪ dirs d) (next_inode d)
              (lying_fsync d) (frozen d) (seed d))).

(** Looping over short writes ([write_all_at], [write_all_at_tail]). *)
Fixpoint write_all (fuel : nat) (ino off : nat) (bs : bytes) : IO unit :=
  match bs, fuel with
  | [], _ => mret tt
  | _, O => io_fail WriteZero
  | _, S fuel =>
      n ← write_at ino off bs;
      if (n =? 0)%nat then io_fail WriteZero else write_all fuel ino (off + n) (drop n bs)
  end.
Definition write_all_at (ino off : nat) (bs : bytes) : IO unit := write_all (length bs) ino off bs.

(** ** Weakest preconditions *)

(** The calls fail at will when [fl] is set, and never otherwise. *)
Definition quiet (fl : bool) (fs : list (option FaultKind)) : Prop :=
  fl = false → Forall (eq None) fs.

Definition wp (fl : bool) {A} (m : IO A) (Q : result IoError A → DiskState → Prop) (d : DiskState) :
    Prop :=
  ∀ fs, quiet fl fs →
    quiet fl (w_faults (m (mkWorld d fs)).1) ∧ Q (m (mkWorld d fs)).2 (w_disk (m (mkWorld d fs)).1).

Section wp.
Context (fl : bool).

Lemma wp_mono {A} (m : IO A) (Q R : result IoError A → DiskState → Prop) d :
  wp fl m Q d → (∀ r d', Q r d' → R r d') → wp fl m R d.
Proof. intros Hm HQ fs Hfs. destruct (Hm fs Hfs). auto. Qed.

Lemma wp_ret {A} (a : A) (Q : result IoError A → DiskState → Prop) d : Q (Ok a) d → wp fl (mret a) Q d.
Proof. intros HQ fs Hfs. done. Qed.

Lemma wp_fail {A} c (Q : result IoError A → DiskState → Prop) d : Q (Err c) d → wp fl (io_fail c) Q d.
Proof. intros HQ fs Hfs. done. Qed.

Lemma wp_bind {A B} (m : IO A) (k : A → IO B) (Q : result IoError B → DiskState → Prop) d :
  wp fl m (λ r d', match r with Ok a => wp fl (k a) Q d' | Err c => Q (Err c) d' end) d →
  wp fl (m ≫= k) Q d.
Proof.
  intros Hm fs Hfs. destruct (Hm fs Hfs) as [Hq HQ]. unfold mbind, IO_bind.
  destruct (m (mkWorld d fs)) as [[d' fs'] [a|c]]; simpl in *; [by apply HQ|done].
Qed.

Lemma wp_try {A} (m : IO A) (Q : result IoError (result IoError A) → DiskState → Prop) d :
  wp fl m (λ r d', Q (Ok r) d') d → wp fl (io_try m) Q d.
Proof.
  intros Hm fs Hfs. destruct (Hm fs Hfs) as [Hq HQ]. unfold io_try.
  by destruct (m (mkWorld d fs)) as [[d' fs'] r].
Qed.

Lemma wp_get (Q : result IoError DiskState → DiskState → Prop) d : Q (Ok d) d → wp fl io_get Q d.
Proof. intros HQ fs Hfs. done. Qed.

Lemma wp_put d' (Q : result IoError unit → DiskState → Prop) d : Q (Ok tt) d' → wp fl (io_put d') Q d.
Proof. intros HQ fs Hfs. done. Qed.

Lemma wp_next_fault (Q : result IoError (option FaultKind) → DiskState → Prop) d :
  (∀ f, (fl = false → f = None) → Q (Ok f) d) → wp fl next_fault Q d.
Proof.
  intros HQ fs Hfs. unfold next_fault. destruct fs as [|f fs]; simpl.
  - split; [done|]. by apply HQ.
  - split; [intros Hfl; by specialize (Hfs Hfl); inversion Hfs|].
    apply HQ. intros Hfl. specialize (Hfs Hfl). by inversion Hfs.
Qed.

Lemma wp_faulted {A} (m : IO A) (Q : result IoError A → DiskState → Prop) d :
  (fl = true → ∀ k, Q (Err (Injected k)) d) → wp fl m Q d → wp fl (faulted m) Q d.
Proof.
  intros Herr Hm. apply wp_bind, wp_next_fault. intros [k|] Hf; [|done].
  apply wp_fail, Herr. by destruct fl; [|specialize (Hf eq_refl)].
Qed.

Lemma wp_image_of ino img (Q : result IoError FileImage → DiskState → Prop) d :
  inodes d !! ino = Some img → Q (Ok img) d → wp fl (image_of ino) Q d.
Proof. intros Hi HQ. apply wp_bind, wp_get. rewrite Hi. by apply wp_ret. Qed.
End wp.

(** ** File contents *)

(** The image with a list of further unsynced writes. *)
Definition with_writes (img : FileImage) (ws : list (nat * bytes)) : FileImage :=
  mkImage (im_durable img) (im_pending img ++ ws) (im_pending_len img).

Lemma with_writes_nil img : with_writes img [] = img.
Proof. destruct img. unfold with_writes. simpl. by rewrite app_nil_r. Qed.

Lemma with_writes_app img ws ws' : with_writes (with_writes img ws) ws' = with_writes img (ws ++ ws').
Proof. unfold with_writes. simpl. by rewrite app_assoc. Qed.

Lemma prefix_take_eq {A} (p l : list A) : p `prefix_of` l → take (length p) l = p.
Proof. intros [k ->]. by rewrite take_app_length. Qed.

Lemma prefix_sublist {A} (p l : list A) : p `prefix_of` l → sublist p l.
Proof. intros [k ->]. by apply sublist_inserts_r. Qed.

Lemma prefix_of_take {A} (p l : list A) n : p `prefix_of` l → (length p <= n)%nat → p `prefix_of` take n l.
Proof.
  intros [k ->] Hn. rewrite take_app_ge by done. by eexists.
Qed.

Lemma resize_prefix (p buf : bytes) n :
  p `prefix_of` buf → (length p <= n)%nat → p `prefix_of` resize n x00 buf.
Proof.
  intros Hp Hn. rewrite resize_spec. apply prefix_app_r. by apply prefix_of_take.
Qed.

(** A write at or after the end of a prefix keeps the prefix. *)
Lemma overlay_keeps p buf w : p `prefix_of` buf → (length p <= w.1)%nat → p `prefix_of` overlay buf w.
Proof.
  intros Hp Hw. unfold overlay. apply prefix_app_r, prefix_of_take; [|done].
  case_match; [apply resize_prefix; [done|lia]|done].
Qed.

(** A write at the end of a prefix extends it. *)
Lemma overlay_extends p buf bs : p `prefix_of` buf → p ++ bs `prefix_of` overlay buf (length p, bs).
Proof.
  intros Hp. unfold overlay. simpl.
  assert (∀ b, p `prefix_of` b → take (length p) b = p) as Ht by apply prefix_take_eq.
  rewrite Ht; [rewrite app_assoc; by eexists|].
  case_match; [apply resize_prefix; [done|lia]|done].
Qed.

Lemma overlays_keep p ws buf :
  p `prefix_of` buf → Forall (λ w, (length p <= w.1)%nat) ws → p `prefix_of` foldl overlay buf ws.
Proof.
  intros Hp Hws. revert buf Hp. induction Hws as [|w ws Hw _ IH]; intros buf Hp; [done|].
  simpl. apply IH. by apply overlay_keeps.
Qed.

(** [p] survives a crash: it is durable and no unsynced write touches it. *)
Record kept (p : bytes) (img : FileImage) : Prop := {
  kp_durable : p `prefix_of` im_durable img;
  kp_pending : Forall (λ w, (length p <= w.1)%nat) (im_pending img);
  kp_len : ∀ t, im_pending_len img = Some t → (length p <= t)%nat
}.

(** A reader of the open file sees [c] at its start. *)
Definition holds (c : bytes) (img : FileImage) : Prop := c `prefix_of` visible_bytes img.

Lemma kept_holds p img : kept p img → holds p img.
Proof.
  intros [Hd Hp Hl]. unfold holds, visible_bytes. apply overlays_keep; [|done].
  unfold set_length. destruct (im_pending_len img); [apply resize_prefix; auto|done].
Qed.

Lemma kept_nil img : kept [] img.
Proof. split; [apply prefix_nil|apply Forall_forall; simpl; lia|simpl; lia]. Qed.

Lemma holds_nil img : holds [] img.
Proof. apply prefix_nil. Qed.

Lemma kept_writes p img ws :
  kept p img → Forall (λ w, (length p <= w.1)%nat) ws → kept p (with_writes img ws).
Proof. intros [Hd Hp Hl] Hws. split; simpl; [done|by apply Forall_app|done]. Qed.

Lemma holds_writes c img ws :
  holds c img → Forall (λ w, (length c <= w.1)%nat) ws → holds c (with_writes img ws).
Proof.
  unfold holds, visible_bytes. simpl. intros Hc Hws. rewrite foldl_app. by apply overlays_keep.
Qed.

Lemma holds_append c img bs : holds c img → holds (c ++ bs) (with_writes img [(length c, bs)]).
Proof.
  unfold holds, visible_bytes. simpl. intros Hc. rewrite foldl_app. simpl. by apply overlay_extends.
Qed.

Lemma kept_promote c img : holds c img → kept c (promote img).
Proof. intros Hc. by split. Qed.

Lemma kept_crash p damage img s : kept p img → p `prefix_of` visible_bytes (crash_image damage img s).1.
Proof.
  intros [Hd Hp _]. unfold crash_image. destruct (last (im_pending img)) as [[off bs]|] eqn:Hl; [|done].
  destruct (tear bs damage s) as [torn s']. destruct torn as [|b torn]; [done|].
  apply overlay_keeps; [done|].
  apply last_Some in Hl as [l Hl]. rewrite Hl, Forall_app in Hp. destruct Hp as [_ Hp].
  by inversion Hp.
Qed.

(** ** What survives a crash *)
Lemma crash_inode_other damage acc id id' :
  id ≠ id' → (crash_inode damage acc id').1 !! id = acc.1 !! id.
Proof.
  intros Hne. unfold crash_inode. destruct (acc.1 !! id') as [img|]; [|done].
  destruct (crash_image damage img acc.2). simpl. by rewrite lookup_insert_ne.
Qed.

Lemma crash_inodes_other damage ids acc id :
  id ∉ ids → (foldl (crash_inode damage) acc ids).1 !! id = acc.1 !! id.
Proof.
  revert acc. induction ids as [|x ids IH]; intros acc Hid; [done|]. simpl.
  apply not_elem_of_cons in Hid as [Hx Hid]. rewrite IH by done. by apply crash_inode_other.
Qed.

Lemma crash_inodes_lookup damage ids acc id img :
  NoDup ids → id ∈ ids → acc.1 !! id = Some img →
  ∃ s, (foldl (crash_inode damage) acc ids).1 !! id = Some (crash_image damage img s).1.
Proof.
  intros Hnd. revert acc. induction Hnd as [|x ids Hx Hnd IH]; intros acc Hid Hi.
  { by apply elem_of_nil in Hid. }
  simpl. destruct (decide (id = x)) as [->|Hne].
  - exists acc.2. rewrite crash_inodes_other by done. unfold crash_inode. rewrite Hi.
    destruct (crash_image damage img acc.2) as [img' s'] eqn:E. simpl. by rewrite lookup_insert_eq.
  - apply elem_of_cons in Hid as [?|Hid]; [done|]. apply IH; [done|].
    by rewrite crash_inode_other.
Qed.

(** A file whose name is durable is found again, with its durable bytes. *)
Lemma crash_lookup damage d path id img :
  durable_dir d !! path = Some id → inodes d !! id = Some img →
  live_dir (crash damage d) !! path = Some id ∧
  ∃ s, inodes (crash damage d) !! id = Some (crash_image damage img s).1.
Proof.
  intros Hp Hi. unfold crash.
  set (ids := merge_sort le (elements (dom (inodes d)))).
  assert (Hids : ids ≡ₚ elements (dom (inodes d))) by apply merge_sort_Permutation.
  destruct (crash_inodes_lookup damage ids (inodes d, seed d) id img) as [s Hs].
  { rewrite Hids. apply NoDup_elements. }
  { rewrite Hids. apply elem_of_elements, elem_of_dom. eauto. }
  { done. }
  destruct (foldl (crash_inode damage) (inodes d, seed d) ids) as [inos s'] eqn:E. simpl in *.
  split; [done|]. exists s. apply map_lookup_filter_Some. split; [done|]. simpl.
  apply list_elem_of_fmap. exists (path, id). split; [done|]. by apply elem_of_map_to_list.
Qed.

(** ** The calls *)

(** The device is on and its syncs are honest. *)
Definition powered (d : DiskState) : Prop := frozen d = false ∧ lying_fsync d = false.

(** The disk with one image replaced. *)
Definition set_image (d : DiskState) (ino : nat) (img : FileImage) : DiskState :=
  set_inodes d (<[ino := img]> (inodes d)).

Lemma set_image_same d ino img : inodes d !! ino = Some img → set_image d ino img = d.
Proof. intros Hi. destruct d. unfold set_image, set_inodes. simpl in *. by rewrite insert_id. Qed.

Lemma set_image_twice d ino img img' : set_image (set_image d ino img) ino img' = set_image d ino img'.
Proof. unfold set_image, set_inodes. simpl. by rewrite insert_insert_eq. Qed.

Section calls.
Context (fl : bool).

Lemma wp_inner_write_at ino off buf img (Q : result IoError nat → DiskState → Prop) d :
  powered d → inodes d !! ino = Some img →
  Q (Ok (length buf)) (set_image d ino (with_writes img [(off, buf)])) →
  wp fl (inner_write_at ino off buf) Q d.
Proof.
  intros [Hf _] Hi HQ. apply wp_bind, wp_get. rewrite Hf.
  apply wp_bind, (wp_image_of fl ino img); [done|].
  apply wp_bind, wp_put, wp_ret, HQ.
Qed.

(** A write puts some of the bytes on the file, all of them when nothing fails. *)
Lemma wp_write_at ino off buf img (Q : result IoError nat → DiskState → Prop) d :
  powered d → inodes d !! ino = Some img → buf ≠ [] →
  (fl = true → ∀ k, Q (Err (Injected k)) d) →
  (∀ n, (0 < n <= length buf)%nat → (fl = false → n = length buf) →
     Q (Ok n) (set_image d ino (with_writes img [(off, take n buf)]))) →
  wp fl (write_at ino off buf) Q d.
Proof.
  intros Hd Hi Hne Herr HQ. assert (0 < length buf)%nat by (destruct buf; [done|simpl; lia]).
  apply wp_bind, wp_next_fault. intros f Hf.
  assert (Hfail : ∀ k, f = Some k → wp fl (io_fail (Injected k)) Q d).
  { intros k ->. apply wp_fail, Herr. by destruct fl; [|specialize (Hf eq_refl)]. }
  destruct f as [[]|]; try by eapply Hfail.
  - set (n := Nat.min _ _). eapply wp_inner_write_at; [done..|].
    rewrite length_take. assert (Nat.min n (length buf) = n) as -> by lia. apply HQ; [lia|].
    intros ->. by specialize (Hf eq_refl).
  - eapply wp_inner_write_at; [done..|]. rewrite <-(firstn_all buf) at 2. apply HQ; [lia|done].
Qed.

(** The write loop: on success the bytes are on the file at the offset; either
    way it touches nothing before the offset. *)
Lemma wp_write_all fuel ino off bs img (Q : result IoError unit → DiskState → Prop) d :
  powered d → inodes d !! ino = Some img → (length bs <= fuel)%nat →
  (fl = true → ∀ e ws, Forall (λ w, (off <= w.1)%nat) ws →
     Q (Err e) (set_image d ino (with_writes img ws))) →
  (∀ ws, Forall (λ w, (off <= w.1)%nat) ws →
     (∀ c, length c = off → holds c img → holds (c ++ bs) (with_writes img ws)) →
     Q (Ok tt) (set_image d ino (with_writes img ws))) →
  wp fl (write_all fuel ino off bs) Q d.
Proof.
  revert off bs img d. induction fuel as [|fuel IH]; intros off bs img d Hd Hi Hlen Herr HQ.
  all: destruct (decide (bs = [])) as [->|Hne].
  1, 3: apply wp_ret; rewrite <-(set_image_same d ino img), <-(with_writes_nil img) by done;
    apply HQ; [done|]; intros c _ Hc; by rewrite with_writes_nil, app_nil_r.
  { destruct bs; [done|simpl in Hlen; lia]. }
  replace (write_all (S fuel) ino off bs) with
    (n ← write_at ino off bs;
     if (n =? 0)%nat then io_fail WriteZero else write_all fuel ino (off + n) (drop n bs))
    by (by destruct bs).
  apply wp_bind, (wp_write_at ino off bs img); [done|done|done| |].
  { intros Hfl k. rewrite <-(set_image_same d ino img), <-(with_writes_nil img) by done. by apply Herr. }
  intros n Hn _. destruct (Nat.eqb_spec n 0) as [|_]; [lia|].
  apply (IH (off + n)%nat (drop n bs) (with_writes img [(off, take n bs)])).
  - done.
  - apply lookup_insert_eq.
  - rewrite length_drop. lia.
  - intros Hfl e ws Hws. rewrite set_image_twice, with_writes_app. apply Herr; [done|].
    constructor; [simpl; lia|]. eapply Forall_impl; [done|]. simpl. lia.
  - intros ws Hws Hc. rewrite set_image_twice, with_writes_app. apply HQ.
    { constructor; [simpl; lia|]. eapply Forall_impl; [done|]. simpl. lia. }
    intros c Hoff Hhold. rewrite <-with_writes_app.
    replace (c ++ bs) with ((c ++ take n bs) ++ drop n bs) by (by rewrite <-app_assoc, take_drop).
    apply Hc.
    + rewrite length_app, length_take. lia.
    + rewrite <-Hoff. by apply holds_append.
Qed.

Lemma wp_sync_data ino img (Q : result IoError unit → DiskState → Prop) d :
  powered d → inodes d !! ino = Some img →
  (fl = true → ∀ k, Q (Err (Injected k)) d) → Q (Ok tt) (set_image d ino (promote img)) →
  wp fl (sync_data ino) Q d.
Proof.
  intros [Hf Hl] Hi Herr HQ. apply wp_faulted; [done|]. apply wp_bind, wp_get. rewrite Hf, Hl. simpl.
  apply wp_put. unfold set_image in HQ.
  replace (alter promote ino (inodes d)) with (<[ino := promote img]> (inodes d)); [done|].
  apply map_eq. intros i. destruct (decide (i = ino)) as [->|Hne].
  - by rewrite lookup_insert_eq, lookup_alter_eq, Hi.
  - by rewrite lookup_insert_ne, lookup_alter_ne.
Qed.

Lemma wp_set_len ino len img (Q : result IoError unit → DiskState → Prop) d :
  powered d → inodes d !! ino = Some img →
  (fl = true → ∀ k, Q (Err (Injected k)) d) →
  Q (Ok tt) (set_image d ino (mkImage (im_durable img)
               (filter (λ w, (w.1 < len)%nat) (im_pending img)) (Some len))) →
  wp fl (set_len ino len) Q d.
Proof.
  intros [Hf Hl] Hi Herr HQ. apply wp_faulted; [done|]. apply wp_bind, wp_get. rewrite Hf.
  apply wp_bind, (wp_image_of fl ino img); [done|]. apply wp_put, HQ.
Qed.

Lemma wp_sync_dir dir (Q : result IoError unit → DiskState → Prop) d :
  powered d → (fl = true → ∀ k, Q (Err (Injected k)) d) →
  Q (Ok tt) (mkDisk (live_dir d) (synced_names dir (live_dir d) (durable_dir d)) (inodes d) (dirs d)
               (next_inode d) (lying_fsync d) (frozen d) (seed d)) →
  wp fl (sync_dir dir) Q d.
Proof.
  intros [Hf Hl] Herr HQ. apply wp_faulted; [done|]. apply wp_bind, wp_get. rewrite Hf.
  apply wp_put. by rewrite <-Hf.
Qed.

(** The disk with a fresh empty file under a name. *)
Definition with_new_file (d : DiskState) (path : Path) : DiskState :=
  set_live (alloc_inode d).1 (<[path := S (next_inode d)]> (live_dir d)).

Lemma wp_open_fresh path opts (Q : result IoError nat → DiskState → Prop) d :
  powered d → oo_create opts = true → (oo_truncate opts = true ∨ live_dir d !! path = None) →
  (fl = true → ∀ k, Q (Err (Injected k)) d) → Q (Ok (S (next_inode d))) (with_new_file d path) →
  wp fl (open path opts) Q d.
Proof.
  intros [Hf Hl] Hc Ht Herr HQ. apply wp_faulted; [done|]. apply wp_bind, wp_get.
  destruct (live_dir d !! path) as [id|] eqn:E.
  - destruct Ht as [Ht|]; [|done]. rewrite Ht, Hf. simpl. apply wp_bind, wp_put, wp_ret, HQ.
  - rewrite Hc. simpl. unfold with_new_file, alloc_inode in HQ. simpl in HQ. rewrite Hf in *.
    apply wp_bind, wp_put, wp_ret, HQ.
Qed.

Lemma wp_open_existing path opts id (Q : result IoError nat → DiskState → Prop) d :
  live_dir d !! path = Some id → oo_truncate opts = false →
  (fl = true → ∀ k, Q (Err (Injected k)) d) → Q (Ok id) d → wp fl (open path opts) Q d.
Proof.
  intros Hi Ht Herr HQ. apply wp_faulted; [done|]. apply wp_bind, wp_get. rewrite Hi, Ht. simpl.
  by apply wp_ret.
Qed.

Lemma wp_read_to_end ino img (Q : result IoError bytes → DiskState → Prop) d :
  inodes d !! ino = Some img → (fl = true → ∀ k, Q (Err (Injected k)) d) →
  Q (Ok (visible_bytes img)) d → wp fl (read_to_end ino) Q d.
Proof.
  intros Hi Herr HQ. apply wp_faulted; [done|]. apply wp_bind, (wp_image_of fl ino img); [done|].
  by apply wp_ret.
Qed.

Lemma wp_rename src dst id (Q : result IoError unit → DiskState → Prop) d :
  powered d → live_dir d !! src = Some id → (fl = true → ∀ k, Q (Err (Injected k)) d) →
  Q (Ok tt) (set_live d (<[dst := id]> (delete src (live_dir d)))) → wp fl (rename src dst) Q d.
Proof.
  intros [Hf Hl] Hi Herr HQ. apply wp_faulted; [done|]. apply wp_bind, wp_get. rewrite Hf, Hi.
  by apply wp_put.
Qed.

Lemma wp_remove_file path (Q : result IoError unit → DiskState → Prop) d :
  powered d → (∀ e, fl = true ∨ live_dir d !! path = None → Q (Err e) d) →
  Q (Ok tt) (set_live d (delete path (live_dir d))) → wp fl (remove_file path) Q d.
Proof.
  intros [Hf Hl] Herr HQ. apply wp_faulted; [by intros; apply Herr; left|]. apply wp_bind, wp_get.
  rewrite Hf. destruct (live_dir d !! path) eqn:E; [by apply wp_put|].
  apply wp_fail, Herr. by right.
Qed.

Lemma wp_create_dir_all dir (Q : result IoError unit → DiskState → Prop) d :
  (fl = true → ∀ k, Q (Err (Injected k)) d) →
  Q (Ok tt) (mkDisk (live_dir d) (durable_dir d) (inodes d) ({[dir]} ∪ dirs d) (next_inode d)
               (lying_fsync d) (frozen d) (seed d)) →
  wp fl (create_dir_all dir) Q d.
Proof. intros Herr HQ. apply wp_faulted; [done|]. apply wp_bind, wp_get. by apply wp_put. Qed.
End calls.

(** ** Consistent disks *)

(** Every name leads to a file, and no two visible names to the same one. *)
Record sound (d : DiskState) : Prop := {
  sd_live : ∀ p ino, live_dir d !! p = Some ino → is_Some (inodes d !! ino) ∧ (ino <= next_inode d)%nat;
  sd_durable : ∀ p ino, durable_dir d !! p = Some ino →
    is_Some (inodes d !! ino) ∧ (ino <= next_inode d)%nat;
  sd_inj : ∀ p q ino, live_dir d !! p = Some ino → live_dir d !! q = Some ino → p = q
}.

Lemma sound_new s : sound (disk_new s).
Proof. by split. Qed.

Lemma sound_set_image d ino img : sound d → sound (set_image d ino img).
Proof.
  intros [Hl Hd Hi]. split; simpl; [| |done].
  all: intros p i Hp; (destruct (Hl p i Hp) || destruct (Hd p i Hp)); split; [|done].
  all: destruct (decide (i = ino)) as [->|]; [rewrite lookup_insert_eq|rewrite lookup_insert_ne by done]; eauto.
Qed.

Lemma sound_new_file d p : sound d → sound (with_new_file d p).
Proof.
  intros [Hl Hd Hi].
  assert (Hold : ∀ i, is_Some (inodes d !! i) ∧ (i <= next_inode d)%nat →
    is_Some (<[S (next_inode d) := empty_image]> (inodes d) !! i) ∧ (i <= S (next_inode d))%nat).
  { intros i [? ?]. split; [|lia]. rewrite lookup_insert_ne by lia. done. }
  split; simpl.
  - intros q i Hq. destruct (decide (q = p)) as [->|Hne].
    + rewrite lookup_insert_eq in Hq. simplify_eq. rewrite lookup_insert_eq. eauto.
    + rewrite lookup_insert_ne in Hq by done. eauto.
  - eauto.
  - intros q1 q2 i H1 H2. rewrite lookup_insert_Some in H1, H2.
    destruct H1 as [[<- <-]|[Hn1 H1]], H2 as [[<- E]|[Hn2 H2]]; try done.
    + destruct (Hl _ _ H2). lia.
    + subst i. destruct (Hl _ _ H1). lia.
    + by eapply Hi.
Qed.

Lemma sound_sync_dir d dir :
  sound d →
  sound (mkDisk (live_dir d) (synced_names dir (live_dir d) (durable_dir d)) (inodes d) (dirs d)
           (next_inode d) (lying_fsync d) (frozen d) (seed d)).
Proof.
  intros [Hl Hd Hi]. split; simpl; [done| |done]. intros p i Hp.
  unfold synced_names in Hp. apply lookup_union_Some_raw in Hp as [Hp|[_ Hp]];
    apply map_lookup_filter_Some in Hp as [Hp _]; eauto.
Qed.

(** After a crash every visible name still leads to a file. *)
Lemma crash_backed damage d p ino :
  sound d → live_dir (reset_power (crash damage d)) !! p = Some ino →
  ∃ img, inodes (reset_power (crash damage d)) !! ino = Some img.
Proof.
  intros Hs Hp. assert (durable_dir d !! p = Some ino) as Hd.
  { revert Hp. unfold crash. by destruct (foldl _ _ _). }
  destruct (sd_durable d Hs p ino Hd) as [[img Hi] _].
  destruct (crash_lookup damage d p ino img Hd Hi) as [_ [s Hs']]. eexists. exact Hs'.
Qed.

(** A file whose name is visible and durable. *)
Record file_at (d : DiskState) (path : Path) (ino : nat) (img : FileImage) : Prop := {
  fa_live : live_dir d !! path = Some ino;
  fa_durable : durable_dir d !! path = Some ino;
  fa_image : inodes d !! ino = Some img
}.

Lemma file_at_new_file d p path ino img :
  file_at d path ino img → path ≠ p → (ino <= next_inode d)%nat → file_at (with_new_file d p) path ino img.
Proof.
  intros [Hl Hd Hi] Hp Hn. split; simpl; [by rewrite lookup_insert_ne|done|].
  rewrite lookup_insert_ne by lia. done.
Qed.

Lemma file_at_set_image d path ino img ino' img' :
  file_at d path ino img → ino ≠ ino' → file_at (set_image d ino' img') path ino img.
Proof. intros [Hl Hd Hi] Hne. split; simpl; [done|done|]. by rewrite lookup_insert_ne. Qed.

Lemma file_at_update d path ino img img' :
  file_at d path ino img → file_at (set_image d ino img') path ino img'.
Proof. intros [Hl Hd Hi]. split; simpl; [done|done|]. by rewrite lookup_insert_eq. Qed.

Lemma synced_names_lookup dir live durable path :
  path.1 = dir → synced_names dir live durable !! path = live !! path.
Proof.
  intros Hp. unfold synced_names. destruct (live !! path) as [id|] eqn:E.
  - apply lookup_union_Some_l, map_lookup_filter_Some. done.
  - apply lookup_union_None. split; apply map_lookup_filter_None; [by left|right].
    intros x _ Hx. done.
Qed.

Lemma elem_of_names_in dir m n : n ∈ names_in dir m ↔ is_Some (m !! (dir, n)).
Proof.
  unfold names_in. rewrite merge_sort_Permutation, list_elem_of_omap. split.
  - intros ([[d' n'] ino] & Hin & Hd). simpl in Hd. case_decide; simplify_eq.
    apply elem_of_map_to_list in Hin. eauto.
  - intros [ino Hino]. exists ((dir, n), ino). split; [by apply elem_of_map_to_list|].
    simpl. by rewrite decide_True.
Qed.

Lemma sound_rename d src dst id :
  sound d → live_dir d !! src = Some id → sound (set_live d (<[dst := id]> (delete src (live_dir d)))).
Proof.
  intros [Hl Hd Hi] Hsrc. split; simpl; [|done|].
  - intros p i [[<- <-]|[_ [_ Hp]%lookup_delete_Some]]%lookup_insert_Some; eauto.
  - intros p q i [[<- <-]|[Hnp [Hp1 Hp2]%lookup_delete_Some]]%lookup_insert_Some
      [[<- E]|[Hnq [Hq1 Hq2]%lookup_delete_Some]]%lookup_insert_Some; try done.
    + by destruct Hq1; eapply Hi.
    + subst i. by destruct Hp1; eapply Hi.
    + by eapply Hi.
Qed.

Lemma sound_remove d p : sound d → sound (set_live d (delete p (live_dir d))).
Proof.
  intros [Hl Hd Hi]. split; simpl; [|done|].
  - intros q i [_ Hq]%lookup_delete_Some. eauto.
  - intros q1 q2 i [_ H1]%lookup_delete_Some [_ H2]%lookup_delete_Some. eauto.
Qed.

(** A file with nothing unsynced is the same after a crash. *)
Definition settled (img : FileImage) : Prop := im_pending img = [] ∧ im_pending_len img = None.

Lemma crash_settled damage img s : settled img → (crash_image damage img s).1 = img.
Proof. intros [Hp Hl]. unfold crash_image. rewrite Hp. simpl. destruct img; simpl in *. by subst. Qed.
