(* ===== verification/Names.v ===== *)
(** * Numbered files

    The files of the store are named by a number in at least sixteen digits
    between a prefix and a suffix: the WAL files of [src/storage/wal.rs], listed by
    [list_wal_files] ([src/engine/recovery.rs]), and the snapshots of
    [src/storage/snapshot.rs], listed by [list_snapshot_files].  A name is read
    back as its number, and a listing is in ascending order. *)

From Stdlib Require Import Ascii.
From stdpp Require Import base list strings sorting pretty.
From S2P Require Import Prelude.

(** A decimal digit and the text of a number in exactly [k] digits. *)
Definition digit_char (n : Z) : ascii := ascii_of_N (Z.to_N (48 + n)).
Fixpoint digits (k : nat) (n : Z) : string :=
  match k with
  | O => EmptyString
  | S k => digits k (n / 10) +:+ String (digit_char (n mod 10)) EmptyString
  end.

(** [format!("{:016}")] *)
Definition fmt016 (n : Z) : string := if n <? 10 ^ 16 then digits 16 n else pretty n.

(** [str::parse::<u64>] *)
Definition digit_of (c : ascii) : option Z :=
  let n := Z.of_N (N_of_ascii c) in
  if (48 <=? n) && (n <=? 57) then Some (n - 48) else None.
Fixpoint parse_digits (acc : Z) (s : string) : option Z :=
  match s with
  | EmptyString => Some acc
  | String c s =>
      match digit_of c with
      | Some d => let v := acc * 10 + d in if u64_max <? v then None else parse_digits v s
      | None => None
      end
  end.
Definition parse_u64 (s : string) : option Z :=
  match s with
  | EmptyString => None
  | String "+" EmptyString => None
  | String "+" s => parse_digits 0 s
  | _ => parse_digits 0 s
  end.

(** [str::strip_prefix] and [str::strip_suffix] *)
Fixpoint strip_prefix (p s : string) : option string :=
  match p, s with
  | EmptyString, _ => Some s
  | String a p, String b s => if Ascii.eqb a b then strip_prefix p s else None
  | String _ _, EmptyString => None
  end.
Definition strip_suffix (p s : string) : option string :=
  let l := String.list_ascii_of_string s in
  let q := String.list_ascii_of_string p in
  let n := (length l - length q)%nat in
  if (length q <=? length l)%nat && bool_decide (drop n l = q)
  then Some (String.string_of_list_ascii (take n l)) else None.

(** The name with a number, and the number of a name. *)
Definition numbered (pre suf : string) (idx : Z) : string := pre +:+ fmt016 idx +:+ suf.
Definition parse_numbered (pre suf name : string) : option Z :=
  match strip_prefix pre name with
  | Some rest => match strip_suffix suf rest with Some rest => parse_u64 rest | None => None end
  | None => None
  end.

Definition idx_le (a b : Z * string) : Prop := a.1 <= b.1.
#[export] Instance idx_le_dec a b : Decision (idx_le a b).
Proof. unfold idx_le. apply _. Defined.
#[export] Instance idx_le_trans : Transitive idx_le.
Proof. intros a b c. unfold idx_le. lia. Qed.
#[export] Instance idx_le_total : Total idx_le.
Proof. intros a b. unfold idx_le. lia. Qed.

(** The numbered files among the names of a directory, by ascending number. *)
Definition numbered_files (pre suf : string) (names : list string) : list (Z * string) :=
  merge_sort idx_le
    (omap (λ n, match parse_numbered pre suf n with Some idx => Some (idx, n) | None => None end) names).

(** ** File names are read back *)
Lemma string_app_assoc (s1 s2 s3 : string) : (s1 +:+ s2) +:+ s3 = s1 +:+ (s2 +:+ s3).
Proof. induction s1 as [|a s1 IH]; [done|]. by apply (f_equal (String a)). Qed.

Lemma string_app_nil_r (s : string) : s +:+ EmptyString = s.
Proof. induction s as [|a s IH]; [done|]. by apply (f_equal (String a)). Qed.

Lemma strip_prefix_app p s : strip_prefix p (p +:+ s) = Some s.
Proof. induction p as [|a p IH]; [done|]. simpl. by rewrite Ascii.eqb_refl. Qed.

Lemma list_ascii_app s1 s2 :
  String.list_ascii_of_string (s1 +:+ s2) =
    String.list_ascii_of_string s1 ++ String.list_ascii_of_string s2.
Proof. induction s1 as [|a s1 IH]; [done|]. simpl. by rewrite <-IH. Qed.

Lemma strip_suffix_app p s : strip_suffix p (s +:+ p) = Some s.
Proof.
  unfold strip_suffix. rewrite list_ascii_app, length_app, Nat.add_sub, drop_app_length, take_app_length.
  rewrite (proj2 (Nat.leb_le _ _)) by lia. rewrite bool_decide_eq_true_2 by done. simpl.
  by rewrite String.string_of_list_ascii_of_string.
Qed.

Lemma digit_of_char n : 0 <= n < 10 → digit_of (digit_char n) = Some n.
Proof.
  intros Hn. unfold digit_of, digit_char. rewrite N_ascii_embedding by lia.
  rewrite Z2N.id by lia.
  destruct (Z.leb_spec 48 (48 + n)); [|lia]. destruct (Z.leb_spec (48 + n) 57); [|lia].
  simpl. f_equal. lia.
Qed.

Lemma parse_digits_app k n acc rest :
  0 <= acc → 0 <= n < 10 ^ Z.of_nat k → acc * 10 ^ Z.of_nat k + n <= u64_max →
  parse_digits acc (digits k n +:+ rest) = parse_digits (acc * 10 ^ Z.of_nat k + n) rest.
Proof.
  revert n rest. induction k as [|k IH]; intros n rest Hacc Hn Hmax.
  { simpl. f_equal. change (10 ^ Z.of_nat 0) with 1 in *. lia. }
  cbn [digits]. rewrite string_app_assoc.
  rewrite Nat2Z.inj_succ, Z.pow_succ_r in * by lia.
  pose proof (Z.div_mod n 10 ltac:(lia)). pose proof (Z.mod_pos_bound n 10 ltac:(lia)).
  assert (0 <= n / 10 < 10 ^ Z.of_nat k).
  { split; [apply Z.div_pos; lia|apply Z.div_lt_upper_bound; lia]. }
  rewrite IH by (try done; nia). change (String (digit_char (n mod 10)) EmptyString +:+ rest) with (String (digit_char (n mod 10)) rest).
  cbn [parse_digits].
  rewrite digit_of_char by done.
  destruct (Z.ltb_spec u64_max ((acc * 10 ^ Z.of_nat k + n / 10) * 10 + n mod 10)); [nia|].
  f_equal. nia.
Qed.

Lemma parse_u64_digits s v : s ≠ EmptyString → parse_digits 0 s = Some v → parse_u64 s = Some v.
Proof.
  intros Hs Hp. destruct s as [|c s]; [done|].
  destruct (decide (c = "+"%char)) as [->|Hc]; [done|].
  destruct c as [[] [] [] [] [] [] [] []]; done.
Qed.

Lemma parse_numbered_of pre suf idx :
  0 <= idx < 10 ^ 16 → parse_numbered pre suf (numbered pre suf idx) = Some idx.
Proof.
  intros Hi. unfold parse_numbered, numbered. rewrite strip_prefix_app, strip_suffix_app.
  unfold fmt016. destruct (Z.ltb_spec idx (10 ^ 16)); [|lia].
  apply parse_u64_digits; [cbn [digits]; by destruct (digits 15 (idx / 10))|].
  rewrite <-(string_app_nil_r (digits 16 idx)).
  rewrite parse_digits_app; [simpl; f_equal; lia|lia|done|unfold u64_max; change (Z.of_nat 16) with 16; lia].
Qed.

Lemma numbered_ne pre suf i j :
  0 <= i < 10 ^ 16 → 0 <= j < 10 ^ 16 → i ≠ j → numbered pre suf i ≠ numbered pre suf j.
Proof.
  intros Hi Hj Hne E. apply Hne. apply (f_equal (parse_numbered pre suf)) in E.
  rewrite !parse_numbered_of in E by done. by simplify_eq.
Qed.

Lemma elem_of_numbered_files pre suf names idx n :
  (idx, n) ∈ numbered_files pre suf names ↔ n ∈ names ∧ parse_numbered pre suf n = Some idx.
Proof.
  unfold numbered_files. rewrite merge_sort_Permutation, list_elem_of_omap. split.
  - intros (n' & Hn & E). case_match; by simplify_eq.
  - intros [Hn Hp]. exists n. by rewrite Hp.
Qed.

(** A strictly ascending list of entries of a sorted list is a sublist of it. *)
Lemma ascending_sublist (L ks : list (Z * string)) :
  StronglySorted idx_le L → StronglySorted (λ a b, a.1 < b.1) ks → (∀ x, x ∈ ks → x ∈ L) → sublist ks L.
Proof.
  intros HL. revert ks. induction HL as [|y L HL IH Hy]; intros ks Hks Hin.
  { destruct ks as [|x ks]; [done|]. specialize (Hin x (list_elem_of_here _ _)). by apply elem_of_nil in Hin. }
  destruct Hks as [|x ks Hks Hx]; [apply sublist_nil_l|]. rewrite Forall_forall in Hx, Hy.
  destruct (decide (x = y)) as [->|Hne].
  - apply sublist_skip, IH; [done|]. intros z Hz.
    destruct (proj1 (elem_of_cons _ _ _) (Hin z (list_elem_of_further _ _ _ Hz))) as [->|]; [|done].
    specialize (Hx y Hz). lia.
  - apply sublist_cons, IH; [by constructor; [|apply Forall_forall]|]. intros z Hz.
    destruct (proj1 (elem_of_cons _ _ _) (Hin z Hz)) as [->|]; [|done].
    apply elem_of_cons in Hz as [->|Hz]; [done|]. specialize (Hx y Hz).
    destruct (proj1 (elem_of_cons _ _ _) (Hin x (list_elem_of_here _ _))) as [->|HxL]; [done|].
    specialize (Hy x HxL). unfold idx_le in Hy. lia.
Qed.

Lemma sorted_last_max (L : list (Z * string)) x y :
  StronglySorted idx_le L → last L = Some y → x ∈ L → x.1 <= y.1.
Proof.
  intros HL. induction HL as [|z L HL IH Hz]; intros Hl Hx; [done|].
  destruct L as [|w L]; simpl in *.
  - simplify_eq. apply list_elem_of_singleton in Hx as ->. lia.
  - apply elem_of_cons in Hx as [->|Hx]; [|by apply IH].
    rewrite Forall_forall in Hz. apply Hz. by apply last_Some_elem_of.
Qed.

Lemma numbered_files_sorted pre suf names : StronglySorted idx_le (numbered_files pre suf names).
Proof. apply (StronglySorted_merge_sort idx_le). Qed.

Lemma parse_digits_nonneg s acc v : 0 <= acc → parse_digits acc s = Some v → 0 <= v.
Proof.
  revert acc. induction s as [|c s IH]; intros acc Hacc H; simpl in H; [by simplify_eq|].
  unfold digit_of in H. destruct (_ && _) eqn:E; [|done].
  apply andb_true_iff in E as [E _]. apply Z.leb_le in E.
  case_match; [done|]. eapply IH; [|done]. lia.
Qed.

Lemma parse_u64_nonneg s v : parse_u64 s = Some v → 0 <= v.
Proof.
  intros H. destruct s as [|c s]; [done|].
  destruct (decide (c = "+"%char)) as [->|Hc].
  - destruct s as [|c s]; [done|]. by apply (parse_digits_nonneg (String c s) 0).
  - apply (parse_digits_nonneg (String c s) 0); [lia|].
    destruct c as [[] [] [] [] [] [] [] []]; done.
Qed.

Lemma parse_numbered_nonneg pre suf n v : parse_numbered pre suf n = Some v → 0 <= v.
Proof. unfold parse_numbered. repeat case_match; try done. apply parse_u64_nonneg. Qed.
