(* ===== verification/Auth.v ===== *)
(** * API keys

    Models [src/auth.rs]: scope sets, the entries of [TOPICS_API_KEYS], the store
    of hashed keys and the authentication of a presented token.

    The digest and its constant-time comparison ([sha2], [subtle]) are third-party
    code: [Crypto] is their interface.  [configured_access] shows that a store
    parsed from written-out entries gives each configured secret exactly the
    scopes and prefixes of its entry, and any other token nothing. *)

From Stdlib Require Import Ascii.
From stdpp Require Import base list strings.
From S2P Require Import Prelude Bytes Names Types.

(** ** The interface of the digest *)
Class Crypto := {
  (** [Sha256] of a secret *)
  digest : string → bytes;
  (** [ConstantTimeEq::ct_eq] *)
  ct_eq : bytes → bytes → bool
}.
Class CryptoLaws `{!Crypto} : Prop := {
  ct_eq_spec a b : ct_eq a b = true ↔ a = b
}.

(** ** Strings *)

(** The UTF-8 encodings of the characters with the property [White_Space]. *)
Definition chars (codes : list nat) : string :=
  String.string_of_list_ascii (ascii_of_nat <$> codes).
Definition whitespace : list string :=
  chars <$> ([[9]; [10]; [11]; [12]; [13]; [32]; [194; 133]; [194; 160]; [225; 154; 128];
              [226; 128; 168]; [226; 128; 169]; [226; 128; 175]; [226; 129; 159]; [227; 128; 128]]
             ++ ((λ n, [226; 128; 128 + n]) <$> seq 0 11))%nat.

(** [str::trim] *)
Fixpoint trim_with (strip : string → string → option string) (fuel : nat) (s : string) : string :=
  match fuel with
  | O => s
  | S fuel =>
      match omap (λ w, strip w s) whitespace with
      | s' :: _ => trim_with strip fuel s'
      | [] => s
      end
  end.
Definition trim (s : string) : string :=
  let s := trim_with strip_prefix (String.length s) s in
  trim_with strip_suffix (String.length s) s.

(** [str::split] and [str::split_once] at a character *)
Fixpoint split_char (c : ascii) (s : string) : list string :=
  match s with
  | EmptyString => [EmptyString]
  | String a s =>
      if Ascii.eqb a c then EmptyString :: split_char c s
      else match split_char c s with
           | h :: t => String a h :: t
           | [] => [String a EmptyString]
           end
  end.
Fixpoint split_once (c : ascii) (s : string) : option (string * string) :=
  match s with
  | EmptyString => None
  | String a s =>
      if Ascii.eqb a c then Some (EmptyString, s)
      else match split_once c s with Some (l, r) => Some (String a l, r) | None => None end
  end.

(** [str::to_ascii_lowercase] *)
Definition lower_char (c : ascii) : ascii :=
  let n := nat_of_ascii c in
  if (65 <=? n)%nat && (n <=? 90)%nat then ascii_of_nat (n + 32) else c.
Fixpoint to_ascii_lowercase (s : string) : string :=
  match s with
  | EmptyString => EmptyString
  | String c s => String (lower_char c) (to_ascii_lowercase s)
  end.

Definition is_empty (s : string) : bool := match s with EmptyString => true | _ => false end.

(** ** Scopes ([Scope], a [u8]) *)
Definition SCOPE_READ : Z := 1.
Definition SCOPE_WRITE : Z := 2.
Definition SCOPE_DELETE : Z := 4.
Definition SCOPE_ADMIN : Z := 8.
Definition SCOPE_NONE : Z := 0.
Definition SCOPE_ALL : Z := 15.

(** [Scope::contains], [Scope::union] *)
Definition scope_contains (s needed : Z) : bool := Z.land s needed =? needed.
Definition scope_union (a b : Z) : Z := Z.lor a b.

(** One token of a scope spec. *)
Definition scope_token (tok : string) : option Z :=
  let tok := to_ascii_lowercase tok in
  if bool_decide (tok ∈ ["read"; "r"]%string) then Some SCOPE_READ
  else if bool_decide (tok ∈ ["write"; "w"]%string) then Some SCOPE_WRITE
  else if bool_decide (tok ∈ ["delete"; "del"; "d"]%string) then Some SCOPE_DELETE
  else if bool_decide (tok ∈ ["admin"; "a"]%string) then Some SCOPE_ADMIN
  else if bool_decide (tok = "rw"%string) then Some (scope_union SCOPE_READ SCOPE_WRITE)
  else None.

(** The loop of [Scope::parse]; the error names the unknown token. *)
Fixpoint scope_loop (toks : list string) (acc : Z) : result string Z :=
  match toks with
  | [] => Ok acc
  | tok :: toks =>
      let tok := trim tok in
      if is_empty tok then scope_loop toks acc
      else match scope_token tok with
           | Some bit => scope_loop toks (scope_union acc bit)
           | None => Err tok
           end
  end.

(** [Scope::parse] *)
Definition scope_parse (spec : string) : result string Z :=
  let spec := trim spec in
  if is_empty spec then Ok SCOPE_ALL else scope_loop (split_char "+" spec) SCOPE_NONE.

(** ** Keys *)
Record ApiKey := mkKey {
  ak_hash : bytes;
  ak_scopes : Z;
  ak_prefixes : list string
}.

(** [ApiKey::effective_scopes] *)
Definition effective_scopes (k : ApiKey) : Z :=
  if (ak_scopes k =? SCOPE_NONE) && bool_decide (ak_prefixes k = []) then SCOPE_ALL
  else ak_scopes k.

(** [Principal] *)
Record Principal := mkPrincipal {
  p_key_id : option bytes;
  p_scopes : Z;
  p_prefixes : list string
}.

(** [Principal::full_access], [allows_scope], [allows_name] *)
Definition full_access_principal : Principal := mkPrincipal None SCOPE_ALL [].
Definition allows_scope (p : Principal) (needed : Z) : bool := scope_contains (p_scopes p) needed.
Definition allows_name (p : Principal) (name : string) : bool :=
  bool_decide (p_prefixes p = []) || existsb (λ pre, starts_with pre name) (p_prefixes p).

Section keys.
Context `{!Crypto}.

(** [ApiKey::full_access] *)
Definition full_access_key (secret : string) : ApiKey := mkKey (digest secret) SCOPE_NONE [].

(** [ApiKey::digest_matches] *)
Definition digest_matches (k : ApiKey) (presented : bytes) : bool := ct_eq (ak_hash k) presented.

(** [splitn(3, ':')] *)
Definition entry_fields (entry : string) : string * option string * option string :=
  match split_once ":" entry with
  | None => (entry, None, None)
  | Some (secret, rest) =>
      match split_once ":" rest with
      | None => (secret, Some rest, None)
      | Some (scopes, prefixes) => (secret, Some scopes, Some prefixes)
      end
  end.

Definition parse_prefixes (field : option string) : list string :=
  match field with
  | None => []
  | Some p => filter (λ s, is_empty s = false) (trim <$> split_char "|" p)
  end.

(** [ApiKey::parse_entry] *)
Definition parse_entry (entry : string) : result string (option ApiKey) :=
  let entry := trim entry in
  if is_empty entry then Ok None
  else
    let '(secret, scopes_field, prefixes_field) := entry_fields entry in
    let secret := trim secret in
    if is_empty secret then Ok None
    else
      let? scopes := match scopes_field with None => Ok SCOPE_NONE | Some s => scope_parse s end in
      Ok (Some (mkKey (digest secret) scopes (parse_prefixes prefixes_field))).

(** [KeyStore::parse] and [ServerConfig::parse_store], over the entries. *)
Fixpoint parse_entries (entries : list string) : result string (list ApiKey) :=
  match entries with
  | [] => Ok []
  | entry :: entries =>
      let? k := parse_entry entry in
      let? ks := parse_entries entries in
      Ok (match k with Some k => k :: ks | None => ks end)
  end.
Definition keystore_parse (value : string) : result string (list ApiKey) :=
  parse_entries (split_char "," value).

(** The scan of [KeyStore::authenticate]: every key is compared, and the last
    match is remembered. *)
Fixpoint auth_scan (i : nat) (keys : list ApiKey) (presented : bytes) (matched_idx : nat)
    (any_hit : bool) : nat * bool :=
  match keys with
  | [] => (matched_idx, any_hit)
  | k :: keys =>
      let hit := digest_matches k presented in
      auth_scan (S i) keys presented (if hit then i else matched_idx) (any_hit || hit)
  end.

(** [KeyStore::authenticate] *)
Definition authenticate (keys : list ApiKey) (token : string) : option Principal :=
  let '(idx, hit) := auth_scan 0 keys (digest token) 0 false in
  if hit then
    k ← keys !! idx;
    Some (mkPrincipal (Some (ak_hash k)) (effective_scopes k) (ak_prefixes k))
  else None.
End keys.

(** ** Written-out entries *)
Inductive ScopeName := ScRead | ScWrite | ScDelete | ScAdmin.

Definition scope_text (n : ScopeName) : string :=
  match n with ScRead => "read" | ScWrite => "write" | ScDelete => "delete" | ScAdmin => "admin" end.
Definition scope_bit (n : ScopeName) : Z :=
  match n with
  | ScRead => SCOPE_READ | ScWrite => SCOPE_WRITE | ScDelete => SCOPE_DELETE | ScAdmin => SCOPE_ADMIN
  end.

(** What an operator grants: a secret, some scopes (none listed: all) and some
    prefixes (none listed: any name). *)
Record KeySpec := mkSpec {
  ks_secret : string;
  ks_scopes : list ScopeName;
  ks_prefixes : list string
}.

Fixpoint join (c : ascii) (l : list string) : string :=
  match l with
  | [] => EmptyString
  | [s] => s
  | s :: l => s +:+ String c (join c l)
  end.

Definition render_key (k : KeySpec) : string :=
  ks_secret k +:+ String ":" (join "+" (scope_text <$> ks_scopes k)
    +:+ String ":" (join "|" (ks_prefixes k))).
Definition render_keys (ks : list KeySpec) : string := join "," (render_key <$> ks).

Definition granted (k : KeySpec) : Z :=
  match ks_scopes k with
  | [] => SCOPE_ALL
  | l => foldl (λ acc n, scope_union acc (scope_bit n)) SCOPE_NONE l
  end.

(** Printable ASCII without the given separators. *)
Definition plain (seps : list ascii) (s : string) : Prop :=
  Forall (λ c, (33 <= nat_of_ascii c <= 126)%nat ∧ c ∉ seps) (String.list_ascii_of_string s).

Definition spec_ok (k : KeySpec) : Prop :=
  ks_secret k ≠ EmptyString ∧ plain [":"; ","]%char (ks_secret k) ∧
  Forall (λ p, p ≠ EmptyString ∧ plain ["|"; ","]%char p) (ks_prefixes k).

#[export] Instance plain_dec seps s : Decision (plain seps s).
Proof. unfold plain. apply _. Defined.
#[export] Instance spec_ok_dec k : Decision (spec_ok k).
Proof. unfold spec_ok. apply _. Defined.

(** ** Trimming *)
Lemma strip_prefix_Some p s r : strip_prefix p s = Some r → s = p +:+ r.
Proof.
  revert s. induction p as [|a p IH]; intros s; [by intros [= ->]|].
  destruct s as [|b s]; [done|]. simpl. destruct (Ascii.eqb_spec a b) as [->|]; [|done]. intros Hs. by rewrite (IH _ Hs).
Qed.

Lemma strip_suffix_Some p s r :
  strip_suffix p s = Some r →
  String.list_ascii_of_string s = String.list_ascii_of_string r ++ String.list_ascii_of_string p.
Proof.
  unfold strip_suffix. destruct (_ && _) eqn:Hc; [|done]. intros [= <-].
  apply andb_prop in Hc as [_ Hd]. apply bool_decide_eq_true_1 in Hd.
  rewrite String.list_ascii_of_string_of_list_ascii. etrans; [symmetry; apply take_drop|].
  by rewrite Hd.
Qed.

Definition blank (c : ascii) : bool :=
  (nat_of_ascii c <? 33)%nat || (126 <? nat_of_ascii c)%nat.

Lemma whitespace_blank w :
  w ∈ whitespace → w ≠ EmptyString ∧ Forall (λ c, blank c = true) (String.list_ascii_of_string w).
Proof.
  assert (Hall : Forall (λ w, w ≠ EmptyString ∧
    Forall (λ c, blank c = true) (String.list_ascii_of_string w)) whitespace).
  { repeat constructor; done. }
  intros Hw. by eapply Forall_forall in Hall.
Qed.

Lemma trim_plain seps s : plain seps s → trim s = s.
Proof.
  intros Hs. assert (Hone : ∀ strip : string → string → option string,
    (∀ w r, strip w s = Some r → ∀ c, c ∈ String.list_ascii_of_string w → c ∈ String.list_ascii_of_string s) →
    ∀ fuel, trim_with strip fuel s = s).
  { intros strip Hstrip [|fuel]; [done|]. cbn [trim_with].
    destruct (omap _ whitespace) as [|r l] eqn:Ho; [done|exfalso].
    assert (Hr : r ∈ omap (λ w, strip w s) whitespace) by (rewrite Ho; by left).
    apply list_elem_of_omap in Hr as (w & Hw & Hr). destruct (whitespace_blank w Hw) as [Hne Hb].
    destruct w as [|c w]; [done|]. apply Forall_cons in Hb as [Hb _].
    assert (Hc := Hstrip _ _ Hr c ltac:(simpl; by left)).
    destruct (proj1 (Forall_forall _ _) Hs _ Hc) as [Hv _]. unfold blank in Hb.
    apply orb_prop in Hb as [Hb|Hb]; apply Nat.ltb_lt in Hb; lia. }
  unfold trim. rewrite !Hone; [done|..].
  - intros w r Hr c Hc. apply strip_suffix_Some in Hr. rewrite Hr, elem_of_app. by right.
  - intros w r Hr c Hc. apply strip_prefix_Some in Hr as ->. rewrite list_ascii_app, elem_of_app. by left.
Qed.

(** ** Splitting *)
Lemma split_once_app c a r :
  c ∉ String.list_ascii_of_string a → split_once c (a +:+ String c r) = Some (a, r).
Proof.
  induction a as [|x a IH]; intros Hc; simpl in *.
  - by rewrite Ascii.eqb_refl.
  - destruct (Ascii.eqb_spec x c) as [->|]; [set_solver|]. by rewrite IH by set_solver.
Qed.

Lemma split_char_plain c s : c ∉ String.list_ascii_of_string s → split_char c s = [s].
Proof.
  induction s as [|x s IH]; intros Hc; simpl in *; [done|].
  destruct (Ascii.eqb_spec x c) as [->|]; [set_solver|]. by rewrite IH by set_solver.
Qed.

Lemma split_char_app c a r :
  c ∉ String.list_ascii_of_string a → split_char c (a +:+ String c r) = a :: split_char c r.
Proof.
  induction a as [|x a IH]; intros Hc; simpl in *.
  - by rewrite Ascii.eqb_refl.
  - destruct (Ascii.eqb_spec x c) as [->|]; [set_solver|]. by rewrite IH by set_solver.
Qed.

Lemma split_char_join c l :
  l ≠ [] → Forall (λ s, c ∉ String.list_ascii_of_string s) l → split_char c (join c l) = l.
Proof.
  intros Hne Hl. induction Hl as [|s l Hs Hl IH]; [done|]. destruct l as [|s' l].
  - by apply split_char_plain.
  - change (join c (s :: s' :: l)) with (s +:+ String c (join c (s' :: l))).
    rewrite split_char_app by done. by rewrite IH.
Qed.

(** ** Reading entries back *)
Lemma plain_weaken seps seps' s : seps' ⊆ seps → plain seps s → plain seps' s.
Proof. intros Hsub Hs. eapply Forall_impl; [exact Hs|]. simpl. intros c [? Hc]. split; [done|]. set_solver. Qed.

Lemma plain_app seps s1 s2 : plain seps s1 → plain seps s2 → plain seps (s1 +:+ s2).
Proof. intros H1 H2. unfold plain. rewrite list_ascii_app. by apply Forall_app. Qed.

Lemma plain_cons seps c s :
  (33 <= nat_of_ascii c <= 126)%nat → c ∉ seps → plain seps s → plain seps (String c s).
Proof. intros. by constructor. Qed.

Lemma plain_join seps c l :
  (33 <= nat_of_ascii c <= 126)%nat → c ∉ seps → Forall (plain seps) l → plain seps (join c l).
Proof.
  intros Hc Hn Hl. induction Hl as [|s l Hs Hl IH]; [constructor|]. destruct l as [|s' l]; [done|].
  change (join c (s :: s' :: l)) with (s +:+ String c (join c (s' :: l))).
  apply plain_app; [done|]. by apply plain_cons.
Qed.

Lemma plain_not_in seps c s : plain seps s → c ∈ seps → c ∉ String.list_ascii_of_string s.
Proof. intros Hs Hc Hin. by destruct (proj1 (Forall_forall _ _) Hs _ Hin) as [_ Hn]. Qed.

Lemma scope_text_plain n : plain [":"; ","; "+"]%char (scope_text n).
Proof. destruct n; repeat constructor; simpl; try lia; set_solver. Qed.

Lemma is_empty_spec s : is_empty s = false ↔ s ≠ EmptyString.
Proof. by destruct s. Qed.

Lemma join_nonempty c l : l ≠ [] → Forall (λ s, s ≠ EmptyString) l → join c l ≠ EmptyString.
Proof.
  intros Hne Hl. destruct Hl as [|s l Hs Hl]; [done|]. destruct l; [done|]. by destruct s.
Qed.

Lemma scope_loop_texts l acc :
  scope_loop (scope_text <$> l) acc = Ok (foldl (λ acc n, scope_union acc (scope_bit n)) acc l).
Proof.
  revert acc. induction l as [|n l IH]; intros acc; [done|]. rewrite fmap_cons. cbn [scope_loop foldl].
  rewrite (trim_plain _ _ (scope_text_plain n)).
  assert (is_empty (scope_text n) = false) as -> by (by destruct n).
  assert (scope_token (scope_text n) = Some (scope_bit n)) as -> by (by destruct n; vm_compute).
  apply IH.
Qed.

Lemma scope_parse_texts k : scope_parse (join "+" (scope_text <$> ks_scopes k)) = Ok (granted k).
Proof.
  unfold scope_parse, granted. destruct (ks_scopes k) as [|n l]; [by vm_compute|].
  assert (Hp : Forall (plain [":"; ","; "+"]%char) (scope_text <$> n :: l)).
  { apply Forall_fmap, Forall_true. apply scope_text_plain. }
  rewrite (trim_plain [":"; ","]%char).
  2: { apply plain_join; [vm_compute; lia|set_solver|]. eapply Forall_impl; [exact Hp|]. intros s.
       apply plain_weaken. set_solver. }
  rewrite (proj2 (is_empty_spec _)).
  2: { apply join_nonempty; [done|]. apply Forall_fmap, Forall_true. by intros []. }
  rewrite split_char_join; [apply scope_loop_texts|done|].
  eapply Forall_impl; [exact Hp|]. intros s Hs. eapply plain_not_in; [done|set_solver].
Qed.

Lemma parse_prefixes_join l :
  Forall (λ p, p ≠ EmptyString ∧ plain ["|"; ","]%char p) l → parse_prefixes (Some (join "|" l)) = l.
Proof.
  intros Hl. unfold parse_prefixes. destruct l as [|p l]; [by vm_compute|].
  rewrite split_char_join; [|done|].
  2: { eapply Forall_impl; [exact Hl|]. intros s [_ Hs]. eapply plain_not_in; [done|set_solver]. }
  assert (Ht : trim <$> p :: l = p :: l).
  { rewrite <-(list_fmap_id (p :: l)) at 2. apply list_fmap_ext. intros i x Hx.
    apply (Forall_lookup_1 _ _ _ _ Hl) in Hx as [_ Hx]. by eapply trim_plain. }
  rewrite Ht. apply list_filter_all. intros x Hx. apply is_empty_spec.
  by destruct (proj1 (Forall_forall _ _) Hl _ Hx) as [Hne _].
Qed.

Lemma render_key_plain k : spec_ok k → plain [","]%char (render_key k).
Proof.
  intros (_ & Hs & Hp). unfold render_key. apply plain_app; [eapply plain_weaken; [|done]; set_solver|].
  apply plain_cons; [vm_compute; lia|set_solver|]. apply plain_app.
  - apply plain_join; [vm_compute; lia|set_solver|]. apply Forall_fmap, Forall_true. intros n.
    eapply plain_weaken; [|apply scope_text_plain]. set_solver.
  - apply plain_cons; [vm_compute; lia|set_solver|]. apply plain_join; [vm_compute; lia|set_solver|].
    eapply Forall_impl; [exact Hp|]. intros p [_ Hp']. eapply plain_weaken; [|done]. set_solver.
Qed.

Section access.
Context `{!Crypto} `{!CryptoLaws}.

Definition key_of (k : KeySpec) : ApiKey := mkKey (digest (ks_secret k)) (granted k) (ks_prefixes k).

Lemma parse_render_key k : spec_ok k → parse_entry (render_key k) = Ok (Some (key_of k)).
Proof.
  intros Hok. pose proof Hok as (Hne & Hs & Hp). unfold parse_entry.
  rewrite (trim_plain _ _ (render_key_plain k Hok)).
  rewrite (proj2 (is_empty_spec _)) by (unfold render_key; by destruct (ks_secret k)).
  unfold render_key, entry_fields. rewrite split_once_app by (eapply plain_not_in; [done|set_solver]).
  rewrite split_once_app.
  2: { eapply (plain_not_in [":"]%char); [|set_solver]. apply plain_join; [vm_compute; lia|set_solver|].
       apply Forall_fmap, Forall_true. intros n. eapply plain_weaken; [|apply scope_text_plain]. set_solver. }
  rewrite (trim_plain _ _ Hs), (proj2 (is_empty_spec _)) by done.
  rewrite scope_parse_texts. cbn [rbind]. by rewrite parse_prefixes_join.
Qed.

Lemma parse_render_keys ks : Forall spec_ok ks → keystore_parse (render_keys ks) = Ok (key_of <$> ks).
Proof.
  intros Hok. unfold keystore_parse, render_keys. destruct ks as [|k ks]; [by vm_compute|].
  rewrite split_char_join; [|done|].
  2: { apply Forall_fmap. eapply Forall_impl; [exact Hok|]. intros x Hx. simpl.
       eapply plain_not_in; [by apply render_key_plain|set_solver]. }
  induction Hok as [|x l Hx Hl IH]; [done|]. rewrite !fmap_cons. cbn [parse_entries].
  rewrite parse_render_key by done. cbn [rbind]. by rewrite IH.
Qed.

(** ** The scan *)
Lemma auth_scan_none keys i presented m hit :
  (∀ k, k ∈ keys → digest_matches k presented = false) →
  auth_scan i keys presented m hit = (m, hit).
Proof.
  revert i. induction keys as [|k keys IH]; intros i Hno; [done|]. cbn [auth_scan].
  rewrite (Hno k) by (by left). rewrite orb_false_r. apply IH. intros k' Hk'. apply Hno. by right.
Qed.

Lemma auth_scan_last l1 k l2 i presented m hit :
  digest_matches k presented = true → (∀ k', k' ∈ l2 → digest_matches k' presented = false) →
  auth_scan i (l1 ++ k :: l2) presented m hit = ((i + length l1)%nat, true).
Proof.
  intros Hk Hno. revert i m hit. induction l1 as [|x l1 IH]; intros i m hit; simpl.
  - rewrite Hk, orb_true_r, auth_scan_none by done. f_equal. lia.
  - rewrite IH. f_equal. lia.
Qed.

Lemma digest_matches_spec k presented : digest_matches k presented = true ↔ ak_hash k = presented.
Proof. apply ct_eq_spec. Qed.

Lemma granted_some k : granted k ≠ SCOPE_NONE.
Proof.
  unfold granted. destruct (ks_scopes k) as [|n l]; [done|]. cbn [foldl].
  assert (Hpos : ∀ l acc, 0 < acc → 0 < foldl (λ acc n, scope_union acc (scope_bit n)) acc l).
  { clear. induction l as [|n l IH]; intros acc Hacc; [done|]. cbn [foldl]. apply IH. unfold scope_union.
    assert (0 < scope_bit n) by (by destruct n). pose proof (Z.lor_nonneg acc (scope_bit n)) as [_ Hnn].
    specialize (Hnn ltac:(lia)). destruct (Z.eq_dec (Z.lor acc (scope_bit n)) 0) as [Hz|]; [|lia].
    apply Z.lor_eq_0_iff in Hz as [-> _]. lia. }
  specialize (Hpos l (scope_union SCOPE_NONE (scope_bit n)) ltac:(by destruct n)). unfold SCOPE_NONE in *. lia.
Qed.

(** ** Theorems *)

(** A key store read from written-out entries grants what the entries say:
    each configured secret authenticates, with exactly the scopes listed in its
    entry (all of them when it lists none) and exactly its prefixes, and a token
    that is no configured secret does not authenticate.  The secrets are distinct
    and the digest has no collision with any of them. *)
Theorem configured_access ks :
  Forall spec_ok ks → NoDup (ks_secret <$> ks) →
  (∀ token k, k ∈ ks → digest token = digest (ks_secret k) → token = ks_secret k) →
  ∃ store, keystore_parse (render_keys ks) = Ok store ∧
    (∀ k, k ∈ ks → authenticate store (ks_secret k) =
       Some (mkPrincipal (Some (digest (ks_secret k))) (granted k) (ks_prefixes k))) ∧
    (∀ token, token ∉ ks_secret <$> ks → authenticate store token = None).
Proof.
  intros Hok Hnd Hcol. exists (key_of <$> ks). split; [by apply parse_render_keys|].
  assert (Hmatch : ∀ token k, k ∈ ks → digest_matches (key_of k) (digest token) = true → token = ks_secret k).
  { intros token k Hk Hm. apply digest_matches_spec in Hm. by apply Hcol. }
  split.
  - intros k Hk. apply list_elem_of_split in Hk as (l1 & l2 & ->). unfold authenticate.
    rewrite fmap_app, fmap_cons, auth_scan_last.
    + rewrite list_lookup_middle by (by rewrite length_fmap). cbn [mbind option_bind].
      unfold effective_scopes. cbn. by rewrite (proj2 (Z.eqb_neq _ _)) by apply granted_some.
    + by apply digest_matches_spec.
    + intros k' (k2 & -> & Hk2)%list_elem_of_fmap. apply not_true_is_false. intros Hm.
      apply Hmatch in Hm; [|set_solver]. rewrite fmap_app, fmap_cons in Hnd.
      apply NoDup_app in Hnd as (_ & _ & Hnd). apply NoDup_cons in Hnd as [Hnd _].
      apply Hnd. rewrite Hm. by apply list_elem_of_fmap_2.
  - intros token Ht. unfold authenticate. rewrite auth_scan_none; [done|].
    intros k' (k & -> & Hk)%list_elem_of_fmap. apply not_true_is_false. intros Hm.
    apply Ht. rewrite (Hmatch _ _ Hk Hm). by apply list_elem_of_fmap_2.
Qed.
End access.

(** ** Concrete stores *)
Module AuthSamples.
(** A digest that keeps the secret readable. *)
#[export] Instance plain_crypto : Crypto := {|
  digest := as_bytes;
  ct_eq := λ a b, bool_decide (a = b) |}.
#[export] Instance plain_crypto_laws : CryptoLaws.
Proof. split. intros a b. apply bool_decide_eq_true. Qed.

Definition sample_keys : list KeySpec :=
  [mkSpec "full" [] []; mkSpec "ro" [ScRead] []; mkSpec "svc" [ScRead; ScWrite] ["tenant42:"; "shared."]]%string.

Lemma configured_access_witness :
  render_keys sample_keys = "full::,ro:read:,svc:read+write:tenant42:|shared."%string ∧
  ∃ store, keystore_parse (render_keys sample_keys) = Ok store ∧
    (∀ k, k ∈ sample_keys → authenticate store (ks_secret k) =
       Some (mkPrincipal (Some (digest (ks_secret k))) (granted k) (ks_prefixes k))) ∧
    (∀ token, token ∉ ks_secret <$> sample_keys → authenticate store token = None).
Proof.
  split; [by vm_compute|]. apply (configured_access sample_keys).
  - apply (bool_decide_unpack _). by vm_compute.
  - apply (bool_decide_unpack _). by vm_compute.
  - intros token k _ Hd. apply (f_equal String.string_of_list_byte) in Hd.
    by rewrite !String.string_of_list_byte_of_string in Hd.
Defined.

(** An entry whose scope field holds only separators grants every scope on
    every topic, where the same field with a prefix grants none. *)
Example separator_scopes_grant_all :
  (∃ k, parse_entry "k:+" = Ok (Some k) ∧ effective_scopes k = SCOPE_ALL) ∧
  (∃ k, parse_entry "k:+:t" = Ok (Some k) ∧ effective_scopes k = SCOPE_NONE).
Proof. split; eexists; split; by vm_compute. Qed.
End AuthSamples.
