(* ===== verification/Limits.v ===== *)
(** * Resource limits

    Models [src/limits.rs]: the configured caps, and the live gauges of SSE
    connections and in-flight requests.  The gauges are shared by the request
    tasks, so a slot is acquired and released in atomic steps ([Step]): the
    compare-and-swap loop on the global gauge, the per-key entry under its shard
    lock, the roll-back, and the two halves of a guard's drop.  [slots_exact] holds
    for every interleaving. *)

From stdpp Require Import base gmap countable list.
From S2P Require Import Prelude Bytes.

(** ** The caps *)
Record Limits := mkLimits {
  lm_max_topics : Z;
  lm_max_routers : Z;
  lm_max_watch_sessions : Z;
  lm_max_sse_connections : Z;
  lm_max_sse_connections_per_key : Z;
  lm_max_inflight_per_key : Z;
  lm_max_total_bytes : Z
}.

(** [Limits::default] *)
Definition default_limits : Limits := mkLimits 100000 10000 10000 10000 1000 1000 0.

(** [Limits::total_bytes_ok], [topic_ok], [router_ok], [watch_session_ok] *)
Definition total_bytes_ok (l : Limits) (current incoming : Z) : bool :=
  (lm_max_total_bytes l =? 0) || (current +s incoming <=? lm_max_total_bytes l).
Definition topic_ok (l : Limits) (current : Z) : bool :=
  (lm_max_topics l =? 0) || (current <? lm_max_topics l).
Definition router_ok (l : Limits) (current : Z) : bool :=
  (lm_max_routers l =? 0) || (current <? lm_max_routers l).
Definition watch_session_ok (l : Limits) (current : Z) : bool :=
  (lm_max_watch_sessions l =? 0) || (current <? lm_max_watch_sessions l).

(** ** The gauges *)
#[export] Instance byte_countable : Countable Byte.byte.
Proof. apply (inj_countable Byte.to_N Byte.of_N). apply Byte.of_to_N. Defined.

(** [KeyId]: the digest of a key. *)
Abbreviation KeyId := bytes (only parsing).

Record LiveCounts := mkCounts {
  lc_sse_total : Z;
  lc_sse_per_key : gmap KeyId Z;
  lc_inflight_per_key : gmap KeyId Z
}.
Definition live_new : LiveCounts := mkCounts 0 ∅ ∅.

(** [LiveCounts::bump_per_key], under the entry's lock *)
Definition bump_per_key (m : gmap KeyId Z) (key : KeyId) (cap : Z) : gmap KeyId Z * bool :=
  let v := default 0 (m !! key) in
  if negb (cap =? 0) && (cap <=? v) then (<[key := v]> m, false)
  else (<[key := v + 1]> m, true).

(** [LiveCounts::drop_per_key] *)
Definition drop_per_key (m : gmap KeyId Z) (key : KeyId) : gmap KeyId Z :=
  match m !! key with
  | Some v => let v := v -s 1 in if v =? 0 then delete key m else <[key := v]> m
  | None => m
  end.

(** The guard of an in-flight request in dev mode carries this key. *)
Definition SENTINEL_KEY : KeyId := replicate 32 Byte.x00.
Arguments SENTINEL_KEY : simpl never.

Definition set_total (c : LiveCounts) (n : Z) : LiveCounts :=
  mkCounts n (lc_sse_per_key c) (lc_inflight_per_key c).
Definition set_sse_per_key (c : LiveCounts) (m : gmap KeyId Z) : LiveCounts :=
  mkCounts (lc_sse_total c) m (lc_inflight_per_key c).
Definition set_inflight (c : LiveCounts) (m : gmap KeyId Z) : LiveCounts :=
  mkCounts (lc_sse_total c) (lc_sse_per_key c) m.

(** ** The tasks *)

(** Where a task is in [try_acquire_sse] and the drop of its [SseGuard], or in
    [try_acquire_inflight] and the drop of its [InflightGuard]. *)
Inductive Task :=
  | SseLoaded (key : option KeyId) (cur : Z)
  | SseReserved (key : option KeyId)
  | SseRollback
  | SseHolding (key : option KeyId)
  | SseDropKey (key : KeyId)
  | InflightHolding (key : KeyId)
  | Finished (admitted : bool).

Definition System : Type := LiveCounts * list Task.

Section steps.
Context (l : Limits).

(** The first access of [try_acquire_sse] to the global gauge. *)
Definition sse_start (c : LiveCounts) (key : option KeyId) : LiveCounts * Task :=
  if negb (lm_max_sse_connections l =? 0) then (c, SseLoaded key (lc_sse_total c))
  else (set_total c (lc_sse_total c + 1), SseReserved key).

(** One iteration of the loop: [compare_exchange_weak] may fail spuriously
    ([weak]). *)
Definition sse_cas (c : LiveCounts) (key : option KeyId) (cur : Z) (weak : bool) : LiveCounts * Task :=
  if lm_max_sse_connections l <=? cur then (c, Finished false)
  else if (lc_sse_total c =? cur) && negb weak
  then (set_total c (cur + 1), SseReserved key)
  else (c, SseLoaded key (lc_sse_total c)).

(** The per-key half. *)
Definition sse_per_key (c : LiveCounts) (key : option KeyId) : LiveCounts * Task :=
  match key with
  | None => (c, SseHolding None)
  | Some k =>
      let '(m, ok) := bump_per_key (lc_sse_per_key c) k (lm_max_sse_connections_per_key l) in
      (set_sse_per_key c m, if ok then SseHolding key else SseRollback)
  end.

(** [fetch_sub] on the global gauge. *)
Definition sse_fetch_sub (c : LiveCounts) : LiveCounts := set_total c (lc_sse_total c - 1).

(** [try_acquire_inflight] *)
Definition try_acquire_inflight (c : LiveCounts) (key : option KeyId) : LiveCounts * Task :=
  match key with
  | Some k =>
      let '(m, ok) := bump_per_key (lc_inflight_per_key c) k (lm_max_inflight_per_key l) in
      (set_inflight c m, if ok then InflightHolding k else Finished false)
  | None => (c, InflightHolding SENTINEL_KEY)
  end.

(** The next atomic step of a task. *)
Definition task_step (c : LiveCounts) (t : Task) (weak : bool) : LiveCounts * Task :=
  match t with
  | SseLoaded key cur => sse_cas c key cur weak
  | SseReserved key => sse_per_key c key
  | SseRollback => (sse_fetch_sub c, Finished false)
  | SseHolding key =>
      (sse_fetch_sub c, match key with Some k => SseDropKey k | None => Finished true end)
  | SseDropKey k => (set_sse_per_key c (drop_per_key (lc_sse_per_key c) k), Finished true)
  | InflightHolding k => (set_inflight c (drop_per_key (lc_inflight_per_key c) k), Finished true)
  | Finished b => (c, Finished b)
  end.

(** A new task starts, or one of the tasks takes its next step.  No digest of a
    key is all zeros. *)
Inductive Step : System → System → Prop :=
  | step_sse c ts key :
      Step (c, ts) ((sse_start c key).1, ts ++ [(sse_start c key).2])
  | step_inflight c ts key :
      key ≠ Some SENTINEL_KEY →
      Step (c, ts) ((try_acquire_inflight c key).1, ts ++ [(try_acquire_inflight c key).2])
  | step_task c ts i t weak :
      ts !! i = Some t →
      Step (c, ts) ((task_step c t weak).1, <[i := (task_step c t weak).2]> ts).
End steps.

(** ** What the gauges count *)

(** The slots a task holds. *)
Definition holds_total (t : Task) : Z :=
  match t with SseReserved _ | SseRollback | SseHolding _ => 1 | _ => 0 end.
Definition holds_sse (k : KeyId) (t : Task) : Z :=
  match t with
  | SseHolding (Some k') | SseDropKey k' => if bool_decide (k' = k) then 1 else 0
  | _ => 0
  end.
Definition holds_inflight (k : KeyId) (t : Task) : Z :=
  match t with
  | InflightHolding k' => if bool_decide (k' = k) && negb (bool_decide (k' = SENTINEL_KEY)) then 1 else 0
  | _ => 0
  end.

(** A gauge map counts [c k] for every key, has no dead entry, and no entry above
    its cap. *)
Definition map_exact (m : gmap KeyId Z) (c : KeyId → Z) (cap : Z) : Prop :=
  ∀ k, default 0 (m !! k) = c k ∧ m !! k ≠ Some 0 ∧ (cap = 0 ∨ c k <= cap).

Record exact (l : Limits) (s : System) : Prop := {
  ex_total : lc_sse_total s.1 = held holds_total s.2;
  ex_cap : lm_max_sse_connections l = 0 ∨ lc_sse_total s.1 <= lm_max_sse_connections l;
  ex_sse : map_exact (lc_sse_per_key s.1) (λ k, held (holds_sse k) s.2) (lm_max_sse_connections_per_key l);
  ex_inflight : map_exact (lc_inflight_per_key s.1) (λ k, held (holds_inflight k) s.2) (lm_max_inflight_per_key l)
}.

(** The caps are [u64]s. *)
Definition limits_ok (l : Limits) : Prop :=
  0 <= lm_max_sse_connections l ∧ 0 <= lm_max_sse_connections_per_key l ∧ 0 <= lm_max_inflight_per_key l.

(** ** Counting *)
Lemma holds_sse_nonneg k t : 0 <= holds_sse k t.
Proof. destruct t as [| | |[]| | |]; simpl; try case_bool_decide; lia. Qed.
Lemma holds_inflight_nonneg k t : 0 <= holds_inflight k t.
Proof. destruct t; simpl; repeat case_bool_decide; simpl; lia. Qed.
Lemma holds_sentinel k : holds_inflight k (InflightHolding SENTINEL_KEY) = 0.
Proof.
  unfold holds_inflight. rewrite (bool_decide_eq_true_2 (SENTINEL_KEY = SENTINEL_KEY)) by done.
  by rewrite andb_false_r.
Qed.
Lemma holds_total_nonneg t : 0 <= holds_total t.
Proof. destruct t; simpl; lia. Qed.

(** ** The per-key gauges *)
Definition one (k0 k : KeyId) : Z := if bool_decide (k0 = k) then 1 else 0.

Lemma map_exact_ext m c c' cap : (∀ k, c k = c' k) → map_exact m c cap → map_exact m c' cap.
Proof. intros Hc Hm k. rewrite <-Hc. apply Hm. Qed.

Lemma bump_exact m c cap k0 :
  map_exact m c cap → 0 <= cap → (∀ k, 0 <= c k) →
  if (bump_per_key m k0 cap).2
  then map_exact (bump_per_key m k0 cap).1 (λ k, c k + one k0 k) cap
  else (bump_per_key m k0 cap).1 = m.
Proof.
  intros Hm Hcap Hc. unfold bump_per_key. destruct (Hm k0) as (Hv & Hnz & Hle). rewrite Hv.
  destruct (negb (cap =? 0) && (cap <=? c k0)) eqn:Hfull; cbn [fst snd].
  - apply andb_prop in Hfull as [Hn Hf]. apply negb_true_iff, Z.eqb_neq in Hn. apply Z.leb_le in Hf.
    apply insert_id. destruct (m !! k0) as [v|]; simpl in Hv; [congruence|lia].
  - assert (cap = 0 ∨ c k0 < cap) as Hroom.
    { destruct (Z.eqb_spec cap 0); [by left|right]. simpl in Hfull. by apply Z.leb_gt. }
    intros k. unfold one. destruct (Hm k) as (Hk & Hkn & Hkc). specialize (Hc k0).
    destruct (decide (k0 = k)) as [<-|Hne].
    + rewrite lookup_insert_eq, bool_decide_eq_true_2 by done. simpl. split_and!; [done| |lia].
      intros [= ?]. lia.
    + rewrite lookup_insert_ne, bool_decide_eq_false_2, Z.add_0_r by done. done.
Qed.

Lemma drop_exact m c cap k0 :
  map_exact m c cap → 1 <= c k0 → map_exact (drop_per_key m k0) (λ k, c k - one k0 k) cap.
Proof.
  intros Hm H1 k. unfold drop_per_key, one. destruct (Hm k0) as (Hv & Hnz & Hcap), (Hm k) as (Hk & Hkn & Hkc).
  destruct (m !! k0) as [v|] eqn:Hl; simpl in Hv; [|lia]. rewrite sat_sub_exact by lia.
  destruct (decide (k0 = k)) as [<-|Hne].
  - rewrite bool_decide_eq_true_2 by done. destruct (Z.eqb_spec (v - 1) 0).
    + rewrite lookup_delete_eq. simpl. split_and!; [lia|done|lia].
    + rewrite lookup_insert_eq. simpl. split_and!; [lia|congruence|lia].
  - rewrite bool_decide_eq_false_2, Z.sub_0_r by done.
    destruct (v - 1 =? 0); [rewrite lookup_delete_ne by done|rewrite lookup_insert_ne by done]; done.
Qed.

Lemma drop_absent m c cap k0 : map_exact m c cap → c k0 = 0 → drop_per_key m k0 = m.
Proof.
  intros Hm H0. unfold drop_per_key. destruct (Hm k0) as (Hv & Hnz & _).
  destruct (m !! k0) as [v|]; [|done]. simpl in Hv. congruence.
Qed.

(** ** Every step keeps the gauges exact *)
Lemma exact_start l c ts key :
  exact l (c, ts) → exact l ((sse_start l c key).1, ts ++ [(sse_start l c key).2]).
Proof.
  intros [Ht Hc Hs Hi]. unfold sse_start. simpl in *.
  destruct (Z.eqb_spec (lm_max_sse_connections l) 0); cbn [negb fst snd]; split; simpl;
    rewrite ?held_snoc; simpl; rewrite ?Z.add_0_r; try done; try lia;
    (eapply map_exact_ext; [|done]; intros k; rewrite held_snoc; simpl; lia).
Qed.

Lemma exact_inflight l c ts key :
  limits_ok l → key ≠ Some SENTINEL_KEY →
  exact l (c, ts) → exact l ((try_acquire_inflight l c key).1, ts ++ [(try_acquire_inflight l c key).2]).
Proof.
  intros (_ & _ & Hcap) Hkey [Ht Hc Hs Hi]. unfold try_acquire_inflight. simpl in *.
  assert (Hsse : ∀ t, (∀ k, holds_sse k t = 0) →
    map_exact (lc_sse_per_key c) (λ k, held (holds_sse k) (ts ++ [t])) (lm_max_sse_connections_per_key l)).
  { intros t H0. eapply map_exact_ext; [|exact Hs]. intros k. rewrite held_snoc, H0. simpl. lia. }
  destruct key as [k0|].
  - pose proof (bump_exact _ _ _ k0 Hi Hcap (λ k, held_nonneg _ ts (holds_inflight_nonneg k))) as Hb.
    destruct (bump_per_key _ _ _) as [m [|]]; simpl in Hb; split; simpl; rewrite ?held_snoc; simpl;
      rewrite ?Z.add_0_r; try done; try by apply Hsse.
    + eapply map_exact_ext; [|exact Hb]. intros k. simpl. rewrite held_snoc. simpl. unfold one.
      rewrite (bool_decide_eq_false_2 (k0 = SENTINEL_KEY)) by congruence. by rewrite andb_true_r.
    + rewrite Hb. eapply map_exact_ext; [|exact Hi]. intros k. simpl. rewrite held_snoc. simpl. lia.
  - split; simpl; rewrite ?held_snoc; simpl; rewrite ?Z.add_0_r; try done; try by apply Hsse.
    eapply map_exact_ext; [|exact Hi]. intros k. simpl. rewrite held_snoc, holds_sentinel. lia.
Qed.

Lemma map_exact_insert m (w : KeyId → Task → Z) cap ts i t t' :
  ts !! i = Some t → (∀ k, w k t' = w k t) →
  map_exact m (λ k, held (w k) ts) cap → map_exact m (λ k, held (w k) (<[i := t']> ts)) cap.
Proof.
  intros Hl Hw. apply map_exact_ext. intros k. rewrite (held_insert _ _ _ t), Hw by done. lia.
Qed.

(** The gauges after a step of task [i] from [t] to [t'] that moves the global
    gauge with the slot the task holds and leaves the per-key gauges alone. *)
Lemma exact_move l c ts i t t' n :
  exact l (c, ts) → ts !! i = Some t →
  n = lc_sse_total c - holds_total t + holds_total t' →
  (lm_max_sse_connections l = 0 ∨ n <= lm_max_sse_connections l) →
  (∀ k, holds_sse k t' = holds_sse k t) → (∀ k, holds_inflight k t' = holds_inflight k t) →
  exact l (set_total c n, <[i := t']> ts).
Proof.
  intros [Ht Hc Hs Hi] Hl Hn Hcap Hks Hki. simpl in *. split; simpl.
  - rewrite (held_insert _ _ _ t) by done. lia.
  - done.
  - by apply (map_exact_insert _ _ _ _ _ t).
  - by apply (map_exact_insert _ _ _ _ _ t).
Qed.

Lemma set_total_same c : set_total c (lc_sse_total c) = c.
Proof. by destruct c. Qed.

(** The per-key half of an acquisition. *)
Lemma exact_per_key l c ts i key :
  limits_ok l → ts !! i = Some (SseReserved key) → exact l (c, ts) →
  exact l ((sse_per_key l c key).1, <[i := (sse_per_key l c key).2]> ts).
Proof.
  intros (_ & Hcap & _) Hl Hex. pose proof Hex as [Ht Hc Hs Hi]. simpl in *.
  unfold sse_per_key. destruct key as [k0|].
  2: { rewrite <-(set_total_same c). eapply exact_move; try done; simpl; lia. }
  pose proof (bump_exact _ _ _ k0 Hs Hcap (λ k, held_nonneg _ ts (holds_sse_nonneg k))) as Hb.
  destruct (bump_per_key _ _ _) as [m [|]]; simpl in Hb.
  - split; simpl; rewrite ?(held_insert _ _ _ (SseReserved (Some k0))) by done; simpl; try lia.
    + eapply map_exact_ext; [|exact Hb]. intros k. simpl.
      rewrite (held_insert _ _ _ (SseReserved (Some k0))) by done. simpl. unfold one. lia.
    + by apply (map_exact_insert _ _ _ _ _ (SseReserved (Some k0))).
  - subst m. assert (set_sse_per_key c (lc_sse_per_key c) = set_total c (lc_sse_total c)) as -> by (by destruct c).
    eapply exact_move; try done; simpl; lia.
Qed.

(** The per-key half of a drop. *)
Lemma exact_drop_sse l c ts i k0 :
  ts !! i = Some (SseDropKey k0) → exact l (c, ts) →
  exact l (set_sse_per_key c (drop_per_key (lc_sse_per_key c) k0), <[i := Finished true]> ts).
Proof.
  intros Hl [Ht Hc Hs Hi]. simpl in *.
  split; simpl; rewrite ?(held_insert _ _ _ (SseDropKey k0)) by done; simpl; try lia.
  - pose proof (held_lookup _ _ _ _ (holds_sse_nonneg k0) Hl) as H1. simpl in H1.
    rewrite bool_decide_eq_true_2 in H1 by done.
    eapply map_exact_ext; [|by apply (drop_exact _ _ _ k0 Hs)]. intros k. simpl.
    rewrite (held_insert _ _ _ (SseDropKey k0)) by done. simpl. unfold one. lia.
  - by apply (map_exact_insert _ _ _ _ _ (SseDropKey k0)).
Qed.

Lemma exact_drop_inflight l c ts i k0 :
  ts !! i = Some (InflightHolding k0) → exact l (c, ts) →
  exact l (set_inflight c (drop_per_key (lc_inflight_per_key c) k0), <[i := Finished true]> ts).
Proof.
  intros Hl [Ht Hc Hs Hi]. simpl in *.
  split; simpl; rewrite ?(held_insert _ _ _ (InflightHolding k0)) by done; simpl; try lia.
  { by apply (map_exact_insert _ _ _ _ _ (InflightHolding k0)). }
  destruct (decide (k0 = SENTINEL_KEY)) as [->|Hk0].
  - rewrite (drop_absent _ _ _ SENTINEL_KEY Hi).
    + apply (map_exact_insert _ _ _ _ _ (InflightHolding SENTINEL_KEY)); [done| |done].
      intros k. by rewrite holds_sentinel.
    + apply held_zero. intros t. destruct t as [| | | | |k'|]; try done. unfold holds_inflight.
      destruct (decide (k' = SENTINEL_KEY)) as [->|]; [by apply holds_sentinel|].
      by rewrite bool_decide_eq_false_2.
  - assert (Hone : ∀ k, holds_inflight k (InflightHolding k0) = one k0 k).
    { intros k. unfold holds_inflight, one. rewrite (bool_decide_eq_false_2 (k0 = SENTINEL_KEY)) by done.
      by rewrite andb_true_r. }
    pose proof (held_lookup _ _ _ _ (holds_inflight_nonneg k0) Hl) as H1. rewrite Hone in H1. unfold one in H1 at 1.
    rewrite bool_decide_eq_true_2 in H1 by done.
    eapply map_exact_ext; [|by apply (drop_exact _ _ _ k0 Hi)]. intros k. simpl.
    rewrite (held_insert _ _ _ (InflightHolding k0)), Hone by done. cbn [holds_inflight]. lia.
Qed.

Lemma exact_task l c ts i t weak :
  limits_ok l → ts !! i = Some t → exact l (c, ts) →
  exact l ((task_step l c t weak).1, <[i := (task_step l c t weak).2]> ts).
Proof.
  intros Hok Hl Hex. pose proof Hex as [Ht Hc Hs Hi]. simpl in *.
  pose proof (held_lookup _ _ _ _ holds_total_nonneg Hl) as Hheld.
  assert (Hstay : ∀ t', holds_total t' = holds_total t → (∀ k, holds_sse k t' = holds_sse k t) →
    (∀ k, holds_inflight k t' = holds_inflight k t) → exact l (c, <[i := t']> ts)).
  { intros t' H1 H2 H3. rewrite <-(set_total_same c) at 1. by eapply exact_move; try done; lia. }
  destruct t as [key cur|key| |key|k0|k0|b]; simpl in *.
  - unfold sse_cas. destruct (Z.leb_spec (lm_max_sse_connections l) cur); [by apply Hstay|].
    destruct (Z.eqb_spec (lc_sse_total c) cur) as [Heq|]; cbn [andb]; [|by apply Hstay].
    destruct weak; [by apply Hstay|]. eapply exact_move; try done; simpl; lia.
  - by apply exact_per_key.
  - eapply exact_move; try done; simpl; lia.
  - destruct key as [k0|]; eapply exact_move; try done; simpl; lia.
  - by apply exact_drop_sse.
  - by apply exact_drop_inflight.
  - by apply Hstay.
Qed.

Lemma exact_reachable l s : limits_ok l → rtc (Step l) (live_new, []) s → exact l s.
Proof.
  intros Hok. apply (rtc_ind_r (λ s, exact l s)).
  - split; simpl; try done; try (destruct Hok; lia); intros k; unfold held; simpl;
      rewrite lookup_empty; (split_and!; [done|done|destruct Hok as (? & ? & ?); lia]).
  - intros s1 s2 _ Hstep Hex. destruct Hstep.
    + by apply exact_start.
    + by apply exact_inflight.
    + by apply exact_task.
Qed.

Lemma held_finished w ts :
  Forall (λ t, ∃ b, t = Finished b) ts → (∀ b, w (Finished b) = 0) → held w ts = 0.
Proof. intros Hfin Hw. induction Hfin as [|t ts' [b ->] _ IH]; [done|]. by rewrite held_cons, Hw. Qed.

(** ** Theorem *)

(** C35. Under every interleaving of acquisitions, refusals, roll-backs and drops,
    the gauges count exactly the slots that are held: the global gauge never
    exceeds its cap, no per-key gauge exceeds its cap or leaves a dead entry, and
    once every task has finished all gauges are back to their initial state, so no
    slot leaks. *)
Theorem slots_exact l c ts :
  limits_ok l → rtc (Step l) (live_new, []) (c, ts) →
  lc_sse_total c = held holds_total ts ∧
  (lm_max_sse_connections l = 0 ∨ lc_sse_total c <= lm_max_sse_connections l) ∧
  (∀ k, default 0 (lc_sse_per_key c !! k) = held (holds_sse k) ts ∧
        (lm_max_sse_connections_per_key l = 0 ∨
         held (holds_sse k) ts <= lm_max_sse_connections_per_key l)) ∧
  (∀ k, default 0 (lc_inflight_per_key c !! k) = held (holds_inflight k) ts ∧
        (lm_max_inflight_per_key l = 0 ∨ held (holds_inflight k) ts <= lm_max_inflight_per_key l)) ∧
  (Forall (λ t, ∃ b, t = Finished b) ts → c = live_new).
Proof.
  intros Hok Hr. destruct (exact_reachable l _ Hok Hr) as [Ht Hc Hs Hi]. simpl in *. split_and!; try done.
  - intros k. split; apply Hs.
  - intros k. split; apply Hi.
  - intros Hfin.
    pose proof (λ w, held_finished w ts Hfin) as H0.
    destruct c as [n ms mi]; simpl in *. unfold live_new. f_equal.
    + by rewrite Ht, H0.
    + apply map_eq. intros k. destruct (Hs k) as (Hk & Hn & _). rewrite H0 in Hk by done.
      rewrite lookup_empty. destruct (ms !! k); [simpl in Hk; congruence|done].
    + apply map_eq. intros k. destruct (Hi k) as (Hk & Hn & _). rewrite H0 in Hk by done.
      rewrite lookup_empty. destruct (mi !! k); [simpl in Hk; congruence|done].
Qed.

(** ** A concrete run *)
Module LimitsSamples.
Definition key_a : KeyId := [Byte.x61].
Definition one_slot : Limits := mkLimits 0 0 0 1 1 1 0.

(** Two streams race for the only slot: the second loads the gauge before the
    first takes the slot, retries, and is refused. *)
Definition raced : System :=
  (mkCounts 1 {[key_a := 1]} ∅, [SseHolding (Some key_a); Finished false]).

Lemma raced_reachable : rtc (Step one_slot) (live_new, []) raced.
Proof.
  eapply rtc_l; [apply (step_sse _ _ _ (Some key_a))|].
  eapply rtc_l; [apply (step_sse _ _ _ (Some key_a))|].
  eapply rtc_l; [by apply (step_task _ _ _ 0 (SseLoaded (Some key_a) 0) false)|].
  eapply rtc_l; [by apply (step_task _ _ _ 1 (SseLoaded (Some key_a) 0) false)|].
  eapply rtc_l; [by apply (step_task _ _ _ 0 (SseReserved (Some key_a)) false)|].
  eapply rtc_l; [by apply (step_task _ _ _ 1 (SseLoaded (Some key_a) 1) false)|].
  by apply rtc_refl.
Qed.

Lemma slots_exact_witness :
  lc_sse_total raced.1 = held holds_total raced.2 ∧
  (lm_max_sse_connections one_slot = 0 ∨ lc_sse_total raced.1 <= lm_max_sse_connections one_slot) ∧
  (∀ k, default 0 (lc_sse_per_key raced.1 !! k) = held (holds_sse k) raced.2 ∧
        (lm_max_sse_connections_per_key one_slot = 0 ∨
         held (holds_sse k) raced.2 <= lm_max_sse_connections_per_key one_slot)) ∧
  (∀ k, default 0 (lc_inflight_per_key raced.1 !! k) = held (holds_inflight k) raced.2 ∧
        (lm_max_inflight_per_key one_slot = 0 ∨
         held (holds_inflight k) raced.2 <= lm_max_inflight_per_key one_slot)) ∧
  (Forall (λ t, ∃ b, t = Finished b) raced.2 → raced.1 = live_new).
Proof.
  apply (slots_exact one_slot raced.1 raced.2); [split_and!; by vm_compute|]. apply raced_reachable.
Defined.
End LimitsSamples.
