(* ===== verification/Http.v ===== *)
(** * The authorization of requests

    Models the route table and the bearer-auth middleware of [src/http/mod.rs], and
    the authorization that the handlers of [src/http/topics.rs], [routers.rs],
    [watch.rs] and [ws.rs] do on the names in their bodies.

    The dispatch of a path to a route and the decoding of its segments are the
    framework's ([axum]): [Axum] is the part of it the server relies on.  The
    middleware parses the path a second time, by hand ([route_requirement]);
    [authorization_exact] shows that the two readings agree on every route. *)

From Stdlib Require Import Ascii.
From stdpp Require Import base gmap list strings.
From S2P Require Import Prelude Bytes Types Names Auth Limits.

(** ** Requests and routes *)
Inductive Method := GET | POST | PUT | DELETE | HEAD | OtherMethod (m : string).
#[export] Instance Method_eq_dec : EqDecision Method.
Proof. solve_decision. Defined.

Inductive Handler :=
  | HListTopics | HPutTopic | HGetTopic | HDeleteTopic | HWrite | HDiff | HDelete
  | HClaim | HAck | HNack | HExtend | HWork
  | HListRouters | HPutRouter | HGetRouter | HDeleteRouter
  | HCreateWatch | HStreamWatch | HWebsocket | HHealth | HReady | HMetrics.

(** A segment of a route: a literal, or a parameter in braces. *)
Inductive Seg := Lit (s : string) | Param.
#[export] Instance Seg_eq_dec : EqDecision Seg.
Proof. solve_decision. Defined.

Definition Route : Type := Method * list Seg * Handler.

(** The table of [build_router_with_shutdown]. *)
Definition routes : list Route :=
  let v0 := Lit "v0" in
  let topic l := v0 :: Lit "topics" :: Param :: l in
  [(GET, [v0; Lit "topics"], HListTopics);
   (PUT, topic [], HPutTopic); (GET, topic [], HGetTopic); (DELETE, topic [], HDeleteTopic);
   (POST, topic [], HWrite);
   (POST, topic [Lit "diff"], HDiff); (POST, topic [Lit "delete"], HDelete);
   (POST, topic [Lit "claim"], HClaim); (POST, topic [Lit "ack"], HAck);
   (POST, topic [Lit "nack"], HNack); (POST, topic [Lit "extend"], HExtend);
   (GET, topic [Lit "work"], HWork);
   (GET, [v0; Lit "routers"], HListRouters);
   (PUT, [v0; Lit "routers"; Param], HPutRouter); (GET, [v0; Lit "routers"; Param], HGetRouter);
   (DELETE, [v0; Lit "routers"; Param], HDeleteRouter);
   (POST, [v0; Lit "watch"], HCreateWatch); (GET, [v0; Lit "watch"; Param], HStreamWatch);
   (GET, [v0; Lit "ws"], HWebsocket);
   (GET, [v0; Lit "health"], HHealth); (GET, [v0; Lit "ready"], HReady);
   (GET, [v0; Lit "metrics"], HMetrics);
   (GET, [Lit "healthz"], HHealth); (GET, [Lit "readyz"], HReady)]%string.

(** The path of a route with its parameters filled in. *)
Fixpoint fill (segs : list Seg) (args : list string) : string :=
  match segs, args with
  | [], _ => EmptyString
  | Lit s :: segs, _ => String "/" (s +:+ fill segs args)
  | Param :: segs, a :: args => String "/" (a +:+ fill segs args)
  | Param :: segs, [] => String "/" (fill segs [])
  end.

Definition slash_free (s : string) : Prop := "/"%char ∉ String.list_ascii_of_string s.
Definition percent_free (s : string) : Prop := "%"%char ∉ String.list_ascii_of_string s.

(** The framework: the route that serves a request with its raw parameters, and
    the percent-decoding of a parameter. *)
Class Axum := {
  axum_match : list Route → Method → string → option (Handler * list string);
  percent_decode : string → option string
}.
Class AxumLaws `{!Axum} : Prop := {
  (** A request is served by a route of the table with its method, or by a GET
      route when its method is HEAD, whose path it has, with one nonempty segment
      for each parameter. *)
  axum_match_sound table m path h raws :
    axum_match table m path = Some (h, raws) →
    ∃ m' segs, (m', segs, h) ∈ table ∧ (m' = m ∨ (m' = GET ∧ m = HEAD)) ∧
      path = fill segs raws ∧ length raws = length (filter (λ s, s = Param) segs) ∧
      Forall (λ a, a ≠ EmptyString ∧ slash_free a) raws;
  (** Only escapes are decoded. *)
  percent_decode_prefix p s :
    percent_free p → percent_decode (p +:+ s) = (λ t, p +:+ t) <$> percent_decode s
}.

(** ** What a route needs *)
Definition is_segment_end (s : string) : bool := bool_decide (s = EmptyString ∨ s = "/"%string).

(** The scope of [/topics/:topic] with an action. *)
Definition topic_scope (m : Method) (action : option string) : Z :=
  match m, action with
  | PUT, None => SCOPE_ADMIN
  | GET, None => SCOPE_READ
  | DELETE, None => SCOPE_DELETE
  | POST, None => SCOPE_WRITE
  | POST, Some a =>
      if bool_decide (a = "diff"%string) then SCOPE_READ
      else if bool_decide (a = "delete"%string) then SCOPE_DELETE
      else if bool_decide (a = "claim"%string) then scope_union SCOPE_READ SCOPE_WRITE
      else SCOPE_WRITE
  | GET, Some a =>
      if bool_decide (a = "work"%string) then scope_union SCOPE_READ SCOPE_WRITE else SCOPE_WRITE
  | _, _ => SCOPE_WRITE
  end.

Definition router_scope (m : Method) : Z :=
  match m with PUT => SCOPE_ADMIN | GET => SCOPE_READ | DELETE => SCOPE_DELETE | _ => SCOPE_ADMIN end.

(** [route_requirement] *)
Definition route_requirement (m : Method) (path : string) : option (Z * option string) :=
  rest ← strip_prefix "/v0" path;
  match strip_prefix "/topics" rest with
  | Some seg =>
      if is_segment_end seg then Some (SCOPE_READ, None)
      else
        seg ← strip_prefix "/" seg;
        let '(topic_name, action) :=
          match split_once "/" seg with Some (b, a) => (b, Some a) | None => (seg, None) end in
        Some (topic_scope m action, Some topic_name)
  | None =>
      match strip_prefix "/routers" rest with
      | Some seg =>
          if is_segment_end seg then Some (SCOPE_READ, None)
          else router ← strip_prefix "/" seg; Some (router_scope m, Some router)
      | None =>
          if bool_decide (rest = "/watch"%string) then Some (SCOPE_READ, None)
          else if bool_decide (rest = "/ws"%string ∧ m = GET) then None
          else if bool_decide (rest = "/metrics"%string) then Some (SCOPE_READ, None)
          else None
      end
  end.

(** [is_watch_stream_path], [is_sse_stream_path], [is_probe_path] *)
Definition has_slash (s : string) : bool :=
  match split_once "/" s with Some _ => true | None => false end.
Definition is_watch_stream_path (path : string) : bool :=
  match strip_prefix "/v0/watch/" path with
  | Some rest => negb (is_empty rest) && negb (has_slash rest)
  | None => false
  end.
Definition is_sse_stream_path (path : string) : bool :=
  is_watch_stream_path path ||
  match strip_prefix "/v0/topics/" path ≫= split_once "/" with
  | Some (_, a) => bool_decide (a = "work"%string)
  | None => false
  end.
Definition is_probe_path (path : string) : bool :=
  bool_decide (path ∈ ["/healthz"; "/readyz"; "/v0/health"; "/v0/ready"]%string).

(** ** The middleware *)
Record HttpConfig := mkHttpConfig {
  hc_auth_enabled : bool;
  hc_probe_auth : bool;
  hc_limits : Limits
}.

(** The [Authorization] header as text, and the first [token] of the query. *)
Record Request := mkRequest {
  rq_method : Method;
  rq_path : string;
  rq_authorization : option string;
  rq_query_token : option string
}.

Inductive Outcome := Refused (c : ErrorCode) | Next (p : option Principal).

(** [extract_bearer] *)
Definition extract_bearer (rq : Request) : option string :=
  v ← rq_authorization rq; t ← strip_prefix "Bearer " v; Some (trim t).

(** The token a request presents. *)
Definition presented (rq : Request) : option string :=
  match extract_bearer rq with
  | Some t => Some t
  | None =>
      if bool_decide (rq_method rq = GET) && is_sse_stream_path (rq_path rq)
      then rq_query_token rq else None
  end.

(** The scope and prefix checks on the path. *)
Definition path_allowed (p : Principal) (m : Method) (path : string) : bool :=
  match route_requirement m path with
  | Some (needed, name) =>
      allows_scope p needed && match name with Some n => allows_name p n | None => true end
  | None => true
  end.

Section middleware.
Context `{!Crypto} (cfg : HttpConfig) (keys : list ApiKey).

(** [auth_middleware], with the in-flight slot it holds while the handler runs. *)
Definition auth_middleware (c : LiveCounts) (rq : Request) : LiveCounts * option KeyId * Outcome :=
  if negb (hc_auth_enabled cfg) then (c, None, Next (Some full_access_principal))
  else if is_probe_path (rq_path rq) && negb (hc_probe_auth cfg) then (c, None, Next None)
  else if bool_decide (rq_method rq = GET) && is_watch_stream_path (rq_path rq)
  then (c, None, Next None)
  else
    match presented rq ≫= authenticate keys with
    | None => (c, None, Refused Unauthorized)
    | Some p =>
        match try_acquire_inflight (hc_limits cfg) c (p_key_id p) with
        | (c, InflightHolding g) =>
            let release c := set_inflight c (drop_per_key (lc_inflight_per_key c) g) in
            let streaming := bool_decide (rq_method rq = GET) && is_sse_stream_path (rq_path rq) in
            let c := if streaming then release c else c in
            if path_allowed p (rq_method rq) (rq_path rq)
            then (c, if streaming then None else Some g, Next (Some p))
            else (if streaming then c else release c, None, Refused Forbidden)
        | (c, _) => (c, None, Refused Throttled)
        end
    end.
End middleware.

(** ** What the handlers check themselves *)

(** [create_watch], [ws] subscribe: every topic of the body. *)
Definition names_allowed (p : option Principal) (names : list string) : result ErrorCode unit :=
  match p with
  | Some p => if forallb (allows_name p) names then Ok tt else Err Forbidden
  | None => Ok tt
  end.

(** [put_router]: both ends of the router. *)
Definition put_router_auth (p : option Principal) (source dest : string) : result ErrorCode unit :=
  names_allowed p [source; dest].

(** [authorize_router_endpoints] *)
Definition authorize_router_endpoints (p : option Principal) (router : string)
    (endpoints : option (string * string)) : result ErrorCode unit :=
  match p with
  | None => Ok tt
  | Some p =>
      if bool_decide (p_prefixes p = []) then Ok tt
      else match endpoints with
           | None => Ok tt
           | Some (source, dest) => names_allowed (Some p) [router; source; dest]
           end
  end.

(** [write]: a body config on a missing topic needs the admin scope. *)
Definition write_auth (p : option Principal) (has_config topic_exists : bool) : result ErrorCode unit :=
  if has_config && negb topic_exists then
    if match p with Some p => allows_scope p SCOPE_ADMIN | None => true end then Ok tt else Err Forbidden
  else Ok tt.

(** The commands of a WebSocket. *)
Definition ws_subscribe_auth (p : Principal) (topics : list string) : result ErrorCode unit :=
  if negb (allows_scope p SCOPE_READ) then Err Forbidden
  else match topics with
       | [] => Err InvalidRequest
       | _ => names_allowed (Some p) topics
       end.
Definition ws_publish_auth (p : Principal) (has_config : bool) (topic : string) : result ErrorCode unit :=
  if negb (allows_scope p SCOPE_WRITE) then Err Forbidden
  else if has_config && negb (allows_scope p SCOPE_ADMIN) then Err Forbidden
  else names_allowed (Some p) [topic].

(** [Session::authorize] *)
Definition session_authorize `{!Crypto} (keys : list ApiKey) (bound : option KeyId)
    (bearer : option string) : bool :=
  match bound, bearer with
  | None, _ => true
  | Some id, Some b =>
      match authenticate keys b with
      | Some p => bool_decide (p_key_id p = Some id)
      | None => false
      end
  | Some _, None => false
  end.

(** ** The two readings of a path *)

(** The scope the documentation gives a handler. *)
Definition handler_scope (h : Handler) : Z :=
  match h with
  | HListTopics | HGetTopic | HDiff | HListRouters | HGetRouter | HCreateWatch | HMetrics => SCOPE_READ
  | HWrite | HAck | HNack | HExtend => SCOPE_WRITE
  | HClaim | HWork => scope_union SCOPE_READ SCOPE_WRITE
  | HDelete | HDeleteTopic | HDeleteRouter => SCOPE_DELETE
  | HPutTopic | HPutRouter => SCOPE_ADMIN
  | HWebsocket | HStreamWatch | HHealth | HReady => SCOPE_NONE
  end.

(** The scope the path gives a request: a HEAD request, which the framework serves with
    the handler of the GET route, falls into the default arms. *)
Definition required_scope (m : Method) (h : Handler) : Z :=
  match m, h with
  | HEAD, (HGetTopic | HWork) => SCOPE_WRITE
  | HEAD, HGetRouter => SCOPE_ADMIN
  | _, _ => handler_scope h
  end.

(** The probes and the watch stream do not go through the bearer check. *)
Definition gated (h : Handler) : bool :=
  match h with HStreamWatch | HHealth | HReady => false | _ => true end.

Lemma split_once_free c s : c ∉ String.list_ascii_of_string s → split_once c s = None.
Proof.
  induction s as [|x s IH]; intros Hc; simpl in *; [done|].
  destruct (Ascii.eqb_spec x c) as [->|]; [set_solver|]. by rewrite IH by set_solver.
Qed.

Lemma segment_end_param a r : a ≠ EmptyString → slash_free a → is_segment_end (String "/" (a +:+ r)) = false.
Proof.
  intros Hne Hs. unfold is_segment_end. apply bool_decide_eq_false_2. intros [?|Heq]; [done|].
  by destruct a.
Qed.

Lemma require_topic m a :
  a ≠ EmptyString → slash_free a →
  route_requirement m ("/v0/topics/" +:+ a) = Some (topic_scope m None, Some a).
Proof.
  intros Hne Hs. change ("/v0/topics/" +:+ a) with ("/v0" +:+ ("/topics" +:+ String "/" a)).
  unfold route_requirement. rewrite strip_prefix_app. cbn [mbind option_bind]. rewrite strip_prefix_app.
  rewrite <-(string_app_nil_r a) at 1. rewrite segment_end_param by done.
  change (String "/" a) with ("/" +:+ a). rewrite strip_prefix_app. cbn [mbind option_bind].
  by rewrite split_once_free.
Qed.

Lemma require_action m a act :
  a ≠ EmptyString → slash_free a →
  route_requirement m ("/v0/topics/" +:+ (a +:+ String "/" act)) = Some (topic_scope m (Some act), Some a).
Proof.
  intros Hne Hs. change ("/v0/topics/" +:+ (a +:+ String "/" act)) with
    ("/v0" +:+ ("/topics" +:+ String "/" (a +:+ String "/" act))).
  unfold route_requirement. rewrite strip_prefix_app. cbn [mbind option_bind]. rewrite strip_prefix_app.
  rewrite segment_end_param by done.
  change (String "/" (a +:+ String "/" act)) with ("/" +:+ (a +:+ String "/" act)).
  rewrite strip_prefix_app. cbn [mbind option_bind]. by rewrite split_once_app.
Qed.

Lemma require_router m a :
  a ≠ EmptyString → slash_free a →
  route_requirement m ("/v0/routers/" +:+ a) = Some (router_scope m, Some a).
Proof.
  intros Hne Hs. change ("/v0/routers/" +:+ a) with ("/v0" +:+ ("/routers" +:+ String "/" a)).
  unfold route_requirement. rewrite strip_prefix_app. cbn [mbind option_bind].
  change (strip_prefix "/topics" ("/routers" +:+ String "/" a)) with (@None string). cbn iota.
  rewrite strip_prefix_app. rewrite <-(string_app_nil_r a) at 1. rewrite segment_end_param by done.
  change (String "/" a) with ("/" +:+ a). by rewrite strip_prefix_app.
Qed.

(** What the middleware reads off a path of a gated route. *)
Definition reading (m : Method) (path : string) (h : Handler) (name : option string) : Prop :=
  route_requirement m path =
    match h with HWebsocket => None | _ => Some (required_scope m h, name) end ∧
  is_probe_path path = false ∧
  (bool_decide (m = GET) && is_watch_stream_path path) = false ∧
  (h = HWebsocket → name = None).

Lemma starts_with_app pre s : starts_with pre (pre +:+ s) = true.
Proof. unfold starts_with. induction pre as [|a pre IH]; [by destruct s|]. simpl. by destruct (ascii_dec a a). Qed.

Lemma starts_with_split pre s : starts_with pre s = true → ∃ r, s = pre +:+ r.
Proof.
  revert s. induction pre as [|a pre IH]; intros s Hs; [by exists s|].
  apply starts_with_cons in Hs as (s' & -> & Hs'). destruct (IH _ Hs') as [r ->]. by exists r.
Qed.

Lemma not_probe pre s :
  Forall (λ q, String.prefix pre q = false) ["/healthz"; "/readyz"; "/v0/health"; "/v0/ready"]%string →
  is_probe_path (pre +:+ s) = false.
Proof.
  intros Hpre. apply bool_decide_eq_false_2. intros Hin.
  pose proof (starts_with_app pre s) as Hp. unfold starts_with in Hp.
  rewrite (proj1 (Forall_forall _ _) Hpre _ Hin) in Hp. done.
Qed.

Lemma reading_topic m a h :
  a ≠ EmptyString → slash_free a → h ≠ HWebsocket → topic_scope m None = required_scope m h →
  reading m ("/v0/topics/" +:+ a) h (Some a).
Proof.
  intros Hne Hs Hh Hsc. split_and!.
  - rewrite require_topic, Hsc by done. by destruct h.
  - apply not_probe. by repeat constructor.
  - apply andb_false_r.
  - done.
Qed.

Lemma reading_action m a act h :
  a ≠ EmptyString → slash_free a → h ≠ HWebsocket → topic_scope m (Some act) = required_scope m h →
  reading m ("/v0/topics/" +:+ (a +:+ String "/" act)) h (Some a).
Proof.
  intros Hne Hs Hh Hsc. split_and!.
  - rewrite require_action, Hsc by done. by destruct h.
  - apply not_probe. by repeat constructor.
  - apply andb_false_r.
  - done.
Qed.

Lemma reading_router m a h :
  a ≠ EmptyString → slash_free a → h ≠ HWebsocket → router_scope m = required_scope m h →
  reading m ("/v0/routers/" +:+ a) h (Some a).
Proof.
  intros Hne Hs Hh Hsc. split_and!.
  - rewrite require_router, Hsc by done. by destruct h.
  - apply not_probe. by repeat constructor.
  - apply andb_false_r.
  - done.
Qed.

(** The hand-written reading of a path agrees with the route that serves it. *)
Lemma route_reading m m' segs h raws :
  (m', segs, h) ∈ routes → m' = m ∨ m' = GET ∧ m = HEAD → gated h = true →
  length raws = length (filter (λ s, s = Param) segs) →
  Forall (λ a, a ≠ EmptyString ∧ slash_free a) raws →
  reading m (fill segs raws) h (head raws).
Proof.
  intros Hin Hm Hg Hlen Hraws. unfold routes in Hin.
  repeat (apply elem_of_cons in Hin as [Hin|Hin];
    [injection Hin as -> -> ->; try discriminate Hg; (destruct Hm as [<-|[? ->]]; [|try discriminate]);
     (destruct raws as [|a [|? ?]]; try discriminate Hlen);
     try (apply Forall_cons in Hraws as [[Hne Hs] _]; cbn [fill head]; 
          rewrite ?string_app_nil_r) |]).
  all: try by apply not_elem_of_nil in Hin.
  all: try (split_and!; by vm_compute).
  all: try by apply reading_topic.
  all: try by apply reading_action.
  all: try by apply reading_router.
Qed.

Lemma route_params m segs h :
  (m, segs, h) ∈ routes → (length (filter (λ s, s = Param) segs) <= 1)%nat.
Proof.
  intros Hin. assert (Hall : Forall (λ r : Route, (length (filter (λ s, s = Param) r.1.2) <= 1)%nat) routes).
  { repeat constructor. }
  by apply (proj1 (Forall_forall _ _) Hall) in Hin.
Qed.

(** ** The checks of the middleware *)
Lemma path_allowed_reading p m path h name :
  reading m path h name →
  path_allowed p m path =
    allows_scope p (required_scope m h) && match name with Some n => allows_name p n | None => true end.
Proof.
  intros (Hreq & _ & _ & Hws). unfold path_allowed. rewrite Hreq. destruct h; try done.
  rewrite Hws by done. unfold allows_scope, scope_contains. by destruct m; simpl; rewrite Z.land_0_r.
Qed.

Lemma decoded_allowed `{!Axum} `{!AxumLaws} p raw n :
  Forall percent_free (p_prefixes p) → percent_decode raw = Some n →
  allows_name p raw = true → allows_name p n = true.
Proof.
  intros Hfree Hdec. unfold allows_name. case_bool_decide; [done|]. simpl. rewrite !existsb_exists.
  intros (pre & Hin & Hs). exists pre. split; [done|]. apply starts_with_split in Hs as [r ->].
  rewrite percent_decode_prefix in Hdec.
  - destruct (percent_decode r) as [t|]; [|done]. injection Hdec as <-. apply starts_with_app.
  - apply (proj1 (Forall_forall _ _) Hfree). by apply list_elem_of_In.
Qed.

Section authorization.
Context `{!Crypto} `{!Axum} `{!AxumLaws} (cfg : HttpConfig) (keys : list ApiKey).

(** The outcome of a request that a gated route serves. *)
Lemma gated_outcome c rq h name :
  hc_auth_enabled cfg = true → reading (rq_method rq) (rq_path rq) h name →
  (auth_middleware cfg keys c rq).2 =
    match presented rq ≫= authenticate keys with
    | None => Refused Unauthorized
    | Some p =>
        match (try_acquire_inflight (hc_limits cfg) c (p_key_id p)).2 with
        | InflightHolding _ =>
            if allows_scope p (required_scope (rq_method rq) h) && match name with Some n => allows_name p n | None => true end
            then Next (Some p) else Refused Forbidden
        | _ => Refused Throttled
        end
    end.
Proof.
  intros Hen Hr. pose proof Hr as (_ & Hprobe & Hwatch & _). unfold auth_middleware.
  rewrite Hen, Hprobe, Hwatch. cbn [negb andb].
  destruct (presented rq ≫= authenticate keys) as [p|]; [|done].
  destruct (try_acquire_inflight _ _ _) as [c1 [| | | | |g|]]; try done.
  rewrite (path_allowed_reading p _ _ _ _ Hr).
  destruct (allows_scope p (required_scope (rq_method rq) h) && _); [done|]. by destruct (_ && _).
Qed.

(** C13. Authorization is exact on every route: with auth enabled, a request that
    the framework hands to a handler other than the probes and the watch stream
    passes the middleware just when it presents a configured token, the key has
    an in-flight slot left, and the principal is allowed the name in the path and holds
    the scope [required_scope]: the one documented for the handler, except that a HEAD
    request, which the framework serves with the handler of the GET route, needs the
    write scope for a topic or its job stream and the admin scope for a router.  The name
    the handler then gets, after percent-decoding, is also one the principal is allowed,
    for a key whose prefixes have no percent sign. *)
Theorem authorization_exact c rq h raws :
  hc_auth_enabled cfg = true → gated h = true →
  axum_match routes (rq_method rq) (rq_path rq) = Some (h, raws) →
  (∀ q, (auth_middleware cfg keys c rq).2 = Next q ↔
     ∃ p, q = Some p ∧ presented rq ≫= authenticate keys = Some p ∧
       (∃ g, (try_acquire_inflight (hc_limits cfg) c (p_key_id p)).2 = InflightHolding g) ∧
       allows_scope p (required_scope (rq_method rq) h) = true ∧ Forall (λ n, allows_name p n = true) raws) ∧
  (∀ p name raw, (auth_middleware cfg keys c rq).2 = Next (Some p) → Forall percent_free (p_prefixes p) →
     raw ∈ raws → percent_decode raw = Some name → allows_name p name = true).
Proof.
  intros Hen Hg Hmatch.
  destruct (axum_match_sound _ _ _ _ _ Hmatch) as (m & segs & Hin & Hm & Hpath & Hlen & Hraws).
  pose proof (route_reading _ _ _ _ _ Hin Hm Hg Hlen Hraws) as Hr. rewrite <-Hpath in Hr.
  assert (Hone : ∀ p, match head raws with Some n => allows_name p n | None => true end = true ↔
    Forall (λ n, allows_name p n = true) raws).
  { intros p. pose proof (route_params _ _ _ Hin). destruct raws as [|a [|? ?]]; simpl in *; [| |lia].
    - by split.
    - by rewrite Forall_singleton. }
  rewrite (gated_outcome c rq h (head raws)) by done. set (out := match _ with Some _ => _ | None => _ end).
  assert (Hiff : ∀ q, out = Next q ↔ ∃ p, q = Some p ∧ presented rq ≫= authenticate keys = Some p ∧
    (∃ g, (try_acquire_inflight (hc_limits cfg) c (p_key_id p)).2 = InflightHolding g) ∧
    allows_scope p (required_scope (rq_method rq) h) = true ∧ Forall (λ n, allows_name p n = true) raws).
  { intros q. unfold out. clear out. split.
    - destruct (presented rq ≫= authenticate keys) as [p|]; [|done].
      destruct (try_acquire_inflight _ _ _).2 as [| | | | |g|] eqn:Hg2; try done.
      destruct (_ && _) eqn:Hok; [|done]. intros [= <-]. apply andb_prop in Hok as [? ?%Hone]. eauto 10.
    - intros (p & -> & -> & [g ->] & -> & Hall%Hone). by rewrite Hall. }
  split; [exact Hiff|].
  intros p name raw Hnext Hfree Hraw Hdec. apply Hiff in Hnext as (p' & [= <-] & _ & _ & _ & Hall).
  eapply decoded_allowed; [done..|]. by apply (proj1 (Forall_forall _ _) Hall).
Qed.
End authorization.

(** ** A concrete framework *)
Module HttpSamples.
Import AuthSamples.

(** Percent-decoding. *)
Definition hex_digit (c : ascii) : option nat :=
  let n := nat_of_ascii c in
  if (48 <=? n)%nat && (n <=? 57)%nat then Some (n - 48)%nat
  else if (65 <=? n)%nat && (n <=? 70)%nat then Some (n - 55)%nat
  else if (97 <=? n)%nat && (n <=? 102)%nat then Some (n - 87)%nat
  else None.
Fixpoint decode (s : string) : option string :=
  match s with
  | EmptyString => Some EmptyString
  | String c r =>
      if Ascii.eqb c "%" then
        match r with
        | String a (String b r) =>
            match hex_digit a, hex_digit b with
            | Some x, Some y => String (ascii_of_nat (16 * x + y)) <$> decode r
            | _, _ => None
            end
        | _ => None
        end
      else String c <$> decode r
  end.

(** Matching the segments of a path against a route. *)
Fixpoint match_segs (segs : list Seg) (parts : list string) : option (list string) :=
  match segs, parts with
  | [], [] => Some []
  | Lit s :: segs, p :: parts => if bool_decide (s = p) then match_segs segs parts else None
  | Param :: segs, p :: parts =>
      if is_empty p then None else (λ l, p :: l) <$> match_segs segs parts
  | _, _ => None
  end.
Definition match_route (m : Method) (path : string) (r : Route) : option (Handler * list string) :=
  if bool_decide (r.1.1 = m ∨ (r.1.1 = GET ∧ m = HEAD)) then
    match split_char "/" path with
    | EmptyString :: parts => (λ l, (r.2, l)) <$> match_segs r.1.2 parts
    | _ => None
    end
  else None.

#[export] Instance segment_axum : Axum := {|
  axum_match := λ table m path, head (omap (match_route m path) table);
  percent_decode := decode |}.

Lemma split_char_parts c s :
  split_char c s ≠ [] ∧ join c (split_char c s) = s ∧
  Forall (λ p, c ∉ String.list_ascii_of_string p) (split_char c s).
Proof.
  induction s as [|x s (Hne & IHj & IHf)]; simpl.
  { split_and!; [done|done|]. constructor; [apply not_elem_of_nil|constructor]. }
  destruct (Ascii.eqb_spec x c) as [->|Hx].
  - split_and!; [done| |constructor; [apply not_elem_of_nil|done]].
    destruct (split_char c s) as [|h t]; [done|].
    change (join c (EmptyString :: h :: t)) with (String c (join c (h :: t))). by rewrite IHj.
  - destruct (split_char c s) as [|h t]; [done|]. apply Forall_cons in IHf as [Hh Ht].
    split_and!; [done| |constructor; [|done]].
    + rewrite <-IHj. by destruct t.
    + simpl. apply not_elem_of_cons. by split.
Qed.

Lemma match_segs_fill segs parts raws :
  match_segs segs parts = Some raws → Forall slash_free parts →
  join "/" (EmptyString :: parts) = fill segs raws ∧
  length raws = length (filter (λ s, s = Param) segs) ∧
  Forall (λ a, a ≠ EmptyString ∧ slash_free a) raws.
Proof.
  assert (Hcons : ∀ p parts, join "/" (EmptyString :: p :: parts) =
    String "/" (p +:+ join "/" (EmptyString :: parts))).
  { intros p [|q parts']; simpl; [by rewrite string_app_nil_r|done]. }
  revert parts raws. induction segs as [|[t|] segs IH]; intros [|p parts] raws Hm Hf;
    cbn [match_segs] in Hm; try discriminate Hm.
  - injection Hm as <-. done.
  - case_bool_decide as Ht; [subst p|done]. apply Forall_cons in Hf as [_ Hf].
    destruct (IH _ _ Hm Hf) as (Hj & Hl & Hall). rewrite Hcons, Hj. split_and!; [done| |done].
    by rewrite filter_cons_False.
  - destruct (is_empty p) eqn:He; [done|]. destruct (match_segs segs parts) as [l|] eqn:Hms; [|done].
    injection Hm as <-. apply Forall_cons in Hf as [Hp Hf]. destruct (IH _ _ Hms Hf) as (Hj & Hl & Hall).
    rewrite Hcons, Hj. split_and!; [done| |].
    + rewrite filter_cons_True by done. simpl. by rewrite Hl.
    + constructor; [|done]. split; [by apply is_empty_spec|done].
Qed.

#[export] Instance segment_axum_laws : AxumLaws.
Proof.
  split.
  - intros table m path h raws Hm. simpl in Hm.
    assert (Hin : (h, raws) ∈ omap (match_route m path) table).
    { destruct (omap _ table); [done|]. injection Hm as ->. by left. }
    apply list_elem_of_omap in Hin as ([[m' segs] h'] & Hin & Hr). unfold match_route in Hr. simpl in Hr.
    case_bool_decide as Hmm; [|done]. destruct (split_char_parts "/" path) as (_ & Hj & Hf).
    destruct (split_char "/" path) as [|[|? ?] parts]; [done| |done].
    destruct (match_segs segs parts) as [l|] eqn:Hms; [|done]. injection Hr as -> ->.
    apply Forall_cons in Hf as [_ Hf]. destruct (match_segs_fill _ _ _ Hms Hf) as (Hfill & Hlen & Hall).
    exists m', segs. split_and!; [done|done|by rewrite <-Hj|done|done].
  - intros p s. induction p as [|a p IH]; intros Hfree; simpl.
    { change (EmptyString +:+ s) with s. by destruct (decode s). }
    unfold percent_free in Hfree. simpl in Hfree. apply not_elem_of_cons in Hfree as [Ha Hfree].
    destruct (Ascii.eqb_spec a "%"); [congruence|]. simpl in IH. rewrite IH by done. by destruct (decode s).
Qed.

Definition sample_store : list ApiKey := key_of <$> sample_keys.
Definition sample_config : HttpConfig := mkHttpConfig true false default_limits.
Definition write_jobs (name : string) : Request :=
  mkRequest POST ("/v0/topics/" +:+ name) (Some "Bearer svc"%string) None.

Lemma authorization_exact_witness :
  (auth_middleware sample_config sample_store live_new (write_jobs "tenant42:jobs")).2 =
    Next (Some (mkPrincipal (Some (as_bytes "svc")) 3 ["tenant42:"; "shared."]%string)) ∧
  ∀ q, (auth_middleware sample_config sample_store live_new (write_jobs "tenant42:jobs")).2 = Next q ↔
     ∃ p, q = Some p ∧ presented (write_jobs "tenant42:jobs") ≫= authenticate sample_store = Some p ∧
       (∃ g, (try_acquire_inflight default_limits live_new (p_key_id p)).2 = InflightHolding g) ∧
       allows_scope p (handler_scope HWrite) = true ∧
       Forall (λ n, allows_name p n = true) ["tenant42:jobs"%string].
Proof.
  split; [by vm_compute|].
  apply (authorization_exact sample_config sample_store live_new (write_jobs "tenant42:jobs") HWrite
    ["tenant42:jobs"%string]); by vm_compute.
Defined.

(** The prefix check sees the path before percent-decoding: a client that
    escapes the [:] of a name its key may use is refused, though the handler would
    have been given exactly that name. *)
Example encoded_name_refused :
  (auth_middleware sample_config sample_store live_new (write_jobs "tenant42%3Ajobs")).2 =
    Refused Forbidden ∧
  axum_match routes POST "/v0/topics/tenant42%3Ajobs" = Some (HWrite, ["tenant42%3Ajobs"%string]) ∧
  percent_decode "tenant42%3Ajobs" = Some "tenant42:jobs"%string.
Proof. by vm_compute. Qed.

(** HEAD on a GET route: a key that may read is refused where GET lets it in, and a key
    that may only write reaches the job stream, whose GET needs both scopes. *)
Example head_takes_other_scope :
  let reader := mkPrincipal None SCOPE_READ [] in
  let writer := mkPrincipal None SCOPE_WRITE [] in
  axum_match routes HEAD "/v0/topics/jobs" = axum_match routes GET "/v0/topics/jobs" ∧
  axum_match routes HEAD "/v0/topics/jobs/work" = Some (HWork, ["jobs"%string]) ∧
  path_allowed reader GET "/v0/topics/jobs" = true ∧ path_allowed reader HEAD "/v0/topics/jobs" = false ∧
  path_allowed writer GET "/v0/topics/jobs/work" = false ∧ path_allowed writer HEAD "/v0/topics/jobs/work" = true.
Proof. by vm_compute. Qed.
End HttpSamples.
