(* ===== verification/Wake.v ===== *)
(** * Waking parked requests

    The streams and the long poll park on a [tokio::sync::Notify] that a writer
    signals with [notify_waiters].  The signal is not sticky, so what matters is
    the order in which the waiter reads the condition and creates its future:
    - [ShutdownSignal::notified] ([src/serve.rs]) and the delivery loop of
      [src/http/ws.rs] create the future first ([register_first]);
    - the long poll of [diff] ([src/http/topics.rs]) and the event stream of
      [src/http/watch.rs] read first and create the future afterwards
      ([check_first]).
    The writer ([ShutdownSignal::trigger], [publish_staged_no_seal]) publishes the
    condition and then signals.  The steps of the two sides interleave freely. *)

From stdpp Require Import base relations.
From S2P Require Import Prelude.

(** ** The interface of [Notify] *)
Class Notify := {
  nf_state : Type;
  nf_future : Type;
  nf_new : nf_state;
  notify_waiters : nf_state → nf_state;
  notified : nf_state → nf_future;
  nf_ready : nf_state → nf_future → bool
}.
(** A future is woken by the calls of [notify_waiters] after its creation, and by
    no earlier one. *)
Class NotifyLaws `{!Notify} : Prop := {
  nf_ready_iff (n : nf_state) (k : nat) :
    nf_ready (Nat.iter k notify_waiters n) (notified n) = negb (k =? 0)%nat
}.

(** Where the two sides are. *)
Inductive WriterPc := WrPublish | WrSignal | WrDone.
Inductive WaiterPc := WtStart | WtMiddle | WtParked | WtReturned.

Section wake.
Context `{!Notify}.

(** The condition, the [Notify], and the two program counters with the waiter's
    future. *)
Record Wake := mkWake {
  wk_flag : bool;
  wk_notify : nf_state;
  wk_writer : WriterPc;
  wk_waiter : WaiterPc;
  wk_future : option nf_future
}.
Definition wake_init : Wake := mkWake false nf_new WrPublish WtStart None.

(** [trigger] and the publication of a batch: the flag (or head) is stored, then
    the waiters are signalled. *)
Inductive writer_step : Wake → Wake → Prop :=
  | wr_publish f n t fu : writer_step (mkWake f n WrPublish t fu) (mkWake true n WrSignal t fu)
  | wr_signal f n t fu :
      writer_step (mkWake f n WrSignal t fu) (mkWake f (notify_waiters n) WrDone t fu).

(** A parked waiter returns when its future is ready. *)
Inductive wake_step : Wake → Wake → Prop :=
  | wt_woken f n w fu :
      nf_ready n fu = true →
      wake_step (mkWake f n w WtParked (Some fu)) (mkWake f n w WtReturned (Some fu)).

(** Create the future, then read the condition. *)
Inductive register_first : Wake → Wake → Prop :=
  | rf_register f n w : register_first (mkWake f n w WtStart None) (mkWake f n w WtMiddle (Some (notified n)))
  | rf_check f n w fu :
      register_first (mkWake f n w WtMiddle (Some fu))
        (mkWake f n w (if f then WtReturned else WtParked) (Some fu)).

(** Read the condition, then create the future. *)
Inductive check_first : Wake → Wake → Prop :=
  | cf_check f n w :
      check_first (mkWake f n w WtStart None) (mkWake f n w (if f then WtReturned else WtMiddle) None)
  | cf_register f n w : check_first (mkWake f n w WtMiddle None) (mkWake f n w WtParked (Some (notified n))).

Definition protocol (waiter : Wake → Wake → Prop) (s s' : Wake) : Prop :=
  writer_step s s' ∨ waiter s s' ∨ wake_step s s'.

(** ** The safe order *)
Definition published (w : WriterPc) : bool := match w with WrPublish => false | _ => true end.
Definition signalled (w : WriterPc) : bool := match w with WrDone => true | _ => false end.

(** The future was created [k] signals ago, and a waiter that parked has not
    missed the signal. *)
Record awake (s : Wake) : Prop := {
  aw_flag : wk_flag s = published (wk_writer s);
  aw_future : match wk_future s with
              | None => wk_waiter s = WtStart
              | Some fu => ∃ n k, fu = notified n ∧ wk_notify s = Nat.iter k notify_waiters n ∧
                  (wk_waiter s = WtParked → signalled (wk_writer s) = true → k ≠ 0%nat) ∧
                  wk_waiter s ≠ WtStart
              end
}.

Lemma awake_step s s' : protocol register_first s s' → awake s → awake s'.
Proof.
  intros [Hw|[Hr|Hk]] [Hf Hfu].
  - destruct Hw as [f n t fu|f n t fu]; simpl in *; split; simpl; try done;
      destruct fu as [fu|]; try done; destruct Hfu as (n0 & k & -> & -> & Hp & Ht).
    by exists n0, (S k).
  - destruct Hr as [f n w|f n w fu]; simpl in *; split; simpl; try done.
    + by exists n, 0%nat.
    + destruct Hfu as (n0 & k & -> & -> & Hp & Ht). exists n0, k. split_and!; try done.
      * intros Hpk. destruct f; [done|]. by destruct w.
      * by destruct f.
  - destruct Hk as [f n w fu Hready]; simpl in *. split; simpl; [done|].
    destruct Hfu as (n0 & k & -> & -> & Hp & Ht). exists n0, k. by split_and!.
Qed.

Lemma awake_reachable s : rtc (protocol register_first) wake_init s → awake s.
Proof.
  apply (rtc_ind_r (λ s, awake s)); [by split|]. intros s1 s2 _ Hs Ha. by eapply awake_step.
Qed.
End wake.

Section theorems.
Context `{!Notify} `{!NotifyLaws}.

(** No wakeup is lost when the future is created before the condition is read:
    under every interleaving, once the writer has published and signalled, the
    waiter has returned, or is about to read the published condition, or is parked
    on a future that is ready. *)
Theorem registered_wait_not_missed s :
  rtc (protocol register_first) wake_init s → wk_writer s = WrDone →
  match wk_waiter s with
  | WtReturned => True
  | WtStart | WtMiddle => wk_flag s = true
  | WtParked => ∃ fu, wk_future s = Some fu ∧ nf_ready (wk_notify s) fu = true
  end.
Proof.
  intros Hr Hdone. destruct (awake_reachable s Hr) as [Hf Hfu]. rewrite Hdone in Hf.
  destruct (wk_waiter s) eqn:Hw; try done. destruct (wk_future s) as [fu|]; [|congruence].
  destruct Hfu as (n & k & -> & Hn & Hk & _). exists (notified n). split; [done|].
  rewrite Hn, nf_ready_iff. specialize (Hk eq_refl). rewrite Hdone in Hk.
  apply negb_true_iff, Nat.eqb_neq. by apply Hk.
Qed.

(** The other order loses wakeups: a record published and signalled between the
    read and the creation of the future leaves the long poll, or the event stream,
    parked on a future that is not ready, though the record is there. *)
Theorem checked_wait_misses :
  ∃ s, rtc (protocol check_first) wake_init s ∧
    wk_writer s = WrDone ∧ wk_flag s = true ∧ wk_waiter s = WtParked ∧
    ∃ fu, wk_future s = Some fu ∧ nf_ready (wk_notify s) fu = false.
Proof.
  exists (mkWake true (notify_waiters nf_new) WrDone WtParked (Some (notified (notify_waiters nf_new)))).
  split.
  - eapply rtc_l; [right; left; apply cf_check|]. eapply rtc_l; [left; apply wr_publish|].
    eapply rtc_l; [left; apply wr_signal|]. eapply rtc_l; [right; left; apply cf_register|]. apply rtc_refl.
  - split_and!; try done. eexists. split; [done|]. apply (nf_ready_iff _ 0).
Qed.
End theorems.

(** ** A concrete [Notify] *)
Module WakeSamples.
(** The number of signals so far; a future remembers the number at its creation. *)
#[export] Instance counting : Notify := {|
  nf_state := nat; nf_future := nat; nf_new := 0%nat;
  notify_waiters := S; notified := λ n, n; nf_ready := λ n f, (f <? n)%nat |}.
#[export] Instance counting_laws : NotifyLaws.
Proof.
  split. intros n k. simpl. assert (Nat.iter k S n = (k + n)%nat) as ->.
  { induction k as [|k IH]; [done|]. simpl. by rewrite IH. }
  destruct k as [|k]; simpl; [apply Nat.ltb_irrefl|]. apply Nat.ltb_lt. lia.
Qed.

(** The waiter parks before the writer starts. *)
Definition parked_early : Wake :=
  mkWake true (notify_waiters nf_new) WrDone WtParked (Some (notified nf_new)).

Lemma registered_wait_not_missed_witness :
  ∃ fu, wk_future parked_early = Some fu ∧ nf_ready (wk_notify parked_early) fu = true.
Proof.
  apply (registered_wait_not_missed parked_early); [|done].
  eapply rtc_l; [right; left; apply rf_register|]. eapply rtc_l; [right; left; apply rf_check|].
  eapply rtc_l; [left; apply wr_publish|]. eapply rtc_l; [left; apply wr_signal|]. apply rtc_refl.
Defined.

Lemma checked_wait_misses_witness :
  ∃ s, rtc (protocol check_first) wake_init s ∧
    wk_writer s = WrDone ∧ wk_flag s = true ∧ wk_waiter s = WtParked ∧
    ∃ fu, wk_future s = Some fu ∧ nf_ready (wk_notify s) fu = false.
Proof. apply checked_wait_misses. Defined.
End WakeSamples.
