(* ===== verification/Cohort.v ===== *)
(** * Coalescing claims

    Models the [ClaimCoordinator] of [src/http/queue.rs] for one topic: concurrent
    claims join a forming cohort, whose first member, the leader, waits for the
    window, runs one claim pass for all of them and sends each its share.  Tasks
    interleave between the lock sections of [claim_coalesced]; a task whose client
    disconnects is dropped where it waits ([co_cancel]).

    [joined_claim_has_leader]: without cancellation no claim is left without a
    leader to answer it.  [cancelled_leader_blocks_topic]: from any state, a
    leader dropped during the window leaves a cohort that every later claim joins and
    nobody drains.
    [lease_tokens_roundtrip]: the fencing tokens of a claim are read back. *)

From Stdlib Require Import Ascii.
From stdpp Require Import base gmap list strings relations.
From S2P Require Import Prelude Types Names.

(** ** The coordinator *)

(** [FormingCohort]: the waiting claimers, by task. *)
Record FormingCohort := mkCohort {
  co_claimers : list nat;
  co_closed : bool
}.

(** Where a task is in [claim_coalesced]. *)
Inductive ClaimTask :=
  | CtEntry                             (* about to look up the topic's cohort *)
  | CtGot (c : nat)                     (* holds a reference to cohort [c] *)
  | CtRetry (c : nat)                   (* found it closed *)
  | CtLeader (c : nat)                  (* sleeps the window *)
  | CtDrained (c : nat) (batch : list nat)
  | CtServing (batch : list nat)
  | CtAwait                             (* awaits its reply *)
  | CtDone
  | CtCancelled.

(** The cohorts by identity, the entry of the topic in [forming], the tasks and
    the claims that have been answered. *)
Record Coord := mkCoord {
  cd_cohorts : list FormingCohort;
  cd_forming : option nat;
  cd_tasks : list ClaimTask;
  cd_replied : gset nat
}.
Definition coord_new : Coord := mkCoord [] None [] ∅.

(** [remove_if] with [Arc::ptr_eq] *)
Definition remove_if (forming : option nat) (c : nat) : option nat :=
  if bool_decide (forming = Some c) then None else forming.

(** [entry().or_insert_with()] *)
Definition cohort_entry (s : Coord) (i : nat) : Coord :=
  match cd_forming s with
  | Some c => mkCoord (cd_cohorts s) (cd_forming s) (<[i := CtGot c]> (cd_tasks s)) (cd_replied s)
  | None =>
      let c := length (cd_cohorts s) in
      mkCoord (cd_cohorts s ++ [mkCohort [] false]) (Some c) (<[i := CtGot c]> (cd_tasks s)) (cd_replied s)
  end.

(** Joining under the cohort's lock. *)
Definition cohort_join (s : Coord) (i c : nat) (co : FormingCohort) : Coord :=
  if co_closed co then
    mkCoord (cd_cohorts s) (cd_forming s) (<[i := CtRetry c]> (cd_tasks s)) (cd_replied s)
  else
    mkCoord (<[c := mkCohort (co_claimers co ++ [i]) false]> (cd_cohorts s)) (cd_forming s)
      (<[i := match co_claimers co with [] => CtLeader c | _ => CtAwait end]> (cd_tasks s)) (cd_replied s).

(** The leader's drain under the lock. *)
Definition cohort_drain (s : Coord) (i c : nat) (co : FormingCohort) : Coord :=
  mkCoord (<[c := mkCohort [] true]> (cd_cohorts s)) (cd_forming s)
    (<[i := CtDrained c (co_claimers co)]> (cd_tasks s)) (cd_replied s).

Inductive co_step : Coord → Coord → Prop :=
  | co_new s :
      co_step s (mkCoord (cd_cohorts s) (cd_forming s) (cd_tasks s ++ [CtEntry]) (cd_replied s))
  | co_entry s i : cd_tasks s !! i = Some CtEntry → co_step s (cohort_entry s i)
  | co_join s i c co :
      cd_tasks s !! i = Some (CtGot c) → cd_cohorts s !! c = Some co → co_step s (cohort_join s i c co)
  | co_retry s i c :
      cd_tasks s !! i = Some (CtRetry c) →
      co_step s (mkCoord (cd_cohorts s) (remove_if (cd_forming s) c) (<[i := CtEntry]> (cd_tasks s))
                   (cd_replied s))
  | co_drain s i c co :
      cd_tasks s !! i = Some (CtLeader c) → cd_cohorts s !! c = Some co → co_step s (cohort_drain s i c co)
  | co_remove s i c batch :
      cd_tasks s !! i = Some (CtDrained c batch) →
      co_step s (mkCoord (cd_cohorts s) (remove_if (cd_forming s) c) (<[i := CtServing batch]> (cd_tasks s))
                   (cd_replied s))
  | co_serve s i batch :
      cd_tasks s !! i = Some (CtServing batch) →
      co_step s (mkCoord (cd_cohorts s) (cd_forming s) (<[i := CtAwait]> (cd_tasks s))
                   (list_to_set batch ∪ cd_replied s))
  | co_fail s i batch :
      cd_tasks s !! i = Some (CtServing batch) →
      co_step s (mkCoord (cd_cohorts s) (cd_forming s) (<[i := CtDone]> (cd_tasks s))
                   (list_to_set batch ∪ cd_replied s))
  | co_finish s i :
      cd_tasks s !! i = Some CtAwait → i ∈ cd_replied s →
      co_step s (mkCoord (cd_cohorts s) (cd_forming s) (<[i := CtDone]> (cd_tasks s)) (cd_replied s)).

(** The client of a task disconnects while the task waits.  A leader that waits
    for the claim pass holds the drained senders: dropping them gives every member
    an empty answer. *)
Inductive co_cancel : Coord → Coord → Prop :=
  | co_drop s i t :
      cd_tasks s !! i = Some t → (t = CtAwait ∨ ∃ c, t = CtLeader c) →
      co_cancel s (mkCoord (cd_cohorts s) (cd_forming s) (<[i := CtCancelled]> (cd_tasks s)) (cd_replied s))
  | co_drop_pass s i batch :
      cd_tasks s !! i = Some (CtServing batch) →
      co_cancel s (mkCoord (cd_cohorts s) (cd_forming s) (<[i := CtCancelled]> (cd_tasks s))
                     (list_to_set batch ∪ cd_replied s)).

Definition co_any (s s' : Coord) : Prop := co_step s s' ∨ co_cancel s s'.

(** ** Fencing tokens *)

(** [format!("{:x}")]: without leading zeros; a u64 has at most 16 digits. *)
Definition hex_char (n : Z) : ascii := ascii_of_N (Z.to_N (if n <? 10 then 48 + n else 87 + n)).
Fixpoint hex_text (k : nat) (n : Z) : string :=
  match k with
  | O => EmptyString
  | S k =>
      if n <? 16 then String (hex_char n) EmptyString
      else hex_text k (n / 16) +:+ String (hex_char (n mod 16)) EmptyString
  end.

(** [u64::from_str_radix(_, 16)] *)
Definition hex_of (c : ascii) : option Z :=
  let n := Z.of_N (N_of_ascii c) in
  if (48 <=? n) && (n <=? 57) then Some (n - 48)
  else if (97 <=? n) && (n <=? 102) then Some (n - 87)
  else if (65 <=? n) && (n <=? 70) then Some (n - 55)
  else None.
Fixpoint parse_hex (acc : Z) (s : string) : option Z :=
  match s with
  | EmptyString => Some acc
  | String c s =>
      match hex_of c with
      | Some d => let v := acc * 16 + d in if u64_max <? v then None else parse_hex v s
      | None => None
      end
  end.
Definition from_str_radix_16 (s : string) : option Z :=
  match s with
  | EmptyString => None
  | String "+" EmptyString => None
  | String "+" s => parse_hex 0 s
  | _ => parse_hex 0 s
  end.

(** The token of a claimed job ([to_claimed_job]), and the tokens of a request. *)
Definition lease_token (lease_id : Z) : string := "lease_" +:+ hex_text 16 lease_id.
Fixpoint parse_lease_ids (lease_ids : list string) : result ErrorCode (list (option Z)) :=
  match lease_ids with
  | [] => Ok []
  | s :: lease_ids =>
      let? id :=
        if bool_decide (s = EmptyString) then Ok None
        else match strip_prefix "lease_" s ≫= from_str_radix_16 with
             | Some id => Ok (Some id)
             | None => Err InvalidRequest
             end in
      let? rest := parse_lease_ids lease_ids in
      Ok (id :: rest)
  end.

(** ** Every claim has a leader *)
Definition has_leader (s : Coord) (c : nat) : Prop := ∃ j, cd_tasks s !! j = Some (CtLeader c).

(** Task [j] has drained [batch] and will answer it. *)
Definition busy (s : Coord) (j : nat) (batch : list nat) : Prop :=
  cd_tasks s !! j = Some (CtServing batch) ∨ ∃ c, cd_tasks s !! j = Some (CtDrained c batch).

(** A claim that will be answered: it was, or it is in the cohort of a live
    leader, or in the batch of a task that is serving it. *)
Definition answerable (s : Coord) (i : nat) : Prop :=
  i ∈ cd_replied s ∨
  (∃ c co, cd_cohorts s !! c = Some co ∧ i ∈ co_claimers co ∧ has_leader s c) ∨
  (∃ j batch, busy s j batch ∧ i ∈ batch).

Record coord_ok (s : Coord) : Prop := {
  ok_open : ∀ c co, cd_cohorts s !! c = Some co → co_claimers co ≠ [] → has_leader s c;
  ok_await : ∀ i, cd_tasks s !! i = Some CtAwait → answerable s i;
  ok_member : ∀ i c, cd_tasks s !! i = Some (CtLeader c) →
    ∃ co, cd_cohorts s !! c = Some co ∧ i ∈ co_claimers co;
  ok_unique : ∀ i j c, cd_tasks s !! i = Some (CtLeader c) → cd_tasks s !! j = Some (CtLeader c) → i = j;
  ok_busy : ∀ i batch, busy s i batch → i ∈ batch
}.

(** A step that moves one task, keeps the cohorts with their members, and takes
    nothing away that a claim waits for, keeps every claim answerable. *)
Lemma answerable_mono s s' :
  cd_replied s ⊆ cd_replied s' →
  (∀ c co, cd_cohorts s !! c = Some co → ∃ co', cd_cohorts s' !! c = Some co' ∧
     co_claimers co ⊆ co_claimers co') →
  (∀ c, has_leader s c → has_leader s' c) →
  (∀ j batch, busy s j batch → ∃ j' batch', busy s' j' batch' ∧ batch ⊆ batch') →
  ∀ i, answerable s i → answerable s' i.
Proof.
  intros Hr Hc Hl Hb i [Hi|[(c & co & Hco & Hi & Hlead)|(j & batch & Hbusy & Hi)]].
  - left. by apply Hr.
  - right; left. destruct (Hc _ _ Hco) as (co' & Hco' & Hsub). exists c, co'. eauto.
  - right; right. destruct (Hb _ _ Hbusy) as (j' & batch' & Hb' & Hsub). eauto.
Qed.

Lemma lookup_moved (ts : list ClaimTask) i t0 t1 j t :
  ts !! i = Some t0 → <[i := t1]> ts !! j = Some t → (j = i ∧ t = t1) ∨ (j ≠ i ∧ ts !! j = Some t).
Proof.
  intros Hi Hj. destruct (decide (j = i)) as [->|Hne]; [left|right].
  - rewrite list_lookup_insert_eq in Hj by (by eapply lookup_lt_Some). by injection Hj as ->.
  - by rewrite list_lookup_insert_ne in Hj by done.
Qed.

Lemma lookup_kept (ts : list ClaimTask) i t0 t1 j t :
  ts !! i = Some t0 → t ≠ t0 → ts !! j = Some t → <[i := t1]> ts !! j = Some t.
Proof. intros Hi Ht Hj. rewrite list_lookup_insert_ne; [done|]. intros ->. congruence. Qed.

(** Neither a leader nor a task with a drained batch. *)
Definition idle (t : ClaimTask) : Prop :=
  match t with CtLeader _ | CtDrained _ _ | CtServing _ => False | _ => True end.

(** An idle task moves on without joining; a new empty cohort may appear. *)
Lemma quiet_ok s cohorts forming i t0 t1 :
  coord_ok s → cd_tasks s !! i = Some t0 → idle t0 → idle t1 → t1 ≠ CtAwait →
  (cohorts = cd_cohorts s ∨ cohorts = cd_cohorts s ++ [mkCohort [] false]) →
  coord_ok (mkCoord cohorts forming (<[i := t1]> (cd_tasks s)) (cd_replied s)).
Proof.
  intros [Hopen Hawait Hmem Huniq Hbusy] Hi Ht0 Ht1 Hna Hco.
  set (s' := mkCoord cohorts forming (<[i := t1]> (cd_tasks s)) (cd_replied s)).
  assert (Hback : ∀ j t, cd_tasks s' !! j = Some t → ¬ idle t ∨ t = CtAwait → cd_tasks s !! j = Some t).
  { intros j t Hj Hn. destruct (lookup_moved _ _ _ _ _ _ Hi Hj) as [[-> ->]|[_ ?]]; [|done]. naive_solver. }
  assert (Hfwd : ∀ j t, cd_tasks s !! j = Some t → ¬ idle t → cd_tasks s' !! j = Some t).
  { intros j t Hj Hn. eapply lookup_kept; [done| |done]. intros ->. done. }
  assert (Hkeep : ∀ c co, cd_cohorts s !! c = Some co → cohorts !! c = Some co).
  { intros c co Hc. destruct Hco as [->| ->]; [done|]. by apply lookup_app_l_Some. }
  assert (Hlead : ∀ c, has_leader s c → has_leader s' c).
  { intros c [j Hj]. exists j. apply Hfwd; [done|intros []]. }
  assert (Hb : ∀ j batch, busy s j batch → busy s' j batch).
  { intros j batch [Hj|[c Hj]]; [left|right; exists c]; apply Hfwd; (done || intros []). }
  split.
  - intros c co Hc Hne. apply Hlead. apply (Hopen c co); [|done]. destruct Hco as [->| ->]; [done|].
    simpl in Hc. apply lookup_app_Some in Hc as [Hc|[_ Hc]]; [done|].
    apply list_lookup_singleton_Some in Hc as [_ <-]. done.
  - intros j Hj. apply (answerable_mono s); [done| |done| |].
    + intros c co Hc. exists co. split; [by apply Hkeep|done].
    + intros j' batch Hbu. exists j', batch. split; [by apply Hb|done].
    + apply Hawait, Hback; [done|by right].
  - intros j c Hj. destruct (Hmem j c) as (co & Hc & Hin); [apply Hback; [done|left; intros []]|].
    exists co. split; [by apply Hkeep|done].
  - intros j k c Hj Hk. apply (Huniq j k c); apply Hback; try done; left; intros [].
  - intros j batch Hbu. apply Hbusy. destruct Hbu as [Hj|[c Hj]]; [left|right; exists c];
      (apply Hback; [done|left; intros []]).
Qed.

Lemma new_ok s :
  coord_ok s → coord_ok (mkCoord (cd_cohorts s) (cd_forming s) (cd_tasks s ++ [CtEntry]) (cd_replied s)).
Proof.
  intros [Hopen Hawait Hmem Huniq Hbusy].
  set (s' := mkCoord (cd_cohorts s) (cd_forming s) (cd_tasks s ++ [CtEntry]) (cd_replied s)).
  assert (Hback : ∀ j t, cd_tasks s' !! j = Some t → t ≠ CtEntry → cd_tasks s !! j = Some t).
  { intros j t Hj Hn. simpl in Hj. apply lookup_app_Some in Hj as [Hj|[_ Hj]]; [done|].
    apply list_lookup_singleton_Some in Hj as [_ <-]. done. }
  assert (Hfwd : ∀ j t, cd_tasks s !! j = Some t → cd_tasks s' !! j = Some t).
  { intros j t Hj. by apply lookup_app_l_Some. }
  assert (Hlead : ∀ c, has_leader s c → has_leader s' c) by (intros c [j Hj]; exists j; by apply Hfwd).
  split.
  - intros c co Hc Hne. by eapply Hlead, Hopen.
  - intros j Hj. apply (answerable_mono s); [done|eauto|done| |].
    + intros j' batch Hbu. exists j', batch. split; [|done]. destruct Hbu as [?|[c ?]]; [left|right; exists c]; by apply Hfwd.
    + by apply Hawait, Hback.
  - intros j c Hj. by apply Hmem, Hback.
  - intros j k c Hj Hk. by apply (Huniq j k c); apply Hback.
  - intros j batch Hbu. apply Hbusy. destruct Hbu as [?|[c ?]]; [left|right; exists c]; by apply Hback.
Qed.

(** Joining an open cohort adds a member and takes nothing away. *)
Lemma join_keeps s i c co t1 :
  cd_tasks s !! i = Some (CtGot c) → cd_cohorts s !! c = Some co →
  let s' := mkCoord (<[c := mkCohort (co_claimers co ++ [i]) false]> (cd_cohorts s)) (cd_forming s)
              (<[i := t1]> (cd_tasks s)) (cd_replied s) in
  (∀ c', has_leader s c' → has_leader s' c') ∧
  cd_cohorts s' !! c = Some (mkCohort (co_claimers co ++ [i]) false) ∧
  (∀ c', c' ≠ c → cd_cohorts s' !! c' = cd_cohorts s !! c') ∧
  (∀ j, answerable s j → answerable s' j).
Proof.
  intros Hi Hc s'. assert (Hcl : (c < length (cd_cohorts s))%nat) by (by eapply lookup_lt_Some).
  assert (Hfwd : ∀ j t, cd_tasks s !! j = Some t → t ≠ CtGot c → cd_tasks s' !! j = Some t).
  { intros j t Hj Hn. by eapply lookup_kept. }
  assert (Hlead : ∀ c', has_leader s c' → has_leader s' c').
  { intros c' [j Hj]. exists j. by apply Hfwd. }
  assert (Hc' : cd_cohorts s' !! c = Some (mkCohort (co_claimers co ++ [i]) false)).
  { by apply list_lookup_insert_eq. }
  assert (Hother : ∀ c', c' ≠ c → cd_cohorts s' !! c' = cd_cohorts s !! c').
  { intros c' Hne. simpl. by rewrite list_lookup_insert_ne by done. }
  split_and!; try done. apply answerable_mono; [done| |done|].
  - intros c' co' Hl. destruct (decide (c' = c)) as [->|Hne].
    + simplify_eq. eexists. split; [done|]. simpl. set_solver.
    + exists co'. by rewrite Hother.
  - intros j batch Hbu. exists j, batch. split; [|done].
    destruct Hbu as [?|[c' ?]]; [left|right; exists c']; by apply Hfwd.
Qed.

Lemma join_ok s i c co :
  coord_ok s → cd_tasks s !! i = Some (CtGot c) → cd_cohorts s !! c = Some co → coord_ok (cohort_join s i c co).
Proof.
  intros Hok Hi Hc. unfold cohort_join. destruct (co_closed co).
  { apply (quiet_ok s _ _ i (CtGot c)); try done. by left. }
  pose proof Hok as [Hopen Hawait Hmem Huniq Hbusy].
  set (t1 := match co_claimers co with [] => CtLeader c | _ => CtAwait end).
  destruct (join_keeps s i c co t1 Hi Hc) as (Hlead & Hc' & Hother & Hmono). set (s' := mkCoord _ _ _ _) in *.
  assert (Hown : has_leader s' c).
  { destruct (co_claimers co) as [|x l] eqn:Hx.
    - exists i. simpl. apply list_lookup_insert_eq. by eapply lookup_lt_Some.
    - apply Hlead, (Hopen c co); [done|]. by rewrite Hx. }
  assert (Ht1 : ∀ c', t1 = CtLeader c' → c' = c ∧ co_claimers co = []).
  { intros c' Ht. unfold t1 in Ht. destruct (co_claimers co); [|done]. by injection Ht as ->. }
  assert (Hempty : ∀ j c', t1 = CtLeader c' → cd_tasks s !! j = Some (CtLeader c') → False).
  { intros j c' Ht Hj. destruct (Ht1 _ Ht) as [-> Hn]. destruct (Hmem j c Hj) as (co' & Hl & Hin).
    assert (co' = co) as -> by congruence. rewrite Hn in Hin. set_solver. }
  split.
  - intros c' co' Hl Hne. destruct (decide (c' = c)) as [->|Hcc]; [done|].
    rewrite Hother in Hl by done. by eapply Hlead, Hopen.
  - intros j Hj. destruct (lookup_moved _ _ _ _ _ _ Hi Hj) as [[-> Ht]|[_ Hj']]; [|by apply Hmono, Hawait].
    right; left. exists c. eexists. split; [done|]. split; [simpl; set_solver|done].
  - intros j c' Hj. destruct (lookup_moved _ _ _ _ _ _ Hi Hj) as [[-> Ht]|[_ Hj']].
    + destruct (Ht1 c' ltac:(done)) as [-> _]. eexists. split; [done|]. simpl. set_solver.
    + destruct (Hmem j c' Hj') as (co' & Hl & Hin). destruct (decide (c' = c)) as [->|Hne].
      * simplify_eq. eexists. split; [done|]. simpl. set_solver.
      * exists co'. by rewrite Hother.
  - intros j k c' Hj Hk.
    destruct (lookup_moved _ _ _ _ _ _ Hi Hj) as [[-> Ht]|[_ Hj']],
      (lookup_moved _ _ _ _ _ _ Hi Hk) as [[-> Hu]|[_ Hk']]; [done|..|by eapply Huniq]; exfalso; by eapply Hempty.
  - intros j batch Hbu. apply Hbusy.
    destruct Hbu as [Hj|[c' Hj]]; destruct (lookup_moved _ _ _ _ _ _ Hi Hj) as [[-> Ht]|[_ Hj']];
      try (unfold t1 in Ht; destruct (co_claimers co); done); [by left|right; by exists c'].
Qed.

(** The leader closes its cohort and takes all of its members. *)
Lemma drain_ok s i c co :
  coord_ok s → cd_tasks s !! i = Some (CtLeader c) → cd_cohorts s !! c = Some co → coord_ok (cohort_drain s i c co).
Proof.
  intros [Hopen Hawait Hmem Huniq Hbusy] Hi Hc. unfold cohort_drain. set (s' := mkCoord _ _ _ _).
  assert (Hcl : (c < length (cd_cohorts s))%nat) by (by eapply lookup_lt_Some).
  assert (Hil : (i < length (cd_tasks s))%nat) by (by eapply lookup_lt_Some).
  assert (Hfwd : ∀ j t, cd_tasks s !! j = Some t → t ≠ CtLeader c → cd_tasks s' !! j = Some t).
  { intros j t Hj Hn. by eapply lookup_kept. }
  assert (Hback : ∀ j c', cd_tasks s' !! j = Some (CtLeader c') → c' ≠ c ∧ cd_tasks s !! j = Some (CtLeader c')).
  { intros j c' Hj. destruct (lookup_moved _ _ _ _ _ _ Hi Hj) as [[_ ?]|[Hne Hj']]; [done|].
    split; [|done]. intros ->. by apply Hne, (Huniq _ _ c). }
  assert (Hmine : busy s' i (co_claimers co)).
  { right. exists c. by apply list_lookup_insert_eq. }
  assert (Hbusy' : ∀ j batch, busy s j batch → busy s' j batch).
  { intros j batch [Hj|[c' Hj]]; [left|right; exists c']; by apply Hfwd. }
  split.
  - intros c' co' Hl Hne. destruct (decide (c' = c)) as [->|Hcc].
    + simpl in Hl. rewrite list_lookup_insert_eq in Hl by done. by injection Hl as <-.
    + simpl in Hl. rewrite list_lookup_insert_ne in Hl by done. destruct (Hopen _ _ Hl Hne) as [j Hj].
      exists j. apply Hfwd; [done|]. congruence.
  - intros j Hj. destruct (lookup_moved _ _ _ _ _ _ Hi Hj) as [[-> Ht]|[_ Hj']]; [done|].
    destruct (Hawait j Hj') as [?|[(c' & co' & Hl & Hin & Hlead)|(k & batch & Hb & Hin)]]; [by left| |].
    + destruct (decide (c' = c)) as [->|Hne].
      * simplify_eq. right; right. by exists i, (co_claimers co).
      * right; left. exists c', co'. split; [simpl; by rewrite list_lookup_insert_ne|]. split; [done|].
        destruct Hlead as [k Hk]. exists k. apply Hfwd; [done|]. congruence.
    + right; right. exists k, batch. split; [by apply Hbusy'|done].
  - intros j c' Hj. destruct (Hback _ _ Hj) as [Hne Hj']. destruct (Hmem j c' Hj') as (co' & Hl & Hin).
    exists co'. split; [simpl; by rewrite list_lookup_insert_ne|done].
  - intros j k c' Hj Hk. destruct (Hback _ _ Hj) as [_ Hj'], (Hback _ _ Hk) as [_ Hk']. by eapply Huniq.
  - intros j batch Hbu. destruct (Hmem i c Hi) as (co' & Hl & Hin). simplify_eq.
    destruct Hbu as [Hj|[c' Hj]]; destruct (lookup_moved _ _ _ _ _ _ Hi Hj) as [[-> Ht]|[_ Hj']]; simplify_eq; try done;
      apply Hbusy; [by left|right; by exists c'].
Qed.

(** A task with a drained batch moves on, still busy or with the batch answered. *)
Lemma served_keeps s forming i t0 t1 batch replied :
  cd_tasks s !! i = Some t0 → (t0 = CtServing batch ∨ ∃ c, t0 = CtDrained c batch) →
  (t1 = CtServing batch ∧ replied = cd_replied s ∨
   t1 ∈ [CtAwait; CtDone] ∧ replied = list_to_set batch ∪ cd_replied s) →
  let s' := mkCoord (cd_cohorts s) forming (<[i := t1]> (cd_tasks s)) replied in
  (∀ j c, cd_tasks s' !! j = Some (CtLeader c) ↔ cd_tasks s !! j = Some (CtLeader c)) ∧
  (∀ j, answerable s j → answerable s' j).
Proof.
  intros Hi Ht0 Ht1 s'.
  assert (Hib : busy s i batch) by (destruct Ht0 as [->|[c ->]]; [by left|right; by exists c]).
  assert (Hlead : ∀ j c, cd_tasks s' !! j = Some (CtLeader c) ↔ cd_tasks s !! j = Some (CtLeader c)).
  { intros j c. split; intros Hj.
    - destruct (lookup_moved _ _ _ _ _ _ Hi Hj) as [[_ ?]|[_ ?]]; [set_solver|done].
    - eapply lookup_kept; [done| |done]. naive_solver. }
  split; [done|]. intros j [Hj|[(c & co & Hc & Hin & [k Hk])|(k & batch' & Hb & Hin)]].
  - left. simpl. destruct Ht1 as [[_ ->]|[_ ->]]; set_solver.
  - right; left. exists c, co. split; [done|]. split; [done|]. exists k. by apply Hlead.
  - destruct (decide (k = i)) as [->|Hne].
    + assert (batch' = batch) as -> by (unfold busy in Hb, Hib; naive_solver congruence).
      destruct Ht1 as [[-> ->]|[_ ->]].
      * right; right. exists i, batch. split; [left|done]. simpl. apply list_lookup_insert_eq. by eapply lookup_lt_Some.
      * left. simpl. set_solver.
    + right; right. exists k, batch'. split; [|done].
      destruct Hb as [?|[c ?]]; [left|right; exists c]; simpl; by rewrite list_lookup_insert_ne.
Qed.

Lemma served_ok s forming i t0 t1 batch replied :
  coord_ok s → cd_tasks s !! i = Some t0 → (t0 = CtServing batch ∨ ∃ c, t0 = CtDrained c batch) →
  (t1 = CtServing batch ∧ replied = cd_replied s ∨
   t1 ∈ [CtAwait; CtDone] ∧ replied = list_to_set batch ∪ cd_replied s) →
  coord_ok (mkCoord (cd_cohorts s) forming (<[i := t1]> (cd_tasks s)) replied).
Proof.
  intros [Hopen Hawait Hmem Huniq Hbusy] Hi Ht0 Ht1.
  destruct (served_keeps s forming i t0 t1 batch replied Hi Ht0 Ht1) as [Hlead Hmono]. set (s' := mkCoord _ _ _ _) in *.
  assert (Hib : i ∈ batch).
  { apply Hbusy. destruct Ht0 as [->|[c ->]]; [by left|right; by exists c]. }
  split.
  - intros c co Hc Hne. destruct (Hopen c co Hc Hne) as [j Hj]. exists j. by apply Hlead.
  - intros j Hj. destruct (lookup_moved _ _ _ _ _ _ Hi Hj) as [[-> Ht]|[_ Hj']]; [|by apply Hmono, Hawait].
    left. simpl. destruct Ht1 as [[-> _]|[_ ->]]; [done|]. set_solver.
  - intros j c Hj. by apply Hmem, Hlead.
  - intros j k c Hj%Hlead Hk%Hlead. by eapply Huniq.
  - intros j batch' [Hj|[c Hj]]; destruct (lookup_moved _ _ _ _ _ _ Hi Hj) as [[-> Ht]|[_ Hj']].
    + destruct Ht1 as [[-> _]|[Ht1 _]]; [by injection Ht as ->|set_solver].
    + apply Hbusy. by left.
    + destruct Ht1 as [[-> _]|[Ht1 _]]; [done|set_solver].
    + apply Hbusy. right. by exists c.
Qed.

Lemma co_step_ok s s' : coord_ok s → co_step s s' → coord_ok s'.
Proof.
  intros Hok Hst; destruct Hst; [eapply new_ok; eassumption| |eapply join_ok; eassumption| |eapply drain_ok; eassumption|..].
  - unfold cohort_entry. destruct (cd_forming s); eapply quiet_ok; try done; eauto.
  - eapply quiet_ok; try done. by left.
  - eapply served_ok; [done..| |left; done]. right. by exists c.
  - eapply served_ok; [done..| |right]; [by left|]. split; [set_solver|done].
  - eapply served_ok; [done..| |right]; [by left|]. split; [set_solver|done].
  - eapply quiet_ok; try done. by left.
Qed.

Lemma coord_new_ok : coord_ok coord_new.
Proof. split; intros; try done. destruct H as [H|[c H]]; done. Qed.

(** C34. Every claim that joined a cohort is accounted for, as long as no waiting
    client disconnects: in every interleaving of concurrent claims a task that
    awaits its reply was answered, or is a member of a cohort whose leader is
    still in its window, or is in the batch that a leader has drained and is
    serving.  In particular a claim that races a leader's drain never lands in
    a cohort that nobody will drain. *)
Theorem joined_claim_has_leader (s : Coord) (i : nat) :
  rtc co_step coord_new s → cd_tasks s !! i = Some CtAwait → answerable s i.
Proof.
  intros Hr. apply ok_await. revert s Hr. apply rtc_ind_r; [apply coord_new_ok|]. intros. by eapply co_step_ok.
Qed.

(** ** An abandoned cohort *)

(** A task that has not joined a cohort; a claim in a drained batch or answered; a claim
    in a cohort. *)
Definition unjoined (t : ClaimTask) : Prop :=
  match t with CtEntry | CtGot _ | CtRetry _ => True | _ => False end.
Definition taken (s : Coord) (j : nat) : Prop := j ∈ cd_replied s ∨ ∃ k batch, busy s k batch ∧ j ∈ batch.
Definition member (s : Coord) (j : nat) : Prop := ∃ c co, cd_cohorts s !! c = Some co ∧ j ∈ co_claimers co.

(** A task that has seen its cohort closed. *)
Definition past (t : ClaimTask) (c : nat) : Prop := t = CtRetry c ∨ ∃ batch, t = CtDrained c batch.

(** With or without cancellations: an open cohort is the topic's entry, and a claim waits
    in one place. *)
Record coord_shape (s : Coord) : Prop := {
  sh_open : ∀ c co, cd_cohorts s !! c = Some co → co_closed co = false → cd_forming s = Some c;
  sh_closed : ∀ c co, cd_cohorts s !! c = Some co → co_closed co = true → co_claimers co = [];
  sh_past : ∀ j t c, cd_tasks s !! j = Some t → past t c → ∃ co, cd_cohorts s !! c = Some co ∧ co_closed co = true;
  sh_lead : ∀ j c, cd_tasks s !! j = Some (CtLeader c) → ∃ l, cd_cohorts s !! c = Some (mkCohort (j :: l) false);
  sh_member : ∀ j, member s j → ∃ t, cd_tasks s !! j = Some t ∧ (t = CtAwait ∨ t = CtCancelled ∨ ∃ c, t = CtLeader c);
  sh_taken : ∀ j, taken s j → ∃ t, cd_tasks s !! j = Some t ∧ ¬ unjoined t;
  sh_apart : ∀ j, member s j → ¬ taken s j
}.

Lemma busy_moved s cohorts forming replied i t0 t1 k batch :
  cd_tasks s !! i = Some t0 → busy (mkCoord cohorts forming (<[i := t1]> (cd_tasks s)) replied) k batch →
  busy s k batch ∨ t1 = CtServing batch ∨ ∃ c, t1 = CtDrained c batch.
Proof.
  intros Hi [Hk|[c Hk]]; destruct (lookup_moved _ _ _ _ _ _ Hi Hk) as [[-> <-]|[_ Hk']]; eauto; left; [by left|right; by exists c].
Qed.

(** One task moves on and joins nothing. *)
Lemma shape_move s forming replied i t0 t1 :
  let s' := mkCoord (cd_cohorts s) forming (<[i := t1]> (cd_tasks s)) replied in
  coord_shape s → cd_tasks s !! i = Some t0 → (unjoined t1 → unjoined t0) → (∀ c, t1 ≠ CtLeader c) → (member s i → t1 = CtCancelled) →
  (∀ c, past t1 c → ∃ co, cd_cohorts s !! c = Some co ∧ co_closed co = true) → (∀ j, taken s' j → taken s j) →
  (∀ c co, cd_cohorts s !! c = Some co → co_closed co = false → cd_forming s = Some c → forming = Some c) →
  coord_shape s'.
Proof.
  intros s' [Ho Hc Hp Hl Hm Hj Ha] Hi Hun Hnl Hmi Hpast Htk Hf. split.
  - intros c co Hco Hcl. eapply Hf; [done..|by eapply Ho].
  - done.
  - intros j t c Ht Hpc. destruct (lookup_moved _ _ _ _ _ _ Hi Ht) as [[-> ->]|[_ Ht']]; eauto.
  - intros j c Ht. destruct (lookup_moved _ _ _ _ _ _ Hi Ht) as [[-> Hx]|[_ Ht']]; [by edestruct Hnl|by apply Hl].
  - intros j Hmt. destruct (decide (j = i)) as [->|Hne]; [|simpl; rewrite list_lookup_insert_ne by done; by apply Hm].
    exists t1. split; [by apply list_lookup_insert_eq; eapply lookup_lt_Some|]. right; left. by apply Hmi.
  - intros j Hmt. destruct (Hj j (Htk j Hmt)) as (t & Ht & Hnu).
    destruct (decide (j = i)) as [->|Hne]; [|exists t; simpl; by rewrite list_lookup_insert_ne].
    exists t1. split; [by apply list_lookup_insert_eq; eapply lookup_lt_Some|]. intros ?%Hun. congruence.
  - intros j Hjm Ht%Htk. by apply (Ha j).
Qed.

Lemma shape_new s :
  coord_shape s → coord_shape (mkCoord (cd_cohorts s) (cd_forming s) (cd_tasks s ++ [CtEntry]) (cd_replied s)).
Proof.
  intros [Ho Hc Hp Hl Hm Hj Ha]. set (s' := mkCoord _ _ _ _).
  assert (Hback : ∀ j t, cd_tasks s' !! j = Some t → cd_tasks s !! j = Some t ∨ t = CtEntry).
  { intros j t [?|[_ Ht]]%lookup_app_Some; [by left|]. apply list_lookup_singleton_Some in Ht as [_ <-]. by right. }
  assert (Hbusy : ∀ k b, busy s' k b → busy s k b).
  { intros k b [Hk|[c Hk]]; destruct (Hback _ _ Hk) as [?|?]; try done; [by left|right; by exists c]. }
  assert (Htk : ∀ j, taken s' j → taken s j) by (intros j [?|(k & b & ?%Hbusy & ?)]; [by left|right; eauto]).
  split; [done|done|..].
  - intros j t c Ht Hpc. destruct (Hback _ _ Ht) as [?| ->]; [by eapply Hp|]. by destruct Hpc as [?|[? ?]].
  - intros j c Ht. destruct (Hback _ _ Ht) as [?|?]; [by apply Hl|done].
  - intros j Hmt. destruct (Hm j Hmt) as (t & Ht & Hx). exists t. split; [by apply lookup_app_l_Some|done].
  - intros j Hmt. destruct (Hj j (Htk j Hmt)) as (t & Ht & Hnu). exists t. split; [by apply lookup_app_l_Some|done].
  - intros j Hjm Ht%Htk. by apply (Ha j).
Qed.

(** Opening a cohort, joining it and draining it change the cohorts. *)
Lemma shape_open s i :
  coord_shape s → cd_tasks s !! i = Some CtEntry → cd_forming s = None → coord_shape (cohort_entry s i).
Proof.
  intros Hs Hi Hf. pose proof Hs as [Ho Hc Hp Hl Hm Hj Ha]. unfold cohort_entry. rewrite Hf.
  set (n := length (cd_cohorts s)). set (cs := cd_cohorts s ++ _).
  assert (Hcs : ∀ c co, cs !! c = Some co → cd_cohorts s !! c = Some co ∧ co_closed co = true ∨ c = n ∧ co = mkCohort [] false).
  { intros c co [Hco|[Hge Hco]]%lookup_app_Some.
    - left. split; [done|]. destruct (co_closed co) eqn:E; [done|]. by rewrite (Ho c co Hco E) in Hf.
    - apply list_lookup_singleton_Some in Hco as [? <-]. right. split; [|done]. unfold n. lia. }
  assert (Hkeep : ∀ c co, cd_cohorts s !! c = Some co → cs !! c = Some co) by (intros; by apply lookup_app_l_Some).
  destruct (shape_move s (Some n) (cd_replied s) i CtEntry (CtGot n)) as [_ _ Hp' Hl' Hm' Hj' Ha']; try done.
  { intros (t & Ht & Hx)%Hm. rewrite Hi in Ht. injection Ht as <-. by destruct Hx as [?|[?|[? ?]]]. }
  { by intros c [?|[? ?]]. }
  { intros j [?|(k & b & Hb & ?)]; [by left|]. apply (busy_moved _ _ _ _ _ _ _ _ _ Hi) in Hb as [?|[?|[? ?]]]; [|done..]. right; eauto. }
  { intros c co Hco E Hfc. congruence. }
  assert (Hmb : ∀ t r j, member (mkCoord cs (Some n) t r) j → member (mkCoord (cd_cohorts s) (Some n) t r) j).
  { intros t r j (c & co & [[Hco _]|[_ ->]]%Hcs & Hin); [by exists c, co|by apply not_elem_of_nil in Hin]. }
  split.
  - intros c co [[_ Hx]|[-> ->]]%Hcs E; [congruence|done].
  - intros c co [[Hco _]|[-> ->]]%Hcs E; [by eapply Hc|done].
  - intros j t c Ht Hpc. destruct (Hp' j t c Ht Hpc) as (co & ? & ?). eauto.
  - intros j c Ht. destruct (Hl' j c Ht) as (l & ?). eauto.
  - intros j ?%Hmb. by apply Hm'.
  - exact Hj'.
  - intros j ?%Hmb. by apply Ha'.
Qed.

Lemma shape_join s i c co :
  coord_shape s → cd_tasks s !! i = Some (CtGot c) → cd_cohorts s !! c = Some co → co_closed co = false →
  coord_shape (cohort_join s i c co).
Proof.
  intros [Ho Hc Hp Hl Hm Hj Ha] Hi Hco Hop. unfold cohort_join. rewrite Hop.
  set (t1 := match co_claimers co with [] => _ | _ => _ end). set (s' := mkCoord _ _ _ _).
  assert (Hcl : (c < length (cd_cohorts s))%nat) by (by eapply lookup_lt_Some).
  assert (Hcs : ∀ c' co', cd_cohorts s' !! c' = Some co' → c' = c ∧ co' = mkCohort (co_claimers co ++ [i]) false ∨ cd_cohorts s !! c' = Some co').
  { intros c' co' H. destruct (decide (c' = c)) as [->|Hne]; simpl in H.
    - rewrite list_lookup_insert_eq in H by done. left. by injection H as <-.
    - rewrite list_lookup_insert_ne in H by done. by right. }
  assert (Hfree : ¬ member s i ∧ ¬ taken s i).
  { split; intros H; [destruct (Hm i H) as (t & Ht & Hn)|destruct (Hj i H) as (t & Ht & Hn)]; rewrite Hi in Ht; injection Ht as <-; [|done].
    by destruct Hn as [?|[?|[? ?]]]. }
  assert (Hmb : ∀ j, member s' j → member s j ∨ j = i).
  { intros j (c' & co' & [[-> ->]|Hc']%Hcs & Hin); [|left; by exists c', co'].
    apply elem_of_app in Hin as [?|?%list_elem_of_singleton]; [left; by exists c, co|by right]. }
  assert (Ht1 : t1 = CtLeader c ∧ co_claimers co = [] ∨ t1 = CtAwait) by (unfold t1; destruct (co_claimers co); auto).
  assert (Htk : ∀ j, taken s' j → taken s j).
  { intros j [?|(k & b & Hb & ?)]; [by left|]. apply (busy_moved _ _ _ _ _ _ _ _ _ Hi) in Hb as [?|Hx]; [right; eauto|].
    destruct Ht1 as [[-> _]| ->]; by destruct Hx as [?|[? ?]]. }
  split.
  - intros c' co' [[-> ->]|Hc']%Hcs Hx; [|by eapply Ho]. by eapply Ho.
  - intros c' co' [[-> ->]|Hc']%Hcs Hx; [done|by eapply Hc].
  - intros j t c' Ht Hpc. destruct (lookup_moved _ _ _ _ _ _ Hi Ht) as [[-> ->]|[_ Ht']].
    { destruct Ht1 as [[-> _]| ->]; by destruct Hpc as [?|[? ?]]. }
    destruct (Hp j t c' Ht' Hpc) as (co' & Hc' & Hx). exists co'. split; [|done]. simpl.
    rewrite list_lookup_insert_ne; [done|]. intros ->. congruence.
  - intros j c' Ht. destruct (lookup_moved _ _ _ _ _ _ Hi Ht) as [[-> Hx]|[_ Ht']].
    + destruct Ht1 as [[Hy Hn]|Hy]; rewrite Hy in Hx; [|done]. injection Hx as ->. exists []. simpl.
      rewrite list_lookup_insert_eq by done. by rewrite Hn.
    + destruct (Hl j c' Ht') as (l & Hc'). destruct (decide (c' = c)) as [->|Hne].
      * rewrite Hc' in Hco. injection Hco as <-. exists (l ++ [i]). simpl. by rewrite list_lookup_insert_eq.
      * exists l. simpl. by rewrite list_lookup_insert_ne.
  - intros j Hmt. destruct (decide (j = i)) as [->|Hne].
    + exists t1. split; [by apply list_lookup_insert_eq; eapply lookup_lt_Some|]. destruct Ht1 as [[-> _]| ->]; eauto.
    + destruct (Hmb j Hmt) as [Hjm| ->]; [|done]. simpl. rewrite list_lookup_insert_ne by done. by apply Hm.
  - intros j Hmt%Htk. destruct (Hj j Hmt) as (t & Ht & Hnu). destruct (decide (j = i)) as [->|Hne]; [by destruct Hfree|].
    exists t. split; [simpl; by rewrite list_lookup_insert_ne|done].
  - intros j [Hjm| ->]%Hmb Ht%Htk; [by apply (Ha j)|by apply Hfree].
Qed.

Lemma shape_drain s i c co :
  coord_shape s → cd_tasks s !! i = Some (CtLeader c) → cd_cohorts s !! c = Some co → coord_shape (cohort_drain s i c co).
Proof.
  intros [Ho Hc Hp Hl Hm Hj Ha] Hi Hco. destruct (Hl i c Hi) as (l & Hco'). rewrite Hco in Hco'. injection Hco' as ->.
  unfold cohort_drain. set (s' := mkCoord _ _ _ _). assert (Hcl : (c < length (cd_cohorts s))%nat) by (by eapply lookup_lt_Some).
  assert (Hcs : ∀ c' co', cd_cohorts s' !! c' = Some co' → co' = mkCohort [] true ∨ c' ≠ c ∧ cd_cohorts s !! c' = Some co').
  { intros c' co' H. destruct (decide (c' = c)) as [->|Hne]; simpl in H.
    - rewrite list_lookup_insert_eq in H by done. left. by injection H as <-.
    - rewrite list_lookup_insert_ne in H by done. by right. }
  assert (Hnone : ∀ j, ¬ member s' j).
  { intros j (c' & co' & [->|[Hne Hc']]%Hcs & Hin); [by apply not_elem_of_nil in Hin|].
    destruct (co_closed co') eqn:E; [rewrite (Hc _ _ Hc' E) in Hin; by apply not_elem_of_nil in Hin|].
    apply (Ho _ _ Hc') in E. rewrite (Ho _ _ Hco eq_refl) in E. congruence. }
  assert (Htk : ∀ j, taken s' j → taken s j ∨ member s j).
  { intros j [?|(k & b & Hb & Hin)]; [left; by left|].
    apply (busy_moved _ _ _ _ _ _ _ _ _ Hi) in Hb as [?|[?|[? [= _ <-]]]]; [left; right; eauto|done|].
    right. eexists c, _. split; [done|]. done. }
  split.
  - intros c' co' [->|[_ Hc']]%Hcs Hx; [done|by eapply Ho].
  - intros c' co' [->|[_ Hc']]%Hcs Hx; [done|by eapply Hc].
  - intros j t c' Ht Hpc. assert (c' = c ∨ cd_tasks s !! j = Some t) as [->|Ht'].
    { destruct (lookup_moved _ _ _ _ _ _ Hi Ht) as [[-> ->]|[_ Ht']]; [|by right]. destruct Hpc as [?|[? [= ]]]; [done|by left]. }
    { exists (mkCohort [] true). simpl. by rewrite list_lookup_insert_eq. }
    destruct (Hp j t c' Ht' Hpc) as (co' & Hc' & Hx). exists co'. split; [|done]. simpl.
    rewrite list_lookup_insert_ne; [done|]. intros ->. rewrite Hco in Hc'. by injection Hc' as <-.
  - intros j c' Ht. destruct (lookup_moved _ _ _ _ _ _ Hi Ht) as [[_ ?]|[Hne Ht']]; [done|].
    destruct (Hl j c' Ht') as (l' & Hc'). exists l'. simpl. rewrite list_lookup_insert_ne; [done|].
    intros ->. rewrite Hco in Hc'. by injection Hc' as ->.
  - by intros j ?%Hnone.
  - intros j Hmt. assert (∃ t, cd_tasks s !! j = Some t ∧ ¬ unjoined t) as (t & Ht & Hnu).
    { destruct (Htk j Hmt) as [?|Hjm]; [by apply Hj|]. destruct (Hm j Hjm) as (t & Ht & Hx). exists t. split; [done|].
      destruct Hx as [->|[->|[? ->]]]; intros []. }
    destruct (decide (j = i)) as [->|Hne]; [|exists t; split; [simpl; by rewrite list_lookup_insert_ne|done]].
    eexists. split; [by apply list_lookup_insert_eq; eapply lookup_lt_Some|]. intros [].
  - by intros j ?%Hnone.
Qed.

(** A task that holds no batch after its move takes nothing. *)
Lemma taken_moved s cohorts forming replied i t0 t1 j :
  cd_tasks s !! i = Some t0 → (∀ x, x ∈ replied → taken s x) →
  (∀ batch, t1 = CtServing batch ∨ (∃ c, t1 = CtDrained c batch) → busy s i batch) →
  taken (mkCoord cohorts forming (<[i := t1]> (cd_tasks s)) replied) j → taken s j.
Proof.
  intros Hi Hr Hb [?|(k & b & Hk & ?)]; [by apply Hr|]. apply (busy_moved _ _ _ _ _ _ _ _ _ Hi) in Hk as [?|?%Hb]; right; eauto.
Qed.

Lemma not_member s i t :
  coord_shape s → cd_tasks s !! i = Some t → t ≠ CtAwait → t ≠ CtCancelled → (∀ c, t ≠ CtLeader c) → ¬ member s i.
Proof. intros Hs Hi H1 H2 H3 (t' & Ht & Hx)%(sh_member _ Hs). assert (t' = t) as -> by congruence. by destruct Hx as [?|[?|[c ?]]]; [..|edestruct H3]. Qed.

(** The side conditions of [shape_move] that hold on most steps. *)
Ltac moves_on Hs Hi :=
  eapply shape_move;
  [exact Hs | exact Hi | try (done || intros []) | try done | try (done || by intros ?%(not_member _ _ _ Hs Hi)) | try (by intros ? [?|[? ?]])
  |intros ?; eapply taken_moved; [exact Hi|try done|try (by intros ? [?|[? ?]])] | try (by intros; congruence)].

Lemma shape_step s s' : coord_shape s → co_any s s' → coord_shape s'.
Proof.
  intros Hs Hst. pose proof Hs as [Ho Hc Hp Hl Hm Hj Ha].
  assert (Hown : ∀ x, x ∈ cd_replied s → taken s x) by (intros x ?; by left).
  assert (Hpast : ∀ i c t, cd_tasks s !! i = Some t → past t c → ∀ c' co, cd_cohorts s !! c' = Some co →
    co_closed co = false → cd_forming s = Some c' → remove_if (cd_forming s) c = Some c').
  { intros i c t Hi Ht c' co Hco E Hf. unfold remove_if. case_bool_decide as Hx; [|done].
    destruct (Hp i t c Hi Ht) as (co' & ? & ?). congruence. }
  assert (Hserve : ∀ i batch, cd_tasks s !! i = Some (CtServing batch) → ∀ x, x ∈ list_to_set batch ∪ cd_replied s → taken s x).
  { intros i batch Hi x [?%elem_of_list_to_set|?]%elem_of_union; [|by left]. right. exists i, batch. split; [by left|done]. }
  destruct Hst as [Hst|Hst];
    [destruct Hst as [s|s i Hi|s i c co Hi Hco|s i c Hi|s i c co Hi Hco|s i c batch Hi|s i batch Hi
                     |s i batch Hi|s i Hi Hin]
    |destruct Hst as [s i t Hi Ht|s i batch Hi]]; try solve [moves_on Hs Hi; by eapply Hserve].
  - by apply shape_new.
  - destruct (cd_forming s) as [c|] eqn:Hf; [|by apply shape_open]. unfold cohort_entry. rewrite Hf. moves_on Hs Hi.
  - destruct (co_closed co) eqn:E; [|by apply shape_join]. unfold cohort_join. rewrite E. moves_on Hs Hi.
    intros ? [[= <-]|[? ?]]; [eauto|done].
  - moves_on Hs Hi. eapply Hpast; [done|by left].
  - by apply shape_drain.
  - moves_on Hs Hi; [|eapply Hpast; [done|right; eauto]]. intros b [[= <-]|[? ?]]; [right; eauto|done].
  - moves_on Hs Hi. intros ?%Ha. destruct H. by left.
Qed.

Lemma shape_reached s : rtc co_any coord_new s → coord_shape s.
Proof.
  revert s. apply rtc_ind_r; [|by intros; eapply shape_step].
  split; try done; [by intros j (c & co & ? & _)|by intros j [?|(k & b & [?|[? ?]] & _)]|by intros j (c & co & ? & _)].
Qed.

(** Cohort [c] has members and no task leads a cohort; the claims [K] wait outside
    every batch. *)
Record orphaned (c : nat) (K : nat → Prop) (s : Coord) : Prop := {
  or_shape : coord_shape s;
  or_cohort : ∃ x l, cd_cohorts s !! c = Some (mkCohort (x :: l) false);
  or_lead : ∀ j c', cd_tasks s !! j ≠ Some (CtLeader c');
  or_wait : ∀ j, K j → ¬ taken s j ∧ ∀ t, cd_tasks s !! j = Some t → unjoined t ∨ t = CtAwait ∨ t = CtCancelled
}.

(** One task moves and leads nothing; a waiting claim goes on waiting. *)
Lemma orphaned_move c K s cohorts forming replied i t0 t1 :
  let s' := mkCoord cohorts forming (<[i := t1]> (cd_tasks s)) replied in
  orphaned c K s → coord_shape s' → cd_tasks s !! i = Some t0 →
  (∃ x l, cohorts !! c = Some (mkCohort (x :: l) false)) → (∀ c', t1 ≠ CtLeader c') → (∀ j, taken s' j → taken s j) →
  (K i → unjoined t1 ∨ t1 = CtAwait ∨ t1 = CtCancelled) → orphaned c K s'.
Proof.
  intros s' [_ _ Hnl Hw] Hs' Hi Hc Ht1 Htk HK. split; [done|done|..].
  - intros j c' Hj. destruct (lookup_moved _ _ _ _ _ _ Hi Hj) as [[_ ?]|[_ ?]]; [by edestruct Ht1|by edestruct Hnl].
  - intros j HKj. destruct (Hw j HKj) as [Hnt Hst]. split; [by intros ?%Htk|]. intros t Hj.
    destruct (lookup_moved _ _ _ _ _ _ Hi Hj) as [[-> ->]|[_ ?]]; auto.
Qed.

Lemma orphaned_step c K s s' : orphaned c K s → co_any s s' → orphaned c K s'.
Proof.
  intros Hor Hst. pose proof (shape_step _ _ (or_shape _ _ _ Hor) Hst) as Hs'.
  pose proof Hor as [[Ho Hcl _ _ _ _ _] (x & l & Hc) Hnl Hw]. pose proof (Ho c _ Hc eq_refl) as Hf.
  assert (Hown : ∀ y, y ∈ cd_replied s → taken s y) by (intros y ?; by left).
  destruct Hst as [Hst|Hst];
    [destruct Hst as [s|s i Hi|s i c0 co Hi Hco|s i c0 Hi|s i c0 co Hi Hco|s i c0 batch Hi|s i batch Hi
                     |s i batch Hi|s i Hi Hin]
    |destruct Hst as [s i t Hi Ht|s i batch Hi]]; try by edestruct Hnl.
  all: try assert (Hserve : ∀ y, y ∈ list_to_set batch ∪ cd_replied s → taken s y)
    by (intros y [?%elem_of_list_to_set|?]%elem_of_union; [right; exists i, batch; split; [by (left || (right; eauto))|done]|by left]).
  - split; [done|by eauto|..].
    + intros j c' [?|[_ Hj]]%lookup_app_Some; [by edestruct Hnl|]. by apply list_lookup_singleton_Some in Hj as [_ ?].
    + intros j HK. destruct (Hw j HK) as [Hnt Hst]. split.
      * intros [?|(k & b & Hk & ?)]; apply Hnt; [by left|]. right. exists k, b. split; [|done].
        destruct Hk as [Hk|[c' Hk]]; apply lookup_app_Some in Hk as [?|[_ Hk]]; try (by apply list_lookup_singleton_Some in Hk as [_ ?]); [by left|right; eauto].
      * intros t [?|[_ Hj]]%lookup_app_Some; [by apply Hst|]. apply list_lookup_singleton_Some in Hj as [_ <-]. by left.
  - revert Hs'. unfold cohort_entry. rewrite Hf. intros Hs'. eapply orphaned_move; try done; [by eauto| |by left].
    intros j. eapply taken_moved; [done..|]. by intros ? [?|[? ?]].
  - revert Hs'. unfold cohort_join. destruct (co_closed co) eqn:E; intros Hs'.
    + eapply orphaned_move; try done; [by eauto| |by left]. intros j. eapply taken_moved; [done..|]. by intros ? [?|[? ?]].
    + assert (c0 = c) as -> by (specialize (Ho c0 co Hco E); congruence). rewrite Hc in Hco. injection Hco as <-.
      eapply orphaned_move; try done; [| |by right; left].
      * rewrite list_lookup_insert_eq by (by eapply lookup_lt_Some). simpl. eauto.
      * intros j. eapply taken_moved; [done..|]. by intros ? [?|[? ?]].
  - eapply orphaned_move; try done; [by eauto| |by left]. intros j. eapply taken_moved; [done..|]. by intros ? [?|[? ?]].
  - eapply orphaned_move; try done; [by eauto| |].
    + intros j. eapply taken_moved; [done..|]. intros b [[= <-]|[? ?]]; [right; eauto|done].
    + intros HK. by destruct (proj2 (Hw i HK) _ Hi) as [?|[?|?]].
  - eapply orphaned_move; try done; [by eauto| |by right; left]. intros j. eapply taken_moved; [done..|]. by intros ? [?|[? ?]].
  - eapply orphaned_move; try done; [by eauto|intros j; eapply taken_moved; [done..|]; by intros ? [?|[? ?]]|].
    intros HK. by destruct (proj2 (Hw i HK) _ Hi) as [?|[?|?]].
  - eapply orphaned_move; try done; [by eauto|intros j; eapply taken_moved; [done..|]; by intros ? [?|[? ?]]|].
    intros HK. destruct (Hw i HK) as [Hnt _]. destruct Hnt. by left.
  - eapply orphaned_move; try done; [by eauto| |by right; right]. intros j. eapply taken_moved; [done..|]. by intros ? [?|[? ?]].
  - eapply orphaned_move; try done; [by eauto| |by right; right]. intros j. eapply taken_moved; [done..|]. by intros ? [?|[? ?]].
Qed.

(** C40.  A client that disconnects at the wrong moment blocks the topic's claims for good.
    In any reachable state, when the task that leads a cohort is dropped while it sleeps
    its window, the cohort stays the topic's entry with nobody to drain it, and in every
    continuation no claim is answered that waits in that cohort, that has not joined a
    cohort yet, or that arrives later. *)
Theorem cancelled_leader_blocks_topic s i c co s' j :
  rtc co_any coord_new s → cd_tasks s !! i = Some (CtLeader c) → cd_cohorts s !! c = Some co →
  let dropped := mkCoord (cd_cohorts s) (cd_forming s) (<[i := CtCancelled]> (cd_tasks s)) (cd_replied s) in
  co_cancel s dropped ∧
  (rtc co_any dropped s' →
   (j ∈ co_claimers co ∨ (length (cd_tasks s) <= j)%nat ∨ ∃ t, cd_tasks s !! j = Some t ∧ unjoined t) →
   (j ∉ cd_replied s') ∧ cd_tasks s' !! j ≠ Some CtDone).
Proof.
  intros Hs%shape_reached Hi Hco dropped. assert (Hcan : co_cancel s dropped) by (by eapply co_drop; [|right; exists c]).
  split; [done|]. intros Hr HK. pose proof Hs as [Ho _ _ Hl Hm Hj Ha].
  destruct (Hl i c Hi) as (l & Hc). rewrite Hco in Hc. injection Hc as ->. simpl in HK.
  assert (Hor : orphaned c (λ y, y = j) dropped).
  { split; [eapply shape_step; [done|by right]|by eauto|..].
    - intros k c' Hk. destruct (lookup_moved _ _ _ _ _ _ Hi Hk) as [[_ ?]|[Hne Hk']]; [done|].
      destruct (Hl k c' Hk') as (l' & Hc'). pose proof (Ho _ _ Hc' eq_refl). pose proof (Ho _ _ Hco eq_refl).
      assert (c' = c) as -> by congruence. rewrite Hco in Hc'. by injection Hc' as ->.
    - intros ? ->. assert (Hnt : ¬ taken s j).
      { destruct HK as [Hin|HK]; [apply Ha; by eexists c, _|]. intros Ht. destruct (Hj j Ht) as (t & Ht' & Hn).
        destruct HK as [?%lookup_ge_None|(t' & ? & ?)]; congruence. }
      split; [intros Ht; apply Hnt; revert Ht; eapply taken_moved; [done|by intros x ?; left|by intros ? [?|[? ?]]]|].
      intros t Ht. destruct (lookup_moved _ _ _ _ _ _ Hi Ht) as [[-> ->]|[Hne Ht']]; [by right; right|].
      destruct HK as [Hin|[?%lookup_ge_None|(t' & ? & ?)]]; [|congruence|left; congruence].
      destruct (Hm j) as (t' & Hj' & Hx); [by eexists c, _|]. assert (t' = t) as -> by congruence.
      destruct Hx as [->|[->|[c' ->]]]; [by auto..|]. destruct (Hl j c' Hj') as (l' & Hc').
      pose proof (Ho _ _ Hc' eq_refl). pose proof (Ho _ _ Hco eq_refl). assert (c' = c) as -> by congruence.
      rewrite Hco in Hc'. by injection Hc' as ->. }
  pose proof (rtc_ind_r (orphaned c (λ y, y = j)) dropped Hor (λ _ _ _ Hst H, orphaned_step _ _ _ _ H Hst) s' Hr) as [_ _ _ Hw].
  destruct (Hw j eq_refl) as [Hnt Hst]. split; [intros ?; apply Hnt; by left|]. intros Hd. by destruct (Hst _ Hd) as [?|[?|?]].
Qed.

(** ** Tokens are read back *)
Lemma hex_of_char n : 0 <= n < 16 → hex_of (hex_char n) = Some n.
Proof.
  intros Hn. unfold hex_of, hex_char. destruct (Z.ltb_spec n 10); rewrite N_ascii_embedding by lia; rewrite Z2N.id by lia;
    repeat match goal with |- context [?a <=? ?b] => destruct (Z.leb_spec a b); simpl; try lia end; f_equal; lia.
Qed.

Lemma hex_text_nonempty k n : hex_text (S k) n ≠ EmptyString.
Proof. cbn [hex_text]. destruct (n <? 16); [done|]. by destruct (hex_text k (n / 16)). Qed.

Lemma parse_hex_text k n rest :
  (0 < k)%nat → 0 <= n < 16 ^ Z.of_nat k → n <= u64_max →
  parse_hex 0 (hex_text k n +:+ rest) = parse_hex n rest.
Proof.
  revert n rest. induction k as [|k IH]; intros n rest Hk Hn Hmax; [lia|].
  cbn [hex_text]. rewrite Nat2Z.inj_succ, Z.pow_succ_r in Hn by lia. destruct (Z.ltb_spec n 16) as [Hs|Hs].
  - change (String (hex_char n) EmptyString +:+ rest) with (String (hex_char n) rest). cbn [parse_hex].
    rewrite hex_of_char by lia. cbn zeta. destruct (Z.ltb_spec u64_max (0 * 16 + n)); [lia|]. f_equal; lia.
  - rewrite string_app_assoc. pose proof (Z.div_mod n 16 ltac:(lia)). pose proof (Z.mod_pos_bound n 16 ltac:(lia)).
    assert (1 <= n / 16) by (apply Z.div_le_lower_bound; lia).
    assert (n / 16 < 16 ^ Z.of_nat k) by (apply Z.div_lt_upper_bound; lia).
    rewrite IH; [|destruct k; simpl in *; lia|lia|lia].
    change (String (hex_char (n mod 16)) EmptyString +:+ rest) with (String (hex_char (n mod 16)) rest).
    cbn [parse_hex]. rewrite hex_of_char by done. cbn zeta.
    destruct (Z.ltb_spec u64_max (n / 16 * 16 + n mod 16)); [lia|]. f_equal. lia.
Qed.

Lemma from_str_radix_parse s v : s ≠ EmptyString → parse_hex 0 s = Some v → from_str_radix_16 s = Some v.
Proof.
  intros Hs Hp. destruct s as [|c s]; [done|].
  destruct (decide (c = "+"%char)) as [->|Hc]; [done|].
  destruct c as [[] [] [] [] [] [] [] []]; done.
Qed.

Lemma lease_token_parse id :
  0 <= id <= u64_max → strip_prefix "lease_" (lease_token id) ≫= from_str_radix_16 = Some id.
Proof.
  intros Hid. unfold lease_token. rewrite strip_prefix_app. cbn [mbind option_bind].
  apply from_str_radix_parse.
  - apply hex_text_nonempty.
  - rewrite <-(string_app_nil_r (hex_text 16 id)). rewrite parse_hex_text; [done|lia| |lia].
    unfold u64_max in Hid. change (16 ^ Z.of_nat 16) with (2 ^ 64). lia.
Qed.

(** The fencing tokens round-trip: the tokens that claims return, sent back in
    a request with an empty string where the client has none, are read as the
    same lease ids, in order, for every 64-bit lease id. *)
Theorem lease_tokens_roundtrip (ids : list (option Z)) :
  Forall (λ o, from_option (λ id, 0 <= id <= u64_max) True o) ids →
  parse_lease_ids ((λ o, from_option lease_token EmptyString o) <$> ids) = Ok ids.
Proof.
  induction 1 as [|[id|] ids Hid _ IH]; [done|..]; rewrite fmap_cons; cbn [parse_lease_ids from_option].
  - rewrite bool_decide_eq_false_2 by done. rewrite lease_token_parse by done. simpl. by rewrite IH.
  - rewrite bool_decide_eq_true_2 by done. simpl. by rewrite IH.
Qed.

(** ** Sample runs *)
Module CohortSamples.

(** Two claims share a cohort; the first leads it. *)
Definition two_claims : Coord := mkCoord [mkCohort [0; 1]%nat false] (Some 0%nat) [CtLeader 0; CtAwait] ∅.

Lemma two_claims_reached : rtc co_step coord_new two_claims.
Proof.
  eapply rtc_l; [apply co_new|]. simpl. eapply rtc_l; [by apply (co_entry _ 0)|]. simpl.
  eapply rtc_l; [by apply (co_join _ 0 0 (mkCohort [] false))|]. simpl.
  eapply rtc_l; [apply co_new|]. simpl. eapply rtc_l; [by apply (co_entry _ 1)|]. simpl.
  eapply rtc_l; [by apply (co_join _ 1 0 (mkCohort [0%nat] false))|]. done.
Qed.

Lemma joined_claim_has_leader_witness : answerable two_claims 1.
Proof. apply (joined_claim_has_leader _ 1); [apply two_claims_reached|done]. Defined.

(** The client of the first disconnects; a third claim comes and joins. *)
Definition left_waiting : Coord :=
  mkCoord [mkCohort [0; 1; 2]%nat false] (Some 0%nat) [CtCancelled; CtAwait; CtAwait] ∅.

Lemma third_joins : rtc co_any (mkCoord (cd_cohorts two_claims) (cd_forming two_claims)
  (<[0%nat := CtCancelled]> (cd_tasks two_claims)) (cd_replied two_claims)) left_waiting.
Proof.
  eapply rtc_l; [left; apply co_new|]. simpl. eapply rtc_l; [left; by apply (co_entry _ 2)|]. simpl.
  eapply rtc_l; [left; by apply (co_join _ 2 0 (mkCohort [0; 1]%nat false))|]. done.
Qed.

Lemma cancelled_leader_blocks_topic_witness : (2%nat ∉ cd_replied left_waiting) ∧ cd_tasks left_waiting !! 2%nat ≠ Some CtDone.
Proof.
  apply (cancelled_leader_blocks_topic two_claims 0 0 (mkCohort [0; 1]%nat false) left_waiting 2).
  - eapply rtc_subrel; [|apply two_claims_reached]. intros x y Hxy. by left.
  - done.
  - done.
  - apply third_joins.
  - right; left. simpl. lia.
Defined.

Lemma lease_tokens_roundtrip_witness :
  parse_lease_ids ["lease_7f3a9c"; EmptyString; "lease_ffffffffffffffff"]
    = Ok [Some 8338076; None; Some 18446744073709551615].
Proof.
  apply (lease_tokens_roundtrip [Some 8338076; None; Some 18446744073709551615]).
  unfold u64_max. repeat constructor; simpl; lia.
Defined.

End CohortSamples.
