(* ===== verification/WalWriter.v ===== *)
(** * The WAL writer

    Models the single writer thread of [src/storage/wal.rs] over the disk: the
    active file with its preallocation and rotation, [commit_batch] with its
    rewind of a failed batch, and the reading back of the files at recovery
    ([src/engine/recovery.rs]).  The batches are given here; [WalQueue]
    is the channel they come from.

    [wal_acked_survive]: whatever calls fail and wherever the power is lost, the
    frames of every batch that was signalled as committed under a sync are read
    back, in order.  [failed_batch_resurfaces]: bytes of a batch that was
    signalled as failed can be read back too. *)

From Stdlib Require Import Ascii.
From stdpp Require Import base gmap list strings sorting pretty.
From S2P Require Import Prelude Bytes Names Wal Disk.

(** ** File names *)

Definition wal_name (idx : Z) : string := numbered "wal-" ".log" idx.

(** [list_wal_files]: the WAL files of a directory, by ascending index. *)
Definition wal_files (names : list string) : list (Z * string) := numbered_files "wal-" ".log" names.

(** ** The active file *)
Record ActiveFile := mkActive {
  af_inode : nat;
  af_idx : Z;
  af_len : nat;
  af_capacity : nat
}.

(** [ActiveFile::create] *)
Definition active_create (dir : string) (first_seq : Z) (capacity : nat) : IO ActiveFile :=
  ino ← open (dir, wal_name first_seq) create_truncate;
  _ ← set_len ino capacity;
  _ ← sync_all ino;
  _ ← sync_dir dir;
  mret (mkActive ino first_seq 0 capacity).

(** [ActiveFile::open_for_append] *)
Definition open_for_append (dir : string) (first_seq : Z) (capacity valid_len : nat) : IO ActiveFile :=
  ino ← open (dir, wal_name first_seq) create_keep;
  let want := Nat.max capacity valid_len in
  n ← metadata_len ino;
  _ ← (if (n <? want)%nat then set_len ino want else mret tt);
  _ ← sync_all ino;
  _ ← sync_dir dir;
  mret (mkActive ino first_seq valid_len want).

(** [ActiveFile::write_all_at_tail] *)
Definition write_all_at_tail (f : ActiveFile) (bs : bytes) : IO ActiveFile :=
  _ ← write_all_at (af_inode f) (af_len f) bs;
  mret (mkActive (af_inode f) (af_idx f) (af_len f + length bs) (af_capacity f)).

(** ** The writer thread *)
Record Submission := mkSub { sub_records : list WalRecord.t; sub_durable : bool }.

Inductive CommitOutcome := CommitOk | CommitFail.

(** [WriterTask], with the append position it publishes for snapshots. *)
Record WriterTask := mkTask {
  wt_dir : string;
  wt_file_size : nat;
  wt_file : ActiveFile;
  wt_read_only : bool;
  wt_active_idx : Z;
  wt_active_len : nat
}.

Definition set_file (t : WriterTask) (f : ActiveFile) : WriterTask :=
  mkTask (wt_dir t) (wt_file_size t) f (wt_read_only t) (af_idx f) (af_len f).

(** Latching the writer read-only after a failed rotation. *)
Definition latch_read_only (t : WriterTask) : WriterTask :=
  mkTask (wt_dir t) (wt_file_size t) (wt_file t) true (wt_active_idx t) (wt_active_len t).

Definition sub_frames (s : Submission) : list WalFrame :=
  (λ r, mkWalFrame r (sub_durable s)) <$> sub_records s.
Definition batch_frames (pending : list Submission) : list WalFrame := concat (sub_frames <$> pending).

Section writer.
Context (crc : bytes → Z).

(** The encoding loop of [commit_batch]. *)
Definition batch_bytes (pending : list Submission) : bytes := encode_all crc (batch_frames pending).

(** The rotation of [commit_batch]: [None] when the next file cannot be created. *)
Definition rotate (needed : nat) (t : WriterTask) : IO (option WriterTask) :=
  if (af_capacity (wt_file t) <? needed)%nat then
    _ ← io_try (sync_data (af_inode (wt_file t)));
    r ← io_try (active_create (wt_dir t) (af_idx (wt_file t) + 1) (wt_file_size t));
    match r with
    | Ok next => mret (Some (set_file t next))
    | Err _ => mret None
    end
  else mret (Some t).

(** The write and sync of [commit_batch] on the active file. *)
Definition write_batch (bs : bytes) (any_durable : bool) (t : WriterTask) :
    IO (WriterTask * CommitOutcome) :=
  r ← io_try (write_all_at_tail (wt_file t) bs);
  match r with
  | Err _ => mret (t, CommitFail)
  | Ok file =>
      if any_durable then
        s ← io_try (sync_data (af_inode file));
        match s with
        | Err _ => mret (t, CommitFail)
        | Ok _ => mret (set_file t file, CommitOk)
        end
      else mret (set_file t file, CommitOk)
  end.

(** [WriterTask::commit_batch]: the outcome signalled to every token of the
    batch. *)
Definition commit_batch (pending : list Submission) (any_durable : bool) (t : WriterTask) :
    IO (WriterTask * CommitOutcome) :=
  let bs := batch_bytes pending in
  if (length pending =? 0)%nat then mret (t, CommitOk)
  else if wt_read_only t then mret (t, CommitFail)
  else
    o ← rotate (af_len (wt_file t) + length bs) t;
    match o with
    | None => mret (latch_read_only t, CommitFail)
    | Some t => write_batch bs any_durable t
    end.

(** The batches of a run; a shutdown forces the sync of the batches it drains. *)
Definition batch_durable (b : list Submission * bool) : bool := existsb sub_durable b.1 || b.2.

Fixpoint run_batches (batches : list (list Submission * bool)) (t : WriterTask) :
    IO (WriterTask * list CommitOutcome) :=
  match batches with
  | [] => mret (t, [])
  | b :: batches =>
      p ← commit_batch b.1 (batch_durable b) t;
      q ← run_batches batches p.1;
      mret (q.1, p.2 :: q.2)
  end.

(** [Wal::open_at_with].  Its sync of the parent directory is left out: the disk
    loses no directories. *)
Definition wal_open (dir : string) (file_size : nat) (first_idx : Z) (existing_len : nat) : IO WriterTask :=
  _ ← create_dir_all dir;
  f ← open_for_append dir first_idx file_size existing_len;
  mret (mkTask dir file_size f false first_idx existing_len).

(** [wal_open] followed by the run of its thread. *)
Definition wal_session (dir : string) (file_size : nat) (first_idx : Z) (existing_len : nat)
    (batches : list (list Submission * bool)) : IO (list CommitOutcome) :=
  t ← wal_open dir file_size first_idx existing_len;
  q ← run_batches batches t;
  mret q.2.

(** ** Reading the files back *)

(** [WalReader::open_with], drained. *)
Definition read_wal_file (path : Path) : IO (list WalFrame) :=
  ino ← open path read_only;
  buf ← read_to_end ino;
  mret (wal_read crc buf).1.

Fixpoint read_wal_files (dir : string) (files : list (Z * string)) : IO (list WalFrame) :=
  match files with
  | [] => mret []
  | f :: files =>
      fs ← read_wal_file (dir, f.2);
      rest ← read_wal_files dir files;
      mret (fs ++ rest)
  end.

Definition read_wal (dir : string) : IO (list WalFrame) :=
  names ← read_dir dir;
  read_wal_files dir (wal_files names).
End writer.

(** ** The writer's files *)

(** What creating the file [p] does to the other files of its directory. *)
Definition spares (d d' : DiskState) (p : Path) : Prop :=
  (powered d' ∧ sound d') ∧ (next_inode d <= next_inode d')%nat ∧
  ∀ path ino img, path.1 = p.1 → path ≠ p → (ino <= next_inode d)%nat →
    file_at d path ino img → file_at d' path ino img.

Lemma spares_refl d p : powered d → sound d → spares d d p.
Proof. intros Hd Hs. split; [done|]. split; [done|]. auto. Qed.

Lemma spares_new_file d p : powered d → sound d → spares d (with_new_file d p) p.
Proof.
  intros Hd Hs. split; [split; [done|by apply sound_new_file]|]. split; [simpl; lia|].
  intros. by apply file_at_new_file.
Qed.

Lemma spares_set_image d d' p ino img :
  spares d d' p → (next_inode d < ino)%nat → spares d (set_image d' ino img) p.
Proof.
  intros ((Hp & Hs) & Hn & Hf) Hi. split; [split; [done|by apply sound_set_image]|]. split; [done|].
  intros path ino' img' H1 H2 H3 H4. apply file_at_set_image; [by apply Hf|lia].
Qed.

Lemma spares_sync_dir d d' p :
  spares d d' p →
  spares d (mkDisk (live_dir d') (synced_names p.1 (live_dir d') (durable_dir d')) (inodes d') (dirs d')
              (next_inode d') (lying_fsync d') (frozen d') (seed d')) p.
Proof.
  intros ((Hp & Hs) & Hn & Hf). split; [split; [done|by apply sound_sync_dir]|]. split; [done|].
  intros path ino img H1 H2 H3 H4. destruct (Hf path ino img H1 H2 H3 H4) as [Hl Hd Hi]. split; simpl; [done| |done].
  by rewrite synced_names_lookup.
Qed.

Lemma wp_active_create fl dir idx cap d :
  powered d → sound d →
  wp fl (active_create dir idx cap)
    (λ r d', spares d d' (dir, wal_name idx) ∧
       match r with
       | Ok f => f = mkActive (S (next_inode d)) idx 0 cap ∧ (S (next_inode d) <= next_inode d')%nat ∧
                 ∃ img, file_at d' (dir, wal_name idx) (S (next_inode d)) img
       | Err _ => True
       end) d.
Proof.
  intros Hd Hsd. set (p := (dir, wal_name idx)). set (n := S (next_inode d)).
  pose proof (spares_new_file d p Hd Hsd) as Hs. pose proof Hs as ((Hd1 & _) & _ & _).
  assert (Hi : inodes (with_new_file d p) !! n = Some empty_image) by apply lookup_insert_eq.
  apply wp_bind, wp_open_fresh; [done|done|by left|by split; [apply spares_refl|]|].
  apply wp_bind, (wp_set_len fl n cap empty_image); [done|done|by split|].
  set (img1 := mkImage _ _ _). assert (Hs1 := spares_set_image _ _ _ n img1 Hs ltac:(lia)).
  apply wp_bind, (wp_sync_data fl n img1); [apply Hs1|apply lookup_insert_eq|by split|].
  rewrite set_image_twice. assert (Hs2 := spares_set_image _ _ _ n (promote img1) Hs ltac:(lia)).
  apply wp_bind, wp_sync_dir; [apply Hs2|by split|].
  apply wp_ret. split; [apply (spares_sync_dir _ _ p), Hs2|].
  split; [done|]. split; [simpl; lia|]. exists (promote img1). split; simpl.
  - by rewrite lookup_insert_eq.
  - rewrite synced_names_lookup by done. by rewrite lookup_insert_eq.
  - by rewrite lookup_insert_eq.
Qed.

Section durable.
Context (crc : bytes → Z).
Abbreviation enc := (encode_all crc).

Lemma enc_app fs1 fs2 : enc (fs1 ++ fs2) = enc fs1 ++ enc fs2.
Proof. unfold encode_all. by rewrite fmap_app, concat_app. Qed.

Lemma enc_prefix fs1 fs2 : fs1 `prefix_of` fs2 → enc fs1 `prefix_of` enc fs2.
Proof. intros [k ->]. rewrite enc_app. by eexists. Qed.

(** The state of a running writer: the files it has sealed, from index [base],
    each with frames that survive a crash; the frames in the active file
    ([content]) and those of them that survive ([synced]). *)
Record wal_inv (t : WriterTask) (base : Z) (closed : list (list WalFrame))
    (content synced : list WalFrame) (d : DiskState) : Prop := {
  wi_powered : powered d;
  wi_sound : sound d;
  wi_idx : af_idx (wt_file t) = base + Z.of_nat (length closed);
  wi_active : ∃ img, file_at d (wt_dir t, wal_name (af_idx (wt_file t))) (af_inode (wt_file t)) img ∧
                     kept (enc synced) img ∧ holds (enc content) img;
  wi_len : af_len (wt_file t) = length (enc content);
  wi_synced : synced `prefix_of` content;
  wi_alloc : (af_inode (wt_file t) <= next_inode d)%nat;
  wi_closed : ∀ k fs, closed !! k = Some fs →
    ∃ ino img, file_at d (wt_dir t, wal_name (base + Z.of_nat k)) ino img ∧
               ino ≠ af_inode (wt_file t) ∧ (ino <= next_inode d)%nat ∧ kept (enc fs) img;
  wi_ok : frames_ok (concat closed ++ content)
}.

(** Changing the image of the active file. *)
Lemma wal_inv_image t f base closed content synced content' synced' d img' :
  wal_inv t base closed content synced d →
  af_inode f = af_inode (wt_file t) → af_idx f = af_idx (wt_file t) →
  af_len f = length (enc content') → synced' `prefix_of` content' →
  frames_ok (concat closed ++ content') →
  kept (enc synced') img' → holds (enc content') img' →
  wal_inv (set_file t f) base closed content' synced' (set_image d (af_inode (wt_file t)) img').
Proof.
  intros [Hp Hs Hidx (img & Hf & _ & _) _ _ Ha Hc _] Hi Hx Hl Hpre Hok Hk Hh. split; simpl.
  - done.
  - by apply sound_set_image.
  - by rewrite Hx.
  - exists img'. rewrite Hi, Hx. split; [by eapply file_at_update|done].
  - done.
  - done.
  - by rewrite Hi.
  - intros k fs Hfs. destruct (Hc k fs Hfs) as (ino & img0 & H1 & H2 & H3).
    exists ino, img0. rewrite Hi. split; [|done]. by apply file_at_set_image.
  - done.
Qed.

Lemma wal_inv_set_file t base closed content synced d :
  wal_inv (set_file t (wt_file t)) base closed content synced d → wal_inv t base closed content synced d.
Proof. by intros [? ? ? ? ? ? ? ? ?]. Qed.

Lemma wp_sync_active fl t base closed content synced d :
  wal_inv t base closed content synced d →
  wp fl (sync_data (af_inode (wt_file t)))
    (λ r d', match r with
             | Ok _ => wal_inv t base closed content content d'
             | Err _ => fl = true ∧ d' = d
             end) d.
Proof.
  intros Hinv. pose proof Hinv as [Hp _ Hidx (img & Hf & Hk & Hh) Hlen _ _ _ Hok].
  apply (wp_sync_data fl _ img); [done|apply Hf|by intros Hfl _|].
  apply wal_inv_set_file. eapply wal_inv_image; [done..| |].
  - by apply kept_promote.
  - apply kept_holds. by apply kept_promote.
Qed.

Lemma wp_write_tail fl t base closed content synced fs d :
  wal_inv t base closed content synced d → frames_ok fs →
  wp fl (write_all_at_tail (wt_file t) (enc fs))
    (λ r d', match r with
             | Ok f => wal_inv (set_file t f) base closed (content ++ fs) synced d' ∧
                       af_inode f = af_inode (wt_file t)
             | Err _ => fl = true ∧ wal_inv t base closed content synced d'
             end) d.
Proof.
  intros Hinv Hfs. pose proof Hinv as [Hp _ Hidx (img & Hf & Hk & Hh) Hlen Hpre _ _ Hok].
  assert (Hle : (length (enc synced) <= length (enc content))%nat)
    by (apply prefix_length, enc_prefix, Hpre).
  assert (Hws : ∀ ws : list (nat * bytes), Forall (λ w, (length (enc content) <= w.1)%nat) ws →
                kept (enc synced) (with_writes img ws)).
  { intros ws Hws. apply kept_writes; [done|]. eapply Forall_impl; [done|]. simpl. lia. }
  apply wp_bind, (wp_write_all fl _ _ _ _ img); [done|apply Hf|done| |].
  - intros Hfl e ws Hw. rewrite Hlen in Hw. split; [done|].
    apply wal_inv_set_file. eapply wal_inv_image; [done..|by apply Hws|by apply holds_writes].
  - intros ws Hw Hc. rewrite Hlen in Hw, Hc. apply wp_ret. split; [|done].
    eapply wal_inv_image; [done|done|done| | | |by apply Hws|].
    + simpl. by rewrite Hlen, enc_app, length_app.
    + by apply prefix_app_r.
    + rewrite app_assoc. by apply Forall_app.
    + rewrite enc_app. by apply Hc.
Qed.

Lemma wp_write_batch fl t base closed content synced fs any d :
  wal_inv t base closed content synced d → frames_ok fs →
  wp fl (write_batch (enc fs) any t)
    (λ r d', ∃ t' o, r = Ok (t', o) ∧ wt_dir t' = wt_dir t ∧
       match o with
       | CommitOk => wal_inv t' base closed (content ++ fs) (if any then content ++ fs else synced) d'
       | CommitFail => fl = true ∧ wal_inv t' base closed content synced d'
       end) d.
Proof.
  intros Hinv Hfs. apply wp_bind, wp_try. eapply wp_mono; [by apply wp_write_tail|].
  intros [f|e] d1; simpl.
  - intros [Hinv1 Hf]. destruct any; [|apply wp_ret; by exists (set_file t f), CommitOk].
    apply wp_bind, wp_try. eapply wp_mono; [apply (wp_sync_active fl _ _ _ _ _ _ Hinv1)|].
    intros [[]|e] d2; simpl; [intros Hinv2; apply wp_ret; by exists (set_file t f), CommitOk|].
    intros [Hfl ->]. apply wp_ret. exists t, CommitFail. split; [done|]. split; [done|]. split; [done|].
    destruct Hinv as [? ? Hidx _ Hlen Hpre Halloc Hc Hok].
    destruct Hinv1 as [Hp1 Hs1 Hidx1 (img & Hfile & Hk & Hh) _ _ Ha1 Hc1 _]. simpl in *. rewrite Hf in *.
    assert (af_idx f = af_idx (wt_file t)) as Hix by lia. rewrite Hix in *.
    split; try done. exists img. split; [done|]. split; [done|].
    rewrite enc_app in Hh. destruct Hh as [k Hk']. exists (enc fs ++ k). by rewrite app_assoc.
  - intros [Hfl Hinv1]. apply wp_ret. by exists t, CommitFail.
Qed.

Lemma wal_name_ne i j : 0 <= i < 10 ^ 16 → 0 <= j < 10 ^ 16 → i ≠ j → wal_name i ≠ wal_name j.
Proof. apply numbered_ne. Qed.

(** A file created beside the writer's files leaves them alone. *)
Lemma wal_inv_spares t base closed content synced d d' :
  0 <= base → base + Z.of_nat (length closed) + 1 < 10 ^ 16 →
  wal_inv t base closed content synced d →
  spares d d' (wt_dir t, wal_name (af_idx (wt_file t) + 1)) →
  wal_inv t base closed content synced d'.
Proof.
  intros Hb Hmax [Hp Hsd Hidx (img & Hf & Hkh) Hlen Hpre Ha Hc Hok] ((Hp' & Hsd') & Hn & Hs).
  assert (Hother : ∀ k, (k <= length closed)%nat →
    (wt_dir t, wal_name (base + Z.of_nat k)) ≠ (wt_dir t, wal_name (af_idx (wt_file t) + 1))).
  { intros k Hk E. apply (f_equal snd) in E. revert E. apply wal_name_ne; lia. }
  split; try done.
  - exists img. split; [|done]. apply Hs; [done| |done|done].
    rewrite Hidx at 1. by apply Hother.
  - lia.
  - intros k fs Hfs. destruct (Hc k fs Hfs) as (ino & img0 & H1 & H2 & H3 & H4). exists ino, img0.
    split; [|split; [done|split; [lia|done]]]. apply Hs; [done| |lia|done]. apply Hother. apply lookup_lt_Some in Hfs. lia.
Qed.

(** Sealing the active file and starting the next. *)
Lemma wal_inv_rotated t base closed content synced d f img :
  0 <= base → base + Z.of_nat (length closed) + 1 < 10 ^ 16 →
  wal_inv t base closed content synced d →
  af_idx f = af_idx (wt_file t) + 1 → af_len f = 0%nat → (af_inode f <= next_inode d)%nat →
  file_at d (wt_dir t, wal_name (af_idx (wt_file t) + 1)) (af_inode f) img →
  wal_inv (set_file t f) base (closed ++ [synced]) [] [] d.
Proof.
  intros Hb Hmax [Hp Hsd Hidx (img0 & Hf & Hk & _) _ Hpre Ha Hc Hok] Hi Hl Hino Hnew.
  assert (Hother : ∀ k ino img1, (k <= length closed)%nat →
    file_at d (wt_dir t, wal_name (base + Z.of_nat k)) ino img1 → ino ≠ af_inode f).
  { intros k ino img1 Hlt Hfile ->.
    pose proof (sd_inj d Hsd _ _ _ (fa_live _ _ _ _ Hfile) (fa_live _ _ _ _ Hnew)) as E.
    apply (f_equal snd) in E. revert E. apply wal_name_ne; lia. }
  split; simpl; try done.
  - rewrite length_app. simpl. lia.
  - exists img. rewrite Hi. split; [done|]. split; [apply kept_nil|apply holds_nil].
  - intros k fs [Hfs|[Hge Hfs]]%lookup_app_Some.
    + destruct (Hc k fs Hfs) as (ino & img1 & H1 & H2 & H3 & H4). exists ino, img1.
      split; [done|]. split; [|done]. eapply Hother; [|done]. apply lookup_lt_Some in Hfs. lia.
    + apply list_lookup_singleton_Some in Hfs as [Hk0 <-]. assert (k = length closed) as -> by lia.
      rewrite <-Hidx. exists (af_inode (wt_file t)), img0. split; [done|]. split; [|done].
      rewrite Hidx in Hf. by eapply Hother.
  - rewrite concat_app, app_nil_r. simpl. rewrite app_nil_r. apply Forall_app in Hok as [Hok1 Hok2].
    apply Forall_app. split; [done|]. destruct Hpre as [k ->]. by apply Forall_app in Hok2 as [? _].
Qed.

(** The frames sure to survive a crash. *)
Definition durable_frames (closed : list (list WalFrame)) (synced : list WalFrame) : list WalFrame :=
  concat closed ++ synced.

Lemma wp_rotate fl t base closed content synced n d :
  0 <= base → base + Z.of_nat (length closed) + 1 < 10 ^ 16 →
  wal_inv t base closed content synced d →
  wp fl (rotate n t)
    (λ r d', match r with
             | Ok (Some t') => wt_dir t' = wt_dir t ∧
                 ∃ closed' content' synced', wal_inv t' base closed' content' synced' d' ∧
                 (length closed' <= S (length closed))%nat ∧
                 sublist (durable_frames closed synced) (durable_frames closed' synced')
             | Ok None => ∃ synced', wal_inv t base closed content synced' d' ∧
                 sublist (durable_frames closed synced) (durable_frames closed synced')
             | Err _ => False
             end) d.
Proof.
  intros Hb Hmax Hinv. unfold rotate. case_match; cycle 1.
  { apply wp_ret. split; [done|]. exists closed, content, synced. split; [done|]. split; [lia|done]. }
  apply wp_bind, wp_try. eapply wp_mono; [apply (wp_sync_active fl _ _ _ _ _ _ Hinv)|]. intros r d1 Hr.
  assert (∃ synced1, wal_inv t base closed content synced1 d1 ∧
            sublist (durable_frames closed synced) (durable_frames closed synced1)) as (synced1 & Hinv1 & Hsub).
  { destruct r as [[]|e]; [|destruct Hr as [_ ->]; by exists synced].
    exists content. split; [done|]. apply sublist_app; [done|].
    apply prefix_sublist, (wi_synced _ _ _ _ _ _ Hinv). }
  apply wp_bind, wp_try. pose proof (wi_powered _ _ _ _ _ _ Hinv1). pose proof (wi_sound _ _ _ _ _ _ Hinv1).
  eapply wp_mono; [by apply wp_active_create|]. intros [f|e] d2 [Hs Hf].
  all: assert (Hinv2 := wal_inv_spares _ _ _ _ _ _ _ Hb Hmax Hinv1 Hs).
  - destruct Hf as (-> & Hn & img & Hf). apply wp_ret. split; [done|].
    exists (closed ++ [synced1]), [], [].
    split; [by eapply wal_inv_rotated|].
    split; [rewrite length_app; simpl; lia|].
    unfold durable_frames in *. rewrite concat_app, app_nil_r. simpl. by rewrite app_nil_r.
  - apply wp_ret. by exists synced1.
Qed.

(** One batch: what was sure to survive still is, and so is a batch committed
    under a sync. *)
Lemma wp_commit_batch fl t base closed content synced pending any d :
  0 <= base → base + Z.of_nat (length closed) + 1 < 10 ^ 16 →
  wal_inv t base closed content synced d → frames_ok (batch_frames pending) →
  wp fl (commit_batch crc pending any t)
    (λ r d', ∃ t' o closed' content' synced',
       r = Ok (t', o) ∧ wt_dir t' = wt_dir t ∧ wal_inv t' base closed' content' synced' d' ∧
       (length closed' <= S (length closed))%nat ∧
       sublist (durable_frames closed synced ++
                  match o with CommitOk => if any then batch_frames pending else [] | CommitFail => [] end)
         (durable_frames closed' synced')) d.
Proof.
  intros Hb Hmax Hinv Hok. unfold commit_batch.
  assert (Hsame : sublist (durable_frames closed synced ++ []) (durable_frames closed synced))
    by (by rewrite app_nil_r).
  destruct pending as [|s pending].
  { simpl. apply wp_ret. exists t, CommitOk, closed, content, synced. split; [done|]. split; [done|].
    split; [done|]. split; [lia|]. by destruct any. }
  simpl length. cbn [Nat.eqb]. destruct (wt_read_only t).
  { apply wp_ret. exists t, CommitFail, closed, content, synced. split; [done|]. split; [done|].
    split; [done|]. split; [lia|done]. }
  apply wp_bind. eapply wp_mono; [by apply wp_rotate|]. intros [[t1|]|e] d1; [| |done].
  - intros (<- & closed1 & content1 & synced1 & Hinv1 & Hlen & Hsub).
    eapply wp_mono; [by apply wp_write_batch|]. intros r d2 (t2 & o & -> & Hdir & Ho).
    destruct o; [|destruct Ho as [_ Ho]].
    + exists t2, CommitOk, closed1, (content1 ++ batch_frames (s :: pending)).
      exists (if any then content1 ++ batch_frames (s :: pending) else synced1).
      split; [done|]. split; [done|]. split; [done|]. split; [done|].
      destruct any; [|by rewrite app_nil_r]. etrans; [apply sublist_app; [exact Hsub|done]|].
      unfold durable_frames. rewrite <-app_assoc. apply sublist_app; [done|].
      apply sublist_app; [apply prefix_sublist, (wi_synced _ _ _ _ _ _ Hinv1)|done].
    + exists t2, CommitFail, closed1, content1, synced1. split; [done|]. split; [done|].
      split; [done|]. split; [done|]. by rewrite app_nil_r.
  - intros (synced1 & Hinv1 & Hsub). apply wp_ret.
    exists (latch_read_only t), CommitFail, closed, content, synced1.
    split; [done|]. split; [done|]. split; [by destruct Hinv1|]. split; [lia|]. by rewrite app_nil_r.
Qed.

(** The frames of the batches signalled as committed under a sync. *)
Fixpoint acked_frames (batches : list (list Submission * bool)) (outs : list CommitOutcome) :
    list WalFrame :=
  match batches, outs with
  | b :: batches, o :: outs =>
      match o with CommitOk => if batch_durable b then batch_frames b.1 else [] | CommitFail => [] end
      ++ acked_frames batches outs
  | _, _ => []
  end.

Lemma wp_run_batches fl batches t base closed content synced d :
  0 <= base → base + Z.of_nat (length closed) + Z.of_nat (length batches) < 10 ^ 16 →
  wal_inv t base closed content synced d → Forall (λ b, frames_ok (batch_frames b.1)) batches →
  wp fl (run_batches crc batches t)
    (λ r d', ∃ t' outs closed' content' synced',
       r = Ok (t', outs) ∧ wt_dir t' = wt_dir t ∧ wal_inv t' base closed' content' synced' d' ∧
       base + Z.of_nat (length closed') < 10 ^ 16 ∧ length outs = length batches ∧
       sublist (durable_frames closed synced ++ acked_frames batches outs)
         (durable_frames closed' synced')) d.
Proof.
  revert t closed content synced d. induction batches as [|b batches IH];
    intros t closed content synced d Hb Hmax Hinv Hok; cbn [run_batches].
  { apply wp_ret. exists t, [], closed, content, synced. simpl in *. rewrite app_nil_r.
    split_and!; try done. lia. }
  apply Forall_cons in Hok as [Hok1 Hok]. apply wp_bind. eapply wp_mono.
  { apply (wp_commit_batch fl t base closed content synced); [done|simpl in Hmax; lia|done|done]. }
  intros r d1 (t1 & o & closed1 & content1 & synced1 & -> & <- & Hinv1 & Hlen & Hsub). simpl.
  apply wp_bind. eapply wp_mono; [apply (IH t1 closed1 content1 synced1); [done|simpl in Hmax; lia|done|done]|].
  intros r d2 (t2 & outs & closed2 & content2 & synced2 & -> & <- & Hinv2 & Hmax2 & Hlen2 & Hsub2).
  apply wp_ret. exists t2, (o :: outs), closed2, content2, synced2.
  split; [done|]. split; [done|]. split; [done|]. split; [done|]. split; [simpl; lia|].
  etrans; [|exact Hsub2]. simpl. rewrite app_assoc. by apply sublist_app.
Qed.

(** ** Files at rest *)

(** The files of a WAL on a disk: the sealed ones from index [base] and the last
    one, which may be missing when it holds nothing yet. *)
Definition rests_at (d : DiskState) (path : Path) (fs : list WalFrame) : Prop :=
  ∃ ino img, file_at d path ino img ∧ kept (enc fs) img.

Record wal_on_disk (d : DiskState) (dir : string) (base : Z) (closed : list (list WalFrame))
    (synced : list WalFrame) : Prop := {
  od_powered : powered d;
  od_sound : sound d;
  od_last : synced = [] ∨ rests_at d (dir, wal_name (base + Z.of_nat (length closed))) synced;
  od_closed : ∀ k fs, closed !! k = Some fs → rests_at d (dir, wal_name (base + Z.of_nat k)) fs;
  od_ok : frames_ok (durable_frames closed synced)
}.

Lemma wal_inv_on_disk t base closed content synced d :
  wal_inv t base closed content synced d → wal_on_disk d (wt_dir t) base closed synced.
Proof.
  intros [Hp Hsd Hidx (img & Hf & Hk & _) _ [rest Hpre] _ Hc Hok]. split; [done|done| | |].
  - right. rewrite <-Hidx. by exists (af_inode (wt_file t)), img.
  - intros k fs Hfs. destruct (Hc k fs Hfs) as (ino & img0 & H1 & _ & _ & H2). by exists ino, img0.
  - subst content. unfold durable_frames, frames_ok in *. rewrite app_assoc in Hok.
    by apply Forall_app in Hok as [? _].
Qed.

Lemma wal_on_disk_spares d d' dir base closed synced :
  0 <= base → base + Z.of_nat (length closed) < 10 ^ 16 →
  wal_on_disk d dir base closed synced → synced = [] →
  spares d d' (dir, wal_name (base + Z.of_nat (length closed))) →
  wal_on_disk d' dir base closed synced.
Proof.
  intros Hb Hmax [Hp Hsd _ Hc Hok] -> ((Hp' & Hsd') & Hn & Hs). split; [done|done|by left| |done].
  intros k fs Hfs. destruct (Hc k fs Hfs) as (ino & img & Hf & Hk). exists ino, img. split; [|done].
  apply lookup_lt_Some in Hfs. apply Hs; [done| |by apply (sd_live d Hsd _ _ (fa_live _ _ _ _ Hf))|done].
  intros E. apply (f_equal snd) in E. revert E. apply wal_name_ne; lia.
Qed.

(** Touching the last file only. *)
Lemma wal_on_disk_image d dir base closed synced ino img' :
  0 <= base → base + Z.of_nat (length closed) < 10 ^ 16 →
  wal_on_disk d dir base closed synced →
  live_dir d !! (dir, wal_name (base + Z.of_nat (length closed))) = Some ino →
  kept (enc synced) img' →
  wal_on_disk (set_image d ino img') dir base closed synced.
Proof.
  intros Hb Hmax [Hp Hsd Hl Hc Hok] Hlive Hk. split; [done|by apply sound_set_image| | |done].
  - destruct Hl as [->|(ino' & img1 & Hf & _)]; [by left|right].
    pose proof (fa_live _ _ _ _ Hf) as E. rewrite Hlive in E. simplify_eq.
    exists ino', img'. split; [by eapply file_at_update|done].
  - intros k fs Hfs. destruct (Hc k fs Hfs) as (ino' & img1 & Hf & Hk1). exists ino', img1.
    split; [|done]. apply file_at_set_image; [done|]. intros ->.
    pose proof (sd_inj d Hsd _ _ _ (fa_live _ _ _ _ Hf) Hlive) as E. apply (f_equal snd) in E.
    apply lookup_lt_Some in Hfs. revert E. apply wal_name_ne; lia.
Qed.

Lemma wal_on_disk_sync_dir d dir base closed synced :
  wal_on_disk d dir base closed synced →
  wal_on_disk (mkDisk (live_dir d) (synced_names dir (live_dir d) (durable_dir d)) (inodes d) (dirs d)
                 (next_inode d) (lying_fsync d) (frozen d) (seed d)) dir base closed synced.
Proof.
  intros [Hp Hsd Hl Hc Hok].
  assert (Hrest : ∀ n fs, rests_at d (dir, n) fs → rests_at (mkDisk (live_dir d)
    (synced_names dir (live_dir d) (durable_dir d)) (inodes d) (dirs d)
    (next_inode d) (lying_fsync d) (frozen d) (seed d)) (dir, n) fs).
  { intros n fs (ino & img & [H1 H2 H3] & Hk). exists ino, img. split; [|done].
    split; simpl; [done|by rewrite synced_names_lookup|done]. }
  split; [done|by apply sound_sync_dir| |eauto|done]. destruct Hl as [->|Hl]; [by left|right; auto].
Qed.

(** The part of [open_for_append] after the open: the file and its name become
    durable. *)
Lemma wp_harden fl dir base closed synced cap d ino img :
  0 <= base → base + Z.of_nat (length closed) < 10 ^ 16 →
  wal_on_disk d dir base closed synced →
  live_dir d !! (dir, wal_name (base + Z.of_nat (length closed))) = Some ino →
  inodes d !! ino = Some img → kept (enc synced) img →
  let idx := base + Z.of_nat (length closed) in
  let want := Nat.max cap (length (enc synced)) in
  wp fl (n ← metadata_len ino;
         _ ← (if (n <? want)%nat then set_len ino want else mret tt);
         _ ← sync_all ino;
         _ ← sync_dir dir;
         mret (mkActive ino idx (length (enc synced)) want))
    (λ r d', wal_on_disk d' dir base closed synced ∧
       match r with
       | Ok f => ∀ size, wal_inv (mkTask dir size f false idx (length (enc synced))) base closed synced synced d'
       | Err _ => True
       end) d.
Proof.
  intros Hb Hmax Hod Hlive Hi Hk idx want. set (path := (dir, wal_name idx)).
  apply wp_bind, wp_bind, (wp_image_of fl ino img), wp_ret; [done|].
  apply wp_bind. eapply (wp_mono _ _ (λ r d1, wal_on_disk d1 dir base closed synced ∧
    match r with
    | Ok _ => ∃ img1, live_dir d1 !! path = Some ino ∧ inodes d1 !! ino = Some img1 ∧ kept (enc synced) img1
    | Err _ => True
    end)).
  { pose proof (od_powered _ _ _ _ _ Hod). case_match; [|apply wp_ret; eauto].
    set (img1 := mkImage (im_durable img) (filter (λ w, (w.1 < want)%nat) (im_pending img)) (Some want)).
    assert (Hk1 : kept (enc synced) img1).
    { destruct Hk as [H1 H2 H3]. split; simpl; [done| |intros t [= <-]; lia].
      apply Forall_forall. intros w [_ Hw]%list_elem_of_filter. by apply (proj1 (Forall_forall _ _) H2). }
    apply (wp_set_len fl ino want img); [done|done|done|]. fold img1.
    split; [by eapply wal_on_disk_image|]. exists img1. split; [done|]. split; [apply lookup_insert_eq|done]. }
  intros [[]|e] d1; [|by intros [? _]]. intros (Hod1 & img1 & Hl1 & Hi1 & Hk1).
  pose proof (od_powered _ _ _ _ _ Hod1) as Hp1.
  apply wp_bind, (wp_sync_data fl ino img1); [done|done|done|].
  assert (Hk2 : kept (enc synced) (promote img1)) by (by apply kept_promote, kept_holds).
  assert (Hod2 := wal_on_disk_image _ _ _ _ _ ino (promote img1) Hb Hmax Hod1 Hl1 Hk2).
  apply wp_bind, wp_sync_dir; [done|done|]. apply wal_on_disk_sync_dir in Hod2 as Hod3.
  apply wp_ret. split; [done|]. intros size. destruct Hod3 as [Hp3 Hs3 _ Hc3 Hok3].
  assert (Hf : file_at (mkDisk (live_dir d1)
     (synced_names dir (live_dir d1) (durable_dir d1)) (<[ino := promote img1]> (inodes d1)) (dirs d1)
     (next_inode d1) (lying_fsync d1) (frozen d1) (seed d1)) path ino (promote img1)).
  { split; simpl; [done|by rewrite synced_names_lookup|apply lookup_insert_eq]. }
  split; simpl; try done.
  - exists (promote img1). split; [done|]. split; [done|by apply kept_holds].
  - apply (sd_live _ Hs3 _ _ (fa_live _ _ _ _ Hf)).
  - intros k fs Hfs. destruct (Hc3 k fs Hfs) as (ino' & img' & Hf' & Hk'). exists ino', img'.
    split; [done|]. split; [|split; [apply (sd_live _ Hs3 _ _ (fa_live _ _ _ _ Hf'))|done]].
    intros ->. pose proof (sd_inj _ Hs3 _ _ _ (fa_live _ _ _ _ Hf') (fa_live _ _ _ _ Hf)) as E.
    apply (f_equal snd) in E. apply lookup_lt_Some in Hfs. revert E. apply wal_name_ne; lia.
Qed.

Lemma wp_open_for_append fl dir base closed synced cap d :
  0 <= base → base + Z.of_nat (length closed) < 10 ^ 16 →
  wal_on_disk d dir base closed synced →
  let idx := base + Z.of_nat (length closed) in
  wp fl (open_for_append dir idx cap (length (enc synced)))
    (λ r d', wal_on_disk d' dir base closed synced ∧
       match r with
       | Ok f => ∀ size, wal_inv (mkTask dir size f false idx (length (enc synced))) base closed synced synced d'
       | Err _ => True
       end) d.
Proof.
  intros Hb Hmax Hod idx. pose proof Hod as [Hp Hsd Hlast _ _]. unfold open_for_append. apply wp_bind.
  destruct (live_dir d !! (dir, wal_name idx)) as [ino|] eqn:Hlive.
  - apply (wp_open_existing fl _ _ ino); [done|done|done|].
    destruct (sd_live d Hsd _ _ Hlive) as [[img Hi] _]. eapply wp_harden; [done..|].
    destruct Hlast as [->|(ino' & img' & Hf & Hk)]; [apply kept_nil|].
    pose proof (fa_live _ _ _ _ Hf) as E. unfold idx in Hlive. rewrite Hlive in E. simplify_eq.
    pose proof (fa_image _ _ _ _ Hf) as E. rewrite Hi in E. by simplify_eq.
  - assert (synced = []) as ->.
    { destruct Hlast as [?|(ino' & img' & Hf & Hk)]; [done|].
      pose proof (fa_live _ _ _ _ Hf) as E. unfold idx in Hlive. by rewrite Hlive in E. }
    apply wp_open_fresh; [done|done|by right|done|].
    assert (Hs := spares_new_file d (dir, wal_name idx) Hp Hsd).
    assert (Hod1 := wal_on_disk_spares _ _ _ _ _ _ Hb Hmax Hod eq_refl Hs).
    eapply wp_harden; [done|done|done|apply lookup_insert_eq|apply lookup_insert_eq|apply kept_nil].
Qed.

(** ** Reading back *)
Lemma wal_read_prefix fs tail :
  (∀ x, is_u64 (crc x)) → frames_ok fs → fs `prefix_of` (wal_read crc (enc fs ++ tail)).1.
Proof.
  intros Hcrc Hfs. unfold wal_read.
  assert (Hgo : ∀ fuel pre, (length fs <= fuel)%nat →
    fs `prefix_of` (read_frames crc fuel (pre ++ enc fs ++ tail) (length pre)).1).
  { induction Hfs as [|[r d] fs Hr _ IH]; intros fuel pre Hfuel; [apply prefix_nil|].
    destruct fuel as [|fuel]; [simpl in Hfuel; lia|]. cbn [read_frames].
    rewrite encode_all_cons, <-app_assoc, drop_app_length. cbn [wf_record wf_durable] in *.
    rewrite decode_encode_frame by done.
    rewrite (app_assoc pre), <-length_app.
    specialize (IH fuel (pre ++ encode_frame crc r d) ltac:(simpl in Hfuel; lia)).
    destruct (read_frames crc fuel _ _) as [frames valid]. by apply prefix_cons. }
  apply (Hgo _ []). rewrite length_app. clear -Hfs. induction Hfs as [|[r d] fs _ _ IH]; [simpl; lia|].
  rewrite encode_all_cons, length_app, length_encode_frame. simpl length. lia.
Qed.

(** The frames of a file of the disk. *)
Definition frames_at (d : DiskState) (path : Path) : list WalFrame :=
  match live_dir d !! path ≫= (λ ino, inodes d !! ino) with
  | Some img => (wal_read crc (visible_bytes img)).1
  | None => []
  end.

Lemma wp_read_wal_files dir files d :
  (∀ f, f ∈ files → ∃ ino img, live_dir d !! (dir, f.2) = Some ino ∧ inodes d !! ino = Some img) →
  wp false (read_wal_files crc dir files)
    (λ r d', d' = d ∧ r = Ok (concat ((λ f, frames_at d (dir, f.2)) <$> files))) d.
Proof.
  induction files as [|f files IH]; intros Hf; [by apply wp_ret|]. cbn [read_wal_files].
  destruct (Hf f (list_elem_of_here _ _)) as (ino & img & Hl & Hi).
  apply wp_bind, wp_bind, (wp_open_existing false _ _ ino); [done|done|done|].
  apply wp_bind, (wp_read_to_end false ino img); [done|done|]. apply wp_ret, wp_bind.
  eapply wp_mono; [apply IH; intros x Hx; apply Hf; by apply list_elem_of_further|].
  intros r d' [-> ->]. apply wp_ret. split; [done|]. simpl. unfold frames_at at 2. rewrite Hl. simpl.
  by rewrite Hi.
Qed.

Lemma sublist_concat_prefixes {A} (L1 L2 : list (list A)) :
  Forall2 prefix L1 L2 → sublist (concat L1) (concat L2).
Proof.
  induction 1 as [|l1 l2 L1 L2 Hl _ IH]; [done|]. simpl. apply sublist_app; [by apply prefix_sublist|done].
Qed.

Lemma sublist_concat_map {A B} (f : A → list B) (l1 l2 : list A) :
  sublist l1 l2 → sublist (concat (f <$> l1)) (concat (f <$> l2)).
Proof.
  induction 1 as [|x l1 l2 _ IH|x l1 l2 _ IH]; simpl; [done|by apply sublist_app|].
  by apply sublist_inserts_l.
Qed.

(** The files that survive, as entries of the directory. *)
Definition entries (base : Z) (n : nat) : list (Z * string) :=
  (λ k, (base + Z.of_nat k, wal_name (base + Z.of_nat k))) <$> seq 0 n.

Lemma entries_sorted base n : StronglySorted (λ a b, a.1 < b.1) (entries base n).
Proof.
  unfold entries. generalize 0%nat. induction n as [|n IH]; intros i; simpl; [constructor|].
  constructor; [apply IH|]. apply Forall_forall. intros x Hx.
  apply list_elem_of_fmap in Hx as (k & -> & Hk%elem_of_seq). simpl. lia.
Qed.

(** What a crashed disk is read back as. *)
Lemma read_crashed dir damage d :
  sound d →
  let d' := reset_power (crash damage d) in
  (read_wal crc dir (mkWorld d' [])).2 =
    Ok (concat ((λ f, frames_at d' (dir, f.2)) <$> wal_files (names_in dir (live_dir d')))).
Proof.
  intros Hsd d'.
  assert (Hwp : wp false (read_wal crc dir)
    (λ r d1, d1 = d' ∧ r = Ok (concat ((λ f, frames_at d' (dir, f.2)) <$>
                                        wal_files (names_in dir (live_dir d'))))) d').
  { apply wp_bind, wp_bind, wp_get, wp_ret, wp_read_wal_files. intros [idx n] Hf.
    apply elem_of_numbered_files in Hf as [[ino Hino]%elem_of_names_in _].
    destruct (crash_backed damage d (dir, n) ino Hsd Hino) as [img Hi]. eauto. }
  by destruct (Hwp [] ltac:(by intros _)) as (_ & _ & ->).
Qed.

Lemma rests_after_crash dir n fs damage d :
  (∀ x, is_u64 (crc x)) → frames_ok fs → rests_at d (dir, n) fs →
  let d' := reset_power (crash damage d) in
  n ∈ names_in dir (live_dir d') ∧ fs `prefix_of` frames_at d' (dir, n).
Proof.
  intros Hcrc Hfs (ino & img & [_ Hd Hi] & Hk) d'.
  destruct (crash_lookup damage d _ _ _ Hd Hi) as [Hl [sd Hs]].
  split; [apply elem_of_names_in; by exists ino|]. unfold frames_at.
  change (live_dir d') with (live_dir (crash damage d)).
  change (inodes d') with (inodes (crash damage d)). rewrite Hl. simpl. rewrite Hs.
  destruct (kept_crash _ damage _ sd Hk) as [tail ->]. by apply wal_read_prefix.
Qed.

(** Files that rest on a disk are read back after a crash, in index order. *)
Lemma read_rested dir base (all : list (list WalFrame)) damage d :
  (∀ x, is_u64 (crc x)) → Forall frames_ok all → 0 <= base → base + Z.of_nat (length all) <= 10 ^ 16 →
  sound d → (∀ k fs, all !! k = Some fs → rests_at d (dir, wal_name (base + Z.of_nat k)) fs) →
  ∃ fs, (read_wal crc dir (mkWorld (reset_power (crash damage d)) [])).2 = Ok fs ∧
        sublist (concat all) fs.
Proof.
  intros Hcrc Hok Hb Hmax Hsd Hrest. rewrite read_crashed by done. eexists. split; [done|].
  set (d' := reset_power (crash damage d)).
  assert (Hall : ∀ k fs, all !! k = Some fs →
    wal_name (base + Z.of_nat k) ∈ names_in dir (live_dir d') ∧
    fs `prefix_of` frames_at d' (dir, wal_name (base + Z.of_nat k))).
  { intros k fs Hk. apply rests_after_crash; [done| |by apply Hrest].
    by apply (Forall_lookup_1 _ _ _ _ Hok Hk). }
  trans (concat ((λ f, frames_at d' (dir, f.2)) <$> entries base (length all))).
  - apply sublist_concat_prefixes, Forall2_lookup. intros k. unfold entries.
    rewrite <-list_fmap_compose, list_lookup_fmap.
    destruct (all !! k) as [fs|] eqn:E.
    + assert (k < length all)%nat by (by eapply lookup_lt_Some). rewrite lookup_seq_lt by done. simpl.
      constructor. by apply Hall.
    + apply lookup_ge_None in E. rewrite lookup_seq_ge by done. constructor.
  - apply sublist_concat_map, ascending_sublist; [apply (StronglySorted_merge_sort idx_le)|apply entries_sorted|].
    intros x Hx. unfold entries in Hx. apply list_elem_of_fmap in Hx as (k & -> & [_ Hk]%elem_of_seq).
    destruct (lookup_lt_is_Some_2 all k) as [fs Hfs]; [lia|]. apply elem_of_numbered_files.
    split; [by eapply Hall|]. apply parse_numbered_of. lia.
Qed.

Lemma read_after_crash dir base closed synced damage d :
  (∀ x, is_u64 (crc x)) → 0 <= base → base + Z.of_nat (length closed) < 10 ^ 16 →
  wal_on_disk d dir base closed synced →
  ∃ fs, (read_wal crc dir (mkWorld (reset_power (crash damage d)) [])).2 = Ok fs ∧
        sublist (durable_frames closed synced) fs.
Proof.
  intros Hcrc Hb Hmax [Hp Hsd Hlast Hc Hok]. unfold durable_frames, frames_ok in *.
  rewrite Forall_app, Forall_concat in Hok. destruct Hok as [Hok1 Hok2].
  destruct (decide (synced = [])) as [->|Hne].
  - rewrite app_nil_r. apply (read_rested dir base closed); try done. lia.
  - destruct (read_rested dir base (closed ++ [synced]) damage d) as (fs & Hr & Hs); try done.
    + apply Forall_app. split; [done|]. by constructor.
    + rewrite length_app. simpl. lia.
    + intros k fs [Hk|[Hk1 Hk2]]%lookup_app_Some; [eauto|].
      apply list_lookup_singleton_Some in Hk2 as [? <-]. assert (k = length closed) as -> by lia.
      by destruct Hlast.
    + exists fs. split; [done|]. by rewrite concat_app in Hs; simpl in Hs; rewrite app_nil_r in Hs.
Qed.
End durable.

Section theorems.
Context (crc : bytes → Z).

Lemma wp_wal_open fl dir size base closed synced d :
  wal_on_disk crc d dir base closed synced → 0 <= base → base + Z.of_nat (length closed) < 10 ^ 16 →
  wp fl (wal_open dir size (base + Z.of_nat (length closed)) (length (encode_all crc synced)))
    (λ r d', wal_on_disk crc d' dir base closed synced ∧
       match r with
       | Ok t => wt_dir t = dir ∧ wal_inv crc t base closed synced synced d'
       | Err _ => True
       end) d.
Proof.
  intros Hod Hb Hmax. apply wp_bind, wp_create_dir_all; [done|].
  set (d1 := mkDisk _ _ _ _ _ _ _ _).
  assert (Hod1 : wal_on_disk crc d1 dir base closed synced).
  { destruct Hod as [Hp [H1 H2 H3] Hl Hc Hk]. split; [done|by split| | |done].
    - destruct Hl as [?|(ino & img & [F1 F2 F3] & Hkk)]; [by left|right]. exists ino, img. by split; [split|].
    - intros k fs Hfs. destruct (Hc k fs Hfs) as (ino & img & [F1 F2 F3] & Hkk). exists ino, img.
      by split; [split|]. }
  apply wp_bind. eapply wp_mono; [apply wp_open_for_append; [done|lia|exact Hod1]|].
  intros [f|e] d2 [Hod2 Hinv]; [|done]. apply wp_ret. split; [done|]. split; [done|]. apply Hinv.
Qed.

Lemma wp_wal_session fl dir size base closed synced batches d :
  wal_on_disk crc d dir base closed synced → Forall (λ b, frames_ok (batch_frames b.1)) batches →
  0 <= base → base + Z.of_nat (length closed + length batches) < 10 ^ 16 →
  wp fl (wal_session crc dir size (base + Z.of_nat (length closed))
           (length (encode_all crc synced)) batches)
    (λ r d', ∃ closed' synced', wal_on_disk crc d' dir base closed' synced' ∧
       base + Z.of_nat (length closed') < 10 ^ 16 ∧
       sublist (durable_frames closed synced ++
                acked_frames batches (match r with Ok outs => outs | Err _ => [] end))
         (durable_frames closed' synced')) d.
Proof.
  intros Hod Hok Hb Hmax. apply wp_bind. eapply wp_mono; [apply wp_wal_open; [done|done|lia]|].
  intros [t|e] d2 [Hod2 Hinv]; cycle 1.
  { exists closed, synced. split; [done|]. split; [lia|]. destruct batches; simpl; by rewrite app_nil_r. }
  destruct Hinv as [Hdir Hinv]. apply wp_bind. eapply wp_mono.
  { apply (wp_run_batches crc fl batches _ base closed synced synced); [done|lia|apply Hinv|done]. }
  intros r d3 (t' & outs & closed' & content' & synced' & -> & Hdir' & Hinv3 & Hmax3 & _ & Hsub).
  apply wp_ret. exists closed', synced'. split; [|done]. apply wal_inv_on_disk in Hinv3. congruence.
Qed.

(**  Durability of the WAL: start from any directory whose log is on disk, open
    it for append, commit any batches, let any of the calls to the file system
    fail (a run whose calls all fail from some point on is one cut there), lose
    the power with any damage to what was not synced, and read the files back as
    recovery does.  Recovery succeeds, and what was durable before the session
    followed by the frames of every batch that was acknowledged under a sync is
    there, in order and each frame once for each time it was committed. *)
Theorem wal_acked_survive dir size base closed synced batches d faults damage :
  (∀ x, is_u64 (crc x)) →
  wal_on_disk crc d dir base closed synced → Forall (λ b, frames_ok (batch_frames b.1)) batches →
  0 <= base → base + Z.of_nat (length closed + length batches) < 10 ^ 16 →
  let '(w, r) := wal_session crc dir size (base + Z.of_nat (length closed))
                   (length (encode_all crc synced)) batches (mkWorld d faults) in
  let outs := match r with Ok outs => outs | Err _ => [] end in
  ∃ fs, (read_wal crc dir (mkWorld (reset_power (crash damage (w_disk w))) [])).2 = Ok fs ∧
        sublist (concat closed ++ synced ++ acked_frames batches outs) fs.
Proof.
  intros Hcrc Hod Hok Hb Hmax.
  destruct (wp_wal_session true dir size base closed synced batches d Hod Hok Hb Hmax faults)
    as [_ (closed' & synced' & Hod' & Hmax' & Hsub)]; [done|].
  destruct (wal_session _ _ _ _ _ _ _) as [w r]. simpl in *.
  destruct (read_after_crash crc dir base closed' synced' damage (w_disk w) Hcrc Hb Hmax' Hod')
    as (fs & Hr & Hfs).
  exists fs. split; [done|]. etrans; [|exact Hfs]. by rewrite app_assoc.
Qed.
End theorems.

Module WalWriterSamples.
Import WalSamples WalRecord Byte.
Definition put (topic seq : Z) (b : byte) : WalRecord.t := Append topic seq 0 None None [b].
Definition durable_put (topic seq : Z) (b : byte) : Submission := mkSub [put topic seq b] true.
Definition sample_batches : list (list Submission * bool) :=
  [([durable_put 1 1 x01], false); ([mkSub [put 1 2 x02] false; durable_put 2 1 x03], false);
   ([durable_put 1 3 x04], false)].

Lemma fresh_on_disk : wal_on_disk sum_crc (disk_new 7) "wal" 1 [] [].
Proof. split; [done| |by left|done|constructor]. by split. Qed.

Lemma sample_batches_ok : Forall (λ b, frames_ok (batch_frames b.1)) sample_batches.
Proof. unfold frames_ok. repeat constructor; done. Qed.

(** The sync of the second batch fails; the power is lost after the third. *)
Definition sample_faults : list (option FaultKind) :=
  replicate 8 None ++ [Some Eio].

(** The hypotheses of [wal_acked_survive] hold of a fresh disk, and the first and
    the third batch are acknowledged there. *)
Lemma wal_acked_survive_witness :
  let '(w, r) := wal_session sum_crc "wal" 400 1 0 sample_batches (mkWorld (disk_new 7) sample_faults) in
  r = Ok [CommitOk; CommitFail; CommitOk] ∧
  ∃ fs, (read_wal sum_crc "wal" (mkWorld (reset_power (crash Garble (w_disk w))) [])).2 = Ok fs ∧
        sublist (batch_frames [durable_put 1 1 x01] ++ batch_frames [durable_put 1 3 x04]) fs.
Proof.
  pose proof (wal_acked_survive sum_crc "wal" 400 1 [] [] sample_batches (disk_new 7) sample_faults Garble
    sum_crc_u64 fresh_on_disk sample_batches_ok ltac:(lia) ltac:(simpl; lia)) as H.
  change (1 + Z.of_nat (length (@nil (list WalFrame)))) with 1 in H.
  change (length (encode_all sum_crc [])) with 0%nat in H.
  destruct (wal_session sum_crc "wal" 400 1 0 sample_batches (mkWorld (disk_new 7) sample_faults))
    as [w r] eqn:E.
  assert (r = Ok [CommitOk; CommitFail; CommitOk]) as ->; [|by split].
  apply (f_equal snd) in E. vm_compute in E. by rewrite <-E.
Defined.

(**  A batch that was reported as failed can come back: the sync of a batch of two
    frames fails and its bytes stay in the file past the rewound tail; the next
    batch is one frame as long as the first of them, and its sync makes both it
    and the second frame of the failed batch durable, which recovery reads on. *)
Example failed_batch_resurfaces :
  let '(w, r) := wal_session sum_crc "wal" 400 1 0
    [([durable_put 1 1 x01; durable_put 1 2 x02], false); ([durable_put 2 1 x03], false)]
    (mkWorld (disk_new 7) (replicate 6 None ++ [Some Eio])) in
  r = Ok [CommitFail; CommitOk] ∧
  (read_wal sum_crc "wal" (mkWorld (reset_power (crash NoDamage (w_disk w))) [])).2 =
    Ok (batch_frames [durable_put 2 1 x03; durable_put 1 2 x02]).
Proof. vm_compute. by split. Qed.
End WalWriterSamples.
