(* ===== verification/WalQueue.v ===== *)
(** * The submission channel of the WAL

    Models how the callers of [WalWriter::submit_batch] and the writer thread
    ([WriterTask::run]) of [src/storage/wal.rs] meet: the bounded channel, the
    in-flight gauge [queued] that doubles as the shutdown handshake, the gathering
    of a group commit ([drain_ready], [coalesce_durable]), the final drain
    ([drain_and_commit_remaining]) and the tokens the callers wait on.

    A caller and the thread take one atomic action per step (a receive and the drop of
    the gauge that follows it are two) and every interleaving is a run.  The gauge and the flag are accessed under sequential
    consistency, as the fences of the source arrange.  The clock is the argument
    [late] of the thread's step: whether a deadline has passed.  Commits run
    [commit_batch] of [WalWriter] on the disk, with the faults of its world. *)

From stdpp Require Import base list strings relations.
From S2P Require Import Prelude Bytes Wal Disk WalWriter.

(** ** States *)

(** The errors of [submit_batch]. *)
Inductive SubmitError := WriterGone | Full.

(** Where a caller of [submit_batch] is: before the call, after the bump of the
    gauge, past the shutdown check, refused but with the bump still in place,
    returned with an error, or holding a token ([CommitState]; [None] is
    [Pending]). *)
Inductive Caller :=
| CIdle
| CBumped
| CChecked
| CRefused (e : SubmitError)
| CError (e : SubmitError)
| CToken (outcome : option CommitOutcome).

(** Where the thread is: at the head of its loop, at its receive, in [drain_ready]
    of a batch, in the two halves of the loop of [coalesce_durable], before [commit_batch], in the
    passes of [drain_and_commit_remaining], before the last sync, gone, and, with a
    submission received, before the drop of the gauge that goes with it. *)
Inductive WriterPhase :=
| WTop
| WRecv
| WReady (pending : list nat) (any_durable : bool)
| WGather (pending : list nat) (any_durable : bool)
| WSlice (pending : list nat) (any_durable : bool)
| WCommit (pending : list nat) (any_durable : bool)
| WDrain (pending : list nat)
| WForce (pending : list nat)
| WCheck
| WFlush
| WStopped
| WTook (next : WriterPhase).

Fixpoint phase_pending (ph : WriterPhase) : list nat :=
  match ph with
  | WReady p _ | WGather p _ | WSlice p _ | WCommit p _ | WDrain p | WForce p => p
  | WTook ph => phase_pending ph
  | WTop | WRecv | WCheck | WFlush | WStopped => []
  end.

(** A batch the thread has committed: its callers, whether it was to be synced,
    and the outcome it signalled. *)
Record Committed := mkCommitted { cm_callers : list nat; cm_synced : bool; cm_outcome : CommitOutcome }.

(** [wq_sent] and [wq_log] record the order in which the channel took the
    submissions and the batches of the thread; no step reads them. *)
Record WalQ := mkWalQ {
  wq_callers : list Caller;
  wq_queue : list nat;
  wq_queued : Z;
  wq_shutdown : bool;
  wq_phase : WriterPhase;
  wq_task : WriterTask;
  wq_world : World;
  wq_sent : list nat;
  wq_log : list Committed
}.

Definition set_caller (i : nat) (c : Caller) (g : WalQ) : WalQ :=
  mkWalQ (<[i := c]> (wq_callers g)) (wq_queue g) (wq_queued g) (wq_shutdown g) (wq_phase g) (wq_task g)
    (wq_world g) (wq_sent g) (wq_log g).
Definition set_phase (ph : WriterPhase) (g : WalQ) : WalQ :=
  mkWalQ (wq_callers g) (wq_queue g) (wq_queued g) (wq_shutdown g) ph (wq_task g) (wq_world g) (wq_sent g)
    (wq_log g).
Definition set_queued (n : Z) (g : WalQ) : WalQ :=
  mkWalQ (wq_callers g) (wq_queue g) n (wq_shutdown g) (wq_phase g) (wq_task g) (wq_world g) (wq_sent g)
    (wq_log g).

(** ** The gauge *)

(** [AtomicU64::fetch_add] and [fetch_sub] wrap around. *)
Definition wrap64 (x : Z) : Z := x mod 2 ^ 64.

(** [WalMetrics::enqueued], [enqueue_rollback] and [dequeued], of the gauge *)
Definition enqueued (g : WalQ) : WalQ := set_queued (wrap64 (wq_queued g + 1)) g.
Definition enqueue_rollback (g : WalQ) : WalQ := set_queued (wrap64 (wq_queued g - 1)) g.
Definition dequeued (g : WalQ) : WalQ := set_queued (wrap64 (wq_queued g - 1)) g.

(** ** The callers *)

(** [SyncSender::try_send] of a caller's submission on a live receiver with room. *)
Definition channel_push (i : nat) (g : WalQ) : WalQ :=
  mkWalQ (wq_callers g) (wq_queue g ++ [i]) (wq_queued g) (wq_shutdown g) (wq_phase g) (wq_task g)
    (wq_world g) (wq_sent g ++ [i]) (wq_log g).

(** The receiver is dropped with the task, at the end of [run]. *)
Definition receiver_gone (g : WalQ) : bool :=
  match wq_phase g with WStopped => true | _ => false end.

(** [try_send] and what [submit_batch] makes of its result. *)
Definition try_send (cap i : nat) (g : WalQ) : WalQ :=
  if receiver_gone g then set_caller i (CRefused WriterGone) g
  else if (length (wq_queue g) <? cap)%nat then set_caller i (CToken None) (channel_push i g)
  else set_caller i (CRefused Full) g.

Section queue.
Context (crc : bytes → Z) (subs : list Submission) (cap : nat).

Definition sub_of (i : nat) : Submission := default (mkSub [] false) (subs !! i).

(** [WalWriter::submit_batch], one atomic action of the caller [i]. *)
Definition submit_step (i : nat) (g : WalQ) : option WalQ :=
  c ← wq_callers g !! i;
  match c with
  | CIdle =>
      if (length (sub_records (sub_of i)) =? 0)%nat then Some (set_caller i (CToken (Some CommitOk)) g)
      else Some (set_caller i CBumped (enqueued g))
  | CBumped =>
      if wq_shutdown g then Some (set_caller i (CRefused WriterGone) g)
      else Some (set_caller i CChecked g)
  | CChecked => Some (try_send cap i g)
  | CRefused e => Some (set_caller i (CError e) (enqueue_rollback g))
  | CError _ | CToken _ => None
  end.

(** ** The thread *)

(** A receive: the head of the channel leaves it; the gauge drops with the next action. *)
Definition recv (next : nat → WriterPhase) (i : nat) (q : list nat) (g : WalQ) : WalQ :=
  mkWalQ (wq_callers g) q (wq_queued g) (wq_shutdown g) (WTook (next i)) (wq_task g) (wq_world g)
    (wq_sent g) (wq_log g).

(** [WriterTask::signal] *)
Definition signal (p : list nat) (o : CommitOutcome) (cs : list Caller) : list Caller :=
  foldr (λ i cs, <[i := CToken (Some o)]> cs) cs p.

(** [commit_batch] on the gathered submissions; it returns no error. *)
Definition commit (p : list nat) (any : bool) (next : WriterPhase) (g : WalQ) : WalQ :=
  match commit_batch crc (sub_of <$> p) any (wq_task g) (wq_world g) with
  | (w, Ok (t, o)) =>
      mkWalQ (signal p o (wq_callers g)) (wq_queue g) (wq_queued g) (wq_shutdown g) next t w (wq_sent g)
        (wq_log g ++ [mkCommitted p any o])
  | (w, Err _) => g
  end.

(** Every sender has been dropped: no caller is in [submit_batch] or before it. *)
Definition returned (c : Caller) : bool :=
  match c with CToken _ | CError _ => true | _ => false end.
Definition senders_gone (g : WalQ) : bool := forallb returned (wq_callers g).

(** The last sync of [run], its result ignored. *)
Definition final_sync (g : WalQ) : WalQ :=
  mkWalQ (wq_callers g) (wq_queue g) (wq_queued g) (wq_shutdown g) WStopped (wq_task g)
    (io_try (sync_data (af_inode (wt_file (wq_task g)))) (wq_world g)).1 (wq_sent g) (wq_log g).

Definition durable_of (i : nat) : bool := sub_durable (sub_of i).

(** [WriterTask::run] and the loops it calls, one action of the thread; [None]
    while it parks. *)
Definition thread_step (late : bool) (g : WalQ) : option WalQ :=
  match wq_phase g, wq_queue g with
  | WTop, _ => Some (set_phase (if wq_shutdown g then WDrain [] else WRecv) g)
  | WRecv, i :: q => Some (recv (λ i, WReady [i] (durable_of i)) i q g)
  | WRecv, [] =>
      if senders_gone g then Some (set_phase WFlush g)
      else if late then Some (set_phase WTop g) else None
  | WReady p a, i :: q => Some (recv (λ i, WReady (p ++ [i]) (a || durable_of i)) i q g)
  | WReady p a, [] =>
      if a && negb (wq_queued g =? 0) then Some (set_phase (WGather p a) g)
      else Some (set_phase (WCommit p a) g)
  | WGather p a, i :: q => Some (recv (λ i, WGather (p ++ [i]) (a || durable_of i)) i q g)
  | WGather p a, [] => Some (set_phase (WSlice p a) g)
  | WSlice p a, q =>
      if late then Some (set_phase (WCommit p a) g)
      else match q with
           | i :: q => Some (recv (λ i, WGather (p ++ [i]) (a || durable_of i)) i q g)
           | [] => Some (set_phase (WCommit p a) g)
           end
  | WCommit p a, _ => Some (commit p a WTop g)
  | WDrain p, i :: q => Some (recv (λ i, WDrain (p ++ [i])) i q g)
  | WDrain p, [] =>
      match p with [] => Some (set_phase WCheck g) | _ => Some (set_phase (WForce p) g) end
  | WForce p, _ => Some (commit p true (WDrain []) g)
  | WCheck, _ =>
      if wq_queued g =? 0 then Some (set_phase WFlush g) else Some (set_phase (WDrain []) g)
  | WFlush, _ => Some (final_sync g)
  | WStopped, _ => None
  | WTook ph, _ => Some (set_phase ph (dequeued g))
  end.

(** [Wal::shutdown], the store of the flag. *)
Definition shutdown (g : WalQ) : WalQ :=
  mkWalQ (wq_callers g) (wq_queue g) (wq_queued g) true (wq_phase g) (wq_task g) (wq_world g) (wq_sent g)
    (wq_log g).

Inductive wq_step (g : WalQ) : WalQ → Prop :=
| ws_submit i g' : submit_step i g = Some g' → wq_step g g'
| ws_writer late g' : thread_step late g = Some g' → wq_step g g'
| ws_shutdown : wq_step g (shutdown g).

(** The channel of a thread that has just been spawned on an open file. *)
Definition wq_init (t : WriterTask) (w : World) : WalQ :=
  mkWalQ (replicate (length subs) CIdle) [] 0 false WTop t w [] [].

(** The thread alone, on a clock. *)
Fixpoint run_writer (late : list bool) (g : WalQ) : WalQ :=
  match late with
  | [] => g
  | b :: late => match thread_step b g with Some g => run_writer late g | None => g end
  end.

(** The durable submissions whose token says they are committed, in the order the
    channel took them. *)
Definition acked_sub (cs : list Caller) (i : nat) : option Submission :=
  match cs !! i with
  | Some (CToken (Some CommitOk)) => if durable_of i then Some (sub_of i) else None
  | _ => None
  end.
Definition acked (g : WalQ) : list Submission := omap (acked_sub (wq_callers g)) (wq_sent g).

(** ** The invariant of the protocol *)

(** The callers the gauge counts beside the channel. *)
Definition counted (c : Caller) : bool :=
  match c with CBumped | CChecked | CRefused _ => true | _ => false end.
Definition flights (cs : list Caller) : nat := sum_list ((λ c, Nat.b2n (counted c)) <$> cs).

(** The thread will take nothing more from the channel. *)
Definition closing (ph : WriterPhase) : Prop := ph = WFlush ∨ ph = WStopped.
Fixpoint draining (ph : WriterPhase) : Prop :=
  match ph with WDrain _ | WForce _ | WCheck => True | WTook ph => draining ph | _ => False end.

(** The submission that was received and is still counted. *)
Definition took (ph : WriterPhase) : nat := match ph with WTook _ => 1 | _ => 0 end.

(** What the thread knows of the batch it holds. *)
Fixpoint phase_ok (ph : WriterPhase) : Prop :=
  match ph with
  | WReady p a | WGather p a | WSlice p a | WCommit p a =>
      p ≠ [] ∧ ∀ i, i ∈ p → durable_of i = true → a = true
  | WForce p => p ≠ []
  | WTook ph => took ph = 0%nat ∧ ¬ closing ph ∧ phase_ok ph
  | _ => True
  end.

Definition committed_ok (cs : list Caller) (b : Committed) : Prop :=
  cm_callers b ≠ [] ∧
  ∀ i, i ∈ cm_callers b →
    cs !! i = Some (CToken (Some (cm_outcome b))) ∧ (durable_of i = true → cm_synced b = true).

Record q_inv (g : WalQ) : Prop := {
  qi_len : length (wq_callers g) = length subs;
  qi_gauge : wq_queued g = Z.of_nat (flights (wq_callers g) + length (wq_queue g) + took (wq_phase g));
  qi_cap : (length (wq_queue g) <= cap)%nat;
  qi_order : wq_sent g = concat (cm_callers <$> wq_log g) ++ phase_pending (wq_phase g) ++ wq_queue g;
  qi_once : NoDup (wq_sent g);
  qi_open : ∀ i, wq_callers g !! i = Some (CToken None) ↔ i ∈ phase_pending (wq_phase g) ++ wq_queue g;
  qi_log : Forall (committed_ok (wq_callers g)) (wq_log g);
  qi_phase : phase_ok (wq_phase g);
  qi_drain : draining (wq_phase g) → wq_shutdown g = true;
  qi_closed : closing (wq_phase g) →
    (wq_shutdown g = true ∨ senders_gone g = true) ∧ wq_queue g = [] ∧
    ∀ i, wq_callers g !! i ≠ Some CChecked
}.

(** ** Counting the callers in flight *)

Lemma flights_insert cs i c c' :
  cs !! i = Some c →
  (flights (<[i := c']> cs) + Nat.b2n (counted c) = flights cs + Nat.b2n (counted c'))%nat.
Proof.
  unfold flights. revert i. induction cs as [|x cs IH]; intros [|i] Hi; simplify_eq/=; [lia|].
  specialize (IH i Hi). lia.
Qed.

Lemma flights_le cs : (flights cs <= length cs)%nat.
Proof. unfold flights. induction cs as [|x cs IH]; [done|]. csimpl. destruct (counted x); simpl; lia. Qed.

Lemma flights_lt cs i c : cs !! i = Some c → counted c = false → (flights cs < length cs)%nat.
Proof.
  intros Hi Hc. pose proof (flights_insert cs i c CBumped Hi) as H. pose proof (flights_le (<[i := CBumped]> cs)) as Hle.
  rewrite length_insert, Hc in *. simpl in H. lia.
Qed.

Lemma flights_pos cs i c : cs !! i = Some c → counted c = true → (0 < flights cs)%nat.
Proof.
  unfold flights. revert i. induction cs as [|x cs IH]; intros [|i] Hi Hc; simplify_eq/=.
  - rewrite Hc. simpl. lia.
  - pose proof (IH i Hi Hc). lia.
Qed.

Lemma senders_gone_spec g :
  senders_gone g = true ↔ ∀ i c, wq_callers g !! i = Some c → returned c = true.
Proof.
  unfold senders_gone. rewrite <-Is_true_true, forallb_True, Forall_lookup. by setoid_rewrite Is_true_true.
Qed.

Lemma wrap64_id x : 0 <= x < 2 ^ 64 → wrap64 x = x.
Proof. apply Z.mod_small. Qed.

(** ** The steps of the callers *)
Section steps.
Context (Hsmall : Z.of_nat (length subs + cap) < u64_max).

Lemma took_le ph : (took ph <= 1)%nat.
Proof. by destruct ph; simpl; lia. Qed.

Lemma gauge_bound g : q_inv g → 0 <= wq_queued g <= Z.of_nat (length subs + cap + 1).
Proof.
  intros Hg. rewrite (qi_gauge _ Hg). pose proof (flights_le (wq_callers g)). rewrite (qi_len _ Hg) in *.
  pose proof (qi_cap _ Hg). pose proof (took_le (wq_phase g)). lia.
Qed.

Lemma gauge_room g i c :
  q_inv g → wq_callers g !! i = Some c → counted c = false → wq_queued g <= Z.of_nat (length subs + cap).
Proof.
  intros Hg Hi Hc. rewrite (qi_gauge _ Hg). pose proof (flights_lt _ _ _ Hi Hc). rewrite (qi_len _ Hg) in *.
  pose proof (qi_cap _ Hg). pose proof (took_le (wq_phase g)). lia.
Qed.

Lemma committed_ok_insert cs i c c' b :
  cs !! i = Some c → (∀ o, c ≠ CToken (Some o)) → committed_ok cs b → committed_ok (<[i := c']> cs) b.
Proof.
  intros Hi Hc [Hne Hb]. split; [done|]. intros j Hj. destruct (Hb j Hj) as [Hl Hd]. split; [|done].
  rewrite list_lookup_insert_ne; [done|]. intros <-. rewrite Hi in Hl. simplify_eq. by eapply Hc.
Qed.

Lemma elem_of_batches i log :
  i ∈ concat (cm_callers <$> log) ↔ ∃ b, b ∈ log ∧ i ∈ cm_callers b.
Proof.
  induction log as [|b log IH]; csimpl.
  - split; [by intros ?%elem_of_nil|by intros (b & ?%elem_of_nil & _)].
  - rewrite elem_of_app, IH. setoid_rewrite elem_of_cons. naive_solver.
Qed.

(** A caller moves and adjusts the gauge by what it counts for. *)
Lemma q_inv_caller g i c c' n :
  q_inv g → wq_callers g !! i = Some c → returned c = false → c' ≠ CToken None →
  n + Z.b2z (counted c) = wq_queued g + Z.b2z (counted c') →
  (c' = CChecked → wq_shutdown g = false) →
  q_inv (set_caller i c' (set_queued n g)).
Proof.
  intros [Hlen Hga Hcap Hord Hnd Hop Hlog Hph Hdr Hcl] Hi Hc Hc' Hn Hchk.
  pose proof (lookup_lt_Some _ _ _ Hi) as Hlt.
  split; simpl; try done.
  - by rewrite length_insert.
  - pose proof (flights_insert _ i c c' Hi). destruct (counted c), (counted c'); simpl in *; lia.
  - intros j. rewrite <-Hop. destruct (decide (j = i)) as [->|Hne].
    + rewrite list_lookup_insert_eq by done. rewrite Hi. split; intros; simplify_eq.
    + by rewrite list_lookup_insert_ne.
  - eapply Forall_impl; [exact Hlog|]. intros b. eapply committed_ok_insert; [done|]. by intros o ->.
  - intros Hclo. destruct (Hcl Hclo) as ([Hs|Hs] & Hq & Hch); cycle 1.
    { rewrite senders_gone_spec in Hs. specialize (Hs i c Hi). congruence. }
    split; [by left|]. split; [done|]. intros j.
    destruct (decide (j = i)) as [->|Hne]; [|by rewrite list_lookup_insert_ne].
    rewrite list_lookup_insert_eq by done. intros E. simplify_eq. rewrite Hchk in Hs; done.
Qed.

Lemma set_queued_same g : set_queued (wq_queued g) g = g.
Proof. by destruct g. Qed.

Lemma q_inv_idle g i c c' :
  q_inv g → wq_callers g !! i = Some c → returned c = false → c' ≠ CToken None →
  counted c = counted c' → (c' = CChecked → wq_shutdown g = false) → q_inv (set_caller i c' g).
Proof.
  intros Hg Hi Hc Hc' Hf Hchk. rewrite <-(set_queued_same g). rewrite <-(set_queued_same g) in Hi.
  eapply q_inv_caller; [done|done|done|done|by rewrite Hf|done].
Qed.

(** The channel takes a submission. *)
Lemma q_inv_push g i :
  q_inv g → wq_callers g !! i = Some CChecked → ¬ closing (wq_phase g) → (length (wq_queue g) < cap)%nat →
  q_inv (set_caller i (CToken None) (channel_push i g)).
Proof.
  intros [Hlen Hga Hcap Hord Hnd Hop Hlog Hph Hdr Hcl] Hi Hnc Hroom.
  pose proof (lookup_lt_Some _ _ _ Hi) as Hlt.
  split; simpl; try done.
  - by rewrite length_insert.
  - pose proof (flights_insert _ i CChecked (CToken None) Hi). rewrite length_app. simpl in *. lia.
  - rewrite length_app. simpl. lia.
  - rewrite Hord, <-!app_assoc. done.
  - apply NoDup_app. split; [done|]. split; [|apply NoDup_singleton].
    intros j Hj ->%list_elem_of_singleton. rewrite Hord, elem_of_app in Hj. destruct Hj as [Hj|Hj].
    + apply elem_of_batches in Hj as (b & Hb & Hj).
      rewrite Forall_forall in Hlog. destruct (Hlog b Hb) as [_ H]. destruct (H i Hj). congruence.
    + apply Hop in Hj. congruence.
  - intros j. rewrite app_assoc, elem_of_app, <-Hop, list_elem_of_singleton.
    destruct (decide (j = i)) as [->|Hne].
    + rewrite list_lookup_insert_eq by done. naive_solver.
    + rewrite list_lookup_insert_ne by done. naive_solver.
  - eapply Forall_impl; [exact Hlog|]. intros b. by eapply committed_ok_insert.
Qed.

Lemma q_inv_submit i g g' : submit_step i g = Some g' → q_inv g → q_inv g'.
Proof.
  unfold submit_step. intros (c & Hi & Hs)%bind_Some Hg. pose proof (gauge_bound g Hg) as Hb.
  unfold u64_max in Hsmall.
  destruct c as [| | |e|e|o]; simplify_eq; repeat case_match; simplify_eq.
  - by eapply q_inv_idle.
  - pose proof (gauge_room g i CIdle Hg Hi eq_refl). eapply q_inv_caller; [done..| |done]. rewrite wrap64_id; simpl; lia.
  - by eapply q_inv_idle.
  - by eapply q_inv_idle.
  - assert (¬ closing (wq_phase g)) as Hnc.
    { intros Hc. by destruct (qi_closed _ Hg Hc) as (_ & _ & H); destruct (H i). }
    assert (receiver_gone g = false) as Hr.
    { unfold receiver_gone. destruct (wq_phase g); try done. destruct Hnc. by right. }
    unfold try_send. rewrite Hr. case_match eqn:Hroom; [apply q_inv_push; [done..|]; by apply Nat.ltb_lt|by eapply q_inv_idle].
  - eapply q_inv_caller; [done..| |done]. simpl in *.
    assert (0 < flights (wq_callers g))%nat by by eapply flights_pos.
    rewrite wrap64_id; rewrite (qi_gauge _ Hg) in *; lia.
Qed.

(** ** The steps of the thread *)

(** Only the phase changes, and the batch with it stays. *)
Lemma q_inv_phase g ph :
  q_inv g → phase_pending ph = phase_pending (wq_phase g) → took ph = took (wq_phase g) → phase_ok ph →
  (draining ph → wq_shutdown g = true) →
  (closing ph → (wq_shutdown g = true ∨ senders_gone g = true) ∧ wq_queue g = [] ∧
     ∀ i, wq_callers g !! i ≠ Some CChecked) →
  q_inv (set_phase ph g).
Proof.
  intros [Hlen Hga Hcap Hord Hnd Hop Hlog Hph Hdr Hcl] Hp Ht Hok Hd Hc. split; simpl; try done; by rewrite ?Hp, ?Ht.
Qed.

(** A receive into the batch of the phase, and the drop of the gauge. *)
Lemma q_inv_recv g i q next :
  q_inv g → wq_queue g = i :: q → phase_pending (next i) = phase_pending (wq_phase g) ++ [i] →
  took (wq_phase g) = 0%nat → took (next i) = 0%nat → phase_ok (next i) → (draining (next i) → wq_shutdown g = true) →
  ¬ closing (next i) → q_inv (recv next i q g).
Proof.
  intros Hg Hq Hp Ht Ht' Hok Hd Hc.
  destruct Hg as [Hlen Hga Hcap Hord Hnd Hop Hlog Hph Hdr Hcl]. rewrite Hq in *. simpl in *.
  split; simpl; try done.
  - lia.
  - lia.
  - rewrite Hp, <-app_assoc. done.
  - intros j. rewrite Hp, <-app_assoc. apply Hop.
  - by intros [?|?].
Qed.

Lemma q_inv_dequeued g ph : q_inv g → wq_phase g = WTook ph → q_inv (set_phase ph (dequeued g)).
Proof.
  intros Hg E. pose proof (gauge_bound g Hg) as Hb. unfold u64_max in Hsmall.
  destruct Hg as [Hlen Hga Hcap Hord Hnd Hop Hlog Hph Hdr Hcl]. rewrite E in *. simpl in *.
  destruct Hph as (Ht & Hnc & Hok). split; simpl; try done. rewrite wrap64_id; lia.
Qed.

Lemma signal_length p o cs : length (signal p o cs) = length cs.
Proof. induction p as [|j p IH]; simpl; [done|]. by rewrite length_insert. Qed.

Lemma signal_lookup p o cs i :
  (∀ j, j ∈ p → (j < length cs)%nat) →
  signal p o cs !! i = if decide (i ∈ p) then Some (CToken (Some o)) else cs !! i.
Proof.
  induction p as [|j p IH]; intros Hp.
  { by rewrite decide_False by apply not_elem_of_nil. }
  change (signal (j :: p) o cs) with (<[j := CToken (Some o)]> (signal p o cs)).
  destruct (decide (j = i)) as [->|Hne].
  - rewrite decide_True by apply list_elem_of_here.
    rewrite list_lookup_insert_eq; [done|]. rewrite signal_length. apply Hp. by left.
  - rewrite list_lookup_insert_ne, IH by (done || intros; apply Hp; by right).
    apply decide_ext. rewrite elem_of_cons. naive_solver.
Qed.

Lemma flights_signal p o cs :
  (∀ j, j ∈ p → cs !! j = Some (CToken None)) → flights (signal p o cs) = flights cs.
Proof.
  intros Hp. induction p as [|j p IH]; [done|].
  change (signal (j :: p) o cs) with (<[j := CToken (Some o)]> (signal p o cs)).
  assert (Hp' : ∀ i, i ∈ p → cs !! i = Some (CToken None)) by (intros; apply Hp; by right).
  rewrite <-(IH Hp').
  assert (∃ x, signal p o cs !! j = Some (CToken x)) as [x Hx].
  { rewrite signal_lookup by (intros i Hi; by eapply lookup_lt_Some, Hp'). case_decide; [eauto|].
    exists None. apply Hp. by left. }
  pose proof (flights_insert _ j _ (CToken (Some o)) Hx) as H. simpl in H. lia.
Qed.

(** Computations that return no error. *)
Definition answers {A} (m : IO A) : Prop := ∀ w, ∃ w' a, m w = (w', Ok a).

Lemma answers_ret {A} (a : A) : answers (mret a).
Proof. by intros w; eauto. Qed.
Lemma answers_try {A} (m : IO A) : answers (io_try m).
Proof. intros w. unfold io_try. destruct (m w); eauto. Qed.
Lemma answers_bind {A B} (m : IO A) (k : A → IO B) : answers m → (∀ a, answers (k a)) → answers (m ≫= k).
Proof.
  intros Hm Hk w. unfold mbind, IO_bind. destruct (Hm w) as (w' & a & ->). apply Hk.
Qed.

Lemma commit_batch_answers ss any t : answers (commit_batch crc ss any t).
Proof.
  unfold commit_batch, rotate, write_batch.
  repeat first [apply answers_bind; intros | apply answers_ret | apply answers_try | case_match].
Qed.

(** The thread commits the batch it holds. *)
Lemma q_inv_commit g p any next :
  q_inv g → phase_pending (wq_phase g) = p → p ≠ [] → (∀ i, i ∈ p → durable_of i = true → any = true) →
  phase_pending next = [] → took next = took (wq_phase g) → phase_ok next → (draining next → wq_shutdown g = true) →
  ¬ closing next → q_inv (commit p any next g).
Proof.
  intros [Hlen Hga Hcap Hord Hnd Hop Hlog Hph Hdr Hcl] Hp Hne Hany Hnp Ht Hok Hd Hc. unfold commit.
  destruct (commit_batch_answers (sub_of <$> p) any (wq_task g) (wq_world g)) as (w & [t o] & ->).
  rewrite Hp in *.
  assert (Htok : ∀ j, j ∈ p → wq_callers g !! j = Some (CToken None)).
  { intros j Hj. apply Hop, elem_of_app. by left. }
  assert (Hin : ∀ j, j ∈ p → (j < length (wq_callers g))%nat).
  { intros j Hj. by eapply lookup_lt_Some, Htok. }
  assert (Hdis : ∀ j, j ∈ p → j ∉ wq_queue g).
  { rewrite Hord in Hnd. apply NoDup_app in Hnd as (_ & _ & Hnd). apply NoDup_app in Hnd as (_ & Hnd & _).
    exact Hnd. }
  split; simpl; try done.
  - by rewrite signal_length.
  - rewrite Hga, Ht. by rewrite flights_signal.
  - rewrite Hnp, Hord, fmap_app, concat_app, <-!app_assoc. simpl. by rewrite <-app_assoc.
  - intros j. rewrite Hnp, signal_lookup by done. simpl. case_decide as Hj.
    + split; [done|]. intros Hq. by destruct (Hdis j Hj).
    + rewrite Hop, elem_of_app. naive_solver.
  - apply Forall_app. split.
    + eapply Forall_impl; [exact Hlog|]. intros b [Hb1 Hb2]. split; [done|]. intros j Hj.
      destruct (Hb2 j Hj) as [Hl Hdu]. split; [|done]. rewrite signal_lookup by done.
      rewrite decide_False; [done|]. intros ?%Htok. congruence.
    + apply Forall_singleton. split; [done|]. simpl. intros j Hj. rewrite signal_lookup, decide_True by done.
      split; [done|]. by apply Hany.
Qed.

(** The durability flag of a batch that grows. *)
Lemma phase_ok_snoc p a i :
  (p ≠ [] ∧ ∀ j, j ∈ p → durable_of j = true → a = true) →
  p ++ [i] ≠ [] ∧ ∀ j, j ∈ p ++ [i] → durable_of j = true → a || durable_of i = true.
Proof.
  intros [Hne Ha]. split; [by destruct p|].
  intros j [Hj| ->%list_elem_of_singleton]%elem_of_app Hd; [by rewrite (Ha j)|].
  rewrite Hd. apply orb_true_r.
Qed.

Lemma senders_gone_checked g : senders_gone g = true → ∀ i, wq_callers g !! i ≠ Some CChecked.
Proof. rewrite senders_gone_spec. intros H i Hi. by specialize (H i _ Hi). Qed.

Lemma gauge_zero g : q_inv g → wq_queued g = 0 → wq_queue g = [] ∧ ∀ i, wq_callers g !! i ≠ Some CChecked.
Proof.
  intros Hg H0. rewrite (qi_gauge _ Hg) in H0. split.
  - destruct (wq_queue g); simpl in *; [done|lia].
  - intros i Hi. apply flights_pos in Hi; [lia|done].
Qed.

Lemma not_closing ph :
  match ph with WFlush | WStopped => False | _ => True end → ¬ closing ph.
Proof. by intros H [-> | ->]. Qed.

Lemma phase_ok_first i : phase_ok (WReady [i] (durable_of i)).
Proof. split; [done|]. by intros j ->%list_elem_of_singleton. Qed.

Lemma q_inv_final_sync g : q_inv g → wq_phase g = WFlush → q_inv (final_sync g).
Proof.
  intros Hg E. assert (q_inv (set_phase WStopped g)) as [].
  - apply q_inv_phase; rewrite ?E; try done. intros _. apply (qi_closed _ Hg). by left.
  - by split.
Qed.

Lemma q_inv_writer late g g' : thread_step late g = Some g' → q_inv g → q_inv g'.
Proof.
  unfold thread_step. intros Hs Hg. pose proof (qi_phase _ Hg) as Hph. pose proof (qi_drain _ Hg) as Hdr.
  destruct (wq_phase g) as [| |p a|p a|p a|p a|p|p| | | |ph] eqn:E; simpl in Hph, Hdr.
  all: try specialize (Hdr I).
  all: destruct (wq_queue g) as [|i q] eqn:Eq; try destruct late; simplify_eq.
  all: try (case_match eqn:Eb; simplify_eq).
  all: try by apply q_inv_dequeued.
  all: try (apply q_inv_phase; rewrite ?E; [done|done|done|done|by intros []|by intros [?|?]]).
  all: lazymatch goal with
    | |- q_inv (recv _ _ _ _) =>
        apply q_inv_recv; rewrite ?E;
          [done|done|done|done|done|first [done | by apply phase_ok_snoc | apply phase_ok_first]|done|by apply not_closing]
    | |- q_inv (commit _ _ _ _) =>
        apply q_inv_commit; rewrite ?E; first [done | by apply Hph | by apply not_closing]
    | |- q_inv (final_sync _) => apply q_inv_final_sync; by rewrite ?E
    | |- _ =>
        apply q_inv_phase; rewrite ?E; [done|done|done|done|done|]; intros _
    end.
  1-2: split; [by right|]; split; [done|]; by apply senders_gone_checked.
  all: split; [by left|]; apply gauge_zero; [done|]; by apply Z.eqb_eq.
Qed.

Lemma q_inv_step g g' : wq_step g g' → q_inv g → q_inv g'.
Proof.
  intros [i g1 H|late g1 H|] Hg; [by eapply q_inv_submit|by eapply q_inv_writer|].
  destruct Hg as [Hlen Hga Hcap Hord Hnd Hop Hlog Hph Hdr Hcl]. split; try done.
  simpl. intros Hc. destruct (Hcl Hc) as (_ & H2 & H3). split; [by left|done].
Qed.

Lemma flights_idle n : flights (replicate n CIdle) = 0%nat.
Proof. unfold flights. by induction n. Qed.

Lemma q_inv_init t w : q_inv (wq_init t w).
Proof.
  split; simpl; try done.
  - apply length_replicate.
  - by rewrite flights_idle.
  - lia.
  - constructor.
  - intros i. rewrite lookup_replicate. split; [naive_solver|]. by intros ?%elem_of_nil.
  - by intros [?|?].
Qed.

Lemma q_inv_reachable t w g : rtc wq_step (wq_init t w) g → q_inv g.
Proof.
  intros H. apply (rtc_ind_r q_inv) in H as Hi; [done|apply q_inv_init|].
  intros. by eapply q_inv_step.
Qed.

(** ** The thread makes progress *)

(** A bound on the actions of the thread until it has emptied the channel. *)
Fixpoint phase_rank (ph : WriterPhase) : nat :=
  match ph with
  | WDrain [] => 0 | WRecv | WCheck => 1 | WTop => 2 | WCommit _ _ | WForce _ => 3 | WSlice _ _ | WDrain _ => 4
  | WGather _ _ => 5 | WReady _ _ => 6 | WFlush | WStopped => 0 | WTook ph => S (phase_rank ph)
  end.
Definition thread_bound (g : WalQ) : nat := (8 * length (wq_queue g) + phase_rank (wq_phase g))%nat.

Lemma commit_phase p any next g : wq_phase (commit p any next g) = next ∧ wq_queue (commit p any next g) = wq_queue g.
Proof.
  unfold commit. by destruct (commit_batch_answers (sub_of <$> p) any (wq_task g) (wq_world g)) as (w & [t o] & ->).
Qed.

(** While a token is open the thread can act, and comes closer. *)
Lemma writer_progress late g i :
  q_inv g → wq_callers g !! i = Some (CToken None) →
  ∃ g', thread_step late g = Some g' ∧ (thread_bound g' < thread_bound g)%nat.
Proof.
  intros Hg Hi. apply (qi_open _ Hg) in Hi. pose proof (qi_closed _ Hg) as Hcl.
  unfold thread_step, thread_bound.
  destruct (wq_phase g) as [| |p a|p a|p a|p a|p|p| | | |ph] eqn:E; simpl in *.
  10-11: destruct (Hcl ltac:(by (left + right))) as (_ & Hq & _); rewrite Hq in Hi; by apply elem_of_nil in Hi.
  all: destruct (wq_queue g) as [|j q] eqn:Eq; try (by apply elem_of_nil in Hi); simpl.
  all: repeat case_match; eexists; (split; [done|]).
  all: try (rewrite !(proj1 (commit_phase _ _ _ _)), !(proj2 (commit_phase _ _ _ _)), Eq; simpl; lia).
  all: try (simpl; rewrite ?Eq; simpl; repeat case_match; simpl; lia).
  simplify_eq. by apply elem_of_nil in Hi.
Qed.

(** The thread changes a token once, from open to an outcome. *)
Definition token_after (x : option CommitOutcome) (c : option Caller) : Prop :=
  c = Some (CToken x) ∨ x = None ∧ ∃ o, c = Some (CToken (Some o)).

Lemma commit_token p any next g i x :
  q_inv g → phase_pending (wq_phase g) = p → wq_callers g !! i = Some (CToken x) →
  token_after x (wq_callers (commit p any next g) !! i).
Proof.
  intros Hg Hp Hi. unfold commit.
  destruct (commit_batch_answers (sub_of <$> p) any (wq_task g) (wq_world g)) as (w & [t o] & ->). simpl.
  assert (Htok : ∀ j, j ∈ p → wq_callers g !! j = Some (CToken None)).
  { intros j Hj. apply (qi_open _ Hg), elem_of_app. left. by rewrite Hp. }
  rewrite signal_lookup; [|intros j Hj; by eapply lookup_lt_Some, Htok].
  case_decide as Hin; [right|by left]. apply Htok in Hin. split; [congruence|eauto].
Qed.

Lemma writer_token late g g' i x :
  q_inv g → thread_step late g = Some g' → wq_callers g !! i = Some (CToken x) →
  token_after x (wq_callers g' !! i).
Proof.
  intros Hg Hs Hi. unfold thread_step in Hs.
  destruct (wq_phase g) as [| |p a|p a|p a|p a|p|p| | | |ph] eqn:E, (wq_queue g);
    repeat (case_match; simplify_eq); simplify_eq; first [by left | apply commit_token; by rewrite ?E].
Qed.

Lemma run_writer_resolved late g i o :
  q_inv g → wq_callers g !! i = Some (CToken (Some o)) →
  wq_callers (run_writer late g) !! i = Some (CToken (Some o)).
Proof.
  revert g. induction late as [|b late IH]; intros g Hg Hi; simpl; [done|]. case_match eqn:Hs; [|done].
  apply IH; [by eapply q_inv_writer|]. by destruct (writer_token b g _ i _ Hg Hs Hi) as [?|[? _]].
Qed.

Lemma run_writer_resolves late g i :
  q_inv g → wq_callers g !! i = Some (CToken None) → (thread_bound g <= length late)%nat →
  ∃ o, wq_callers (run_writer late g) !! i = Some (CToken (Some o)).
Proof.
  revert g. induction late as [|b late IH]; intros g Hg Hi Hle.
  { destruct (writer_progress false g i Hg Hi) as (g' & _ & Hlt). simpl in *. lia. }
  destruct (writer_progress b g i Hg Hi) as (g' & Hs & Hlt). simpl in *. rewrite Hs.
  pose proof (q_inv_writer b g g' Hs Hg) as Hg'.
  destruct (writer_token b g g' i _ Hg Hs Hi) as [Hi'|(_ & o & Hi')].
  - apply IH; [done|done|lia].
  - exists o. by apply run_writer_resolved.
Qed.

(** ** What the batches leave on disk *)

Definition committed_frames (b : Committed) : list WalFrame :=
  match cm_outcome b with
  | CommitOk => if cm_synced b then batch_frames (sub_of <$> cm_callers b) else []
  | CommitFail => []
  end.
Definition log_frames (log : list Committed) : list WalFrame := concat (committed_frames <$> log).

(** Each batch has a caller of its own. *)
Lemma concat_nonempty_length {A} (ls : list (list A)) :
  Forall (λ l, l ≠ []) ls → (length ls <= length (concat ls))%nat.
Proof.
  induction 1 as [|[|x l] ls Hl _ IH]; simpl; [lia|done|]. rewrite length_app. lia.
Qed.

Lemma sent_bound g : q_inv g → (length (wq_sent g) <= length subs)%nat.
Proof.
  intros Hg. assert (wq_sent g ⊆+ seq 0 (length subs)) as H.
  { apply NoDup_submseteq; [apply Hg|]. intros i Hi. apply elem_of_seq. split; [lia|]. simpl.
    rewrite <-(qi_len _ Hg). rewrite (qi_order _ Hg), elem_of_app in Hi. destruct Hi as [Hi|Hi].
    - apply elem_of_batches in Hi as (b & Hb & Hi). pose proof (qi_log _ Hg) as Hl. rewrite Forall_forall in Hl.
      destruct (Hl b Hb) as [_ H]. eapply lookup_lt_Some. by apply H.
    - apply (qi_open _ Hg) in Hi. by eapply lookup_lt_Some. }
  apply submseteq_length in H. by rewrite length_seq in H.
Qed.

Lemma log_bound g : q_inv g → (length (wq_log g) + length (phase_pending (wq_phase g)) <= length subs)%nat.
Proof.
  intros Hg. pose proof (sent_bound g Hg) as H. rewrite (qi_order _ Hg), !length_app in H.
  assert (length (wq_log g) <= length (concat (cm_callers <$> wq_log g)))%nat; [|lia].
  rewrite <-(length_fmap cm_callers (wq_log g)). apply concat_nonempty_length, Forall_fmap.
  eapply Forall_impl; [apply (qi_log _ Hg)|]. by intros b [? _].
Qed.

(** What was acknowledged is part of what the batches left durable. *)
Lemma omap_nothing {A B} (f : A → option B) l : (∀ i, i ∈ l → f i = None) → omap f l = [].
Proof.
  intros H. induction l as [|i l IH]; [done|]. csimpl. rewrite H by by left.
  apply IH. intros j Hj. apply H. by right.
Qed.

Lemma omap_acked_batch cs b :
  committed_ok cs b → sublist (batch_frames (omap (acked_sub cs) (cm_callers b))) (committed_frames b).
Proof.
  intros [_ Hb]. unfold committed_frames. revert Hb. generalize (cm_callers b) as l. intros l Hb.
  assert (Hskip : ∀ i, i ∈ l → (cm_outcome b = CommitFail ∨ cm_synced b = false) → acked_sub cs i = None).
  { intros i Hi Hor. destruct (Hb i Hi) as [Hl Hd]. unfold acked_sub. rewrite Hl.
    destruct Hor as [-> | Hf]; [done|]. case_match; [|done]. case_match; [|done].
    rewrite Hd in Hf by done. done. }
  destruct (cm_outcome b) eqn:Eo; [destruct (cm_synced b) eqn:Es|].
  - clear Hskip Hb. induction l as [|i l IH]; csimpl; [constructor|]. unfold batch_frames in *. csimpl.
    destruct (acked_sub cs i) as [s|] eqn:Ea; csimpl; [|by apply sublist_inserts_l].
    assert (s = sub_of i) as ->; [|by apply sublist_app].
    unfold acked_sub in Ea. repeat case_match; by simplify_eq.
  - rewrite omap_nothing; [constructor|]. auto.
  - rewrite omap_nothing; [constructor|]. auto.
Qed.

Lemma acked_in_log g : q_inv g → sublist (batch_frames (acked g)) (log_frames (wq_log g)).
Proof.
  intros Hg. unfold acked. rewrite (qi_order _ Hg), omap_app.
  rewrite (omap_nothing _ (phase_pending _ ++ _)), app_nil_r; cycle 1.
  { intros i Hi%(qi_open _ Hg). unfold acked_sub. by rewrite Hi. }
  pose proof (qi_log _ Hg) as Hl. induction Hl as [|b log Hb _ IH]; [constructor|].
  csimpl. rewrite omap_app. unfold batch_frames, log_frames in *. rewrite fmap_app, concat_app. csimpl.
  apply sublist_app; [|exact IH]. by apply omap_acked_batch.
Qed.

Section disk.
Context (dir : string) (base : Z) (closed0 : list (list WalFrame)) (synced0 : list WalFrame).
Context (Hbase : 0 <= base) (Hmax : base + Z.of_nat (length closed0 + length subs) < 10 ^ 16).
Context (Hframes : Forall (λ s, frames_ok (sub_frames s)) subs).

(** The files of the thread hold what they held and the batches it has committed
    under a sync. *)
Definition d_inv (g : WalQ) : Prop :=
  ∃ closed content synced,
    wt_dir (wq_task g) = dir ∧ wal_inv crc (wq_task g) base closed content synced (w_disk (wq_world g)) ∧
    (length closed <= length closed0 + length (wq_log g))%nat ∧
    sublist (durable_frames closed0 synced0 ++ log_frames (wq_log g)) (durable_frames closed synced).

Lemma batch_frames_ok p : frames_ok (batch_frames (sub_of <$> p)).
Proof.
  unfold batch_frames, frames_ok. apply Forall_concat, Forall_fmap, Forall_fmap, Forall_true. intros i. simpl.
  unfold sub_of. destruct (subs !! i) as [s|] eqn:Hs; simpl; [|constructor].
  rewrite Forall_forall in Hframes. by eapply Hframes, list_elem_of_lookup_2.
Qed.

Lemma d_inv_same g g' :
  wq_task g' = wq_task g → wq_world g' = wq_world g → wq_log g' = wq_log g → d_inv g → d_inv g'.
Proof. unfold d_inv. by intros -> -> ->. Qed.

Lemma d_inv_commit g p any next :
  q_inv g → phase_pending (wq_phase g) = p → p ≠ [] → d_inv g → d_inv (commit p any next g).
Proof.
  intros Hg Hp Hne (closed & content & synced & Hdir & Hinv & Hlen & Hsub). unfold commit.
  pose proof (log_bound g Hg) as Hlog. rewrite Hp in Hlog. destruct p as [|i p]; [done|]. simpl in Hlog.
  destruct (wq_world g) as [d fs] eqn:Ew. simpl in Hinv.
  destruct (wp_commit_batch crc true (wq_task g) base closed content synced (sub_of <$> i :: p) any d)
    with (fs := fs) as [_ H]; [done|lia|done|apply batch_frames_ok|done|].
  destruct (commit_batch _ _ _ _ _) as [w r]. simpl in H.
  destruct H as (t' & o & closed' & content' & synced' & -> & Hdir' & Hinv' & Hlen' & Hsub').
  exists closed', content', synced'. simpl. rewrite length_app. simpl.
  split; [congruence|]. split; [done|]. split; [lia|].
  etrans; [|exact Hsub']. unfold log_frames. rewrite fmap_app, concat_app, app_assoc. csimpl.
  rewrite app_nil_r. by apply sublist_app.
Qed.

Lemma d_inv_final_sync g : d_inv g → d_inv (final_sync g).
Proof.
  intros (closed & content & synced & Hdir & Hinv & Hlen & Hsub). unfold d_inv. simpl.
  destruct (wq_world g) as [d fs] eqn:Ew. simpl in Hinv. unfold io_try.
  destruct (wp_sync_active crc true (wq_task g) base closed content synced d Hinv fs) as [_ H]; [done|].
  destruct (sync_data _ _) as [w [[]|e]]; simpl in *; [|destruct H as [_ ->]; by exists closed, content, synced].
  exists closed, content, content. split; [done|]. split; [done|]. split; [done|].
  etrans; [exact Hsub|]. apply sublist_app; [done|]. apply prefix_sublist, (wi_synced _ _ _ _ _ _ _ Hinv).
Qed.

Lemma d_inv_step g g' : q_inv g → wq_step g g' → d_inv g → d_inv g'.
Proof.
  intros Hg [i g1 H|late g1 H|] Hd; [| |by apply (d_inv_same g)].
  - unfold submit_step in H. apply bind_Some in H as (c & _ & H). unfold try_send in H.
    destruct c; repeat case_match; simplify_eq; by apply (d_inv_same g).
  - unfold thread_step in H. pose proof (qi_phase _ Hg) as Hph.
    destruct (wq_phase g) as [| |p a|p a|p a|p a|p|p| | | |ph] eqn:E, (wq_queue g);
      repeat (case_match; simplify_eq); simplify_eq;
      first [by apply (d_inv_same g) | by apply d_inv_final_sync | idtac];
      apply d_inv_commit; rewrite ?E; first [done | by apply Hph].
Qed.
End disk.
End steps.
End queue.

(** ** Theorems *)
Section theorems.
Context (crc : bytes → Z) (subs : list Submission) (cap : nat).
Context (Hsmall : Z.of_nat (length subs + cap) < u64_max).

(** C3.   Durability through the channel: open the WAL of any directory whose log is
    on disk, let any number of callers submit while the thread gathers, commits,
    drains and stops, in any interleaving, at any speed of the clock, with any
    call to the file system failing; lose the power at any point with any damage
    to what was not synced.  Reading the files back succeeds and holds what was
    durable before, and then every durable submission whose token says it is
    committed, whole and in the order the channel took them. *)
Theorem wal_queue_durable dir size base closed synced d faults w t g damage :
  (∀ x, is_u64 (crc x)) → Forall (λ s, frames_ok (sub_frames s)) subs →
  wal_on_disk crc d dir base closed synced →
  0 <= base → base + Z.of_nat (length closed + length subs) < 10 ^ 16 →
  wal_open dir size (base + Z.of_nat (length closed)) (length (encode_all crc synced)) (mkWorld d faults) =
    (w, Ok t) →
  rtc (wq_step crc subs cap) (wq_init subs t w) g →
  ∃ fs, (read_wal crc dir (mkWorld (reset_power (crash damage (w_disk (wq_world g)))) [])).2 = Ok fs ∧
        sublist (concat closed ++ synced ++ batch_frames (acked subs g)) fs.
Proof.
  intros Hcrc Hok Hod Hb Hmax Hopen Hr.
  destruct (wp_wal_open crc true dir size base closed synced d Hod Hb ltac:(lia) faults) as [_ [_ H]]; [done|].
  rewrite Hopen in H. simpl in H. destruct H as [Hdir Hinv].
  assert (q_inv subs cap g ∧ d_inv crc subs dir base closed synced g) as [Hg (closed' & content & synced' & H)].
  { revert Hr. apply (rtc_ind_r (λ g, q_inv subs cap g ∧ d_inv crc subs dir base closed synced g)).
    - split; [by apply q_inv_init|]. exists closed, synced, synced. split; [done|]. split; [done|].
      split; [simpl; lia|]. by rewrite app_nil_r.
    - intros g1 g2 _ Hs [Hq Hd]. split; [by eapply q_inv_step|by eapply d_inv_step]. }
  destruct H as (Hdir' & Hinv' & Hlen & Hsub). pose proof (log_bound _ _ Hsmall g Hg).
  destruct (read_after_crash crc dir base closed' synced' damage (w_disk (wq_world g))) as (fs & Hr' & Hfs);
    [done|done|lia|rewrite <-Hdir'; by eapply wal_inv_on_disk|].
  exists fs. split; [done|]. etrans; [|exact Hfs]. etrans; [|exact Hsub].
  rewrite app_assoc. apply sublist_app; [done|]. by eapply acked_in_log.
Qed.

(** C24.   The channel and its shutdown handshake: in every reachable state the gauge
    is the number of callers between their bump and their return plus the length
    of the channel, plus one while the thread is between a receive and the drop of
    the gauge that goes with it, with no wrap-around; the channel holds at most its capacity;
    the batches the thread has committed, the one it holds and the channel are,
    in order, the submissions the channel took, each once; every token of a
    committed batch has its outcome, and the open tokens are those of the batch
    held and of the channel.  Once the thread is gone no token is open. *)
Theorem wal_queue_exact t w g :
  rtc (wq_step crc subs cap) (wq_init subs t w) g →
  (wq_queued g = Z.of_nat (flights (wq_callers g) + length (wq_queue g) + took (wq_phase g)) ∧
   (length (wq_queue g) <= cap)%nat) ∧
  (wq_sent g = concat (cm_callers <$> wq_log g) ++ phase_pending (wq_phase g) ++ wq_queue g ∧
   NoDup (wq_sent g)) ∧
  Forall (λ b, ∀ i, i ∈ cm_callers b → wq_callers g !! i = Some (CToken (Some (cm_outcome b)))) (wq_log g) ∧
  (∀ i, wq_callers g !! i = Some (CToken None) ↔ i ∈ phase_pending (wq_phase g) ++ wq_queue g) ∧
  (wq_phase g = WStopped → ∀ i, wq_callers g !! i ≠ Some (CToken None)).
Proof.
  intros Hr. apply (q_inv_reachable crc subs cap Hsmall) in Hr as [Hlen Hga Hcap Hord Hnd Hop Hlog Hph Hdr Hcl].
  split; [done|]. split; [done|]. split.
  { eapply Forall_impl; [exact Hlog|]. intros b [_ Hb] i Hi. by apply Hb. }
  split; [done|]. intros Hs i Hi%Hop. destruct (Hcl ltac:(by right)) as (_ & Hq & _).
  rewrite Hs, Hq in Hi. by apply elem_of_nil in Hi.
Qed.

(** C25. Every token resolves once the callers are quiet: from any reachable state, when
    no caller acts any more and whatever the clock says at each action of the thread,
    the thread resolves a token that is open within [thread_bound] actions of its own:
    eight for each submission in the channel and at most seven more. (While callers go
    on submitting the thread goes on receiving into the batch it holds, and no bound of
    its own holds.) *)
Theorem wal_queue_resolves t w g i late :
  rtc (wq_step crc subs cap) (wq_init subs t w) g →
  wq_callers g !! i = Some (CToken None) → (thread_bound g <= length late)%nat →
  ∃ o, wq_callers (run_writer crc subs late g) !! i = Some (CToken (Some o)).
Proof.
  intros Hr Hi Hl. eapply run_writer_resolves; [done|by eapply q_inv_reachable|done|done].
Qed.
End theorems.

Module WalQueueSamples.
Import WalSamples WalWriterSamples Byte.

(** Four callers: a durable submission, one that is not, an empty one, and a
    durable one that arrives while the thread is told to stop. *)
Definition sample_subs : list Submission :=
  [durable_put 1 1 x01; mkSub [put 1 2 x02] false; mkSub [] true; durable_put 2 1 x03].

Inductive Action := Caller_acts (i : nat) | Thread_acts (late : bool) | Stop.
Definition act (a : Action) (g : WalQ) : option WalQ :=
  match a with
  | Caller_acts i => submit_step sample_subs 2 i g
  | Thread_acts late => thread_step sum_crc sample_subs late g
  | Stop => Some (shutdown g)
  end.
Fixpoint acts (l : list Action) (g : WalQ) : option WalQ :=
  match l with [] => Some g | a :: l => g ← act a g; acts l g end.

Lemma acts_steps l g g' : acts l g = Some g' → rtc (wq_step sum_crc sample_subs 2) g g'.
Proof.
  revert g. induction l as [|a l IH]; intros g H; simpl in H; [by simplify_eq|].
  apply bind_Some in H as (g1 & H1 & H2). eapply rtc_l; [|by apply IH].
  destruct a; simpl in H1; [by eapply ws_submit|by eapply ws_writer|]. simplify_eq. constructor.
Qed.

Definition opened : World * result IoError WriterTask := wal_open "wal" 400 1 0 (mkWorld (disk_new 7) []).
Definition open_task : WriterTask :=
  match opened.2 with Ok t => t | Err _ => mkTask EmptyString 0 (mkActive 0 0 0 0) true 0 0 end.

(** The first two callers join one batch; the fourth passes its shutdown check
    before the flag is set and sends after the thread has begun to drain. *)
Definition sample_run : list Action :=
  [Caller_acts 0; Caller_acts 0; Caller_acts 0; Thread_acts false; Thread_acts false; Thread_acts false;
   Caller_acts 1; Caller_acts 1; Caller_acts 1; Thread_acts false; Thread_acts false; Thread_acts false;
   Caller_acts 3; Caller_acts 3; Stop; Thread_acts false; Thread_acts false; Thread_acts false;
   Thread_acts false; Caller_acts 3].
Definition sample_end : list Action := replicate 7 (Thread_acts false) ++ [Caller_acts 2].

Definition sample_state (l : list Action) : WalQ :=
  default (wq_init sample_subs open_task opened.1) (acts l (wq_init sample_subs open_task opened.1)).

Lemma sample_reached l :
  is_Some (acts l (wq_init sample_subs open_task opened.1)) →
  rtc (wq_step sum_crc sample_subs 2) (wq_init sample_subs open_task opened.1) (sample_state l).
Proof. intros [g Hg]. unfold sample_state. rewrite Hg. by apply (acts_steps l). Qed.

Lemma sample_subs_ok : Forall (λ s, frames_ok (sub_frames s)) sample_subs.
Proof. unfold frames_ok. repeat constructor; done. Qed.

(** Both durable submissions survive the power loss that follows the run. *)
Lemma wal_queue_durable_witness :
  ∃ fs, (read_wal sum_crc "wal"
           (mkWorld (reset_power (crash Garble (w_disk (wq_world (sample_state (sample_run ++ sample_end)))))) [])).2
          = Ok fs ∧
        sublist (batch_frames [durable_put 1 1 x01; durable_put 2 1 x03]) fs.
Proof.
  apply (wal_queue_durable sum_crc sample_subs 2 ltac:(done) "wal" 400 1 [] [] (disk_new 7) [] opened.1
    open_task (sample_state (sample_run ++ sample_end)) Garble sum_crc_u64 sample_subs_ok fresh_on_disk
    ltac:(lia) ltac:(simpl; lia)).
  - by vm_compute.
  - apply sample_reached. vm_compute. by eexists.
Defined.

(** The thread is gone and the late submission has its outcome. *)
Lemma wal_queue_exact_witness :
  wq_phase (sample_state (sample_run ++ sample_end)) = WStopped ∧
  wq_callers (sample_state (sample_run ++ sample_end)) !! 3%nat ≠ Some (CToken None).
Proof.
  assert (wq_phase (sample_state (sample_run ++ sample_end)) = WStopped) as Hs by by vm_compute.
  split; [exact Hs|].
  apply (wal_queue_exact sum_crc sample_subs 2 ltac:(done) open_task opened.1
    (sample_state (sample_run ++ sample_end))); [|exact Hs].
  apply sample_reached. vm_compute. by eexists.
Defined.

(** The thread resolves the late submission. *)
Lemma wal_queue_resolves_witness :
  ∃ o, wq_callers (run_writer sum_crc sample_subs (replicate 8 true) (sample_state sample_run)) !! 3%nat =
         Some (CToken (Some o)).
Proof.
  apply (wal_queue_resolves sum_crc sample_subs 2 ltac:(done) open_task opened.1 (sample_state sample_run)).
  - apply sample_reached. vm_compute. by eexists.
  - by vm_compute.
  - vm_compute. lia.
Defined.
End WalQueueSamples.
