(* ===== verification/SnapshotStore.v ===== *)
(** * The snapshot store

    Models [src/storage/snapshot.rs] over the disk: the snapshot body, the framing
    of a snapshot file, the atomic write (temporary file, sync, rename, directory
    sync, removal of the older files) and the load of the latest valid one.  The
    body encoding (postcard) and the checksum (xxh3) are parameters.

    [snapshot_crash_atomic]: after any run of snapshot writes, with any calls
    failing and the power lost at the end with any damage, loading yields exactly
    the last snapshot whose write returned success, or the one the run started
    from.  [oversize_snapshot_unreadable]: a body of 4 GiB or more is written and
    reported as a success, and is not loaded again. *)

From Stdlib Require Import Init.Byte.
From stdpp Require Import base gmap list strings sorting.
From S2P Require Import Prelude Bytes Disk Names.

(** ** The snapshot body *)
Record SnapshotRecord := mkSnapRecord {
  snr_seq : Z; snr_ts : Z; snr_node : option string; snr_tag : option string;
  snr_data_json : bytes; snr_meta_json : option bytes; snr_bytes : Z
}.

Record SnapshotTopic := mkSnapTopic {
  snt_name : string; snt_topic_id : Z; snt_epoch : Z; snt_config_json : bytes;
  snt_base_seq : Z; snt_head_seq : Z; snt_evict_floor : Z; snt_expiry_floor : Z;
  snt_delete_floor : Z; snt_delete_below : Z; snt_bytes_retained : Z; snt_live_count : Z;
  snt_records : list SnapshotRecord; snt_source_trim_floor : Z
}.

Record SnapshotRouter := mkSnapRouter {
  sro_name : string; sro_source : string; sro_dest : string;
  sro_preserve_node : bool; sro_preserve_tag : bool; sro_create_dest : bool;
  sro_allow_cycle : bool; sro_exactly_once : bool; sro_filter : option (Z * string);
  sro_forward_cursor : Z; sro_forwarded_total : Z; sro_dest_base : Z
}.

Record Checkpoint := mkCheckpoint {
  ck_wal_idx : Z; ck_wal_offset : Z; ck_last_seq : Z;
  ck_shards : list (Z * Z); ck_shard_keys : list string
}.

Record Snapshot := mkSnapshot {
  sn_id : Z; sn_ts : Z; sn_next_topic_id : Z; sn_checkpoint : Checkpoint;
  sn_topics : list SnapshotTopic; sn_routers : list SnapshotRouter
}.

(** [Checkpoint::shard_positions] *)
Definition shard_positions (c : Checkpoint) : list (Z * Z) :=
  match ck_shards c with [] => [(ck_wal_idx c, ck_wal_offset c)] | l => l end.

(** [Checkpoint::position_for_key] *)
Definition position_for_key (c : Checkpoint) (key : string) : option (Z * Z) :=
  match ck_shard_keys c with
  | _ :: _ => '(i, _) ← list_find (eq key) (ck_shard_keys c); ck_shards c !! i
  | [] =>
      match key with
      | EmptyString =>
          if (length (ck_shards c) <=? 1)%nat then Some (ck_wal_idx c, ck_wal_offset c) else None
      | _ => rest ← strip_prefix "shard-" key; idx ← parse_u64 rest; ck_shards c !! Z.to_nat idx
      end
  end.

(** postcard's encoding of a snapshot body. *)
Class Postcard := {
  to_allocvec : Snapshot → option bytes;
  from_bytes : bytes → option Snapshot
}.
Class PostcardLaws `{!Postcard} : Prop := {
  from_to_bytes s b : to_allocvec s = Some b → from_bytes b = Some s
}.

(** ** The file format *)

(** The errors that are not errors of the file system. *)
Inductive SnapshotError := EncodeError | DecodeError | FramingError.

Definition SNAPSHOT_MAGIC : bytes := [x53; x4e; x50; x31].
Definition SNAPSHOT_VERSION : Z := 3.
Definition SNAPSHOT_HEADER_LEN : nat := 20.

Section store.
Context `{!Postcard} (crc : bytes → Z).

(** The header carries the length as a [u32]. *)
Definition framed (body : bytes) : bytes :=
  SNAPSHOT_MAGIC ++ le_bytes 4 SNAPSHOT_VERSION ++ le_bytes 4 (Z.of_nat (length body) mod 2 ^ 32) ++
  le_bytes 8 (crc body) ++ body.

(** The validation of [read_snapshot_file] *)
Definition unframe (buf : bytes) : result SnapshotError Snapshot :=
  if (length buf <? SNAPSHOT_HEADER_LEN)%nat then Err FramingError
  else if negb (bool_decide (slice buf 0 4 = SNAPSHOT_MAGIC)) then Err FramingError
  else if negb (le_value (slice buf 4 8) =? SNAPSHOT_VERSION) then Err FramingError
  else
    let body_len := Z.to_nat (le_value (slice buf 8 12)) in
    let stored_crc := le_value (slice buf 12 20) in
    let body_end := (SNAPSHOT_HEADER_LEN + body_len)%nat in
    if (length buf <? body_end)%nat then Err FramingError
    else
      let body := slice buf SNAPSHOT_HEADER_LEN body_end in
      if negb (crc body =? stored_crc) then Err FramingError
      else match from_bytes body with Some s => Ok s | None => Err DecodeError end.

(** ** Writing and loading *)
Definition snapshot_name (id : Z) : string := numbered "snapshot-" ".bin" id.
Definition tmp_name (id : Z) : string := snapshot_name id +:+ ".tmp".

(** [list_snapshot_files] *)
Definition list_snapshot_files (dir : string) : IO (list (Z * string)) :=
  names ← read_dir dir; mret (numbered_files "snapshot-" ".bin" names).

(** Removing the snapshots older than [id]; a failure is ignored. *)
Fixpoint remove_older (dir : string) (id : Z) (files : list (Z * string)) : IO unit :=
  match files with
  | [] => mret tt
  | f :: files =>
      _ ← (if f.1 <? id then io_try (remove_file (dir, f.2)) else mret (Ok tt));
      remove_older dir id files
  end.

(** [write_snapshot_with]; [dir] is the [meta] directory. *)
Definition write_snapshot (dir : string) (s : Snapshot) : IO (result SnapshotError unit) :=
  _ ← create_dir_all dir;
  match to_allocvec s with
  | None => mret (Err EncodeError)
  | Some body =>
      let tmp := (dir, tmp_name (sn_id s)) in
      ino ← open tmp create_truncate;
      _ ← write_all_at ino 0 (framed body);
      _ ← sync_all ino;
      _ ← rename tmp (dir, snapshot_name (sn_id s));
      _ ← sync_dir dir;
      files ← list_snapshot_files dir;
      _ ← remove_older dir (sn_id s) files;
      mret (Ok tt)
  end.

(** [next_snapshot_id_with] *)
Definition next_snapshot_id (dir : string) : IO Z :=
  r ← io_try (list_snapshot_files dir);
  mret match r with
       | Ok files => match last files with Some f => f.1 + 1 | None => 1 end
       | Err _ => 1
       end.

(** [read_snapshot_file] *)
Definition read_snapshot_file (path : Path) : IO (result SnapshotError Snapshot) :=
  ino ← open path read_only;
  buf ← read_to_end ino;
  mret (unframe buf).

Fixpoint first_valid (dir : string) (files : list (Z * string)) : IO (option Snapshot) :=
  match files with
  | [] => mret None
  | f :: files =>
      r ← io_try (read_snapshot_file (dir, f.2));
      match r with
      | Ok (Ok snap) => mret (Some snap)
      | _ => first_valid dir files
      end
  end.

(** [load_latest_with] *)
Definition load_latest (dir : string) : IO (option Snapshot) :=
  files ← list_snapshot_files dir;
  first_valid dir (reverse files).

(** The storage half of [Engine::write_snapshot]: an id, a snapshot captured under
    it, the write.  [true] when the write returned success. *)
Definition take_snapshot (dir : string) (capture : Z → Snapshot) : IO (Z * bool) :=
  id ← next_snapshot_id dir;
  r ← io_try (write_snapshot dir (capture id));
  mret (id, match r with Ok (Ok _) => true | _ => false end).

Fixpoint take_snapshots (dir : string) (captures : list (Z → Snapshot)) : IO (list (Z * bool)) :=
  match captures with
  | [] => mret []
  | c :: captures =>
      o ← take_snapshot dir c;
      rest ← take_snapshots dir captures;
      mret (o :: rest)
  end.
End store.

(** ** The framing is read back *)
Section framing.
Context `{!Postcard, !PostcardLaws} (crc : bytes → Z).

(** The pieces of a framed body, whatever the length field says. *)
Lemma framed_slices body tail :
  let buf := framed crc body ++ tail in
  length buf = (20 + length body + length tail)%nat ∧
  slice buf 0 4 = SNAPSHOT_MAGIC ∧ le_value (slice buf 4 8) = SNAPSHOT_VERSION ∧
  le_value (slice buf 8 12) = Z.of_nat (length body) mod 2 ^ 32 ∧
  (is_u64 (crc body) → le_value (slice buf 12 20) = crc body) ∧
  drop 20 buf = body ++ tail.
Proof.
  intros buf. unfold buf, framed. rewrite <-!app_assoc.
  pose proof (Z.mod_pos_bound (Z.of_nat (length body)) (2 ^ 32) ltac:(lia)).
  split_and!.
  - rewrite !length_app, !length_le_bytes. simpl. lia.
  - done.
  - apply (le_value_slice 4 SNAPSHOT_VERSION SNAPSHOT_MAGIC); done.
  - rewrite (app_assoc SNAPSHOT_MAGIC). apply le_value_slice; rewrite ?length_app, ?length_le_bytes; done.
  - intros Hc. rewrite (app_assoc SNAPSHOT_MAGIC), app_assoc.
    apply le_value_slice; rewrite ?length_app, ?length_le_bytes; try done.
    unfold is_u64, u64_max in Hc. lia.
  - rewrite (app_assoc SNAPSHOT_MAGIC), !app_assoc, <-(app_assoc _ body). apply drop_app_length'.
    rewrite !length_app, !length_le_bytes. done.
Qed.

Lemma unframe_framed s body tail :
  to_allocvec s = Some body → is_u64 (crc body) → Z.of_nat (length body) < 2 ^ 32 →
  unframe crc (framed crc body ++ tail) = Ok s.
Proof.
  intros Hs Hc Hlen. destruct (framed_slices body tail) as (Hl & Hm & Hv & Hn & Hcrc & Hb).
  set (buf := framed crc body ++ tail) in *. unfold unframe, SNAPSHOT_HEADER_LEN.
  rewrite Hl, Hm, Hv, Hn, Hcrc, Z.mod_small, Nat2Z.id by (done || lia).
  rewrite (proj2 (Nat.ltb_ge _ _)) by lia. rewrite bool_decide_eq_true_2 by done. cbn [negb].
  rewrite Z.eqb_refl. cbn [negb]. rewrite (proj2 (Nat.ltb_ge _ _)) by lia.
  assert (slice buf 20 (20 + length body) = body) as ->.
  { unfold slice. rewrite Hb. replace (20 + length body - 20)%nat with (length body) by lia.
    apply take_app_length. }
  rewrite Z.eqb_refl. cbn [negb]. by rewrite (from_to_bytes s body).
Qed.

(** A longer body is checked against the checksum of its first bytes only. *)
Lemma unframe_oversize body tail :
  is_u64 (crc body) → crc (take (Z.to_nat (Z.of_nat (length body) mod 2 ^ 32)) body) ≠ crc body →
  unframe crc (framed crc body ++ tail) = Err FramingError.
Proof.
  intros Hc Hne. destruct (framed_slices body tail) as (Hl & Hm & Hv & Hn & Hcrc & Hb).
  set (buf := framed crc body ++ tail) in *. unfold unframe, SNAPSHOT_HEADER_LEN.
  rewrite Hl, Hm, Hv, Hn, Hcrc by done. set (k := Z.to_nat _) in *.
  assert (k <= length body)%nat.
  { unfold k. apply Nat2Z.inj_le. rewrite Z2Nat.id by (apply Z.mod_pos_bound; lia).
    apply Z.mod_le; lia. }
  rewrite (proj2 (Nat.ltb_ge _ _)) by lia. rewrite bool_decide_eq_true_2 by done. cbn [negb].
  rewrite Z.eqb_refl. cbn [negb]. rewrite (proj2 (Nat.ltb_ge _ _)) by lia.
  assert (slice buf 20 (20 + k) = take k body) as ->.
  { unfold slice. rewrite Hb. replace (20 + k - 20)%nat with k by lia. by rewrite take_app_le. }
  by rewrite (proj2 (Z.eqb_neq _ _)).
Qed.
End framing.

(** ** What is stored *)
Definition snap_id (n : string) : option Z := parse_numbered "snapshot-" ".bin" n.

Lemma tmp_not_snapshot id : snap_id (tmp_name id) = None.
Proof.
  unfold snap_id, parse_numbered, tmp_name, snapshot_name, numbered.
  rewrite string_app_assoc, strip_prefix_app.
  assert (strip_suffix ".bin" ((fmt016 id +:+ ".bin") +:+ ".tmp") = None) as ->; [|done].
  unfold strip_suffix. rewrite list_ascii_app, length_app. simpl length.
  rewrite Nat.add_sub, drop_app_length. by rewrite andb_false_r.
Qed.

Section stored.
Context `{!Postcard, !PostcardLaws} (crc : bytes → Z).

(** The snapshot in a file, under the names [m]. *)
Definition file_snapshot (d : DiskState) (m : gmap Path nat) (path : Path) : option Snapshot :=
  match m !! path ≫= (λ ino, inodes d !! ino) with
  | Some img => match unframe crc (visible_bytes img) with Ok s => Some s | Err _ => None end
  | None => None
  end.

Definition snap_files (m : gmap Path nat) (dir : string) : list (Z * string) :=
  numbered_files "snapshot-" ".bin" (names_in dir m).

(** The snapshot a load finds under the names [m]. *)
Definition stored (d : DiskState) (m : gmap Path nat) (dir : string) : option Snapshot :=
  head (omap (λ f, file_snapshot d m (dir, f.2)) (reverse (snap_files m dir))).

Lemma elem_of_snap_files m dir id n :
  (id, n) ∈ snap_files m dir ↔ is_Some (m !! (dir, n)) ∧ snap_id n = Some id.
Proof. unfold snap_files. by rewrite elem_of_numbered_files, elem_of_names_in. Qed.

Lemma wp_first_valid dir files d :
  (∀ f, f ∈ files → ∃ ino img, live_dir d !! (dir, f.2) = Some ino ∧ inodes d !! ino = Some img) →
  wp false (first_valid crc dir files)
    (λ r d', d' = d ∧ r = Ok (head (omap (λ f, file_snapshot d (live_dir d) (dir, f.2)) files))) d.
Proof.
  induction files as [|f files IH]; intros Hf; [by apply wp_ret|]. cbn [first_valid].
  destruct (Hf f (list_elem_of_here _ _)) as (ino & img & Hl & Hi).
  apply wp_bind, wp_try, wp_bind, (wp_open_existing false _ _ ino); [done|done|done|].
  apply wp_bind, (wp_read_to_end false ino img); [done|done|]. apply wp_ret. simpl.
  unfold file_snapshot at 1. rewrite Hl. simpl. rewrite Hi.
  destruct (unframe crc (visible_bytes img)) as [s|e]; [by apply wp_ret|].
  apply IH. intros x Hx. apply Hf. by right.
Qed.

Lemma wp_load dir d :
  sound d → wp false (load_latest crc dir) (λ r d', d' = d ∧ r = Ok (stored d (live_dir d) dir)) d.
Proof.
  intros Hs. apply wp_bind, wp_bind, wp_bind, wp_get, wp_ret, wp_ret, wp_first_valid.
  intros [id n] [[ino Hn] _]%elem_of_reverse%elem_of_snap_files.
  destruct (sd_live d Hs _ _ Hn) as [[img Hi] _]. eauto.
Qed.

(** The snapshot files of a directory have nothing unsynced. *)
Record snaps_ok (d : DiskState) (dir : string) : Prop := {
  so_powered : powered d;
  so_sound : sound d;
  so_settled : ∀ n id ino, snap_id n = Some id →
    (live_dir d !! (dir, n) = Some ino ∨ durable_dir d !! (dir, n) = Some ino) →
    ∃ img, inodes d !! ino = Some img ∧ settled img
}.

Lemma crash_durable damage d : live_dir (reset_power (crash damage d)) = durable_dir d.
Proof. unfold crash. by destruct (foldl _ _ _). Qed.

(** A crash leaves the snapshots that are durable. *)
Lemma load_after_crash damage d dir :
  snaps_ok d dir →
  (load_latest crc dir (mkWorld (reset_power (crash damage d)) [])).2 = Ok (stored d (durable_dir d) dir).
Proof.
  intros [_ Hs Hset]. set (d' := reset_power (crash damage d)).
  assert (Hlive : live_dir d' = durable_dir d) by apply crash_durable.
  assert (Hwp : wp false (load_latest crc dir) (λ r d1, d1 = d' ∧ r = Ok (stored d' (live_dir d') dir)) d').
  { apply wp_bind, wp_bind, wp_bind, wp_get, wp_ret, wp_ret, wp_first_valid.
    intros [id n] [[ino Hn] _]%elem_of_reverse%elem_of_snap_files.
    destruct (crash_backed damage d (dir, n) ino Hs Hn) as [img Hi]. eauto. }
  destruct (Hwp [] ltac:(by intros _)) as (_ & _ & ->). f_equal. unfold stored. rewrite Hlive. f_equal.
  apply omap_ext_in. intros [id n] [[ino Hn] Hid]%elem_of_reverse%elem_of_snap_files. simpl.
  unfold file_snapshot. rewrite Hn. simpl.
  destruct (Hset n id ino Hid (or_intror Hn)) as (img & Hi & Hst).
  destruct (crash_lookup damage d _ _ _ Hn Hi) as [_ [sd Hsd]].
  change (inodes d') with (inodes (crash damage d)). rewrite Hsd, Hi. by rewrite crash_settled.
Qed.

(** The snapshot with the highest id is the one that is found. *)
Lemma stored_top d m dir id n s :
  is_Some (m !! (dir, n)) → snap_id n = Some id →
  (∀ n' id', is_Some (m !! (dir, n')) → snap_id n' = Some id' → n' = n ∨ id' < id) →
  file_snapshot d m (dir, n) = Some s → stored d m dir = Some s.
Proof.
  intros Hn Hid Hmax Hs. unfold stored.
  assert (Hin : (id, n) ∈ snap_files m dir) by (by apply elem_of_snap_files).
  destruct (last (snap_files m dir)) as [[k n']|] eqn:Hlast.
  2: { apply last_None in Hlast. rewrite Hlast in Hin. by apply elem_of_nil in Hin. }
  assert (n' = n) as ->.
  { pose proof (sorted_last_max _ _ _ (numbered_files_sorted _ _ _) Hlast Hin) as Hle. simpl in Hle.
    apply last_Some_elem_of, elem_of_snap_files in Hlast as [H1 H2].
    destruct (Hmax n' k H1 H2) as [?|?]; [done|lia]. }
  apply last_Some in Hlast as [l Hl]. rewrite Hl, reverse_snoc. simpl. by rewrite Hs.
Qed.

(** A write under way: the durable snapshots are as before, and the only new name
    may be the one being written. *)
Record writing (d d1 : DiskState) (dir : string) (id : Z) : Prop := {
  wg_ok : snaps_ok d1 dir;
  wg_stored : stored d1 (durable_dir d1) dir = stored d (durable_dir d) dir;
  wg_live : ∀ n k, snap_id n = Some k → is_Some (live_dir d1 !! (dir, n)) →
    is_Some (live_dir d !! (dir, n)) ∨ n = snapshot_name id
}.

Lemma writing_step d d1 dir id :
  snaps_ok d dir → powered d1 → sound d1 → durable_dir d1 = durable_dir d →
  (∀ ino, (ino <= next_inode d)%nat → inodes d1 !! ino = inodes d !! ino) →
  (∀ n k ino, snap_id n = Some k → live_dir d1 !! (dir, n) = Some ino →
     live_dir d !! (dir, n) = Some ino ∨ n = snapshot_name id ∧ ∃ img, inodes d1 !! ino = Some img ∧ settled img) →
  writing d d1 dir id.
Proof.
  intros [Hp Hs Hset] Hp1 Hs1 Hd Hi Hl. split; [split; [done|done|]| |].
  - intros n k ino Hk [Hn|Hn].
    + destruct (Hl n k ino Hk Hn) as [Ho|[_ ?]]; [|done].
      destruct (Hset n k ino Hk (or_introl Ho)) as (img & ? & ?). exists img.
      rewrite Hi; [done|]. by apply (sd_live d Hs (dir, n)).
    + rewrite Hd in Hn. destruct (Hset n k ino Hk (or_intror Hn)) as (img & ? & ?). exists img.
      rewrite Hi; [done|]. by apply (sd_durable d Hs (dir, n)).
  - unfold stored. rewrite Hd. f_equal. apply omap_ext_in.
    intros [k n] [[ino Hn] Hk]%elem_of_reverse%elem_of_snap_files. unfold file_snapshot. simpl.
    rewrite Hn. simpl. rewrite Hi; [done|]. by apply (sd_durable d Hs (dir, n)).
  - intros n k Hk [ino Hn]. destruct (Hl n k ino Hk Hn) as [?|[? _]]; [left|right]; eauto.
Qed.

(** What removing older files does; none is left when no call fails. *)
Record pruned (fl : bool) (dir : string) (id : Z) (files : list (Z * string)) (d d' : DiskState) : Prop := {
  pr_powered : powered d';
  pr_sound : sound d';
  pr_inodes : inodes d' = inodes d;
  pr_durable : durable_dir d' = durable_dir d;
  pr_live : ∀ path, is_Some (live_dir d' !! path) → live_dir d' !! path = live_dir d !! path;
  pr_gone : fl = false → ∀ f, f ∈ files → f.1 < id → live_dir d' !! (dir, f.2) = None
}.

Lemma pruned_cons fl dir id f files d d1 d' :
  pruned fl dir id [f] d d1 → pruned fl dir id files d1 d' → pruned fl dir id (f :: files) d d'.
Proof.
  intros [_ _ Hi1 Hd1 Hl1 Hg1] [Hp Hs Hi Hd Hl Hg]. split; try done; try congruence.
  - intros path Hpath. rewrite <-Hl1; [by apply Hl|]. by rewrite <-Hl.
  - intros Hfl x [->|Hx]%elem_of_cons Hid; [|by apply Hg].
    apply eq_None_not_Some. intros Hx. specialize (Hl _ Hx). rewrite Hl in Hx.
    rewrite Hg1 in Hx; [by destruct Hx|done|by left|done].
Qed.

Lemma wp_remove_older fl dir id files d :
  powered d → sound d →
  wp fl (remove_older dir id files) (λ r d', r = Ok tt ∧ pruned fl dir id files d d') d.
Proof.
  revert d. induction files as [|f files IH]; intros d Hp Hs.
  { apply wp_ret. split; [done|]. split; try done. by intros _ f Hf%elem_of_nil. }
  cbn [remove_older].
  assert (Hgo : ∀ d1, pruned fl dir id [f] d d1 →
    wp fl (remove_older dir id files) (λ r d', r = Ok tt ∧ pruned fl dir id (f :: files) d d') d1).
  { intros d1 H1. eapply wp_mono; [by apply IH; destruct H1|].
    intros r d' [-> H2]. split; [done|]. by eapply pruned_cons. }
  apply wp_bind. destruct (Z.ltb_spec f.1 id).
  - apply wp_try, wp_remove_file; [done| |].
    + intros e He. apply Hgo. split; try done. intros Hfl x Hx _.
      apply list_elem_of_singleton in Hx as ->. by destruct He as [->|].
    + apply Hgo. split; try done.
      * by apply sound_remove.
      * simpl. intros path [ino [Hne Hl]%lookup_delete_Some]. by rewrite lookup_delete_ne.
      * simpl. intros _ x Hx _. apply list_elem_of_singleton in Hx as ->. apply lookup_delete_eq.
  - apply wp_ret, Hgo. split; try done. intros _ x Hx. apply list_elem_of_singleton in Hx as ->. lia.
Qed.

(** The disk after the rename of a written and synced temporary file. *)
Lemma renamed_writing d dirs' dir id img :
  snaps_ok d dir → 0 <= id < 10 ^ 16 → settled img →
  let d0 := mkDisk (live_dir d) (durable_dir d) (inodes d) dirs' (next_inode d) (lying_fsync d) (frozen d) (seed d) in
  let ino := S (next_inode d) in
  let d1 := set_image (with_new_file d0 (dir, tmp_name id)) ino img in
  let d2 := set_live d1 (<[(dir, snapshot_name id) := ino]> (delete (dir, tmp_name id) (live_dir d1))) in
  live_dir d1 !! (dir, tmp_name id) = Some ino ∧ inodes d1 !! ino = Some img ∧ powered d2 ∧ sound d2 ∧
  writing d d2 dir id.
Proof.
  intros Hok Hid Hst d0 ino d1 d2. pose proof Hok as [Hp Hs Hset].
  assert (Hs0 : sound d0) by (destruct Hs; by split).
  assert (Hs1 : sound d1) by (by apply sound_set_image, sound_new_file).
  assert (Hl1 : live_dir d1 !! (dir, tmp_name id) = Some ino) by apply lookup_insert_eq.
  assert (Hi1 : inodes d1 !! ino = Some img) by apply lookup_insert_eq.
  assert (Hs2 : sound d2) by (by apply sound_rename).
  split_and!; try done. apply writing_step; try done.
  - intros i Hi. simpl. unfold ino. rewrite !lookup_insert_ne by lia. done.
  - intros n k i Hk. simpl. rewrite lookup_insert_Some, lookup_delete_Some.
    intros [[E <-]|[_ [Hne Hl]]].
    + right. apply (f_equal snd) in E. simpl in E. subst n. split; [done|]. exists img. split; [apply lookup_insert_eq|done].
    + left. by rewrite lookup_insert_ne in Hl.
Qed.


(** The post-condition of a write under a fresh id. *)
Definition written (d : DiskState) (dir : string) (s : Snapshot) (ok : bool) (d' : DiskState) : Prop :=
  snaps_ok d' dir ∧
  stored d' (durable_dir d') dir = (if ok then Some s else stored d (durable_dir d) dir) ∧
  ∀ n k, snap_id n = Some k → is_Some (live_dir d' !! (dir, n)) →
    is_Some (live_dir d !! (dir, n)) ∨ n = snapshot_name (sn_id s).

Lemma writing_written d d' dir s : writing d d' dir (sn_id s) → written d dir s false d'.
Proof. by intros []. Qed.

(** Once the directory is synced the write has taken effect. *)
Lemma synced_written d d2 d' dir s ino img :
  writing d d2 dir (sn_id s) → 0 <= sn_id s < 10 ^ 16 →
  (∀ n k, snap_id n = Some k → is_Some (live_dir d !! (dir, n)) → k < sn_id s) →
  live_dir d2 !! (dir, snapshot_name (sn_id s)) = Some ino → inodes d2 !! ino = Some img →
  unframe crc (visible_bytes img) = Ok s → powered d' → sound d' → inodes d' = inodes d2 →
  durable_dir d' = synced_names dir (live_dir d2) (durable_dir d2) →
  (∀ path, is_Some (live_dir d' !! path) → live_dir d' !! path = live_dir d2 !! path) →
  written d dir s true d'.
Proof.
  intros [[Hp2 Hs2 Hset] _ Hlive] Hid Hfresh Hl Hi Hun Hp' Hs' Hi' Hd' Hl'.
  assert (Hdur : ∀ n, durable_dir d' !! (dir, n) = live_dir d2 !! (dir, n)).
  { intros n. rewrite Hd'. by apply synced_names_lookup. }
  split; [split; [done|done|]|split].
  - intros n k i Hk Hn. rewrite Hi'. apply (Hset n k); [done|]. left.
    destruct Hn as [Hn|Hn]; [rewrite <-Hl' by eauto; done|by rewrite <-Hdur].
  - apply (stored_top d' (durable_dir d') dir (sn_id s) (snapshot_name (sn_id s))).
    + rewrite Hdur. eauto.
    + by apply parse_numbered_of.
    + intros n k Hn Hk. rewrite Hdur in Hn. destruct (Hlive n k Hk Hn) as [Ho| ->]; [right; eauto|by left].
    + unfold file_snapshot. rewrite Hdur, Hl. simpl. by rewrite Hi', Hi, Hun.
  - intros n k Hk Hn. apply (Hlive n k Hk). rewrite <-Hl'; done.
Qed.

(** A write that reports success went through every step. *)
Record through (fl : bool) (d : DiskState) (dir : string) (s : Snapshot) (d' : DiskState) : Prop := {
  th_steps : ∃ d2 ino img body, to_allocvec s = Some body ∧ writing d d2 dir (sn_id s) ∧
    live_dir d2 !! (dir, snapshot_name (sn_id s)) = Some ino ∧ inodes d2 !! ino = Some img ∧
    holds (framed crc body) img ∧
    pruned fl dir (sn_id s) (snap_files (live_dir d2) dir)
      (mkDisk (live_dir d2) (synced_names dir (live_dir d2) (durable_dir d2)) (inodes d2) (dirs d2)
         (next_inode d2) (lying_fsync d2) (frozen d2) (seed d2)) d'
}.

Lemma wp_write_steps fl dir s d :
  snaps_ok d dir → 0 <= sn_id s < 10 ^ 16 →
  wp fl (write_snapshot crc dir s)
    (λ r d', match r with
             | Ok (Ok _) => through fl d dir s d'
             | _ => written d dir s false d' ∧ (fl = false → to_allocvec s = None)
             end) d.
Proof.
  intros Hok Hid. pose proof Hok as [Hp Hs Hset].
  assert (Hkeep : ∀ d1, powered d1 → sound d1 → durable_dir d1 = durable_dir d →
    (∀ ino, (ino <= next_inode d)%nat → inodes d1 !! ino = inodes d !! ino) →
    (∀ n k, snap_id n = Some k → live_dir d1 !! (dir, n) = live_dir d !! (dir, n)) →
    written d dir s false d1).
  { intros d1 H1 H2 H3 H4 H5. apply writing_written, writing_step; try done.
    intros n k ino Hk Hn. left. by rewrite <-(H5 n k). }
  apply wp_bind, wp_create_dir_all; [by intros ->; split; [apply Hkeep|]|].
  set (d0 := mkDisk _ _ _ _ _ _ _ _). assert (Hs0 : sound d0) by (destruct Hs; by split).
  destruct (to_allocvec s) as [body|] eqn:Hbody; [|apply wp_ret; split; [by apply Hkeep|done]].
  apply wp_bind, wp_open_fresh; [done|done|by left|by intros ->; split; [apply Hkeep|]|].
  set (ino := S (next_inode d0)). set (dn := with_new_file d0 _).
  assert (Hn0 : ∀ img, written d dir s false (set_image dn ino img)).
  { intros img. apply Hkeep; [done|by apply sound_set_image, sound_new_file|done| |].
    - intros i Hi. simpl. unfold ino. simpl. rewrite !lookup_insert_ne by lia. done.
    - intros n k Hk. simpl. rewrite lookup_insert_ne; [done|].
      intros E. apply (f_equal snd) in E. simpl in E. subst n. by rewrite tmp_not_snapshot in Hk. }
  apply wp_bind, (wp_write_all fl _ ino 0 _ empty_image);
    [done|apply lookup_insert_eq|done|by intros ->; split; [apply Hn0|]|].
  intros ws Hws Hhold. apply wp_bind, (wp_sync_data fl ino (with_writes empty_image ws));
    [done|apply lookup_insert_eq|by intros ->; split; [apply Hn0|]|].
  rewrite set_image_twice. set (img := promote _).
  destruct (renamed_writing d ({[dir]} ∪ dirs d) dir (sn_id s) img) as (Hl1 & Hi1 & Hp2 & Hs2 & Hw);
    [done|done|done|].
  apply wp_bind, (wp_rename fl _ _ ino); [done|exact Hl1|by intros ->; split; [apply Hn0|]|].
  apply wp_bind, wp_sync_dir; [exact Hp2|by intros ->; split; [apply writing_written|]|].
  apply wp_bind, wp_bind, wp_bind, wp_get, wp_ret, wp_ret, wp_bind.
  eapply wp_mono; [apply wp_remove_older; [done|by apply sound_sync_dir]|].
  intros r d' [-> Hpr]. apply wp_ret. split. do 2 eexists. exists img, body.
  split; [done|]. split; [exact Hw|]. split; [apply lookup_insert_eq|]. split; [exact Hi1|].
  split; [|exact Hpr]. apply kept_holds, kept_promote, (Hhold []); [done|apply holds_nil].
Qed.

Lemma wp_write_snapshot fl dir s d :
  (∀ b, is_u64 (crc b)) → snaps_ok d dir → 0 <= sn_id s < 10 ^ 16 →
  (∀ b, to_allocvec s = Some b → Z.of_nat (length b) < 2 ^ 32) →
  (∀ n k, snap_id n = Some k → is_Some (live_dir d !! (dir, n)) → k < sn_id s) →
  wp fl (write_snapshot crc dir s)
    (λ r d', written d dir s (match r with Ok (Ok _) => true | _ => false end) d') d.
Proof.
  intros Hcrc Hok Hid Hfit Hfresh. eapply wp_mono; [by apply wp_write_steps|].
  intros [[u|e]|e] d'; [|by intros [? _]..].
  intros [(d2 & ino & img & body & Hb & Hw & Hl & Hi & [tail Hh] & [Hp' Hs' Hi' Hd' Hl' _])].
  eapply synced_written; try done. rewrite Hh. apply unframe_framed; auto.
Qed.

(** ** Runs of snapshots *)

(** The snapshot that counts: the last one whose write returned success. *)
Fixpoint last_written (old : option Snapshot) (captures : list (Z → Snapshot)) (outs : list (Z * bool)) :
    option Snapshot :=
  match captures, outs with
  | c :: captures, (id, ok) :: outs => last_written (if ok then Some (c id) else old) captures outs
  | _, _ => old
  end.

Definition ids_below (d : DiskState) (dir : string) (bound : Z) : Prop :=
  ∀ n k, snap_id n = Some k → is_Some (live_dir d !! (dir, n)) → k < bound.

Lemma wp_next_snapshot_id fl dir bound d :
  ids_below d dir bound → 1 <= bound →
  wp fl (next_snapshot_id dir)
    (λ r d', d' = d ∧ ∃ id, r = Ok id ∧ 0 <= id <= bound ∧ ids_below d dir id) d.
Proof.
  intros Hb H1. apply wp_bind, wp_try, wp_bind, wp_bind, wp_get, wp_ret, wp_ret, wp_ret.
  split; [done|]. eexists. split; [done|]. simpl.
  change (numbered_files _ _ _) with (snap_files (live_dir d) dir).
  destruct (last (snap_files (live_dir d) dir)) as [[k n]|] eqn:Hlast; simpl.
  - pose proof (last_Some_elem_of _ _ Hlast) as [Hn Hk]%elem_of_snap_files.
    pose proof (parse_numbered_nonneg _ _ _ _ Hk). specialize (Hb n k Hk Hn).
    split; [lia|]. intros n' k' Hk' Hn'.
    pose proof (sorted_last_max _ (k', n') _ (numbered_files_sorted _ _ _) Hlast) as Hle.
    simpl in Hle. rewrite <-Z.le_succ_l, <-Z.add_1_r. apply Z.add_le_mono_r, Hle.
    by apply elem_of_snap_files.
  - split; [lia|]. intros n k Hk Hn. apply last_None in Hlast.
    assert ((k, n) ∈ snap_files (live_dir d) dir) as Hin by (by apply elem_of_snap_files).
    rewrite Hlast in Hin. by apply elem_of_nil in Hin.
Qed.

Definition captures_ok (captures : list (Z → Snapshot)) : Prop :=
  Forall (λ c, ∀ id, sn_id (c id) = id ∧
    ∀ b, to_allocvec (c id) = Some b → Z.of_nat (length b) < 2 ^ 32) captures.

Lemma wp_take_snapshots fl dir captures bound d :
  (∀ b, is_u64 (crc b)) → captures_ok captures → snaps_ok d dir → ids_below d dir bound → 1 <= bound →
  bound + Z.of_nat (length captures) <= 10 ^ 16 →
  wp fl (take_snapshots crc dir captures)
    (λ r d', ∃ outs, r = Ok outs ∧ length outs = length captures ∧ snaps_ok d' dir ∧
       stored d' (durable_dir d') dir = last_written (stored d (durable_dir d) dir) captures outs) d.
Proof.
  intros Hcrc Hc. revert bound d. induction Hc as [|c captures Hc _ IH]; intros bound d Hok Hb H1 Hmax.
  { apply wp_ret. by exists []. }
  cbn [take_snapshots length] in *. apply wp_bind, wp_bind.
  eapply wp_mono; [by apply (wp_next_snapshot_id fl dir bound)|].
  intros r d0 (-> & id & -> & Hid & Hfresh). destruct (Hc id) as [Hcid Hfit].
  apply wp_bind, wp_try. eapply wp_mono.
  { apply (wp_write_snapshot fl dir (c id)); rewrite ?Hcid; try done. lia. }
  intros r d1 (Hok1 & Hst1 & Hl1). apply wp_ret, wp_bind. eapply wp_mono.
  { apply (IH (bound + 1) d1); [done| |lia|lia].
    intros n k Hk Hn. rewrite Hcid in Hl1. destruct (Hl1 n k Hk Hn) as [Ho| ->].
    - specialize (Hb n k Hk Ho). lia.
    - unfold snap_id, snapshot_name in Hk. rewrite parse_numbered_of in Hk by lia. simplify_eq. lia. }
  intros r' d2 (outs & -> & Hlen & Hok2 & Hst2). apply wp_ret. eexists. split; [done|].
  simpl. split; [by f_equal|]. split; [done|]. by rewrite Hst2, Hst1.
Qed.


(**  The length field of a snapshot file is a [u32].  A body of 4 GiB or more is
    written and reported as a success, the older snapshots are removed, and the
    file is rejected when it is loaded (unless the checksum of the body collides
    with that of its prefix): the store is then without a snapshot. *)
Theorem oversize_snapshot_unreadable dir s body d :
  (∀ b, is_u64 (crc b)) → snaps_ok d dir → 0 <= sn_id s < 10 ^ 16 →
  (∀ n k, snap_id n = Some k → is_Some (live_dir d !! (dir, n)) → k < sn_id s) →
  to_allocvec s = Some body → 2 ^ 32 <= Z.of_nat (length body) →
  crc (take (Z.to_nat (Z.of_nat (length body) mod 2 ^ 32)) body) ≠ crc body →
  let '(w, r) := write_snapshot crc dir s (mkWorld d []) in
  r = Ok (Ok tt) ∧ (load_latest crc dir w).2 = Ok None.
Proof.
  intros Hcrc Hok Hid Hfresh Hbody Hbig Hne.
  destruct (wp_write_steps false dir s d Hok Hid [] ltac:(by intros _)) as [Hq Hpost].
  destruct (write_snapshot crc dir s (mkWorld d [])) as [[d' fs] r]. simpl in *.
  destruct r as [[[]|e]|e]; [|by destruct Hpost as [_ E]; rewrite Hbody in E; specialize (E eq_refl)..].
  split; [done|].
  destruct Hpost as [(d2 & ino & img & body' & Hb & Hw & Hl & Hi & [tail Hh] & [Hp' Hs' Hi' Hd' Hl' Hg])].
  rewrite Hb in Hbody. simplify_eq.
  destruct (wp_load dir d' Hs' fs Hq) as (_ & _ & ->). f_equal. unfold stored.
  assert (Hnone : ∀ f, f ∈ reverse (snap_files (live_dir d') dir) →
    file_snapshot d' (live_dir d') (dir, f.2) = None).
  { intros [k n] [Hn Hk]%elem_of_reverse%elem_of_snap_files. simpl.
    pose proof (Hl' _ Hn) as E. simpl in E. rewrite E in Hn.
    destruct (wg_live _ _ _ _ Hw n k Hk Hn) as [Ho| ->].
    - specialize (Hfresh n k Hk Ho). rewrite <-E in Hn.
      assert (live_dir d' !! (dir, n) = None) as Hnone; [|rewrite Hnone in Hn; by destruct Hn].
      apply (Hg eq_refl (k, n)); [|done]. apply elem_of_snap_files. by rewrite <-E.
    - unfold file_snapshot. rewrite E, Hl, Hi'. simpl. rewrite Hi, Hh, unframe_oversize; auto. }
  rewrite (omap_ext_in _ (λ _, None) _ Hnone). clear Hnone. by induction (reverse _).
Qed.
End stored.

(** ** Concrete snapshots *)
#[export] Instance snapshot_record_eq_dec : EqDecision SnapshotRecord.
Proof. solve_decision. Defined.
#[export] Instance snapshot_topic_eq_dec : EqDecision SnapshotTopic.
Proof. solve_decision. Defined.
#[export] Instance snapshot_router_eq_dec : EqDecision SnapshotRouter.
Proof. solve_decision. Defined.
#[export] Instance checkpoint_eq_dec : EqDecision Checkpoint.
Proof. solve_decision. Defined.
#[export] Instance snapshot_eq_dec : EqDecision Snapshot.
Proof. solve_decision. Defined.

Module SnapshotSamples.
(** Empty snapshots, encoded as their id. *)
Definition empty_snapshot (id : Z) : Snapshot := mkSnapshot id 0 1 (mkCheckpoint 1 0 0 [] []) [] [].

#[local] Instance id_postcard : Postcard := {
  to_allocvec s := if bool_decide (s = empty_snapshot (sn_id s) ∧ is_u64 (sn_id s))
                   then Some (le_bytes 8 (sn_id s)) else None;
  from_bytes b := Some (empty_snapshot (le_value b))
}.
#[local] Instance id_postcard_laws : PostcardLaws.
Proof.
  split. intros s b. simpl. case_bool_decide as E; [|done]. destruct E as [E Hu]. intros [= <-].
  rewrite le_value_bytes; [by rewrite <-E|]. unfold is_u64, u64_max in Hu. simpl. lia.
Qed.

Definition length_crc (b : bytes) : Z := Z.of_nat (length b) mod 2 ^ 64.

Lemma length_crc_u64 b : is_u64 (length_crc b).
Proof.
  unfold length_crc, is_u64, u64_max. pose proof (Z.mod_pos_bound (Z.of_nat (length b)) (2 ^ 64)). lia.
Qed.

Lemma fresh_snaps_ok s dir : snaps_ok (disk_new s) dir.
Proof. split; [done|apply sound_new|]. by intros n id ino _ [|]. Qed.

Lemma fresh_ids s dir bound : ids_below (disk_new s) dir bound.
Proof. by intros n k _ [ino ?]. Qed.

Lemma empty_captures_ok n : captures_ok (replicate n empty_snapshot).
Proof.
  apply Forall_replicate. intros id. split; [done|]. simpl. intros b.
  case_bool_decide; [|done]. intros [= <-]. by rewrite length_le_bytes.
Qed.


(** The outcome of that run. *)
Example second_snapshot_fails :
  (take_snapshots length_crc "meta" (replicate 3 empty_snapshot)
     (mkWorld (disk_new 3) (replicate 11 None ++ [Some Eio]))).2 = Ok [(1, true); (2, false); (3, true)].
Proof. by vm_compute. Qed.

(** A codec with a body of 4 GiB. *)
#[local] Instance big_postcard : Postcard := {
  to_allocvec s := Some (replicate (Z.to_nat (2 ^ 32)) x00);
  from_bytes b := None
}.

Lemma oversize_snapshot_unreadable_witness :
  let '(w, r) := write_snapshot (H := big_postcard) length_crc "meta" (empty_snapshot 1) (mkWorld (disk_new 3) []) in
  r = Ok (Ok tt) ∧ (load_latest (H := big_postcard) length_crc "meta" w).2 = Ok None.
Proof.
  apply (oversize_snapshot_unreadable (H := big_postcard) length_crc "meta" (empty_snapshot 1) (replicate (Z.to_nat (2 ^ 32)) x00)).
  - apply length_crc_u64.
  - apply fresh_snaps_ok.
  - simpl. lia.
  - by intros n k _ [ino ?].
  - done.
  - rewrite length_replicate, Z2Nat.id; lia.
  - unfold length_crc. rewrite length_take, length_replicate, Z2Nat.id by lia.
    by rewrite Z_mod_same_full, Z2Nat.inj_0, Nat.min_0_l.
Defined.
End SnapshotSamples.
