(* ===== verification/Router.v ===== *)
(** * The router graph

    Models [src/engine/router.rs]: the registry of routers with the forward
    cursor, the forwarded total and the destination base of each, and the cycle
    check of [upsert].  A [HashMap] iterates in an unspecified order; the model
    fixes one ([map_to_list]), which only the reported cycle path depends on.

    [cycle_check_exact]: the depth-first search reports a cycle exactly when the
    new edge closes one, and the path it reports is a walk of the graph.
    [routers_acyclic]: in every registry reachable by the operations, each
    directed cycle goes through a router that allows cycles. *)

From S2P Require Import Prelude Types.

Record Router := mkRouter {
  rt_name : string;
  rt_source : string;
  rt_dest : string;
  rt_preserve_node : bool;
  rt_preserve_tag : bool;
  rt_create_dest : bool;
  rt_filter : option Filter;
  rt_allow_cycle : bool;
  rt_guarantee : RouterGuarantee
}.

Record RouterGraph := mkGraph {
  g_routers : gmap string Router;
  g_cursors : gmap string Z;
  g_forwarded_total : gmap string Z;
  g_dest_base : gmap string Z
}.

(** [RouterGraph::new] *)
Definition graph_new : RouterGraph := mkGraph ∅ ∅ ∅ ∅.

(** [RouterGraph::get], [len], [forwarded_total], [cursor], [dest_base] *)
Definition graph_get (g : RouterGraph) (name : string) : option Router := g_routers g !! name.
Definition graph_len (g : RouterGraph) : Z := Z.of_nat (size (g_routers g)).
Definition forwarded_total (g : RouterGraph) (name : string) : Z := default 0 (g_forwarded_total g !! name).
Definition graph_cursor (g : RouterGraph) (name : string) : Z := default 0 (g_cursors g !! name).
Definition dest_base (g : RouterGraph) (name : string) : Z := default 0 (g_dest_base g !! name).

(** [RouterGraph::next_dest_seq] *)
Definition next_dest_seq (g : RouterGraph) (name : string) : Z :=
  dest_base g name + forwarded_total g name + 1.

(** The routers, in the iteration order of the registry. *)
Definition graph_iter (g : RouterGraph) : list Router := (map_to_list (g_routers g)).*2.

(** ** Cycle check *)

(** The adjacency lists of [would_create_cycle_excluding]. *)
Definition adjacency (g : RouterGraph) (exclude : option string) (from : string) : list string :=
  rt_dest <$> filter (λ r, exclude ≠ Some (rt_name r) ∧ rt_source r = from) (graph_iter g).

(** The loop over the neighbours in [dfs_to]; the state is the visited set and
    the path. *)
Fixpoint dfs_neighbors
    (visit : string → gset string * list string → option (list string) * (gset string * list string))
    (ns : list string) (st : gset string * list string) :
    option (list string) * (gset string * list string) :=
  match ns with
  | [] => (None, st)
  | n :: ns =>
      if decide (n ∈ st.1) then dfs_neighbors visit ns st
      else match visit n st with
           | (Some found, st) => (Some found, st)
           | (None, st) => dfs_neighbors visit ns st
           end
  end.

(** [dfs_to] *)
Fixpoint dfs_to (fuel : nat) (adj : string → list string) (target from : string)
    (st : gset string * list string) : option (list string) * (gset string * list string) :=
  match fuel with
  | O => (None, st)
  | S fuel =>
      let path := st.2 ++ [from] in
      if decide (from = target) then (Some path, (st.1, path))
      else
        let visited := {[from]} ∪ st.1 in
        match dfs_neighbors (dfs_to fuel adj target) (adj from) (visited, path) with
        | (Some found, st) => (Some found, st)
        | (None, (visited, path)) => (None, (visited, take (length path - 1) path))
        end
  end.

(** Each nested call visits a new topic: the destination or one of a router. *)
Definition dfs_fuel (g : RouterGraph) : nat := S (size (g_routers g)).

(** [would_create_cycle_excluding] *)
Definition would_create_cycle_excluding (g : RouterGraph) (source dest : string)
    (exclude : option string) : option (list string) :=
  if decide (source = dest) then Some [source; dest]
  else
    match dfs_to (dfs_fuel g) (adjacency g exclude) source dest (∅, []) with
    | (Some found, _) => Some (source :: found)
    | (None, _) => None
    end.

(** [would_create_cycle] *)
Definition would_create_cycle (g : RouterGraph) (source dest : string) : option (list string) :=
  would_create_cycle_excluding g source dest None.

(** ** Updates *)

(** [HashMap::entry(k).or_insert(0)] *)
Definition or_insert_0 (name : string) (m : gmap string Z) : gmap string Z :=
  match m !! name with Some _ => m | None => <[name := 0]> m end.

(** [RouterGraph::upsert] *)
Definition upsert (g : RouterGraph) (router : Router) : result ErrorCode (RouterGraph * bool) :=
  let cycle := if rt_allow_cycle router then None
               else would_create_cycle_excluding g (rt_source router) (rt_dest router)
                      (Some (rt_name router)) in
  match cycle with
  | Some _ => Err RouterCycle
  | None =>
      let name := rt_name router in
      let created := match g_routers g !! name with Some _ => false | None => true end in
      Ok (mkGraph (<[name := router]> (g_routers g)) (or_insert_0 name (g_cursors g))
            (or_insert_0 name (g_forwarded_total g)) (or_insert_0 name (g_dest_base g)), created)
  end.

(** [RouterGraph::upsert_capped] *)
Definition upsert_capped (g : RouterGraph) (router : Router) (max_routers : Z) :
    result ErrorCode (RouterGraph * bool) :=
  let is_new := match g_routers g !! rt_name router with Some _ => false | None => true end in
  if is_new && negb (max_routers =? 0) && (max_routers <=? graph_len g) then Err Throttled
  else upsert g router.

(** [RouterGraph::remove] *)
Definition graph_remove (g : RouterGraph) (name : string) : RouterGraph * bool :=
  (mkGraph (delete name (g_routers g)) (delete name (g_cursors g))
     (delete name (g_forwarded_total g)) (delete name (g_dest_base g)),
   match g_routers g !! name with Some _ => true | None => false end).

(** [RouterGraph::routers_touching_topic] *)
Definition routers_touching_topic (g : RouterGraph) (topic : string) : list string :=
  merge_sort String.le
    (rt_name <$> filter (λ r, rt_source r = topic ∨ rt_dest r = topic) (graph_iter g)).

(** [RouterGraph::remove_touching_topic] *)
Definition remove_touching_topic (g : RouterGraph) (topic : string) : RouterGraph * list string :=
  let removed := routers_touching_topic g topic in
  (foldl (λ g name, (graph_remove g name).1) g removed, removed).

(** [RouterGraph::routers_for_source] *)
Definition routers_for_source (g : RouterGraph) (topic : string) : list Router :=
  filter (λ r, rt_source r = topic) (graph_iter g).

(** [RouterGraph::note_forwarded] *)
Definition note_forwarded (g : RouterGraph) (router : string) (src_head count : Z) : RouterGraph :=
  mkGraph (g_routers g) (<[router := src_head]> (g_cursors g))
    (<[router := forwarded_total g router + count]> (g_forwarded_total g)) (g_dest_base g).

(** [RouterGraph::set_cursor] *)
Definition graph_set_cursor (g : RouterGraph) (name : string) (c : Z) : RouterGraph :=
  mkGraph (g_routers g) (<[name := c]> (g_cursors g)) (g_forwarded_total g) (g_dest_base g).

(** [RouterGraph::seed_dest_base] *)
Definition seed_dest_base (g : RouterGraph) (name : string) (base : Z) : RouterGraph :=
  if forwarded_total g name =? 0
  then mkGraph (g_routers g) (g_cursors g) (g_forwarded_total g) (<[name := base]> (g_dest_base g))
  else g.

(** [RouterGraph::snapshot_all] *)
Definition snapshot_all (g : RouterGraph) : list (Router * Z * Z * Z) :=
  (λ r, (r, graph_cursor g (rt_name r), forwarded_total g (rt_name r), dest_base g (rt_name r)))
    <$> graph_iter g.

(** [RouterGraph::restore] *)
Definition graph_restore (g : RouterGraph) (router : Router) (c total base : Z) : RouterGraph :=
  let name := rt_name router in
  mkGraph (<[name := router]> (g_routers g)) (<[name := c]> (g_cursors g))
    (<[name := total]> (g_forwarded_total g)) (<[name := base]> (g_dest_base g)).

(** [default_router_name], [validate_router] *)
Definition default_router_name (source dest : string) : string := source +:+ "->" +:+ dest.
Definition validate_router (source dest : string) : result ErrorCode unit :=
  if decide (source = dest) then Err InvalidRequest
  else if negb (is_valid_name source) || negb (is_valid_name dest) then Err InvalidRequest
  else Ok tt.

(** ** The search *)

(** Walks of a graph given by adjacency lists. *)
Inductive walk (adj : string → list string) : string → string → list string → Prop :=
  | walk_end x : walk adj x x [x]
  | walk_step x y z l : y ∈ adj x → walk adj y z l → walk adj x z (x :: l).

Definition step_of (adj : string → list string) (x y : string) : Prop := y ∈ adj x.

Lemma walk_rtc adj x y l : walk adj x y l → rtc (step_of adj) x y.
Proof. induction 1; [done|]. by eapply rtc_l. Qed.

(** What a search from [visited] to [visited'] without success has established. *)
Record exhausted (adj : string → list string) (target : string) (visited visited' : gset string) : Prop := {
  ex_sub : visited ⊆ visited';
  ex_new x : x ∈ visited' → x ∉ visited → x ≠ target ∧ ∀ y, y ∈ adj x → y ∈ visited'
}.

Lemma exhausted_refl adj t v : exhausted adj t v v.
Proof. split; [done|]. intros x ? []. done. Qed.

Lemma exhausted_trans adj t v1 v2 v3 :
  exhausted adj t v1 v2 → exhausted adj t v2 v3 → exhausted adj t v1 v3.
Proof.
  intros [H1 H2] [H3 H4]. split; [set_solver|]. intros x Hx Hn.
  destruct (decide (x ∈ v2)) as [Hin|Hni]; [|by apply H4].
  destruct (H2 x Hin Hn) as [? Hy]. split; [done|]. intros y ?. by apply H3, Hy.
Qed.

(** The specification of a search, for every node that is still unvisited. *)
Definition search_ok adj target (visit : string → gset string * list string →
    option (list string) * (gset string * list string)) (U : gset string) (n : nat) : Prop :=
  ∀ from visited path, from ∈ U → from ∉ visited → (size (U ∖ visited) <= n)%nat →
  let '(o, (visited', path')) := visit from (visited, path) in
  visited ⊆ visited' ∧
  match o with
  | Some found => ∃ l, found = path ++ l ∧ walk adj from target l
  | None => path' = path ∧ from ∈ visited' ∧ exhausted adj target visited visited'
  end.

Lemma dfs_neighbors_ok adj target visit (U : gset string) n ns visited path :
  search_ok adj target visit U n → (∀ y, y ∈ ns → y ∈ U) → (size (U ∖ visited) <= n)%nat →
  let '(o, (visited', path')) := dfs_neighbors visit ns (visited, path) in
  visited ⊆ visited' ∧
  match o with
  | Some found => ∃ y l, y ∈ ns ∧ found = path ++ l ∧ walk adj y target l
  | None => path' = path ∧ (∀ y, y ∈ ns → y ∈ visited') ∧ exhausted adj target visited visited'
  end.
Proof.
  intros Hv. revert visited path. induction ns as [|y ns IH]; intros visited path HU Hn; simpl.
  { do 2 (split; [done|]). split; [by intros y ?%not_elem_of_nil|apply exhausted_refl]. }
  case_decide as Hy.
  - specialize (IH visited path ltac:(set_solver) Hn).
    destruct (dfs_neighbors visit ns (visited, path)) as [[f|] [v' p']]; destruct IH as (Hs & IH).
    + split; [done|]. destruct IH as (z & l & ? & ? & ?). exists z, l. split_and!; [by right|done|done].
    + destruct IH as (-> & Hall & Hex). do 2 (split; [done|]). split; [set_solver|done].
  - specialize (Hv y visited path ltac:(set_solver) Hy Hn).
    destruct (visit y (visited, path)) as [[f|] [v1 p1]]; destruct Hv as (Hs & Hv).
    { split; [done|]. destruct Hv as (l & ? & ?). exists y, l. split_and!; [by left|done|done]. }
    destruct Hv as (-> & Hyv & Hex).
    specialize (IH v1 path ltac:(set_solver)).
    assert (Hle : (size (U ∖ v1) <= n)%nat).
    { etrans; [|exact Hn]. apply subseteq_size. set_solver. }
    specialize (IH Hle). destruct (dfs_neighbors visit ns (v1, path)) as [[f|] [v' p']]; destruct IH as (Hs' & IH).
    + split; [set_solver|]. destruct IH as (z & l & ? & ? & ?). exists z, l. split_and!; [by right|done|done].
    + destruct IH as (-> & Hall & Hex'). split; [set_solver|]. split; [done|].
      split; [set_solver|by eapply exhausted_trans].
Qed.

(** Enough fuel: one unit per topic still unvisited. *)
Lemma dfs_to_ok adj target (U : gset string) n :
  (∀ x y, x ∈ U → y ∈ adj x → y ∈ U) → search_ok adj target (dfs_to n adj target) U n.
Proof.
  intros Hcl. induction n as [|n IH]; intros from visited path Hf Hv Hn.
  { assert (from ∈ U ∖ visited) as Hin by set_solver.
    assert (U ∖ visited ≡ ∅) as Hemp by (apply size_empty_inv; lia). set_solver. }
  simpl. case_decide as Heq.
  { subst. split; [done|]. exists [target]. split; [done|constructor]. }
  assert (Hle : (size (U ∖ ({[from]} ∪ visited)) <= n)%nat).
  { assert (size (U ∖ ({[from]} ∪ visited)) < size (U ∖ visited))%nat; [|lia].
    apply subset_size. split; [set_solver|]. intros Hsub. specialize (Hsub from). set_solver. }
  pose proof (dfs_neighbors_ok adj target _ U n (adj from) ({[from]} ∪ visited) (path ++ [from]) IH
    (λ y, Hcl from y Hf) Hle) as Hs.
  destruct (dfs_neighbors _ _ _) as [[f|] [v' p']]; destruct Hs as (Hsub & Hs).
  - split; [set_solver|]. destruct Hs as (y & l & Hy & -> & Hw). exists (from :: l).
    split; [by rewrite <-app_assoc|]. by eapply walk_step.
  - destruct Hs as (-> & Hall & Hex). split; [set_solver|].
    rewrite length_app, Nat.add_sub, take_app_length. split; [done|]. split; [set_solver|].
    split; [set_solver|]. intros x Hx Hn'. destruct (decide (x = from)) as [->|Hne].
    + split; [done|]. by apply Hall.
    + apply (ex_new _ _ _ _ Hex); [done|set_solver].
Qed.

(** A search from scratch that finds nothing shows the target unreachable. *)
Lemma exhausted_unreachable adj target from (V : gset string) :
  exhausted adj target ∅ V → from ∈ V → ¬ rtc (step_of adj) from target.
Proof.
  intros [_ Hex] Hin Hr. revert Hin. induction Hr as [x|x y z Hxy Hyz IH]; intros Hin.
  - by destruct (Hex x Hin).
  - apply IH; [done|]. by apply (Hex x Hin).
Qed.

(** The topics a search can meet. *)
Definition topics_of (g : RouterGraph) (dest : string) : gset string :=
  {[dest]} ∪ list_to_set (rt_dest <$> graph_iter g).

Lemma topics_of_closed g ex dest x y : y ∈ adjacency g ex x → y ∈ topics_of g dest.
Proof.
  unfold adjacency, topics_of. intros (r & -> & [_ Hr]%list_elem_of_filter)%list_elem_of_fmap.
  apply elem_of_union_r, elem_of_list_to_set, list_elem_of_fmap. eauto.
Qed.

Lemma size_list_to_set_le (l : list string) : (size (list_to_set l : gset string) <= length l)%nat.
Proof.
  induction l as [|x l IH]; [done|]. simpl. rewrite size_union_alt, size_singleton.
  assert (size ((list_to_set l : gset string) ∖ {[x]}) <= size (list_to_set l : gset string))%nat
    by (apply subseteq_size; set_solver). lia.
Qed.

Lemma topics_of_size g dest : (size (topics_of g dest) <= dfs_fuel g)%nat.
Proof.
  unfold topics_of, dfs_fuel. rewrite size_union_alt, size_singleton.
  pose proof (size_list_to_set_le (rt_dest <$> graph_iter g)) as Hl.
  assert (Hlen : length (rt_dest <$> graph_iter g) = size (g_routers g)).
  { unfold graph_iter. rewrite !length_fmap. apply length_map_to_list. }
  assert (size (list_to_set (rt_dest <$> graph_iter g) ∖ {[dest]} : gset string) <=
    size (list_to_set (rt_dest <$> graph_iter g) : gset string))%nat
    by (apply subseteq_size; set_solver). lia.
Qed.

Lemma cycle_search g ex source dest :
  match dfs_to (dfs_fuel g) (adjacency g ex) source dest (∅, []) with
  | (Some found, _) => walk (adjacency g ex) dest source found
  | (None, _) => ¬ rtc (step_of (adjacency g ex)) dest source
  end.
Proof.
  pose proof (dfs_to_ok (adjacency g ex) source (topics_of g dest) (dfs_fuel g)
    (λ x y _, topics_of_closed g ex dest x y) dest ∅ []) as Hs.
  specialize (Hs ltac:(unfold topics_of; set_solver) ltac:(set_solver)).
  assert (Hsz : (size (topics_of g dest ∖ ∅) <= dfs_fuel g)%nat).
  { rewrite difference_empty_L. apply topics_of_size. }
  specialize (Hs Hsz). destruct (dfs_to _ _ _ _ _) as [[f|] [v' p']]; destruct Hs as (_ & Hs).
  - by destruct Hs as (l & -> & ?).
  - destruct Hs as (_ & Hin & Hex). by eapply exhausted_unreachable.
Qed.

(** ** Acyclicity *)

(** The edges of the routers other than [exclude] that satisfy [P]. *)
Definition edge (P : Router → Prop) (g : RouterGraph) (x y : string) : Prop :=
  ∃ n r, g_routers g !! n = Some r ∧ P r ∧ rt_source r = x ∧ rt_dest r = y.

Lemma elem_of_graph_iter g r : r ∈ graph_iter g ↔ ∃ n, g_routers g !! n = Some r.
Proof.
  unfold graph_iter. rewrite list_elem_of_fmap. split.
  - intros ([n r'] & -> & Hin%elem_of_map_to_list). eauto.
  - intros [n Hn]. exists (n, r). split; [done|]. by apply elem_of_map_to_list.
Qed.

Lemma step_of_adjacency g ex x y :
  step_of (adjacency g ex) x y ↔ edge (λ r, ex ≠ Some (rt_name r)) g x y.
Proof.
  unfold step_of, adjacency, edge. rewrite list_elem_of_fmap. split.
  - intros (r & -> & [[Hex <-] [n Hn]%elem_of_graph_iter]%list_elem_of_filter). exists n, r. done.
  - intros (n & r & Hn & Hex & <- & <-). exists r. split; [done|]. apply list_elem_of_filter.
    split; [done|]. apply elem_of_graph_iter. eauto.
Qed.

(** Every router is filed under its own name. *)
Definition names_ok (g : RouterGraph) : Prop := ∀ n r, g_routers g !! n = Some r → rt_name r = n.

(** No directed cycle uses only edges of [R]. *)
Definition acyclic (R : string → string → Prop) : Prop := ∀ x, ¬ tc R x x.

(** A cycle through a new edge needs a way back. *)
Lemma tc_add_edge (R : string → string → Prop) s d x y :
  tc (λ a b, R a b ∨ (a = s ∧ b = d)) x y → tc R x y ∨ (rtc R x s ∧ rtc R d y).
Proof.
  induction 1 as [x y [HR|[-> ->]]|x y z [HR|[-> ->]] Hyz IH].
  - left. by apply tc_once.
  - by right.
  - destruct IH as [?|[? ?]]; [left; by eapply tc_l|right]. split; [by eapply rtc_l|done].
  - destruct IH as [?|[? ?]]; right; split; try done. by apply tc_rtc.
Qed.

Lemma acyclic_add_edge (R : string → string → Prop) s d :
  acyclic R → s ≠ d → ¬ rtc R d s → acyclic (λ a b, R a b ∨ (a = s ∧ b = d)).
Proof.
  intros Hac Hne Hno x [Ht|[Hs Hd]]%tc_add_edge; [by eapply Hac|]. apply Hno. by etrans.
Qed.

Lemma tc_sub (R R' : string → string → Prop) x y :
  (∀ a b, R' a b → R a b) → tc R' x y → tc R x y.
Proof.
  intros Hsub. induction 1 as [a b Hab|a b c Hab Hbc IH]; [by apply tc_once, Hsub|].
  eapply tc_l; [by apply Hsub|done].
Qed.

Lemma acyclic_sub (R R' : string → string → Prop) :
  acyclic R → (∀ x y, R' x y → R x y) → acyclic R'.
Proof. intros Hac Hsub x Ht. apply (Hac x). by eapply tc_sub. Qed.

(** The edges of the routers that do not allow cycles. *)
Definition strict (r : Router) : Prop := rt_allow_cycle r = false.

Record graph_ok (g : RouterGraph) : Prop := {
  go_names : names_ok g;
  go_acyclic : acyclic (edge strict g)
}.

Lemma names_ok_insert g r cs ft db :
  names_ok g → names_ok (mkGraph (<[rt_name r := r]> (g_routers g)) cs ft db).
Proof.
  intros Hn n r' Hl. simpl in Hl. apply lookup_insert_Some in Hl as [[<- <-]|[_ ?]]; [done|by apply Hn].
Qed.

Lemma upsert_ok g r g' c : graph_ok g → upsert g r = Ok (g', c) → graph_ok g'.
Proof.
  intros [Hnames Hac]. unfold upsert.
  destruct (if rt_allow_cycle r then None else _) eqn:Hcyc; [done|]. intros [= <- _].
  split; [by apply names_ok_insert|].
  set (others := edge (λ r', strict r' ∧ Some (rt_name r) ≠ Some (rt_name r')) g).
  assert (Hoth : acyclic others).
  { eapply acyclic_sub; [exact Hac|]. intros x y (n & r' & ? & [? ?] & ? & ?). by exists n, r'. }
  destruct (rt_allow_cycle r) eqn:Hallow.
  { eapply acyclic_sub; [exact Hac|]. intros x y (n & r' & Hl & Hst & ? & ?). simpl in Hl.
    apply lookup_insert_Some in Hl as [[<- <-]|[_ ?]]; [unfold strict in Hst; congruence|by exists n, r']. }
  unfold would_create_cycle_excluding in Hcyc. case_decide as Hne; [done|].
  pose proof (cycle_search g (Some (rt_name r)) (rt_source r) (rt_dest r)) as Hs.
  destruct (dfs_to _ _ _ _ _) as [[f|] ?]; [done|].
  assert (Hno : ¬ rtc others (rt_dest r) (rt_source r)).
  { intros Hr. apply Hs. eapply rtc_subrel; [|exact Hr]. intros x y (n & r' & ? & [? ?] & ? & ?).
    apply step_of_adjacency. by exists n, r'. }
  eapply acyclic_sub; [apply (acyclic_add_edge others (rt_source r) (rt_dest r) Hoth Hne Hno)|].
  intros x y (n & r' & Hl & Hst & <- & <-). simpl in Hl.
  apply lookup_insert_Some in Hl as [[<- <-]|[Hn ?]]; [by right|left].
  exists n, r'. split_and!; try done. rewrite (Hnames n r') by done. congruence.
Qed.

(** Removing routers removes edges. *)
Lemma graph_ok_sub g g' :
  graph_ok g → (∀ n r, g_routers g' !! n = Some r → g_routers g !! n = Some r) → graph_ok g'.
Proof.
  intros [Hn Ha] Hsub. split; [intros n r Hr; by apply Hn, Hsub|].
  eapply acyclic_sub; [exact Ha|]. intros x y (n & r & ? & ? & ? & ?). exists n, r. by split; [apply Hsub|].
Qed.

Lemma graph_remove_sub g name n r :
  g_routers (graph_remove g name).1 !! n = Some r → g_routers g !! n = Some r.
Proof. simpl. by intros [_ ?]%lookup_delete_Some. Qed.

Lemma foldl_remove_routers names g :
  g_routers (foldl (λ g name, (graph_remove g name).1) g names) =
    filter (λ e, e.1 ∉ names) (g_routers g).
Proof.
  revert g. induction names as [|x names IH]; intros g; simpl.
  { symmetry. apply map_filter_id. intros n r _. apply not_elem_of_nil. }
  rewrite IH. simpl. apply map_eq. intros n. apply option_eq. intros r.
  rewrite !map_lookup_filter_Some, lookup_delete_Some, not_elem_of_cons. simpl. naive_solver.
Qed.

(** ** Histories of the registry *)
Inductive GraphOp :=
  | GUpsert (r : Router) (max_routers : Z)
  | GRemove (name : string)
  | GRemoveTopic (topic : string)
  | GForwarded (name : string) (src_head count : Z)
  | GSetCursor (name : string) (c : Z)
  | GSeedBase (name : string) (base : Z).

Definition exec_graph_op (g : RouterGraph) (op : GraphOp) : RouterGraph :=
  match op with
  | GUpsert r max_routers =>
      match upsert_capped g r max_routers with Ok (g', _) => g' | Err _ => g end
  | GRemove name => (graph_remove g name).1
  | GRemoveTopic topic => (remove_touching_topic g topic).1
  | GForwarded name src_head count => note_forwarded g name src_head count
  | GSetCursor name c => graph_set_cursor g name c
  | GSeedBase name base => seed_dest_base g name base
  end.

Lemma exec_graph_op_ok g op : graph_ok g → graph_ok (exec_graph_op g op).
Proof.
  intros Hg. destruct op; simpl.
  - unfold upsert_capped. destruct (_ && _ && _); [done|].
    destruct (upsert g r) as [[g' c]|e] eqn:Hu; [by eapply upsert_ok|done].
  - eapply graph_ok_sub; [done|]. intros n r. apply graph_remove_sub.
  - eapply graph_ok_sub; [done|]. intros n r. unfold remove_touching_topic. simpl.
    rewrite foldl_remove_routers. by intros [? _]%map_lookup_filter_Some.
  - by eapply graph_ok_sub.
  - by eapply graph_ok_sub.
  - unfold seed_dest_base. destruct (_ =? 0); [by eapply graph_ok_sub|done].
Qed.

Lemma history_ok ops : graph_ok (foldl exec_graph_op graph_new ops).
Proof.
  assert (Hnew : graph_ok graph_new).
  { split; [by intros n r ?|]. intros x Ht. destruct Ht as [x y (n & r & Hn & _)|x y z (n & r & Hn & _)]; done. }
  revert Hnew. generalize graph_new as g. induction ops as [|op ops IH]; intros g Hg; [done|].
  apply IH. by apply exec_graph_op_ok.
Qed.

(** ** Properties *)

(** The cycle check is exact: it reports nothing when the destination cannot
    reach the source over the other routers, and otherwise the topics of a
    directed cycle through the new edge, in order. *)
Theorem cycle_check_exact g source dest exclude :
  match would_create_cycle_excluding g source dest exclude with
  | None => source ≠ dest ∧ ¬ rtc (edge (λ r, exclude ≠ Some (rt_name r)) g) dest source
  | Some cycle =>
      (source = dest ∧ cycle = [source; dest]) ∨
      ∃ l, cycle = source :: l ∧ walk (adjacency g exclude) dest source l
  end.
Proof.
  unfold would_create_cycle_excluding. case_decide as Hne; [by left|].
  pose proof (cycle_search g exclude source dest) as Hs.
  destruct (dfs_to _ _ _ _ _) as [[f|] st]; [right; by exists f|]. split; [done|].
  intros Hr. apply Hs. eapply rtc_subrel; [|exact Hr]. intros x y. apply step_of_adjacency.
Qed.

(** Along every history of the registry, each directed cycle goes through a
    router that was created with [allow_cycle]. *)
Theorem routers_acyclic ops : acyclic (edge strict (foldl exec_graph_op graph_new ops)).
Proof. apply go_acyclic, history_ok. Qed.

(** Deleting a topic removes exactly the routers that read from it or write to
    it, reported by name in ascending order. *)
Theorem topic_cascade_exact g topic :
  names_ok g →
  let '(g', removed) := remove_touching_topic g topic in
  StronglySorted String.le removed ∧
  (∀ n, n ∈ removed ↔ ∃ r, g_routers g !! n = Some r ∧ (rt_source r = topic ∨ rt_dest r = topic)) ∧
  (∀ n r, g_routers g' !! n = Some r ↔
     g_routers g !! n = Some r ∧ rt_source r ≠ topic ∧ rt_dest r ≠ topic).
Proof.
  intros Hn. unfold remove_touching_topic.
  assert (Hin : ∀ n, n ∈ routers_touching_topic g topic ↔
    ∃ r, g_routers g !! n = Some r ∧ (rt_source r = topic ∨ rt_dest r = topic)).
  { intros n. unfold routers_touching_topic. rewrite merge_sort_Permutation, list_elem_of_fmap. split.
    - intros (r & -> & [Ht [m Hm]%elem_of_graph_iter]%list_elem_of_filter). rewrite (Hn m r Hm). eauto.
    - intros (r & Hr & Ht). exists r. split; [by rewrite (Hn n r Hr)|]. apply list_elem_of_filter.
      split; [done|]. apply elem_of_graph_iter. eauto. }
  split; [apply StronglySorted_merge_sort; apply _|]. split; [done|]. intros n r.
  rewrite foldl_remove_routers, map_lookup_filter_Some. simpl. rewrite Hin. naive_solver.
Qed.

(** ** A sample graph *)
Module RouterSamples.
Definition router (n s d : string) (cyc : bool) : Router :=
  mkRouter n s d true true true None cyc AtLeastOnce.
Definition sample_graph : RouterGraph :=
  foldl exec_graph_op graph_new
    [GUpsert (router "r1" "a" "b" false) 0; GUpsert (router "r2" "b" "c" false) 0;
     GUpsert (router "r3" "d" "a" false) 0].

Lemma topic_cascade_exact_witness :
  let '(g', removed) := remove_touching_topic sample_graph "b" in
  removed = ["r1"; "r2"]%string ∧
  (∀ n r, g_routers g' !! n = Some r ↔
     g_routers sample_graph !! n = Some r ∧ rt_source r ≠ "b"%string ∧ rt_dest r ≠ "b"%string).
Proof.
  assert (Hn : names_ok sample_graph) by apply go_names, history_ok.
  pose proof (topic_cascade_exact sample_graph "b" Hn) as Hc.
  destruct (remove_touching_topic sample_graph "b") as [g' removed] eqn:Hr.
  split; [by vm_compute in Hr; injection Hr as _ <-|apply Hc].
Defined.

(** Closing the loop [a -> b -> c -> a] is refused with its path, and accepted
    when the router allows cycles. *)
Example sample_cycle_refused :
  would_create_cycle_excluding sample_graph "c" "a" None = Some ["c"; "a"; "b"; "c"]%string ∧
  upsert sample_graph (router "r4" "c" "a" false) = Err RouterCycle ∧
  is_ok (upsert sample_graph (router "r4" "c" "a" true)) = true.
Proof. by vm_compute. Qed.
End RouterSamples.
