(* ===== verification/Sched.v ===== *)
(** * The priority scheduler

    Models [src/sched.rs]: the effective priority of a topic, the banded ready
    set of dirty topics and the [sched_dirty] flag that keeps a topic from being
    enqueued twice.  Priorities are computed in rationals where the source uses
    [f64]; the power [2f64.powf] is an argument ([Powf]).

    [wakeup_not_lost]: along every history of marks, drains and topic deletions,
    a topic whose flag is set is in the ready set, so the next drain services
    it. *)

From Stdlib Require Import QArith Qround.
From S2P Require Import Prelude.

(** [2f64.powf(x)] *)
Class Powf := pow2 : Q → Q.

(** ** Constants ([src/config.rs]) *)
Definition PRIORITY_MIN : Z := -1000.
Definition PRIORITY_MAX : Z := 1000.
Definition AUTO_MAX : Q := 500 # 1.
Definition HALF_LIFE_MS : Q := 30000 # 1.
Definition AUTO_FLOOR_MS : Z := 300000.
Definition AGE_RATE_PER_MS : Q := 1 # 10.
Definition AGE_CAP_MS : Z := 10000.

Inductive Band := B4 | B3 | B2 | B1 | B0.

(** [Band::of] *)
Definition band_of (eff_priority : Z) : Band :=
  if 750 <=? eff_priority then B4
  else if 500 <=? eff_priority then B3
  else if 250 <=? eff_priority then B2
  else if 0 <=? eff_priority then B1
  else B0.

(** [Band::weight] *)
Definition band_weight (b : Band) : Z :=
  match b with B4 => 8 | B3 => 4 | B2 => 2 | B1 | B0 => 1 end.

Record ReadySet := mkReady {
  rs_b4 : list string;
  rs_b3 : list string;
  rs_b2 : list string;
  rs_b1 : list string;
  rs_b0 : list string
}.

(** The ready set, with the [sched_dirty] flags of the topics that have it set. *)
Record Sched := mkSched { sc_ready : ReadySet; sc_dirty : gset string }.

(** [Scheduler::new] *)
Definition sched_new : Sched := mkSched (mkReady [] [] [] [] []) ∅.

(** [f64::round]: half away from zero. *)
Definition round_q (q : Q) : Z :=
  if Qle_bool 0 q then Qfloor (q + (1 # 2)) else - Qfloor (- q + (1 # 2)).

(** [effective_priority_at] *)
Definition effective_priority_at `{Powf} (now_ms : Z) (manual : option Z) (auto_priority : bool)
    (last_consumed_ms enqueued_ms : option Z) : Z :=
  let manual_term := inject_Z (Z.max PRIORITY_MIN (Z.min PRIORITY_MAX (default 0 manual))) in
  let auto_term :=
    if bool_decide (manual = None) && auto_priority
    then match last_consumed_ms with
         | Some last =>
             let idle := Z.max (now_ms - last) 0 in
             if AUTO_FLOOR_MS <=? idle then 0%Q
             else (AUTO_MAX * pow2 (- inject_Z idle / HALF_LIFE_MS))%Q
         | None => 0%Q
         end
    else 0%Q in
  let age_term :=
    match enqueued_ms with
    | Some enq => (AGE_RATE_PER_MS * inject_Z (Z.min (Z.max (now_ms - enq) 0) AGE_CAP_MS))%Q
    | None => 0%Q
    end in
  round_q (manual_term + auto_term + age_term).

(** [Band::queue_mut]: update the queue of a band. *)
Definition on_band (b : Band) (f : list string → list string) (r : ReadySet) : ReadySet :=
  match b with
  | B4 => mkReady (f (rs_b4 r)) (rs_b3 r) (rs_b2 r) (rs_b1 r) (rs_b0 r)
  | B3 => mkReady (rs_b4 r) (f (rs_b3 r)) (rs_b2 r) (rs_b1 r) (rs_b0 r)
  | B2 => mkReady (rs_b4 r) (rs_b3 r) (f (rs_b2 r)) (rs_b1 r) (rs_b0 r)
  | B1 => mkReady (rs_b4 r) (rs_b3 r) (rs_b2 r) (f (rs_b1 r)) (rs_b0 r)
  | B0 => mkReady (rs_b4 r) (rs_b3 r) (rs_b2 r) (rs_b1 r) (f (rs_b0 r))
  end.

(** [Scheduler::mark_dirty] *)
Definition mark_dirty (topic_name : string) (eff_priority : Z) (s : Sched) : Sched :=
  mkSched (on_band (band_of eff_priority)
             (λ q, if decide (topic_name ∈ q) then q else q ++ [topic_name]) (sc_ready s))
    (sc_dirty s).

(** [Scheduler::mark_dirty_fast]: the flag is tested and set, then the topic is
    enqueued. *)
Definition mark_dirty_fast (topic_name : string) (eff_priority : Z) (s : Sched) : Sched :=
  if decide (topic_name ∈ sc_dirty s) then s
  else mark_dirty topic_name eff_priority (mkSched (sc_ready s) ({[topic_name]} ∪ sc_dirty s)).

(** [Scheduler::drain_order] *)
Definition drain_order (s : Sched) : Sched * list string :=
  let r := sc_ready s in
  (mkSched (mkReady [] [] [] [] []) (sc_dirty s),
   rs_b4 r ++ rs_b3 r ++ rs_b2 r ++ rs_b1 r ++ rs_b0 r).

(** [Scheduler::drain_order_clearing] with the engine's [clear], which resets the
    flag of the topic now registered under the name, if there is one. *)
Definition drain_order_clearing (s : Sched) : Sched * list string :=
  let '(s, out) := drain_order s in
  (mkSched (sc_ready s) (sc_dirty s ∖ list_to_set out), out).

(** A topic is removed from the registry and its flag with it; a topic created
    later under that name starts clean. *)
Definition forget_dirty (topic_name : string) (s : Sched) : Sched :=
  mkSched (sc_ready s) (sc_dirty s ∖ {[topic_name]}).

(** ** Histories *)
Inductive SchedOp :=
  | SMark (name : string) (eff_priority : Z)
  | SDrain
  | SForget (name : string).

Definition exec_sched_op (op : SchedOp) (s : Sched) : Sched :=
  match op with
  | SMark name p => mark_dirty_fast name p s
  | SDrain => (drain_order_clearing s).1
  | SForget name => forget_dirty name s
  end.

(** The topics in the ready set. *)
Definition ready_names (s : Sched) : list string := (drain_order s).2.

Definition flags_ready (s : Sched) : Prop := ∀ name, name ∈ sc_dirty s → name ∈ ready_names s.

Lemma ready_names_mark name p s x :
  x ∈ ready_names (mark_dirty name p s) ↔ x = name ∨ x ∈ ready_names s.
Proof.
  unfold ready_names, mark_dirty. simpl. destruct (sc_ready s) as [q4 q3 q2 q1 q0].
  destruct (band_of p); simpl; destruct (decide _); set_solver.
Qed.

Lemma exec_sched_op_flags op s : flags_ready s → flags_ready (exec_sched_op op s).
Proof.
  intros Hs x. destruct op as [name p| |name]; simpl.
  - unfold mark_dirty_fast. destruct (decide (name ∈ sc_dirty s)); [apply Hs|].
    rewrite ready_names_mark. simpl. intros [->%elem_of_singleton|Hx]%elem_of_union; [by left|].
    right. by apply Hs.
  - intros [Hx Hn]%elem_of_difference. destruct Hn. apply elem_of_list_to_set. by apply Hs.
  - intros [Hx _]%elem_of_difference. by apply Hs.
Qed.

Lemma exec_sched_ops_flags ops s : flags_ready s → flags_ready (foldl (flip exec_sched_op) s ops).
Proof.
  revert s. induction ops as [|op ops IH]; intros s Hs; [done|].
  by apply IH, exec_sched_op_flags.
Qed.

(** No wake-up is lost: after any history of marks, drains and deletions of
    topics from a fresh scheduler, marking a topic dirty puts it in the list the
    next drain returns, whether or not its flag was already set, and the drain
    clears its flag so that a later write enqueues it again. *)
Theorem wakeup_not_lost (ops : list SchedOp) (name : string) (p : Z) :
  let s := mark_dirty_fast name p (foldl (flip exec_sched_op) sched_new ops) in
  name ∈ (drain_order_clearing s).2 ∧ name ∉ sc_dirty (drain_order_clearing s).1.
Proof.
  intros s. assert (Hf : flags_ready s).
  { apply (exec_sched_op_flags (SMark name p)), exec_sched_ops_flags. intros x.
    simpl. set_solver. }
  assert (Hin : name ∈ ready_names s).
  { unfold s, mark_dirty_fast in *. destruct (decide _) as [Hd|]; [by apply Hf|].
    apply ready_names_mark. by left. }
  split; [exact Hin|]. simpl. rewrite elem_of_difference, elem_of_list_to_set.
  intros [_ []]. exact Hin.
Qed.
