(* ===== verification/Json.v ===== *)
(** * Record payloads

    Models the payload helpers of [src/engine/mod.rs]: the JSON envelope of a
    WAL frame, the accounted size of a record, the validation of an incoming
    record ([build_stored_owned]) and the provenance that a router or the
    dead-letter path stamps into a record's meta.

    [serde_json] is third-party code: [Serde] is the part of its interface the
    engine uses and [SerdeLaws] is what replay relies on.  [JsonSample] is a
    concrete JSON type with these laws. *)

From stdpp Require Import base gmap list strings pretty countable.
From S2P Require Import Prelude Types TopicIndex Bytes.

(** ** The interface of [serde_json] *)
Class Serde (V : Type) := {
  (** [serde_json::to_vec] of a value, which does not fail, and [from_slice] *)
  json_to_vec : V → bytes;
  json_from_slice : bytes → option V;
  (** [Value::Object] and [as_object] *)
  json_object : gmap string V → V;
  json_as_object : V → option (gmap string V);
  (** [Value::String] and [as_str] *)
  json_string : string → V;
  json_as_str : V → option string;
  (** [Value::Number] *)
  json_number : Z → V;
  (** the derived [Serialize] and [Deserialize] of [TopicConfig] *)
  config_to_vec : TopicConfig → bytes;
  config_from_slice : bytes → option TopicConfig
}.

Class SerdeLaws (V : Type) `{!Serde V} : Prop := {
  from_slice_to_vec v : json_from_slice (json_to_vec v) = Some v;
  as_object_object m : json_as_object (json_object m) = Some m;
  as_str_string s : json_as_str (json_string s) = Some s;
  config_roundtrip c : config_from_slice (config_to_vec c) = Some c
}.

(** ** Limits ([src/config.rs]) *)
Definition MAX_BATCH_RECORDS : Z := 10000.
Definition MAX_RECORD_BYTES : Z := Z.shiftl 1 20.
Definition MAX_META_BYTES : Z := Z.shiftl 16 10.
Definition MAX_META_KEYS : Z := 64.
Definition MAX_TAG_BYTES : Z := 256.
Definition MAX_NODE_BYTES : Z := 128.
Definition MAX_IDEMPOTENCY_KEY_LEN : Z := 256.

Definition ROUTER_META_KEY : string := "_topics_router".

Section payload.
Context {V : Type} `{!JsonNull V} `{!Serde V}.

Definition json_len (v : V) : Z := Z.of_nat (length (json_to_vec v)).

Definition string_len (s : string) : Z := Z.of_nat (String.length s).

(** [encode_record_payload] *)
Definition encode_record_payload (data : V) (meta : option V) : bytes :=
  let obj := <["d"%string := data]> ∅ in
  let obj := match meta with Some m => <["m"%string := m]> obj | None => obj end in
  json_to_vec (json_object obj).

(** [decode_record_payload] *)
Definition decode_record_payload (blob : bytes) : V * option V :=
  match json_from_slice blob ≫= json_as_object with
  | Some obj => (default json_null (obj !! "d"%string), obj !! "m"%string)
  | None => (json_null, None)
  end.

(** [payload_bytes] *)
Definition payload_bytes (data : V) (meta : option V) : Z :=
  json_len data + match meta with Some m => json_len m | None => 0 end.

(** The size limits of [build_stored_owned], in the order it checks them. *)
Definition check_len (limit : Z) (o : option string) : result ErrorCode unit :=
  match o with
  | Some s => if limit <? string_len s then Err InvalidRequest else Ok tt
  | None => Ok tt
  end.

Definition check_meta (meta : option V) : result ErrorCode unit :=
  match meta with
  | Some m =>
      if MAX_META_BYTES <? json_len m then Err InvalidRequest
      else match json_as_object m with
           | Some obj => if MAX_META_KEYS <? Z.of_nat (size obj) then Err InvalidRequest else Ok tt
           | None => Ok tt
           end
  | None => Ok tt
  end.

(** [build_stored_owned] *)
Definition build_stored_owned (data : V) (tag node : option string) (meta : option V) (now : Z) :
    result ErrorCode (StoredRecord V) :=
  let? _ := check_len MAX_TAG_BYTES tag in
  let? _ := check_len MAX_NODE_BYTES node in
  let? _ := check_meta meta in
  let bytes := payload_bytes data meta in
  if MAX_RECORD_BYTES <? bytes then Err RecordTooLarge
  else Ok (mkRecord now node tag data meta bytes false true 0).

(** The meta of a dead-lettered copy: the source's object with provenance. *)
Definition dead_letter_meta (src_meta : option V) (src_name : string) (max_deliveries seq : Z) : V :=
  let meta := default ∅ (src_meta ≫= json_as_object) in
  json_object
    (<["$dead_letter_src_seq"%string := json_string (pretty seq)]>
     (<["$dead_letter_deliveries"%string := json_string (pretty max_deliveries)]>
      (<["$dead_letter_from"%string := json_string src_name]> meta))).

(** [router_idempotency_key] *)
Definition router_idempotency_key (router_name : string) (topic_id epoch source_seq : Z) : string :=
  "router:" +:+ router_name +:+ ":" +:+ pretty topic_id +:+ ":" +:+ pretty epoch
    +:+ ":" +:+ pretty source_seq.

(** [with_router_idempotency_meta] *)
Definition with_router_idempotency_meta (meta : option V)
    (key router_name source_name : string) (topic_id epoch source_seq : Z) : V :=
  let router_meta := json_object
    (list_to_map [("idempotency_key"%string, json_string key);
                  ("router"%string, json_string router_name);
                  ("source_topic"%string, json_string source_name);
                  ("source_topic_id"%string, json_number topic_id);
                  ("source_epoch"%string, json_number epoch);
                  ("source_seq"%string, json_number source_seq)]) in
  match meta with
  | None => json_object {[ROUTER_META_KEY := router_meta]}
  | Some value =>
      let wrapped := json_object
        (<["_topics_original_meta"%string := value]> {[ROUTER_META_KEY := router_meta]}) in
      match json_as_object value with
      | Some obj =>
          if bool_decide (is_Some (obj !! ROUTER_META_KEY)) || (Z.of_nat (size obj) <? MAX_META_KEYS)
          then json_object (<[ROUTER_META_KEY := router_meta]> obj)
          else wrapped
      | None => wrapped
      end
  end.

(** [router_meta_idempotency_key] *)
Definition router_meta_idempotency_key (meta : option V) : option string :=
  m ← meta; obj ← json_as_object m; r ← obj !! ROUTER_META_KEY;
  robj ← json_as_object r; k ← robj !! "idempotency_key"%string; json_as_str k.

(** ** Facts *)
Lemma decode_encode_payload `{!SerdeLaws V} d m :
  decode_record_payload (encode_record_payload d m) = (d, m).
Proof.
  unfold decode_record_payload, encode_record_payload. rewrite from_slice_to_vec. simpl.
  rewrite as_object_object. by destruct m; simplify_map_eq.
Qed.

(** A stamped record is recognised by its key, whatever meta it had. *)
Lemma router_key_stamped `{!SerdeLaws V} meta key rn sn id ep seq :
  router_meta_idempotency_key (Some (with_router_idempotency_meta meta key rn sn id ep seq)) = Some key.
Proof.
  unfold router_meta_idempotency_key, with_router_idempotency_meta. simpl.
  repeat case_match; rewrite ?as_object_object; simpl; simplify_map_eq; rewrite ?as_object_object; simpl;
    simplify_map_eq; by rewrite ?as_str_string.
Qed.

Lemma payload_bytes_nonneg d m : 0 <= payload_bytes d m.
Proof. unfold payload_bytes, json_len. destruct m; lia. Qed.

Lemma build_stored_ok data tag node meta now r :
  build_stored_owned data tag node meta now = Ok r →
  r = mkRecord now node tag data meta (payload_bytes data meta) false true 0 ∧
  r_bytes r <= MAX_RECORD_BYTES.
Proof.
  unfold build_stored_owned.
  destruct (check_len MAX_TAG_BYTES tag); simpl; [|done].
  destruct (check_len MAX_NODE_BYTES node); simpl; [|done].
  destruct (check_meta meta); simpl; [|done].
  destruct (Z.ltb_spec MAX_RECORD_BYTES (payload_bytes data meta)); [done|].
  intros [= <-]. simpl. done.
Qed.
End payload.

(** ** A concrete JSON type *)
Module JsonSample.
#[warnings="-register-all"]
Inductive Json :=
  | JNull
  | JNumber (z : Z)
  | JString (s : string)
  | JObject (keys : list string) (values : list Json).

#[export] Instance json_null_value : JsonNull Json := JNull.

Fixpoint json_tree (v : Json) : gen_tree (Z + string) :=
  match v with
  | JNull => GenNode 0 []
  | JNumber z => GenLeaf (inl z)
  | JString s => GenLeaf (inr s)
  | JObject ks vs => GenNode 1 (map (λ k, GenLeaf (inr k)) ks ++ GenNode 2 [] :: map json_tree vs)
  end.

(** The children of an object node: keys up to the separator, then values. *)
Fixpoint split_fields (ts : list (gen_tree (Z + string))) (values : list Json) :
    list string * list Json :=
  match ts, values with
  | GenLeaf (inr k) :: ts, _ :: values =>
      let '(ks, vs) := split_fields ts values in (k :: ks, vs)
  | GenNode _ _ :: _, _ :: values => ([], values)
  | _, _ => ([], [])
  end.

Fixpoint tree_json (t : gen_tree (Z + string)) : Json :=
  match t with
  | GenLeaf (inl z) => JNumber z
  | GenLeaf (inr s) => JString s
  | GenNode 1 ts => let '(ks, vs) := split_fields ts (map tree_json ts) in JObject ks vs
  | GenNode _ _ => JNull
  end.

Lemma split_fields_app ks ws (values vs : list Json) v :
  length values = length ks →
  split_fields (map (λ k, GenLeaf (inr k)) ks ++ GenNode 2 [] :: ws) (values ++ v :: vs) = (ks, vs).
Proof.
  revert values. induction ks as [|k ks IH]; intros [|x values] Hlen; try done.
  simpl. rewrite IH; [done|]. by injection Hlen.
Qed.

Fixpoint tree_json_tree (v : Json) : tree_json (json_tree v) = v.
Proof.
  destruct v as [| | |ks vs]; [done..|]. simpl. rewrite map_app, map_cons, map_map.
  rewrite split_fields_app by (by rewrite !length_map). f_equal.
  rewrite map_map. induction vs as [|v vs IH]; [done|]. simpl. by rewrite tree_json_tree, IH.
Qed.

(** A positive number as bytes, one per bit. *)
Fixpoint pos_bytes (p : positive) : bytes :=
  match p with
  | xH => []
  | xO p => Byte.x00 :: pos_bytes p
  | xI p => Byte.x01 :: pos_bytes p
  end.

Fixpoint bytes_pos (bs : bytes) : option positive :=
  match bs with
  | [] => Some xH
  | Byte.x00 :: bs => xO <$> bytes_pos bs
  | Byte.x01 :: bs => xI <$> bytes_pos bs
  | _ => None
  end.

Lemma bytes_pos_bytes p : bytes_pos (pos_bytes p) = Some p.
Proof. induction p as [p IH|p IH|]; simpl; rewrite ?IH; done. Qed.

Definition durability_nat (d : Durability) : nat :=
  match d with Ephemeral => 0 | Memory => 1 | Disk => 2 | Fsync => 3 end%nat.
Definition nat_durability (n : nat) : Durability :=
  match n with 0%nat => Ephemeral | 1%nat => Memory | 2%nat => Disk | _ => Fsync end.

Definition config_tuple (c : TopicConfig) :=
  ((bool_decide (cfg_type c = Queue), cfg_ttl_ms c, cfg_cap_records c, cfg_cap_bytes c,
    bool_decide (cfg_discard c = Reject), cfg_durable c, durability_nat <$> cfg_durability c),
   (cfg_priority c, cfg_auto_priority c, cfg_auto_create c, cfg_idempotency_window_ms c,
    cfg_dedupe_node c),
   (cfg_lease_ms c, cfg_claim_jitter_ms c, cfg_max_deliveries c, cfg_dead_letter c,
    cfg_leases_durable c)).

Definition tuple_config (t : (bool * Z * Z * Z * bool * bool * option nat) *
    (option Z * bool * bool * Z * bool) * (Z * Z * Z * option string * bool)) : TopicConfig :=
  let '((q, ttl, cr, cb, rj, du, dc), (pr, ap, ac, iw, dn), (lm, cj, md, dl, ld)) := t in
  mkTopicConfig (if q then Queue else Log) ttl cr cb (if rj then Reject else Old) du
    (nat_durability <$> dc) pr ap ac iw dn lm cj md dl ld.

Lemma tuple_config_tuple c : tuple_config (config_tuple c) = c.
Proof.
  destruct c as [ty ? ? ? di ? du ? ? ? ? ? ? ? ? ? ?]. unfold config_tuple, tuple_config. simpl.
  destruct ty, di; destruct du as [[]|]; done.
Qed.

#[export] Instance json_serde : Serde Json := {|
  json_to_vec := λ v, pos_bytes (encode (json_tree v));
  json_from_slice := λ bs, p ← bytes_pos bs; tree_json <$> decode p;
  json_object := λ m, JObject (map_to_list m).*1 (map_to_list m).*2;
  json_as_object := λ v, match v with JObject ks vs => Some (list_to_map (zip ks vs)) | _ => None end;
  json_string := JString;
  json_as_str := λ v, match v with JString s => Some s | _ => None end;
  json_number := JNumber;
  config_to_vec := λ c, pos_bytes (encode (config_tuple c));
  config_from_slice := λ bs, p ← bytes_pos bs; tuple_config <$> decode p |}.

#[export] Instance json_serde_laws : SerdeLaws Json.
Proof.
  split; simpl.
  - intros v. rewrite bytes_pos_bytes. simpl. rewrite decode_encode. simpl.
    by rewrite tree_json_tree.
  - intros m. by rewrite zip_fst_snd, list_to_map_to_list.
  - done.
  - intros c. rewrite bytes_pos_bytes. simpl. rewrite decode_encode.
    cbn [fmap option_fmap option_map]. f_equal. apply tuple_config_tuple.
Qed.
End JsonSample.
