(* ===== verification/SegWriter.v ===== *)
(** * The segment writer of a topic

    Models [src/engine/segwriter.rs]: committed records are appended to an active
    segment, a full or old segment is sealed into the HOT store, its payloads leave
    memory, and a read takes them from two bounded caches or from the segment files;
    old segments move to the COLD store, deletes flip a byte in place, dead segments
    are dropped.  [SegmentStore] and [TopicTier] of [src/storage/segstore.rs] are the
    two stores as maps from a segment id to its files.  Every call to the files can fail,
    and its failure is an input: a read of either file, a put, a delete before, between or
    after its two unlinks, a flag write, a listing.  A payload read takes the segment and
    the caches under the writer lock and the files after it ([read_start], [read_step]):
    other operations come between its steps.  The file format is [Segment].

    [sealed_payload_served]: over any sequence of these operations, in segments that stay
    below 4 GiB, a sealed record that was not deleted is served with the payload it was
    written with by a read that nothing fails or interrupts, and with that payload or none
    by any other.  [deleted_stays_flagged]: a delete flag survives relocation.  The samples
    show what the operations do not cover: a segment id that exists on disk with other
    records, a relocation whose flag writes fail, a read that a relocation interrupts, and
    a read that puts a deleted record back into the cache. *)

From stdpp Require Import base gmap list strings sorting list_numbers.
From S2P Require Import Prelude Types TopicIndex Bytes Segment Json.

(** ** Stores *)

(** The [.data] and [.idx] files of a store by segment id. *)
Record SegStore := mkSegStore {
  sg_data : gmap Z bytes;
  sg_idx : gmap Z bytes
}.
Definition seg_store_empty : SegStore := mkSegStore ∅ ∅.

(** Where a [put] stops: it writes [.data], then [.idx], then syncs. *)
Inductive PutFault := PutOk | PutFailsData | PutFailsIdx | PutFailsSync.

(** [SegmentStore::put] *)
Definition store_put (fault : PutFault) (st : SegStore) (id : Z) (data idx : bytes) : SegStore * bool :=
  match fault with
  | PutOk => (mkSegStore (<[id := data]> (sg_data st)) (<[id := idx]> (sg_idx st)), true)
  | PutFailsData => (st, false)
  | PutFailsIdx => (mkSegStore (<[id := data]> (sg_data st)) (sg_idx st), false)
  | PutFailsSync => (mkSegStore (<[id := data]> (sg_data st)) (<[id := idx]> (sg_idx st)), false)
  end.

(** [read_range] of a part: [None] when the part is absent, when its open, its length or
    its read fails ([io] is whether they succeed), and when the range is out of bounds. *)
Definition read_range (io : bool) (files : gmap Z bytes) (id : Z) (offset len : Z) : option bytes :=
  f ← files !! id;
  if negb io || (Z.of_nat (length f) <? offset + len) then None
  else Some (slice f (Z.to_nat offset) (Z.to_nat offset + Z.to_nat len)).

(** [read_all] *)
Definition read_all (io : bool) (files : gmap Z bytes) (id : Z) : option bytes :=
  f ← files !! id; if io then Some f else None.

(** [mark_record_deleted]: one byte is written and synced, and either can fail. *)
Inductive MarkFault := MarkOk | MarkFailsWrite | MarkFailsSync.
Definition written (fault : MarkFault) : bool := match fault with MarkFailsWrite => false | _ => true end.
Definition synced (fault : MarkFault) : bool := match fault with MarkOk => true | _ => false end.
Definition mark_record_deleted (fault : MarkFault) (st : SegStore) (id : Z) (data_offset : Z) : SegStore * bool :=
  match sg_data st !! id with
  | Some f =>
      if Z.of_nat (length f) <=? data_offset then (st, false)
      else (if written fault
            then mkSegStore (<[id := <[Z.to_nat data_offset := SEG_DEL_SENTINEL]> f]> (sg_data st)) (sg_idx st)
            else st, synced fault)
  | None => (st, false)
  end.

(** Where a [delete] stops: it unlinks [.data], then [.idx], then syncs the directory. *)
Inductive DelFault := DelOk | DelFailsData | DelFailsIdx | DelFailsSync.
Definition unlinks (fault : DelFault) : bool := match fault with DelOk | DelFailsSync => true | _ => false end.

(** [delete]; its callers ignore or log the error. *)
Definition store_delete (fault : DelFault) (st : SegStore) (id : Z) : SegStore :=
  match fault with
  | DelFailsData => st
  | DelFailsIdx => mkSegStore (delete id (sg_data st)) (sg_idx st)
  | DelOk | DelFailsSync => mkSegStore (delete id (sg_data st)) (delete id (sg_idx st))
  end.

Inductive Tier := Hot | Cold.
#[export] Instance Tier_eq_dec : EqDecision Tier.
Proof. solve_decision. Defined.

(** [TopicTier] *)
Record TopicTier := mkTier {
  tt_hot : SegStore;
  tt_cold : option SegStore
}.

Definition has_data (st : SegStore) (id : Z) : bool := bool_decide (is_Some (sg_data st !! id)).
Definition has_idx (st : SegStore) (id : Z) : bool := bool_decide (is_Some (sg_idx st !! id)).

(** [TopicTier::resolve] and [store_for] *)
Definition resolve (t : TopicTier) (id : Z) : option Tier :=
  if has_data (tt_hot t) id then Some Hot
  else match tt_cold t with
       | Some cold => if has_data cold id then Some Cold else None
       | None => None
       end.
Definition store_for (t : TopicTier) (id : Z) : option SegStore :=
  match resolve t id with
  | Some Hot => Some (tt_hot t)
  | Some Cold => tt_cold t
  | None => None
  end.
Definition set_store (t : TopicTier) (tr : Tier) (st : SegStore) : TopicTier :=
  match tr with Hot => mkTier st (tt_cold t) | Cold => mkTier (tt_hot t) (Some st) end.

(** The store of a tier, for a read that resolved the tier earlier. *)
Definition store_at (t : TopicTier) (tr : Tier) : SegStore :=
  match tr with Hot => tt_hot t | Cold => default seg_store_empty (tt_cold t) end.

(** The outcome of the unlinks of an id in the HOT and in the COLD store. *)
Definition DelFaults : Type := DelFault * DelFault.
Definition delete_files (faults : DelFaults) (id : Z) (t : TopicTier) : TopicTier :=
  mkTier (store_delete faults.1 (tt_hot t) id) ((λ cold, store_delete faults.2 cold id) <$> tt_cold t).

(** ** The writer *)
Record SegmentConfig := mkSegConfig {
  sc_max_events : Z;
  sc_max_bytes : Z;
  sc_max_age_ms : Z;
  sc_hot_retain_segments : Z;
  sc_hot_retain_bytes : Z
}.

Record SealedSegment := mkSealed {
  sl_start_seq : Z;
  sl_end_seq : Z;
  sl_data_len : Z;
  sl_tier : Tier
}.

Definition PAYLOAD_CACHE_CAP : nat := Z.to_nat 4096.
Definition COLD_CACHE_CAP : nat := Z.to_nat 1024.

Section segwriter.
Context {V : Type} `{!JsonNull V} `{!Serde V} (crc : bytes → Z).

(** [encode_payload] and [decode_payload] *)
Definition encode_payload (data : V) (meta : option V) : bytes :=
  let obj := <["d"%string := data]> ∅ in
  let obj := match meta with Some m => <["m"%string := m]> obj | None => obj end in
  json_to_vec (json_object obj).
Definition decode_payload (blob : bytes) : V * option V :=
  match json_from_slice blob with
  | Some v =>
      match json_as_object v with
      | Some obj => (default json_null (obj !! "d"%string), obj !! "m"%string)
      | None => (v, None)
      end
  | None => (json_null, None)
  end.

Record CachedPayload := mkCached {
  cp_seq : Z;
  cp_payload : V * option V
}.

Record SegmentWriter := mkWriter {
  sw_cfg : SegmentConfig;
  sw_active : option SegmentBuilder;
  sw_active_started_ms : Z;
  sw_sealed : list SealedSegment;
  sw_cache : list CachedPayload;
  sw_cache_cap : nat;
  sw_cold_cache : list CachedPayload;
  sw_cold_cache_cap : nat;
  sw_cold_reads : Z
}.

Definition writer_new (cfg : SegmentConfig) : SegmentWriter :=
  mkWriter cfg None 0 [] [] PAYLOAD_CACHE_CAP [] COLD_CACHE_CAP 0.

Definition set_active (w : SegmentWriter) (a : option SegmentBuilder) (started : Z) : SegmentWriter :=
  mkWriter (sw_cfg w) a started (sw_sealed w) (sw_cache w) (sw_cache_cap w) (sw_cold_cache w)
    (sw_cold_cache_cap w) (sw_cold_reads w).
Definition set_sealed (w : SegmentWriter) (sealed : list SealedSegment) (cache cold_cache : list CachedPayload) :
    SegmentWriter :=
  mkWriter (sw_cfg w) (sw_active w) (sw_active_started_ms w) sealed cache (sw_cache_cap w) cold_cache
    (sw_cold_cache_cap w) (sw_cold_reads w).

(** Push to a bounded ring and pop its front while it is over the cap. *)
Definition push_bounded (cap : nat) (ring : list CachedPayload) (c : CachedPayload) : list CachedPayload :=
  let ring := ring ++ [c] in drop (length ring - cap) ring.

(** [should_seal_before] *)
Definition should_seal_before (w : SegmentWriter) (now : Z) : bool :=
  match sw_active w with
  | None => false
  | Some a =>
      let count := Z.of_nat (record_count a) in
      if count =? 0 then false
      else (sc_max_events (sw_cfg w) <=? count)
        || ((0 <? sc_max_bytes (sw_cfg w)) && (sc_max_bytes (sw_cfg w) <=? Z.of_nat (data_len a)))
        || ((0 <? sc_max_age_ms (sw_cfg w)) &&
            (as_i64 (sc_max_age_ms (sw_cfg w)) <=? i64_sat_sub now (sw_active_started_ms w)))
  end.

(** The payload of one record of a freshly built segment, for the cache. *)
Definition cache_record (b : SegmentBuilder) (cap : nat) (cache : list CachedPayload) (seq : Z) : list CachedPayload :=
  if (cap =? 0)%nat then cache
  else match read_record crc (sb_data b) (sb_idx b) (sb_start_seq b) seq with
       | Some (Ok (r, _)) => push_bounded cap cache (mkCached seq (decode_payload (sr_data r)))
       | _ => cache
       end.

(** The seqs [start_seq..=end_seq]. *)
Definition builder_seqs (b : SegmentBuilder) : list Z :=
  seqZ (sb_start_seq b) (end_seq b - sb_start_seq b + 1).

(** [seal_active] *)
Definition seal_active (fault : PutFault) (w : SegmentWriter) (t : TopicTier) :
    SegmentWriter * TopicTier * list Z :=
  match sw_active w with
  | None => (w, t, [])
  | Some b =>
      let w := set_active w None 0 in
      if (record_count b =? 0)%nat then (w, t, [])
      else
        let start := sb_start_seq b in
        let register tr :=
          set_sealed w
            (sw_sealed w ++ [mkSealed start (end_seq b) (Z.of_nat (length (sb_data b))) tr])
            (foldl (cache_record b (sw_cache_cap w)) (sw_cache w) (builder_seqs b)) (sw_cold_cache w) in
        match resolve t start with
        | Some tr => (register tr, t, builder_seqs b)
        | None =>
            let '(hot, ok) := store_put fault (tt_hot t) start (sb_data b) (sb_idx b) in
            let t := mkTier hot (tt_cold t) in
            if ok then (register Hot, t, builder_seqs b) else (w, t, [])
        end
  end.

(** [append_record] *)
Definition append_record (now : Z) (fault : PutFault) (seq ts : Z) (node tag : option string) (data : V)
    (meta : option V) (w : SegmentWriter) (t : TopicTier) : SegmentWriter * TopicTier * list Z :=
  let gap := match sw_active w with
             | Some a => (0 <? record_count a)%nat && negb (sb_next_seq a =? seq)
             | None => false
             end in
  let '(w, t, sealed) := if gap || should_seal_before w now then seal_active fault w t else (w, t, []) in
  let w := match sw_active w with Some _ => w | None => set_active w (Some (builder_new seq)) ts end in
  let rec := mkSegRec seq (Z.max ts 0) node tag (encode_payload data meta) in
  (set_active w ((λ a, builder_push crc a rec) <$> sw_active w) (sw_active_started_ms w), t, sealed).

(** [maybe_seal_idle] and [flush] *)
Definition maybe_seal_idle (now : Z) (fault : PutFault) (w : SegmentWriter) (t : TopicTier) :
    SegmentWriter * TopicTier * list Z :=
  match sw_active w with
  | Some a =>
      if (0 <? record_count a)%nat && (0 <? sc_max_age_ms (sw_cfg w)) &&
         (as_i64 (sc_max_age_ms (sw_cfg w)) <=? i64_sat_sub now (sw_active_started_ms w))
      then seal_active fault w t else (w, t, [])
  | None => (w, t, [])
  end.
Definition flush (fault : PutFault) (w : SegmentWriter) (t : TopicTier) : SegmentWriter * TopicTier * list Z :=
  match sw_active w with
  | Some a => if (0 <? record_count a)%nat then seal_active fault w t else (w, t, [])
  | None => (w, t, [])
  end.

(** ** Reads *)

(** [segment_for] *)
Definition segment_for (w : SegmentWriter) (seq : Z) : option SealedSegment :=
  match partition_point (λ s, sl_start_seq s <=? seq) (sw_sealed w) with
  | O => None
  | S i =>
      seg ← sw_sealed w !! i;
      if (sl_start_seq seg <=? seq) && (seq <=? sl_end_seq seg) then Some seg else None
  end.
Definition is_sealed (w : SegmentWriter) (seq : Z) : bool := bool_decide (is_Some (segment_for w seq)).

(** The newest cached payload of a seq. *)
Definition cache_find (cache : list CachedPayload) (seq : Z) : option (V * option V) :=
  cp_payload <$> head (filter (λ c, cp_seq c = seq) (reverse cache)).

(** [resolve_sealed_fast] *)
Inductive SealedResolve :=
  | RHit (p : V * option V)
  | RRead (seg : SealedSegment)
  | RNotSealed.
Definition resolve_sealed_fast (w : SegmentWriter) (seq : Z) : SealedResolve :=
  match cache_find (sw_cache w) seq with
  | Some p => RHit p
  | None =>
      match cache_find (sw_cold_cache w) seq with
      | Some p => RHit p
      | None => match segment_for w seq with Some seg => RRead seg | None => RNotSealed end
      end
  end.

(** The reads of [read_locator]: the index entry of the seq, then the frame it names. *)
Definition read_entry (io : bool) (store : SegStore) (seg : SealedSegment) (seq : Z) : option IdxEntry :=
  read_range io (sg_idx store) (sl_start_seq seg) ((seq - sl_start_seq seg) * Z.of_nat IDX_STRIDE) (Z.of_nat IDX_STRIDE)
    ≫= (λ idx, idx_entry_at idx 0).
Definition read_frame (io : bool) (store : SegStore) (seg : SealedSegment) (e : IdxEntry) : option (V * option V) :=
  frame ← read_range io (sg_data store) (sl_start_seq seg) (ie_offset e) (ie_len e);
  match decode_data_frame_full crc frame with
  | Ok (r, false) => Some (decode_payload (sr_data r))
  | _ => None
  end.

(** [read_locator], when nothing else runs during the read; [fault] is the read that fails. *)
Inductive ReadFault := ReadOk | ReadFailsIdx | ReadFailsData.
Definition idx_io (fault : ReadFault) : bool := match fault with ReadFailsIdx => false | _ => true end.
Definition data_io (fault : ReadFault) : bool := match fault with ReadFailsData => false | _ => true end.
Definition read_locator (fault : ReadFault) (t : TopicTier) (seg : SealedSegment) (seq : Z) : option (V * option V) :=
  tr ← resolve t (sl_start_seq seg);
  e ← read_entry (idx_io fault) (store_at t tr) seg seq;
  read_frame (data_io fault) (store_at t tr) seg e.

(** [record_cold_read] *)
Definition record_cold_read (w : SegmentWriter) (seg : SealedSegment) (seq : Z) (p : V * option V) : SegmentWriter :=
  match sl_tier seg with
  | Cold =>
      mkWriter (sw_cfg w) (sw_active w) (sw_active_started_ms w) (sw_sealed w) (sw_cache w) (sw_cache_cap w)
        (if (sw_cold_cache_cap w =? 0)%nat then sw_cold_cache w
         else push_bounded (sw_cold_cache_cap w) (sw_cold_cache w) (mkCached seq p))
        (sw_cold_cache_cap w) (sw_cold_reads w +s 1)
  | Hot => w
  end.

(** [resolve_sealed], under the lock *)
Definition resolve_sealed (fault : ReadFault) (w : SegmentWriter) (t : TopicTier) (seq : Z) :
    SegmentWriter * option (V * option V) :=
  match resolve_sealed_fast w seq with
  | RHit p => (w, Some p)
  | RRead seg =>
      match read_locator fault t seg seq with
      | Some p => (record_cold_read w seg seq p, Some p)
      | None => (w, None)
      end
  | RNotSealed => (w, None)
  end.

(** A read off the lock: [resolve_sealed_fast] hands out the segment under the lock,
    [read_locator] picks a store and reads twice without it, and [record_cold_read]
    takes the lock again.  The other operations run between these steps. *)
Inductive ReadStage :=
  | RdOpen
  | RdEntry (tr : Tier)
  | RdFrame (tr : Tier) (e : IdxEntry)
  | RdRecord (p : V * option V).
Record OffLockRead := mkRead {
  or_seg : SealedSegment;
  or_seq : Z;
  or_stage : ReadStage
}.
Definition read_start (w : SegmentWriter) (seq : Z) : list OffLockRead :=
  match resolve_sealed_fast w seq with RRead seg => [mkRead seg seq RdOpen] | _ => [] end.

(** One step: the next stage, or what the read gives. *)
Definition read_step (io : bool) (t : TopicTier) (r : OffLockRead) : ReadStage + option (V * option V) :=
  match or_stage r with
  | RdOpen => match resolve t (sl_start_seq (or_seg r)) with Some tr => inl (RdEntry tr) | None => inr None end
  | RdEntry tr =>
      match read_entry io (store_at t tr) (or_seg r) (or_seq r) with Some e => inl (RdFrame tr e) | None => inr None end
  | RdFrame tr e =>
      match read_frame io (store_at t tr) (or_seg r) e with Some p => inl (RdRecord p) | None => inr None end
  | RdRecord p => inr (Some p)
  end.
Definition read_done (w : SegmentWriter) (r : OffLockRead) (p : option (V * option V)) : SegmentWriter :=
  match p with Some p => record_cold_read w (or_seg r) (or_seq r) p | None => w end.

(** A step of the [k]-th read in progress. *)
Definition advance_read (io : bool) (k : nat) (w : SegmentWriter) (t : TopicTier) (reads : list OffLockRead) :
    SegmentWriter * list OffLockRead :=
  match reads !! k with
  | None => (w, reads)
  | Some r =>
      match read_step io t r with
      | inl stage => (w, <[k := mkRead (or_seg r) (or_seq r) stage]> reads)
      | inr p => (read_done w r p, delete k reads)
      end
  end.

(** ** Relocation *)

(** The byte bound of [relocation_plan]: how many of the newest segments fit. *)
Fixpoint kept_by_bytes (cap kept : Z) (newest : list SealedSegment) : nat :=
  match newest with
  | [] => 0
  | s :: newest =>
      let next := kept +s sl_data_len s in
      if cap <? next then 0 else S (kept_by_bytes cap next newest)
  end.

(** [relocation_plan] *)
Definition relocation_plan (w : SegmentWriter) (t : TopicTier) : list (Z * Z) :=
  match tt_cold t with
  | None => []
  | Some _ =>
      let n := length (sw_sealed w) in
      let keep_from := (n - Z.to_nat (sc_hot_retain_segments (sw_cfg w)))%nat in
      let keep_from :=
        if 0 <? sc_hot_retain_bytes (sw_cfg w)
        then Nat.max keep_from (n - kept_by_bytes (sc_hot_retain_bytes (sw_cfg w)) 0 (reverse (sw_sealed w)))
        else keep_from in
      (λ s, (sl_start_seq s, sl_data_len s)) <$>
        filter (λ s, sl_tier s = Hot) (take keep_from (sw_sealed w))
  end.

(** [copy_segment_to_cold] runs off the writer's lock: it reads the HOT files, then
    puts what it has read. *)
Inductive CopyRead := CopyDone (ok : bool) | CopyFiles (data idx : bytes).
Definition copy_read (io : bool) (t : TopicTier) (id : Z) : CopyRead :=
  match tt_cold t with
  | None => CopyDone true
  | Some cold =>
      if has_data cold id && has_idx cold id then CopyDone true
      else
        match read_all io (sg_data (tt_hot t)) id, read_all io (sg_idx (tt_hot t)) id with
        | Some data, Some idx => CopyFiles data idx
        | _, _ => CopyDone false
        end
  end.
Definition copy_put (fault : PutFault) (t : TopicTier) (id : Z) (data idx : bytes) : TopicTier * bool :=
  match tt_cold t with
  | None => (t, true)
  | Some cold => let '(cold, ok) := store_put fault cold id data idx in (mkTier (tt_hot t) (Some cold), ok)
  end.

(** [propagate_hot_delflags_to_cold] on one frame; [marks] is what the flip of each
    seq does, and its failures are only logged. *)
Definition propagate_flag (marks : Z → MarkFault) (data idx : bytes) (id : Z) (cold : SegStore) (seq : Z) : SegStore :=
  match seg_lookup idx id seq with
  | Some e =>
      let lo := Z.to_nat (ie_offset e) in
      let hi := (lo + Z.to_nat (ie_len e))%nat in
      if (hi <=? length data)%nat && frame_is_deleted crc (slice data lo hi)
      then (mark_record_deleted (marks seq) cold id
              (ie_offset e + Z.of_nat (del_flag_offset_in_frame (Z.to_nat (ie_len e))))).1
      else cold
  | None => cold
  end.
Definition propagate_hot_delflags_to_cold (io : bool) (marks : Z → MarkFault) (t : TopicTier) (id : Z) : TopicTier :=
  match tt_cold t, read_all io (sg_data (tt_hot t)) id, read_all io (sg_idx (tt_hot t)) id with
  | Some cold, Some data, Some idx =>
      mkTier (tt_hot t) (Some (foldl (propagate_flag marks data idx id) cold (seqZ id (Z.of_nat (idx_len idx)))))
  | _, _, _ => t
  end.

(** The tier pointer of a segment. *)
Definition flip_tier (id : Z) (s : SealedSegment) : SealedSegment :=
  if sl_start_seq s =? id then mkSealed (sl_start_seq s) (sl_end_seq s) (sl_data_len s) Cold else s.
Definition outside (s : SealedSegment) (c : CachedPayload) : Prop :=
  cp_seq c < sl_start_seq s ∨ sl_end_seq s < cp_seq c.
#[export] Instance outside_dec s c : Decision (outside s c).
Proof. unfold outside. apply _. Defined.

Definition find_sealed (w : SegmentWriter) (id : Z) : option SealedSegment :=
  head (filter (λ s, sl_start_seq s = id) (sw_sealed w)).

(** What the file operations of a relocation do: the reads and the [put] of the copy, the
    reads and the flips of the propagation, and the delete of the HOT files. *)
Record RelocFault := mkRelocFault {
  rf_copy : bool;
  rf_put : PutFault;
  rf_flags : bool;
  rf_marks : Z → MarkFault;
  rf_del : DelFault
}.
Definition reloc_clean : RelocFault := mkRelocFault true PutOk true (λ _, MarkOk) DelOk.

(** [confirm_relocated] *)
Definition confirm_relocated (f : RelocFault) (id : Z) (w : SegmentWriter) (t : TopicTier) :
    SegmentWriter * TopicTier :=
  match find_sealed w id with
  | None => (w, t)
  | Some seg =>
      match sl_tier seg with
      | Cold => (w, t)
      | Hot =>
          let t := propagate_hot_delflags_to_cold (rf_flags f) (rf_marks f) t id in
          (set_sealed w (flip_tier id <$> sw_sealed w) (filter (outside seg) (sw_cache w)) (sw_cold_cache w),
           mkTier (store_delete (rf_del f) (tt_hot t) id) (tt_cold t))
      end
  end.

(** ** Deletes *)

(** [drop_segment] *)
Definition drop_segment (dels : DelFaults) (id : Z) (w : SegmentWriter) (t : TopicTier) : SegmentWriter * TopicTier :=
  match find_sealed w id with
  | None => (w, t)
  | Some seg =>
      (set_sealed w (filter (λ s, sl_start_seq s ≠ id) (sw_sealed w)) (filter (outside seg) (sw_cache w))
         (filter (outside seg) (sw_cold_cache w)),
       delete_files dels id t)
  end.

(** [flag_sealed_deleted]: the read of the index entry fails, or the flip does what the
    fault of [mark_record_deleted] says. *)
Inductive FlagFault := FlagNoEntry | FlagMark (mark : MarkFault).
Definition flag_read (fault : FlagFault) : bool := match fault with FlagNoEntry => false | FlagMark _ => true end.
Definition flag_mark (fault : FlagFault) : MarkFault := match fault with FlagNoEntry => MarkFailsWrite | FlagMark m => m end.
Definition flag_sealed_deleted (fault : FlagFault) (seq : Z) (w : SegmentWriter) (t : TopicTier) :
    SegmentWriter * TopicTier * bool :=
  match segment_for w seq with
  | None => (w, t, false)
  | Some seg =>
      let id := sl_start_seq seg in
      match resolve t id, store_for t id with
      | Some tr, Some store =>
          match read_entry (flag_read fault) store seg seq with
          | Some e =>
              let '(store, done) := mark_record_deleted (flag_mark fault) store id
                (ie_offset e + Z.of_nat (del_flag_offset_in_frame (Z.to_nat (ie_len e)))) in
              (set_sealed w (sw_sealed w) (filter (λ c, cp_seq c ≠ seq) (sw_cache w))
                 (filter (λ c, cp_seq c ≠ seq) (sw_cold_cache w)),
               set_store t tr store, done)
          | None => (w, t, false)
          end
      | _, _ => (w, t, false)
      end
  end.

(** [list] of the stores, each of which can fail. *)
Record ListFault := mkListFault { lf_hot : bool; lf_cold : bool }.
Definition listed (f : ListFault) (part : SegStore → gmap Z bytes) (t : TopicTier) : gset Z :=
  (if lf_hot f then dom (part (tt_hot t)) else ∅) ∪
  match tt_cold t with Some cold => if lf_cold f then dom (part cold) else ∅ | None => ∅ end.

(** [scan_ondisk_deleted]: every listed segment, by the store that holds it; [reads] is
    whether its two files can be read.  The result is sorted. *)
Definition scan_segment (reads : Z → bool) (t : TopicTier) (id : Z) : list Z :=
  match store_for t id with
  | Some store =>
      match read_all (reads id) (sg_data store) id, read_all (reads id) (sg_idx store) id with
      | Some data, Some idx => scan_deleted crc data idx id
      | _, _ => []
      end
  | None => []
  end.
Definition scan_ondisk_deleted (f : ListFault) (reads : Z → bool) (t : TopicTier) : list Z :=
  merge_sort Z.le (concat (scan_segment reads t <$> merge_sort Z.le (elements (listed f sg_data t)))).

(** [segments_below] and [fully_dead_sealed_segments] *)
Definition segments_below (w : SegmentWriter) (live_floor : Z) : list Z :=
  sl_start_seq <$> filter (λ s, sl_end_seq s < live_floor) (sw_sealed w).
Definition fully_dead_sealed_segments (is_dead : Z → Z → bool) (w : SegmentWriter) : list Z :=
  sl_start_seq <$> filter (λ s, is_dead (sl_start_seq s) (sl_end_seq s) = true) (sw_sealed w).

(** [reclaim_orphans_below]; [list_all_ids] lists by either part. *)
Definition reclaim_orphans_below (f : ListFault) (dels : Z → DelFaults) (live_floor : Z) (w : SegmentWriter)
    (t : TopicTier) : TopicTier * nat :=
  let registered : gset Z := list_to_set (sl_start_seq <$> sw_sealed w) in
  let orphans := filter (λ id, id < live_floor ∧ id ∉ registered)
    (merge_sort Z.le (elements (listed f sg_data t ∪ listed f sg_idx t))) in
  (foldl (λ t id, delete_files (dels id) id t) t orphans, length orphans).

(** ** The relocator

    [relocate_topic_cold] plans under the writer's lock, copies each planned segment
    off it and confirms under it again; the other operations run between these steps. *)
Inductive Reloc :=
  | RWork (plan : list Z)
  | RPut (id : Z) (data idx : bytes) (plan : list Z)
  | RConfirm (id : Z) (plan : list Z).
Definition relocate_step (f : RelocFault) (r : Reloc) (w : SegmentWriter)
    (t : TopicTier) : SegmentWriter * TopicTier * Reloc :=
  match r with
  | RWork [] => (w, t, RWork (relocation_plan w t).*1)
  | RWork (id :: plan) =>
      (w, t, match copy_read (rf_copy f) t id with
             | CopyDone true => RConfirm id plan
             | CopyDone false => RWork plan
             | CopyFiles data idx => RPut id data idx plan
             end)
  | RPut id data idx plan =>
      let '(t, ok) := copy_put (rf_put f) t id data idx in
      (w, t, if ok then RConfirm id plan else RWork plan)
  | RConfirm id plan =>
      let '(w, t) := confirm_relocated f id w t in (w, t, RWork plan)
  end.

(** ** The operations of a topic's segments *)
Inductive SegOp :=
  | OpAppend (now : Z) (fault : PutFault) (seq ts : Z) (node tag : option string) (data : V) (meta : option V)
  | OpIdle (now : Z) (fault : PutFault)
  | OpFlush (fault : PutFault)
  | OpRead (seq : Z)
  | OpReadStep (k : nat) (io : bool)
  | OpFlag (fault : FlagFault) (seq : Z)
  | OpRelocate (f : RelocFault)
  | OpDrop (dels : DelFaults) (id : Z)
  | OpReclaim (f : ListFault) (dels : Z → DelFaults) (live_floor : Z).

(** The writer, the stores, the relocation and the reads in progress. *)
Record TopicSegs := mkSegs {
  ts_writer : SegmentWriter;
  ts_tier : TopicTier;
  ts_reloc : Reloc;
  ts_reads : list OffLockRead
}.
Definition segs_new (cfg : SegmentConfig) (has_cold : bool) : TopicSegs :=
  mkSegs (writer_new cfg) (mkTier seg_store_empty (if has_cold then Some seg_store_empty else None)) (RWork []) [].

Definition exec_seg (st : TopicSegs) (op : SegOp) : TopicSegs :=
  let '(mkSegs w t r rs) := st in
  match op with
  | OpAppend now fault seq ts node tag data meta =>
      let '(w, t, _) := append_record now fault seq ts node tag data meta w t in mkSegs w t r rs
  | OpIdle now fault => let '(w, t, _) := maybe_seal_idle now fault w t in mkSegs w t r rs
  | OpFlush fault => let '(w, t, _) := flush fault w t in mkSegs w t r rs
  | OpRead seq => mkSegs w t r (rs ++ read_start w seq)
  | OpReadStep k io => let '(w, rs) := advance_read io k w t rs in mkSegs w t r rs
  | OpFlag fault seq => let '(w, t, _) := flag_sealed_deleted fault seq w t in mkSegs w t r rs
  | OpRelocate f => let '(w, t, r) := relocate_step f r w t in mkSegs w t r rs
  | OpDrop dels id => let '(w, t) := drop_segment dels id w t in mkSegs w t r rs
  | OpReclaim f dels live_floor => mkSegs w (reclaim_orphans_below f dels live_floor w t).1 r rs
  end.

(** The appends come in seq order, with records the segment format can hold and whose
    frames have at most [size] bytes. *)
Context (size : Z).
Definition record_of (seq ts : Z) (node tag : option string) (data : V) (meta : option V) : SegmentRecord :=
  mkSegRec seq (Z.max ts 0) node tag (encode_payload data meta).
Definition frame_fits (rec : SegmentRecord) : Prop :=
  seg_ok rec ∧ Z.of_nat (length (encode_data_frame crc rec)) <= size.
Fixpoint ops_ok (next : Z) (ops : list SegOp) : Prop :=
  match ops with
  | [] => True
  | OpAppend _ _ seq ts node tag data meta :: ops =>
      next <= seq ∧ frame_fits (record_of seq ts node tag data meta) ∧ ops_ok (seq + 1) ops
  | _ :: ops => ops_ok next ops
  end.

(** The byte trigger or the event trigger seals a segment before it has 4 GiB, which is
    as far as the [u32] offsets of its index reach. *)
Definition config_ok (cfg : SegmentConfig) : Prop :=
  0 <= size ∧
  (0 < sc_max_bytes cfg ∧ sc_max_bytes cfg + size <= 2 ^ 32 ∨ Z.max 1 (sc_max_events cfg) * size < 2 ^ 32).

(** A flag may have been written for the seq, and all flags a relocation moves are. *)
Definition flag_tried (ops : list SegOp) (seq : Z) : Prop :=
  ∃ fault, OpFlag (FlagMark fault) seq ∈ ops ∧ written fault = true.
Definition flags_move (f : RelocFault) : Prop := rf_flags f = true ∧ ∀ s, written (rf_marks f s) = true.
Definition marks_written (ops : list SegOp) : Prop := ∀ f, OpRelocate f ∈ ops → flags_move f.

(** ** What is on disk *)
Hypothesis crc_u64 : ∀ b, is_u64 (crc b).

(** The records of a run of seqs in the log of materialized records. *)
Definition log_run (L : gmap Z SegmentRecord) (start : Z) (recs : list SegmentRecord) : Prop :=
  ∀ i rec, recs !! i = Some rec →
    L !! (start + Z.of_nat i) = Some rec ∧ seg_ok rec ∧ sr_seq rec = start + Z.of_nat i.

(** The files of a segment in a store, and in the store that resolves it. *)
Definition files (st : SegStore) (id : Z) : option bytes * option bytes := (sg_data st !! id, sg_idx st !! id).
Definition resolved (t : TopicTier) (id : Z) : option (bytes * option bytes) :=
  match sg_data (tt_hot t) !! id with
  | Some data => Some (data, sg_idx (tt_hot t) !! id)
  | None =>
      match tt_cold t with
      | Some cold => (λ data, (data, sg_idx cold !! id)) <$> sg_data cold !! id
      | None => None
      end
  end.

Definition idx_of (start : Z) (recs : list SegmentRecord) : bytes := sb_idx (build crc start recs).

(** A copy of the segment, possibly partial: its flags are deletes that happened. *)
Definition copy_of (f : option bytes * option bytes) (start : Z) (recs : list SegmentRecord) (dead : gset Z) : Prop :=
  (∀ data, f.1 = Some data → ∃ rds, rds.*1 = recs ∧ data = seg_data crc rds ∧
     ∀ i rec, rds !! i = Some (rec, SEG_DEL_SENTINEL) → start + Z.of_nat i ∈ dead) ∧
  (∀ idx, f.2 = Some idx → idx = idx_of start recs).

(** A sealed segment: every copy is one of it, and the one that resolves is whole
    and flags exactly the deleted seqs. *)
Record seg_at (L : gmap Z SegmentRecord) (dead : gset Z) (t : TopicTier) (start : Z) (recs : list SegmentRecord) : Prop := {
  sa_some : recs ≠ [];
  sa_run : log_run L start recs;
  sa_len : Z.of_nat (frames_len crc recs) < 2 ^ 32;
  sa_hot : copy_of (files (tt_hot t) start) start recs dead;
  sa_cold : ∀ cold, tt_cold t = Some cold → copy_of (files cold start) start recs dead;
  sa_resolved : ∃ rds, rds.*1 = recs ∧
    (∀ i rec d, rds !! i = Some (rec, d) → (d = SEG_DEL_SENTINEL ↔ start + Z.of_nat i ∈ dead)) ∧
    resolved t start = Some (seg_data crc rds, Some (idx_of start recs))
}.

(** The seq from which nothing is sealed. *)
Definition front (w : SegmentWriter) (next : Z) : Z :=
  match sw_active w with Some b => sb_start_seq b | None => next end.

(** Sealed seqs: each lies in a registered segment. *)
Definition registered (w : SegmentWriter) (seq : Z) : Prop :=
  ∃ seg, seg ∈ sw_sealed w ∧ sl_start_seq seg <= seq <= sl_end_seq seg.

(** A cached payload is the record's, as long as its segment is registered: a read in
    progress can cache a record whose segment was dropped meanwhile. *)
Definition cached_ok (L : gmap Z SegmentRecord) (w : SegmentWriter) (next : Z) (c : CachedPayload) : Prop :=
  cp_seq c < front w next ∧
  (registered w (cp_seq c) → ∃ rec, L !! cp_seq c = Some rec ∧ cp_payload c = decode_payload (sr_data rec)).

(** A read in progress: if its record is still in a registered segment it is the one the
    read has in hand, and so is the entry. *)
Definition reading_ok (L : gmap Z SegmentRecord) (w : SegmentWriter) (next : Z) (r : OffLockRead) : Prop :=
  or_seq r < front w next ∧
  ∀ seg, seg ∈ sw_sealed w → sl_start_seq seg <= or_seq r <= sl_end_seq seg →
    sl_start_seq seg = sl_start_seq (or_seg r) ∧
    match or_stage r with
    | RdFrame _ e => ∃ recs, log_run L (sl_start_seq seg) recs ∧
        sl_end_seq seg = sl_start_seq seg + Z.of_nat (length recs) - 1 ∧
        entries_from crc 0 recs !! Z.to_nat (or_seq r - sl_start_seq seg) = Some e
    | RdRecord p => ∃ rec, L !! or_seq r = Some rec ∧ p = decode_payload (sr_data rec)
    | _ => True
    end.

(** The registry only loses segments, or gains them past the front. *)
Record extends (w : SegmentWriter) (next : Z) (w' : SegmentWriter) (next' : Z) : Prop := {
  ex_front : front w next <= front w' next';
  ex_sealed : ∀ seg, seg ∈ sw_sealed w' → front w next <= sl_start_seq seg ∨
    ∃ seg0, seg0 ∈ sw_sealed w ∧ sl_start_seq seg0 = sl_start_seq seg ∧ sl_end_seq seg0 = sl_end_seq seg
}.

(** The ids of all files. *)
Definition on_disk (t : TopicTier) (id : Z) : Prop :=
  is_Some (sg_data (tt_hot t) !! id) ∨ is_Some (sg_idx (tt_hot t) !! id) ∨
  ∃ cold, tt_cold t = Some cold ∧ (is_Some (sg_data cold !! id) ∨ is_Some (sg_idx cold !! id)).

Record writer_inv (cfg : SegmentConfig) (w : SegmentWriter) (t : TopicTier) (L : gmap Z SegmentRecord) (dead : gset Z)
    (next : Z) : Prop := {
  iv_cfg : sw_cfg w = cfg;
  iv_active : ∀ b, sw_active w = Some b → ∃ start recs,
    recs ≠ [] ∧ b = build crc start recs ∧ log_run L start recs ∧ Z.of_nat (frames_len crc recs) < 2 ^ 32 ∧
    start + Z.of_nat (length recs) = next ∧ Z.of_nat (frames_len crc recs) <= Z.of_nat (length recs) * size;
  iv_sealed : ∀ seg, seg ∈ sw_sealed w → ∃ recs,
    sl_end_seq seg = sl_start_seq seg + Z.of_nat (length recs) - 1 ∧ seg_at L dead t (sl_start_seq seg) recs;
  iv_order : StronglySorted (λ s1 s2, sl_end_seq s1 < sl_start_seq s2) (sw_sealed w);
  iv_below : ∀ seg, seg ∈ sw_sealed w → sl_end_seq seg < front w next;
  iv_ids : ∀ id, on_disk t id → id < front w next;
  iv_dead : ∀ s, s ∈ dead → s < front w next;
  iv_cache : ∀ c, c ∈ sw_cache w ∨ c ∈ sw_cold_cache w → cached_ok L w next c;
  iv_log : ∀ s, is_Some (L !! s) → s < next
}.

(** *** Files *)
Lemma files_eq st st' id : files st' id = files st id → sg_data st' !! id = sg_data st !! id ∧ sg_idx st' !! id = sg_idx st !! id.
Proof. intros [= -> ->]. done. Qed.

Lemma extends_registered w next w' next' s :
  extends w next w' next' → s < front w next → registered w' s → registered w s.
Proof.
  intros [_ Hs] Hlt (seg & Hin & Hr). destruct (Hs seg Hin) as [?|(s0 & ? & Hst & He)]; [lia|]. exists s0. split; [done|lia].
Qed.

Lemma log_run_mono L L' start recs : L ⊆ L' → log_run L start recs → log_run L' start recs.
Proof. intros Hsub Hr i rec Hi. destruct (Hr i rec Hi) as (HL & ? & ?). split_and!; [by eapply lookup_weaken|done..]. Qed.

Lemma log_run_eq L start recs recs' :
  log_run L start recs → log_run L start recs' → length recs = length recs' → recs = recs'.
Proof.
  intros Hr Hr' Hlen. apply list_eq_same_length with (length recs); [done|done|]. intros i x y Hlt Hx Hy.
  destruct (Hr i x Hx) as (H1 & _), (Hr' i y Hy) as (H2 & _). congruence.
Qed.

Lemma cached_extends L L' w next w' next' c :
  extends w next w' next' → L ⊆ L' → cached_ok L w next c → cached_ok L' w' next' c.
Proof.
  intros Hex HL [Hlt Hc]. split; [pose proof (ex_front _ _ _ _ Hex); lia|]. intros Hr.
  destruct Hc as (rec & ? & ?); [by eapply extends_registered|]. exists rec. split; [by eapply lookup_weaken|done].
Qed.

Lemma reading_extends L L' w next w' next' r :
  extends w next w' next' → L ⊆ L' → reading_ok L w next r → reading_ok L' w' next' r.
Proof.
  intros [Hf Hs] HL [Hlt Hr]. split; [lia|]. intros seg Hin Hrange.
  destruct (Hs seg Hin) as [?|(s0 & Hin0 & Hst & He)]; [lia|]. rewrite <-Hst, <-He in *.
  destruct (Hr s0 Hin0 Hrange) as [Heq Hstage]. split; [done|]. destruct (or_stage r) as [| |tr e|p]; [done..| |].
  - destruct Hstage as (recs & Hrun & Hx). exists recs. split; [by eapply log_run_mono|done].
  - destruct Hstage as (rec & Hrec & Hp). exists rec. split; [by eapply lookup_weaken|done].
Qed.

Lemma extends_refl w next : extends w next w next.
Proof. split; [done|]. eauto. Qed.

Lemma extends_trans w1 n1 w2 n2 w3 n3 : extends w1 n1 w2 n2 → extends w2 n2 w3 n3 → extends w1 n1 w3 n3.
Proof.
  intros [Hf1 Hs1] [Hf2 Hs2]. split; [lia|]. intros seg [?|(s2 & Hin & Hst & He)]%Hs2; [left; lia|].
  destruct (Hs1 s2 Hin) as [?|(s1 & ? & ? & ?)]; [left; lia|right]. exists s1. split_and!; [done|congruence..].
Qed.

Lemma seg_at_same L dead t t' start recs :
  files (tt_hot t') start = files (tt_hot t) start →
  (λ c, files c start) <$> tt_cold t' = (λ c, files c start) <$> tt_cold t →
  seg_at L dead t start recs → seg_at L dead t' start recs.
Proof.
  intros Hh Hc [Hs Hr Hl Hhot Hcold (rds & Hfst & Hfl & Hres)]. split; [done|done|done|by rewrite Hh| |exists rds].
  - intros cold Hcd. rewrite Hcd in Hc. simpl in Hc. destruct (tt_cold t) as [c0|] eqn:H0; [|done].
    injection Hc as Hc1 Hc2. specialize (Hcold c0 eq_refl). unfold files in *. by rewrite Hc1, Hc2.
  - split_and!; [done..|]. rewrite <-Hres. unfold resolved. apply files_eq in Hh as [-> ->].
    destruct (sg_data (tt_hot t) !! start); [done|].
    destruct (tt_cold t') as [c'|], (tt_cold t) as [c0|]; try done; simpl in Hc. injection Hc as -> ->. done.
Qed.

Lemma resolved_store t id data oidx :
  resolved t id = Some (data, oidx) →
  ∃ tr st, resolve t id = Some tr ∧ store_for t id = Some st ∧ files st id = (Some data, oidx) ∧
    (∀ st', set_store t tr st' = match tr with Hot => mkTier st' (tt_cold t) | Cold => mkTier (tt_hot t) (Some st') end) ∧
    match tr with Hot => st = tt_hot t | Cold => tt_cold t = Some st ∧ sg_data (tt_hot t) !! id = None end.
Proof.
  unfold resolved, resolve, store_for, resolve, has_data, files. destruct (sg_data (tt_hot t) !! id) as [d|] eqn:Hd.
  - intros [= -> <-]. exists Hot, (tt_hot t). rewrite bool_decide_eq_true_2 by (by eexists). by rewrite Hd.
  - rewrite bool_decide_eq_false_2 by (intros [? ?]; done). destruct (tt_cold t) as [cold|]; [|done].
    destruct (sg_data cold !! id) as [d|] eqn:Hc; [|done]. intros [= -> <-]. exists Cold, cold.
    rewrite bool_decide_eq_true_2 by (by eexists). by rewrite Hc.
Qed.

(** *** Reading a segment *)
Lemma read_range_entry f idx id (i : nat) :
  f !! id = Some idx → (i * 20 + 20 <= length idx)%nat →
  read_range true f id (Z.of_nat i * Z.of_nat IDX_STRIDE) (Z.of_nat IDX_STRIDE) = Some (slice idx (i * 20) (i * 20 + 20)).
Proof.
  intros Hf Hl. unfold read_range, IDX_STRIDE. rewrite Hf. cbn [mbind option_bind negb orb].
  destruct (Z.ltb_spec (Z.of_nat (length idx)) (Z.of_nat i * Z.of_nat 20 + Z.of_nat 20)); [lia|]. do 2 f_equal; lia.
Qed.

Lemma idx_entry_slice idx (i : nat) :
  (i * 20 + 20 <= length idx)%nat → idx_entry_at (slice idx (i * 20) (i * 20 + 20)) 0 = idx_entry_at idx i.
Proof.
  intros Hl. unfold idx_entry_at, IDX_STRIDE.
  assert (Hs : length (slice idx (i * 20) (i * 20 + 20)) = 20%nat).
  { unfold slice. rewrite length_take, length_drop. lia. }
  rewrite Hs. rewrite (proj2 (Nat.ltb_ge (length idx) _)) by lia. simpl (20 <? _)%nat. cbv iota zeta.
  assert (He : slice (slice idx (i * 20) (i * 20 + 20)) (0 * 20) (0 * 20 + 20) = slice idx (i * 20) (i * 20 + 20)).
  { unfold slice at 1. simpl drop. apply take_ge. rewrite Hs. lia. }
  by rewrite He.
Qed.

(** The entry of the [i]-th record of a segment: the read fails or gives it. *)
Lemma entry_read io st seg recs (i : nat) rec :
  sg_idx st !! sl_start_seq seg = Some (idx_of (sl_start_seq seg) recs) → Forall seg_ok recs →
  Z.of_nat (frames_len crc recs) < 2 ^ 32 → recs !! i = Some rec →
  read_entry io st seg (sl_start_seq seg + Z.of_nat i) = (if io then entries_from crc 0 recs !! i else None) ∧
  is_Some (entries_from crc 0 recs !! i).
Proof.
  intros Hf Hok Hl Hi. pose proof (lookup_lt_Some _ _ _ Hi) as Hlt. set (start := sl_start_seq seg) in *.
  assert (Hlen : length (idx_of start recs) = (length recs * 20)%nat).
  { unfold idx_of. destruct (build_fields crc start recs) as (_ & -> & _). by rewrite length_idx, length_entries. }
  split; [|by rewrite (entries_lookup crc 0 recs i rec Hi)]. unfold read_entry. fold start.
  destruct io; [|unfold read_range; by rewrite Hf]. replace (start + Z.of_nat i - start) with (Z.of_nat i) by lia.
  rewrite (read_range_entry (sg_idx st) (idx_of start recs)) by (done || lia). cbn [mbind option_bind].
  rewrite idx_entry_slice by lia. unfold idx_of. destruct (build_fields crc start recs) as (_ & -> & _).
  by apply idx_entry_at_spec, entries_ok.
Qed.

Lemma log_run_ok L start recs : log_run L start recs → Forall seg_ok recs.
Proof. intros Hr. apply Forall_lookup. intros i rec Hi. by destruct (Hr i rec Hi) as (_ & ? & _). Qed.

(** The frame an entry names. *)
Lemma frame_read rds (i : nat) rec d :
  Forall seg_ok rds.*1 → Z.of_nat (frames_len crc rds.*1) < 2 ^ 32 → rds !! i = Some (rec, d) →
  ∃ e, entries_from crc 0 rds.*1 !! i = Some e ∧ 0 <= ie_offset e ∧ 0 < ie_len e ∧
    let lo := Z.to_nat (ie_offset e) in let hi := (lo + Z.to_nat (ie_len e))%nat in
    (hi <= length (seg_data crc rds))%nat ∧
    decode_data_frame_full crc (slice (seg_data crc rds) lo hi) = Ok (rec, bool_decide (d = SEG_DEL_SENTINEL)).
Proof.
  intros Hok Hl Hi. assert (Hr : rds.*1 !! i = Some rec) by (by rewrite list_lookup_fmap, Hi).
  pose proof (read_record_spec crc crc_u64 0 rds i rec d Hok Hl Hi) as Hrr. unfold read_record, seg_lookup in Hrr.
  rewrite (proj2 (Z.ltb_ge _ _)) in Hrr by lia. replace (Z.to_nat (0 + Z.of_nat i - 0)) with i in Hrr by lia.
  destruct (build_fields crc 0 rds.*1) as (_ & Hidx & _). rewrite Hidx, idx_entry_at_spec in Hrr by (by apply entries_ok).
  pose proof (entries_lookup crc 0 rds.*1 i rec Hr) as He. eexists. split; [exact He|]. rewrite He in Hrr.
  cbn [mbind option_bind] in Hrr. set (e := mkIdx _ _ _ _) in *.
  assert (Hpos : 0 <= ie_offset e ∧ 0 < ie_len e).
  { unfold e. cbn [ie_offset ie_len]. rewrite encode_frame_live, length_frame_with. lia. }
  destruct Hpos as [? ?]. split; [done|]. split; [done|]. split.
  - destruct (Nat.ltb_spec (length (seg_data crc rds)) (Z.to_nat (ie_offset e) + Z.to_nat (ie_len e))); [done|lia].
  - destruct (_ <? _)%nat; [done|]. injection Hrr as Hrr. exact Hrr.
Qed.

(** The frame of a copy of the segment: the read fails, the record is flagged, or its
    payload is decoded. *)
Lemma frame_decode io st seg rds (i : nat) rec d e :
  sg_data st !! sl_start_seq seg = Some (seg_data crc rds) → Forall seg_ok rds.*1 →
  Z.of_nat (frames_len crc rds.*1) < 2 ^ 32 → rds !! i = Some (rec, d) → entries_from crc 0 rds.*1 !! i = Some e →
  read_frame io st seg e =
    if io && negb (bool_decide (d = SEG_DEL_SENTINEL)) then Some (decode_payload (sr_data rec)) else None.
Proof.
  intros Hd Hok Hl Hi He. destruct (frame_read rds i rec d Hok Hl Hi) as (e' & He' & Ho & Hn & Hhi & Hdec). simplify_eq.
  unfold read_frame, read_range. rewrite Hd. cbn [mbind option_bind]. destruct io; [|done]. cbn [negb orb andb].
  destruct (Z.ltb_spec (Z.of_nat (length (seg_data crc rds))) (ie_offset e + ie_len e)); [lia|]. cbn [mbind option_bind].
  rewrite Hdec. by destruct (bool_decide _).
Qed.

(** Reading a record of a sealed segment: its payload, unless it is flagged or a read fails. *)
Lemma read_locator_spec fault L dead t seg recs (i : nat) rec :
  seg_at L dead t (sl_start_seq seg) recs → recs !! i = Some rec →
  let res := read_locator fault t seg (sl_start_seq seg + Z.of_nat i) in
  (res = None ∨ res = Some (decode_payload (sr_data rec))) ∧
  (fault = ReadOk → res =
    if decide (sl_start_seq seg + Z.of_nat i ∈ dead) then None else Some (decode_payload (sr_data rec))).
Proof.
  intros [_ Hrun Hlen _ _ (rds & Hfst & Hfl & Hres)] Hi. set (start := sl_start_seq seg) in *.
  pose proof (log_run_ok _ _ _ Hrun) as Hok.
  destruct (resolved_store _ _ _ _ Hres) as (tr & st & Htr & Hst & [= Hd Hx] & _ & Hwhere).
  assert (store_at t tr = st) as Hat by (destruct tr; [by subst|destruct Hwhere as [Hc _]; simpl; by rewrite Hc]).
  unfold read_locator. fold start. rewrite Htr. cbn [mbind option_bind]. rewrite Hat.
  destruct (entry_read (idx_io fault) st seg recs i rec Hx Hok Hlen Hi) as [Hent [e Hee]].
  fold start in Hent. rewrite Hent, Hee.
  assert (Hrd : ∃ d, rds !! i = Some (rec, d)).
  { rewrite <-Hfst, list_lookup_fmap in Hi. destruct (rds !! i) as [[r d]|]; [|done]. injection Hi as ->. by exists d. }
  destruct Hrd as [d Hrd]. subst recs. cbv zeta.
  pose proof (frame_decode (data_io fault) st seg rds i rec d e Hd Hok Hlen Hrd Hee) as Hf.
  specialize (Hfl i rec d Hrd).
  split; [destruct (idx_io fault); cbn [mbind option_bind]; [rewrite Hf; case_match; auto|by left]|].
  intros ->. cbn [idx_io data_io mbind option_bind] in *. rewrite Hf. cbn [andb].
  destruct (decide (start + Z.of_nat i ∈ dead)); [by rewrite bool_decide_eq_true_2 by tauto|by rewrite bool_decide_eq_false_2 by tauto].
Qed.

(** *** Finding a segment *)
Lemma sorted_lookup {A} (R : A → A → Prop) l (i j : nat) x y :
  StronglySorted R l → l !! i = Some x → l !! j = Some y → (i < j)%nat → R x y.
Proof.
  intros Hs Hi Hj Hlt. rewrite <-(take_drop j l) in Hs. apply StronglySorted_app in Hs as (Hxy & _). apply Hxy.
  - eapply list_elem_of_lookup_2. by rewrite lookup_take_lt.
  - eapply (list_elem_of_lookup_2 _ 0). by rewrite lookup_drop, Nat.add_0_r.
Qed.

Lemma segment_for_spec w seg seq :
  StronglySorted (λ s1 s2, sl_end_seq s1 < sl_start_seq s2) (sw_sealed w) →
  (∀ s, s ∈ sw_sealed w → sl_start_seq s <= sl_end_seq s) →
  segment_for w seq = Some seg ↔ seg ∈ sw_sealed w ∧ sl_start_seq seg <= seq <= sl_end_seq seg.
Proof.
  intros Hord Hne. unfold segment_for. set (p := λ s, sl_start_seq s <=? seq).
  assert (Hcount : ∀ l, StronglySorted (λ s1 s2, sl_end_seq s1 < sl_start_seq s2) l →
    (∀ s, s ∈ l → sl_start_seq s <= sl_end_seq s) →
    Forall (λ s, sl_start_seq s <= seq) (take (partition_point p l) l) ∧
    Forall (λ s, seq < sl_start_seq s) (drop (partition_point p l) l) ∧ (partition_point p l <= length l)%nat).
  { clear. induction l as [|s l IH]; intros Hs Hne; [done|]. apply StronglySorted_inv in Hs as [Hs Hx]. simpl.
    unfold p at 1 3 5. destruct (Z.leb_spec (sl_start_seq s) seq).
    - destruct IH as (? & ? & ?); [done|intros; apply Hne; by right|]. simpl. split_and!; [by constructor|done|lia].
    - simpl. split_and!; [done| |lia]. constructor; [done|]. eapply Forall_impl; [exact Hx|]. simpl. intros s' Hs'.
      specialize (Hne s ltac:(by left)). lia. }
  destruct (Hcount (sw_sealed w) Hord Hne) as (Hlo & Hhi & Hk). clear Hcount. set (k := partition_point p _) in *. clearbody k.
  assert (Huniq : seg ∈ sw_sealed w ∧ sl_start_seq seg <= seq <= sl_end_seq seg →
    ∃ i, k = S i ∧ sw_sealed w !! i = Some seg).
  { intros [Hin Hr]. apply list_elem_of_lookup in Hin as [j Hj].
    assert (Hjk : (j < k)%nat).
    { destruct (decide (j < k)%nat) as [|Hge]; [done|]. exfalso.
      assert (Hd : drop k (sw_sealed w) !! (j - k)%nat = Some seg) by (rewrite lookup_drop; by replace (k + (j - k))%nat with j by lia).
      pose proof (Forall_lookup_1 _ _ _ _ Hhi Hd). simpl in *. lia. }
    destruct k as [|k]; [lia|]. exists k. split; [done|]. destruct (decide (j = k)) as [->|Hne']; [done|]. exfalso.
    destruct (lookup_lt_is_Some_2 (sw_sealed w) k) as [s' Hs']; [lia|].
    pose proof (sorted_lookup _ _ j k seg s' Hord Hj Hs' ltac:(lia)) as Hlt. simpl in Hlt.
    assert (Ht : take (S k) (sw_sealed w) !! k = Some s') by (by rewrite lookup_take_lt by lia).
    pose proof (Forall_lookup_1 _ _ _ _ Hlo Ht). simpl in *. lia. }
  split.
  - destruct k as [|i]; [done|]. destruct (sw_sealed w !! i) as [s'|] eqn:Hs'; [|done]. cbn [mbind option_bind].
    destruct (Z.leb_spec (sl_start_seq s') seq), (Z.leb_spec seq (sl_end_seq s')); simpl; try done. intros [= ->].
    split; [by eapply list_elem_of_lookup_2|lia].
  - intros H. destruct (Huniq H) as (i & -> & Hi). destruct H as [_ Hr]. rewrite Hi. cbn [mbind option_bind].
    by rewrite (proj2 (Z.leb_le _ _)), (proj2 (Z.leb_le _ _)) by lia.
Qed.

(** ** Serving *)
Lemma sealed_nonempty cfg w t L dead next seg :
  writer_inv cfg w t L dead next → seg ∈ sw_sealed w → sl_start_seq seg <= sl_end_seq seg.
Proof.
  intros Hinv Hin. destruct (iv_sealed _ _ _ _ _ _ Hinv seg Hin) as (recs & He & Hat). pose proof (sa_some _ _ _ _ _ Hat).
  destruct recs; [done|]. simpl in He. lia.
Qed.

Lemma front_le cfg w t L dead next : writer_inv cfg w t L dead next → front w next <= next.
Proof.
  intros Hinv. unfold front. destruct (sw_active w) as [b|] eqn:Ha; [|done].
  destruct (iv_active _ _ _ _ _ _ Hinv b Ha) as (start & recs & _ & -> & _ & _ & <- & _).
  unfold build. destruct (foldl_push_builder crc recs (builder_new start)) as (_ & _ & -> & _). simpl. lia.
Qed.

Lemma segment_for_inv cfg w t L dead next seg seq :
  writer_inv cfg w t L dead next →
  segment_for w seq = Some seg ↔ seg ∈ sw_sealed w ∧ sl_start_seq seg <= seq <= sl_end_seq seg.
Proof. intros Hinv. apply segment_for_spec; [by eapply iv_order|]. intros s. by eapply sealed_nonempty. Qed.

Lemma cache_find_ok L w next cache seq p :
  (∀ c, c ∈ cache → cached_ok L w next c) → registered w seq → cache_find cache seq = Some p →
  ∃ rec, L !! seq = Some rec ∧ p = decode_payload (sr_data rec).
Proof.
  intros Hok Hr. unfold cache_find. destruct (filter _ (reverse cache)) as [|c l] eqn:Hf; [done|]. intros [= <-].
  assert (Hin : c ∈ filter (λ c, cp_seq c = seq) (reverse cache)) by (rewrite Hf; by left).
  apply list_elem_of_filter in Hin as [<- Hin]. rewrite elem_of_reverse in Hin. by apply Hok.
Qed.

(** The record of a registered seq. *)
Lemma registered_record cfg w t L dead next seg seq :
  writer_inv cfg w t L dead next → seg ∈ sw_sealed w → sl_start_seq seg <= seq <= sl_end_seq seg →
  ∃ recs (i : nat) rec, seg_at L dead t (sl_start_seq seg) recs ∧ sl_end_seq seg = sl_start_seq seg + Z.of_nat (length recs) - 1 ∧
    recs !! i = Some rec ∧ seq = sl_start_seq seg + Z.of_nat i ∧ L !! seq = Some rec.
Proof.
  intros Hinv Hin Hr. destruct (iv_sealed _ _ _ _ _ _ Hinv seg Hin) as (recs & He & Hat).
  destruct (lookup_lt_is_Some_2 recs (Z.to_nat (seq - sl_start_seq seg)) ltac:(lia)) as [rec Hi].
  assert (Hseq : seq = sl_start_seq seg + Z.of_nat (Z.to_nat (seq - sl_start_seq seg))) by lia.
  exists recs, (Z.to_nat (seq - sl_start_seq seg)), rec. split_and!; [done..|]. rewrite Hseq.
  by destruct (sa_run _ _ _ _ _ Hat _ _ Hi) as (HL & _).
Qed.

(** A sealed seq that no flag marks is served when the reads of the files succeed; no
    failure serves it with another payload. *)
Lemma resolve_sealed_spec fault cfg w t L dead next seg seq :
  writer_inv cfg w t L dead next → seg ∈ sw_sealed w → sl_start_seq seg <= seq <= sl_end_seq seg →
  ∃ rec, L !! seq = Some rec ∧
    ((resolve_sealed fault w t seq).2 = None ∨
     (resolve_sealed fault w t seq).2 = Some (decode_payload (sr_data rec))) ∧
    (fault = ReadOk → seq ∉ dead → (resolve_sealed fault w t seq).2 = Some (decode_payload (sr_data rec))).
Proof.
  intros Hinv Hin Hr. pose proof (iv_cache _ _ _ _ _ _ Hinv) as Hc.
  destruct (registered_record _ _ _ _ _ _ _ _ Hinv Hin Hr) as (recs & i & rec & Hat & _ & Hi & Hseq & HL).
  exists rec. split; [done|]. assert (Hreg : registered w seq) by (by exists seg).
  assert (Hhit : ∀ cache p, (∀ c, c ∈ cache → cached_ok L w next c) → cache_find cache seq = Some p → p = decode_payload (sr_data rec)).
  { intros cache p Hok Hf. destruct (cache_find_ok _ _ _ _ _ _ Hok Hreg Hf) as (rec' & HL' & ->). by simplify_eq. }
  unfold resolve_sealed, resolve_sealed_fast.
  destruct (cache_find (sw_cache w) seq) as [p|] eqn:H1; [rewrite (Hhit _ p (λ c Hin, Hc c (or_introl Hin)) H1); auto|].
  destruct (cache_find (sw_cold_cache w) seq) as [p|] eqn:H2; [rewrite (Hhit _ p (λ c Hin, Hc c (or_intror Hin)) H2); auto|].
  rewrite (proj2 (segment_for_inv _ _ _ _ _ _ seg seq Hinv)) by done.
  destruct (read_locator_spec fault L dead t seg recs i rec Hat Hi) as [Hany Hok]. rewrite <-Hseq in *. split.
  - destruct Hany as [->| ->]; auto.
  - intros Hf Hd. rewrite (Hok Hf), decide_False by done. done.
Qed.

(** ** Sealing *)
Lemma push_bounded_in cap ring c c' : c' ∈ push_bounded cap ring c → c' ∈ ring ∨ c' = c.
Proof.
  unfold push_bounded. intros Hin. apply (subseteq_drop _ (ring ++ [c])) in Hin.
  apply elem_of_app in Hin as [?| ->%list_elem_of_singleton]; auto.
Qed.

Lemma put_other fault st id data idx id' : id' ≠ id → files (store_put fault st id data idx).1 id' = files st id'.
Proof. intros Hne. destruct fault; simpl; unfold files; simpl; by rewrite ?lookup_insert_ne by done. Qed.

Lemma put_on_disk fault t id data idx id' :
  on_disk (mkTier (store_put fault (tt_hot t) id data idx).1 (tt_cold t)) id' → id' = id ∨ on_disk t id'.
Proof.
  destruct (decide (id' = id)) as [->|Hne]; [by left|]. intros Hd. right.
  pose proof (put_other fault (tt_hot t) id data idx id' Hne) as [Hf Hx]%files_eq. unfold on_disk in *. simpl in *.
  by rewrite Hf, Hx in Hd.
Qed.

Lemma build_start start recs : sb_start_seq (build crc start recs) = start ∧ sb_next_seq (build crc start recs) = start + Z.of_nat (length recs).
Proof. unfold build. by destruct (foldl_push_builder crc recs (builder_new start)) as (_ & _ & -> & ->). Qed.

Lemma log_run_start L start recs : recs ≠ [] → log_run L start recs → 0 <= start.
Proof.
  intros Hne Hr. destruct recs as [|rec recs]; [done|]. destruct (Hr 0%nat rec eq_refl) as (_ & [[Hs _] _] & Hq). lia.
Qed.

(** What the active segment becomes when it is sealed. *)
Lemma live_flags (recs : list SegmentRecord) : ((λ r, (r, SEG_DEL_LIVE)) <$> recs).*1 = recs.
Proof. rewrite <-list_fmap_compose. apply list_fmap_id. Qed.

Lemma seal_cache L w start recs cap cache :
  log_run L start recs → Z.of_nat (frames_len crc recs) < 2 ^ 32 →
  (∀ c, c ∈ cache → cached_ok L w (start + Z.of_nat (length recs)) c) → sw_active w = None →
  ∀ c, c ∈ foldl (cache_record (build crc start recs) cap) cache (seqZ start (Z.of_nat (length recs))) →
    cached_ok L w (start + Z.of_nat (length recs)) c.
Proof.
  intros Hr Hl Hc Hact. revert Hc. pose proof (log_run_ok _ _ _ Hr) as Hok.
  assert (Hsub : ∀ s, s ∈ seqZ start (Z.of_nat (length recs)) → start <= s < start + Z.of_nat (length recs)) by (intros s Hs%elem_of_seqZ; lia).
  revert cache Hsub. induction (seqZ start (Z.of_nat (length recs))) as [|s seqs IH]; intros cache Hsub Hc; [done|].
  cbn [foldl]. apply IH; [intros; apply Hsub; by right|]. intros c. unfold cache_record.
  destruct (cap =? 0)%nat; [by apply Hc|]. specialize (Hsub s ltac:(by left)).
  destruct (lookup_lt_is_Some_2 recs (Z.to_nat (s - start)) ltac:(lia)) as [rec Hi].
  destruct (build_start start recs) as [-> _]. destruct (build_fields crc start recs) as (-> & _ & _).
  pose proof (read_record_spec crc crc_u64 start ((λ r, (r, SEG_DEL_LIVE)) <$> recs) (Z.to_nat (s - start)) rec SEG_DEL_LIVE) as Hrr.
  rewrite live_flags in Hrr. rewrite Z2Nat.id in Hrr by lia. replace (start + (s - start)) with s in Hrr by lia.
  rewrite Hrr; [|done|done|by rewrite list_lookup_fmap, Hi].
  intros [Hin| ->]%push_bounded_in; [by apply Hc|]. split; [unfold front; rewrite Hact; simpl; lia|]. intros _.
  exists rec. simpl. split; [|done].
  destruct (Hr _ _ Hi) as (HL & _). rewrite Z2Nat.id in HL by lia. by replace (start + (s - start)) with s in HL by lia.
Qed.

Lemma seal_at L dead t start recs :
  recs ≠ [] → log_run L start recs → Z.of_nat (frames_len crc recs) < 2 ^ 32 →
  ¬ on_disk t start → (∀ s, s ∈ dead → s < start) →
  seg_at L dead (mkTier (store_put PutOk (tt_hot t) start (sb_data (build crc start recs)) (idx_of start recs)).1 (tt_cold t))
    start recs.
Proof.
  intros Hne Hr Hl Hnd Hdead. destruct (build_fields crc start recs) as (Hd & _ & _). rewrite Hd.
  set (rds := (λ r, (r, SEG_DEL_LIVE)) <$> recs).
  assert (Hfl : ∀ i rec d, rds !! i = Some (rec, d) → d = SEG_DEL_LIVE).
  { intros i rec d Hi. unfold rds in Hi. rewrite list_lookup_fmap in Hi. by destruct (recs !! i); simplify_eq/=. }
  split; [done..| | |exists rds]; simpl.
  - split; simpl; rewrite lookup_insert_eq; [|by intros idx [= <-]]. intros data [= <-]. exists rds.
    split_and!; [apply live_flags|done|]. intros i rec Hi. by apply Hfl in Hi.
  - intros cold Hc. split; simpl; intros x Hx; exfalso; apply Hnd; right; right; exists cold; split; try done;
      [left|right]; by eexists.
  - split_and!; [apply live_flags| |unfold resolved; simpl; by rewrite !lookup_insert_eq].
    intros i rec d Hi. rewrite (Hfl _ _ _ Hi). split; [done|]. intros Hin%Hdead. lia.
Qed.

Lemma resolve_none t id : ¬ on_disk t id → resolve t id = None.
Proof.
  intros Hnd. unfold resolve, has_data. rewrite bool_decide_eq_false_2 by (intros ?; apply Hnd; by left).
  destruct (tt_cold t) as [cold|] eqn:Hcd; [|done]. rewrite bool_decide_eq_false_2; [done|].
  intros ?. apply Hnd. right; right. exists cold. auto.
Qed.

(** What the operations other than relocation keep for a relocation in progress: a
    segment that stays registered keeps its range and its files. *)
Definition keys_kept (st st' : SegStore) (id : Z) : Prop :=
  (is_Some (sg_data st !! id) → is_Some (sg_data st' !! id)) ∧ (is_Some (sg_idx st !! id) → is_Some (sg_idx st' !! id)).
Definition seg_kept (w : SegmentWriter) (t t' : TopicTier) (seg : SealedSegment) : Prop :=
  ∃ seg0, seg0 ∈ sw_sealed w ∧ sl_start_seq seg0 = sl_start_seq seg ∧ sl_end_seq seg0 = sl_end_seq seg ∧
    keys_kept (tt_hot t) (tt_hot t') (sl_start_seq seg) ∧
    ∀ cold, tt_cold t = Some cold → ∃ cold', tt_cold t' = Some cold' ∧ keys_kept cold cold' (sl_start_seq seg).
Record grows (w : SegmentWriter) (t : TopicTier) (next : Z) (w' : SegmentWriter) (t' : TopicTier) (next' : Z) : Prop := {
  gr_front : front w next <= front w' next';
  gr_cold : is_Some (tt_cold t) → is_Some (tt_cold t');
  gr_sealed : ∀ seg, seg ∈ sw_sealed w' → front w next <= sl_start_seq seg ∨ seg_kept w t t' seg
}.

Lemma seg_kept_in w t seg : seg ∈ sw_sealed w → seg_kept w t t seg.
Proof. intros Hin. exists seg. split_and!; [done..|]. intros cold ?. by exists cold. Qed.

Lemma grows_trans w1 t1 n1 w2 t2 n2 w3 t3 n3 :
  grows w1 t1 n1 w2 t2 n2 → grows w2 t2 n2 w3 t3 n3 → grows w1 t1 n1 w3 t3 n3.
Proof.
  intros [Hf1 Hc1 Hs1] [Hf2 Hc2 Hs2]. split; [lia|by auto|]. intros seg [Hin|(s2 & Hin & Hst & He & Hh & Hc)]%Hs2; [left; lia|].
  destruct (Hs1 s2 Hin) as [Hlt|(s1 & Hin1 & Hst1 & He1 & Hh1 & Hcc)]; [left; lia|right]. rewrite Hst in *.
  exists s1. split_and!; [done..|congruence|unfold keys_kept in *; naive_solver|].
  intros cold Hcold. destruct (Hcc cold Hcold) as (c2 & H2 & Hk2). destruct (Hc c2 H2) as (c3 & H3 & Hk3).
  exists c3. split; [done|]. unfold keys_kept in *. naive_solver.
Qed.

Lemma grows_extends w t next w' t' next' : grows w t next w' t' next' → extends w next w' next'.
Proof. intros [Hf _ Hs]. split; [done|]. intros seg [?|(s0 & ? & ? & ? & _)]%Hs; [by left|right]. by exists s0. Qed.

Lemma put_keys fault st id data idx id' : keys_kept st (store_put fault st id data idx).1 id'.
Proof.
  destruct fault; unfold keys_kept; simpl; try done; split; try done; intros H;
    (destruct (decide (id = id')) as [->|]; [rewrite lookup_insert_eq; by eexists|by rewrite lookup_insert_ne]).
Qed.

(** A put at the front leaves the sealed segments as they are. *)
Lemma put_sealed cfg fault w t L dead next start data idx seg :
  let t' := mkTier (store_put fault (tt_hot t) start data idx).1 (tt_cold t) in
  writer_inv cfg w t L dead next → front w next = start → seg ∈ sw_sealed w →
  (∃ rs, sl_end_seq seg = sl_start_seq seg + Z.of_nat (length rs) - 1 ∧ seg_at L dead t' (sl_start_seq seg) rs) ∧
  seg_kept w t t' seg.
Proof.
  intros t' Hinv Hf Hin. pose proof Hinv as [_ _ Hseal _ Hbel _ _ _ _]. split.
  - destruct (Hseal seg Hin) as (rs & He & Hat). exists rs. split; [done|].
    pose proof (sealed_nonempty _ _ _ _ _ _ _ Hinv Hin). specialize (Hbel seg Hin).
    eapply seg_at_same; [..|exact Hat]; [|done]. simpl. apply put_other. lia.
  - exists seg. split_and!; [done..|apply put_keys|]. intros cold ?. by exists cold.
Qed.

Lemma seal_inv cfg fault w t L dead next :
  writer_inv cfg w t L dead next →
  let '(w', t', seqs) := seal_active fault w t in
  writer_inv cfg w' t' L dead next ∧ sw_active w' = None ∧
  (∀ s, s ∈ seqs → registered w' s) ∧ grows w t next w' t' next.
Proof.
  intros Hinv. pose proof Hinv as [Hcfg Hact Hseal Hord Hbel Hids Hdead Hc Hlog]. unfold seal_active.
  destruct (sw_active w) as [b|] eqn:Ha; [|split_and!; [done..|set_solver|by split; eauto using seg_kept_in]].
  destruct (Hact b eq_refl) as (start & recs & Hne & -> & Hrun & Hlen & Hnx & _).
  unfold record_count. rewrite idx_len_build. destruct (Nat.eqb_spec (length recs) 0); [by destruct recs|].
  unfold front in *. rewrite Ha in *. destruct (build_start start recs) as [Hst Hnext]. rewrite Hst in *.
  pose proof (log_run_start _ _ _ Hne Hrun) as H0.
  assert (Hend : end_seq (build crc start recs) = start + Z.of_nat (length recs) - 1).
  { unfold end_seq. rewrite Hnext. rewrite sat_sub_exact by lia. lia. }
  assert (Hnd : ¬ on_disk t start) by (intros Hd%Hids; lia).
  rewrite (resolve_none t start Hnd).
  set (data := sb_data (build crc start recs)). fold (idx_of start recs).
  assert (Hf : front w next = start) by (unfold front; by rewrite Ha, Hst).
  pose proof (λ seg, put_sealed cfg fault w t L dead next start data (idx_of start recs) seg Hinv Hf) as Hput'.
  pose proof (put_on_disk fault t start data (idx_of start recs)) as Hdisk.
  unfold builder_seqs. rewrite Hst, Hend. replace (start + Z.of_nat (length recs) - 1 - start + 1) with (Z.of_nat (length recs)) by lia.
  destruct (store_put fault (tt_hot t) start data (idx_of start recs)) as [hot ok] eqn:Hput. simpl in Hput', Hdisk.
  destruct ok; (split; [split; simpl; try done|]).
  - intros seg [Hin| ->%list_elem_of_singleton]%elem_of_app; [by apply Hput'|]. exists recs. simpl. split; [lia|].
    assert (hot = (store_put PutOk (tt_hot t) start data (idx_of start recs)).1) as ->
      by (destruct fault; by injection Hput as <-). by apply seal_at.
  - apply StronglySorted_app. split_and!; [|done|by repeat constructor].
    intros s1 s2 Hs1 ->%list_elem_of_singleton. simpl. by apply Hbel.
  - unfold front. simpl. intros seg [Hin| ->%list_elem_of_singleton]%elem_of_app; [specialize (Hbel _ Hin); lia|simpl; lia].
  - unfold front. simpl. intros id [->|Hd]%Hdisk; [lia|specialize (Hids _ Hd); lia].
  - unfold front. simpl. intros s' Hs'. specialize (Hdead _ Hs'). lia.
  - set (w' := set_sealed _ _ _ _).
    assert (Hex : extends w next w' next).
    { split; unfold front; simpl; rewrite ?Ha, ?Hst; [lia|].
      intros seg [Hin| ->%list_elem_of_singleton]%elem_of_app; [right; by exists seg|left; simpl; lia]. }
    assert (Hold : ∀ c, c ∈ sw_cache w ∨ c ∈ sw_cold_cache w → cached_ok L w' next c).
    { intros c Hin. eapply cached_extends; [exact Hex|done|by apply Hc]. }
    intros c [Hin|Hin]; [|by auto]. rewrite <-Hnx. eapply seal_cache; [done|done| |done|exact Hin]. rewrite Hnx. auto.
  - simpl. split_and!; [done| |].
    + intros s' Hs'%elem_of_seqZ. eexists. split; [apply elem_of_app; right; by left|]. simpl. lia.
    + split; unfold front; simpl; rewrite ?Ha, ?Hst; [lia|done|].
      intros seg [Hin| ->%list_elem_of_singleton]%elem_of_app; [right; by apply Hput'|left; simpl; lia].
  - intros seg Hin. by apply Hput'.
  - unfold front. simpl. intros seg Hin. specialize (Hbel _ Hin). lia.
  - unfold front. simpl. intros id [->|Hd]%Hdisk; [lia|specialize (Hids _ Hd); lia].
  - unfold front. simpl. intros s' Hs'. specialize (Hdead _ Hs'). lia.
  - intros c Hin. eapply (cached_extends L L w next); [|done|by apply Hc].
    split; unfold front; simpl; rewrite ?Ha, ?Hst; [lia|]. intros seg Hs. right. by exists seg.
  - split_and!; [done|set_solver|]. split; unfold front; simpl; rewrite ?Ha, ?Hst; [lia|done|]. intros seg Hin. right. by apply Hput'.
Qed.

(** ** Appending *)
Lemma frames_len_snoc recs rec : frames_len crc (recs ++ [rec]) = (frames_len crc recs + length (encode_data_frame crc rec))%nat.
Proof. induction recs as [|r recs IH]; simpl; [lia|]. rewrite IH. lia. Qed.

Lemma build_snoc start recs rec : builder_push crc (build crc start recs) rec = build crc start (recs ++ [rec]).
Proof. unfold build. by rewrite foldl_app. Qed.

Lemma log_run_insert L start recs seq rec :
  L !! seq = None → log_run L start recs → log_run (<[seq := rec]> L) start recs.
Proof.
  intros Hn Hr i r Hi. destruct (Hr i r Hi) as (HL & ? & ?). split_and!; [|done..].
  rewrite lookup_insert_ne; [done|]. intros ->. congruence.
Qed.

Lemma seg_at_insert L dead t start recs seq rec :
  L !! seq = None → seg_at L dead t start recs → seg_at (<[seq := rec]> L) dead t start recs.
Proof. intros Hn []. split; try done. by apply log_run_insert. Qed.

(** The record is pushed to an active segment that ends at its seq, or to a new one. *)
Lemma push_inv cfg w t L dead next seq rec started :
  writer_inv cfg w t L dead next → next <= seq → frame_fits rec → sr_seq rec = seq → 0 <= size < 2 ^ 32 →
  (∀ b, sw_active w = Some b → sb_next_seq b = seq ∧ Z.of_nat (data_len b) + size < 2 ^ 32) →
  let b := match sw_active w with Some b => b | None => builder_new seq end in
  writer_inv cfg (set_active w (Some (builder_push crc b rec)) started) t (<[seq := rec]> L) dead (seq + 1).
Proof.
  intros Hinv Hseq [Hok Hfb] Hsr Hsize Hroom. pose proof Hinv as [Hcfg Hact Hseal Hord Hbel Hids Hdead Hc Hlog].
  assert (HL : L !! seq = None).
  { destruct (L !! seq) as [r|] eqn:E; [|done]. specialize (Hlog seq ltac:(by eexists)). lia. }
  assert (Hnew : ∃ start recs, (match sw_active w with Some b => b | None => builder_new seq end) = build crc start recs ∧
    log_run L start recs ∧ Z.of_nat (frames_len crc recs) + size < 2 ^ 32 ∧ start + Z.of_nat (length recs) = seq ∧
    front w next <= start ∧ Z.of_nat (frames_len crc recs) <= Z.of_nat (length recs) * size).
  { unfold front. destruct (sw_active w) as [b|] eqn:Ha.
    - destruct (Hact b eq_refl) as (start & recs & _ & -> & Hrun & _ & Hnx & Hcount). destruct (Hroom _ eq_refl) as [Hn Hd].
      exists start, recs. destruct (build_start start recs) as [Hs Hx]. rewrite Hx in Hn. unfold data_len in Hd.
      destruct (build_fields crc start recs) as (Hdata & _). rewrite Hdata, length_seg_data, live_flags in Hd.
      split_and!; [done..|lia|done].
    - exists seq, []. split_and!; [done| |simpl; lia|simpl; lia|lia|simpl; lia]. intros i r Hi. done. }
  destruct Hnew as (start & recs & -> & Hrun & Hlen & Hst & Hfr & Hcount). cbv zeta. rewrite build_snoc.
  assert (Hfront : front (set_active w (Some (build crc start (recs ++ [rec]))) started) (seq + 1) = start).
  { unfold front. simpl. by destruct (build_start start (recs ++ [rec])) as [-> _]. }
  split; rewrite ?Hfront; simpl; try done.
  - intros b [= <-]. exists start, (recs ++ [rec]). split_and!; [by destruct recs|done| | |rewrite length_app; simpl; lia|].
    + intros i r [Hi|[Hge Hi]]%lookup_app_Some; [by eapply log_run_insert|].
      apply list_lookup_singleton_Some in Hi as [Hz <-]. replace (start + Z.of_nat i) with seq by lia.
      by rewrite lookup_insert_eq.
    + rewrite frames_len_snoc. lia.
    + rewrite frames_len_snoc, length_app. simpl. lia.
  - intros seg Hin. destruct (Hseal seg Hin) as (rs & He & Hat). exists rs. split; [done|]. by apply seg_at_insert.
  - intros seg Hin. specialize (Hbel seg Hin). lia.
  - intros id Hd. specialize (Hids id Hd). lia.
  - intros s' Hs'. specialize (Hdead s' Hs'). lia.
  - intros c Hin. eapply (cached_extends L _ w next); [|by apply insert_subseteq|by apply Hc].
    split; rewrite ?Hfront; [done|]. intros seg Hs. right. by exists seg.
  - intros s' Hs'. destruct (decide (s' = seq)) as [->|Hne]; [lia|]. rewrite lookup_insert_ne in Hs' by done.
    specialize (Hlog s' Hs'). lia.
Qed.

Lemma append_inv cfg now fault seq ts node tag data meta w t L dead next :
  let rec := mkSegRec seq (Z.max ts 0) node tag (encode_payload data meta) in
  config_ok cfg → writer_inv cfg w t L dead next → next <= seq → frame_fits rec →
  let '(w', t', seqs) := append_record now fault seq ts node tag data meta w t in
  writer_inv cfg w' t' (<[seq := rec]> L) dead (seq + 1) ∧
  (∀ s, s ∈ seqs → registered w' s) ∧ grows w t next w' t' (seq + 1).
Proof.
  intros rec Hcok Hinv Hseq Hok. assert (Hsize : 0 <= size < 2 ^ 32) by (unfold config_ok in Hcok; nia).
  unfold append_record. set (gap := match sw_active w with Some _ => _ | None => _ end).
  assert (Hpush : ∀ w1 t1, writer_inv cfg w1 t1 L dead next →
    (∀ b, sw_active w1 = Some b → sb_next_seq b = seq ∧ Z.of_nat (data_len b) + size < 2 ^ 32) →
    let w2 := match sw_active w1 with Some _ => w1 | None => set_active w1 (Some (builder_new seq)) ts end in
    writer_inv cfg (set_active w2 ((λ a, builder_push crc a rec) <$> sw_active w2) (sw_active_started_ms w2)) t1
      (<[seq := rec]> L) dead (seq + 1) ∧
    grows w1 t1 next (set_active w2 ((λ a, builder_push crc a rec) <$> sw_active w2) (sw_active_started_ms w2)) t1 (seq + 1)).
  { intros w1 t1 Hinv1 Hroom. pose proof (λ started, push_inv cfg w1 t1 L dead next seq rec started Hinv1 Hseq Hok eq_refl Hsize Hroom) as Hp.
    destruct (sw_active w1) as [b|] eqn:Ha; cbv zeta; [rewrite Ha; split; [apply Hp|]|split; [exact (Hp ts)|]];
      (split; [unfold front; rewrite Ha; simpl; lia|done|intros seg Hin; right; by apply seg_kept_in]). }
  destruct (gap || should_seal_before w now) eqn:Hs.
  - pose proof (seal_inv cfg fault w t L dead next Hinv) as Hsl. destruct (seal_active fault w t) as [[w1 t1] seqs].
    destruct Hsl as (Hinv1 & Ha & Hreg & Hkeep). specialize (Hpush w1 t1 Hinv1). rewrite Ha in *.
    destruct Hpush as [Hp Hgr]; [done|]. split; [exact Hp|]. simpl. split; [exact Hreg|by eapply grows_trans].
  - cut (∀ b, sw_active w = Some b → sb_next_seq b = seq ∧ Z.of_nat (data_len b) + size < 2 ^ 32).
    { intros Hr. destruct (Hpush w t Hinv Hr). split; [done|]. split; [set_solver|done]. }
    intros b Hb.
    apply orb_false_iff in Hs as [Hg Hss]. unfold gap in Hg. unfold should_seal_before in Hss. rewrite Hb in Hg, Hss.
    destruct (iv_active _ _ _ _ _ _ Hinv b Hb) as (start & recs & Hne & -> & _ & _ & _ & Hcount). unfold record_count in *.
    rewrite idx_len_build in *. rewrite (iv_cfg _ _ _ _ _ _ Hinv) in Hss.
    assert (Hn0 : length recs ≠ 0%nat) by (by destruct recs).
    destruct (Nat.ltb_spec 0 (length recs)); [|lia]. simpl in Hg. destruct (Z.eqb_spec (Z.of_nat (length recs)) 0); [lia|].
    apply orb_false_iff in Hss as [[He1 Hb1]%orb_false_iff _]. split; [lia|]. destruct Hcok as [_ [[Hb0 Hmax]|Hev]].
    + rewrite (proj2 (Z.ltb_lt _ _) Hb0) in Hb1. simpl in Hb1. lia.
    + unfold data_len. destruct (build_fields crc start recs) as (-> & _). rewrite length_seg_data, live_flags.
      apply Z.leb_gt in He1. nia.
Qed.

(** ** Flags *)

(** The two sets agree on the seqs of a run. *)
Definition agree_on (start : Z) (n : nat) (dead dead' : gset Z) : Prop :=
  ∀ i, (i < n)%nat → start + Z.of_nat i ∈ dead ↔ start + Z.of_nat i ∈ dead'.

Lemma copy_of_agree f start recs dead dead' :
  agree_on start (length recs) dead dead' → copy_of f start recs dead → copy_of f start recs dead'.
Proof.
  intros Hag [Hd Hx]. split; [|done]. intros data Hf. destruct (Hd data Hf) as (rds & Hfst & ? & Hfl). exists rds.
  split_and!; [done..|]. intros i rec Hi. apply Hag; [|by eapply Hfl].
  rewrite <-Hfst, length_fmap. by eapply lookup_lt_Some.
Qed.

Lemma seg_at_agree L dead dead' t start recs :
  agree_on start (length recs) dead dead' → seg_at L dead t start recs → seg_at L dead' t start recs.
Proof.
  intros Hag [Hs Hr Hl Hh Hc (rds & Hfst & Hfl & Hres)].
  split; [done..|by eapply copy_of_agree|intros c ?; by eapply copy_of_agree; [|apply Hc]|].
  exists rds. split_and!; [done| |done]. intros i rec d Hi. rewrite (Hfl i rec d Hi). apply Hag.
  rewrite <-Hfst, length_fmap. by eapply lookup_lt_Some.
Qed.

(** The flip of one flag in a store that holds a copy of the segment. *)
Definition flip_if (b : bool) (i : nat) (rds : list (SegmentRecord * byte)) : list (SegmentRecord * byte) :=
  if b then alter (λ rd, (rd.1, SEG_DEL_SENTINEL)) i rds else rds.

Lemma flip_fst b i rds : (flip_if b i rds).*1 = rds.*1.
Proof.
  destruct b; simpl; [|done]. apply list_eq. intros j. rewrite !list_lookup_fmap.
  destruct (decide (i = j)) as [->|Hne]; [rewrite list_lookup_alter_eq|by rewrite list_lookup_alter_ne].
  by destruct (rds !! j).
Qed.

Lemma flip_lookup b i rds j rec d :
  flip_if b i rds !! j = Some (rec, d) →
  ∃ d0, rds !! j = Some (rec, d0) ∧ (d = SEG_DEL_SENTINEL ↔ d0 = SEG_DEL_SENTINEL ∨ (b = true ∧ i = j)).
Proof.
  destruct b; simpl; [|intros Hj; exists d; naive_solver]. destruct (decide (i = j)) as [->|Hne].
  - rewrite list_lookup_alter_eq. destruct (rds !! j) as [[r d0]|]; [|done]. intros [= <- <-]. exists d0. naive_solver.
  - rewrite list_lookup_alter_ne by done. intros Hj. exists d. naive_solver.
Qed.

Lemma mark_spec fault st start rds (i : nat) e :
  sg_data st !! start = Some (seg_data crc rds) → Forall seg_ok rds.*1 → Z.of_nat (frames_len crc rds.*1) < 2 ^ 32 →
  entries_from crc 0 rds.*1 !! i = Some e →
  mark_record_deleted fault st start (ie_offset e + Z.of_nat (del_flag_offset_in_frame (Z.to_nat (ie_len e)))) =
    (mkSegStore (<[start := seg_data crc (flip_if (written fault) i rds)]> (sg_data st)) (sg_idx st), synced fault).
Proof.
  intros Hd Hok Hl He. assert (∃ rd, rds !! i = Some rd) as [[rec d] Hi].
  { apply lookup_lt_is_Some_2. apply lookup_lt_Some in He. by rewrite length_entries, length_fmap in He. }
  destruct (frame_read rds i rec d Hok Hl Hi) as (e' & He' & Ho & Hn & Hhi & _). simplify_eq.
  unfold mark_record_deleted. rewrite Hd. unfold del_flag_offset_in_frame, SEG_FRAME_DEL_LEN.
  destruct (Z.leb_spec (Z.of_nat (length (seg_data crc rds))) (ie_offset e + Z.of_nat (Z.to_nat (ie_len e) - 1))); [lia|].
  destruct (written fault); simpl; [|rewrite insert_id by done; by destruct st].
  assert (alter (λ rd, (rd.1, SEG_DEL_SENTINEL)) i rds = <[i := (rec, SEG_DEL_SENTINEL)]> rds) as ->.
  { apply list_eq. intros j. destruct (decide (i = j)) as [->|Hne].
    - rewrite list_lookup_alter_eq, list_lookup_insert_eq, Hi by (by eapply lookup_lt_Some). done.
    - by rewrite list_lookup_alter_ne, list_lookup_insert_ne. }
  rewrite <-(flip_deleted_spec crc rds i rec d e Hi He). unfold flip_deleted, del_flag_offset_in_frame, SEG_FRAME_DEL_LEN.
  by rewrite Z2Nat.inj_add, Nat2Z.id by lia.
Qed.

(** A copy of a segment one of whose flags is flipped. *)
Lemma flip_copy b (i : nat) st start recs dead rds :
  rds.*1 = recs → (∀ j rec, rds !! j = Some (rec, SEG_DEL_SENTINEL) → start + Z.of_nat j ∈ dead) →
  copy_of (files st start) start recs dead →
  copy_of (files (mkSegStore (<[start := seg_data crc (flip_if b i rds)]> (sg_data st)) (sg_idx st)) start) start recs
    ((if b then {[start + Z.of_nat i]} else ∅) ∪ dead).
Proof.
  intros Hfst Hfl [_ Hx]. split; simpl; [|done]. rewrite lookup_insert_eq. intros data [= <-]. exists (flip_if b i rds).
  rewrite flip_fst. split_and!; [done..|]. intros j rec Hj. apply flip_lookup in Hj as (d0 & Hj & Hd).
  destruct (proj1 Hd eq_refl) as [->|[-> ->]]; [|set_solver]. apply elem_of_union. right. by eapply Hfl.
Qed.

Lemma set_other (st : SegStore) id data id' : id' ≠ id → files (mkSegStore (<[id := data]> (sg_data st)) (sg_idx st)) id' = files st id'.
Proof. intros Hne. unfold files. simpl. by rewrite lookup_insert_ne. Qed.

Lemma set_keys (st : SegStore) id data id' :
  is_Some (sg_data st !! id) → 
  let st' := mkSegStore (<[id := data]> (sg_data st)) (sg_idx st) in keys_kept st st' id' ∧ keys_kept st' st id'.
Proof.
  intros Hs. simpl. unfold keys_kept. simpl. destruct (decide (id = id')) as [->|]; [rewrite lookup_insert_eq; eauto|by rewrite lookup_insert_ne].
Qed.

Lemma on_disk_kept t t' id :
  keys_kept (tt_hot t') (tt_hot t) id →
  (∀ cold', tt_cold t' = Some cold' → ∃ cold, tt_cold t = Some cold ∧ keys_kept cold' cold id) →
  on_disk t' id → on_disk t id.
Proof.
  intros [Hd Hx] Hc [H|[H|(c' & Hc' & H)]]; [left; auto|right; left; auto|right; right].
  destruct (Hc c' Hc') as (c & ? & Hk & Hk'). exists c. split; [done|]. destruct H; [left|right]; auto.
Qed.

(** The store that resolves a segment gets one flag. *)
Lemma flag_seg_at fault L dead t start recs (i : nat) rds tr st :
  seg_at L dead t start recs → rds.*1 = recs → (i < length recs)%nat →
  (∀ i rec d, rds !! i = Some (rec, d) → (d = SEG_DEL_SENTINEL ↔ start + Z.of_nat i ∈ dead)) →
  files st start = (Some (seg_data crc rds), Some (idx_of start recs)) →
  match tr with Hot => st = tt_hot t | Cold => tt_cold t = Some st ∧ sg_data (tt_hot t) !! start = None end →
  let st' := mkSegStore (<[start := seg_data crc (flip_if (written fault) i rds)]> (sg_data st)) (sg_idx st) in
  seg_at L ((if written fault then {[start + Z.of_nat i]} else ∅) ∪ dead) (set_store t tr st') start recs.
Proof.
  intros Hat Hfst Hi Hfl [= Hd Hx] Htr st'. set (dead' := _ ∪ dead).
  assert (Hsub : dead ⊆ dead') by set_solver.
  assert (Hmono : ∀ f, copy_of f start recs dead → copy_of f start recs dead').
  { intros f [Hc1 Hc2]. split; [|done]. intros data Hf. destruct (Hc1 data Hf) as (r & ? & ? & Hr). exists r. split_and!; [done..|].
    intros j rec Hj. apply Hsub. by eapply Hr. }
  destruct Hat as [Hs Hr Hl Hh Hc _].
  assert (Hflip : copy_of (files st start) start recs dead → copy_of (files st' start) start recs dead').
  { apply flip_copy; [done|]. intros j rec Hj. by apply (Hfl _ _ _ Hj). }
  split; [done..| | |exists (flip_if (written fault) i rds); rewrite flip_fst; split_and!; [done| |]].
  - destruct tr; simpl; [|by apply Hmono]. subst st. by apply Hflip.
  - intros cold Hcd. destruct tr; simpl in Hcd; [by apply Hmono, Hc|]. injection Hcd as <-. apply Hflip, Hc. by destruct Htr.
  - intros j rec d Hj. apply flip_lookup in Hj as (d0 & Hj & Hd'). rewrite Hd', (Hfl _ _ _ Hj). unfold dead'.
    rewrite elem_of_union. destruct (written fault); split; [| |naive_solver|set_solver].
    + intros [?|[_ ->]]; [by right|left; set_solver].
    + intros [Hj'%elem_of_singleton|?]; [right; split; [done|lia]|by left].
  - unfold resolved. destruct tr; simpl.
    + rewrite lookup_insert_eq. subst st. by rewrite Hx.
    + destruct Htr as [_ ->]. rewrite lookup_insert_eq. simpl. by rewrite Hx.
Qed.

(** The files of the other segments and the ids on disk do not change. *)
Lemma set_store_frame t tr st id data :
  match tr with Hot => st = tt_hot t | Cold => tt_cold t = Some st ∧ sg_data (tt_hot t) !! id = None end →
  is_Some (sg_data st !! id) →
  let t' := set_store t tr (mkSegStore (<[id := data]> (sg_data st)) (sg_idx st)) in
  (∀ id', id' ≠ id → files (tt_hot t') id' = files (tt_hot t) id' ∧
     (λ c, files c id') <$> tt_cold t' = (λ c, files c id') <$> tt_cold t) ∧
  (∀ id', on_disk t' id' → on_disk t id') ∧
  (∀ w seg, seg ∈ sw_sealed w → seg_kept w t t' seg).
Proof.
  intros Htr Hs. pose proof (λ id', set_keys st id data id' Hs) as Hk. simpl in Hk. destruct tr; simpl.
  - subst st. split_and!.
    + intros id' Hne. split; [by apply set_other|done].
    + intros id'. apply on_disk_kept; simpl; [apply Hk|]. intros cold' ?. by exists cold'.
    + intros w seg Hin. exists seg. split_and!; [done..|apply Hk|]. intros cold ?. by exists cold.
  - destruct Htr as [Hc _]. split_and!.
    + intros id' Hne. split; [done|]. rewrite Hc. simpl. f_equal. by apply set_other.
    + intros id'. apply on_disk_kept; simpl; [done|]. intros cold' [= <-]. exists st. split; [done|apply Hk].
    + intros w seg Hin. exists seg. split_and!; [done..|]. simpl. intros cold Hcd. eexists. split; [done|].
      assert (cold = st) as -> by congruence. apply Hk.
Qed.

Lemma sealed_disjoint cfg w t L dead next s1 s2 seq :
  writer_inv cfg w t L dead next → s1 ∈ sw_sealed w → s2 ∈ sw_sealed w →
  sl_start_seq s1 <= seq <= sl_end_seq s1 → sl_start_seq s2 <= seq <= sl_end_seq s2 → s1 = s2.
Proof.
  intros Hinv H1 H2 Hr1 Hr2. pose proof (proj2 (segment_for_inv _ _ _ _ _ _ s1 seq Hinv) (conj H1 Hr1)) as E1.
  pose proof (proj2 (segment_for_inv _ _ _ _ _ _ s2 seq Hinv) (conj H2 Hr2)) as E2. congruence.
Qed.

Lemma sealed_start cfg w t L dead next s1 s2 :
  writer_inv cfg w t L dead next → s1 ∈ sw_sealed w → s2 ∈ sw_sealed w → sl_start_seq s1 = sl_start_seq s2 → s1 = s2.
Proof.
  intros Hinv H1 H2 Heq. pose proof (sealed_nonempty _ _ _ _ _ _ _ Hinv H1). pose proof (sealed_nonempty _ _ _ _ _ _ _ Hinv H2).
  eapply (sealed_disjoint _ _ _ _ _ _ _ _ (sl_start_seq s1) Hinv); try done; lia.
Qed.

(** A change of the registry, the caches and the files that leaves the active
    segment alone. *)
Lemma retier cfg w w' t t' L dead dead' next :
  writer_inv cfg w t L dead next → sw_cfg w' = sw_cfg w → sw_active w' = sw_active w →
  StronglySorted (λ s1 s2, sl_end_seq s1 < sl_start_seq s2) (sw_sealed w') →
  (∀ seg, seg ∈ sw_sealed w' → (∃ seg0, seg0 ∈ sw_sealed w ∧ sl_start_seq seg0 = sl_start_seq seg ∧ sl_end_seq seg0 = sl_end_seq seg) ∧
    ∃ recs, sl_end_seq seg = sl_start_seq seg + Z.of_nat (length recs) - 1 ∧ seg_at L dead' t' (sl_start_seq seg) recs) →
  (∀ id, on_disk t' id → on_disk t id) → (∀ s, s ∈ dead' → s ∈ dead ∨ registered w s) →
  (∀ c, c ∈ sw_cache w' ∨ c ∈ sw_cold_cache w' → (c ∈ sw_cache w ∨ c ∈ sw_cold_cache w) ∨ cached_ok L w' next c) →
  writer_inv cfg w' t' L dead' next.
Proof.
  intros [Hcfg Hact Hseal Hord Hbel Hids Hdead Hc Hlog] Hcfg' Ha Ho Hs Hd Hdd Hcc.
  assert (Hfr : front w' next = front w next) by (unfold front; by rewrite Ha).
  split; rewrite ?Hfr, ?Ha; [congruence|done|..|done].
  - intros seg Hin. by apply Hs.
  - done.
  - intros seg Hin. destruct (Hs seg Hin) as [(s0 & Hin0 & _ & <-) _]. by apply Hbel.
  - auto.
  - intros s' [?|(seg & Hin & Hr)]%Hdd; [by apply Hdead|]. specialize (Hbel seg Hin). lia.
  - intros c [Hin|?]%Hcc; [|done]. eapply cached_extends; [|done|by apply Hc]. split; [by rewrite Hfr|].
    intros seg Hin'. right. by destruct (Hs seg Hin') as [? _].
Qed.

Lemma flag_inv cfg fault seq w t L dead next :
  writer_inv cfg w t L dead next →
  let '(w', t', done) := flag_sealed_deleted fault seq w t in
  ∃ dead', writer_inv cfg w' t' L dead' next ∧ dead ⊆ dead' ∧ dead' ⊆ {[seq]} ∪ dead ∧
    (done = true → seq ∈ dead') ∧ (written (flag_mark fault) = false → dead' = dead) ∧ grows w t next w' t' next.
Proof.
  intros Hinv. pose proof (iv_sealed _ _ _ _ _ _ Hinv) as Hseal. unfold flag_sealed_deleted.
  assert (Hself : grows w t next w t next) by (split; [done|done|eauto using seg_kept_in]).
  destruct (segment_for w seq) as [seg|] eqn:Hf; [|exists dead; split_and!; [done|done|set_solver|done..]].
  apply (segment_for_inv _ _ _ _ _ _ _ _ Hinv) in Hf as [Hin Hr]. destruct (Hseal seg Hin) as (recs & He & Hat).
  set (start := sl_start_seq seg) in *. pose proof (sa_run _ _ _ _ _ Hat) as Hrun.
  destruct (sa_resolved _ _ _ _ _ Hat) as (rds & Hfst & Hfl & Hres).
  destruct (resolved_store _ _ _ _ Hres) as (tr & st & -> & -> & Hfiles & _ & Htr). pose proof Hfiles as [Hd Hx]%pair_eq.
  set (i := Z.to_nat (seq - start)). assert (Hi : start + Z.of_nat i = seq) by lia.
  destruct (lookup_lt_is_Some_2 recs i ltac:(lia)) as [rec Hrec].
  pose proof (log_run_ok _ _ _ Hrun) as Hok. pose proof (sa_len _ _ _ _ _ Hat) as Hlen.
  destruct (entry_read (flag_read fault) st seg recs i rec Hx Hok Hlen Hrec) as [Hent [e Hee]].
  fold start in Hent. rewrite Hi in Hent. rewrite Hent, Hee.
  destruct fault as [|fault]; [exists dead; split_and!; [done|done|set_solver|done..]|]. cbn [flag_read flag_mark].
  rewrite (mark_spec fault st start rds i e) by (by rewrite ?Hfst).
  destruct (set_store_frame t tr st start (seg_data crc (flip_if (written fault) i rds)) Htr ltac:(by eexists)) as (Hoth & Hdisk & Hkept).
  pose proof (flag_seg_at fault L dead t start recs i rds tr st Hat Hfst ltac:(lia) Hfl Hfiles Htr) as Hnew.
  cbv zeta in Hnew, Hoth, Hdisk, Hkept. set (t' := set_store t tr _) in *. rewrite Hi in Hnew. set (dead' := _ ∪ dead) in Hnew.
  assert (Hdd : ∀ s', s' ∈ dead' → s' = seq ∨ s' ∈ dead) by (intros s'; unfold dead'; destruct (written fault); set_solver).
  exists dead'. split_and!; [|set_solver|set_solver| | |split; [done|by destruct tr|eauto]].
  - eapply retier; [exact Hinv|done..|apply Hinv| |exact Hdisk| |].
    + intros s2 Hs2. split; [eauto|]. destruct (decide (sl_start_seq s2 = start)) as [Heq|Hns].
      { rewrite (sealed_start _ _ _ _ _ _ _ _ Hinv Hs2 Hin Heq). by exists recs. }
      destruct (Hseal s2 Hs2) as (rs & He2 & Hat2). exists rs. split; [done|]. destruct (Hoth _ Hns) as [Hh2 Hc2].
      eapply seg_at_agree; [|eapply seg_at_same; [exact Hh2|exact Hc2|exact Hat2]].
      intros j Hj. assert (sl_start_seq s2 + Z.of_nat j ≠ seq); [|set_solver].
      intros Heq. apply Hns. unfold start. f_equal. eapply (sealed_disjoint _ _ _ _ _ _ _ _ seq Hinv); try done; lia.
    + intros s' [->|]%Hdd; [|by left]. right. exists seg. split; [done|lia].
    + intros c Hcin. left. simpl in Hcin. rewrite !list_elem_of_filter in Hcin.
      naive_solver.
  - destruct fault; try done. intros _. unfold dead'. simpl. set_solver.
  - intros Hw. unfold dead'. rewrite Hw. set_solver.
Qed.

(** ** Reads and drops *)
Lemma read_range_some io f id o l b : read_range io f id o l = Some b → io = true ∧ is_Some (f !! id).
Proof. unfold read_range. destruct (f !! id) as [x|]; [|done]. simpl. destruct io; [by eauto|done]. Qed.

(** The files of a segment in the store of either tier. *)
Lemma store_copy L dead t start recs tr :
  seg_at L dead t start recs → copy_of (files (store_at t tr) start) start recs dead.
Proof.
  intros Hat. destruct tr; [by apply Hat|]. simpl. destruct (tt_cold t) as [cold|] eqn:Hc; [by apply (sa_cold _ _ _ _ _ Hat)|].
  by split; simpl; intros ?; rewrite lookup_empty.
Qed.

Lemma entry_step cfg w t L dead next io tr r e :
  writer_inv cfg w t L dead next → reading_ok L w next r →
  read_entry io (store_at t tr) (or_seg r) (or_seq r) = Some e →
  reading_ok L w next (mkRead (or_seg r) (or_seq r) (RdFrame tr e)).
Proof.
  intros Hinv [Hlt Hr] He. split; [done|]. simpl. intros seg Hin Hrange. destruct (Hr seg Hin Hrange) as [Hst _]. split; [done|].
  destruct (registered_record _ _ _ _ _ _ _ _ Hinv Hin Hrange) as (recs & i & rec & Hat & Hend & Hi & Hseq & _).
  pose proof (store_copy _ _ _ _ _ tr Hat) as [_ Hx]. unfold read_entry in He.
  destruct (read_range io _ _ _ _) as [b|] eqn:Hb; [|done]. apply read_range_some in Hb as Hb'. destruct Hb' as [-> [idx Hidx]].
  rewrite Hst in *. simpl in Hx. pose proof (Hx idx Hidx) as ->.
  destruct (entry_read true (store_at t tr) (or_seg r) recs i rec Hidx) as [Hent _]; [by eapply log_run_ok, Hat|by apply Hat|done|].
  unfold read_entry in Hent. rewrite <-Hseq, Hb in Hent. cbn [mbind option_bind] in He, Hent.
  exists recs. split_and!; [by apply Hat|done|]. replace (Z.to_nat (or_seq r - _)) with i by lia. congruence.
Qed.

Lemma frame_step cfg w t L dead next io tr e r p :
  writer_inv cfg w t L dead next → reading_ok L w next r → or_stage r = RdFrame tr e →
  read_frame io (store_at t tr) (or_seg r) e = Some p →
  registered w (or_seq r) → ∃ rec, L !! or_seq r = Some rec ∧ p = decode_payload (sr_data rec).
Proof.
  intros Hinv [Hlt Hr] Hstage Hp (seg & Hin & Hrange). destruct (Hr seg Hin Hrange) as [Hst He]. rewrite Hstage in He.
  destruct He as (recs0 & Hrun0 & Hend0 & He).
  destruct (registered_record _ _ _ _ _ _ _ _ Hinv Hin Hrange) as (recs & i & rec & Hat & Hend & Hi & Hseq & HL).
  assert (recs0 = recs) as -> by (eapply log_run_eq; [done|apply Hat|lia]).
  replace (Z.to_nat (or_seq r - sl_start_seq seg)) with i in He by lia.
  pose proof (store_copy _ _ _ _ _ tr Hat) as [Hd _]. unfold read_frame in Hp.
  destruct (read_range io _ _ _ _) as [b|] eqn:Hb; [|done]. apply read_range_some in Hb as Hb'. destruct Hb' as [-> [data Hdata]].
  rewrite Hst in *. destruct (Hd data Hdata) as (rds & Hfst & -> & _). subst recs.
  rewrite list_lookup_fmap in Hi. destruct (rds !! i) as [[rec' d]|] eqn:Hrd; [|done]. injection Hi as ->.
  pose proof (frame_decode true (store_at t tr) (or_seg r) rds i rec d e Hdata (log_run_ok _ _ _ Hrun0) (sa_len _ _ _ _ _ Hat) Hrd He) as Hf.
  unfold read_frame in Hf. rewrite Hb in Hf. exists rec. split; [done|]. cbn [mbind option_bind] in Hp, Hf.
  rewrite Hp in Hf. by case_match; simplify_eq.
Qed.

(** A step of a read in progress: what it has in hand stays right, and what it returns
    is the record's payload. *)
Lemma read_step_ok cfg w t L dead next io r :
  writer_inv cfg w t L dead next → reading_ok L w next r →
  match read_step io t r with
  | inl stage => reading_ok L w next (mkRead (or_seg r) (or_seq r) stage)
  | inr p => ∀ q, p = Some q → registered w (or_seq r) →
      ∃ rec, L !! or_seq r = Some rec ∧ q = decode_payload (sr_data rec)
  end.
Proof.
  intros Hinv Hr. unfold read_step. destruct (or_stage r) as [|tr|tr e|p] eqn:Hs.
  - destruct (resolve t _) as [tr|]; [|done]. destruct Hr as [Hlt Hr]. split; [done|]. simpl. intros seg Hin Hrange.
    by destruct (Hr seg Hin Hrange).
  - destruct (read_entry io _ _ _) as [e|] eqn:He; [by eapply entry_step|done].
  - destruct (read_frame io _ _ e) as [p|] eqn:Hp; [|done]. pose proof Hr as [Hlt Hseg]. split; [done|]. simpl.
    intros seg Hin Hrange. split; [by destruct (Hseg seg Hin Hrange)|]. eapply frame_step; [done..|by exists seg].
  - intros q [= <-] (seg & Hin & Hrange). destruct Hr as [_ Hr]. destruct (Hr seg Hin Hrange) as [_ He]. by rewrite Hs in He.
Qed.

Lemma cold_read_inv cfg w t L dead next seg seq p :
  writer_inv cfg w t L dead next → seq < front w next →
  (registered w seq → ∃ rec, L !! seq = Some rec ∧ p = decode_payload (sr_data rec)) →
  writer_inv cfg (record_cold_read w seg seq p) t L dead next.
Proof.
  intros Hinv Hlt Hp. unfold record_cold_read. destruct (sl_tier seg); [done|].
  eapply retier; [exact Hinv|done|done|apply Hinv| |done|by left|]; simpl.
  - intros s2 Hs2. split; [eauto|]. by apply (iv_sealed _ _ _ _ _ _ Hinv).
  - intros c [Hc|Hc]; [by auto|]. destruct (_ =? 0)%nat; [by auto|]. apply push_bounded_in in Hc as [?| ->]; [by auto|].
    right. by split.
Qed.

Lemma cold_read_kept w seg seq p t next :
  sw_sealed (record_cold_read w seg seq p) = sw_sealed w ∧ grows w t next (record_cold_read w seg seq p) t next ∧
  extends (record_cold_read w seg seq p) next w next.
Proof. unfold record_cold_read. destruct (sl_tier seg); split_and!; try done; by split; eauto using seg_kept_in. Qed.

(** A read under the lock. *)
Lemma resolve_inv fault cfg w t L dead next seq :
  writer_inv cfg w t L dead next →
  writer_inv cfg (resolve_sealed fault w t seq).1 t L dead next ∧ sw_sealed (resolve_sealed fault w t seq).1 = sw_sealed w.
Proof.
  intros Hinv. unfold resolve_sealed. destruct (resolve_sealed_fast w seq) as [p|seg|] eqn:Hf; [done| |done].
  destruct (read_locator fault t seg seq) as [p|] eqn:Hp; [|done]. split; [|by apply (cold_read_kept w seg seq p t next)].
  destruct (decide (is_Some (segment_for w seq))) as [[seg' Hs]|Hn].
  - apply (segment_for_inv _ _ _ _ _ _ _ _ Hinv) in Hs as [Hin Hr]. pose proof (iv_below _ _ _ _ _ _ Hinv seg' Hin).
    apply cold_read_inv; [done|lia|]. intros _.
    destruct (resolve_sealed_spec fault cfg w t L dead next seg' seq Hinv Hin Hr) as (rec & HL & Hany & _). exists rec. split; [done|].
    unfold resolve_sealed in Hany. rewrite Hf, Hp in Hany. by destruct Hany as [?|[= ->]].
  - unfold resolve_sealed_fast in Hf. destruct (cache_find (sw_cache w) seq); [done|]. destruct (cache_find (sw_cold_cache w) seq); [done|].
    destruct (segment_for w seq); [|done]. by destruct Hn; eexists.
Qed.

Lemma start_reads cfg w t L dead next seq r :
  writer_inv cfg w t L dead next → r ∈ read_start w seq → reading_ok L w next r.
Proof.
  intros Hinv. unfold read_start. destruct (resolve_sealed_fast w seq) as [|seg|] eqn:Hf; try (by intros ?%not_elem_of_nil).
  intros ->%list_elem_of_singleton. assert (Hseg : segment_for w seq = Some seg).
  { unfold resolve_sealed_fast in Hf. destruct (cache_find (sw_cache w) seq); [done|].
    destruct (cache_find (sw_cold_cache w) seq); [done|]. by destruct (segment_for w seq); simplify_eq. }
  apply (segment_for_inv _ _ _ _ _ _ _ _ Hinv) in Hseg as [Hin Hr]. pose proof (iv_below _ _ _ _ _ _ Hinv seg Hin).
  split; simpl; [lia|]. intros seg' Hin' Hr'. split; [|done]. f_equal. by eapply sealed_disjoint.
Qed.

Lemma advance_inv cfg w t L dead next io k rs :
  writer_inv cfg w t L dead next → (∀ r, r ∈ rs → reading_ok L w next r) →
  let '(w', rs') := advance_read io k w t rs in
  writer_inv cfg w' t L dead next ∧ (∀ r, r ∈ rs' → reading_ok L w' next r) ∧ grows w t next w' t next ∧
  sw_sealed w' = sw_sealed w.
Proof.
  intros Hinv Hrs. assert (Hself : grows w t next w t next) by (split; [done|done|eauto using seg_kept_in]).
  unfold advance_read. destruct (rs !! k) as [r|] eqn:Hk; [|done]. apply list_elem_of_lookup_2 in Hk as Hin.
  pose proof (read_step_ok cfg w t L dead next io r Hinv (Hrs r Hin)) as Hstep. destruct (read_step io t r) as [stage|p].
  - split_and!; [done| |done|done]. intros r' [j Hj]%list_elem_of_lookup. apply list_lookup_insert_Some in Hj as [(_ & <- & _)|[_ Hj]]; [done|].
    by eapply Hrs, list_elem_of_lookup_2.
  - assert (Hsub : ∀ r', r' ∈ delete k rs → r' ∈ rs).
    { intros r' Hr'. rewrite delete_take_drop in Hr'. apply elem_of_app in Hr' as [Hr'|Hr'];
        [by eapply subseteq_take|by eapply subseteq_drop]. }
    destruct p as [p|]; simpl; [|split_and!; [done|by auto|done|done]].
    destruct (cold_read_kept w (or_seg r) (or_seq r) p t next) as (Hs & Hg & _). split_and!; [| |done|done].
    + apply cold_read_inv; [done|by apply (Hrs r Hin)|]. by apply Hstep.
    + intros r' Hr'. eapply reading_extends; [by eapply grows_extends|done|]. by apply Hrs, Hsub.
Qed.

Lemma delete_other fault st id id' : id' ≠ id → files (store_delete fault st id) id' = files st id'.
Proof. intros Hne. destruct fault; unfold files; simpl; by rewrite ?lookup_delete_ne. Qed.

Lemma delete_keys fault st id id' :
  keys_kept (store_delete fault st id) st id' ∧ (id' ≠ id → keys_kept st (store_delete fault st id) id').
Proof.
  split.
  - destruct fault; split; simpl; try done; intros [x [_ Hx]%lookup_delete_Some]; by exists x.
  - intros Hne. destruct fault; split; simpl; by rewrite ?lookup_delete_ne.
Qed.

(** Deleting the files of an id that no segment of the registry has. *)
Lemma delete_frame dels t id :
  (∀ id', id' ≠ id → files (tt_hot (delete_files dels id t)) id' = files (tt_hot t) id' ∧
     (λ c, files c id') <$> tt_cold (delete_files dels id t) = (λ c, files c id') <$> tt_cold t) ∧
  (∀ id', on_disk (delete_files dels id t) id' → on_disk t id') ∧
  (∀ w seg, seg ∈ sw_sealed w → sl_start_seq seg ≠ id → seg_kept w t (delete_files dels id t) seg).
Proof.
  split_and!.
  - intros id' Hne. simpl. split; [by apply delete_other|]. destruct (tt_cold t); simpl; [|done]. f_equal. by apply delete_other.
  - intros id'. apply on_disk_kept; simpl; [apply delete_keys|]. intros cold'. destruct (tt_cold t) as [c|]; simpl; [|done].
    intros [= <-]. exists c. split; [done|]. apply delete_keys.
  - intros w seg Hin Hne. exists seg. split_and!; [done..|by apply delete_keys|]. intros cold Hcd. simpl. rewrite Hcd. simpl.
    eexists. split; [done|]. by apply delete_keys.
Qed.

Lemma drop_inv cfg dels id w t L dead next :
  writer_inv cfg w t L dead next →
  let '(w', t') := drop_segment dels id w t in
  writer_inv cfg w' t' L dead next ∧ grows w t next w' t' next.
Proof.
  intros Hinv. unfold drop_segment. destruct (find_sealed w id) as [seg|].
  2:{ split; [done|]. split; [done|done|eauto using seg_kept_in]. }
  destruct (delete_frame dels t id) as (Hoth & Hdisk & Hkept). split.
  - eapply retier; [exact Hinv|done|done| | |exact Hdisk|by left|]; simpl.
    + apply StronglySorted_filter, Hinv.
    + intros s2 [Hne Hs2]%list_elem_of_filter. split; [eauto|].
      destruct (iv_sealed _ _ _ _ _ _ Hinv s2 Hs2) as (rs & He & Hat). exists rs. split; [done|].
      destruct (Hoth _ Hne). by eapply seg_at_same.
    + intros c. rewrite !list_elem_of_filter. naive_solver.
  - split; [done|intros [c Hc]; simpl; rewrite Hc; by eexists|]. simpl. intros s2 [Hne Hs2]%list_elem_of_filter. eauto.
Qed.

Lemma reclaim_inv cfg f dels live_floor w t L dead next :
  writer_inv cfg w t L dead next →
  let t' := (reclaim_orphans_below f dels live_floor w t).1 in
  writer_inv cfg w t' L dead next ∧ grows w t next w t' next.
Proof.
  intros Hinv. unfold reclaim_orphans_below. cbn [fst].
  set (orphans := filter _ (merge_sort _ _)).
  assert (Ho : ∀ id seg, id ∈ orphans → seg ∈ sw_sealed w → sl_start_seq seg ≠ id).
  { intros id seg Hid Hin <-. apply list_elem_of_filter in Hid as [[_ Hn] _]. apply Hn, elem_of_list_to_set, list_elem_of_fmap.
    eauto. }
  clearbody orphans. cbv zeta. revert t Hinv. induction orphans as [|id orphans IH]; intros t Hinv.
  { split; [done|]. split; [done|done|eauto using seg_kept_in]. }
  cbn [foldl]. destruct (delete_frame (dels id) t id) as (Hoth & Hdisk & Hkept).
  assert (Hid : ∀ seg, seg ∈ sw_sealed w → sl_start_seq seg ≠ id) by (intros seg Hin; apply (Ho id); [by left|done]).
  assert (Hinv' : writer_inv cfg w (delete_files (dels id) id t) L dead next).
  { eapply retier; [exact Hinv|done|done|apply Hinv| |exact Hdisk|by left|naive_solver]. intros seg Hin. split; [eauto|].
    destruct (iv_sealed _ _ _ _ _ _ Hinv seg Hin) as (rs & He & Hat). exists rs. split; [done|].
    destruct (Hoth _ (Hid _ Hin)). by eapply seg_at_same. }
  destruct (IH (λ id' seg H, Ho id' seg (list_elem_of_further _ _ _ H)) _ Hinv') as [Hf Hg]. split; [exact Hf|].
  eapply grows_trans; [|exact Hg]. split; [done|intros [c Hc]; simpl; rewrite Hc; by eexists|]. eauto.
Qed.

(** ** Relocation *)
Lemma locator_entry start recs (i : nat) rec :
  Forall seg_ok recs → Z.of_nat (frames_len crc recs) < 2 ^ 32 → recs !! i = Some rec →
  seg_lookup (idx_of start recs) start (start + Z.of_nat i) = entries_from crc 0 recs !! i.
Proof.
  intros Hok Hl Hi. unfold seg_lookup, idx_of. rewrite (proj2 (Z.ltb_ge _ _)) by lia.
  replace (Z.to_nat (start + Z.of_nat i - start)) with i by lia.
  destruct (build_fields crc start recs) as (_ & -> & _). by apply idx_entry_at_spec, entries_ok.
Qed.

(** One frame of the propagation: a flag of the HOT copy is set in the COLD one. *)
Lemma propagate_one marks start hot_rds cold_rds (dead : gset Z) cold (i : nat) :
  let recs := hot_rds.*1 in
  Forall seg_ok recs → Z.of_nat (frames_len crc recs) < 2 ^ 32 → cold_rds.*1 = recs → (i < length recs)%nat →
  (∀ i rec d, hot_rds !! i = Some (rec, d) → (d = SEG_DEL_SENTINEL ↔ start + Z.of_nat i ∈ dead)) →
  sg_data cold !! start = Some (seg_data crc cold_rds) →
  propagate_flag marks (seg_data crc hot_rds) (idx_of start recs) start cold (start + Z.of_nat i) =
    mkSegStore (<[start := seg_data crc (flip_if (bool_decide (start + Z.of_nat i ∈ dead) &&
      written (marks (start + Z.of_nat i))) i cold_rds)]> (sg_data cold)) (sg_idx cold).
Proof.
  intros recs Hok Hl Hc Hi Hfl Hd. subst recs. rewrite length_fmap in Hi.
  destruct (lookup_lt_is_Some_2 _ _ Hi) as [[rec d] Hrd].
  assert (Hrec : hot_rds.*1 !! i = Some rec) by (by rewrite list_lookup_fmap, Hrd).
  unfold propagate_flag. rewrite (locator_entry start _ i rec) by done.
  destruct (frame_read hot_rds i rec d Hok Hl Hrd) as (e & He & Ho & Hn & Hhi & Hdec). rewrite He. cbv zeta.
  rewrite (proj2 (Nat.leb_le _ _)) by done. unfold frame_is_deleted. rewrite Hdec. simpl (_ && _).
  assert (Hb : bool_decide (start + Z.of_nat i ∈ dead) = bool_decide (d = SEG_DEL_SENTINEL)) by (apply bool_decide_ext; symmetry; by eapply Hfl).
  rewrite Hb. destruct (bool_decide _); simpl.
  - rewrite (mark_spec _ cold start cold_rds i e) by (by rewrite ?Hc). done.
  - rewrite insert_id by done. by destruct cold.
Qed.

Lemma propagate_all marks start hot_rds (dead : gset Z) seqs :
  let recs := hot_rds.*1 in
  Forall seg_ok recs → Z.of_nat (frames_len crc recs) < 2 ^ 32 →
  (∀ i rec d, hot_rds !! i = Some (rec, d) → (d = SEG_DEL_SENTINEL ↔ start + Z.of_nat i ∈ dead)) →
  (∀ s, s ∈ seqs → start <= s < start + Z.of_nat (length recs)) →
  ∀ cold cold_rds, sg_data cold !! start = Some (seg_data crc cold_rds) → cold_rds.*1 = recs →
  ∃ rds', foldl (propagate_flag marks (seg_data crc hot_rds) (idx_of start recs) start) cold seqs =
      mkSegStore (<[start := seg_data crc rds']> (sg_data cold)) (sg_idx cold) ∧ rds'.*1 = recs ∧
    ∀ i rec d, rds' !! i = Some (rec, d) → ∃ d0, cold_rds !! i = Some (rec, d0) ∧
      (d = SEG_DEL_SENTINEL ↔ d0 = SEG_DEL_SENTINEL ∨
        (start + Z.of_nat i ∈ seqs ∧ start + Z.of_nat i ∈ dead ∧ written (marks (start + Z.of_nat i)) = true)).
Proof.
  intros recs Hok Hl Hfl. induction seqs as [|s seqs IH]; intros Hr cold cold_rds Hd Hc.
  { exists cold_rds. simpl. rewrite insert_id by done. split_and!; [by destruct cold|done|]. intros i rec d Hi. exists d.
    split; [done|]. set_solver. }
  pose proof (Hr s ltac:(by left)) as Hs. set (i := Z.to_nat (s - start)). assert (Hsi : s = start + Z.of_nat i) by lia.
  cbn [foldl]. rewrite Hsi, (propagate_one marks start hot_rds cold_rds dead) by (done || (fold recs; lia)). rewrite <-Hsi.
  set (b := bool_decide (s ∈ dead) && written (marks s)).
  destruct (IH (λ s' H, Hr s' (list_elem_of_further _ _ _ H)) (mkSegStore (<[start := seg_data crc (flip_if b i cold_rds)]> (sg_data cold)) (sg_idx cold))
    (flip_if b i cold_rds)) as (rds' & Hf & Hfst & Hflags); [simpl; by rewrite lookup_insert_eq|by rewrite flip_fst|].
  exists rds'. fold recs. rewrite Hf. simpl. rewrite insert_insert_eq. split_and!; [done..|]. intros j rec d Hj.
  destruct (Hflags j rec d Hj) as (d1 & Hj1 & Hd1). apply flip_lookup in Hj1 as (d0 & Hj0 & Hd0). exists d0. split; [done|].
  rewrite Hd1, Hd0, elem_of_cons. unfold b. rewrite andb_true_iff, bool_decide_eq_true.
  assert (i = j ↔ start + Z.of_nat j = s) as -> by lia.
  clear. destruct (decide (start + Z.of_nat j = s)) as [<-|Hne]; tauto.
Qed.

Lemma propagate_spec io marks L dead t id recs cold :
  seg_at L dead t id recs → tt_cold t = Some cold → is_Some (sg_data cold !! id) → is_Some (sg_idx cold !! id) →
  ∃ rds', propagate_hot_delflags_to_cold io marks t id =
      mkTier (tt_hot t) (Some (mkSegStore (<[id := seg_data crc rds']> (sg_data cold)) (sg_idx cold))) ∧
    rds'.*1 = recs ∧ sg_idx cold !! id = Some (idx_of id recs) ∧
    (∀ i rec, rds' !! i = Some (rec, SEG_DEL_SENTINEL) → id + Z.of_nat i ∈ dead) ∧
    (io = true → (∀ s, written (marks s) = true) → ∀ i rec d, rds' !! i = Some (rec, d) → id + Z.of_nat i ∈ dead → d = SEG_DEL_SENTINEL).
Proof.
  intros [Hs Hrun Hl Hh Hc (rds & Hfst & Hfl & Hres)] Hcold [cd Hcd] [cx Hcx].
  destruct (Hc cold Hcold) as [Hcc Hcidx]. simpl in Hcc, Hcidx. rewrite (Hcidx cx Hcx) in Hcx.
  destruct (Hcc cd Hcd) as (crds & Hcfst & -> & Hcfl).
  assert (Hsame : t = mkTier (tt_hot t) (Some (mkSegStore (<[id := seg_data crc crds]> (sg_data cold)) (sg_idx cold)))).
  { rewrite insert_id by done. destruct t, cold. simpl in *. by subst. }
  unfold propagate_hot_delflags_to_cold, resolved, read_all in *. rewrite Hcold in *.
  destruct (sg_data (tt_hot t) !! id) as [hd|] eqn:Hhd; cbn [mbind option_bind]; [destruct io|].
  2:{ exists crds. split_and!; [exact Hsame|done|done|done|done]. }
  - injection Hres as -> Hhx. rewrite Hhx. cbn [mbind option_bind]. subst recs. unfold idx_of at 2. rewrite idx_len_build.
    destruct (propagate_all marks id rds dead (seqZ id (Z.of_nat (length rds.*1))) (log_run_ok _ _ _ Hrun) Hl Hfl) with (cold := cold) (cold_rds := crds)
      as (rds' & -> & Hf' & Hflags); [intros s' ?%elem_of_seqZ; lia|done..|].
    exists rds'. split_and!; [done..| |].
    + intros i rec Hi. destruct (Hflags i rec _ Hi) as (d0 & Hi0 & Hd). destruct (proj1 Hd eq_refl) as [->|(_ & ? & _)]; [by eapply Hcfl|done].
    + intros _ Hw i rec d Hi Hin. destruct (Hflags i rec d Hi) as (d0 & Hi0 & Hd). apply Hd. right. split_and!; [|done..].
      apply elem_of_seqZ. apply lookup_lt_Some in Hi. rewrite <-Hf', length_fmap. lia.
  - rewrite Hcd in Hres. injection Hres as Hres _. exists rds. rewrite <-Hres, insert_id by done.
    split_and!; [by destruct t; simpl in *; subst; destruct cold|done|done| |].
    + intros i rec Hi. by apply (Hfl _ _ _ Hi).
    + intros _ _ i rec d Hi Hin. by apply (Hfl _ _ _ Hi).
Qed.

(** The seqs of a segment that only its COLD copy flags. *)
Definition flagged_at (start : Z) (rds : list (SegmentRecord * byte)) (s : Z) : Prop :=
  snd <$> rds !! Z.to_nat (s - start) = Some SEG_DEL_SENTINEL.
#[local] Instance flagged_at_dec start rds s : Decision (flagged_at start rds s).
Proof. unfold flagged_at. apply _. Defined.
Definition dead_after (start : Z) (rds : list (SegmentRecord * byte)) (dead : gset Z) : gset Z :=
  filter (λ s, start <= s < start + Z.of_nat (length rds) → flagged_at start rds s) dead.

Lemma delete_sub fault st id id' idx : sg_idx (store_delete fault st id) !! id' = Some idx → sg_idx st !! id' = Some idx.
Proof. by destruct fault; simpl; [intros [_ ?]%lookup_delete_Some|..|intros [_ ?]%lookup_delete_Some]. Qed.

(** The relocated segment: if the HOT copy is gone its COLD copy decides. *)
Lemma confirm_at (f : RelocFault) L dead t id recs cold rds' :
  seg_at L dead t id recs → tt_cold t = Some cold → rds'.*1 = recs → sg_idx cold !! id = Some (idx_of id recs) →
  (∀ i rec, rds' !! i = Some (rec, SEG_DEL_SENTINEL) → id + Z.of_nat i ∈ dead) →
  (flags_move f → ∀ i rec d, rds' !! i = Some (rec, d) → id + Z.of_nat i ∈ dead → d = SEG_DEL_SENTINEL) →
  let c' := mkSegStore (<[id := seg_data crc rds']> (sg_data cold)) (sg_idx cold) in
  let t' := mkTier (store_delete (rf_del f) (tt_hot t) id) (Some c') in
  ∃ dead', seg_at L dead' t' id recs ∧ dead' ⊆ dead ∧ (flags_move f → dead' = dead) ∧
    ∀ s, ¬ id <= s < id + Z.of_nat (length recs) → s ∈ dead ↔ s ∈ dead'.
Proof.
  intros [Hs Hrun Hl Hh Hc (rds & Hfst & Hfl & Hres)] Hcold Hf' Hx Hsub Hall c' t'.
  assert (Hcopy : ∀ D : gset Z, (∀ i rec, rds' !! i = Some (rec, SEG_DEL_SENTINEL) → id + Z.of_nat i ∈ D) →
    copy_of (files c' id) id recs D).
  { intros D HD. split; simpl; [rewrite lookup_insert_eq; intros data [= <-]; by exists rds'|rewrite Hx; by intros x [= <-]]. }
  destruct (sg_data (tt_hot t') !! id) as [hd|] eqn:Hhd.
  - exists dead. destruct (rf_del f) eqn:Hdel; simpl in Hhd; try (by rewrite lookup_delete_eq in Hhd). split_and!; [|done..].
    split; simpl; [done..|by intros c0 [= <-]; apply Hcopy|]. exists rds. split_and!; [done..|]. rewrite <-Hres. unfold resolved, t'. simpl.
    by rewrite Hhd.
  - assert (Hin : ∀ i rec d, rds' !! i = Some (rec, d) → d = SEG_DEL_SENTINEL ↔ id + Z.of_nat i ∈ dead_after id rds' dead).
    { intros i rec d Hi. pose proof (lookup_lt_Some _ _ _ Hi). unfold dead_after, flagged_at. rewrite elem_of_filter.
      replace (Z.to_nat (id + Z.of_nat i - id)) with i by lia. rewrite Hi. simpl. split.
      - intros ->. split; [done|by eapply Hsub].
      - intros [Hd _]. specialize (Hd ltac:(lia)). by injection Hd. }
    assert (Hlen : length rds' = length recs) by (rewrite <-Hf'; by rewrite length_fmap).
    exists (dead_after id rds' dead). split_and!.
    + split; simpl; [done..| |intros c0 [= <-]; apply Hcopy; intros i rec Hi; by apply (Hin _ _ _ Hi)|].
      * simpl in Hhd. split; simpl; [by rewrite Hhd|]. intros idx Hidx. apply (proj2 Hh). simpl.
        apply (delete_sub (rf_del f)) in Hidx. done.
      * exists rds'. split_and!; [done..|]. unfold resolved. rewrite Hhd. simpl. rewrite lookup_insert_eq, Hx. done.
    + intros s' Hs'. unfold dead_after in Hs'. by apply elem_of_filter in Hs' as [_ ?].
    + intros Hw. apply set_eq. intros s'. unfold dead_after. rewrite elem_of_filter. split; [by intros [_ ?]|].
      intros Hd. split; [|done]. intros Hr. unfold flagged_at.
      destruct (lookup_lt_is_Some_2 rds' (Z.to_nat (s' - id)) ltac:(lia)) as [[rec d] Hi]. rewrite Hi. simpl. f_equal.
      eapply (Hall Hw _ _ _ Hi). by replace (id + Z.of_nat (Z.to_nat (s' - id))) with s' by lia.
    + intros s' Hr. unfold dead_after. rewrite elem_of_filter. rewrite Hlen. tauto.
Qed.

Lemma flip_tier_order id sealed :
  StronglySorted (λ s1 s2, sl_end_seq s1 < sl_start_seq s2) sealed →
  StronglySorted (λ s1 s2, sl_end_seq s1 < sl_start_seq s2) (flip_tier id <$> sealed).
Proof.
  assert (Hf : ∀ s, sl_start_seq (flip_tier id s) = sl_start_seq s ∧ sl_end_seq (flip_tier id s) = sl_end_seq s).
  { intros s. unfold flip_tier. by destruct (_ =? _). }
  induction 1 as [|s l Hs IH Hx]; simpl; [constructor|]. constructor; [done|]. apply Forall_fmap. eapply Forall_impl; [exact Hx|].
  simpl. intros s'. destruct (Hf s) as [_ ->], (Hf s') as [-> _]. done.
Qed.

Lemma confirm_inv cfg f id w t L dead next :
  writer_inv cfg w t L dead next →
  (∀ seg, seg ∈ sw_sealed w → sl_start_seq seg = id →
     ∃ cold, tt_cold t = Some cold ∧ is_Some (sg_data cold !! id) ∧ is_Some (sg_idx cold !! id)) →
  let '(w', t') := confirm_relocated f id w t in
  ∃ dead', writer_inv cfg w' t' L dead' next ∧ dead' ⊆ dead ∧ (flags_move f → dead' = dead) ∧
    (is_Some (tt_cold t) → is_Some (tt_cold t')) ∧ extends w next w' next.
Proof.
  intros Hinv Hcopied. unfold confirm_relocated, find_sealed.
  destruct (filter (λ s, sl_start_seq s = id) (sw_sealed w)) as [|seg l] eqn:Hf; simpl; [exists dead; by eauto using extends_refl|].
  assert (Hin : seg ∈ filter (λ s, sl_start_seq s = id) (sw_sealed w)) by (rewrite Hf; by left).
  apply list_elem_of_filter in Hin as [Hid Hin]. destruct (sl_tier seg); [|exists dead; by eauto using extends_refl].
  destruct (iv_sealed _ _ _ _ _ _ Hinv seg Hin) as (recs & He & Hat). rewrite Hid in Hat.
  destruct (Hcopied seg Hin Hid) as (cold & Hcold & Hcd & Hcx).
  destruct (propagate_spec (rf_flags f) (rf_marks f) L dead t id recs cold Hat Hcold Hcd Hcx) as (rds' & -> & Hf' & Hx & Hsub & Hall).
  cbn [tt_hot tt_cold].
  destruct (confirm_at f L dead t id recs cold rds' Hat Hcold Hf' Hx Hsub (λ H, Hall (proj1 H) (proj2 H))) as (dead' & Hnew & Hdsub & Hdall & Hag).
  set (c' := mkSegStore _ (sg_idx cold)) in *. cbv zeta in Hnew.
  exists dead'. assert (Hflip : ∀ s, sl_start_seq (flip_tier id s) = sl_start_seq s ∧ sl_end_seq (flip_tier id s) = sl_end_seq s).
  { intros s'. unfold flip_tier. by destruct (_ =? _). }
  split_and!; [|done..|].
  2:{ split; [done|]. simpl. intros s' (s2 & -> & Hs2)%list_elem_of_fmap. right. exists s2. by destruct (Hflip s2) as [-> ->]. }
  eapply retier; [exact Hinv|done|done|apply flip_tier_order, Hinv| | |by auto|simpl; intros c; rewrite list_elem_of_filter; set_solver].
  - intros s' (s2 & -> & Hs2)%list_elem_of_fmap. destruct (Hflip s2) as [Hst2 Hen2]. rewrite Hst2, Hen2. split; [by exists s2|].
    destruct (decide (sl_start_seq s2 = id)) as [Heq|Hns].
    { assert (s2 = seg) as -> by (eapply sealed_start; [exact Hinv|done..|congruence]). exists recs. by rewrite Hid in *. }
    destruct (iv_sealed _ _ _ _ _ _ Hinv s2 Hs2) as (rs & He2 & Hat2). exists rs. split; [done|].
    eapply seg_at_agree; [|eapply seg_at_same; [| |exact Hat2]].
    + intros j Hj. apply Hag. intros Hr. apply Hns. rewrite <-Hid. f_equal.
      eapply (sealed_disjoint _ _ _ _ _ _ _ _ (sl_start_seq s2 + Z.of_nat j) Hinv); try done; lia.
    + simpl. by apply delete_other.
    + simpl. rewrite Hcold. simpl. f_equal. by apply set_other.
  - intros id'. apply on_disk_kept; simpl.
    + apply delete_keys.
    + intros c0 [= <-]. exists cold. split; [done|]. by apply set_keys.
Qed.

(** The relocator between its steps. *)
Definition reloc_ok (L : gmap Z SegmentRecord) (dead : gset Z) (w : SegmentWriter) (t : TopicTier) (next : Z) (r : Reloc) : Prop :=
  match r with RWork [] => True | _ => is_Some (tt_cold t) end ∧
  match r with
  | RWork _ => True
  | RPut id data idx _ =>
      id < front w next ∧ ∀ seg, seg ∈ sw_sealed w → sl_start_seq seg = id →
        is_Some (sg_data (tt_hot t) !! id) ∧ ∃ recs, sl_end_seq seg = id + Z.of_nat (length recs) - 1 ∧
          log_run L id recs ∧ copy_of (Some data, Some idx) id recs dead
  | RConfirm id _ =>
      id < front w next ∧ ∀ seg, seg ∈ sw_sealed w → sl_start_seq seg = id →
        ∃ cold, tt_cold t = Some cold ∧ is_Some (sg_data cold !! id) ∧ is_Some (sg_idx cold !! id)
  end.

Lemma copy_of_mono f start recs dead dead' : dead ⊆ dead' → copy_of f start recs dead → copy_of f start recs dead'.
Proof.
  intros Hsub [Hd Hx]. split; [|done]. intros data Hf. destruct (Hd data Hf) as (rds & ? & ? & Hfl). exists rds.
  split_and!; [done..|]. intros i rec Hi. apply Hsub. by eapply Hfl.
Qed.

Lemma reloc_grows L L' dead dead' w t next w' t' next' r :
  reloc_ok L dead w t next r → grows w t next w' t' next' → L ⊆ L' → dead ⊆ dead' → reloc_ok L' dead' w' t' next' r.
Proof.
  intros [Hc Hr] [Hf Hcold Hs] HL Hd. split; [destruct r as [[]| |]; auto|]. destruct r as [|id data idx plan|id plan]; [done|..].
  - destruct Hr as [Hid Hseg]. split; [lia|]. intros seg Hin Hst.
    destruct (Hs seg Hin) as [|(s0 & Hin0 & Hst0 & He0 & [Hk _] & _)]; [lia|]. rewrite Hst in *.
    destruct (Hseg s0 Hin0 Hst0) as (Hh & recs & He & Hrun & Hcp). split; [by apply Hk|]. exists recs.
    split_and!; [congruence|by eapply log_run_mono|by eapply copy_of_mono].
  - destruct Hr as [Hid Hseg]. split; [lia|]. intros seg Hin Hst.
    destruct (Hs seg Hin) as [|(s0 & Hin0 & Hst0 & He0 & _ & Hkc)]; [lia|]. rewrite Hst in *.
    destruct (Hseg s0 Hin0 Hst0) as (cold & Hcd & Hdd & Hx). destruct (Hkc cold Hcd) as (c' & Hc' & Hk1 & Hk2). eauto 10.
Qed.

(** The files a relocation has read are put in the COLD store. *)
Lemma put_inv cfg put id data idx plan w t L dead next :
  writer_inv cfg w t L dead next → reloc_ok L dead w t next (RPut id data idx plan) →
  let '(t', ok) := copy_put put t id data idx in
  writer_inv cfg w t' L dead next ∧ reloc_ok L dead w t' next (if ok then RConfirm id plan else RWork plan).
Proof.
  intros Hinv [[cold Hcold] [Hid Hseg]]. unfold copy_put. rewrite Hcold.
  pose proof (put_other put cold id data idx) as Hoth. pose proof (put_keys put cold id data idx) as Hkeys.
  assert (Hdd : ∀ id', on_disk (mkTier (tt_hot t) (Some (store_put put cold id data idx).1)) id' → id' = id ∨ on_disk t id').
  { intros id' Hd. destruct (decide (id' = id)) as [|Hne]; [by left|right]. destruct (files_eq _ _ _ (Hoth id' Hne)) as [H1 H2].
    destruct Hd as [?|[?|(c & [= <-] & H)]]; [by left|by right; left|right; right]. exists cold. rewrite H1, H2 in H. done. }
  assert (Hok : (store_put put cold id data idx).2 = true → files (store_put put cold id data idx).1 id = (Some data, Some idx)).
  { destruct put; try done. intros _. unfold files. simpl. by rewrite !lookup_insert_eq. }
  assert (Hparts : ∀ recs, copy_of (Some data, Some idx) id recs dead → copy_of (files cold id) id recs dead →
    copy_of (files (store_put put cold id data idx).1 id) id recs dead).
  { intros recs [Hn1 Hn2] [Hp1 Hp2]. destruct put; unfold files; simpl; rewrite ?lookup_insert_eq; by split. }
  destruct (store_put put cold id data idx) as [cold' ok]. simpl in *. split.
  - destruct Hinv as [Hcfg Hact Hseals Hord Hbel Hids Hdead Hc Hlog]. split; try done.
    + intros seg Hin. destruct (Hseals seg Hin) as (recs & He & Hat). exists recs. split; [done|].
      destruct (decide (sl_start_seq seg = id)) as [Hst|Hne].
      2:{ eapply seg_at_same; [| |exact Hat]; [done|]. simpl. rewrite Hcold. simpl. f_equal. by apply Hoth. }
      destruct (Hseg seg Hin Hst) as ([hd Hh] & recs' & He' & Hrun & Hcp). rewrite Hst in *.
      destruct Hat as [Hs Hr Hl Hhot Hcd (rds & Hfst & Hfl & Hres)].
      assert (recs' = recs) as -> by (eapply log_run_eq; [done..|lia]).
      split; [done..|intros c [= <-]; by apply Hparts, Hcd|]. exists rds. split_and!; [done..|]. rewrite <-Hres. unfold resolved. simpl. by rewrite Hh.
    + intros id' [->|?]%Hdd; [done|by apply Hids].
  - destruct ok; [|by split; [destruct plan; [|eexists]|]]. split; [by eexists|]. split; [done|]. intros seg Hin Hst.
    exists cold'. split; [done|]. specialize (Hok eq_refl). injection Hok as -> ->. split; by eexists.
Qed.

(** Reading the files of a planned segment. *)
Lemma copy_read_ok cfg io id plan w t L dead next :
  writer_inv cfg w t L dead next → is_Some (tt_cold t) →
  reloc_ok L dead w t next
    match copy_read io t id with
    | CopyDone true => RConfirm id plan
    | CopyDone false => RWork plan
    | CopyFiles data idx => RPut id data idx plan
    end.
Proof.
  intros Hinv [cold Hcold]. unfold copy_read. rewrite Hcold. unfold has_data, has_idx.
  destruct (bool_decide_reflect (is_Some (sg_data cold !! id))) as [Hd|], (bool_decide_reflect (is_Some (sg_idx cold !! id))) as [Hx|]; simpl.
  { split; [by eexists|]. split; [apply (iv_ids _ _ _ _ _ _ Hinv); right; right; eauto|]. intros seg _ _. by exists cold. }
  all: unfold read_all; destruct (sg_data (tt_hot t) !! id) as [hd|] eqn:Hh, (sg_idx (tt_hot t) !! id) as [hx|] eqn:Hhx, io;
    simpl; try (by split; [destruct plan; [|eexists]|]).
  all: split; [by eexists|]; split; [apply (iv_ids _ _ _ _ _ _ Hinv); left; by eexists|];
    intros seg Hin <-; rewrite Hh; split; [by eexists|];
    destruct (iv_sealed _ _ _ _ _ _ Hinv seg Hin) as (recs & He & Hat); exists recs; split_and!; [done|apply Hat|];
    pose proof (sa_hot _ _ _ _ _ Hat) as Hcp; unfold files in Hcp; by rewrite Hh, Hhx in Hcp.
Qed.

Lemma plan_cold w t : (relocation_plan w t).*1 = [] ∨ is_Some (tt_cold t).
Proof. unfold relocation_plan. destruct (tt_cold t); [right; by eexists|by left]. Qed.

Lemma relocate_inv cfg f r w t L dead next :
  writer_inv cfg w t L dead next → reloc_ok L dead w t next r →
  let '(w', t', r') := relocate_step f r w t in
  ∃ dead', writer_inv cfg w' t' L dead' next ∧ reloc_ok L dead' w' t' next r' ∧ dead' ⊆ dead ∧
    (flags_move f → dead' = dead) ∧ extends w next w' next.
Proof.
  intros Hinv Hr. pose proof (extends_refl w next) as Hex. destruct r as [[|id plan]|id data idx plan|id plan]; simpl.
  - exists dead. split_and!; [done| |done..]. destruct (plan_cold w t) as [->|Hc]; [done|]. split; [|done]. by destruct (_.*1).
  - exists dead. split_and!; [done| |done..]. eapply copy_read_ok; [done|]. by destruct Hr.
  - pose proof (put_inv cfg (rf_put f) id data idx plan w t L dead next Hinv Hr) as Hp.
    destruct (copy_put (rf_put f) t id data idx) as [t' ok]. destruct Hp. by exists dead.
  - destruct Hr as [Hc [Hid Hs]]. pose proof (confirm_inv cfg f id w t L dead next Hinv Hs) as Hp.
    destruct (confirm_relocated f id w t) as [w' t']. destruct Hp as (dead' & ? & ? & ? & Hc' & Hex'). exists dead'.
    split_and!; [done| |done..]. split; [|done]. destruct plan; [done|auto].
Qed.

(** ** Any sequence of operations *)
Definition log_op (L : gmap Z SegmentRecord) (op : SegOp) : gmap Z SegmentRecord :=
  match op with
  | OpAppend _ _ seq ts node tag data meta => <[seq := record_of seq ts node tag data meta]> L
  | _ => L
  end.
Definition next_op (next : Z) (op : SegOp) : Z :=
  match op with OpAppend _ _ seq _ _ _ _ _ => seq + 1 | _ => next end.

Record segs_inv (cfg : SegmentConfig) (st : TopicSegs) (L : gmap Z SegmentRecord) (dead : gset Z) (next : Z) : Prop := {
  si_writer : writer_inv cfg (ts_writer st) (ts_tier st) L dead next;
  si_reloc : reloc_ok L dead (ts_writer st) (ts_tier st) next (ts_reloc st);
  si_reads : ∀ r, r ∈ ts_reads st → reading_ok L (ts_writer st) next r
}.

(** An operation that keeps the relocation and the reads in progress. *)
Lemma segs_grow cfg w t r rs L dead next w' t' L' dead' next' :
  segs_inv cfg (mkSegs w t r rs) L dead next → writer_inv cfg w' t' L' dead' next' → grows w t next w' t' next' →
  L ⊆ L' → dead ⊆ dead' → segs_inv cfg (mkSegs w' t' r rs) L' dead' next'.
Proof.
  intros [Hw Hr Hrs] Hw' Hg HL Hd. split; simpl in *; [done|by eapply reloc_grows|].
  intros r' Hin. eapply reading_extends; [by eapply grows_extends|done|by auto].
Qed.

Lemma idle_flush_seal now fault w t :
  (maybe_seal_idle now fault w t = seal_active fault w t ∨ maybe_seal_idle now fault w t = (w, t, [])) ∧
  (flush fault w t = seal_active fault w t ∨ flush fault w t = (w, t, [])).
Proof. unfold maybe_seal_idle, flush. destruct (sw_active w); [|by auto]. by split; case_match; auto. Qed.

Lemma log_fresh cfg w t L dead next seq rec :
  writer_inv cfg w t L dead next → next <= seq → L ⊆ <[seq := rec]> L.
Proof.
  intros Hinv Hseq. apply insert_subseteq. destruct (L !! seq) as [x|] eqn:E; [|done].
  pose proof (iv_log _ _ _ _ _ _ Hinv seq ltac:(by eexists)). lia.
Qed.

Lemma exec_inv cfg st L dead next op :
  config_ok cfg → segs_inv cfg st L dead next → ops_ok next [op] →
  ∃ dead', segs_inv cfg (exec_seg st op) (log_op L op) dead' (next_op next op) ∧
    (∀ s, s ∈ dead' → s ∈ dead ∨ flag_tried [op] s) ∧ (marks_written [op] → dead ⊆ dead').
Proof.
  intros Hcfg Hi Hop. pose proof Hi as [Hinv Hr Hrs]. destruct st as [w t r rs]. simpl in Hinv, Hr, Hrs.
  assert (Hseal : ∀ fault o, o = seal_active fault w t ∨ o = (w, t, []) →
    let '(w', t', _) := o in segs_inv cfg (mkSegs w' t' r rs) L dead next).
  { intros fault o [->| ->]; [|done]. pose proof (seal_inv cfg fault w t L dead next Hinv) as Hs.
    destruct (seal_active fault w t) as [[w' t'] seqs]. destruct Hs as (? & _ & _ & ?). by eapply segs_grow. }
  destruct op as [now fault seq ts node tag data meta|now fault|fault|seq|k io|fault seq|f|dels id|f dels live_floor]; simpl.
  - destruct Hop as (Hseq & Hok & _).
    pose proof (append_inv cfg now fault seq ts node tag data meta w t L dead next Hcfg Hinv Hseq Hok) as Ha.
    destruct (append_record _ _ _ _ _ _ _ _ _ _) as [[w' t'] seqs]. destruct Ha as (Hi' & _ & Hg). exists dead.
    split_and!; [|by auto|done]. eapply segs_grow; [exact Hi|exact Hi'|exact Hg|by eapply log_fresh|done].
  - exists dead. split_and!; [|by auto|done]. pose proof (Hseal fault _ (proj1 (idle_flush_seal now fault w t))) as Hs.
    by destruct (maybe_seal_idle now fault w t) as [[w' t'] seqs].
  - exists dead. split_and!; [|by auto|done]. pose proof (Hseal fault _ (proj2 (idle_flush_seal 0 fault w t))) as Hs.
    by destruct (flush fault w t) as [[w' t'] seqs].
  - exists dead. split_and!; [|by auto|done]. split; simpl; [done..|]. intros r' [?|?]%elem_of_app; [by auto|by eapply start_reads].
  - exists dead. pose proof (advance_inv cfg w t L dead next io k rs Hinv Hrs) as Ha.
    destruct (advance_read io k w t rs) as [w' rs']. destruct Ha as (? & ? & ? & _). split_and!; [|by auto|done].
    split; simpl; [done|by eapply reloc_grows|done].
  - pose proof (flag_inv cfg fault seq w t L dead next Hinv) as Hf. destruct (flag_sealed_deleted fault seq w t) as [[w' t'] done'].
    destruct Hf as (dead' & Hi' & Hsub & Hsup & _ & Hnw & Hg). exists dead'. split_and!; [by eapply segs_grow| |done].
    intros s' Hs'. destruct (written (flag_mark fault)) eqn:Hw; [|rewrite (Hnw eq_refl) in Hs'; by left].
    apply Hsup, elem_of_union in Hs' as [->%elem_of_singleton|?]; [right|by left].
    destruct fault as [|m]; [done|]. exists m. split; [by left|done].
  - pose proof (relocate_inv cfg f r w t L dead next Hinv Hr) as Hp.
    destruct (relocate_step f r w t) as [[w' t'] r']. destruct Hp as (dead' & ? & ? & Hsub & Hall & Hex). exists dead'.
    split_and!; [|by auto|].
    + split; simpl; [done..|]. intros r'' Hin. eapply reading_extends; [exact Hex|done|by auto].
    + intros Hm. rewrite Hall; [done|]. apply Hm. by left.
  - pose proof (drop_inv cfg dels id w t L dead next Hinv) as Hd. destruct (drop_segment dels id w t) as [w' t']. destruct Hd. exists dead.
    split_and!; [by eapply segs_grow|by auto|done].
  - exists dead. destruct (reclaim_inv cfg f dels live_floor w t L dead next Hinv). split_and!; [by eapply segs_grow|by auto|done].
Qed.

Lemma ops_ok_cons next op ops : ops_ok next (op :: ops) ↔ ops_ok next [op] ∧ ops_ok (next_op next op) ops.
Proof. destruct op; simpl; tauto. Qed.

Lemma ops_ok_app next ops1 ops2 : ops_ok next (ops1 ++ ops2) ↔ ops_ok next ops1 ∧ ops_ok (foldl next_op next ops1) ops2.
Proof.
  revert next. induction ops1 as [|op ops1 IH]; intros next; [simpl; tauto|].
  cbn [app foldl]. rewrite (ops_ok_cons next op (ops1 ++ ops2)), (ops_ok_cons next op ops1), IH. tauto.
Qed.

Lemma flag_tried_cons op ops s : flag_tried (op :: ops) s ↔ flag_tried [op] s ∨ flag_tried ops s.
Proof. unfold flag_tried. setoid_rewrite elem_of_cons. set_solver. Qed.

Lemma marks_written_cons op ops : marks_written (op :: ops) ↔ marks_written [op] ∧ marks_written ops.
Proof. unfold marks_written. setoid_rewrite elem_of_cons. set_solver. Qed.

Lemma run_inv cfg ops : config_ok cfg → ∀ st L dead next, segs_inv cfg st L dead next → ops_ok next ops →
  ∃ dead', segs_inv cfg (foldl exec_seg st ops) (foldl log_op L ops) dead' (foldl next_op next ops) ∧
    (∀ s, s ∈ dead' → s ∈ dead ∨ flag_tried ops s) ∧ (marks_written ops → dead ⊆ dead').
Proof.
  intros Hcfg. induction ops as [|op ops IH]; intros st L dead next Hi Hops.
  { exists dead. split_and!; [done|by auto|done]. }
  apply ops_ok_cons in Hops as [Hop Hops]. destruct (exec_inv cfg st L dead next op Hcfg Hi Hop) as (d1 & Hi1 & Hs1 & Hm1).
  destruct (IH _ _ _ _ Hi1 Hops) as (d2 & Hi2 & Hs2 & Hm2). exists d2. split_and!; [exact Hi2| |].
  - intros s'. rewrite flag_tried_cons. intros [[?|?]%Hs1|?]%Hs2; auto.
  - rewrite marks_written_cons. intros [? ?]. etrans; [by apply Hm1|by apply Hm2].
Qed.

Lemma segs_new_inv cfg has_cold next : segs_inv cfg (segs_new cfg has_cold) ∅ ∅ next.
Proof.
  split; [|done|by intros r ?%not_elem_of_nil]. split; simpl; try done; try set_solver.
  - constructor.
  - intros id [[x ?]|[[x ?]|(c & Hc & [[x ?]|[x ?]])]]; try done; destruct has_cold; simplify_eq/=.
  - intros s' [x ?]. done.
Qed.

Lemma log_ops_keep ops next L s rec : ops_ok next ops → L !! s = Some rec → s < next → foldl log_op L ops !! s = Some rec.
Proof.
  revert next L. induction ops as [|op ops IH]; intros next L Hops HL Hs; [done|]. apply ops_ok_cons in Hops as [Hop Hops]. simpl.
  destruct op; simpl in *; try (by eapply IH). destruct Hop as (? & _). eapply IH; [done| |lia]. by rewrite lookup_insert_ne by lia.
Qed.

Lemma log_ops_append ops next L now fault seq ts node tag data meta :
  ops_ok next ops → OpAppend now fault seq ts node tag data meta ∈ ops →
  foldl log_op L ops !! seq = Some (record_of seq ts node tag data meta).
Proof.
  revert next L. induction ops as [|op ops IH]; intros next L Hops Hin; [by apply not_elem_of_nil in Hin|].
  apply ops_ok_cons in Hops as [Hop Hops]. apply elem_of_cons in Hin as [<-|Hin]; simpl; [|by eapply IH].
  eapply log_ops_keep; [exact Hops|by rewrite lookup_insert_eq|simpl; lia].
Qed.

Lemma decode_payload_encode `{!SerdeLaws V} data meta : decode_payload (encode_payload data meta) = (data, meta).
Proof.
  unfold decode_payload, encode_payload. rewrite from_slice_to_vec. simpl. rewrite as_object_object.
  by destruct meta; simplify_map_eq.
Qed.

Lemma is_sealed_registered cfg w t L dead next seq :
  writer_inv cfg w t L dead next → is_sealed w seq = true → registered w seq.
Proof.
  intros Hinv [seg Hs]%bool_decide_eq_true. apply (segment_for_inv _ _ _ _ _ _ _ _ Hinv) in Hs. by exists seg.
Qed.

(** C16. A sealed record is served with the payload it was appended with.  Take any
    sequence of appends in seq order, seals, flushes, flag flips, segment drops, orphan
    reclaims, relocation steps and steps of off-lock reads, in any interleaving and with
    any failure of the segment files' reads, writes, syncs and unlinks, and a
    configuration whose byte or event trigger keeps a segment below 4 GiB for the frames
    appended.  For a seq that then lies in a registered segment: if its delete flag was
    never written, a read that no other operation interrupts and whose file reads succeed
    gives its data and meta; and no read, uninterrupted or in progress, failing or not,
    gives anything but them or nothing. *)
Theorem sealed_payload_served `{!SerdeLaws V} cfg has_cold next ops now fault seq ts node tag data meta :
  config_ok cfg → ops_ok next ops → OpAppend now fault seq ts node tag data meta ∈ ops →
  let st := foldl exec_seg (segs_new cfg has_cold) ops in
  is_sealed (ts_writer st) seq = true →
  (¬ flag_tried ops seq → (resolve_sealed ReadOk (ts_writer st) (ts_tier st) seq).2 = Some (data, meta)) ∧
  (∀ f p, (resolve_sealed f (ts_writer st) (ts_tier st) seq).2 = Some p → p = (data, meta)) ∧
  (∀ r io p, r ∈ ts_reads st → or_seq r = seq → read_step io (ts_tier st) r = inr (Some p) → p = (data, meta)).
Proof.
  intros Hcfg Hops Hin st Hsl. subst st.
  destruct (run_inv cfg ops Hcfg _ _ _ _ (segs_new_inv cfg has_cold next) Hops) as (dead & [Hinv _ Hrs] & Hdead & _).
  pose proof (is_sealed_registered _ _ _ _ _ _ _ Hinv Hsl) as Hreg. destruct Hreg as (seg & Hseg & Hr) eqn:E. clear E.
  pose proof (log_ops_append ops next ∅ now fault seq ts node tag data meta Hops Hin) as HL.
  assert (Hpay : ∀ rec, foldl log_op ∅ ops !! seq = Some rec → decode_payload (sr_data rec) = (data, meta)).
  { intros rec Hrec. rewrite HL in Hrec. injection Hrec as <-. apply decode_payload_encode. }
  split_and!.
  - intros Hnf. destruct (resolve_sealed_spec ReadOk _ _ _ _ _ _ seg seq Hinv Hseg Hr) as (rec & Hrec & _ & Hok).
    rewrite Hok, (Hpay rec Hrec); [done..|]. intros [?|?]%Hdead; [set_solver|done].
  - intros f p Hp. destruct (resolve_sealed_spec f _ _ _ _ _ _ seg seq Hinv Hseg Hr) as (rec & Hrec & Hany & _).
    rewrite Hp in Hany. destruct Hany as [?|[= ->]]; [done|by apply Hpay].
  - intros r io p Hin' Hseq Hstep. pose proof (read_step_ok _ _ _ _ _ _ io r Hinv (Hrs r Hin')) as Hok. rewrite Hstep, Hseq in Hok.
    destruct (Hok p eq_refl) as (rec & Hrec & ->); [by exists seg|]. by apply Hpay.
Qed.

(** *** What the boot scan finds *)

(** The files of a segment, in the format of the writer: whole, with the flags [rds] says. *)
Record holds (t : TopicTier) (id : Z) (rds : list (SegmentRecord * byte)) : Prop := {
  ho_ok : Forall seg_ok rds.*1;
  ho_len : Z.of_nat (frames_len crc rds.*1) < 2 ^ 32;
  ho_seqs : ∀ i rec d, rds !! i = Some (rec, d) → sr_seq rec = id + Z.of_nat i;
  ho_files : resolved t id = Some (seg_data crc rds, Some (idx_of id rds.*1))
}.
Definition tier_ok (t : TopicTier) : Prop :=
  ∀ id data idx, resolved t id = Some (data, Some idx) → ∃ rds, holds t id rds.

(** The flag of a seq is set in the files of a segment that is listed and can be read. *)
Definition flag_on_disk (f : ListFault) (reads : Z → bool) (t : TopicTier) (s : Z) : Prop :=
  ∃ id rds (i : nat) rec, id ∈ listed f sg_data t ∧ reads id = true ∧ holds t id rds ∧
    rds !! i = Some (rec, SEG_DEL_SENTINEL) ∧ s = id + Z.of_nat i.

Lemma resolved_listed t id data oidx : resolved t id = Some (data, oidx) → id ∈ listed (mkListFault true true) sg_data t.
Proof.
  unfold resolved, listed. simpl. rewrite elem_of_union, elem_of_dom. destruct (sg_data (tt_hot t) !! id); [left; by eexists|].
  destruct (tt_cold t) as [cold|]; [|done]. rewrite elem_of_dom. destruct (sg_data cold !! id); [right; by eexists|done].
Qed.

Lemma scan_segment_holds reads t id rds s :
  reads id = true → holds t id rds →
  s ∈ scan_segment reads t id ↔ ∃ (i : nat) rec, s = id + Z.of_nat i ∧ rds !! i = Some (rec, SEG_DEL_SENTINEL).
Proof.
  intros Hread [Hok Hlen Hseqs Hfiles]. unfold scan_segment, read_all.
  destruct (resolved_store _ _ _ _ Hfiles) as (tr & st & _ & -> & [= -> ->] & _). simpl. rewrite Hread. unfold idx_of.
  by apply segment_scan_exact.
Qed.

Lemma store_resolved t id st data :
  store_for t id = Some st → sg_data st !! id = Some data → resolved t id = Some (data, sg_idx st !! id).
Proof.
  unfold store_for, resolve, has_data, resolved. case_bool_decide as Hh; [intros [= <-] ->; done|].
  destruct (tt_cold t) as [cold|]; [|done]. case_bool_decide; [|done]. intros [= <-] Hd.
  destruct (sg_data (tt_hot t) !! id); [by destruct Hh; eexists|]. by rewrite Hd.
Qed.

Lemma scan_segment_reads reads t id s :
  s ∈ scan_segment reads t id → reads id = true ∧ ∃ data idx, resolved t id = Some (data, Some idx).
Proof.
  unfold scan_segment, read_all. destruct (store_for t id) as [st|] eqn:Hst; [|by intros ?%not_elem_of_nil].
  destruct (sg_data st !! id) as [data|] eqn:Hd; [|by intros ?%not_elem_of_nil]. cbn [mbind option_bind].
  pose proof (store_resolved t id st data Hst Hd) as Hres. destruct (reads id); [|by intros ?%not_elem_of_nil].
  destruct (sg_idx st !! id) as [idx|]; [|by intros ?%not_elem_of_nil]. eauto.
Qed.

(** The scan reports exactly the flags on disk. *)
Lemma scan_exact f reads t s : tier_ok t → s ∈ scan_ondisk_deleted f reads t ↔ flag_on_disk f reads t s.
Proof.
  intros Hok. unfold scan_ondisk_deleted. rewrite (merge_sort_Permutation Z.le _), list_elem_of_In, in_concat. split.
  - intros (seqs & Hseqs & Hs). apply list_elem_of_In, list_elem_of_fmap in Hseqs as (id & -> & Hid). apply list_elem_of_In in Hs.
    rewrite (merge_sort_Permutation Z.le _) in Hid. apply elem_of_elements in Hid.
    destruct (scan_segment_reads _ _ _ _ Hs) as (Hread & data & idx & Hres). destruct (Hok _ _ _ Hres) as [rds Hh].
    apply (scan_segment_holds _ _ _ rds) in Hs as (i & rec & -> & Hi); [|done..]. exists id, rds, i, rec. done.
  - intros (id & rds & i & rec & Hid & Hread & Hh & Hi & ->). exists (scan_segment reads t id). split.
    + apply list_elem_of_In, list_elem_of_fmap. exists id. split; [done|]. rewrite (merge_sort_Permutation Z.le _).
      by apply elem_of_elements.
    + apply list_elem_of_In, (scan_segment_holds _ _ _ rds); eauto.
Qed.

(** The files of a registered segment hold the flags of its deleted seqs. *)
Lemma dead_flagged cfg w t L dead next seq :
  writer_inv cfg w t L dead next → registered w seq → seq ∈ dead →
  flag_on_disk (mkListFault true true) (λ _, true) t seq.
Proof.
  intros Hinv (seg & Hin & Hr) Hd. destruct (iv_sealed _ _ _ _ _ _ Hinv seg Hin) as (recs & He & Hat).
  destruct Hat as [_ Hrun Hl _ _ (rds & Hfst & Hfl & Hres)]. set (start := sl_start_seq seg) in *. subst recs.
  rewrite length_fmap in He. destruct (lookup_lt_is_Some_2 rds (Z.to_nat (seq - start)) ltac:(lia)) as [[rec d] Hi].
  exists start, rds, (Z.to_nat (seq - start)), rec. split_and!; [by eapply resolved_listed|done| | |lia].
  - split; [by eapply log_run_ok|done| |done]. intros i r d' Hi'.
    by destruct (Hrun i r ltac:(by rewrite list_lookup_fmap, Hi')) as (_ & _ & ?).
  - rewrite Hi. do 2 f_equal. apply (Hfl _ _ _ Hi). by replace (start + Z.of_nat (Z.to_nat (seq - start))) with seq by lia.
Qed.

(** A delete flag stays: once [flag_sealed_deleted] has reported the flip of a seq, then
    after any further operations in which the relocator reads the HOT flags and writes them
    to the COLD copy, as long as the seq lies in a registered segment its flag is set in
    the files and reading them serves nothing. *)
Theorem deleted_stays_flagged cfg has_cold next ops1 fault seq ops2 :
  config_ok cfg → ops_ok next (ops1 ++ OpFlag fault seq :: ops2) → marks_written ops2 →
  let st1 := foldl exec_seg (segs_new cfg has_cold) ops1 in
  (flag_sealed_deleted fault seq (ts_writer st1) (ts_tier st1)).2 = true →
  let st := foldl exec_seg (segs_new cfg has_cold) (ops1 ++ OpFlag fault seq :: ops2) in
  is_sealed (ts_writer st) seq = true →
  flag_on_disk (mkListFault true true) (λ _, true) (ts_tier st) seq ∧
  ∀ seg, segment_for (ts_writer st) seq = Some seg → read_locator ReadOk (ts_tier st) seg seq = None.
Proof.
  intros Hcfg Hops Hm st1 Hdone st. unfold st. rewrite foldl_app. fold st1. cbn [foldl].
  apply ops_ok_app in Hops as [Hops1 Hops2]. simpl in Hops2.
  destruct (run_inv cfg ops1 Hcfg _ _ _ _ (segs_new_inv cfg has_cold next) Hops1) as (d1 & Hi1 & _). fold st1 in Hi1.
  destruct st1 as [w1 t1 r1 rs1]. simpl in *. pose proof (flag_inv cfg fault seq w1 t1 _ d1 _ (si_writer _ _ _ _ _ Hi1)) as Hf.
  destruct (flag_sealed_deleted fault seq w1 t1) as [[w2 t2] done2]. simpl in Hdone.
  destruct Hf as (d2 & Hi2 & Hsub & _ & Hin2 & _ & Hg). specialize (Hin2 Hdone).
  pose proof (segs_grow _ _ _ _ _ _ _ _ _ _ _ _ _ Hi1 Hi2 Hg (reflexivity _) Hsub) as Hs2.
  destruct (run_inv cfg ops2 Hcfg _ _ _ _ Hs2 Hops2) as (d3 & [Hi3 _] & _ & Hsub3). intros Hsl.
  pose proof (is_sealed_registered _ _ _ _ _ _ _ Hi3 Hsl) as Hreg. assert (Hd3 : seq ∈ d3) by (by apply (Hsub3 Hm)).
  split; [by eapply dead_flagged|]. intros seg [Hin Hr]%(segment_for_inv _ _ _ _ _ _ _ _ Hi3).
  destruct (registered_record _ _ _ _ _ _ _ _ Hi3 Hin Hr) as (recs & i & rec & Hat & _ & Hi & Hseq & _).
  destruct (read_locator_spec ReadOk _ _ _ seg recs i rec Hat Hi) as [_ Hok]. rewrite <-Hseq in Hok.
  by rewrite Hok, decide_True.
Qed.
End segwriter.

Arguments SegOp : clear implicits.
Arguments SegmentWriter : clear implicits.
Arguments TopicSegs : clear implicits.
Arguments OffLockRead : clear implicits.

(** ** Samples *)
Module SegWriterSamples.
Import JsonSample SegmentSamples.

(** Segments of two records, with no byte trigger. *)
Definition cfg : SegmentConfig := mkSegConfig 2 0 0 0 0.
Definition app (seq : Z) (data : Json) : SegOp Json := OpAppend 0 PutOk seq 10 None None data None.
Definition reloc : SegOp Json := OpRelocate reloc_clean.

(** Two segments are sealed and the copy of the first is in the COLD store. *)
Definition ops1 : list (SegOp Json) :=
  [app 1 (JNumber 7); app 2 (JString "b"); app 3 JNull; app 4 JNull; app 5 JNull; reloc; reloc; reloc].
Definition ops2 : list (SegOp Json) := [reloc; OpRead 2; OpReadStep 0 true; reloc].

Lemma cfg_ok : config_ok 1000 cfg.
Proof. unfold config_ok. simpl. lia. Qed.
Lemma ops_ok_sample ops : ops_ok len_crc 1000 1 (ops1 ++ ops) ↔ ops_ok len_crc 1000 6 ops.
Proof.
  unfold ops1, app. cbn [Datatypes.app ops_ok reloc]. split; [tauto|]. intros H. split_and!; try done; try lia;
    by repeat split; vm_compute.
Qed.

Lemma sealed_payload_served_witness :
  let st := foldl (exec_seg len_crc) (segs_new cfg true) (ops1 ++ OpFlag (FlagMark MarkOk) 1 :: ops2) in
  (resolve_sealed len_crc ReadOk (ts_writer st) (ts_tier st) 2).2 = Some (JString "b", None).
Proof.
  apply (sealed_payload_served len_crc 1000 len_crc_u64 cfg true 1 _ 0 PutOk 2 10 None None (JString "b") None).
  - exact cfg_ok.
  - by apply ops_ok_sample.
  - set_solver.
  - by vm_compute.
  - intros (fault & Hin & _). set_solver.
Defined.

Lemma deleted_stays_flagged_witness :
  let st := foldl (exec_seg len_crc) (segs_new cfg true) (ops1 ++ OpFlag (FlagMark MarkOk) 1 :: ops2) in
  flag_on_disk len_crc (mkListFault true true) (λ _, true) (ts_tier st) 1.
Proof.
  apply (deleted_stays_flagged len_crc 1000 len_crc_u64 cfg true 1 ops1 (FlagMark MarkOk) 1 ops2).
  - exact cfg_ok.
  - by apply ops_ok_sample.
  - intros f Hin. assert (f = reloc_clean) as -> by (unfold ops2, reloc in Hin; set_solver). done.
  - by vm_compute.
  - by vm_compute.
Defined.

(** A flag set on the HOT copy while a relocation copies it is lost when writing it
    to the COLD copy fails: the HOT copy is deleted all the same. *)
Definition reloc_unmarked : RelocFault := mkRelocFault true PutOk true (λ _, MarkFailsWrite) DelOk.
Example relocation_loses_flag :
  let st := foldl (exec_seg len_crc) (segs_new cfg true) ops1 in
  let flag := flag_sealed_deleted (FlagMark MarkOk) 1 (ts_writer st) (ts_tier st) in
  let st := foldl (exec_seg len_crc) st [OpFlag (FlagMark MarkOk) 1; OpRelocate reloc_unmarked] in
  flag.2 = true ∧ scan_ondisk_deleted len_crc (mkListFault true true) (λ _, true) (ts_tier st) = [] ∧
  (resolve_sealed len_crc ReadOk (ts_writer st) (ts_tier st) 1).2 = Some (JNumber 7, None).
Proof. by vm_compute. Qed.

(** The state once enough other payloads have passed the bounded caches. *)
Definition uncached (st : TopicSegs Json) : TopicSegs Json :=
  mkSegs (set_sealed (ts_writer st) (sw_sealed (ts_writer st)) [] []) (ts_tier st) (ts_reloc st) (ts_reads st).

(** A read off the lock has resolved the HOT store when the relocation deletes the HOT
    files: it gives nothing, although the record is live and the COLD copy holds it. *)
Example relocation_interrupts_read :
  let st := foldl (exec_seg len_crc) (uncached (foldl (exec_seg len_crc) (segs_new cfg true) ops1))
              [OpRead 1; OpReadStep 0 true; reloc] in
  read_step len_crc true (ts_tier st) <$> ts_reads st = [inr None] ∧
  (resolve_sealed len_crc ReadOk (ts_writer st) (ts_tier st) 1).2 = Some (JNumber 7, None).
Proof. by vm_compute. Qed.

(** A read of the COLD files that a delete overtakes puts the deleted payload back into the
    cache that the delete has cleared. *)
Example read_recaches_deleted :
  let st := foldl (exec_seg len_crc) (foldl (exec_seg len_crc) (segs_new cfg true) ops1)
              [reloc; OpRead 1; OpReadStep 0 true; OpReadStep 0 true; OpReadStep 0 true;
               OpFlag (FlagMark MarkOk) 1; OpReadStep 0 true] in
  scan_ondisk_deleted len_crc (mkListFault true true) (λ _, true) (ts_tier st) = [1] ∧
  resolve_sealed_fast (ts_writer st) 1 = RHit (JNumber 7, None).
Proof. by vm_compute. Qed.
End SegWriterSamples.
