(* ===== verification/Startup.v ===== *)
(** * Start-up

    Models how the process gets from its environment to a listening socket:
    [ServerConfig::from_env] with the readers of the segment and limit settings,
    [finalize_keys], [key_store], [bind_is_loopback] and [startup_guard] of
    [src/config.rs], [Limits::from_env] of [src/limits.rs], and the order of the steps
    of [main] ([src/main.rs]) up to the bound listener.

    The resolver and the socket of the operating system are the interface [Net].  What
    opening the engine does is modelled in the recovery files; here it is an outcome.
    [boot_fails_closed] shows what a server that listens guarantees: it is reachable
    without a key only on loopback or by the explicit override. *)

From Stdlib Require Import Ascii.
From stdpp Require Import base list strings.
From S2P Require Import Prelude Bytes Names Types Auth Limits Http SegWriter.

(** ** Reading the environment *)

(** [std::env::var]: the value of a variable that is set and valid text. *)
Definition Env : Type := string → option string.

(** [str::parse] at [u64], and at [usize], which has the same width. *)
Definition digit_of (c : ascii) : option Z :=
  let n := nat_of_ascii c in
  if (48 <=? n)%nat && (n <=? 57)%nat then Some (Z.of_nat n - 48) else None.
Fixpoint parse_digits (acc : Z) (s : string) : option Z :=
  match s with
  | EmptyString => Some acc
  | String c s =>
      match digit_of c with
      | None => None
      | Some d => let v := acc * 10 + d in if u64_max <? v then None else parse_digits v s
      end
  end.
Definition parse_u64 (s : string) : option Z :=
  match s with
  | EmptyString => None
  | String c rest =>
      if Ascii.eqb c "+" then if is_empty rest then None else parse_digits 0 rest
      else parse_digits 0 s
  end.

(** [env_u64] of both files: the slot keeps its value when the variable is unset or
    no number. *)
Definition env_u64 (env : Env) (key : string) (slot : Z) : Z :=
  match env key with
  | Some v => default slot (parse_u64 (trim v))
  | None => slot
  end.

(** A switch: [true] or [1]. *)
Definition env_flag (env : Env) (key : string) : bool :=
  match env key with
  | Some v => bool_decide (v = "true"%string ∨ v = "1"%string)
  | None => false
  end.

(** A directory: set and not blank. *)
Definition env_dir (env : Env) (key : string) : option string :=
  match env key with
  | Some dir => let dir := trim dir in if is_empty dir then None else Some dir
  | None => None
  end.

(** [Limits::from_env] *)
Definition limits_from_env (env : Env) : Limits :=
  let l := default_limits in
  mkLimits (env_u64 env "TOPICS_MAX_TOPICS" (lm_max_topics l))
    (env_u64 env "TOPICS_MAX_ROUTERS" (lm_max_routers l))
    (env_u64 env "TOPICS_MAX_WATCH_SESSIONS" (lm_max_watch_sessions l))
    (env_u64 env "TOPICS_MAX_SSE_CONNECTIONS" (lm_max_sse_connections l))
    (env_u64 env "TOPICS_MAX_SSE_CONNECTIONS_PER_KEY" (lm_max_sse_connections_per_key l))
    (env_u64 env "TOPICS_MAX_INFLIGHT_PER_KEY" (lm_max_inflight_per_key l))
    (env_u64 env "TOPICS_MAX_TOTAL_BYTES" (lm_max_total_bytes l)).

(** [SegmentConfig::default] and [SegmentConfig::from_env] *)
Definition default_segment : SegmentConfig := mkSegConfig 10000 (Z.shiftl 64 20) 3600000 4 0.
Definition segment_from_env (env : Env) : SegmentConfig :=
  let c := default_segment in
  let max_events := env_u64 env "TOPICS_SEGMENT_MAX_EVENTS" (sc_max_events c) in
  mkSegConfig (Z.max max_events 1)
    (env_u64 env "TOPICS_SEGMENT_MAX_BYTES" (sc_max_bytes c))
    (env_u64 env "TOPICS_SEGMENT_MAX_AGE_MS" (sc_max_age_ms c))
    (env_u64 env "TOPICS_HOT_RETAIN_SEGMENTS" (sc_hot_retain_segments c))
    (env_u64 env "TOPICS_HOT_RETAIN_BYTES" (sc_hot_retain_bytes c)).

(** [default_wal_shards]; [cpus] is the outcome of [available_parallelism]. *)
Definition MAX_WAL_SHARDS : Z := 8.
Definition default_wal_shards (cpus : option Z) : Z := clamp 1 MAX_WAL_SHARDS (default 1 cpus).

(** ** [ServerConfig] *)
Record ServerConfig := mkServerConfig {
  sv_bind_addr : string;
  sv_api_keys : list string;
  sv_key_store_cached : option (list ApiKey);
  sv_key_count : Z;
  sv_allow_insecure_no_auth : bool;
  sv_probe_auth : bool;
  sv_max_body_bytes : Z;
  sv_data_dir : option string;
  sv_cold_dir : option string;
  sv_segment : SegmentConfig;
  sv_wal_shards : Z;
  sv_limits : Limits
}.

(** The bind address of [from_env]. *)
Definition has_char (c : ascii) (s : string) : bool := existsb (Ascii.eqb c) (String.list_ascii_of_string s).
Definition bind_from_env (env : Env) : string :=
  match env "TOPICS_HOST" with
  | Some host =>
      if has_char ":" host then host
      else host +:+ String ":" (default "4000"%string (env "TOPICS_PORT"))
  | None =>
      match env "TOPICS_PORT" with
      | Some port => "127.0.0.1:" +:+ port
      | None => "127.0.0.1:4000"
      end
  end%string.

(** The entries of [TOPICS_API_KEYS]. *)
Definition api_key_entries (env : Env) : list string :=
  match env "TOPICS_API_KEYS"%string with
  | Some keys => filter (λ s, is_empty s = false) (trim <$> split_char "," keys)
  | None => []
  end.

Definition max_body_from_env (env : Env) : Z :=
  default (Z.shiftl 64 20) (env "TOPICS_MAX_BODY_BYTES"%string ≫= parse_u64).

Definition wal_shards_from_env (env : Env) (cpus : option Z) : Z :=
  match env "TOPICS_WAL_SHARDS"%string with
  | Some v =>
      match parse_u64 (trim v) with
      | Some n => if 1 <=? n then n else default_wal_shards cpus
      | None => default_wal_shards cpus
      end
  | None => default_wal_shards cpus
  end.

Section config.
Context `{!Crypto}.

(** [ServerConfig::finalize_keys]: the plaintext entries go once they have been hashed. *)
Definition finalize_keys (cfg : ServerConfig) : ServerConfig :=
  match sv_api_keys cfg with
  | [] => cfg
  | entries =>
      let '(mkServerConfig bind _ cached _ insecure probe body data cold seg shards lim) := cfg in
      let count := Z.of_nat (length entries) in
      match parse_entries entries with
      | Ok store => mkServerConfig bind [] (Some store) count insecure probe body data cold seg shards lim
      | Err _ => mkServerConfig bind entries cached count insecure probe body data cold seg shards lim
      end
  end.

(** [ServerConfig::from_env] *)
Definition from_env (env : Env) (cpus : option Z) : ServerConfig :=
  finalize_keys (mkServerConfig (bind_from_env env) (api_key_entries env) None 0
    (env_flag env "TOPICS_ALLOW_INSECURE_NO_AUTH") (env_flag env "TOPICS_PROBE_AUTH")
    (max_body_from_env env) (env_dir env "TOPICS_DATA_DIR") (env_dir env "TOPICS_COLD_DIR")
    (segment_from_env env) (wal_shards_from_env env cpus) (limits_from_env env)).

(** [ServerConfig::auth_enabled], [key_store] *)
Definition auth_enabled (cfg : ServerConfig) : bool :=
  (0 <? sv_key_count cfg) || negb (bool_decide (sv_api_keys cfg = [])).
Definition key_store (cfg : ServerConfig) : result string (list ApiKey) :=
  match sv_key_store_cached cfg with
  | Some store => Ok store
  | None => parse_entries (sv_api_keys cfg)
  end.
End config.

(** ** The network *)

(** [std::net::IpAddr], an address as the number it is. *)
Inductive IpAddr := V4 (a : Z) | V6 (a : Z).
Definition is_loopback (ip : IpAddr) : bool :=
  match ip with V4 a => Z.shiftr a 24 =? 127 | V6 a => a =? 1 end.
Definition is_unspecified (ip : IpAddr) : bool :=
  match ip with V4 a | V6 a => a =? 0 end.

(** The resolver ([to_socket_addrs]) and the socket ([TcpListener::bind], which
    resolves the address and binds one of the results) of the operating system; the
    resolver gives one answer for an address throughout the start-up. *)
Class Net := {
  lookup_host : string → option (list IpAddr);
  tcp_bind : string → option IpAddr
}.
Class NetLaws `{!Net} : Prop := {
  tcp_bind_resolved addr ip : tcp_bind addr = Some ip → ∃ ips, lookup_host addr = Some ips ∧ ip ∈ ips
}.

(** The loop of [bind_is_loopback]. *)
Fixpoint all_loopback (any : bool) (ips : list IpAddr) : bool :=
  match ips with
  | [] => any
  | ip :: ips => if is_unspecified ip || negb (is_loopback ip) then false else all_loopback true ips
  end.

Section boot.
Context `{!Crypto} `{!Net}.

(** [ServerConfig::bind_is_loopback], [startup_guard]; the message names the address. *)
Definition bind_is_loopback (cfg : ServerConfig) : bool :=
  match lookup_host (sv_bind_addr cfg) with
  | Some ips => all_loopback false ips
  | None => false
  end.
Definition startup_guard (cfg : ServerConfig) : result string unit :=
  if auth_enabled cfg || bind_is_loopback cfg || sv_allow_insecure_no_auth cfg then Ok tt
  else Err (sv_bind_addr cfg).

(** ** [main] *)
Inductive BootError :=
  | RefusedToStart (addr : string)
  | EngineFailed
  | InvalidApiKeys (msg : string)
  | BindFailed.
Record Server := mkServer {
  srv_config : ServerConfig;
  srv_keys : list ApiKey;
  srv_addr : IpAddr
}.

(** The end of the start-up: the key store of [build_router_with_shutdown] and the
    listener. *)
Definition listen (cfg : ServerConfig) : result BootError Server :=
  match key_store cfg with
  | Err msg => Err (InvalidApiKeys msg)
  | Ok keys =>
      match tcp_bind (sv_bind_addr cfg) with
      | None => Err BindFailed
      | Some ip => Ok (mkServer cfg keys ip)
      end
  end.

(** [main] up to the bound listener; [opened] says whether [Engine::with_data_dir]
    returned an engine. *)
Definition boot (env : Env) (cpus : option Z) (opened : bool) : result BootError Server :=
  let cfg := from_env env cpus in
  match startup_guard cfg with
  | Err addr => Err (RefusedToStart addr)
  | Ok _ => if negb opened then Err EngineFailed else listen cfg
  end.

(** What the middleware of the server reads of its configuration. *)
Definition http_config (cfg : ServerConfig) : HttpConfig :=
  mkHttpConfig (auth_enabled cfg) (sv_probe_auth cfg) (sv_limits cfg).
End boot.

(** ** Properties *)

Lemma parse_digits_u64 s acc n : 0 <= acc <= u64_max → parse_digits acc s = Some n → 0 <= n <= u64_max.
Proof.
  revert acc. induction s as [|c s IH]; intros acc Hacc; cbn [parse_digits]; [by intros [= <-]|].
  destruct (digit_of c) as [d|] eqn:Hd; [|done]. cbn zeta.
  destruct (Z.ltb_spec u64_max (acc * 10 + d)); [done|]. apply IH.
  unfold digit_of in Hd. destruct (_ && _) eqn:Hc in Hd; [|done]. injection Hd as <-.
  apply andb_prop in Hc as [?%Nat.leb_le ?%Nat.leb_le]. lia.
Qed.

Lemma parse_u64_range s n : parse_u64 s = Some n → 0 <= n <= u64_max.
Proof.
  assert (0 <= 0 <= u64_max) by (unfold u64_max; lia).
  destruct s as [|c r]; [done|]. cbn [parse_u64].
  destruct (Ascii.eqb c "+"); [destruct (is_empty r); [done|]|]; by apply parse_digits_u64.
Qed.

Lemma env_u64_range env key slot : 0 <= slot <= u64_max → 0 <= env_u64 env key slot <= u64_max.
Proof.
  intros Hs. unfold env_u64. destruct (env key); [|done].
  destruct (parse_u64 _) eqn:Hp; [by eapply parse_u64_range|done].
Qed.

Section keys.
Context `{!Crypto}.

Lemma parse_entries_elem entries keys k :
  parse_entries entries = Ok keys → k ∈ keys → ∃ entry, entry ∈ entries ∧ parse_entry entry = Ok (Some k).
Proof.
  revert keys. induction entries as [|entry entries IH]; intros keys; cbn [parse_entries].
  { intros [= <-] Hk. by apply not_elem_of_nil in Hk. }
  destruct (parse_entry entry) as [o|] eqn:Ho; [|done].
  destruct (parse_entries entries) as [ks|]; [|done]. cbn. intros [= <-] Hk.
  assert (Some k = o ∨ k ∈ ks) as [<-|Hin].
  { destruct o; [apply elem_of_cons in Hk as [->|]|]; eauto. }
  - exists entry. split; [by left|done].
  - destruct (IH _ eq_refl Hin) as (x & ? & ?). exists x. split; [by right|done].
Qed.

(** The secret of an entry. *)
Definition entry_secret (entry : string) : string := trim (entry_fields (trim entry)).1.1.

Lemma parse_entry_hash entry k : parse_entry entry = Ok (Some k) → ak_hash k = digest (entry_secret entry).
Proof.
  unfold parse_entry, entry_secret. destruct (is_empty (trim entry)); [done|].
  destruct (entry_fields (trim entry)) as [[secret scopes] prefixes]. cbn [fst].
  destruct (is_empty (trim secret)); [done|].
  destruct (match scopes with None => _ | Some _ => _ end); [|done]. by intros [= <-].
Qed.

Lemma auth_scan_hit keys i presented m hit idx :
  auth_scan i keys presented m hit = (idx, true) →
  (idx = m ∧ hit = true) ∨ ∃ j k, idx = (i + j)%nat ∧ keys !! j = Some k ∧ digest_matches k presented = true.
Proof.
  revert i m hit. induction keys as [|k keys IH]; intros i m hit; cbn [auth_scan].
  { intros [= -> ->]. by left. }
  intros [[Hm Hh]|(j & k' & -> & Hk & Hd)]%IH.
  - destruct (digest_matches k presented) eqn:Hd.
    + right. exists 0%nat, k. split; [lia|done].
    + left. by rewrite orb_false_r in Hh.
  - right. exists (S j), k'. split; [lia|done].
Qed.

Lemma authenticate_key `{!CryptoLaws} keys tok p :
  authenticate keys tok = Some p →
  ∃ k, k ∈ keys ∧ ak_hash k = digest tok ∧ p = mkPrincipal (Some (ak_hash k)) (effective_scopes k) (ak_prefixes k).
Proof.
  unfold authenticate. destruct (auth_scan _ _ _ _ _) as [idx [|]] eqn:Hs; [|done].
  apply auth_scan_hit in Hs as [[_ ?]|(j & k & -> & Hk & Hd)]; [done|]. cbn [Nat.add].
  rewrite Hk. intros [= <-]. exists k. split; [by eapply list_elem_of_lookup_2|].
  split; [by apply ct_eq_spec|done].
Qed.

(** With keys configured, a request other than a probe and the stream of a watch passes
    only with a token of one of them. *)
Lemma middleware_key `{!CryptoLaws} cfg keys c rq q :
  hc_auth_enabled cfg = true → is_probe_path (rq_path rq) = false → is_watch_stream_path (rq_path rq) = false →
  (auth_middleware cfg keys c rq).2 = Next q →
  ∃ p tok, q = Some p ∧ presented rq = Some tok ∧ authenticate keys tok = Some p.
Proof.
  intros Hen Hp Hw. unfold auth_middleware. rewrite Hen, Hp, Hw, andb_false_r. cbn [negb andb].
  destruct (presented rq) as [tok|]; [|done]. cbn [mbind option_bind].
  destruct (authenticate keys tok) as [p|] eqn:Ha; [|done].
  destruct (try_acquire_inflight _ _ _) as [c1 [| | | | |g|]]; try done.
  destruct (path_allowed _ _ _); [|done]. intros [= <-]. eauto.
Qed.
End keys.

(** *** The configuration *)
Section configured.
Context `{!Crypto}.
Implicit Types (env : Env).

Lemma finalize_idem cfg : finalize_keys (finalize_keys cfg) = finalize_keys cfg.
Proof.
  destruct cfg as [? [|e es] ? ? ? ? ? ? ? ? ? ?]; [done|]. unfold finalize_keys at 2 3. cbn [sv_api_keys].
  destruct (parse_entries (e :: es)) eqn:Hp; [done|]. unfold finalize_keys. cbn [sv_api_keys]. by rewrite Hp.
Qed.

Lemma from_env_fields env cpus :
  let cfg := from_env env cpus in
  sv_bind_addr cfg = bind_from_env env ∧ sv_limits cfg = limits_from_env env ∧
  sv_segment cfg = segment_from_env env ∧ sv_wal_shards cfg = wal_shards_from_env env cpus ∧
  sv_allow_insecure_no_auth cfg = env_flag env "TOPICS_ALLOW_INSECURE_NO_AUTH".
Proof.
  unfold from_env, finalize_keys. cbn [sv_api_keys].
  destruct (api_key_entries env); [done|]. by destruct (parse_entries _).
Qed.

Lemma from_env_auth env cpus : auth_enabled (from_env env cpus) = negb (bool_decide (api_key_entries env = [])).
Proof.
  unfold from_env, finalize_keys. cbn [sv_api_keys].
  destruct (api_key_entries env) as [|e es] eqn:He; [done|].
  destruct (parse_entries _); unfold auth_enabled; cbn [sv_key_count];
    rewrite (proj2 (Z.ltb_lt _ _)) by (simpl; lia); done.
Qed.

Lemma from_env_store env cpus : key_store (from_env env cpus) = parse_entries (api_key_entries env).
Proof.
  unfold from_env, finalize_keys. cbn [sv_api_keys].
  destruct (api_key_entries env) as [|e es]; [done|].
  destruct (parse_entries (e :: es)) eqn:Hp; [done|]. unfold key_store. cbn [sv_key_store_cached sv_api_keys]. done.
Qed.

Lemma from_env_plaintext env cpus keys :
  parse_entries (api_key_entries env) = Ok keys → sv_api_keys (from_env env cpus) = [].
Proof.
  unfold from_env, finalize_keys. cbn [sv_api_keys].
  destruct (api_key_entries env) as [|e es]; [done|]. by intros ->.
Qed.

(** Whatever the environment holds, the caps fit their width, a segment can hold a
    record and there is a WAL shard. *)
Lemma from_env_usable env cpus :
  let cfg := from_env env cpus in
  1 <= sv_wal_shards cfg ∧ 1 <= sc_max_events (sv_segment cfg) ∧
  0 <= lm_max_sse_connections (sv_limits cfg) <= u64_max ∧
  0 <= lm_max_sse_connections_per_key (sv_limits cfg) <= u64_max ∧
  0 <= lm_max_inflight_per_key (sv_limits cfg) <= u64_max.
Proof.
  cbn zeta. destruct (from_env_fields env cpus) as (_ & -> & -> & -> & _).
  split; [|split; [simpl; lia|split; [|split]; apply env_u64_range; done]].
  assert (1 <= default_wal_shards cpus).
  { unfold default_wal_shards, clamp. destruct (Z.ltb_spec (default 1 cpus) 1); [done|]. by destruct (_ <? _). }
  unfold wal_shards_from_env. destruct (env _); [|done]. destruct (parse_u64 _) as [n|]; [|done].
  by destruct (Z.leb_spec 1 n).
Qed.
End configured.

(** *** The guard *)
Lemma all_loopback_spec ips : all_loopback false ips = true ↔ ips ≠ [] ∧ Forall (λ ip, is_loopback ip = true) ips.
Proof.
  assert (Hgo : ∀ any, all_loopback any ips = true ↔
    (ips = [] → any = true) ∧ Forall (λ ip, is_loopback ip = true) ips).
  { induction ips as [|ip ips IH]; intros any; cbn [all_loopback].
    { split; [auto|]. intros [H _]. by apply H. }
    assert (Hun : is_unspecified ip = true → is_loopback ip = false).
    { by destruct ip; intros ->%Z.eqb_eq. }
    rewrite Forall_cons. destruct (is_loopback ip); cbn [negb]; [|rewrite orb_true_r; naive_solver].
    destruct (is_unspecified ip); [naive_solver|]. cbn [orb]. rewrite IH. naive_solver. }
  rewrite Hgo. naive_solver.
Qed.

Section booting.
Context `{!Crypto} `{!CryptoLaws} `{!Net} `{!NetLaws}.
Implicit Types (env : Env).

(** Every address the bind address stands for is loopback. *)
Definition local_only env : Prop :=
  ∃ ips, lookup_host (bind_from_env env) = Some ips ∧ ips ≠ [] ∧ Forall (λ ip, is_loopback ip = true) ips.
(** The explicit override. *)
Definition insecure_allowed env : Prop :=
  env "TOPICS_ALLOW_INSECURE_NO_AUTH"%string ∈ [Some "true"; Some "1"]%string.

Lemma loopback_spec env cpus : bind_is_loopback (from_env env cpus) = true ↔ local_only env.
Proof.
  unfold bind_is_loopback, local_only. destruct (from_env_fields env cpus) as [-> _].
  destruct (lookup_host _) as [ips|]; [|naive_solver]. rewrite all_loopback_spec. naive_solver.
Qed.

Lemma insecure_spec env cpus : sv_allow_insecure_no_auth (from_env env cpus) = true ↔ insecure_allowed env.
Proof.
  destruct (from_env_fields env cpus) as (_ & _ & _ & _ & ->). unfold env_flag, insecure_allowed.
  destruct (env _) as [v|]; [rewrite bool_decide_eq_true|]; set_solver.
Qed.

Lemma guard_spec env cpus :
  startup_guard (from_env env cpus) = Ok tt ↔ api_key_entries env ≠ [] ∨ local_only env ∨ insecure_allowed env.
Proof.
  rewrite <-(loopback_spec env cpus), <-(insecure_spec env cpus). unfold startup_guard. rewrite from_env_auth.
  destruct (bind_is_loopback _), (sv_allow_insecure_no_auth _); case_bool_decide; naive_solver.
Qed.

Lemma boot_steps env cpus opened srv :
  boot env cpus opened = Ok srv →
  startup_guard (from_env env cpus) = Ok tt ∧ srv_config srv = from_env env cpus ∧
  parse_entries (api_key_entries env) = Ok (srv_keys srv) ∧
  tcp_bind (bind_from_env env) = Some (srv_addr srv).
Proof.
  unfold boot, listen. rewrite from_env_store. destruct (from_env_fields env cpus) as [-> _].
  destruct (startup_guard _) as [[]|]; [|done]. destruct opened; [|done]. cbn [negb].
  destruct (parse_entries _); [|done]. destruct (tcp_bind _); [|done]. by intros [= <-].
Qed.

(** C14. Start-up fails closed.  The process refuses to start for want of authentication
    just when [TOPICS_API_KEYS] has no entry, the override is not set and some address it
    would bind is not loopback.  A process that gets to listen holds no plaintext key
    any more and has parsed every entry; it listens on loopback, or was told to run
    without keys, or has keys; and where it has keys, a request other than a probe and the
    stream of a watch passes the middleware only if the token it presents has the digest
    of the secret of an entry, with the scopes and prefixes of that entry. *)
Theorem boot_fails_closed env cpus opened :
  ((∃ addr, boot env cpus opened = Err (RefusedToStart addr)) ↔
     api_key_entries env = [] ∧ ¬ local_only env ∧ ¬ insecure_allowed env) ∧
  (∀ srv, boot env cpus opened = Ok srv →
     sv_api_keys (srv_config srv) = [] ∧
     (is_loopback (srv_addr srv) = true ∨ insecure_allowed env ∨ api_key_entries env ≠ []) ∧
     (api_key_entries env ≠ [] →
      ∀ c rq q, is_probe_path (rq_path rq) = false → is_watch_stream_path (rq_path rq) = false →
        (auth_middleware (http_config (srv_config srv)) (srv_keys srv) c rq).2 = Next q →
        ∃ tok entry k, presented rq = Some tok ∧ entry ∈ api_key_entries env ∧
          parse_entry entry = Ok (Some k) ∧ digest tok = digest (entry_secret entry) ∧
          q = Some (mkPrincipal (Some (digest tok)) (effective_scopes k) (ak_prefixes k)))).
Proof.
  split.
  - pose proof (guard_spec env cpus) as Hg. split.
    + intros [addr Hb]. assert (startup_guard (from_env env cpus) ≠ Ok tt) as Hno.
      { intros Hok. unfold boot in Hb. rewrite Hok in Hb. destruct opened; [|done].
        cbn [negb] in Hb. unfold listen in Hb. destruct (key_store _); [|done]. by destruct (tcp_bind _). }
      destruct (decide (api_key_entries env = [])); [|tauto]. tauto.
    + intros (He & Hl & Hi). destruct (startup_guard (from_env env cpus)) as [[]|addr] eqn:Hs.
      * by destruct Hg as [[?|[?|?]] _].
      * exists addr. unfold boot. by rewrite Hs.
  - intros srv (Hguard & Hcfg & Hkeys & Hbind)%boot_steps. rewrite Hcfg.
    split; [by eapply from_env_plaintext|]. split.
    + apply guard_spec in Hguard as [?|[(ips & Hips & _ & Hall)|?]]; [by auto| |by auto].
      destruct (tcp_bind_resolved _ _ Hbind) as (ips' & Hips' & Hin). simplify_eq.
      left. by eapply Forall_forall in Hall.
    + intros Hne c rq q Hp Hw Hnext.
      assert (Hen : hc_auth_enabled (http_config (from_env env cpus)) = true).
      { cbn. rewrite from_env_auth. by rewrite bool_decide_false. }
      destruct (middleware_key _ _ _ _ _ Hen Hp Hw Hnext) as (p & tok & -> & Htok & Ha).
      apply authenticate_key in Ha as (k & Hk & Hd & ->).
      destruct (parse_entries_elem _ _ _ Hkeys Hk) as (entry & Hin & Hparse).
      exists tok, entry, k. rewrite <-(parse_entry_hash _ _ Hparse), Hd. done.
Qed.
End booting.

(** ** Concrete start-ups *)
Module StartupSamples.
Import AuthSamples.

(** A resolver that knows the loopback and the unspecified address. *)
#[export] Instance toy_net : Net := {|
  lookup_host addr :=
    if starts_with "127.0.0.1:" addr then Some [V4 (Z.shiftl 127 24 + 1)]
    else if starts_with "0.0.0.0:" addr then Some [V4 0] else None;
  tcp_bind addr :=
    if starts_with "127.0.0.1:" addr then Some (V4 (Z.shiftl 127 24 + 1))
    else if starts_with "0.0.0.0:" addr then Some (V4 0) else None
|}.
#[export] Instance toy_net_laws : NetLaws.
Proof.
  split. intros addr ip. cbn [tcp_bind lookup_host toy_net]. destruct (starts_with "127.0.0.1:" addr).
  - intros [= <-]. eexists. split; [done|]. by left.
  - destruct (starts_with "0.0.0.0:" addr); [|done]. intros [= <-]. eexists. split; [done|]. by left.
Qed.

Definition env_of (l : list (string * string)) : Env := λ k, (list_find (λ kv, kv.1 = k) l) ≫= λ r, Some r.2.2.
Definition public : list (string * string) := [("TOPICS_HOST", "0.0.0.0")]%string.
Definition keyed : list (string * string) := (("TOPICS_API_KEYS", " s3cret:read:jobs , ") :: public)%string.

Lemma boot_fails_closed_witness :
  (∃ addr, boot (env_of public) None true = Err (RefusedToStart addr)) ∧
  (∃ srv, boot (env_of keyed) None true = Ok srv ∧ sv_api_keys (srv_config srv) = [] ∧
     ∀ c rq q, is_probe_path (rq_path rq) = false → is_watch_stream_path (rq_path rq) = false →
       (auth_middleware (http_config (srv_config srv)) (srv_keys srv) c rq).2 = Next q →
       ∃ tok entry k, presented rq = Some tok ∧ entry ∈ api_key_entries (env_of keyed) ∧
         parse_entry entry = Ok (Some k) ∧ digest tok = digest (entry_secret entry) ∧
         q = Some (mkPrincipal (Some (digest tok)) (effective_scopes k) (ak_prefixes k))).
Proof.
  split.
  - apply (boot_fails_closed (env_of public) None true). split; [by vm_compute|]. split.
    + intros (ips & Hips & _ & Hall). vm_compute in Hips. injection Hips as <-.
      apply Forall_cons in Hall as [Hall _]. by vm_compute in Hall.
    + intros Hin. apply (bool_decide_pack _) in Hin. by vm_compute in Hin.
  - destruct (boot (env_of keyed) None true) as [srv|] eqn:Hb; [|by vm_compute in Hb].
    exists srv. split; [done|]. destruct (boot_fails_closed (env_of keyed) None true) as [_ Hok].
    destruct (Hok srv Hb) as (Hkeys & _ & Hauth). split; [done|]. apply Hauth. by vm_compute.
Defined.

(** An unknown scope stops the start-up. *)
Example malformed_scope_refused :
  boot (env_of (("TOPICS_API_KEYS", "k:raed") :: public)%string) None true = Err (InvalidApiKeys "raed").
Proof. by vm_compute. Qed.

(** An entry without a secret counts as a key and makes no key: nothing authenticates. *)
Example empty_secret_locks_out :
  ∃ srv, boot (env_of (("TOPICS_API_KEYS", ":read") :: public)%string) None true = Ok srv ∧
    hc_auth_enabled (http_config (srv_config srv)) = true ∧ srv_keys srv = [].
Proof. eexists. split; [by vm_compute|]. split; by vm_compute. Qed.

(** An IPv6 host without a port has a colon, so no port is added, and it does not resolve. *)
Example ipv6_host_has_no_port :
  bind_from_env (env_of [("TOPICS_HOST", "::1"); ("TOPICS_PORT", "4000")]%string) = "::1"%string.
Proof. by vm_compute. Qed.
End StartupSamples.
