(* ===== verification/Seam.v ===== *)
(** * Materialization of committed records

    Models the path of [src/engine/topic_state.rs] from a published range to the
    segment writer and back to a reader: [MaterializeSeam] and the part of
    [materialize_published] under its lock, [materialize_segment], which feeds the
    writer and frees the payloads that were sealed, [attach_segwriter] and
    [resolve_payload].  The writer is [SegWriter], the index [TopicIndex].

    [seam_restores_order]: ranges that arrive in any order are fed once each and in
    seq order.  [materialized_payloads_resolve]: fed in that order, every record
    resolves to the payload it was appended with, wherever it lives, or to null when a
    read of the segment files fails.  ([resolve_payload] is a read that no other operation
    interrupts; [SegWriter.read_step] takes it apart.)  The feed runs
    after the seam's lock is released, and the samples show what the order between
    two feeds, and between a restart and the files of before it, decides. *)

From stdpp Require Import base gmap list strings list_numbers.
From S2P Require Import Prelude Types TopicIndex Bytes Segment Json SegWriter.

(** ** The seam *)

(** [MaterializeSeam]; [pending] is a [BTreeMap]. *)
Record MaterializeSeam := mkSeam {
  ms_next : Z;
  ms_pending : gmap Z Z
}.

(** [pending.range(..=next).next_back()] *)
Definition later (p : Z * Z) (acc : option (Z * Z)) : option (Z * Z) :=
  match acc with
  | Some q => if q.1 <? p.1 then Some p else acc
  | None => Some p
  end.
Definition last_upto (next : Z) (m : gmap Z Z) : option (Z * Z) :=
  foldr later None (filter (λ p, p.1 <= next) (map_to_list m)).

(** The drain loop; each turn removes an entry of [pending]. *)
Fixpoint seam_drain (fuel : nat) (s : MaterializeSeam) (to_feed : list (Z * Z)) : MaterializeSeam * list (Z * Z) :=
  match fuel with
  | O => (s, to_feed)
  | S fuel =>
      match last_upto (ms_next s) (ms_pending s) with
      | None => (s, to_feed)
      | Some (pstart, pend) =>
          if ms_next s <? pstart then (s, to_feed)
          else
            let pending := delete pstart (ms_pending s) in
            if pend <? ms_next s then seam_drain fuel (mkSeam (ms_next s) pending) to_feed
            else seam_drain fuel (mkSeam (pend + 1) pending) (to_feed ++ [(ms_next s, pend)])
      end
  end.

(** [materialize_published] under the seam's lock: the ranges to feed. *)
Definition seam_admit (start end_ : Z) (s : MaterializeSeam) : MaterializeSeam * list (Z * Z) :=
  if end_ <? ms_next s then (s, [])
  else
    let eff_start := Z.max start (ms_next s) in
    let '(s, to_feed) :=
      if eff_start =? ms_next s then (mkSeam (end_ + 1) (ms_pending s), [(eff_start, end_)])
      else
        let e := default end_ (ms_pending s !! start) in
        (mkSeam (ms_next s) (<[start := Z.max e end_]> (ms_pending s)), []) in
    seam_drain (S (size (ms_pending s))) s to_feed.

(** The ranges fed by a sequence of calls. *)
Fixpoint seam_run (ranges : list (Z * Z)) (s : MaterializeSeam) : MaterializeSeam * list (Z * Z) :=
  match ranges with
  | [] => (s, [])
  | (start, end_) :: ranges =>
      let '(s, fed) := seam_admit start end_ s in
      let '(s, fed') := seam_run ranges s in (s, fed ++ fed')
  end.

(** ** The feed *)
Section feed.
Context {V : Type} `{!JsonNull V} `{!Serde V} (crc : bytes → Z).

(** The topic: its index, the seam and the writer with its stores. *)
Record SegTopic := mkSegTopic {
  sp_index : TopicIndex V;
  sp_seam : MaterializeSeam;
  sp_writer : SegmentWriter V;
  sp_tier : TopicTier
}.

(** Free the resident payload of a sealed seq. *)
Definition free_payload (r : StoredRecord V) : StoredRecord V :=
  if negb (r_deleted r) && r_payload_resident r
  then mkRecord (r_ts r) (r_node r) (r_tag r) json_null None (r_bytes r) (r_deleted r) false (r_hops r)
  else r.
Definition free_seq (ix : TopicIndex V) (seq : Z) : TopicIndex V :=
  if seq <? base_seq ix then ix
  else mkTopicIndex (base_seq ix) (alter free_payload (Z.to_nat (seq - base_seq ix)) (records ix)) (tag_index ix)
         (delete_below ix).

(** One record to the writer; [now] and [fault] are the clock and the outcome of the
    [put] at that append. *)
Definition feed_record (now : Z → Z) (fault : Z → PutFault) (acc : SegmentWriter V * TopicTier * list Z)
    (p : Z * StoredRecord V) : SegmentWriter V * TopicTier * list Z :=
  let '(w, t, sealed) := acc in
  let '(seq, r) := p in
  let '(w, t, seqs) :=
    append_record crc (now seq) (fault seq) seq (r_ts r) (r_node r) (r_tag r) (r_data r) (r_meta r) w t in
  (w, t, sealed ++ seqs).

(** [materialize_segment], with [evict_resident] on, as the writer is created *)
Definition materialize_segment (now : Z → Z) (fault : Z → PutFault) (start end_ : Z)
    (ix : TopicIndex V) (w : SegmentWriter V) (t : TopicTier) : TopicIndex V * SegmentWriter V * TopicTier :=
  let pending := omap (λ seq, pair seq <$> get ix seq) (seqZ start (end_ - start + 1)) in
  let '(w, t, sealed_seqs) := foldl (feed_record now fault) (w, t, []) pending in
  (foldl free_seq ix sealed_seqs, w, t).

Definition feed_range (now : Z → Z) (fault : Z → PutFault) (b : SegTopic) (range : Z * Z) : SegTopic :=
  let '(ix, w, t) := materialize_segment now fault range.1 range.2 (sp_index b) (sp_writer b) (sp_tier b) in
  mkSegTopic ix (sp_seam b) w t.

(** [materialize_published], when no other call runs between its two halves *)
Definition materialize_published (now : Z → Z) (fault : Z → PutFault) (b : SegTopic) (range : Z * Z) : SegTopic :=
  let '(seam, to_feed) := seam_admit range.1 range.2 (sp_seam b) in
  foldl (feed_range now fault) (mkSegTopic (sp_index b) seam (sp_writer b) (sp_tier b)) to_feed.

(** [attach_segwriter]: the records of the index are fed, and stay resident. *)
Definition attach_segwriter (now : Z → Z) (fault : Z → PutFault) (ix : TopicIndex V) (w : SegmentWriter V)
    (t : TopicTier) : SegTopic :=
  let '(w, t, _) := foldl (feed_record now fault) (w, t, []) (imap (λ i r, (base_seq ix + Z.of_nat i, r)) (records ix)) in
  mkSegTopic ix (mkSeam (base_seq ix + Z.of_nat (length (records ix))) ∅) w t.

(** A topic whose writer has not been fed yet. *)
Definition with_index (ix : TopicIndex V) (st : TopicSegs V) : SegTopic :=
  mkSegTopic ix (mkSeam (base_seq ix) ∅) (ts_writer st) (ts_tier st).

(** [resolve_payload], when no other operation runs between its captures of the writer's
    lock ([read_step] is a read that others interrupt): the served payload and the writer
    after the read.  What cannot be read is served as the slot has it. *)
Definition resolve_payload (fault : ReadFault) (seq : Z) (r : StoredRecord V) (w : SegmentWriter V) (t : TopicTier) :
    SegmentWriter V * (V * option V) :=
  if r_payload_resident r then (w, (r_data r, r_meta r))
  else
    match resolve_sealed crc fault w t seq with
    | (w, Some p) => (w, p)
    | (w, None) => (w, (r_data r, r_meta r))
    end.
End feed.
Arguments SegTopic : clear implicits.

(** ** The order of the feeds *)

(** Consecutive nonempty ranges from a seq, and the seq after them. *)
Fixpoint chain (next : Z) (ranges : list (Z * Z)) : Prop :=
  match ranges with
  | [] => True
  | (start, end_) :: ranges => start = next ∧ start <= end_ ∧ chain (end_ + 1) ranges
  end.
Fixpoint chain_end (next : Z) (ranges : list (Z * Z)) : Z :=
  match ranges with [] => next | (_, end_) :: ranges => chain_end (end_ + 1) ranges end.

Lemma last_upto_Some next m p : last_upto next m = Some p → m !! p.1 = Some p.2 ∧ p.1 <= next.
Proof.
  unfold last_upto. intros Hl. assert (Hin : p ∈ filter (λ p, p.1 <= next) (map_to_list m)).
  { revert p Hl. induction (filter _ _) as [|q l IH]; simpl; [done|]. intros p. unfold later at 1.
    destruct (foldr later None l) as [q'|]; [destruct (_ <? _)|]; intros [= <-]; [by left|right; by apply IH|by left]. }
  apply list_elem_of_filter in Hin as [? Hin]. split; [|done]. apply elem_of_map_to_list. by destruct p.
Qed.

Lemma last_upto_None next m k : last_upto next m = None → k <= next → m !! k = None.
Proof.
  unfold last_upto. intros Hl Hk. destruct (m !! k) as [v|] eqn:Hm; [exfalso|done].
  assert (Hin : (k, v) ∈ filter (λ p, p.1 <= next) (map_to_list m)) by (apply list_elem_of_filter; split; [done|by apply elem_of_map_to_list]).
  destruct (filter _ _) as [|q l]; [by apply not_elem_of_nil in Hin|]. simpl in Hl. unfold later at 1 in Hl.
  destruct (foldr later None l); [by destruct (_ <? _)|done].
Qed.

Lemma chain_app next a b : chain next (a ++ b) ↔ chain next a ∧ chain (chain_end next a) b.
Proof. revert next. induction a as [|[s e] a IH]; intros next; simpl; [tauto|]. rewrite IH. tauto. Qed.

Lemma chain_end_app next a b : chain_end next (a ++ b) = chain_end (chain_end next a) b.
Proof. revert next. induction a as [|[s e] a IH]; intros next; simpl; [done|]. apply IH. Qed.

Lemma chain_in next ranges k v : chain next ranges → (k, v) ∈ ranges → next <= k <= v.
Proof.
  revert next. induction ranges as [|[s e] ranges IH]; intros next Hc Hin; [by apply not_elem_of_nil in Hin|].
  destruct Hc as (-> & Hle & Hc). apply elem_of_cons in Hin as [[= -> ->]|Hin]; [lia|]. specialize (IH _ Hc Hin). lia.
Qed.

(** The range of a chain that starts at its first seq is the first one. *)
Lemma chain_first next ranges v : chain next ranges → (next, v) ∈ ranges → ∃ rest, ranges = (next, v) :: rest ∧ chain (v + 1) rest.
Proof.
  destruct ranges as [|[s e] ranges]; intros Hc Hin; [by apply not_elem_of_nil in Hin|]. destruct Hc as (-> & Hle & Hc).
  apply elem_of_cons in Hin as [[= ->]|Hin]; [by exists ranges|]. pose proof (chain_in _ _ _ _ Hc Hin). lia.
Qed.

Lemma chain_nodup next ranges : chain next ranges → NoDup ranges.*1.
Proof.
  revert next. induction ranges as [|[s e] ranges IH]; intros next Hc; [constructor|]. destruct Hc as (-> & Hle & Hc).
  apply NoDup_cons. split; [|by eapply IH]. intros ([k v] & Heq & Hin)%list_elem_of_fmap.
  pose proof (chain_in _ _ _ _ Hc Hin). simpl in Heq. lia.
Qed.

Lemma drain_spec fuel s to_feed rest others :
  chain (ms_next s) rest → rest ≡ₚ map_to_list (ms_pending s) ++ others → (size (ms_pending s) < fuel)%nat →
  ∃ s' fed rest', seam_drain fuel s to_feed = (s', to_feed ++ fed) ∧ rest = fed ++ rest' ∧
    ms_next s' = chain_end (ms_next s) fed ∧ rest' ≡ₚ map_to_list (ms_pending s') ++ others ∧
    ms_pending s' !! ms_next s' = None.
Proof.
  revert s to_feed rest. induction fuel as [|fuel IH]; intros s to_feed rest Hc Hp Hf; [lia|]. simpl.
  destruct (last_upto (ms_next s) (ms_pending s)) as [[k v]|] eqn:Hl.
  2:{ exists s, [], rest. rewrite app_nil_r. split_and!; [done..|]. by eapply last_upto_None. }
  apply last_upto_Some in Hl as [Hk Hle]. simpl in Hk, Hle.
  assert (Hin : (k, v) ∈ rest) by (rewrite Hp; apply elem_of_app; left; by apply elem_of_map_to_list).
  pose proof (chain_in _ _ _ _ Hc Hin) as Hkv. assert (k = ms_next s) as -> by lia.
  rewrite (proj2 (Z.ltb_ge _ _)), (proj2 (Z.ltb_ge _ _)) by lia.
  destruct (chain_first _ _ _ Hc Hin) as (rest1 & -> & Hc1).
  destruct (IH (mkSeam (v + 1) (delete (ms_next s) (ms_pending s))) (to_feed ++ [(ms_next s, v)]) rest1)
    as (s' & fed & rest' & -> & -> & Hn & Hp' & Hnone); simpl.
  - done.
  - rewrite <-(map_to_list_delete _ _ _ Hk) in Hp. simpl in Hp. by apply Permutation.Permutation_cons_inv in Hp.
  - rewrite map_size_delete, Hk. simpl. assert (size (ms_pending s) ≠ 0%nat); [|lia]. intros H0%map_size_empty_inv. by rewrite H0, lookup_empty in Hk.
  - exists s', ((ms_next s, v) :: fed), rest'. rewrite <-(assoc_L (++)). by split_and!.
Qed.

Lemma admit_spec s start end_ rest others :
  chain (ms_next s) rest → rest ≡ₚ map_to_list (ms_pending s) ++ (start, end_) :: others →
  ms_pending s !! ms_next s = None → 
  ∃ s' fed rest', seam_admit start end_ s = (s', fed) ∧ rest = fed ++ rest' ∧ ms_next s' = chain_end (ms_next s) fed ∧
    rest' ≡ₚ map_to_list (ms_pending s') ++ others ∧ ms_pending s' !! ms_next s' = None.
Proof.
  intros Hc Hp Hnone. assert (Hin : (start, end_) ∈ rest) by (rewrite Hp; set_solver).
  pose proof (chain_in _ _ _ _ Hc Hin) as Hse. unfold seam_admit. rewrite (proj2 (Z.ltb_ge _ _)), Z.max_l by lia.
  assert (Hp' : rest ≡ₚ (start, end_) :: map_to_list (ms_pending s) ++ others) by (rewrite Hp; by rewrite Permutation_middle).
  destruct (Z.eqb_spec start (ms_next s)) as [->|Hne].
  - destruct (chain_first _ _ _ Hc Hin) as (rest1 & -> & Hc1). apply Permutation.Permutation_cons_inv in Hp'.
    destruct (drain_spec (S (size (ms_pending s))) (mkSeam (end_ + 1) (ms_pending s)) [(ms_next s, end_)] rest1 others)
      as (s' & fed & rest' & Hd & -> & ?); simpl; [done|done|lia|]. exists s', ((ms_next s, end_) :: fed), rest'. by split_and!; try tauto.
  - assert (Hs : ms_pending s !! start = None).
    { destruct (ms_pending s !! start) as [v|] eqn:Hv; [exfalso|done]. apply elem_of_map_to_list in Hv.
      pose proof (chain_nodup _ _ Hc) as Hnd. rewrite Hp', fmap_cons in Hnd. apply NoDup_cons in Hnd as [Hnd _].
      apply Hnd, list_elem_of_fmap. exists (start, v). split; [done|]. apply elem_of_app. by left. }
    rewrite Hs. simpl. rewrite Z.max_id.
    destruct (drain_spec (S (size (<[start := end_]> (ms_pending s)))) (mkSeam (ms_next s) (<[start := end_]> (ms_pending s))) [] rest others)
      as (s' & fed & rest' & Hd & -> & ?); simpl; [done|by rewrite map_to_list_insert|lia|]. exists s', fed, rest'. by split_and!; try tauto.
Qed.

Lemma run_spec ranges s rest :
  chain (ms_next s) rest → rest ≡ₚ map_to_list (ms_pending s) ++ ranges → ms_pending s !! ms_next s = None →
  seam_run ranges s = (mkSeam (chain_end (ms_next s) rest) ∅, rest).
Proof.
  revert s rest. induction ranges as [|[start end_] ranges IH]; intros s rest Hc Hp Hn.
  - rewrite app_nil_r in Hp. destruct rest as [|[k v] rest].
    + simpl. apply Permutation_nil_l, eq_sym, map_to_list_empty_iff in Hp. destruct s as [n m]. simpl in *. by subst.
    + exfalso. destruct Hc as (-> & _). assert (Hin : (ms_next s, v) ∈ map_to_list (ms_pending s)) by (rewrite <-Hp; by left).
      apply elem_of_map_to_list in Hin. congruence.
  - destruct (admit_spec s start end_ rest ranges Hc Hp Hn) as (s' & fed & rest' & Hadm & -> & Hnx & Hp' & Hn').
    apply chain_app in Hc as [_ Hc]. rewrite <-Hnx in Hc. simpl. rewrite Hadm, (IH s' rest' Hc Hp' Hn').
    by rewrite chain_end_app, Hnx.
Qed.

(** The seam restores the order of the published ranges: calls for the
    consecutive ranges of a topic, each made once and in any order, feed exactly
    these ranges in seq order; nothing stays buffered and the cursor is after the
    last one. *)
Theorem seam_restores_order next ranges calls :
  chain next ranges → calls ≡ₚ ranges →
  seam_run calls (mkSeam next ∅) = (mkSeam (chain_end next ranges) ∅, ranges).
Proof. intros Hc Hp. by apply run_spec; rewrite ?map_to_list_empty. Qed.

(** ** The payloads *)
Section payloads.
Context {V : Type} `{!JsonNull V} `{!Serde V} (crc : bytes → Z).
Hypothesis crc_u64 : ∀ b, is_u64 (crc b).
Context (size : Z) (cfg : SegmentConfig) (now : Z → Z) (fault : Z → PutFault).
Hypothesis cfg_ok : config_ok size cfg.

(** The records as they were appended, from [base] on. *)
Context (base : Z) (recs : list (StoredRecord V)).
Definition stored_at (seq : Z) (r : StoredRecord V) : SegmentRecord :=
  record_of seq (r_ts r) (r_node r) (r_tag r) (r_data r) (r_meta r).
Hypothesis recs_ok : ∀ (i : nat) r, recs !! i = Some r → r_payload_resident r = true ∧ frame_fits crc size (stored_at (base + Z.of_nat i) r).

(** A slot holds its payload, or was freed after its segment was registered. *)
Definition slots_ok (ix : TopicIndex V) (w : SegmentWriter V) : Prop :=
  base_seq ix = base ∧ length (records ix) = length recs ∧
  ∀ (i : nat) r, recs !! i = Some r → records ix !! i = Some r ∨
    (records ix !! i = Some (free_payload r) ∧ registered w (base + Z.of_nat i)).
Definition fed_upto (w : SegmentWriter V) (t : TopicTier) (next : Z) : Prop :=
  ∃ L, writer_inv crc size cfg w t L ∅ next ∧
    ∀ (i : nat) r, recs !! i = Some r → base + Z.of_nat i < next → L !! (base + Z.of_nat i) = Some (stored_at (base + Z.of_nat i) r).
Definition topic_inv (b : SegTopic V) (next : Z) : Prop :=
  slots_ok (sp_index b) (sp_writer b) ∧ fed_upto (sp_writer b) (sp_tier b) next.

Lemma seal_keeps f (w : SegmentWriter V) t : let '(w', _, _) := seal_active crc f w t in ∀ s, registered w s → registered w' s.
Proof.
  unfold seal_active. destruct (sw_active w) as [b|]; [|done]. destruct (_ =? 0)%nat; [done|].
  assert (Hk : ∀ seg c cc s, registered w s → registered (set_sealed (set_active w None 0) (sw_sealed w ++ [seg]) c cc) s).
  { intros seg c cc s (sg & Hin & Hr). exists sg. split; [|done]. simpl. apply elem_of_app. by left. }
  destruct (resolve t (sb_start_seq b)) as [tr|]; [intros s; apply Hk|].
  destruct (store_put f (tt_hot t) _ _ _) as [hot ok]. destruct ok; [intros s; apply Hk|done].
Qed.

Lemma append_keeps n f seq ts node tag data meta (w : SegmentWriter V) t :
  let '(w', _, _) := append_record crc n f seq ts node tag data meta w t in ∀ s, registered w s → registered w' s.
Proof.
  unfold append_record. set (g := _ || _). destruct g; [|by destruct (sw_active w)].
  pose proof (seal_keeps f w t) as Hk. destruct (seal_active crc f w t) as [[w' t'] seqs]. by destruct (sw_active w').
Qed.

(** The records not yet fed are resident. *)
Lemma slot_unfed ix w t next (i : nat) r :
  slots_ok ix w → fed_upto w t next → recs !! i = Some r → next <= base + Z.of_nat i → get ix (base + Z.of_nat i) = Some r.
Proof.
  intros (Hb & Hlen & Hs) (L & Hinv & _) Hi Hn. unfold get. rewrite Hb, (proj2 (Z.ltb_ge _ _)) by lia.
  replace (Z.to_nat (base + Z.of_nat i - base)) with i by lia. destruct (Hs i r Hi) as [?|[_ (seg & Hin & Hr)]]; [done|exfalso].
  pose proof (iv_below _ _ _ _ _ _ _ _ Hinv seg Hin). pose proof (front_le crc size cfg w t L ∅ next Hinv). lia.
Qed.

Lemma feed_spec (n : nat) ix : ∀ w t acc next,
  fed_upto w t next →
  (∀ j, (j < n)%nat → ∃ (i : nat) r, recs !! i = Some r ∧ base + Z.of_nat i = next + Z.of_nat j ∧ get ix (next + Z.of_nat j) = Some r) →
  let '(w', t', sealed) :=
    foldl (feed_record crc now fault) (w, t, acc) (omap (λ seq, pair seq <$> get ix seq) (seqZ next (Z.of_nat n))) in
  fed_upto w' t' (next + Z.of_nat n) ∧ (∀ s, registered w s → registered w' s) ∧
  (∀ s, s ∈ sealed → s ∈ acc ∨ registered w' s).
Proof.
  induction n as [|n IH]; intros w t acc next Hfed Hrecs.
  { simpl. rewrite Z.add_0_r. split_and!; [done|done|by left]. }
  rewrite Nat2Z.inj_succ, seqZ_cons, Z.pred_succ by lia. cbn [omap list_omap].
  destruct (Hrecs 0%nat ltac:(lia)) as (i & r & Hi & Hbi & Hg). rewrite Z.add_0_r in Hbi, Hg. rewrite Hg. cbn [fmap option_fmap option_map foldl].
  destruct Hfed as (L & Hinv & HL). destruct (recs_ok i r Hi) as [_ Hok]. rewrite Hbi in Hok.
  pose proof (append_inv crc size crc_u64 cfg (now next) (fault next) next (r_ts r) (r_node r) (r_tag r) (r_data r) (r_meta r)
    w t L ∅ next cfg_ok Hinv ltac:(lia) Hok) as Ha.
  pose proof (append_keeps (now next) (fault next) next (r_ts r) (r_node r) (r_tag r) (r_data r) (r_meta r) w t) as Hk.
  unfold feed_record at 2. destruct (append_record crc _ _ _ _ _ _ _ _ w t) as [[w1 t1] seqs]. destruct Ha as (Hinv1 & Hreg & _).
  specialize (IH w1 t1 (acc ++ seqs) (next + 1)).
  replace (Z.succ next) with (next + 1) by lia. replace (next + Z.succ (Z.of_nat n)) with (next + 1 + Z.of_nat n) by lia.
  destruct (foldl _ (w1, t1, acc ++ seqs) _) as [[w2 t2] sealed]. destruct IH as (Hf2 & Hk2 & Hs2).
  - exists (<[next := stored_at next r]> L). split; [exact Hinv1|]. intros i' r' Hi' Hlt.
    destruct (decide (base + Z.of_nat i' = next)) as [Heq|Hne].
    + rewrite Heq, lookup_insert_eq. assert (i' = i) as -> by lia. by simplify_eq.
    + rewrite lookup_insert_ne by done. apply HL; [done|lia].
  - intros j Hj. destruct (Hrecs (S j) ltac:(lia)) as (i' & r' & ? & ? & Hg'). exists i', r'.
    replace (next + 1 + Z.of_nat j) with (next + Z.of_nat (S j)) by lia. done.
  - split_and!; [done|by auto|]. intros s' [[?|?]%elem_of_app|?]%Hs2; [by left|right; by apply Hk2, Hreg|by right].
Qed.

Lemma free_payload_idem (r : StoredRecord V) : free_payload (free_payload r) = free_payload r.
Proof. unfold free_payload. destruct (negb (r_deleted r) && r_payload_resident r) eqn:E; simpl; [|by rewrite E]. by rewrite andb_false_r. Qed.

Lemma free_spec sealed ix w : (∀ s, s ∈ sealed → registered w s) → slots_ok ix w → slots_ok (foldl free_seq ix sealed) w.
Proof.
  revert ix. induction sealed as [|s sealed IH]; intros ix Hreg Hs; [done|]. simpl. apply IH; [intros; apply Hreg; by right|].
  destruct Hs as (Hb & Hlen & Hs). unfold free_seq. destruct (Z.ltb_spec s (base_seq ix)); [done|]. split_and!; simpl; [done|by rewrite length_alter|].
  intros i r Hi. rewrite Hb in *. destruct (decide (Z.to_nat (s - base) = i)) as [<-|Hne]; [|rewrite list_lookup_alter_ne by done; by apply Hs].
  rewrite list_lookup_alter_eq. right. replace (base + Z.of_nat (Z.to_nat (s - base))) with s by lia. split; [|apply Hreg; by left].
  destruct (Hs _ r Hi) as [->|[-> _]]; simpl; [done|]. by rewrite free_payload_idem.
Qed.

Lemma slots_mono ix w w' : (∀ s, registered w s → registered w' s) → slots_ok ix w → slots_ok ix w'.
Proof. intros Hk (Hb & Hlen & Hs). split_and!; [done..|]. intros i r Hi. destruct (Hs i r Hi) as [?|[? ?]]; auto. Qed.

Lemma feed_range_inv b next end_ :
  topic_inv b next → base <= next <= end_ → end_ < base + Z.of_nat (length recs) →
  topic_inv (feed_range crc now fault b (next, end_)) (end_ + 1).
Proof.
  intros [Hs Hf] Hne Hlen. unfold feed_range, materialize_segment. cbn [fst snd].
  replace (end_ - next + 1) with (Z.of_nat (Z.to_nat (end_ - next + 1))) by lia.
  pose proof (feed_spec (Z.to_nat (end_ - next + 1)) (sp_index b) (sp_writer b) (sp_tier b) [] next Hf) as Hfeed.
  destruct (foldl _ _ _) as [[w t] sealed]. destruct Hfeed as (Hf' & Hk & Hreg).
  - intros j Hj. destruct (lookup_lt_is_Some_2 recs (Z.to_nat (next - base) + j) ltac:(lia)) as [r Hr].
    exists (Z.to_nat (next - base) + j)%nat, r. split_and!; [done|lia|].
    replace (next + Z.of_nat j) with (base + Z.of_nat (Z.to_nat (next - base) + j)) by lia. eapply slot_unfed; [done..|lia].
  - split; simpl; [|by replace (end_ + 1) with (next + Z.of_nat (Z.to_nat (end_ - next + 1))) by lia].
    apply free_spec; [|by eapply slots_mono]. intros s [?|?]%Hreg; [set_solver|done].
Qed.

Lemma feed_ranges_inv ranges : ∀ b next,
  topic_inv b next → base <= next → chain next ranges → chain_end next ranges <= base + Z.of_nat (length recs) →
  topic_inv (foldl (feed_range crc now fault) b ranges) (chain_end next ranges).
Proof.
  assert (Hmono : ∀ l n, chain n l → n <= chain_end n l).
  { induction l as [|[s e] l IH]; intros n; simpl; [lia|]. intros (-> & ? & Hc). specialize (IH _ Hc). lia. }
  induction ranges as [|[s e] ranges IH]; intros b next Hb Hle Hc Hend; [done|]. destruct Hc as (-> & Hse & Hc). simpl in *.
  specialize (Hmono _ _ Hc). apply IH; [|lia|done|done]. apply feed_range_inv; [done|lia|lia].
Qed.

(** Running the calls is feeding what the seam admits. *)
Definition set_seam (b : SegTopic V) (s : MaterializeSeam) : SegTopic V := mkSegTopic (sp_index b) s (sp_writer b) (sp_tier b).

Lemma feed_set_seam fed b s : foldl (feed_range crc now fault) (set_seam b s) fed = set_seam (foldl (feed_range crc now fault) b fed) s.
Proof.
  revert b. induction fed as [|r fed IH]; intros b; [done|]. simpl. rewrite <-IH. f_equal. unfold feed_range. simpl.
  by destruct (materialize_segment crc now fault _ _ _ _ _) as [[ix w] t].
Qed.

Lemma published_runs calls b :
  foldl (materialize_published crc now fault) b calls =
    let '(s, fed) := seam_run calls (sp_seam b) in set_seam (foldl (feed_range crc now fault) b fed) s.
Proof.
  revert b. induction calls as [|[start end_] calls IH]; intros b; [by destruct b|]. cbn [foldl seam_run]. rewrite IH.
  unfold materialize_published. cbn [fst snd]. destruct (seam_admit start end_ (sp_seam b)) as [s fed].
  fold (set_seam b s). rewrite feed_set_seam. cbn [sp_seam set_seam]. destruct (seam_run calls s) as [s' fed'].
  by rewrite foldl_app, feed_set_seam.
Qed.

(** C17. Every record resolves to the payload it was appended with.  Take a topic whose
    records fit the segment format and a configuration whose byte or event trigger keeps a
    segment of them below 4 GiB, and let the calls of [materialize_published] for its
    consecutive ranges run one after the other, each to its end, in any order and with any
    [put] failures.  Then each record of the index serves its data and meta, whether its
    payload stayed resident or was freed and is read back from the caches or the segment
    files; a read of the files that fails serves null instead, and nothing else. *)
Theorem materialized_payloads_resolve `{!SerdeLaws V} has_cold tags below ranges calls (i : nat) r :
  chain base ranges → chain_end base ranges = base + Z.of_nat (length recs) → calls ≡ₚ ranges → recs !! i = Some r →
  let b := foldl (materialize_published crc now fault)
    (with_index (mkTopicIndex base recs tags below) (segs_new cfg has_cold)) calls in
  let served f r' := (resolve_payload crc f (base + Z.of_nat i) r' (sp_writer b) (sp_tier b)).2 in
  ∃ r', get (sp_index b) (base + Z.of_nat i) = Some r' ∧ served ReadOk r' = (r_data r, r_meta r) ∧
    ∀ f, served f r' = (r_data r, r_meta r) ∨ served f r' = (json_null, None).
Proof.
  intros Hc Hend Hp Hi. cbv zeta. rewrite published_runs. set (b0 := with_index _ _). change (sp_seam b0) with (mkSeam base ∅).
  rewrite (run_spec calls (mkSeam base ∅) ranges) by (by rewrite ?map_to_list_empty). simpl.
  assert (Hb0 : topic_inv b0 base).
  { split; [split_and!; simpl; [done|done|by left]|]. exists ∅. split; [apply (segs_new_inv crc size crc_u64 cfg has_cold base)|intros; lia]. }
  destruct (feed_ranges_inv ranges b0 base Hb0 ltac:(lia) Hc ltac:(lia)) as [(Hb & Hlen & Hs) (L & Hinv & HL)].
  set (b := foldl _ b0 ranges) in *. unfold get. rewrite Hb, (proj2 (Z.ltb_ge _ _)) by lia.
  replace (Z.to_nat (base + Z.of_nat i - base)) with i by lia. destruct (recs_ok i r Hi) as [Hres _]. unfold resolve_payload.
  destruct (Hs i r Hi) as [->|[-> (seg & Hin & Hr)]]; [exists r; split; [done|]; rewrite Hres; auto|]. eexists. split; [done|].
  pose proof (lookup_lt_Some _ _ _ Hi). unfold free_payload. destruct (_ && _); simpl; [|rewrite Hres; auto].
  pose proof (λ f, resolve_sealed_spec crc size crc_u64 f _ _ _ _ _ _ seg _ Hinv Hin Hr) as Hspec.
  rewrite (HL i r Hi) in Hspec by lia. setoid_rewrite (inj_iff Some) in Hspec. split.
  - destruct (Hspec ReadOk) as (rec & <- & _ & Hok). specialize (Hok eq_refl ltac:(set_solver)). simpl in Hok.
    rewrite decode_payload_encode in Hok. by destruct (resolve_sealed crc _ _ _ _) as [w' [p|]]; simplify_eq/=.
  - intros f. destruct (Hspec f) as (rec & <- & Hany & _). simpl in Hany. rewrite decode_payload_encode in Hany.
    destruct (resolve_sealed crc f _ _ _) as [w' [p|]]; simpl in *; [left|by right]. by destruct Hany as [?|[= ->]].
Qed.
End payloads.

(** ** Samples *)
Module SeamSamples.
Import JsonSample SegmentSamples.

Definition slot (v : Json) : StoredRecord Json := mkRecord 10 None None v None 8 false true 0.
Definition cfg2 : SegmentConfig := mkSegConfig 2 0 0 0 0.
Lemma cfg2_ok : config_ok 1000 cfg2.
Proof. unfold config_ok. simpl. lia. Qed.
Definition three : TopicIndex Json := mkTopicIndex 1 [slot (JNumber 7); slot (JString "b"); slot (JNumber 9)] ∅ 0.
Definition clock : Z → Z := λ _, 10.
Definition puts : Z → PutFault := λ _, PutOk.

Lemma seam_restores_order_witness :
  seam_run [(4, 6); (2, 3); (1, 1)] (mkSeam 1 ∅) = (mkSeam 7 ∅, [(1, 1); (2, 3); (4, 6)]).
Proof.
  apply (seam_restores_order 1 [(1, 1); (2, 3); (4, 6)]); [repeat split; lia|].
  apply (Permutation_rev [(4, 6); (2, 3); (1, 1)]).
Defined.

Lemma materialized_payloads_resolve_witness :
  let b := foldl (materialize_published len_crc clock puts) (with_index three (segs_new cfg2 false)) [(3, 3); (2, 2); (1, 1)] in
  let served f r := (resolve_payload len_crc f 2 r (sp_writer b) (sp_tier b)).2 in
  ∃ r, get (sp_index b) 2 = Some r ∧ served ReadOk r = (JString "b", None) ∧
    ∀ f, served f r = (JString "b", None) ∨ served f r = (JNull, None).
Proof.
  apply (materialized_payloads_resolve len_crc len_crc_u64 1000 cfg2 clock puts cfg2_ok 1 (records three)) with
    (ranges := [(1, 1); (2, 2); (3, 3)]) (i := 1%nat) (r := slot (JString "b")).
  - intros [|[|[|i]]] r [= <-]; (split; [done|]); by repeat split; vm_compute.
  - apply _.
  - repeat split; lia.
  - done.
  - apply (Permutation_rev [(3, 3); (2, 2); (1, 1)]).
  - done.
Defined.

(** The writer once enough other payloads have passed its bounded caches. *)
Definition caches_passed (w : SegmentWriter Json) : SegmentWriter Json := set_sealed w (sw_sealed w) [] [].
Definition served (seq : Z) (b : SegTopic Json) : option (Json * option Json) :=
  (λ r, (resolve_payload len_crc ReadOk seq r (caches_passed (sp_writer b)) (sp_tier b)).2) <$> get (sp_index b) seq.

(** Two calls admit their ranges in order but feed the writer in the other order,
    since the feed runs off the seam's lock: the segments are registered out of seq
    order, the freed payload of record 2 is not found, and its reader gets null. *)
Example unlocked_feed_loses_payload :
  let '(s1, feed_a) := seam_admit 1 1 (mkSeam 1 ∅) in
  let '(s2, feed_b) := seam_admit 2 2 s1 in
  let b := foldl (feed_range len_crc clock puts) (set_seam (with_index three (segs_new cfg2 false)) s2) (feed_b ++ feed_a) in
  let b := materialize_published len_crc clock puts b (3, 3) in
  (feed_a, feed_b) = ([(1, 1)], [(2, 2)]) ∧ served 2 b = Some (JNull, None).
Proof. by vm_compute. Qed.

(** A seal takes a segment of its first seq that is already on disk for its own.
    Here a byte cap sealed [1..1]; after a restart record 1 is a deleted slot, the cap
    is reached at record 3 and the seal of [1..3] keeps the old files: record 3 is
    freed although no segment holds it. *)
Definition byte_cfg : SegmentConfig := mkSegConfig 100 200 0 0 0.
Definition before_restart : SegTopic Json :=
  foldl (materialize_published len_crc clock puts)
    (with_index (mkTopicIndex 1 [slot (JString "a long enough payload"); slot (JNumber 2)] ∅ 0) (segs_new byte_cfg false))
    [(1, 1); (2, 2)].
Definition restarted : SegTopic Json :=
  attach_segwriter len_crc clock puts (mkTopicIndex 1 [clear_slot (slot (JString "a long enough payload")); slot (JNumber 2)] ∅ 0)
    (writer_new byte_cfg) (sp_tier before_restart).
Definition after_restart : SegTopic Json :=
  foldl (λ b seq, materialize_published len_crc clock puts
    (mkSegTopic (push_record (sp_index b) (slot (JNumber seq))) (sp_seam b) (sp_writer b) (sp_tier b)) (seq, seq))
    restarted [3; 4].
Example reused_segment_loses_payload :
  segment_for (sp_writer before_restart) 1 ≠ None ∧ served 3 after_restart = Some (JNull, None) ∧
  served 4 after_restart = Some (JNumber 4, None).
Proof. by vm_compute. Qed.
End SeamSamples.
