(* ===== verification/Reclaim.v ===== *)
(** * Topics over their segments

    Models the methods of [TopicState] ([src/engine/topic_state.rs]) for a topic that has
    a segment writer, where [TopicState] models one without: [publish_staged] with the
    materialization ([Seam]), [enforce_retention], [apply_delete_stats] and
    [delete_seqs_stats] with [reclaim_segments], which unlinks the segments whose records
    are all dead, and [flag_sealed_deletes], which flips the delete flags of the others;
    [apply_ondisk_segment_deletes_on_recovery] and [reclaim_segments_on_recovery];
    [forward_lookup] and [resolve_sealed_off_lock], the reads of a router and of a snapshot.

    [segments_transparent] shows that the segments change nothing a reader sees unless a
    read fails: over any sequence of operations, reads, relocation steps and I/O failures,
    the topic over its segments serves what the topic that keeps everything in memory
    does, and a read that fails or is interrupted serves that record with a null payload.
    [ondisk_deletes_recovered] is the part of a restart. *)

From stdpp Require Import base gmap list strings list_numbers.
From S2P Require Import Prelude Types Bytes Eviction TopicIndex Segment Json SegWriter Seam QueueProjection TopicState TopicLog.

(** ** Operations *)
Section operations.
Context {V : Type} `{!JsonNull V} `{!Serde V} (crc : bytes → Z).
Implicit Types (b : TopicState V) (ix : TopicIndex V) (w : SegmentWriter V) (t : TopicTier).

(** [reclaim_segments]: the sealed segments that are all dead, and their drop. *)
Definition seg_dead b (seg : SealedSegment) : bool :=
  (sl_end_seq seg <? earliest_seq b) || range_all_dead (b_index b) (sl_start_seq seg) (sl_end_seq seg).
Definition drop_segments (dels : Z → DelFaults) (ids : list Z) w t : SegmentWriter V * TopicTier :=
  foldl (λ wt id, drop_segment (dels id) id wt.1 wt.2) (w, t) ids.
Definition reclaim_segments (dels : Z → DelFaults) b w t : SegmentWriter V * TopicTier :=
  drop_segments dels (sl_start_seq <$> filter (λ seg, seg_dead b seg = true) (sw_sealed w)) w t.

(** [flag_sealed_deletes]; [flags] is what the flip of each seq does. *)
Definition flag_sealed_deletes (flags : Z → FlagFault) (seqs : list Z) w t : SegmentWriter V * TopicTier :=
  foldl (λ wt seq, (flag_sealed_deleted (flags seq) seq wt.1 wt.2).1) (w, t) seqs.

(** The [deleted_seqs] of the delete paths: the seqs the marking cleared. *)
Fixpoint marked_seqs ix (seqs : list Z) : list Z :=
  match seqs with
  | [] => []
  | s :: seqs =>
      match mark_deleted ix s with
      | (ix, Some _) => s :: marked_seqs ix seqs
      | (ix, None) => marked_seqs ix seqs
      end
  end.

(** [enforce_retention] *)
Definition enforce_retention_seg b (now_ms : Z) (dels : Z → DelFaults) w t :
    TopicState V * RetentionAdvance * (SegmentWriter V * TopicTier) :=
  let c := b_config b in
  if b_head_seq b =? 0 then (b, no_advance, (w, t))
  else if (cfg_ttl_ms c =? 0) && (cfg_cap_records c =? 0) && (cfg_cap_bytes c =? 0)
  then (b, no_advance, (w, t))
  else
    let plan := plan_retention b now_ms in
    let b1 := if ra_floor_advanced plan then with_floors b (commit_floors (b_floors b) plan) else b in
    let wt := if ra_floor_advanced plan then reclaim_segments dels b1 w t else (w, t) in
    let '(b2, freed) := reclaim_front b1 (b_head_seq b) in
    (b2, mkAdvance (ra_floor_advanced plan) (ra_durable_advance plan) (ra_evict_floor plan)
           (ra_expiry_floor plan) freed, wt).

(** What the files do during a delete: the unlinks of its retention pass, those of the
    segments it empties, and its flips. *)
Record DeleteFault := mkDelFault {
  df_retain : Z → DelFaults;
  df_drop : Z → DelFaults;
  df_flags : Z → FlagFault
}.

(** [apply_delete_stats] *)
Definition apply_delete_seg b (before_seq : option Z) (match_ : option Filter) (bound_head : option Z)
    (now_ms : Z) (f : DeleteFault) w t : TopicState V * DeleteStats * (SegmentWriter V * TopicTier) :=
  let '(b, retention, (w, t)) := enforce_retention_seg b now_ms (df_retain f) w t in
  let head := b_head_seq b in
  let bound := delete_bound b before_seq bound_head in
  let victims := delete_victims b match_ bound in
  let deleted_seqs := marked_seqs (b_index b) victims in
  let '(ix, freed, deleted) := mark_all (b_index b) victims 0 0 in
  let ix := match match_, before_seq with
            | None, Some _ => raise_delete_below ix bound
            | _, _ => ix
            end in
  let b := subtract_counts (TopicState.with_index b ix) freed deleted in
  let b := with_floors b (raise_delete_floor (b_floors b) (delete_below ix)) in
  let '(b, front_freed) := reclaim_front b head in
  let '(w, t) := reclaim_segments (df_drop f) b w t in
  (b, mkDeleteStats deleted ((ra_bytes_reclaimed retention +s freed) +s front_freed),
   flag_sealed_deletes (df_flags f) deleted_seqs w t).

(** [delete_seqs_stats] *)
Definition delete_seqs_seg b (seqs : list Z) (f : DeleteFault) w t :
    TopicState V * DeleteStats * (SegmentWriter V * TopicTier) :=
  let head := b_head_seq b in
  let deleted_seqs := marked_seqs (b_index b) seqs in
  let '(ix, freed, deleted) := mark_all (b_index b) seqs 0 0 in
  let b := subtract_counts (TopicState.with_index b ix) freed deleted in
  let '(b, front_freed) := reclaim_front b head in
  let '(w, t) := reclaim_segments (df_drop f) b w t in
  (b, mkDeleteStats deleted (freed +s front_freed), flag_sealed_deletes (df_flags f) deleted_seqs w t).

(** ** The topic with its writer *)
Record SegBox := mkBox {
  bx_topic : TopicState V;
  bx_seam : MaterializeSeam;
  bx_segs : TopicSegs V
}.

(** [materialize_published] on the topic. *)
Definition materialize_box (now : Z → Z) (fault : Z → PutFault) (range : Z * Z) (x : SegBox) : SegBox :=
  let '(mkSegs w t rl rs) := bx_segs x in
  let p := materialize_published crc now fault (mkSegTopic (b_index (bx_topic x)) (bx_seam x) w t) range in
  mkBox (TopicState.with_index (bx_topic x) (sp_index p)) (sp_seam p) (mkSegs (sp_writer p) (sp_tier p) rl rs).

(** [append]: stage, publish and materialize. *)
Definition append_box (recs : list (StoredRecord V)) (now_ms : Z) (now : Z → Z) (fault : Z → PutFault)
    (x : SegBox) : SegBox :=
  let '(b, s) := stage_append (bx_topic x) recs in
  if staged_is_empty s then mkBox b (bx_seam x) (bx_segs x)
  else
    let '(b, range) := publish_staged_no_seal b s now_ms in
    let x := mkBox b (bx_seam x) (bx_segs x) in
    match range with Some range => materialize_box now fault range x | None => x end.

(** [note_source_trim] *)
Definition source_trim_box (now : Z → Z) (fault : Z → PutFault) (x : SegBox) : SegBox :=
  let hole_seq := tail_seq (b_index (bx_topic x)) in
  materialize_box now fault (hole_seq, hole_seq)
    (mkBox (note_source_trim (bx_topic x)) (bx_seam x) (bx_segs x)).

(** [apply_ondisk_segment_deletes_on_recovery]; [f] and [reads] are the outcomes of the
    listings and the reads of the scan. *)
Definition apply_ondisk_segment_deletes_on_recovery (f : ListFault) (reads : Z → bool) b t : TopicState V :=
  match scan_ondisk_deleted crc f reads t with
  | [] => b
  | flagged =>
      let head := b_head_seq b in
      let '(ix, freed_bytes, deleted) := mark_all (b_index b) flagged 0 0 in
      (reclaim_front (subtract_counts (TopicState.with_index b ix) freed_bytes deleted) head).1
  end.

(** What the files do during the reclaim of a restart. *)
Record RecoveryFault := mkRecFault {
  rv_scan : ListFault;
  rv_reads : Z → bool;
  rv_drop : Z → DelFaults;
  rv_orphans : ListFault;
  rv_unlink : Z → DelFaults
}.

(** [reclaim_segments_on_recovery]: the topic, its segments, and the orphans dropped. *)
Definition reclaim_segments_on_recovery (f : RecoveryFault) b w t : TopicState V * SegmentWriter V * TopicTier * nat :=
  let b := apply_ondisk_segment_deletes_on_recovery (rv_scan f) (rv_reads f) b t in
  let '(w, t) := reclaim_segments (rv_drop f) b w t in
  let '(t, orphans) := reclaim_orphans_below (rv_orphans f) (rv_unlink f) (base_seq (b_index b)) w t in
  (b, w, t, orphans).

(** The operations of a running topic. *)
Inductive BoxOp :=
  | BAppend (recs : list (StoredRecord V)) (now_ms : Z) (now : Z → Z) (fault : Z → PutFault)
  | BRetention (now_ms : Z) (dels : Z → DelFaults)
  | BDelete (before_seq : option Z) (match_ : option Filter) (bound_head : option Z) (now_ms : Z) (f : DeleteFault)
  | BDeleteSeqs (seqs : list Z) (f : DeleteFault)
  | BSourceTrim (now : Z → Z) (fault : Z → PutFault)
  | BRead (seq : Z)
  | BReadStep (k : nat) (io : bool)
  | BRelocate (f : RelocFault).

Definition exec_box (x : SegBox) (op : BoxOp) : SegBox :=
  let '(mkSegs w t rl rs) := bx_segs x in
  match op with
  | BAppend recs now_ms now fault => append_box recs now_ms now fault x
  | BRetention now_ms dels =>
      let '(b, _, (w, t)) := enforce_retention_seg (bx_topic x) now_ms dels w t in
      mkBox b (bx_seam x) (mkSegs w t rl rs)
  | BDelete before_seq match_ bound_head now_ms f =>
      let '(b, _, (w, t)) := apply_delete_seg (bx_topic x) before_seq match_ bound_head now_ms f w t in
      mkBox b (bx_seam x) (mkSegs w t rl rs)
  | BDeleteSeqs seqs f =>
      let '(b, _, (w, t)) := delete_seqs_seg (bx_topic x) seqs f w t in mkBox b (bx_seam x) (mkSegs w t rl rs)
  | BSourceTrim now fault => source_trim_box now fault x
  | BRead seq => mkBox (bx_topic x) (bx_seam x) (mkSegs w t rl (rs ++ read_start w seq))
  | BReadStep k io =>
      let '(w, rs) := advance_read crc io k w t rs in mkBox (bx_topic x) (bx_seam x) (mkSegs w t rl rs)
  | BRelocate f =>
      let '(w, t, rl) := relocate_step crc f rl w t in mkBox (bx_topic x) (bx_seam x) (mkSegs w t rl rs)
  end.

(** A new topic with a new writer. *)
Definition box_new (name : string) (topic_id : Z) (config : TopicConfig) (seq_base epoch : Z)
    (cfg : SegmentConfig) (has_cold : bool) : SegBox :=
  mkBox (topic_new name topic_id config seq_base epoch) (mkSeam seq_base ∅) (segs_new cfg has_cold).

(** What a reader gets for a seq, when no other operation runs during its read. *)
Definition serve (fault : ReadFault) (x : SegBox) (seq : Z) : option (StoredRecord V * (V * option V)) :=
  r ← view (bx_topic x) seq;
  Some (r, (resolve_payload crc fault seq r (ts_writer (bx_segs x)) (ts_tier (bx_segs x))).2).

(** [resolve_sealed_off_lock], when no other operation runs during it: the payload of a
    freed slot, and the count of COLD reads. *)
Definition resolve_sealed_off_lock (fault : ReadFault) (seq : Z) w t : SegmentWriter V * (V * option V) * Z :=
  let cold := match resolve_sealed_fast w seq with RRead seg => bool_decide (sl_tier seg = Cold) | _ => false end in
  let '(w, p) := resolve_sealed crc fault w t seq in
  (w, default (json_null, None) p, if cold then 1 else 0).

(** [forward_lookup]: the slot, with a freed payload resolved. *)
Definition forward_lookup_seg (fault : ReadFault) (x : SegBox) (seq : Z) : option (StoredRecord V * bool) :=
  r ← get (b_index (bx_topic x)) seq;
  if r_deleted r then Some (r, false)
  else if r_payload_resident r then Some (r, true)
  else
    let p := (resolve_payload crc fault seq r (ts_writer (bx_segs x)) (ts_tier (bx_segs x))).2 in
    Some (mkRecord (r_ts r) (r_node r) (r_tag r) p.1 p.2 (r_bytes r) (r_deleted r) (r_payload_resident r) (r_hops r), true).

(** The operation of the topic without segments. *)
Definition topic_op (op : BoxOp) : option (TopicOp (V := V)) :=
  match op with
  | BAppend recs now_ms _ _ => Some (TopicLog.OpAppend recs now_ms)
  | BRetention now_ms _ => Some (OpRetention now_ms)
  | BDelete before_seq match_ bound_head now_ms _ => Some (OpDelete before_seq match_ bound_head now_ms)
  | BDeleteSeqs seqs _ => Some (OpDeleteSeqs seqs)
  | BSourceTrim _ _ => Some OpSourceTrim
  | BRead _ | BReadStep _ _ | BRelocate _ => None
  end.

(** The records of an append are resident and fit the segment format with frames of at
    most [size] bytes, as do holes. *)
Context (size : Z).
Definition stored_seg (seq : Z) (r : StoredRecord V) : SegmentRecord :=
  record_of seq (r_ts r) (r_node r) (r_tag r) (r_data r) (r_meta r).
Definition fits (b : TopicState V) (recs : list (StoredRecord V)) : Prop :=
  ∀ (i : nat) r, recs !! i = Some r →
    r_payload_resident r = true ∧ frame_fits crc size (stored_seg (tail_seq (b_index b) + Z.of_nat i) r).
Definition seg_op_ok (op : BoxOp) (m : TopicState V) : Prop :=
  match op with
  | BAppend recs _ _ _ => fits m recs
  | BSourceTrim _ _ => fits m [deleted_hole]
  | _ => True
  end.

(** Both topics, side by side. *)
Definition mem_op (op : BoxOp) (m : TopicState V) : TopicState V := from_option (λ o, exec_op o m) m (topic_op op).
Fixpoint box_ops_ok (ops : list BoxOp) (m : TopicState V) : Prop :=
  match ops with
  | [] => True
  | op :: ops => from_option (λ o, op_ok o m) True (topic_op op) ∧ seg_op_ok op m ∧ box_ops_ok ops (mem_op op m)
  end.
End operations.
Arguments SegBox : clear implicits.
Arguments BoxOp : clear implicits.

(** ** Topics without their payloads

    No operation of a topic reads a payload: each commutes with erasing them. *)
Section strip.
Context {V : Type} `{!JsonNull V}.
Implicit Types (b : TopicState V) (ix : TopicIndex V) (r : StoredRecord V) (recs : list (StoredRecord V)).

Definition strip r : StoredRecord V :=
  mkRecord (r_ts r) (r_node r) (r_tag r) json_null None (r_bytes r) (r_deleted r) true (r_hops r).
Definition strip_ix ix : TopicIndex V :=
  mkTopicIndex (base_seq ix) (strip <$> records ix) (tag_index ix) (delete_below ix).
Definition strip_topic b : TopicState V := TopicState.with_index b (strip_ix (b_index b)).

Lemma strip_tail ix : tail_seq (strip_ix ix) = tail_seq ix.
Proof. unfold tail_seq. simpl. by rewrite length_fmap. Qed.
Lemma strip_get ix s : get (strip_ix ix) s = strip <$> get ix s.
Proof. unfold get. simpl. destruct (s <? base_seq ix); [done|]. apply list_lookup_fmap. Qed.
Lemma strip_slot_idx ix s : slot_idx (strip_ix ix) s = slot_idx ix s.
Proof. unfold slot_idx. simpl. by rewrite length_fmap. Qed.
Lemma strip_live_at ix s : live_at (strip_ix ix) s = live_at ix s.
Proof. unfold live_at. rewrite strip_get. by destruct (get ix s). Qed.
Lemma strip_is_dead ix s : is_dead (strip_ix ix) s = is_dead ix s.
Proof.
  unfold is_dead. rewrite strip_slot_idx. simpl. destruct (s <? delete_below ix); [done|].
  destruct (slot_idx ix s) as [i|]; [|done]. rewrite list_lookup_fmap. by destruct (records ix !! i).
Qed.
Lemma strip_range_dead ix s e : range_all_dead (strip_ix ix) s e = range_all_dead ix s e.
Proof. unfold range_all_dead. induction (seqZ _ _) as [|x l IH]; [done|]. simpl. by rewrite strip_is_dead, IH. Qed.

Lemma strip_push ix r : strip_ix (push_record ix r) = push_record (strip_ix ix) (strip r).
Proof. unfold push_record, strip_ix. simpl. rewrite fmap_app. f_equal. unfold tail_seq. simpl. by rewrite length_fmap. Qed.
Lemma strip_pushes recs ix : strip_ix (foldl push_record ix recs) = foldl push_record (strip_ix ix) (strip <$> recs).
Proof. revert ix. induction recs as [|r recs IH]; intros ix; [done|]. simpl. by rewrite IH, strip_push. Qed.

Lemma strip_drain_loop seq recs m n : drain_loop seq (strip <$> recs) m n = drain_loop seq recs m n.
Proof. revert seq m n. induction recs as [|r recs IH]; intros; [done|]. simpl. by rewrite IH. Qed.
Lemma strip_drain ix n : drain_front (strip_ix ix) n = (strip_ix (drain_front ix n).1, (drain_front ix n).2).
Proof.
  unfold drain_front. simpl. rewrite length_fmap, <-fmap_take, strip_drain_loop.
  destruct (drain_loop _ _ _ _). unfold strip_ix. simpl. by rewrite fmap_drop.
Qed.

Lemma strip_clear r : clear_slot (strip r) = strip (clear_slot r).
Proof. done. Qed.
Lemma strip_mark ix s : mark_deleted (strip_ix ix) s = (strip_ix (mark_deleted ix s).1, (mark_deleted ix s).2).
Proof.
  unfold mark_deleted. rewrite strip_slot_idx. destruct (slot_idx ix s) as [i|]; [|done]. cbn [records strip_ix].
  rewrite list_lookup_fmap. destruct (records ix !! i) as [r|]; [|done]. simpl. destruct (r_deleted r); [done|].
  simpl. unfold strip_ix. simpl. by rewrite strip_clear, list_fmap_insert.
Qed.
Lemma strip_mark_all seqs ix f d :
  mark_all (strip_ix ix) seqs f d =
    (strip_ix (mark_all ix seqs f d).1.1, (mark_all ix seqs f d).1.2, (mark_all ix seqs f d).2).
Proof.
  revert ix f d. induction seqs as [|s seqs IH]; intros; [done|]. simpl. rewrite strip_mark.
  destruct (mark_deleted ix s) as [ix' [x|]]; simpl; apply IH.
Qed.

Lemma strip_live_range ix lo bound : live_range (strip_ix ix) lo bound = live_range ix lo bound.
Proof. apply list_filter_iff. intros s. by rewrite strip_live_at. Qed.
Lemma strip_deleted_run recs : deleted_run (strip <$> recs) = deleted_run recs.
Proof. induction recs as [|r recs IH]; [done|]. rewrite fmap_cons. cbn [deleted_run]. by rewrite IH. Qed.
Lemma strip_ttl now ttl seq recs e : ttl_scan now ttl seq (strip <$> recs) e = ttl_scan now ttl seq recs e.
Proof. revert seq e. induction recs as [|r recs IH]; intros; [done|]. simpl. by rewrite IH. Qed.
Lemma strip_bytes cf seq recs o e : bytes_scan cf seq (strip <$> recs) o e = bytes_scan cf seq recs o e.
Proof. revert seq o e. induction recs as [|r recs IH]; intros; [done|]. simpl. by rewrite !IH. Qed.
Lemma strip_sum acc recs : foldl (λ acc r, acc +s r_bytes r) acc (strip <$> recs) = foldl (λ acc r, acc +s r_bytes r) acc recs.
Proof. revert acc. induction recs as [|r recs IH]; intros; [done|]. simpl. by rewrite IH. Qed.

(** *** On topics *)
Lemma strip_earliest b : earliest_seq (strip_topic b) = earliest_seq b.
Proof. done. Qed.

Lemma strip_front b head :
  reclaim_front (strip_topic b) head = (strip_topic (reclaim_front b head).1, (reclaim_front b head).2).
Proof.
  unfold reclaim_front. assert (front_drop (strip_topic b) head = front_drop b head) as ->.
  { unfold front_drop. cbn [b_index strip_topic TopicState.with_index records base_seq strip_ix b_floors b_seq_base].
    by rewrite length_fmap, skipn_map, strip_deleted_run. }
  destruct (front_drop b head) as [|n]; [done|]. simpl b_index. rewrite strip_drain. cbn [records strip_ix].
  rewrite <-fmap_take, strip_sum. by destruct (drain_front (b_index b) (S n)).
Qed.

Lemma strip_plan b now : plan_retention (strip_topic b) now = plan_retention b now.
Proof.
  unfold plan_retention, plan_cap_bytes, plan_cap_records, plan_ttl. cbn [b_index strip_topic TopicState.with_index].
  cbn [base_seq records strip_ix b_config b_floors b_bytes_retained b_head_seq]. by rewrite strip_ttl, strip_bytes.
Qed.

Lemma strip_retention b now : (enforce_retention (strip_topic b) now).1 = strip_topic (enforce_retention b now).1.
Proof.
  unfold enforce_retention, enforce_retention_hardened. rewrite strip_plan.
  change (b_config (strip_topic b)) with (b_config b). change (b_head_seq (strip_topic b)) with (b_head_seq b).
  change (b_floors (strip_topic b)) with (b_floors b).
  destruct (b_head_seq b =? 0); [done|]. destruct (_ && _ && _); [done|].
  destruct (if _ : bool then Ok tt else Ok tt) as [u|[]].
  destruct (ra_floor_advanced (plan_retention b now)).
  - pose proof (strip_front (with_floors b (commit_floors (b_floors b) (plan_retention b now))) (b_head_seq b)) as Hf.
    change (strip_topic (with_floors b ?f)) with (with_floors (strip_topic b) f) in Hf. rewrite Hf.
    by destruct (reclaim_front (with_floors b _) _).
  - rewrite strip_front. by destruct (reclaim_front b _).
Qed.

Lemma strip_victims b match_ bound : delete_victims (strip_topic b) match_ bound = delete_victims b match_ bound.
Proof. destruct match_; [done|]. apply strip_live_range. Qed.

Lemma strip_marked b seqs : marked (strip_topic b) seqs = strip_topic (marked b seqs).
Proof.
  unfold marked. cbn [b_index strip_topic TopicState.with_index]. rewrite strip_mark_all.
  by destruct (mark_all (b_index b) seqs 0 0) as [[ix f] d].
Qed.

Lemma strip_floored b bs m bound : prefix_floored (strip_topic b) bs m bound = strip_topic (prefix_floored b bs m bound).
Proof. unfold prefix_floored. by destruct m, bs. Qed.

Lemma strip_append b recs now : (append (strip_topic b) (strip <$> recs) now).1 = strip_topic (append b recs now).1.
Proof.
  destruct recs as [|r recs]; [done|]. unfold append, stage_append. cbn [fmap list_fmap]. fold (fmap strip recs).
  cbn [b_index strip_topic TopicState.with_index]. change (strip r :: (strip <$> recs)) with (strip <$> r :: recs).
  rewrite strip_tail, <-strip_pushes, strip_sum, !length_fmap. done.
Qed.

Lemma strip_trim b : note_source_trim (strip_topic b) = strip_topic (note_source_trim b).
Proof.
  unfold note_source_trim, stage_append. cbn [b_index strip_topic TopicState.with_index foldl]. rewrite strip_tail.
  assert (push_record (strip_ix (b_index b)) deleted_hole = strip_ix (push_record (b_index b) deleted_hole)) as ->;
    [by rewrite strip_push|]. done.
Qed.

(** Two topics with the same slots stay so. *)
Definition same b m : Prop := strip_topic b = strip_topic m.

Lemma same_get b m s : same b m → strip <$> get (b_index b) s = strip <$> get (b_index m) s.
Proof. intros Hs. rewrite <-!strip_get. by apply (f_equal (λ x, get (b_index x) s)) in Hs. Qed.
Lemma same_view b m s : same b m → strip <$> view b s = strip <$> view m s.
Proof.
  intros Hs. pose proof (same_get b m s Hs) as Hg. unfold view.
  apply (f_equal (λ x, (earliest_seq x, b_head_seq x))) in Hs. rewrite !strip_earliest in Hs. injection Hs as -> Hh.
  simpl in Hh. rewrite Hh. destruct (_ && _); [|done].
  destruct (get (b_index b) s) as [r|], (get (b_index m) s) as [r'|]; try done.
  assert (Hd : r_deleted r = r_deleted r') by (by injection Hg). rewrite Hd. by destruct (r_deleted r').
Qed.
Lemma same_tail b m : same b m → tail_seq (b_index b) = tail_seq (b_index m).
Proof. intros Hs. rewrite <-(strip_tail (b_index b)), <-(strip_tail (b_index m)). by apply (f_equal (λ x, tail_seq (b_index x))) in Hs. Qed.
Lemma same_head b m : same b m → b_head_seq b = b_head_seq m.
Proof. intros Hs. by apply (f_equal b_head_seq) in Hs. Qed.
Lemma same_seg_dead b m seg : same b m → seg_dead b seg = seg_dead m seg.
Proof.
  intros Hs. unfold seg_dead. rewrite <-(strip_range_dead (b_index b)), <-(strip_range_dead (b_index m)),
    <-(strip_earliest b), <-(strip_earliest m). change (strip_ix (b_index b)) with (b_index (strip_topic b)).
  change (strip_ix (b_index m)) with (b_index (strip_topic m)). by rewrite Hs.
Qed.

(** The invariant of a topic does not see the payloads. *)
Lemma strip_settled b : settled (strip_topic b) ↔ settled b.
Proof.
  assert (Hsl : ∀ recs, Forall slot_ok (strip <$> recs) ↔ Forall slot_ok recs) by (intros recs; by rewrite Forall_fmap).
  assert (Htags : ∀ base recs m, tags_ok base (strip <$> recs) m ↔ tags_ok base recs m).
  { intros base recs m. assert (He : ∀ t s, (∃ (i : nat) r, (strip <$> recs) !! i = Some r ∧ s = base + Z.of_nat i ∧ r_tag r = Some t) ↔
      ∃ (i : nat) r, recs !! i = Some r ∧ s = base + Z.of_nat i ∧ r_tag r = Some t).
    { intros t s. split.
      - intros (i & r & Hi & ? & ?). rewrite list_lookup_fmap in Hi. destruct (recs !! i) as [r0|] eqn:E; [|done].
        injection Hi as <-. by exists i, r0.
      - intros (i & r & Hi & ? & ?). exists i, (strip r). by rewrite list_lookup_fmap, Hi. }
    split; intros [H1 H2 H3]; split; try done; intros t s; rewrite H3; [by rewrite He|by rewrite <-He]. }
  assert (Hlive : ∀ recs, live_slots (strip <$> recs) = live_slots recs).
  { induction recs as [|r recs IH]; [done|]. rewrite fmap_cons, !live_slots_cons, IH. done. }
  assert (Hbytes : ∀ recs, total_bytes (strip <$> recs) = total_bytes recs).
  { induction recs as [|r recs IH]; [done|]. rewrite fmap_cons. cbn [total_bytes foldr]. unfold total_bytes in IH. by rewrite IH. }
  assert (Hpub : published (strip_topic b) = strip <$> published b) by (unfold published; simpl; by rewrite fmap_take).
  split; intros [[[] ? ? ? ? ? ? ? ?] ? ?]; (split; [split; [split|..]|..]); simpl in *;
    rewrite ?Hpub, ?strip_tail, ?Hlive, ?Hbytes, ?Hsl, ?Htags in *; try done.
Qed.
Lemma same_settled b m : same b m → settled m → settled b.
Proof. intros Hs Hm. apply strip_settled. rewrite Hs. by apply strip_settled. Qed.

Lemma same_retention b m now : same b m → same (enforce_retention b now).1 (enforce_retention m now).1.
Proof. unfold same. intros Hs. by rewrite <-!strip_retention, Hs. Qed.
Lemma same_append b m recs now : same b m → same (append b recs now).1 (append m recs now).1.
Proof. unfold same. intros Hs. by rewrite <-!strip_append, Hs. Qed.
Lemma same_trim b m : same b m → same (note_source_trim b) (note_source_trim m).
Proof. unfold same. intros Hs. by rewrite <-!strip_trim, Hs. Qed.
Lemma same_marked b m seqs : same b m → same (marked b seqs) (marked m seqs).
Proof. unfold same. intros Hs. by rewrite <-!strip_marked, Hs. Qed.
Lemma same_front b m head : same b m → same (reclaim_front b head).1 (reclaim_front m head).1.
Proof.
  unfold same. intros Hs. pose proof (strip_front b head) as Hb. pose proof (strip_front m head) as Hm.
  rewrite Hs, Hm in Hb. congruence.
Qed.
Lemma same_floored b m bs mt bound : same b m → same (prefix_floored b bs mt bound) (prefix_floored m bs mt bound).
Proof. unfold same. intros Hs. by rewrite <-!strip_floored, Hs. Qed.
Lemma same_victims b m mt bound : same b m → delete_victims b mt bound = delete_victims m mt bound.
Proof. intros Hs. by rewrite <-(strip_victims b), <-(strip_victims m), Hs. Qed.
End strip.

(** ** Slots *)
Section slots.
Context {V : Type} `{!JsonNull V}.
Implicit Types (b m : TopicState V) (ix : TopicIndex V) (r : StoredRecord V).

(** A live slot of the later topic is that of the earlier one. *)
Definition kept b b' : Prop :=
  ∀ s r, get (b_index b') s = Some r → r_deleted r = false → get (b_index b) s = Some r.

Lemma kept_refl b : kept b b.
Proof. by intros s r. Qed.
Lemma kept_trans b1 b2 b3 : kept b1 b2 → kept b2 b3 → kept b1 b3.
Proof. unfold kept. naive_solver. Qed.

Lemma kept_front b head : kept b (reclaim_front b head).1.
Proof.
  intros s r. unfold reclaim_front. destruct (front_drop b head) as [|n]; [done|].
  pose proof (drain_front_get (b_index b) (S n) s) as Hg. destruct (drain_front (b_index b) (S n)) as [ix l]. simpl in *.
  rewrite Hg. by destruct (_ <? _).
Qed.

Lemma mark_all_kept seqs ix f d s r :
  get (mark_all ix seqs f d).1.1 s = Some r → r_deleted r = false → get ix s = Some r.
Proof.
  revert ix f d. induction seqs as [|q seqs IH]; intros ix f d; [done|]. cbn [mark_all].
  pose proof (mark_deleted_get ix q s) as Hg. destruct (mark_deleted ix q) as [ix1 o]. simpl in Hg.
  intros Hr Hd. assert (Hr1 : get ix1 s = Some r) by (by destruct o; eapply IH). rewrite Hr1 in Hg.
  destruct (get ix s) as [r0|]; [|done]. injection Hg as Hg. case_bool_decide; [|by subst]. by subst.
Qed.

Lemma kept_marked b seqs : kept b (marked b seqs).
Proof.
  intros s r. pose proof (mark_all_kept seqs (b_index b) 0 0 s r) as Hk. unfold marked.
  by destruct (mark_all (b_index b) seqs 0 0) as [[ix f] d].
Qed.

Lemma kept_floored b bs mt bound : kept b (prefix_floored b bs mt bound).
Proof. intros s r. unfold prefix_floored. by destruct mt, bs. Qed.

Lemma kept_retention b now : kept b (enforce_retention b now).1.
Proof.
  pose proof (kept_refl b). unfold enforce_retention, enforce_retention_hardened.
  destruct (b_head_seq b =? 0); [done|]. destruct (_ && _ && _); [done|].
  destruct (if _ : bool then Ok tt else Ok tt) as [u|[]]. destruct (ra_floor_advanced _).
  - pose proof (kept_front (with_floors b (commit_floors (b_floors b) (plan_retention b now))) (b_head_seq b)) as Hk.
    by destruct (reclaim_front (with_floors b _) _).
  - pose proof (kept_front b (b_head_seq b)) as Hk. by destruct (reclaim_front b _).
Qed.

Lemma marked_seqs_dead seqs ix f d s : s ∈ marked_seqs ix seqs → live_at (mark_all ix seqs f d).1.1 s = false.
Proof.
  revert ix f d. induction seqs as [|q seqs IH]; intros ix f d; cbn [marked_seqs mark_all]; [by intros ?%not_elem_of_nil|].
  pose proof (mark_deleted_get ix q s) as Hg. pose proof (mark_deleted_accounting ix q) as Ha.
  destruct (mark_deleted ix q) as [ix1 [x|]]; [|by apply IH]. simpl in Hg, Ha.
  intros [->|Hin]%elem_of_cons; [|by apply IH]. destruct Ha as ((r0 & Hr0 & Hd0 & _) & _).
  rewrite Hr0, bool_decide_eq_true_2 in Hg by done. apply not_true_is_false. intros (r & Hr & Hd)%live_at_get.
  apply mark_all_kept in Hr; [|done]. rewrite Hg in Hr. by injection Hr as <-.
Qed.

Lemma visible_not_dead m s : topic_wf m → visible m s → is_dead (b_index m) s = false.
Proof.
  intros Hwf [Hl [He Hh]]. apply live_at_get in Hl as (r & Hr & Hd).
  apply (earliest_seq_le m s Hwf Hh) in He as [Hf Hb]. unfold floors_max in Hf. pose proof (tw_delete _ Hwf).
  unfold is_dead. rewrite (proj2 (Z.ltb_ge _ _)) by lia.
  destruct (slot_idx (b_index m) s) as [i|] eqn:Hi; [|by apply Z.ltb_ge].
  apply slot_idx_get in Hi as [-> Hi]. apply get_slot in Hr as (j & Hj & Hji).
  assert (j = i) as -> by lia. by rewrite Hj.
Qed.

Lemma visible_seg m seg s : topic_wf m → visible m s → sl_start_seq seg <= s <= sl_end_seq seg → seg_dead m seg = false.
Proof.
  intros Hwf Hv Hs. unfold seg_dead. pose proof Hv as [Hl [He Hh]]. rewrite (proj2 (Z.ltb_ge _ _)) by lia. simpl.
  apply not_true_is_false. unfold range_all_dead. intros Hall. rewrite forallb_forall in Hall.
  specialize (Hall s). rewrite visible_not_dead in Hall by done. apply diff_false_true. apply Hall.
  apply list_elem_of_In, elem_of_seqZ. lia.
Qed.

Lemma same_visible b m s : same b m → visible b s ↔ visible m s.
Proof.
  intros Hs%(same_view _ _ s). rewrite <-!view_visible. destruct (view b s), (view m s); try done; split; eauto.
Qed.

(** Freeing payloads. *)
Lemma strip_free ix s : strip_ix (free_seq ix s) = strip_ix ix.
Proof.
  unfold free_seq. destruct (s <? base_seq ix); [done|]. unfold strip_ix. simpl. f_equal.
  apply list_eq. intros i. rewrite !list_lookup_fmap. destruct (decide (Z.to_nat (s - base_seq ix) = i)) as [<-|Hne].
  - rewrite list_lookup_alter_eq. destruct (records ix !! _) as [r|]; [|done]. simpl. f_equal. unfold free_payload.
    by destruct (_ && _).
  - by rewrite list_lookup_alter_ne.
Qed.
Lemma strip_frees seqs ix : strip_ix (foldl free_seq ix seqs) = strip_ix ix.
Proof. revert ix. induction seqs as [|s seqs IH]; intros ix; [done|]. simpl. by rewrite IH, strip_free. Qed.

Lemma free_get ix q s : get (free_seq ix q) s = if decide (q = s) then free_payload <$> get ix s else get ix s.
Proof.
  unfold free_seq, get. destruct (Z.ltb_spec q (base_seq ix)); simpl.
  - destruct (decide (q = s)) as [->|]; [|done]. by rewrite (proj2 (Z.ltb_lt _ _)).
  - destruct (Z.ltb_spec s (base_seq ix)); [by destruct (decide _)|]. destruct (decide (q = s)) as [->|Hne].
    + by rewrite list_lookup_alter_eq.
    + apply list_lookup_alter_ne. lia.
Qed.
Lemma frees_get seqs ix s r :
  get ix s = Some r →
  get (foldl free_seq ix seqs) s = Some r ∨ s ∈ seqs ∧ get (foldl free_seq ix seqs) s = Some (free_payload r).
Proof.
  revert ix r. induction seqs as [|q seqs IH]; intros ix r Hr; [by left|]. simpl.
  pose proof (free_get ix q s) as Hg. rewrite Hr in Hg. destruct (decide (q = s)) as [->|Hne].
  - right. split; [by left|]. destruct (IH _ _ Hg) as [->|[_ ->]]; [done|]. f_equal. unfold free_payload.
    destruct (negb (r_deleted r) && r_payload_resident r) eqn:E; [|by rewrite E]. simpl. by rewrite andb_false_r.
  - destruct (IH _ _ Hg) as [?|[? ?]]; [by left|right]. split; [by right|done].
Qed.
End slots.

(** ** Serving *)
Section serving.
Context {V : Type} `{!JsonNull V} `{!Serde V} (crc : bytes → Z).
Hypothesis crc_u64 : ∀ b, is_u64 (crc b).
Context (size : Z) (cfg : SegmentConfig).
Hypothesis cfg_ok : config_ok size cfg.
Implicit Types (b m : TopicState V) (w : SegmentWriter V) (t : TopicTier) (r : StoredRecord V) (rl : Reloc)
  (rs : list (OffLockRead V)).
#[local] Abbreviation inv := (segs_inv crc size cfg).

(** *** The segments *)
Lemma drop_segments_spec dels ids rl rs L dead next : ∀ w t,
  inv (mkSegs w t rl rs) L dead next →
  let '(w', t') := drop_segments dels ids w t in
  inv (mkSegs w' t' rl rs) L dead next ∧
  ∀ seg, seg ∈ sw_sealed w → sl_start_seq seg ∉ ids → seg ∈ sw_sealed w'.
Proof.
  unfold drop_segments. induction ids as [|id ids IH]; intros w t Hi; [done|]. cbn [foldl fst snd].
  pose proof (drop_inv crc size cfg (dels id) id w t L dead next (si_writer _ _ _ _ _ _ _ Hi)) as Hd.
  assert (Hk : ∀ seg, seg ∈ sw_sealed w → sl_start_seq seg ≠ id → seg ∈ sw_sealed (drop_segment (dels id) id w t).1).
  { intros seg Hin Hne. unfold drop_segment. destruct (find_sealed w id); [|done]. simpl. by apply list_elem_of_filter. }
  destruct (drop_segment (dels id) id w t) as [w1 t1]. destruct Hd as [Hw1 Hg].
  pose proof (segs_grow crc size cfg _ _ _ _ _ _ _ _ _ _ _ _ Hi Hw1 Hg (reflexivity _) (reflexivity _)) as Hi1.
  specialize (IH w1 t1 Hi1). destruct (foldl _ (w1, t1) ids) as [w2 t2]. destruct IH as [Hi2 Hk2]. split; [done|].
  intros seg Hin Hnot. apply Hk2; [apply Hk; [done|]|]; set_solver.
Qed.

(** No segment that holds a visible record is unlinked. *)
Lemma reclaim_segments_spec dels b m w t rl rs L dead next :
  same b m → topic_wf m → inv (mkSegs w t rl rs) L dead next →
  let '(w', t') := reclaim_segments dels b w t in
  inv (mkSegs w' t' rl rs) L dead next ∧ ∀ s, visible m s → registered w s → registered w' s.
Proof.
  intros Hsame Hwf Hi. unfold reclaim_segments. set (ids := sl_start_seq <$> _).
  pose proof (drop_segments_spec dels ids rl rs L dead next w t Hi) as Hd. destruct (drop_segments dels ids w t) as [w' t'].
  destruct Hd as [Hi' Hk]. split; [done|]. intros s Hv (seg & Hin & Hs). exists seg. split; [|done]. apply Hk; [done|].
  intros (seg' & Heq & [Hdead Hin']%list_elem_of_filter)%list_elem_of_fmap.
  pose proof (sealed_start crc size cfg _ _ _ _ _ seg seg' (si_writer _ _ _ _ _ _ _ Hi) Hin Hin' Heq) as <-.
  rewrite (same_seg_dead b m seg Hsame), (visible_seg m seg s) in Hdead by done. done.
Qed.

Lemma flags_spec flags seqs rl rs L next : ∀ w t dead,
  inv (mkSegs w t rl rs) L dead next →
  let '(w', t') := flag_sealed_deletes flags seqs w t in
  sw_sealed w' = sw_sealed w ∧
  ∃ dead', inv (mkSegs w' t' rl rs) L dead' next ∧ ∀ s, s ∈ dead' → s ∈ dead ∨ s ∈ seqs.
Proof.
  unfold flag_sealed_deletes. induction seqs as [|q seqs IH]; intros w t dead Hi.
  { split; [done|]. exists dead. split; [done|by left]. }
  cbn [foldl fst snd].
  pose proof (flag_inv crc size crc_u64 cfg (flags q) q w t L dead next (si_writer _ _ _ _ _ _ _ Hi)) as Hf.
  assert (Hs : sw_sealed (flag_sealed_deleted (flags q) q w t).1.1 = sw_sealed w).
  { unfold flag_sealed_deleted. destruct (segment_for w q); [|done]. destruct (resolve t _); [|done].
    destruct (store_for t _); [|done]. destruct (read_entry _ _ _ _); [|done]. by destruct (mark_record_deleted _ _ _ _). }
  destruct (flag_sealed_deleted (flags q) q w t) as [[w1 t1] dn]. destruct Hf as (d1 & Hw1 & Hsub & Hsup & _ & _ & Hg). simpl in Hs.
  pose proof (segs_grow crc size cfg _ _ _ _ _ _ _ _ _ _ _ _ Hi Hw1 Hg (reflexivity _) Hsub) as Hi1.
  specialize (IH w1 t1 d1 Hi1). cbn [fst]. destruct (foldl _ (w1, t1) seqs) as [w2 t2].
  destruct IH as (Hs2 & d2 & Hi2 & Hd2). split; [congruence|]. exists d2. split; [done|].
  intros s [Hs1|?]%Hd2; [|right; by right]. apply Hsup in Hs1. set_solver.
Qed.

Lemma relocate_registered f rl w t s :
  registered w s → registered (relocate_step crc f rl w t).1.1 s.
Proof.
  intros (seg & Hin & Hs). destruct rl as [[|id plan]|id data idx plan|id plan]; simpl.
  - by exists seg.
  - by exists seg.
  - destruct (copy_put (rf_put f) t id data idx). by exists seg.
  - unfold confirm_relocated. destruct (find_sealed w id) as [s0|]; [|by exists seg].
    destruct (sl_tier s0); [|by exists seg]. simpl. exists (flip_tier id seg). split; [by apply list_elem_of_fmap_2|].
    unfold flip_tier. by destruct (_ =? _).
Qed.

(** *** The topic *)

(** A slot holds its payload, or is empty and its segment is registered. *)
Definition slot_serves w (s : Z) r mr : Prop :=
  r_payload_resident r = true ∧ r_data r = r_data mr ∧ r_meta r = r_meta mr ∨
  r_payload_resident r = false ∧ r_data r = json_null ∧ r_meta r = None ∧ registered w s.
Record serves b w (L : gmap Z SegmentRecord) (dead : gset Z) rs m : Prop := {
  sv_slots : ∀ s mr, view m s = Some mr →
    L !! s = Some (stored_seg s mr) ∧ (s ∉ dead) ∧ ∃ r, get (b_index b) s = Some r ∧ slot_serves w s r mr;
  sv_reads : ∀ rd, rd ∈ rs → visible m (or_seq rd) → registered w (or_seq rd)
}.

Lemma serves_step b b' w w' L dead dead' rs m m' :
  same b' m' → kept b b' → (∀ s mr, view m' s = Some mr → view m s = Some mr) →
  (∀ s, visible m' s → registered w s → registered w' s) → (∀ s, s ∈ dead' → s ∈ dead ∨ ¬ visible m' s) →
  serves b w L dead rs m → serves b' w' L dead' rs m'.
Proof.
  intros Hs Hk Hv Hreg Hd [Hsv Hrd]. split.
  - intros s mr Hmr. destruct (Hsv s mr (Hv s mr Hmr)) as (HL & Hnd & r & Hr & Hp).
    assert (Hvis : visible m' s) by (apply view_visible; eauto). split; [done|]. split; [intros [?|?]%Hd; tauto|].
    pose proof (same_view b' m' s Hs) as Hsv'. rewrite Hmr in Hsv'. destruct (view b' s) as [r'|] eqn:Hr'; [|done].
    apply view_Some in Hr' as (_ & Hg & Hdel). pose proof (Hk s r' Hg Hdel) as Hr1. assert (r' = r) as -> by congruence.
    exists r. split; [done|]. destruct Hp as [?|(? & ? & ? & ?)]; [by left|right]. auto.
  - intros rd Hin Hvis. apply Hreg; [done|]. apply Hrd; [done|]. apply view_visible in Hvis as [mr Hmr].
    apply view_visible. eauto.
Qed.

(** *** Retention *)
Lemma retention_seg_cases b now dels w t :
  let '(b', ra, wt) := enforce_retention_seg b now dels w t in
  (b', ra) = enforce_retention b now ∧
  (wt = (w, t) ∨
   b_head_seq b ≠ 0 ∧
   (cfg_ttl_ms (b_config b) ≠ 0 ∨ cfg_cap_records (b_config b) ≠ 0 ∨ cfg_cap_bytes (b_config b) ≠ 0) ∧
   wt = reclaim_segments dels (with_floors b (commit_floors (b_floors b) (plan_retention b now))) w t).
Proof.
  unfold enforce_retention_seg, enforce_retention, enforce_retention_hardened.
  destruct (Z.eqb_spec (b_head_seq b) 0); [by auto|].
  destruct (Z.eqb_spec (cfg_ttl_ms (b_config b)) 0), (Z.eqb_spec (cfg_cap_records (b_config b)) 0),
    (Z.eqb_spec (cfg_cap_bytes (b_config b)) 0); cbn [andb]; [by auto|..];
    destruct (if _ : bool then Ok tt else Ok tt) as [u|[]]; destruct (ra_floor_advanced (plan_retention b now));
    destruct (reclaim_front _ _); split; auto 10.
Qed.

Lemma view_retention m now s mr : topic_wf m → view (enforce_retention m now).1 s = Some mr → view m s = Some mr.
Proof. intros Hwf. rewrite enforce_retention_view by done. by destruct (_ <=? s). Qed.

Lemma retention_serves b m now dels w t rl rs L dead next :
  same b m → settled m → inv (mkSegs w t rl rs) L dead next → serves b w L dead rs m →
  let '(b', ra, (w', t')) := enforce_retention_seg b now dels w t in
  (b', ra) = enforce_retention b now ∧ inv (mkSegs w' t' rl rs) L dead next ∧
  serves b' w' L dead rs (enforce_retention m now).1.
Proof.
  intros Hs Hst Hi Hsv. pose proof (st_wf _ Hst) as Hwf. pose proof (retention_seg_cases b now dels w t) as Hc.
  destruct (enforce_retention_seg b now dels w t) as [[b' ra] [w' t']]. destruct Hc as [Hb Hwt]. split; [done|].
  assert (Hb' : b' = (enforce_retention b now).1) by (by rewrite <-Hb). subst b'.
  assert (Hgo : ∀ w2, (∀ s, visible (enforce_retention m now).1 s → registered w s → registered w2 s) →
    serves (enforce_retention b now).1 w2 L dead rs (enforce_retention m now).1).
  { intros w2 Hreg. eapply serves_step; [by apply same_retention|apply kept_retention| |exact Hreg|intros s Hin; left; exact Hin|exact Hsv].
    intros s mr. by apply view_retention. }
  destruct Hwt as [[= -> ->]|(Hh & Hc & Hwt)]; [by auto|].
  set (f := commit_floors (b_floors b) (plan_retention b now)) in *.
  assert (Hf : f = commit_floors (b_floors m) (plan_retention m now)).
  { unfold f. rewrite <-(strip_plan b), <-(strip_plan m), Hs. f_equal. by apply (f_equal b_floors) in Hs. }
  assert (Hwf1 : topic_wf (with_floors m f)).
  { rewrite Hf. apply with_floors_wf; [done|by apply plan_retention_floors|done]. }
  assert (Hs1 : same (with_floors b f) (with_floors m f)) by (by apply (f_equal (λ x, with_floors x f)) in Hs).
  pose proof (reclaim_segments_spec dels _ _ w t rl rs L dead next Hs1 Hwf1 Hi) as Hr. rewrite <-Hwt in Hr. destruct Hr as [Hi' Hreg].
  split; [done|]. apply Hgo. intros s Hv. apply Hreg. rewrite (enforce_retention_state m now) in Hv.
  - unfold retained in Hv. rewrite <-Hf in Hv. by apply (reclaim_front_visible (with_floors m f)) in Hv.
  - done.
  - by rewrite <-(same_head b m Hs).
  - by apply (f_equal b_config) in Hs; simpl in Hs; rewrite <-Hs.
Qed.

(** *** Deletes *)
Lemma marked_serves b m b3 m3 vs f w t rl rs L dead next :
  same b3 m3 → topic_wf m3 → kept b b3 → kept (marked b vs) b3 →
  (∀ s mr, view m3 s = Some mr → view m s = Some mr) →
  inv (mkSegs w t rl rs) L dead next → serves b w L dead rs m →
  let '(w1, t1) := reclaim_segments (df_drop f) b3 w t in
  let '(w', t') := flag_sealed_deletes (df_flags f) (marked_seqs (b_index b) vs) w1 t1 in
  ∃ dead', inv (mkSegs w' t' rl rs) L dead' next ∧ serves b3 w' L dead' rs m3.
Proof.
  intros Hs Hwf Hk Hkm Hv Hi Hsv. pose proof (reclaim_segments_spec (df_drop f) b3 m3 w t rl rs L dead next Hs Hwf Hi) as Hr.
  destruct (reclaim_segments (df_drop f) b3 w t) as [w1 t1]. destruct Hr as [Hi1 Hreg].
  pose proof (flags_spec (df_flags f) (marked_seqs (b_index b) vs) rl rs L next w1 t1 dead Hi1) as Hf.
  destruct (flag_sealed_deletes _ _ w1 t1) as [w' t']. destruct Hf as (Hseal & dead' & Hi' & Hd'). exists dead'. split; [done|].
  eapply serves_step; [done|exact Hk|exact Hv| | |exact Hsv].
  - intros s Hvis Hrg. destruct (Hreg s Hvis Hrg) as (seg & ? & ?). exists seg. by rewrite Hseal.
  - intros s [?|Hin]%Hd'; [by left|right]. intros Hvis. apply (same_visible b3 m3) in Hvis as [Hl _]; [|done].
    apply live_at_get in Hl as (r & Hr & Hd). pose proof (Hkm s r Hr Hd) as Hg.
    pose proof (marked_seqs_dead vs (b_index b) 0 0 s Hin) as Hdead. unfold marked in Hg.
    destruct (mark_all (b_index b) vs 0 0) as [[ix fr] d]. simpl in Hg, Hdead. unfold live_at in Hdead.
    rewrite Hg, Hd in Hdead. done.
Qed.
(** *** Materialization *)
Fixpoint numbered (n : Z) (recs : list (StoredRecord V)) : list (Z * StoredRecord V) :=
  match recs with [] => [] | r :: recs => (n, r) :: numbered (n + 1) recs end.

Lemma shift_lookup {A} (P : Z → A → Prop) (x : A) xs n :
  (∀ (i : nat) y, (x :: xs) !! i = Some y → P (n + Z.of_nat i) y) →
  P n x ∧ ∀ (i : nat) y, xs !! i = Some y → P (n + 1 + Z.of_nat i) y.
Proof.
  intros Hall. split.
  - specialize (Hall 0%nat x eq_refl). by rewrite Z.add_0_r in Hall.
  - intros i y Hi. specialize (Hall (S i) y Hi). by replace (n + 1 + Z.of_nat i) with (n + Z.of_nat (S i)) by lia.
Qed.

Lemma pending_eq (ix : TopicIndex V) recs : ∀ n,
  (∀ (i : nat) r, recs !! i = Some r → get ix (n + Z.of_nat i) = Some r) →
  omap (λ seq, pair seq <$> get ix seq) (seqZ n (Z.of_nat (length recs))) = numbered n recs.
Proof.
  induction recs as [|r recs IH]; intros n Hg; [done|]. apply (shift_lookup (λ s r, get ix s = Some r)) in Hg as [Hg Hgs].
  cbn [length numbered]. rewrite Nat2Z.inj_succ, seqZ_cons, Z.pred_succ by lia. cbn [omap list_omap]. rewrite Hg.
  cbn [fmap option_fmap option_map]. f_equal. rewrite <-Z.add_1_r. by apply IH.
Qed.

Lemma feed_serves recs now fault rl rs dead : ∀ n w t acc L,
  inv (mkSegs w t rl rs) L dead n → (∀ (i : nat) r, recs !! i = Some r → frame_fits crc size (stored_seg (n + Z.of_nat i) r)) →
  let '(w', t', sealed) := foldl (feed_record crc now fault) (w, t, acc) (numbered n recs) in
  (∀ s, registered w s → registered w' s) ∧ (∀ s, s ∈ sealed → s ∈ acc ∨ registered w' s) ∧
  ∃ L', inv (mkSegs w' t' rl rs) L' dead (n + Z.of_nat (length recs)) ∧ (∀ s, s < n → L' !! s = L !! s) ∧
    ∀ (i : nat) r, recs !! i = Some r → L' !! (n + Z.of_nat i) = Some (stored_seg (n + Z.of_nat i) r).
Proof.
  induction recs as [|r recs IH]; intros n w t acc L Hi Hok.
  { simpl. rewrite Z.add_0_r. split; [done|]. split; [by left|]. exists L. split_and!; [done|done|]. intros i r. by rewrite lookup_nil. }
  apply (shift_lookup (λ s r, frame_fits crc size (stored_seg s r))) in Hok as [Hok Hoks].
  pose proof (si_writer _ _ _ _ _ _ _ Hi) as Hw. cbn [numbered foldl].
  pose proof (append_inv crc size crc_u64 cfg (now n) (fault n) n (r_ts r) (r_node r) (r_tag r) (r_data r) (r_meta r)
    w t L dead n cfg_ok Hw ltac:(lia) Hok) as Ha.
  pose proof (append_keeps crc (now n) (fault n) n (r_ts r) (r_node r) (r_tag r) (r_data r) (r_meta r) w t) as Hk.
  unfold feed_record at 2. destruct (append_record crc _ _ _ _ _ _ _ _ w t) as [[w1 t1] seqs]. destruct Ha as (Hw1 & Hreg & Hg).
  pose proof (segs_grow crc size cfg _ _ _ _ _ _ _ _ _ _ _ _ Hi Hw1 Hg
    (log_fresh crc size cfg _ _ _ _ _ n _ Hw ltac:(lia)) (reflexivity _)) as Hi1.
  specialize (IH (n + 1) w1 t1 (acc ++ seqs) _ Hi1 Hoks). destruct (foldl _ (w1, t1, acc ++ seqs) _) as [[w2 t2] sealed].
  destruct IH as (Hk2 & Hs2 & L' & Hi2 & HL & HLs). split; [by auto|]. split.
  { intros s [[?|?]%elem_of_app|?]%Hs2; [by left|right; by apply Hk2, Hreg|by right]. }
  exists L'. cbn [length]. replace (n + Z.of_nat (S (length recs))) with (n + 1 + Z.of_nat (length recs)) by lia.
  split; [done|]. split; [intros s Hs; rewrite HL by lia; by rewrite lookup_insert_ne by lia|].
  intros [|i] r' Hi'; simpl in Hi'.
  - injection Hi' as <-. rewrite Z.add_0_r, HL by lia. by rewrite lookup_insert_eq.
  - specialize (HLs i r' Hi'). by replace (n + Z.of_nat (S i)) with (n + 1 + Z.of_nat i) by lia.
Qed.

Lemma freed_serves w w' s r r' mr (sealed : list Z) :
  slot_serves w s r mr → (∀ s, registered w s → registered w' s) → (s ∈ sealed → registered w' s) →
  r' = r ∨ s ∈ sealed ∧ r' = free_payload r → slot_serves w' s r' mr.
Proof.
  intros Hp Hk Hs [->|[Hin ->]].
  - destruct Hp as [?|(? & ? & ? & ?)]; [by left|right; auto].
  - unfold free_payload. destruct (_ && _); [right; split_and!; auto|].
    destruct Hp as [?|(? & ? & ? & ?)]; [by left|right; auto].
Qed.

(** *** The simulation *)
Record sim (x : SegBox V) m : Prop := {
  sm_same : same (bx_topic x) m;
  sm_settled : settled m;
  sm_seam : bx_seam x = mkSeam (tail_seq (b_index m)) ∅;
  sm_segs : ∃ L dead, inv (bx_segs x) L dead (tail_seq (b_index m)) ∧
    serves (bx_topic x) (ts_writer (bx_segs x)) L dead (ts_reads (bx_segs x)) m
}.

Lemma admit_next n e : n <= e → seam_admit n e (mkSeam n ∅) = (mkSeam (e + 1) ∅, [(n, e)]).
Proof.
  intros Hle. unfold seam_admit. cbn [ms_next ms_pending]. rewrite (proj2 (Z.ltb_ge _ _)) by lia.
  by rewrite Z.max_id, Z.eqb_refl.
Qed.

(** Records pushed at the tail and materialized. *)
Lemma grow_sim x m b' m' recs now fault :
  let n := tail_seq (b_index m) in
  sim x m → recs ≠ [] → fits crc size m recs → b_index b' = foldl push_record (b_index (bx_topic x)) recs →
  same b' m' → settled m' → tail_seq (b_index m') = n + Z.of_nat (length recs) →
  (∀ s mr, s < n → view m' s = Some mr → view m s = Some mr) →
  (∀ (i : nat) r mr, recs !! i = Some r → view m' (n + Z.of_nat i) = Some mr → mr = r) →
  sim (materialize_box crc now fault (n, n + Z.of_nat (length recs) - 1) (mkBox b' (bx_seam x) (bx_segs x))) m'.
Proof.
  intros n [Hs Hst Hseam (L & dead & Hi & [Hsv Hrd])] Hne Hfit Hix Hs' Hst' Htl Hold Hnew.
  destruct x as [b seam [w t rl rs]]. cbn [bx_topic bx_seam bx_segs ts_writer ts_reads] in *. subst seam.
  assert (Hlen : (0 < length recs)%nat) by (destruct recs; simpl; [done|lia]).
  assert (Hgn : ∀ s, get (b_index b') s = if s <? n then get (b_index b) s else recs !! Z.to_nat (s - n)).
  { intros s. rewrite Hix, foldl_push_get, (same_tail b m Hs). done. }
  unfold materialize_box, materialize_published. cbn [bx_segs bx_topic bx_seam sp_seam sp_index sp_writer sp_tier fst snd].
  fold n. rewrite admit_next by lia. cbn [foldl]. unfold feed_range, materialize_segment.
  cbn [fst snd sp_index sp_writer sp_tier sp_seam].
  replace (n + Z.of_nat (length recs) - 1 - n + 1) with (Z.of_nat (length recs)) by lia.
  rewrite (pending_eq (b_index b') recs n).
  2:{ intros i r Hr. rewrite Hgn, (proj2 (Z.ltb_ge _ _)) by lia. by replace (Z.to_nat (n + Z.of_nat i - n)) with i by lia. }
  pose proof (feed_serves recs now fault rl rs dead n w t [] L Hi ltac:(intros i r Hr; by apply (Hfit i r))) as Hf.
  destruct (foldl _ (w, t, []) (numbered n recs)) as [[w' t'] sealed]. destruct Hf as (Hk & Hreg & L' & Hi' & HL & HLs).
  assert (Hreg' : ∀ s, s ∈ sealed → registered w' s) by (intros s [?|?]%Hreg; [set_solver|done]).
  split; cbn [bx_topic bx_seam bx_segs ts_writer ts_reads sp_index sp_writer sp_tier sp_seam].
  - unfold same. rewrite <-Hs'. unfold strip_topic. cbn [b_index TopicState.with_index]. by rewrite strip_frees.
  - done.
  - rewrite Htl. f_equal. lia.
  - exists L', dead. rewrite Htl. split; [done|]. split.
    2:{ intros rd Hin [mr Hmr]%view_visible. apply Hk, Hrd; [done|]. apply view_visible. exists mr. apply Hold; [|done].
        pose proof (si_reads _ _ _ _ _ _ _ Hi rd Hin) as [Hlt _]. cbn [ts_writer] in Hlt.
        pose proof (front_le crc size cfg _ _ _ _ _ (si_writer _ _ _ _ _ _ _ Hi)) as Hf'. cbn [ts_writer] in Hf'.
        fold n in Hlt, Hf'. lia. }
    intros s mr Hmr. cbn [b_index TopicState.with_index].
    assert (Hsl : ∃ r, get (b_index b') s = Some r ∧ L' !! s = Some (stored_seg s mr) ∧ (s ∉ dead) ∧ slot_serves w s r mr).
    { destruct (Z.lt_ge_cases s n) as [Hlt|Hge].
      - destruct (Hsv s mr (Hold s mr Hlt Hmr)) as (HLs' & Hnd & r & Hr & Hp). exists r.
        rewrite Hgn, (proj2 (Z.ltb_lt _ _)), HL by lia. done.
      - apply view_Some in Hmr as Hv. pose proof (st_tail _ Hst') as Ht'.
        destruct (lookup_lt_is_Some_2 recs (Z.to_nat (s - n)) ltac:(lia)) as [r Hr]. exists r.
        rewrite Hgn, (proj2 (Z.ltb_ge _ _)) by lia. pose proof (HLs _ r Hr) as HLr. pose proof (Hnew _ r mr Hr) as Hmr'.
        replace (n + Z.of_nat (Z.to_nat (s - n))) with s in HLr, Hmr' by lia. rewrite (Hmr' Hmr) in *.
        split_and!; [done|done| |left; by destruct (Hfit _ r Hr)].
        intros Hd. pose proof (iv_dead _ _ _ _ _ _ _ _ (si_writer _ _ _ _ _ _ _ Hi) s Hd) as Hfr.
        pose proof (front_le crc size cfg _ _ _ _ _ (si_writer _ _ _ _ _ _ _ Hi)). lia. }
    destruct Hsl as (r & Hr & HLs' & Hnd & Hp). split; [done|]. split; [done|].
    destruct (frees_get sealed (b_index b') s r Hr) as [Hg|[Hin Hg]]; eexists; (split; [exact Hg|]);
      (eapply freed_serves; [exact Hp|done|by apply Hreg'|]); [by left|by right].
Qed.
(** *** The operations *)
Lemma append_box_eq recs now_ms now fault (x : SegBox V) :
  recs ≠ [] →
  let n := tail_seq (b_index (bx_topic x)) in
  append_box crc recs now_ms now fault x =
    materialize_box crc now fault (n, n + Z.of_nat (length recs) - 1)
      (mkBox (append (bx_topic x) recs now_ms).1 (bx_seam x) (bx_segs x)).
Proof. by destruct recs. Qed.

Lemma append_index b recs now : b_index (append b recs now).1 = foldl push_record (b_index b) recs.
Proof. by destruct recs. Qed.

Lemma append_sim x m recs now_ms now fault :
  sim x m → op_ok (TopicLog.OpAppend recs now_ms) m → fits crc size m recs →
  sim (append_box crc recs now_ms now fault x) (append m recs now_ms).1.
Proof.
  intros Hsim Hok Hfit. destruct (decide (recs = [])) as [->|Hne]; [by destruct x, m|].
  pose proof Hsim as [Hs Hst _ _]. rewrite append_box_eq, (same_tail _ _ Hs) by done.
  assert (Hm : (append m recs now_ms).1 = appended m recs now_ms) by (by rewrite append_eq by (done || apply Hst)).
  assert (Htl : tail_seq (b_index (append m recs now_ms).1) = tail_seq (b_index m) + Z.of_nat (length recs)).
  { rewrite append_index. apply foldl_push_fields. }
  pose proof (st_tail _ Hst) as Ht. apply (grow_sim x m _ _ recs); [done|done|done|apply append_index|by apply same_append| |done|..].
  - rewrite Hm. by apply appended_settled.
  - intros s mr Hlt. rewrite Hm, appended_view by done. by rewrite (proj2 (Z.leb_le _ _)) by lia.
  - intros i r mr Hr. rewrite Hm, appended_view, (proj2 (Z.leb_gt _ _)) by (done || lia).
    replace (Z.to_nat (tail_seq (b_index m) + Z.of_nat i - (b_head_seq m + 1))) with i by lia. congruence.
Qed.

Lemma trim_sim x m now fault :
  sim x m → op_ok (V := V) OpSourceTrim m → fits crc size m [deleted_hole] → sim (source_trim_box crc now fault x) (note_source_trim m).
Proof.
  intros Hsim Hok Hfit. pose proof Hsim as [Hs Hst _ _]. destruct (source_trim_spec m Hst Hok) as (Hst' & Hh & _ & Hv).
  unfold source_trim_box. rewrite (same_tail _ _ Hs). set (n := tail_seq (b_index m)).
  replace (n, n) with (n, n + Z.of_nat (length [deleted_hole (V := V)]) - 1) by (simpl; f_equal; lia).
  apply (grow_sim x m _ _ [deleted_hole]); [done|done|done|done|by apply same_trim|done|..].
  - pose proof (st_tail _ Hst'). pose proof (st_tail _ Hst). simpl length. lia.
  - intros s mr _. by rewrite Hv.
  - intros i r mr _. by rewrite Hv.
Qed.

(** An operation that takes no seq. *)
Lemma sim_intro b seam w t rl rs m m' L dead :
  same b m' → settled m' → b_head_seq m' = b_head_seq m → settled m → seam = mkSeam (tail_seq (b_index m)) ∅ →
  inv (mkSegs w t rl rs) L dead (tail_seq (b_index m)) → serves b w L dead rs m' → sim (mkBox b seam (mkSegs w t rl rs)) m'.
Proof.
  intros Hs Hst' Hh Hst -> Hi Hsv. assert (Ht : tail_seq (b_index m') = tail_seq (b_index m)).
  { rewrite (st_tail _ Hst'), (st_tail _ Hst). lia. }
  split; simpl; [done|done|by rewrite Ht|]. exists L, dead. by rewrite Ht.
Qed.

Lemma delete_seg_shape b bs mt bh now f w t :
  let '(b0, _, (w0, t0)) := enforce_retention_seg b now (df_retain f) w t in
  let bound := delete_bound b0 bs bh in
  let vs := delete_victims b0 mt bound in
  let b3 := (reclaim_front (prefix_floored (marked b0 vs) bs mt bound) (b_head_seq b0)).1 in
  let '(b', _, wt) := apply_delete_seg b bs mt bh now f w t in
  b' = b3 ∧ wt = let '(w1, t1) := reclaim_segments (df_drop f) b3 w0 t0 in flag_sealed_deletes (df_flags f) (marked_seqs (b_index b0) vs) w1 t1.
Proof.
  unfold apply_delete_seg. destruct (enforce_retention_seg b now _ w t) as [[b0 ra] [w0 t0]]. unfold prefix_floored, marked.
  destruct (mark_all (b_index b0) _ 0 0) as [[ix fr] d]. cbn [b_index subtract_counts with_counts TopicState.with_index].
  destruct (reclaim_front _ _) as [b3 ff]. cbn [fst]. destruct (reclaim_segments _ b3 w0 t0). by split.
Qed.

Lemma delete_seqs_shape b seqs f w t :
  let b3 := (reclaim_front (marked b seqs) (b_head_seq b)).1 in
  let '(b', _, wt) := delete_seqs_seg b seqs f w t in
  b' = b3 ∧ wt = let '(w1, t1) := reclaim_segments (df_drop f) b3 w t in flag_sealed_deletes (df_flags f) (marked_seqs (b_index b) seqs) w1 t1.
Proof.
  unfold delete_seqs_seg, marked. destruct (mark_all (b_index b) seqs 0 0) as [[ix fr] d].
  destruct (reclaim_front _ _) as [b3 ff]. cbn [fst]. destruct (reclaim_segments _ b3 w t). by split.
Qed.

Lemma retention_sim b seam w t rl rs m now dels :
  sim (mkBox b seam (mkSegs w t rl rs)) m →
  let '(b', _, (w', t')) := enforce_retention_seg b now dels w t in
  sim (mkBox b' seam (mkSegs w' t' rl rs)) (enforce_retention m now).1.
Proof.
  intros [Hs Hst Hseam (L & dead & Hi & Hsv)]. simpl in *.
  pose proof (retention_serves b m now dels w t rl rs L dead _ Hs Hst Hi Hsv) as Hr.
  destruct (enforce_retention_seg b now dels w t) as [[b' ra] [w' t']]. destruct Hr as (Hb & Hi' & Hsv').
  eapply (sim_intro _ _ _ _ _ _ m); [|by apply enforce_retention_settled|by apply enforce_retention_head, Hst|done|done|exact Hi'|exact Hsv'].
  pose proof (same_retention b m now Hs) as Hs'. by rewrite <-Hb in Hs'.
Qed.

Lemma delete_sim b seam w t rl rs m bs mt bh now f :
  sim (mkBox b seam (mkSegs w t rl rs)) m → op_ok (OpDelete bs mt bh now) m →
  let '(b', _, (w', t')) := apply_delete_seg b bs mt bh now f w t in
  sim (mkBox b' seam (mkSegs w' t' rl rs)) (apply_delete_stats m bs mt bh now).1.
Proof.
  intros Hsim (Hb1 & Hb2 & Hb3). pose proof Hsim as [Hs Hst Hseam _]. simpl in Hs, Hseam.
  pose proof (retention_sim b seam w t rl rs m now (df_retain f) Hsim) as H0. pose proof (delete_seg_shape b bs mt bh now f w t) as Hsh.
  destruct (enforce_retention_seg b now (df_retain f) w t) as [[b0 ra] [w0 t0]]. destruct H0 as [Hs0 Hst0 _ (L & dead & Hi & Hsv)]. simpl in *.
  destruct (apply_delete_spec m bs mt bh now Hst Hb1 Hb2 Hb3) as (Hst3 & Hh3 & Hv3).
  pose proof (apply_delete_eq m bs mt bh now) as Heq. cbv zeta in Heq. set (m0 := (enforce_retention m now).1) in *.
  destruct (apply_delete_seg b bs mt bh now f w t) as [[b' st] [w' t']]. destruct Hsh as [-> Hwt].
  assert (Hbd : delete_bound b0 bs bh = delete_bound m0 bs bh) by (unfold delete_bound; by rewrite (same_head _ _ Hs0)).
  rewrite Hbd, (same_victims b0 m0), (same_head b0 m0) in * by done. set (vs := delete_victims m0 mt _) in *.
  set (b3 := (reclaim_front (prefix_floored (marked b0 vs) _ _ _) _).1) in *.
  assert (Hs3 : same b3 (apply_delete_stats m bs mt bh now).1).
  { rewrite Heq. by apply same_front, same_floored, same_marked. }
  assert (Hkm : kept (marked b0 vs) b3) by (eapply kept_trans; [apply kept_floored|apply kept_front]).
  pose proof (marked_serves b0 m0 b3 _ vs f w0 t0 rl rs L dead (tail_seq (b_index m0)) Hs3 (st_wf _ Hst3)
    (kept_trans _ _ _ (kept_marked b0 vs) Hkm) Hkm) as Hm. destruct (reclaim_segments (df_drop f) b3 w0 t0) as [w1 t1]. rewrite <-Hwt in Hm.
  destruct Hm as (dead' & Hi' & Hsv'); [|exact Hi|exact Hsv|].
  - intros s mr. rewrite Hv3. destruct (view m0 s); [|done]. by destruct (del_selects _ _ _ _).
  - assert (Hh0 : b_head_seq m0 = b_head_seq m) by (apply enforce_retention_head, Hst).
    assert (Ht0 : tail_seq (b_index m0) = tail_seq (b_index m)).
    { rewrite (st_tail _ Hst0), (st_tail _ Hst). lia. }
    rewrite Ht0 in Hi'. by eapply (sim_intro _ _ _ _ _ _ m).
Qed.

Lemma delete_seqs_sim b seam w t rl rs m seqs f :
  sim (mkBox b seam (mkSegs w t rl rs)) m →
  let '(b', _, (w', t')) := delete_seqs_seg b seqs f w t in
  sim (mkBox b' seam (mkSegs w' t' rl rs)) (delete_seqs_stats m seqs).1.
Proof.
  intros [Hs Hst Hseam (L & dead & Hi & Hsv)]. simpl in *. pose proof (delete_seqs_shape b seqs f w t) as Hsh.
  destruct (delete_seqs_spec m seqs Hst) as (Hst3 & Hh3 & Hv3). pose proof (delete_seqs_eq m seqs) as Heq.
  destruct (delete_seqs_seg b seqs f w t) as [[b' st] [w' t']]. destruct Hsh as [-> Hwt].
  rewrite (same_head b m Hs) in *. set (b3 := (reclaim_front (marked b seqs) _).1) in *.
  assert (Hs3 : same b3 (delete_seqs_stats m seqs).1) by (rewrite Heq; by apply same_front, same_marked).
  assert (Hkm : kept (marked b seqs) b3) by apply kept_front.
  pose proof (marked_serves b m b3 _ seqs f w t rl rs L dead (tail_seq (b_index m)) Hs3 (st_wf _ Hst3)
    (kept_trans _ _ _ (kept_marked b seqs) Hkm) Hkm) as Hm. destruct (reclaim_segments (df_drop f) b3 w t) as [w1 t1]. rewrite <-Hwt in Hm.
  destruct Hm as (dead' & Hi' & Hsv'); [|exact Hi|exact Hsv|by eapply (sim_intro _ _ _ _ _ _ m)].
  intros s mr. rewrite Hv3. by destruct (decide _).
Qed.

(** Reads and relocation leave the topic alone. *)
Lemma segs_sim b seam w w' t t' rl rl' rs rs' m :
  sim (mkBox b seam (mkSegs w t rl rs)) m → (∀ s, registered w s → registered w' s) →
  (∀ rd, rd ∈ rs' → rd ∈ rs ∨ registered w (or_seq rd) ∨ ∃ rd0, rd0 ∈ rs ∧ or_seq rd0 = or_seq rd) →
  (∀ L dead n, inv (mkSegs w t rl rs) L dead n → ∃ dead', inv (mkSegs w' t' rl' rs') L dead' n ∧ dead' ⊆ dead) →
  sim (mkBox b seam (mkSegs w' t' rl' rs')) m.
Proof.
  intros [Hs Hst Hseam (L & dead & Hi & Hsv)] Hk Hrs Hinv. simpl in *. destruct (Hinv _ _ _ Hi) as (dead' & Hi' & Hsub).
  eapply (sim_intro _ _ _ _ _ _ m); [done|done|done|done|done|exact Hi'|].
  assert (Hsv' : serves b w' L dead' rs m).
  { apply (serves_step b b w w' L dead dead' rs m m); [done|apply kept_refl|done|by auto| |done].
    intros s Hin. left. by apply Hsub. }
  destruct Hsv' as [Hslots Hrd]. split; [done|].
  intros rd [Hin|[Hreg|(rd0 & Hin & <-)]]%Hrs Hvis; [by apply Hrd|by apply Hk|by apply Hrd].
Qed.

Lemma read_start_registered w t L dead n seq rd :
  writer_inv crc size cfg w t L dead n → rd ∈ read_start w seq → registered w (or_seq rd).
Proof.
  intros Hw. unfold read_start, resolve_sealed_fast. destruct (cache_find (sw_cache w) seq); [by intros ?%not_elem_of_nil|].
  destruct (cache_find (sw_cold_cache w) seq); [by intros ?%not_elem_of_nil|].
  destruct (segment_for w seq) as [seg|] eqn:Hf; [|by intros ?%not_elem_of_nil]. intros ->%list_elem_of_singleton.
  apply (segment_for_inv _ _ _ _ _ _ _ _ _ _ Hw) in Hf. by exists seg.
Qed.

Lemma advance_reads io k w t rs rd :
  rd ∈ (advance_read crc io k w t rs).2 → rd ∈ rs ∨ ∃ rd0, rd0 ∈ rs ∧ or_seq rd0 = or_seq rd.
Proof.
  unfold advance_read. destruct (rs !! k) as [r|] eqn:Hk; [|by left]. destruct (read_step crc io t r); simpl.
  - intros [j Hj]%list_elem_of_lookup. apply list_lookup_insert_Some in Hj as [(_ & <- & _)|[_ Hj]].
    + right. exists r. split; [by eapply list_elem_of_lookup_2|done].
    + left. by eapply list_elem_of_lookup_2.
  - rewrite delete_take_drop. intros [Hr|Hr]%elem_of_app; left; [by eapply subseteq_take|by eapply subseteq_drop].
Qed.

Lemma read_sim b seam w t rl rs m seq :
  sim (mkBox b seam (mkSegs w t rl rs)) m → sim (mkBox b seam (mkSegs w t rl (rs ++ read_start w seq))) m.
Proof.
  intros Hsim. pose proof Hsim as [_ _ _ (L0 & dead0 & Hi0 & _)].
  apply (segs_sim b seam w w t t rl rl rs _ m Hsim); [done| |].
  - intros rd [?|Hin]%elem_of_app; [by left|right; left]. by eapply read_start_registered, Hin; apply (si_writer _ _ _ _ _ _ _ Hi0).
  - intros L dead n [Hw Hr Hrs]. exists dead. split; [|done]. split; [done..|]. simpl in *.
    intros rd [?|?]%elem_of_app; [by auto|by eapply start_reads].
Qed.

Lemma read_step_sim b seam w t rl rs m k io :
  sim (mkBox b seam (mkSegs w t rl rs)) m →
  let '(w', rs') := advance_read crc io k w t rs in sim (mkBox b seam (mkSegs w' t rl rs')) m.
Proof.
  intros Hsim. pose proof Hsim as [_ _ _ (L0 & dead0 & [Hw0 _ Hrs0] & _)]. pose proof (advance_reads io k w t rs) as Hrd.
  pose proof (λ L dead n, advance_inv crc size crc_u64 cfg w t L dead n io k rs) as Ha.
  pose proof (Ha _ _ _ Hw0 Hrs0) as Hseal.
  destruct (advance_read crc io k w t rs) as [w' rs']. destruct Hseal as (_ & _ & _ & Hseal).
  apply (segs_sim b seam w w' t t rl rl rs rs' m Hsim).
  - intros s (sg & ? & ?). exists sg. by rewrite Hseal.
  - intros rd [?|?]%Hrd; auto.
  - intros L dead n [Hw Hr Hrs]. exists dead. split; [|done]. destruct (Ha L dead n Hw Hrs) as (? & ? & ? & _).
    split; [done|by eapply reloc_grows|done].
Qed.

Lemma relocate_sim b seam w t rl rs m f :
  sim (mkBox b seam (mkSegs w t rl rs)) m →
  let '(w', t', rl') := relocate_step crc f rl w t in sim (mkBox b seam (mkSegs w' t' rl' rs)) m.
Proof.
  intros Hsim. pose proof (relocate_registered f rl w t) as Hk.
  pose proof (λ L dead n, relocate_inv crc size crc_u64 cfg f rl w t L dead n) as Hr.
  destruct (relocate_step crc f rl w t) as [[w' t'] rl']. apply (segs_sim b seam w w' t t' rl rl' rs rs m Hsim); [done|by left|].
  intros L dead n [Hw Hrl Hrs]. destruct (Hr L dead n Hw Hrl) as (dead' & ? & ? & ? & _ & Hex). exists dead'.
  split; [|done]. split; [done..|]. simpl in *. intros rd Hin. eapply reading_extends; [exact Hex|done|by auto].
Qed.

Lemma exec_sim x m op :
  sim x m → from_option (λ o, op_ok o m) True (topic_op op) → seg_op_ok crc size op m → sim (exec_box crc x op) (mem_op op m).
Proof.
  intros Hsim Hok Hseg. destruct x as [b seam [w t rl rs]].
  destruct op as [recs now_ms now fault|now_ms dels|bs mt bh now_ms f|seqs f|now fault|seq|k io|f]; cbn [exec_box mem_op topic_op from_option exec_op bx_segs bx_topic bx_seam] in *.
  - by apply append_sim.
  - pose proof (retention_sim b seam w t rl rs m now_ms dels Hsim) as H. by destruct (enforce_retention_seg _ _ _ _ _) as [[b' ra] [w' t']].
  - pose proof (delete_sim b seam w t rl rs m bs mt bh now_ms f Hsim Hok) as H.
    by destruct (apply_delete_seg _ _ _ _ _ _ _ _) as [[b' st] [w' t']].
  - pose proof (delete_seqs_sim b seam w t rl rs m seqs f Hsim) as H. by destruct (delete_seqs_seg _ _ _ _ _) as [[b' st] [w' t']].
  - by apply trim_sim.
  - by apply read_sim.
  - pose proof (read_step_sim b seam w t rl rs m k io Hsim) as H. by destruct (advance_read _ _ _ _ _ _).
  - pose proof (relocate_sim b seam w t rl rs m f Hsim) as H. by destruct (relocate_step _ _ _ _ _) as [[w' t'] rl'].
Qed.

Lemma run_sim ops : ∀ x m, sim x m → box_ops_ok crc size ops m →
  sim (foldl (exec_box crc) x ops) (foldl (λ m op, mem_op op m) m ops).
Proof.
  induction ops as [|op ops IH]; intros x m Hsim; [done|]. intros (Hok & Hseg & Hops). apply IH; [by apply exec_sim|done].
Qed.

Lemma box_new_sim name id config seq_base epoch has_cold :
  1 <= seq_base <= u64_max →
  sim (box_new name id config seq_base epoch cfg has_cold) (topic_new name id config seq_base epoch).
Proof.
  intros Hb. pose proof (topic_new_settled (V := V) name id config seq_base epoch Hb) as Hst.
  assert (Ht : tail_seq (b_index (topic_new (V := V) name id config seq_base epoch)) = seq_base) by (unfold tail_seq; simpl; lia).
  split; [done|done|by rewrite Ht|]. exists ∅, ∅. rewrite Ht. split; [by apply segs_new_inv|].
  split; [|by intros rd ?%not_elem_of_nil]. intros s mr (_ & Hg & _)%view_Some. unfold get in Hg. simpl in Hg. by destruct (_ <? _).
Qed.

Lemma payload_served `{!SerdeLaws V} f w t rs rl L dead n s r mr :
  inv (mkSegs w t rl rs) L dead n → L !! s = Some (stored_seg s mr) → slot_serves w s r mr →
  let p := (resolve_payload crc f s r w t).2 in
  (p = (r_data mr, r_meta mr) ∨ p = (json_null, None)) ∧ (f = ReadOk → s ∉ dead → p = (r_data mr, r_meta mr)).
Proof.
  intros [Hw _ _] HL Hp. simpl in Hw. unfold resolve_payload.
  destruct Hp as [(-> & -> & ->)|(-> & Hd & Hm & seg & Hin & Hr)]; [simpl; auto|].
  destruct (resolve_sealed_spec crc size crc_u64 f cfg w t L dead n seg s Hw Hin Hr) as (rec & HL' & Hany & Hok).
  rewrite HL in HL'. injection HL' as <-. simpl in Hany, Hok. rewrite decode_payload_encode in Hany, Hok.
  rewrite Hd, Hm. destruct (resolve_sealed crc f w t s) as [w' [p|]]; simpl in *.
  - destruct Hany as [?|[= ->]]; [done|auto].
  - split; [by right|]. intros ? Hnd. by specialize (Hok H Hnd).
Qed.

Lemma read_served `{!SerdeLaws V} w t rl rs L dead n rd io p mr :
  inv (mkSegs w t rl rs) L dead n → rd ∈ rs → registered w (or_seq rd) → L !! or_seq rd = Some (stored_seg (or_seq rd) mr) →
  read_step crc io t rd = inr (Some p) → p = (r_data mr, r_meta mr).
Proof.
  intros [Hw _ Hrs] Hin Hreg HL Hstep. pose proof (read_step_ok crc size crc_u64 cfg w t L dead n io rd Hw (Hrs rd Hin)) as Hok.
  rewrite Hstep in Hok. destruct (Hok p eq_refl Hreg) as (rec & HL' & ->). rewrite HL in HL'. injection HL' as <-.
  apply decode_payload_encode.
Qed.

(** C15. The segments of a topic are transparent.  Take a new topic, a configuration whose
    byte or event trigger keeps a segment below 4 GiB for the frames of its records, and
    any sequence of appends, retention passes, deletes and source-trim holes, each run to
    its end, in which the records fit the segment format and the seqs and bytes their
    counters, interleaved with the steps of relocations and of off-lock reads, with any
    failure of the segment files' reads, writes, syncs and unlinks.  The topic that seals
    its records into segments, frees their payloads, unlinks dead segments and flips
    delete flags then has the head and the floors of the topic that keeps every record in
    memory, and serves the same records.  A read that no other operation interrupts and
    whose file reads succeed gives the same data and meta, as does the lookup of a router;
    a failed one gives null; and a read in progress, whatever ran meanwhile, ends with the
    same data and meta or with nothing. *)
Theorem segments_transparent `{!SerdeLaws V} name id config seq_base epoch has_cold ops :
  1 <= seq_base <= u64_max → box_ops_ok crc size ops (topic_new name id config seq_base epoch) →
  let x := foldl (exec_box crc) (box_new name id config seq_base epoch cfg has_cold) ops in
  let m := foldl (λ m op, mem_op op m) (topic_new name id config seq_base epoch) ops in
  b_head_seq (bx_topic x) = b_head_seq m ∧ earliest_seq (bx_topic x) = earliest_seq m ∧
  ∀ s, match view m s with
       | Some mr => ∃ r, strip r = strip mr ∧
           serve crc ReadOk x s = Some (r, (r_data mr, r_meta mr)) ∧
           (∀ f, serve crc f x s = Some (r, (r_data mr, r_meta mr)) ∨ serve crc f x s = Some (r, (json_null, None))) ∧
           (∃ r', forward_lookup_seg crc ReadOk x s = Some (r', true) ∧ strip r' = strip mr ∧
              r_data r' = r_data mr ∧ r_meta r' = r_meta mr) ∧
           (∀ rd io p, rd ∈ ts_reads (bx_segs x) → or_seq rd = s →
              read_step crc io (ts_tier (bx_segs x)) rd = inr (Some p) → p = (r_data mr, r_meta mr))
       | None => ∀ f, serve crc f x s = None
       end.
Proof.
  intros Hb Hops x m. assert (Hsim : sim x m) by (apply run_sim; [by apply box_new_sim|done]).
  destruct Hsim as [Hs Hst _ (L & dead & Hi & [Hsv Hrd])]. split; [by apply same_head|].
  split; [by apply (f_equal earliest_seq) in Hs; rewrite !strip_earliest in Hs|]. intros s.
  pose proof (same_view _ _ s Hs) as Hv. unfold serve, forward_lookup_seg. destruct x as [b seam [w t rl rs]]. simpl in *.
  destruct (view m s) as [mr|] eqn:Hmr; [|by destruct (view b s)].
  destruct (view b s) as [r|] eqn:Hr; [|done]. apply (inj Some (strip r) (strip mr)) in Hv. exists r. split; [done|].
  destruct (Hsv s mr Hmr) as (HL & Hnd & r' & Hr' & Hp). apply view_Some in Hr as (_ & Hg & Hdel). assert (r' = r) as -> by congruence.
  pose proof (λ f, payload_served f w t rs rl L dead _ s r mr Hi HL Hp) as Hserve. cbv zeta in Hserve. simpl. split_and!.
  - by rewrite (proj2 (Hserve ReadOk) eq_refl Hnd).
  - intros f. destruct (Hserve f) as [[->| ->] _]; auto.
  - rewrite Hg. simpl. rewrite Hdel. destruct (r_payload_resident r) eqn:Hres.
    + exists r. split_and!; [done..| |]; destruct Hp as [(_ & ? & ?)|(? & _)]; congruence.
    + eexists. split; [done|]. rewrite (proj2 (Hserve ReadOk) eq_refl Hnd). simpl. rewrite <-Hv. unfold strip. by rewrite Hdel.
  - intros rd io p Hin <- Hstep. eapply read_served; [exact Hi|done| |exact HL|exact Hstep].
    apply Hrd; [done|]. apply view_visible. by exists mr.
Qed.
End serving.

(** ** The reclaim of a restart *)
Section recovery.
Context {V : Type} `{!JsonNull V} `{!Serde V} (crc : bytes → Z).
Hypothesis crc_u64 : ∀ b, is_u64 (crc b).
Implicit Types (b : TopicState V) (w : SegmentWriter V) (t : TopicTier).

Lemma ondisk_deletes_eq f reads b t :
  (apply_ondisk_segment_deletes_on_recovery crc f reads b t = b ∧ scan_ondisk_deleted crc f reads t = []) ∨
  apply_ondisk_segment_deletes_on_recovery crc f reads b t = (delete_seqs_stats b (scan_ondisk_deleted crc f reads t)).1.
Proof.
  unfold apply_ondisk_segment_deletes_on_recovery, delete_seqs_stats.
  destruct (scan_ondisk_deleted crc f reads t) as [|s seqs]; [by left|right].
  destruct (mark_all _ _ _ _) as [[ix fr] d]. by destruct (reclaim_front _ _).
Qed.

Lemma drop_segments_keeps dels ids w t seg :
  seg ∈ sw_sealed w → sl_start_seq seg ∉ ids → seg ∈ sw_sealed (drop_segments dels ids w t).1.
Proof.
  unfold drop_segments. revert w t. induction ids as [|id ids IH]; intros w t Hin Hnot; [done|]. cbn [foldl fst snd].
  unfold drop_segment at 2. destruct (find_sealed w id); [|apply IH; set_solver].
  apply IH; [|set_solver]. simpl. apply list_elem_of_filter. set_solver.
Qed.

(** Both unlinks of an id succeed in both stores. *)
Definition unlinked (dels : DelFaults) : Prop := unlinks dels.1 = true ∧ unlinks dels.2 = true.

Lemma delete_gone (dels : DelFaults) t id : unlinked dels → ¬ on_disk (delete_files dels id t) id.
Proof.
  intros [Hh Hc]. assert (Hst : ∀ fault st, unlinks fault = true →
    sg_data (store_delete fault st id) !! id = None ∧ sg_idx (store_delete fault st id) !! id = None).
  { intros [] st Hu; try done; simpl; by rewrite !lookup_delete_eq. }
  unfold on_disk, delete_files. simpl. destruct (Hst dels.1 (tt_hot t) Hh) as [-> ->].
  intros [[? ?]|[[? ?]|(c & Hcold & Hd)]]; [done..|]. destruct (tt_cold t) as [c0|]; [|done]. injection Hcold as <-.
  destruct (Hst dels.2 c0 Hc) as [H1 H2]. rewrite H1, H2 in Hd. by destruct Hd as [[]|[]].
Qed.

Lemma orphans_gone dels floor w t id :
  unlinked (dels id) → on_disk (reclaim_orphans_below (mkListFault true true) dels floor w t).1 id →
  floor <= id ∨ id ∈ sl_start_seq <$> sw_sealed w.
Proof.
  intros Hu. unfold reclaim_orphans_below. set (orphans := filter _ _). cbn [fst].
  assert (Hrun : ∀ l t0, on_disk (foldl (λ t id, delete_files (dels id) id t) t0 l) id → on_disk t0 id ∧ id ∉ l).
  { induction l as [|o l IH]; intros t0 Hd; [by split; [|apply not_elem_of_nil]|].
    apply IH in Hd as [Hd Hnot]. destruct (decide (o = id)) as [->|Hne]; [by apply delete_gone in Hd|].
    split; [|set_solver]. destruct (delete_frame (V := V) (dels o) t0 o) as (_ & Hsub & _). by apply Hsub. }
  intros [Hd Hnot]%Hrun. destruct (decide (id ∈ sl_start_seq <$> sw_sealed w)) as [?|Hreg]; [by right|left].
  apply Z.nlt_ge. intros Hlt. apply Hnot. unfold orphans. apply list_elem_of_filter. split.
  - split; [done|]. by rewrite elem_of_list_to_set.
  - rewrite (merge_sort_Permutation Z.le _). apply elem_of_elements. unfold listed. simpl.
    destruct Hd as [?|[?|(c & -> & [?|?])]]; rewrite !elem_of_union, !elem_of_dom; auto.
Qed.

(** C28. What a restart derives from the segment files.  The files are in the writer's
    format: every segment whose two files are there is a run of frames with the flags it
    has, possibly torn between its two files or stale, and no segment is registered twice.
    After the reclaim of a recovered topic, with any failures of the listings, reads and unlinks: every seq whose delete flag
    is set in the files of a segment that was listed and read is gone, and every other
    record reads as before, whatever the replayed log said of it; a segment that holds a
    visible record stays registered; and, if the stores were listed, a file of an
    unregistered segment is left below the first record of the index only when one of
    the segment's own unlinks failed. *)
Theorem ondisk_deletes_recovered f b w t :
  settled b → NoDup (sl_start_seq <$> sw_sealed w) → tier_ok crc t →
  let '(b', w', t', _) := reclaim_segments_on_recovery crc f b w t in
  settled b' ∧ b_head_seq b' = b_head_seq b ∧
  (∀ s, flag_on_disk crc (rv_scan f) (rv_reads f) t s → view b' s = None) ∧
  (∀ s, ¬ flag_on_disk crc (rv_scan f) (rv_reads f) t s → view b' s = view b s) ∧
  (∀ s, visible b' s → registered w s → registered w' s) ∧
  (rv_orphans f = mkListFault true true →
   ∀ id, on_disk t' id → base_seq (b_index b') <= id ∨ id ∈ sl_start_seq <$> sw_sealed w' ∨ ¬ unlinked (rv_unlink f id)).
Proof.
  intros Hst Hnd Ht. unfold reclaim_segments_on_recovery.
  set (b' := apply_ondisk_segment_deletes_on_recovery crc (rv_scan f) (rv_reads f) b t).
  assert (Hb : settled b' ∧ b_head_seq b' = b_head_seq b ∧
    ∀ s, view b' s = if decide (s ∈ scan_ondisk_deleted crc (rv_scan f) (rv_reads f) t) then None else view b s).
  { unfold b'. destruct (ondisk_deletes_eq (rv_scan f) (rv_reads f) b t) as [[-> ->]| ->]; [|by apply delete_seqs_spec].
    split_and!; [done|done|]. intros s. by rewrite decide_False by apply not_elem_of_nil. }
  destruct Hb as (Hst' & Hh & Hv). unfold reclaim_segments.
  set (ids := sl_start_seq <$> filter (λ seg, seg_dead b' seg = true) (sw_sealed w)).
  assert (Hk : ∀ s, visible b' s → registered w s → registered (drop_segments (rv_drop f) ids w t).1 s).
  { intros s Hvis (seg & Hin & Hs). exists seg. split; [|done]. apply drop_segments_keeps; [done|].
    intros (seg' & Heq & [Hdead Hin']%list_elem_of_filter)%list_elem_of_fmap.
    assert (seg = seg') as <-.
    { apply list_elem_of_lookup in Hin as [i Hi], Hin' as [j Hj].
      assert (i = j) as <-; [|congruence]. eapply (NoDup_lookup _ _ _ (sl_start_seq seg) Hnd);
        rewrite list_lookup_fmap; [by rewrite Hi|by rewrite Hj, Heq]. }
    rewrite (visible_seg b' seg s) in Hdead by (done || apply Hst'). done. }
  destruct (drop_segments (rv_drop f) ids w t) as [w' t1]. cbn [fst] in Hk.
  pose proof (orphans_gone (rv_unlink f) (base_seq (b_index b')) w' t1) as Ho.
  destruct (rv_orphans f) as [[] []] eqn:Hl;
    destruct (reclaim_orphans_below _ (rv_unlink f) (base_seq (b_index b')) w' t1) as [t' n] eqn:Hr; split_and!; try done.
  all: try (intros s Hs%(scan_exact crc crc_u64 _ _ _ _ Ht); by rewrite Hv, decide_True).
  all: try (intros s Hs; rewrite Hv, decide_False; [done|by rewrite (scan_exact crc crc_u64 _ _ _ _ Ht)]).
  intros _ id Hd. simpl in Ho. destruct (decide (unlinked (rv_unlink f id))) as [Hu|]; [|auto].
  destruct (Ho id Hu Hd); auto.
Qed.
End recovery.

(** ** Samples *)
Module ReclaimSamples.
Import JsonSample SegmentSamples.

Definition rec (v : Json) : StoredRecord Json := mkRecord 10 None None v None 8 false true 0.
Definition pair_cfg : SegmentConfig := mkSegConfig 2 0 0 0 0.
Definition fresh : TopicState Json := topic_new "t" 1 default_config 1 0.
Definition fresh_box : SegBox Json := box_new "t" 1 default_config 1 0 pair_cfg false.
Definition push (v : Json) : BoxOp Json := BAppend [rec v] 10 (λ _, 10) (λ _, PutOk).

Definition no_fault : DeleteFault := mkDelFault (λ _, (DelOk, DelOk)) (λ _, (DelOk, DelOk)) (λ _, FlagMark MarkOk).

(** Segments of two records; the first one loses a record and the second both. *)
Definition life : list (BoxOp Json) :=
  [push (JNumber 1); push (JNumber 2); push (JNumber 3); push (JNumber 4); push (JNumber 5);
   BDeleteSeqs [3; 4; 2] no_fault; BRead 1].
Definition lived : SegBox Json := foldl (exec_box len_crc) fresh_box life.

Lemma pair_cfg_ok : config_ok 1000 pair_cfg.
Proof. unfold config_ok. simpl. lia. Qed.
Lemma base_ok : 1 <= 1 <= u64_max.
Proof. done. Qed.
Lemma push_ok v ops (m : TopicState Json) :
  bool_decide (tail_seq (b_index m) + 1 <= u64_max) = true →
  bool_decide (total_bytes (records (b_index m)) + 8 <= u64_max) = true →
  bool_decide (0 <= tail_seq (b_index m)) = true → bool_decide (Z.of_nat (length (encode_payload v None)) < 2 ^ 31) = true →
  bool_decide (Z.of_nat (length (encode_data_frame len_crc (stored_seg (tail_seq (b_index m)) (rec v)))) <= 1000) = true →
  box_ops_ok len_crc 1000 ops (mem_op (push v) m) → box_ops_ok len_crc 1000 (push v :: ops) m.
Proof.
  rewrite !bool_decide_eq_true. intros Ht Hb H0 Hl Hf Hops. split; [|split; [|done]].
  - split; [by apply Forall_singleton|]. split; [done|]. unfold total_bytes at 2. simpl. lia.
  - intros [|i] r; [intros [= <-]|done]. rewrite Z.add_0_r. split; [done|]. split; [|exact Hf]. by repeat split; simpl; try lia.
Qed.

Lemma life_ok : box_ops_ok len_crc 1000 life fresh.
Proof. do 5 (apply push_ok; [by vm_compute..|]). done. Qed.
Lemma life_first : view (foldl (λ m op, mem_op op m) (topic_new "t" 1 default_config 1 0) life) 1 = Some (rec (JNumber 1)).
Proof. by vm_compute. Qed.
Lemma life_segments :
  (sl_start_seq <$> sw_sealed (ts_writer (bx_segs lived)), serve len_crc ReadOk lived 2,
   r_payload_resident <$> view (bx_topic lived) 1) = ([1], None, Some false).
Proof. by vm_compute. Qed.

Lemma segments_transparent_witness :
  (sl_start_seq <$> sw_sealed (ts_writer (bx_segs lived)), serve len_crc ReadOk lived 2,
   r_payload_resident <$> view (bx_topic lived) 1) = ([1], None, Some false) ∧
  ∃ r, strip r = strip (rec (JNumber 1)) ∧ serve len_crc ReadOk lived 1 = Some (r, (JNumber 1, None)).
Proof.
  split; [exact life_segments|].
  pose proof (segments_transparent len_crc len_crc_u64 1000 pair_cfg pair_cfg_ok "t" 1 default_config 1 0 false life
    base_ok life_ok) as Hall.
  cbv zeta in Hall. destruct Hall as (_ & _ & Hall). specialize (Hall 1).
  rewrite life_first in Hall. destruct Hall as (r & Hst & Hserve & _). exists r. split; [exact Hst|exact Hserve].
Defined.

(** A restart whose log no longer tells of the deletes: the index has all five records
    again, and the flag of record 2 is on disk. *)
Definition replayed : TopicState Json :=
  (append fresh [rec (JNumber 1); rec (JNumber 2); rec (JNumber 3); rec (JNumber 4); rec (JNumber 5)] 10).1.

(** The files that are left: one segment, with the flag of its second record. *)
Definition left_rds : list (SegmentRecord * byte) :=
  [(stored_seg 1 (rec (JNumber 1)), SEG_DEL_LIVE); (stored_seg 2 (rec (JNumber 2)), SEG_DEL_SENTINEL)].
Definition left_files : TopicTier :=
  mkTier (mkSegStore {[1 := seg_data len_crc left_rds]} {[1 := idx_of len_crc 1 left_rds.*1]}) None.
Lemma life_files : ts_tier (bx_segs lived) = left_files.
Proof. by vm_compute. Qed.
Lemma left_holds : holds len_crc left_files 1 left_rds.
Proof.
  split.
  - repeat constructor; by repeat split; vm_compute.
  - by vm_compute.
  - intros [|[|i]] r d [= <- <-]; done.
  - by vm_compute.
Qed.
Lemma left_ok : tier_ok len_crc left_files.
Proof.
  intros id data idx. unfold resolved. cbn [tt_hot tt_cold left_files sg_data]. destruct (decide (id = 1)) as [->|Hne].
  - intros _. exists left_rds. exact left_holds.
  - by rewrite lookup_singleton_ne by done.
Qed.
Lemma left_flag : flag_on_disk len_crc (mkListFault true true) (λ _, true) left_files 2.
Proof.
  exists 1, left_rds, 1%nat, (stored_seg 2 (rec (JNumber 2))). split_and!; [|done|exact left_holds|done|done].
  unfold listed. simpl. set_solver.
Qed.
Lemma replayed_settled : settled replayed.
Proof.
  apply (exec_op_refines (TopicLog.OpAppend _ 10) fresh).
  - apply topic_new_settled. unfold u64_max. lia.
  - split; [repeat constructor; done|by split; vm_compute].
Qed.

Definition no_failure : RecoveryFault :=
  mkRecFault (mkListFault true true) (λ _, true) (λ _, (DelOk, DelOk)) (mkListFault true true) (λ _, (DelOk, DelOk)).

Lemma ondisk_deletes_recovered_witness :
  let '(b, w, t, orphans) := reclaim_segments_on_recovery len_crc no_failure replayed (writer_new pair_cfg) left_files in
  view replayed 2 ≠ None ∧ view b 2 = None.
Proof.
  pose proof (ondisk_deletes_recovered len_crc len_crc_u64 no_failure replayed (writer_new pair_cfg) left_files
    replayed_settled NoDup_nil_2 left_ok) as Hr.
  destruct (reclaim_segments_on_recovery _ _ _ _ _) as [[[b w] t] n]. destruct Hr as (_ & _ & Hv & _).
  split; [by vm_compute|]. exact (Hv 2 left_flag).
Defined.

(** A batch whose commit failed is rolled back in place and never handed to the seam.
    The ranges published after it stay buffered: no segment is sealed any more. *)
Definition after_failed_commit : SegBox Json :=
  let '(b, s) := stage_append fresh [rec (JNumber 0)] in
  foldl (exec_box len_crc) (mkBox (rollback_staged_by_seqs b s) (bx_seam fresh_box) (bx_segs fresh_box))
    [push (JNumber 1); push (JNumber 2); push (JNumber 3); push (JNumber 4); push (JNumber 5)].
Example failed_commit_stalls_segments :
  (sw_sealed (ts_writer (bx_segs after_failed_commit)), sw_active (ts_writer (bx_segs after_failed_commit))) = ([], None) ∧
  size (ms_pending (bx_seam after_failed_commit)) = 5%nat ∧
  (r_payload_resident <$> get (b_index (bx_topic after_failed_commit)) 2) = Some true.
Proof. by vm_compute. Qed.
End ReclaimSamples.
