(* ===== verification/Engine.v ===== *)
(** * The engine core

    Models the shared part of [Engine] in [src/engine/mod.rs]: the topic
    registry, the byte quota, the WAL commit path, durable retention and the two
    append paths ([durable_append], [derived_append]), and topic creation.  A
    request runs as one computation of the monad [EM]: the engine state is
    threaded explicitly and an early return is an [Err].

    A topic is referred to by its name, the key of the registry, so that two
    handles to the same topic see each other's updates.  The WAL is the list of
    frames it has accepted; its writer thread is an oracle that decides, for each
    submission, whether it is committed, refused or fails, so that every theorem
    holds for every pattern of faults.  Payloads are resident (the segment writer is not attached). *)

From S2P Require Import Prelude Types Eviction TopicIndex QueueProjection TopicState Bytes Wal.
From S2P Require Import Json Router Sched.

(** The fate of one WAL submission: committed, refused by a full queue, refused
    by a stopped writer, or accepted and then failed. *)
Inductive WalOutcome := Committed | SubmitFull | SubmitFailed | CommitFailed.

Definition SEQ_BASE : Z := 1.
Definition DISK_HEAD_RESERVE_AHEAD : Z := 256.

(** [filter_to_matchsel] and its inverse *)
Definition filter_to_matchsel (f : Filter) : MatchSel :=
  match f_op f with
  | FilterOp.Eq => SelEq (f_value f)
  | FilterOp.Glob => SelGlob (f_value f)
  end.

Definition matchsel_to_filter (m : MatchSel) : Filter :=
  match m with
  | SelEq v => mkFilter FilterOp.Eq v
  | SelGlob v => mkFilter FilterOp.Glob v
  end.

Record Engine (V : Type) := mkEngine {
  e_topics : gmap string (TopicState V);
  e_topic_count : Z;
  e_next_topic_id : Z;
  e_total_bytes_live : Z;
  e_max_total_bytes : Z;
  e_max_topics : Z;
  e_wal : option (list (WalRecord.t * bool));
  e_oracle : list WalOutcome;
  e_now : Z;
  e_max_routers : Z;
  e_routers : RouterGraph;
  e_sched : Sched
}.
Arguments mkEngine {V}.
Arguments e_topics {V}.
Arguments e_topic_count {V}.
Arguments e_next_topic_id {V}.
Arguments e_total_bytes_live {V}.
Arguments e_max_total_bytes {V}.
Arguments e_max_topics {V}.
Arguments e_wal {V}.
Arguments e_oracle {V}.
Arguments e_now {V}.
Arguments e_max_routers {V}.
Arguments e_routers {V}.
Arguments e_sched {V}.

(** ** The request monad *)
Definition EM (V A : Type) : Type := Engine V → Engine V * result ErrorCode A.

#[export] Instance EM_ret V : MRet (EM V) := λ A a e, (e, Ok a).
#[export] Instance EM_bind V : MBind (EM V) :=
  λ A B k m e, match m e with
               | (e, Ok a) => k a e
               | (e, Err c) => (e, Err c)
               end.

Section engine.
Context {V : Type} `{!JsonNull V} `{!Serde V}.
Implicit Types (b : TopicState V) (e : Engine V).

Definition throw {A} (c : ErrorCode) : EM V A := λ e, (e, Err c).
Definition eget : EM V (Engine V) := λ e, (e, Ok e).
Definition emodify (f : Engine V → Engine V) : EM V unit := λ e, (f e, Ok tt).
(** [match m { Ok(_) => .., Err(_) => .. }] *)
Definition attempt {A} (m : EM V A) : EM V (result ErrorCode A) :=
  λ e, let '(e, r) := m e in (e, Ok r).

(** Field updates. *)
Definition set_topics e (ts : gmap string (TopicState V)) : Engine V :=
  mkEngine ts (e_topic_count e) (e_next_topic_id e) (e_total_bytes_live e) (e_max_total_bytes e)
    (e_max_topics e) (e_wal e) (e_oracle e) (e_now e) (e_max_routers e) (e_routers e) (e_sched e).
Definition set_topic_count e (n : Z) : Engine V :=
  mkEngine (e_topics e) n (e_next_topic_id e) (e_total_bytes_live e) (e_max_total_bytes e)
    (e_max_topics e) (e_wal e) (e_oracle e) (e_now e) (e_max_routers e) (e_routers e) (e_sched e).
Definition set_next_topic_id e (n : Z) : Engine V :=
  mkEngine (e_topics e) (e_topic_count e) n (e_total_bytes_live e) (e_max_total_bytes e)
    (e_max_topics e) (e_wal e) (e_oracle e) (e_now e) (e_max_routers e) (e_routers e) (e_sched e).
Definition set_total_bytes e (n : Z) : Engine V :=
  mkEngine (e_topics e) (e_topic_count e) (e_next_topic_id e) n (e_max_total_bytes e)
    (e_max_topics e) (e_wal e) (e_oracle e) (e_now e) (e_max_routers e) (e_routers e) (e_sched e).
Definition set_wal e (w : option (list (WalRecord.t * bool))) (o : list WalOutcome) : Engine V :=
  mkEngine (e_topics e) (e_topic_count e) (e_next_topic_id e) (e_total_bytes_live e)
    (e_max_total_bytes e) (e_max_topics e) w o (e_now e) (e_max_routers e) (e_routers e)
    (e_sched e).
Definition set_now e (now : Z) : Engine V :=
  mkEngine (e_topics e) (e_topic_count e) (e_next_topic_id e) (e_total_bytes_live e)
    (e_max_total_bytes e) (e_max_topics e) (e_wal e) (e_oracle e) now (e_max_routers e)
    (e_routers e) (e_sched e).
Definition set_routers e (g : RouterGraph) : Engine V :=
  mkEngine (e_topics e) (e_topic_count e) (e_next_topic_id e) (e_total_bytes_live e)
    (e_max_total_bytes e) (e_max_topics e) (e_wal e) (e_oracle e) (e_now e) (e_max_routers e) g
    (e_sched e).
Definition set_sched e (s : Sched) : Engine V :=
  mkEngine (e_topics e) (e_topic_count e) (e_next_topic_id e) (e_total_bytes_live e)
    (e_max_total_bytes e) (e_max_topics e) (e_wal e) (e_oracle e) (e_now e) (e_max_routers e)
    (e_routers e) s.

(** ** Topics by name *)

(** [Engine::get_topic] *)
Definition get_topic (name : string) : EM V (option (TopicState V)) :=
  λ e, (e, Ok (e_topics e !! name)).

(** Dereferencing a handle to a topic of the registry. *)
Definition topic_ref (name : string) : EM V (TopicState V) :=
  λ e, match e_topics e !! name with
       | Some b => (e, Ok b)
       | None => (e, Err TopicNotFound)
       end.

Definition store_topic (name : string) b : EM V unit :=
  emodify (λ e, set_topics e (<[name := b]> (e_topics e))).

(** ** Byte quota *)

(** [try_reserve_total_bytes] and [cas_reserve_bytes] *)
Definition try_reserve_total_bytes (incoming : Z) : EM V bool :=
  λ e, let cap := e_max_total_bytes e in
       if cap =? 0 then (e, Ok true)
       else if cap <? e_total_bytes_live e +s incoming then (e, Ok false)
       else (set_total_bytes e (e_total_bytes_live e + incoming), Ok true).

(** [release_total_bytes] *)
Definition release_total_bytes (n : Z) : EM V unit :=
  emodify (λ e, if n =? 0 then e else set_total_bytes e (e_total_bytes_live e -s n)).

(** ** The WAL *)
Definition next_outcome : EM V WalOutcome :=
  λ e, match e_oracle e with
       | [] => (e, Ok Committed)
       | o :: os => (set_wal e (e_wal e) os, Ok o)
       end.

Definition log_frames (fs : list (WalRecord.t * bool)) : EM V unit :=
  emodify (λ e, set_wal e ((λ log, log ++ fs) <$> e_wal e) (e_oracle e)).

(** [wal_commit], with [map_wal_submit_err]: a full queue is throttling, other
    submit errors and a failed fsync are internal errors; a non-durable frame
    that fails after being accepted is lost silently. *)
Definition wal_commit (record : WalRecord.t) (durable : bool) : EM V unit :=
  e ← eget;
  match e_wal e with
  | None => mret tt
  | Some _ =>
      o ← next_outcome;
      match o with
      | SubmitFull => throw Throttled
      | SubmitFailed => throw Internal
      | CommitFailed => if durable then throw Internal else mret tt
      | Committed => log_frames [(record, durable)]
      end
  end.

(** [wal_log] *)
Definition wal_log (record : WalRecord.t) (durable : bool) : EM V unit := wal_commit record durable.

(** [wal_log_best_effort] *)
Definition wal_log_best_effort (record : WalRecord.t) (durable : bool) : EM V unit :=
  _ ← attempt (wal_commit record durable); mret tt.

(** [now.max(0) as u64] *)
Definition ts_of (now : Z) : Z := Z.max now 0.

(** [wal_log_delete_seqs] *)
Definition wal_log_delete_seqs (topic_id : Z) (seqs : list Z) (now : Z) (durable : bool) : EM V unit :=
  wal_log_best_effort (WalRecord.Delete topic_id None None seqs None (ts_of now)) durable.

(** [wal_log_lease] *)
Definition wal_log_lease (record : WalRecord.t) : EM V unit := wal_log_best_effort record true.

(** [log_evict_watermark] *)
Definition log_evict_watermark (topic_id : Z) (adv : RetentionAdvance) (now : Z) : EM V unit :=
  let floor := Z.max (ra_evict_floor adv) (ra_expiry_floor adv) in
  e ← eget;
  match e_wal e with
  | None => mret tt
  | Some _ =>
      if floor =? 0 then mret tt
      else wal_log (WalRecord.EvictWatermark topic_id (ra_evict_floor adv) (ra_expiry_floor adv)
                      (floor +s 1) (ts_of now)) true
  end.

(** [ensure_disk_head_reserved] *)
Definition ensure_disk_head_reserved (name : string) (head now : Z) : EM V unit :=
  e ← eget;
  match e_wal e with
  | None => mret tt
  | Some _ =>
      b ← topic_ref name;
      if head <? b_reserved_head b then mret tt
      else
        let target := Z.max head (b_reserved_head b) +s DISK_HEAD_RESERVE_AHEAD in
        _ ← wal_log (WalRecord.HeadWatermark (b_topic_id b) target (ts_of now)) true;
        store_topic name (set_reserved_head b target)
  end.

(** Whether a retention pass will call its hardening closure. *)
Definition retention_hardens b (now : Z) : bool :=
  let c := b_config b in
  negb (b_head_seq b =? 0) &&
  negb ((cfg_ttl_ms c =? 0) && (cfg_cap_records c =? 0) && (cfg_cap_bytes c =? 0)) &&
  ra_floor_advanced (plan_retention b now) && ra_durable_advance (plan_retention b now).

(** [enforce_retention_durable] *)
Definition enforce_retention_durable (name : string) (now : Z) : EM V unit :=
  b ← topic_ref name;
  if negb (uses_persistent_record_store (b_config b)) then
    let '(b', adv) := enforce_retention b now in
    _ ← store_topic name b';
    release_total_bytes (ra_bytes_reclaimed adv)
  else
    r ← (if retention_hardens b now
         then attempt (log_evict_watermark (b_topic_id b) (plan_retention b now) now)
         else mret (Ok tt));
    let '(b', res) := enforce_retention_hardened b now (λ _, r) in
    _ ← store_topic name b';
    match res with
    | Ok adv => release_total_bytes (ra_bytes_reclaimed adv)
    | Err c => throw c
    end.

(** ** Appends *)

(** The frames of [wal_enqueue_batch]. *)
Definition append_frames (topic_id : Z) (seqs : list Z) (recs : list (StoredRecord V)) (now : Z) :
    list WalRecord.t :=
  zip_with (λ seq r, WalRecord.Append topic_id seq (ts_of now) (r_node r) (r_tag r)
                       (encode_record_payload (r_data r) (r_meta r))) seqs recs.

(** [wal_enqueue_batch]: the whole batch is accepted or none of it; the token
    tells whether the commit will succeed.  Every submit error is internal. *)
Definition wal_enqueue_batch (topic_id : Z) (seqs : list Z) (recs : list (StoredRecord V))
    (now : Z) (durable : bool) : EM V (option bool) :=
  e ← eget;
  match e_wal e with
  | None => mret None
  | Some _ =>
      o ← next_outcome;
      match o with
      | SubmitFull | SubmitFailed => throw Internal
      | CommitFailed => mret (Some false)
      | Committed =>
          _ ← log_frames ((λ f, (f, durable)) <$> append_frames topic_id seqs recs now);
          mret (Some true)
      end
  end.

Definition release_if (reserved : bool) (n : Z) : EM V unit :=
  if reserved then release_total_bytes n else mret tt.

(** [durable_append] *)
Definition durable_append (name : string) (recs : list (StoredRecord V)) (now : Z) : EM V (list Z) :=
  match recs with
  | [] => mret []
  | _ =>
      let incoming_bytes := total_bytes recs in
      e ← eget;
      let bytes_reserved := negb (e_max_total_bytes e =? 0) in
      ok ← (if bytes_reserved then try_reserve_total_bytes incoming_bytes else mret true);
      if negb ok then throw Throttled
      else
        b ← topic_ref name;
        let class := durability_class (b_config b) in
        let durable := bool_decide (class = Fsync) in
        let need_wal := match e_wal e with Some _ => negb (bool_decide (class = Ephemeral)) | None => false end in
        let '(b1, staged) := stage_append b recs in
        _ ← store_topic name b1;
        tok ← (if need_wal
               then attempt (wal_enqueue_batch (b_topic_id b) (staged_seqs staged) recs now durable)
               else mret (Ok None));
        match tok with
        | Err c =>
            _ ← store_topic name (rollback_staged b1 staged);
            _ ← release_if bytes_reserved incoming_bytes;
            throw c
        | Ok (Some false) =>
            _ ← store_topic name (rollback_staged_by_seqs b1 staged);
            _ ← release_if bytes_reserved incoming_bytes;
            throw Internal
        | Ok _ =>
            res ← (if bool_decide (class = Disk)
                   then attempt (ensure_disk_head_reserved name (publish_head staged) now)
                   else mret (Ok tt));
            b2 ← topic_ref name;
            match res with
            | Err c =>
                _ ← store_topic name (rollback_staged_by_seqs b2 staged);
                _ ← release_if bytes_reserved incoming_bytes;
                throw c
            | Ok _ =>
                _ ← store_topic name (publish_staged_no_seal b2 staged now).1;
                mret (staged_seqs staged)
            end
        end
  end.

(** [derived_append]: no WAL frame. *)
Definition derived_append (name : string) (recs : list (StoredRecord V)) (now : Z) : EM V (list Z) :=
  match recs with
  | [] => mret []
  | _ =>
      let incoming_bytes := total_bytes recs in
      e ← eget;
      ok ← (if negb (e_max_total_bytes e =? 0) then try_reserve_total_bytes incoming_bytes
            else mret true);
      if negb ok then throw Throttled
      else
        b ← topic_ref name;
        let '(b1, staged) := stage_append b recs in
        _ ← store_topic name (publish_staged_no_seal b1 staged now).1;
        mret (staged_seqs staged)
  end.

(** ** Topic lifecycle *)

(** [alloc_topic_id] *)
Definition alloc_topic_id : EM V Z :=
  λ e, (set_next_topic_id e (e_next_topic_id e + 1), Ok (e_next_topic_id e)).

(** [reserve_topic_slot] *)
Definition reserve_topic_slot (cap : Z) : EM V (option Z) :=
  e ← eget;
  if negb (cap =? 0) && (cap <=? e_topic_count e) then mret None
  else
    _ ← emodify (λ e, set_topic_count e (e_topic_count e + 1));
    id ← alloc_topic_id;
    mret (Some id).

(** [insert_reserved_topic] *)
Definition insert_reserved_topic (name : string) (config : TopicConfig) (topic_id : Z) : EM V bool :=
  o ← get_topic name;
  match o with
  | Some b =>
      _ ← store_topic name (with_config b config);
      e ← eget;
      harden ← attempt (enforce_retention_durable name (e_now e));
      _ ← emodify (λ e, set_topic_count e (e_topic_count e - 1));
      match harden with Ok _ => mret false | Err c => throw c end
  | None =>
      _ ← store_topic name (topic_new name topic_id config SEQ_BASE 1);
      mret true
  end.

(** The in-place update branch of [put_topic]: the frame is committed before the
    config changes. *)
Definition update_topic (name : string) (config : TopicConfig) b : EM V (bool * TopicConfig) :=
  e ← eget;
  _ ← wal_log (WalRecord.TopicConfig (b_topic_id b) (mkTopicConfigOp name (config_to_vec config))
                 false (ts_of (e_now e))) true;
  _ ← store_topic name (with_config b config);
  _ ← enforce_retention_durable name (e_now e);
  mret (false, config).

(** The create branch of [put_topic]: a slot is reserved, then the frame is
    committed, then the topic is inserted. *)
Definition create_topic (name : string) (config : TopicConfig) : EM V (bool * TopicConfig) :=
  e ← eget;
  slot ← reserve_topic_slot (e_max_topics e);
  match slot with
  | None => throw Throttled
  | Some topic_id =>
      r ← attempt (wal_log (WalRecord.TopicConfig topic_id
             (mkTopicConfigOp name (config_to_vec config)) false (ts_of (e_now e))) true);
      match r with
      | Err c =>
          _ ← emodify (λ e, set_topic_count e (e_topic_count e - 1));
          throw c
      | Ok _ =>
          created ← insert_reserved_topic name config topic_id;
          mret (created, config)
      end
  end.

(** [put_topic] *)
Definition put_topic (name : string) (config : TopicConfig) : EM V (bool * TopicConfig) :=
  if negb (is_valid_name name) then throw InvalidRequest
  else
    let config := normalize_config config in
    match validate_config config with
    | Err c => throw c
    | Ok _ =>
        let config := normalize_durability config in
        if is_queue config && bool_decide (cfg_dead_letter config = Some name)
        then throw InvalidRequest
        else
          o ← get_topic name;
          match o with
          | Some b =>
              if bool_decide (cfg_type (b_config b) = cfg_type config)
              then update_topic name config b
              else throw TopicExistsIncompatible
          | None => create_topic name config
          end
    end.

(** [apply_put_topic], the registry part of replay: an update enforces retention
    at the current clock. *)
Definition apply_put_topic (name : string) (config : TopicConfig) (forced_id forced_epoch : option Z)
    (cap : Z) : EM V (option (bool * Z)) :=
  e ← eget;
  match e_topics e !! name with
  | Some b =>
      let '(b', _) := enforce_retention (with_config b config) (e_now e) in
      _ ← store_topic name b';
      mret (Some (false, b_topic_id b))
  | None =>
      if negb (cap =? 0) && (cap <=? e_topic_count e) then mret None
      else
        _ ← emodify (λ e, set_topic_count e (e_topic_count e + 1));
        topic_id ← match forced_id with Some id => mret id | None => alloc_topic_id end;
        _ ← match forced_id with
            | Some fid => emodify (λ e, set_next_topic_id e (Z.max (e_next_topic_id e) (fid + 1)))
            | None => mret tt
            end;
        _ ← store_topic name (topic_new name topic_id config SEQ_BASE (default 1 forced_epoch));
        mret (Some (true, topic_id))
  end.
End engine.
