(* ===== verification/EngineLogic.v ===== *)
(** * Reasoning about requests

    A Hoare triple for the request monad [EM] (with separate postconditions for a
    returned value and for an error), and the frame property [keeps]: a
    computation leaves a given topic of the registry alone. *)

From S2P Require Import Prelude Types Eviction TopicIndex QueueProjection TopicState Bytes Wal Json Engine.

Section logic.
Context {V : Type} `{!JsonNull V} `{!Serde V}.
Implicit Types (e : Engine V) (P : Engine V → Prop).

(** ** Triples *)
Definition triple {A} P (m : EM V A) (Q : A → Engine V → Prop) (R : Engine V → Prop) : Prop :=
  ∀ e, P e → match m e with
             | (e', Ok a) => Q a e'
             | (e', Err _) => R e'
             end.

Lemma triple_ret {A} P (a : A) R : triple P (mret a) (λ x e, x = a ∧ P e) R.
Proof. by intros e He. Qed.

Lemma triple_bind {A B} P (m : EM V A) (k : A → EM V B) Q M R :
  triple P m M R → (∀ a, triple (M a) (k a) Q R) → triple P (m ≫= k) Q R.
Proof.
  intros Hm Hk e He. specialize (Hm e He). unfold mbind, EM_bind.
  destruct (m e) as [e' [a|c]]; [by apply Hk|done].
Qed.

Lemma triple_conseq {A} P P' (m : EM V A) Q Q' R R' :
  triple P m Q R → (∀ e, P' e → P e) → (∀ a e, Q a e → Q' a e) → (∀ e, R e → R' e) →
  triple P' m Q' R'.
Proof.
  intros Hm HP HQ HR e He. specialize (Hm e (HP e He)). destruct (m e) as [e' [a|c]]; auto.
Qed.

Lemma triple_attempt {A} P (m : EM V A) Q R :
  triple P m Q R →
  triple P (attempt m) (λ r e, match r with Ok a => Q a e | Err _ => R e end) (λ _, False).
Proof.
  intros Hm e He. specialize (Hm e He). unfold attempt. by destruct (m e) as [e' [a|c]].
Qed.

(** ** Frames *)
Definition keeps {A} (name : string) (m : EM V A) : Prop :=
  ∀ e, e_topics (m e).1 !! name = e_topics e !! name.

Lemma keeps_ret {A} name (a : A) : keeps name (mret a).
Proof. done. Qed.
Lemma keeps_throw {A} name c : keeps name (throw (A := A) c).
Proof. done. Qed.
Lemma keeps_eget name : keeps name eget.
Proof. done. Qed.
Lemma keeps_get_topic name n : keeps name (get_topic n).
Proof. done. Qed.
Lemma keeps_topic_ref name n : keeps name (topic_ref n).
Proof. intros e. unfold topic_ref. by destruct (e_topics e !! n). Qed.
Lemma keeps_bind {A B} name (m : EM V A) (k : A → EM V B) :
  keeps name m → (∀ a, keeps name (k a)) → keeps name (m ≫= k).
Proof.
  intros Hm Hk e. specialize (Hm e). unfold mbind, EM_bind.
  destruct (m e) as [e' [a|c]]; simpl in *; [by rewrite Hk|done].
Qed.
Lemma keeps_attempt {A} name (m : EM V A) : keeps name m → keeps name (attempt m).
Proof. intros Hm e. specialize (Hm e). unfold attempt. by destruct (m e). Qed.
Lemma keeps_store name n b : n ≠ name → keeps name (store_topic n b).
Proof. intros Hne e. simpl. by rewrite lookup_insert_ne. Qed.
Lemma keeps_emodify name f : (∀ e, e_topics (f e) = e_topics e) → keeps name (emodify f).
Proof. intros Hf e. simpl. by rewrite Hf. Qed.
Lemma keeps_next_outcome name : keeps name next_outcome.
Proof. intros e. unfold next_outcome. by destruct (e_oracle e). Qed.
Lemma keeps_log_frames name fs : keeps name (log_frames fs).
Proof. by apply keeps_emodify. Qed.
Lemma keeps_release name n : keeps name (release_total_bytes n).
Proof. apply keeps_emodify. intros e. by destruct (n =? 0). Qed.
Lemma keeps_reserve name n : keeps name (try_reserve_total_bytes n).
Proof. intros e. unfold try_reserve_total_bytes. by repeat case_match. Qed.
Lemma keeps_alloc name : keeps name alloc_topic_id.
Proof. done. Qed.
End logic.

Create HintDb keeps.
#[export] Hint Resolve keeps_ret keeps_throw keeps_eget keeps_get_topic keeps_topic_ref
  keeps_attempt keeps_store keeps_next_outcome keeps_log_frames keeps_release keeps_reserve
  keeps_alloc : keeps.

(** Go through a computation, one bind or branch at a time. *)
Ltac keeps_tac :=
  repeat first
    [ progress intros
    | apply keeps_bind
    | solve [eauto with keeps]
    | apply keeps_emodify; done
    | match goal with
      | |- keeps _ (match ?x with _ => _ end) => destruct x
      | |- keeps _ (let '(_, _) := ?x in _) => destruct x
      end ].

Section frames.
Context {V : Type} `{!JsonNull V} `{!Serde V}.

Lemma keeps_wal_commit name r d : keeps name (wal_commit (V := V) r d).
Proof. unfold wal_commit. keeps_tac. Qed.
Lemma keeps_wal_log name r d : keeps name (wal_log (V := V) r d).
Proof. apply keeps_wal_commit. Qed.
Lemma keeps_best_effort name r d : keeps name (wal_log_best_effort (V := V) r d).
Proof. unfold wal_log_best_effort. pose proof keeps_wal_commit. keeps_tac. Qed.
Lemma keeps_evict_watermark name id adv now : keeps name (log_evict_watermark (V := V) id adv now).
Proof. unfold log_evict_watermark. pose proof keeps_wal_log. keeps_tac. Qed.
Lemma keeps_enqueue name id seqs recs now d : keeps name (wal_enqueue_batch (V := V) id seqs recs now d).
Proof. unfold wal_enqueue_batch. keeps_tac. Qed.
Lemma keeps_release_if name r n : keeps name (release_if (V := V) r n).
Proof. unfold release_if. keeps_tac. Qed.
#[local] Hint Resolve keeps_wal_commit keeps_wal_log keeps_best_effort keeps_evict_watermark
  keeps_enqueue keeps_release_if : keeps.

Lemma keeps_reserved_head name n head now :
  n ≠ name → keeps name (ensure_disk_head_reserved (V := V) n head now).
Proof. intros Hne. unfold ensure_disk_head_reserved. keeps_tac. Qed.
Lemma keeps_retention name n now :
  n ≠ name → keeps name (enforce_retention_durable (V := V) n now).
Proof. intros Hne. unfold enforce_retention_durable. keeps_tac. Qed.
#[local] Hint Resolve keeps_reserved_head keeps_retention : keeps.

(** The append path into another topic. *)
Lemma keeps_durable_append name n recs now :
  n ≠ name → keeps name (durable_append (V := V) n recs now).
Proof. intros Hne. unfold durable_append. keeps_tac. Qed.

Lemma keeps_put_topic name n config : n ≠ name → keeps name (put_topic (V := V) n config).
Proof.
  intros Hne. unfold put_topic, update_topic, create_topic, reserve_topic_slot, insert_reserved_topic. keeps_tac.
Qed.
End frames.

#[export] Hint Resolve keeps_wal_commit keeps_wal_log keeps_best_effort keeps_evict_watermark
  keeps_enqueue keeps_release_if keeps_reserved_head keeps_retention keeps_durable_append
  keeps_put_topic : keeps.

(** ** The clock *)
Section clock.
Context {V : Type} `{!JsonNull V} `{!Serde V}.

(** No handler moves the clock. *)
Definition keeps_now {A} (m : EM V A) : Prop := ∀ e, e_now (m e).1 = e_now e.

Lemma now_bind {A B} (m : EM V A) (k : A → EM V B) :
  keeps_now m → (∀ a, keeps_now (k a)) → keeps_now (m ≫= k).
Proof.
  intros Hm Hk e. specialize (Hm e). unfold mbind, EM_bind.
  destruct (m e) as [e' [a|c]]; simpl in *; [by rewrite Hk|done].
Qed.
Lemma now_attempt {A} (m : EM V A) : keeps_now m → keeps_now (attempt m).
Proof. intros Hm e. specialize (Hm e). unfold attempt. by destruct (m e). Qed.
Lemma now_emodify (f : Engine V → Engine V) : (∀ e, e_now (f e) = e_now e) → keeps_now (emodify f).
Proof. intros Hf e. apply Hf. Qed.
Lemma now_ret {A} (a : A) : keeps_now (mret a).
Proof. done. Qed.
Lemma now_throw {A} c : keeps_now (throw (A := A) c).
Proof. done. Qed.
Lemma now_eget : keeps_now eget.
Proof. done. Qed.
Lemma now_get_topic n : keeps_now (get_topic n).
Proof. done. Qed.
Lemma now_alloc : keeps_now alloc_topic_id.
Proof. done. Qed.
Lemma now_store n b : keeps_now (store_topic n b).
Proof. done. Qed.
Lemma now_log_frames fs : keeps_now (log_frames fs).
Proof. done. Qed.
Lemma now_topic_ref n : keeps_now (topic_ref n).
Proof. intros e. unfold topic_ref. by destruct (e_topics e !! n). Qed.
Lemma now_next_outcome : keeps_now next_outcome.
Proof. intros e. unfold next_outcome. by destruct (e_oracle e). Qed.
Lemma now_release n : keeps_now (release_total_bytes n).
Proof. intros e. unfold release_total_bytes, emodify. by destruct (n =? 0). Qed.
Lemma now_reserve n : keeps_now (try_reserve_total_bytes n).
Proof. intros e. unfold try_reserve_total_bytes. by repeat case_match. Qed.
End clock.

Create HintDb keeps_now.
#[export] Hint Resolve now_attempt now_ret now_throw now_eget now_get_topic now_alloc now_store
  now_log_frames now_topic_ref now_next_outcome now_release now_reserve : keeps_now.

Ltac now_tac :=
  repeat first
    [ progress intros
    | solve [eauto with keeps_now]
    | apply now_bind
    | apply now_emodify; done
    | match goal with
      | |- keeps_now (match ?x with _ => _ end) => destruct x
      | |- keeps_now (let '(_, _) := ?x in _) => destruct x
      end ].

Section clock_engine.
Context {V : Type} `{!JsonNull V} `{!Serde V}.

Lemma now_wal_log r d : keeps_now (wal_log (V := V) r d).
Proof. unfold wal_log, wal_commit. now_tac. Qed.
#[local] Hint Resolve now_wal_log : keeps_now.
Lemma now_evict_watermark id adv now : keeps_now (log_evict_watermark (V := V) id adv now).
Proof. unfold log_evict_watermark. now_tac. Qed.
#[local] Hint Resolve now_evict_watermark : keeps_now.
Lemma now_retention n now : keeps_now (enforce_retention_durable (V := V) n now).
Proof. unfold enforce_retention_durable. now_tac. Qed.
#[local] Hint Resolve now_retention : keeps_now.
Lemma now_put_topic n config : keeps_now (put_topic (V := V) n config).
Proof.
  unfold put_topic, update_topic, create_topic, reserve_topic_slot, insert_reserved_topic. now_tac.
Qed.
End clock_engine.
#[export] Hint Resolve now_wal_log now_retention now_put_topic : keeps_now.
