(* ===== verification/EngineSpec.v ===== *)
(** * What the shared engine paths do to a topic

    Equations for running the request monad, and the effect of the engine's
    retention and append paths on the topic they act on, for every config and
    every outcome of the WAL: a topic without limits is never trimmed
    ([retention_unlimited]), an append extends the log by the batch ([extended]),
    and the byte gauge is all that the quota moves. *)

From S2P Require Import Prelude Types Eviction TopicIndex QueueProjection TopicState TopicLog.
From S2P Require Import Bytes Wal Json Router Sched Engine EngineLogic.

Section topic_facts.
Context {V : Type} `{!JsonNull V}.
Implicit Types (b : TopicState V) (r : StoredRecord V) (recs : list (StoredRecord V)).

(** What no log operation changes. *)
Definition identity b :=
  (b_name b, b_topic_id b, b_epoch b, b_config b, b_dedupe b, b_reserved_head b).

Lemma reclaim_front_identity b head : identity (reclaim_front b head).1 = identity b.
Proof.
  unfold reclaim_front. destruct (front_drop b head); [done|]. by destruct (drain_front _ _).
Qed.

Lemma reclaim_front_bytes b head :
  Forall slot_ok (records (b_index b)) →
  total_bytes (records (b_index (reclaim_front b head).1)) <= total_bytes (records (b_index b)).
Proof.
  intros Hok. unfold reclaim_front. destruct (front_drop b head) as [|n]; [done|].
  destruct (drain_front_records (b_index b) (S n)) as (Hr & _).
  destruct (drain_front (b_index b) (S n)) as [ix' live]. simpl in *. rewrite Hr.
  rewrite <-(take_drop (S n) (records (b_index b))) at 2. rewrite total_bytes_app.
  pose proof (total_bytes_nonneg (take (S n) (records (b_index b))) ltac:(by apply Forall_take)). lia.
Qed.

Lemma appended_identity b recs now : identity (appended b recs now) = identity b.
Proof. done. Qed.

Lemma appended_bytes b recs now :
  total_bytes (records (b_index (appended b recs now))) =
    total_bytes (records (b_index b)) + total_bytes recs.
Proof.
  simpl. destruct (foldl_push_fields recs (b_index b)) as (_ & -> & _). by rewrite total_bytes_app.
Qed.
(** What one topic looks like after a batch, whichever way it got there. *)
Definition extended b (recs : list (StoredRecord V)) b1 : Prop :=
  settled b1 ∧ b_topic_id b1 = b_topic_id b ∧ b_config b1 = b_config b ∧
  b_reserved_head b1 = b_reserved_head b ∧
  b_head_seq b1 = b_head_seq b + Z.of_nat (length recs) ∧
  total_bytes (records (b_index b1)) = total_bytes (records (b_index b)) + total_bytes recs ∧
  ∀ s, view b1 s = if s <=? b_head_seq b then view b s
                   else recs !! Z.to_nat (s - (b_head_seq b + 1)).

Lemma extended_appended b recs now :
  settled b → appendable b recs → extended b recs (appended b recs now).
Proof.
  intros Hst Happ. split_and!; [by apply appended_settled|done|done|done| |by apply appended_bytes|].
  - simpl. rewrite (st_tail _ Hst). lia.
  - intros s. by apply appended_view.
Qed.

Lemma extended_refl b : settled b → extended b [] b.
Proof.
  intros Hst. split_and!; try done; [simpl; lia..|]. intros s.
  destruct (Z.leb_spec s (b_head_seq b)); [done|]. by rewrite view_head.
Qed.

Lemma extended_app b recs1 b1 recs2 b2 :
  extended b recs1 b1 → extended b1 recs2 b2 → extended b (recs1 ++ recs2) b2.
Proof.
  intros (_ & Hi & Hc & Hr & Hh & Hb & Hv) (Hst & Hi2 & Hc2 & Hr2 & Hh2 & Hb2 & Hv2).
  split_and!; try congruence; [rewrite length_app; lia|rewrite total_bytes_app; lia|].
  intros s. rewrite Hv2, Hh. destruct (Z.leb_spec s (b_head_seq b)).
  - rewrite (proj2 (Z.leb_le s _)), Hv by lia. by rewrite (proj2 (Z.leb_le s _)) by lia.
  - destruct (Z.leb_spec s (b_head_seq b + Z.of_nat (length recs1))).
    + rewrite Hv, (proj2 (Z.leb_gt s _)) by lia. symmetry. apply lookup_app_l. lia.
    + rewrite lookup_app_r by lia. f_equal. lia.
Qed.

Lemma appendable_app b recs1 recs2 :
  settled b → appendable b (recs1 ++ recs2) →
  appendable b recs1 ∧ ∀ b1, extended b recs1 b1 → appendable b1 recs2.
Proof.
  intros Hst (Hf & Hroom & Hbytes).
  apply Forall_app in Hf as [Hf1 Hf2]. rewrite length_app in Hroom. rewrite total_bytes_app in Hbytes.
  rewrite (st_tail _ Hst) in Hroom.
  assert (0 <= total_bytes recs2).
  { apply total_bytes_nonneg. eapply Forall_impl; [exact Hf2|]. intros r [? Hd]. split; [done|]. by rewrite Hd. }
  split; [split_and!; rewrite ?(st_tail _ Hst); [done|lia..]|].
  intros b1 (Hst1 & _ & _ & _ & Hh & Hb & _). split_and!; rewrite ?(st_tail _ Hst1); [done|lia..].
Qed.

(** ** Topics without limits *)
Definition unlimited (c : TopicConfig) : Prop :=
  cfg_ttl_ms c = 0 ∧ cfg_cap_records c = 0 ∧ cfg_cap_bytes c = 0.

Lemma unlimited_hardened {E} b now (harden : RetentionAdvance → result E unit) :
  unlimited (b_config b) → enforce_retention_hardened b now harden = (b, Ok no_advance).
Proof.
  intros (Ht & Hr & Hb). unfold enforce_retention_hardened.
  destruct (b_head_seq b =? 0); [done|]. by rewrite Ht, Hr, Hb.
Qed.

Lemma unlimited_retention b now : unlimited (b_config b) → enforce_retention b now = (b, no_advance).
Proof. intros Hu. unfold enforce_retention. by rewrite unlimited_hardened. Qed.

End topic_facts.

Section runs.
Context {V : Type} `{!JsonNull V} `{!Serde V}.
Implicit Types (b : TopicState V) (e : Engine V).

(** ** Running the monad *)
Lemma bind_ok {A B} (m : EM V A) (f : A → EM V B) e e1 a : m e = (e1, Ok a) → (m ≫= f) e = f a e1.
Proof. intros Hm. unfold mbind, EM_bind. by rewrite Hm. Qed.
Lemma bind_err {A B} (m : EM V A) (f : A → EM V B) e e1 c : m e = (e1, Err c) → (m ≫= f) e = (e1, Err c).
Proof. intros Hm. unfold mbind, EM_bind. by rewrite Hm. Qed.
Lemma attempt_run {A} (m : EM V A) e : attempt m e = ((m e).1, Ok (m e).2).
Proof. unfold attempt. by destruct (m e). Qed.

(** The quota only moves the byte gauge. *)
Lemma quota_run (enabled : bool) n e :
  ∃ m ok, (if enabled then try_reserve_total_bytes n else mret true) e = (set_total_bytes e m, Ok ok).
Proof.
  assert (Heq : e = set_total_bytes e (e_total_bytes_live e)) by (by destruct e).
  destruct enabled; [|eexists _, true; by rewrite Heq at 1].
  unfold try_reserve_total_bytes. destruct (e_max_total_bytes e =? 0); [eexists _, true; by rewrite Heq at 1|].
  destruct (_ <? _); eexists _, _; [by rewrite Heq at 1|done].
Qed.

Lemma release_run (reserved : bool) n e :
  ∃ m, release_if (V := V) reserved n e = (set_total_bytes e m, Ok tt).
Proof.
  assert (Heq : e = set_total_bytes e (e_total_bytes_live e)) by (by destruct e).
  unfold release_if, release_total_bytes, emodify.
  destruct reserved; [|eexists; by rewrite Heq at 1].
  destruct (n =? 0); eexists; [by rewrite Heq at 1|done].
Qed.

(** Retention leaves a topic without limits, and everything else, alone. *)
Lemma retention_unlimited name now e b :
  e_topics e !! name = Some b → unlimited (b_config b) →
  enforce_retention_durable name now e = (e, Ok tt).
Proof.
  intros Hb Hu. assert (Hset : set_topics e (<[name := b]> (e_topics e)) = e).
  { rewrite insert_id by done. by destruct e. }
  unfold enforce_retention_durable. rewrite (bind_ok _ _ e e b) by (unfold topic_ref; by rewrite Hb).
  destruct (uses_persistent_record_store (b_config b)); cbn [negb].
  - assert (Hh : retention_hardens b now = false).
    { destruct Hu as (Ht & Hr & Hcb). unfold retention_hardens. rewrite Ht, Hr, Hcb. simpl.
      by rewrite andb_false_r. }
    rewrite Hh, (bind_ok _ _ e e (Ok tt)) by done. rewrite unlimited_hardened by done.
    by rewrite (bind_ok _ _ e e tt) by (unfold store_topic, emodify; by rewrite Hset).
  - rewrite unlimited_retention by done.
    by rewrite (bind_ok _ _ e e tt) by (unfold store_topic, emodify; by rewrite Hset).
Qed.

End runs.
