(* ===== verification/Forward.v ===== *)
(** * Router forwarding

    Models the asynchronous forwarding of [src/engine/mod.rs]: one bounded pass
    of a router over its source ([advance_router]), the read-path catch-up of a
    destination ([catch_up_dest]) and the background drain
    ([drain_router_sources]).  A forwarded record is appended to the destination
    without a WAL frame, and the router's cursor passes a source record only
    when the record was appended, is already there, or is not bound for the
    destination. *)

From S2P Require Import Prelude Types Eviction TopicIndex QueueProjection TopicState TopicLog.
From S2P Require Import Bytes Wal Json Router Sched Engine EngineLogic.

Definition MAX_ROUTER_HOPS : Z := 8.
Definition ROUTER_BATCH : Z := 1024.

(** The number of passes after which the catch-up loops give up. *)
Definition CATCH_UP_PASSES : Z := 1000001.

(** What a pass does with one source record: pass over it, count it as already
    delivered, append a copy, or stop in front of it. *)
Inductive FwdDecision (V : Type) :=
  | FConsume
  | FPresent
  | FAppend (r : StoredRecord V)
  | FDefer.
Arguments FConsume {V}.
Arguments FPresent {V}.
Arguments FAppend {V}.
Arguments FDefer {V}.

(** The local variables of the loop of [advance_router]. *)
Record FwdState (V : Type) := mkFwd {
  fw_append : list (StoredRecord V);
  fw_consumed : Z;
  fw_forwarded : Z;
  fw_deferred : bool
}.
Arguments mkFwd {V}.
Arguments fw_append {V}.
Arguments fw_consumed {V}.
Arguments fw_forwarded {V}.
Arguments fw_deferred {V}.

Section forward.
Context {V : Type} `{!JsonNull V} `{!Serde V} `{!Powf}.
Implicit Types (b : TopicState V) (e : Engine V) (r : StoredRecord V).

(** [TopicState::read_ts] *)
Definition read_ts (ts : Z) : option Z := if ts =? TS_NEVER then None else Some ts.

(** [Engine::effective_priority] *)
Definition effective_priority (now : Z) b : Z :=
  effective_priority_at now (cfg_priority (b_config b)) (cfg_auto_priority (b_config b))
    (read_ts (b_last_consumed_ms b)) None.

(** [scheduler.mark_dirty_fast] of a topic, at its priority now. *)
Definition mark_topic_dirty (name : string) : EM V unit :=
  b ← topic_ref name;
  emodify (λ e, set_sched e (mark_dirty_fast name (effective_priority (e_now e) b) (e_sched e))).

(** [router_dest_idempotency_keys] *)
Definition router_dest_idempotency_keys b : gset string :=
  list_to_set (omap (λ seq, match forward_lookup b seq with
                            | Some (r, true) => router_meta_idempotency_key (r_meta r)
                            | _ => None
                            end)
                 (seqZ (earliest_seq b) (b_head_seq b + 1 - earliest_seq b))).

Definition exactly_once (router : Router) : bool :=
  bool_decide (rt_guarantee router = ExactlyOnce).

(** The filter of a router: an untagged record never matches. *)
Definition filter_passes (router : Router) r : bool :=
  match rt_filter router with
  | None => true
  | Some f => match r_tag r with Some t => filter_matches f t | None => false end
  end.

(** [u8::saturating_add(1)] *)
Definition next_hops (h : Z) : Z := Z.min 255 (h + 1).

Definition set_hops r (h : Z) : StoredRecord V :=
  mkRecord (r_ts r) (r_node r) (r_tag r) (r_data r) (r_meta r) (r_bytes r) (r_deleted r)
    (r_payload_resident r) h.

(** The copy of a source record that the router appends. *)
Definition forward_copy (router : Router) (source : TopicState V) (now seq : Z) r :
    result ErrorCode (StoredRecord V) :=
  let meta :=
    if exactly_once router
    then Some (with_router_idempotency_meta (r_meta r)
                 (router_idempotency_key (rt_name router) (b_topic_id source) (b_epoch source) seq)
                 (rt_name router) (b_name source) (b_topic_id source) (b_epoch source) seq)
    else r_meta r in
  let? sr := build_stored_owned (r_data r)
               (if rt_preserve_tag router then r_tag r else None)
               (if rt_preserve_node router then r_node r else None) meta now in
  Ok (set_hops sr (next_hops (r_hops r))).

(** The back-pressure of a full [discard: "reject"] destination, counting the
    records of this pass that are not appended yet. *)
Definition dest_admits (dest : TopicState V) (to_append : list (StoredRecord V)) r : bool :=
  let c := b_config dest in
  match cfg_discard c with
  | Old => true
  | Reject =>
      match admit_write (cfg_discard c) (cfg_cap_records c) (cfg_cap_bytes c)
              (b_live_count dest + Z.of_nat (length to_append))
              (b_bytes_retained dest + total_bytes to_append) 1 (r_bytes r) with
      | Admit => true
      | RejectWrite => false
      end
  end.

(** One iteration of the loop of [advance_router]. *)
Definition forward_decide (router : Router) (source dest : TopicState V) (keys : gset string)
    (now seq : Z) (to_append : list (StoredRecord V)) : FwdDecision V :=
  match forward_lookup source seq with
  | None => FConsume
  | Some (_, false) => FConsume
  | Some (r, true) =>
      if MAX_ROUTER_HOPS <=? r_hops r then FConsume
      else if negb (filter_passes router r) then FConsume
      else if exactly_once router && bool_decide
                (router_idempotency_key (rt_name router) (b_topic_id source) (b_epoch source) seq
                   ∈ keys)
      then FPresent
      else match forward_copy router source now seq r with
           | Err _ => if exactly_once router then FDefer else FConsume
           | Ok sr => if dest_admits dest to_append sr then FAppend sr else FDefer
           end
  end.

(** The loop of [advance_router] over [source[cursor+1 ..= batch_end]]. *)
Fixpoint forward_loop (router : Router) (source dest : TopicState V) (keys : gset string)
    (now : Z) (seqs : list Z) (st : FwdState V) : FwdState V :=
  match seqs with
  | [] => st
  | seq :: seqs =>
      let go := forward_loop router source dest keys now seqs in
      match forward_decide router source dest keys now seq (fw_append st) with
      | FConsume => go (mkFwd (fw_append st) (fw_consumed st + 1) (fw_forwarded st) false)
      | FPresent => go (mkFwd (fw_append st) (fw_consumed st + 1) (fw_forwarded st + 1) false)
      | FAppend sr =>
          go (mkFwd (fw_append st ++ [sr]) (fw_consumed st + 1) (fw_forwarded st + 1) false)
      | FDefer => mkFwd (fw_append st) (fw_consumed st) (fw_forwarded st) true
      end
  end.

(** The source-retention bound: source records the router can no longer read
    become holes of the destination. *)
Definition clamp_cursor (name : string) (router : Router) (source : TopicState V) (cursor : Z) :
    EM V Z :=
  let src_evict_earliest := evict_earliest_seq source in
  if cursor + 1 <? src_evict_earliest then
    let trimmed := src_evict_earliest - 1 - cursor in
    dest ← topic_ref (rt_dest router);
    _ ← store_topic (rt_dest router) (Nat.iter (Z.to_nat trimmed) note_source_trim dest);
    let cursor := src_evict_earliest - 1 in
    _ ← emodify (λ e, set_routers e
          (note_forwarded (graph_set_cursor (e_routers e) name cursor) name cursor trimmed));
    mret cursor
  else mret cursor.

(** The end of a pass: the cursor passes what was consumed, and the source stays
    dirty while the router is behind. *)
Definition finish_pass (name : string) (router : Router) (cursor : Z) (st : FwdState V)
    (behind : bool) : EM V Z :=
  _ ← (if 0 <? fw_consumed st
       then emodify (λ e, set_routers e (note_forwarded (e_routers e) name
                                           (cursor + fw_consumed st) (fw_forwarded st)))
       else mret tt);
  _ ← (if fw_deferred st || behind then mark_topic_dirty (rt_source router) else mret tt);
  mret (fw_consumed st).

(** Appending what the pass collected. *)
Definition append_forwarded (router : Router) (to_append : list (StoredRecord V)) (now : Z) :
    EM V bool :=
  match to_append with
  | [] => mret true
  | _ =>
      r ← attempt (derived_append (rt_dest router) to_append now);
      match r with
      | Err _ => _ ← mark_topic_dirty (rt_source router); mret false
      | Ok _ =>
          _ ← attempt (enforce_retention_durable (rt_dest router) now);
          _ ← mark_topic_dirty (rt_dest router);
          mret true
      end
  end.

(** The part of [advance_router] after the source's retention. *)
Definition forward_pass (name : string) (router : Router) (cursor now : Z) : EM V Z :=
  source ← topic_ref (rt_source router);
  let src_head := b_head_seq source in
  if src_head <=? cursor then mret 0
  else
    cursor ← clamp_cursor name router source cursor;
    let batch_end := Z.min src_head (cursor + ROUTER_BATCH) in
    dest ← topic_ref (rt_dest router);
    r ← (match cfg_discard (b_config dest) with
         | Reject => attempt (enforce_retention_durable (rt_dest router) now)
         | Old => mret (Ok tt)
         end);
    match r with
    | Err _ => mret 0
    | Ok _ =>
        source ← topic_ref (rt_source router);
        dest ← topic_ref (rt_dest router);
        let keys := if exactly_once router then router_dest_idempotency_keys dest else ∅ in
        let st := forward_loop router source dest keys now
                    (seqZ (cursor + 1) (batch_end - cursor)) (mkFwd [] 0 0 false) in
        ok ← append_forwarded router (fw_append st) now;
        if negb ok then mret 0
        else finish_pass name router cursor st (batch_end <? src_head)
    end.

(** [advance_router] *)
Definition advance_router (name : string) : EM V Z :=
  e ← eget;
  match graph_get (e_routers e) name with
  | None => mret 0
  | Some router =>
      let cursor := graph_cursor (e_routers e) name in
      s ← get_topic (rt_source router);
      d ← get_topic (rt_dest router);
      match s, d with
      | Some _, Some _ =>
          r ← attempt (enforce_retention_durable (rt_source router) (e_now e));
          match r with
          | Err _ => mret 0
          | Ok _ => forward_pass name router cursor (e_now e)
          end
      | _, _ => mret 0
      end
  end.

(** The loop of [catch_up_dest] over one feeding router. *)
Fixpoint drive_router (fuel : nat) (name : string) : EM V unit :=
  match fuel with
  | O => mret tt
  | S fuel =>
      n ← advance_router name;
      if 0 <? n then drive_router fuel name else mret tt
  end.

Fixpoint drive_routers (fuel : nat) (names : list string) : EM V unit :=
  match names with
  | [] => mret tt
  | name :: names => _ ← drive_router fuel name; drive_routers fuel names
  end.

(** [catch_up_dest] *)
Definition catch_up_dest (dest_name : string) : EM V unit :=
  e ← eget;
  drive_routers (Z.to_nat CATCH_UP_PASSES)
    (rt_name <$> filter (λ r : Router, rt_dest r = dest_name) (graph_iter (e_routers e))).

(** [drain_router_sources] *)
Fixpoint advance_all (names : list string) (total : Z) : EM V Z :=
  match names with
  | [] => mret total
  | name :: names => n ← advance_router name; advance_all names (total + n)
  end.

Fixpoint drain_topics (topics : list string) (total : Z) : EM V Z :=
  match topics with
  | [] => mret total
  | t :: topics =>
      e ← eget;
      total ← advance_all (rt_name <$> routers_for_source (e_routers e) t) total;
      drain_topics topics total
  end.

Definition drain_router_sources : EM V Z :=
  e ← eget;
  let '(s, drained) := drain_order_clearing (e_sched e) in
  _ ← emodify (λ e, set_sched e s);
  drain_topics drained 0.
End forward.
