(* ===== verification/ForwardSpec.v ===== *)
(** * What forwarding delivers

    A router between two topics without limits: a catch-up read
    ([catch_up_dest]) brings the destination up to date with the source, in
    source order and however many passes that takes ([catch_up_delivers]), and
    an exactly-once router leaves exactly one copy of every source record it
    was behind on, whatever part of the backlog already reached the destination
    before the router's cursor was lost ([exactly_once_delivers]). *)

From stdpp Require Import base gmap list strings pretty.
From S2P Require Import Prelude Types Eviction TopicIndex QueueProjection TopicState TopicLog.
From S2P Require Import Bytes Wal Json Router Sched Engine EngineLogic EngineSpec Forward.

Section forward_spec.
Context {V : Type} `{!JsonNull V} `{!Serde V} `{!SerdeLaws V} `{!Powf}.
Implicit Types (b s d : TopicState V) (e : Engine V) (r : StoredRecord V).

(** ** The specification *)

(** The source record at [seq] when it is bound for the destination. *)
Definition eligible (router : Router) s (seq : Z) : option (StoredRecord V) :=
  match forward_lookup s seq with
  | Some (r, true) =>
      if r_hops r <? MAX_ROUTER_HOPS then if filter_passes router r then Some r else None else None
  | _ => None
  end.

(** The key an exactly-once router stamps on the copy of source record [seq]. *)
Definition source_key (router : Router) s (seq : Z) : string :=
  router_idempotency_key (rt_name router) (b_topic_id s) (b_epoch s) seq.

Definition dest_keys (router : Router) d : gset string :=
  if exactly_once router then router_dest_idempotency_keys d else ∅.

(** The copy of source record [seq] that is missing from a destination with the
    given keys. *)
Definition delivery (router : Router) s (keys : gset string) (now seq : Z) : option (StoredRecord V) :=
  r ← eligible router s seq;
  if exactly_once router && bool_decide (source_key router s seq ∈ keys) then None
  else match forward_copy router s now seq r with Ok sr => Some sr | Err _ => None end.

(** The copies that a router at [cursor] owes the destination, for [n] source
    records. *)
Definition deliveries (router : Router) s (keys : gset string) (now cursor n : Z) :
    list (StoredRecord V) :=
  omap (delivery router s keys now) (seqZ (cursor + 1) n).

(** An at-least-once router drops a record it cannot copy; an exactly-once one
    stops in front of it, so it needs every copy to fit the record limits. *)
Definition copyable (router : Router) s (now : Z) : Prop :=
  exactly_once router = true → ∀ seq r, eligible router s seq = Some r →
  ∃ sr, forward_copy router s now seq r = Ok sr.

(** A router at [cursor], with its two topics. *)
Record forwarding e (router : Router) s d (cursor : Z) : Prop := {
  fo_router : graph_get (e_routers e) (rt_name router) = Some router;
  fo_cursor : graph_cursor (e_routers e) (rt_name router) = cursor;
  fo_source : e_topics e !! rt_source router = Some s;
  fo_dest : e_topics e !! rt_dest router = Some d;
  fo_distinct : rt_source router ≠ rt_dest router;
  fo_quota : e_max_total_bytes e = 0
}.

(** Both topics are without limits, and no source record beyond the cursor has
    been evicted. *)
Record lossless (router : Router) s d (now cursor : Z) : Prop := {
  lo_source : unlimited (b_config s);
  lo_dest : unlimited (b_config d);
  lo_evict : evict_earliest_seq s <= cursor + 1;
  lo_copyable : copyable router s now
}.

(** At most one record carries a given key. *)
Definition keys_unique d : Prop :=
  ∀ t1 t2 r1 r2 k, view d t1 = Some r1 → view d t2 = Some r2 →
  router_meta_idempotency_key (r_meta r1) = Some k →
  router_meta_idempotency_key (r_meta r2) = Some k → t1 = t2.

(** ** Keys *)
Lemma string_app_inj (p x y : string) : p +:+ x = p +:+ y → x = y.
Proof. induction p as [|a p IH]; [done|]. simpl. intros [= Heq]. by apply IH. Qed.

Lemma source_key_inj router s seq1 seq2 :
  source_key router s seq1 = source_key router s seq2 → seq1 = seq2.
Proof.
  unfold source_key, router_idempotency_key. intros Heq.
  repeat apply string_app_inj in Heq. by apply (inj pretty) in Heq.
Qed.

Lemma elem_of_dest_keys d k :
  k ∈ router_dest_idempotency_keys d ↔
    ∃ t r, view d t = Some r ∧ router_meta_idempotency_key (r_meta r) = Some k.
Proof.
  unfold router_dest_idempotency_keys. rewrite elem_of_list_to_set, list_elem_of_omap.
  setoid_rewrite elem_of_seqZ. setoid_rewrite view_Some. unfold forward_lookup. split.
  - intros (t & Ht & Hk). destruct (get (b_index d) t) as [r|] eqn:Hg; [|done].
    destruct (r_deleted r) eqn:Hd; [done|]. exists t, r. split_and!; try done; lia.
  - intros (t & r & (? & Hg & Hd) & Hk). exists t. rewrite Hg, Hd. split; [lia|done].
Qed.

Lemma delivery_key router s keys now seq sr :
  exactly_once router = true → delivery router s keys now seq = Some sr →
  router_meta_idempotency_key (r_meta sr) = Some (source_key router s seq) ∧
  source_key router s seq ∉ keys.
Proof.
  intros Heo. unfold delivery. destruct (eligible router s seq) as [r|]; [|done]. simpl. rewrite Heo. simpl.
  case_bool_decide; [done|]. unfold forward_copy. rewrite Heo.
  destruct (build_stored_owned _ _ _ _ _) as [sr'|] eqn:Hb; [|done]. simpl. intros [= <-].
  apply build_stored_ok in Hb as [-> _]. split; [|done]. apply router_key_stamped.
Qed.

Lemma extended_view_Some d recs d1 t r :
  extended d recs d1 →
  view d1 t = Some r ↔
    view d t = Some r ∨ (b_head_seq d < t ∧ recs !! Z.to_nat (t - (b_head_seq d + 1)) = Some r).
Proof.
  intros (_ & _ & _ & _ & _ & _ & Hv). rewrite Hv. destruct (Z.leb_spec t (b_head_seq d)).
  - split; [by left|]. by intros [?|[? _]]; [|lia].
  - rewrite view_head by lia. split; [by right|]. by intros [?|[_ ?]].
Qed.

Lemma extended_keys d recs d1 k :
  extended d recs d1 →
  k ∈ router_dest_idempotency_keys d1 ↔
    k ∈ router_dest_idempotency_keys d ∨
    ∃ r, r ∈ recs ∧ router_meta_idempotency_key (r_meta r) = Some k.
Proof.
  intros Hx. rewrite !elem_of_dest_keys. setoid_rewrite (λ t r, extended_view_Some d recs d1 t r Hx). split.
  - intros (t & r & [Hv|[_ Hl]] & Hk); [left; eauto|]. right. exists r.
    split; [|done]. by eapply list_elem_of_lookup_2.
  - intros [(t & r & Hv & Hk)|(r & Hr & Hk)]; [eauto|].
    apply list_elem_of_lookup_1 in Hr as [i Hi]. exists (b_head_seq d + 1 + Z.of_nat i), r.
    split; [|done]. right. split; [lia|]. by replace (Z.to_nat _) with i by lia.
Qed.

(** Delivering other records does not change which of these are missing. *)
Lemma deliveries_extended router s d now cursor n m d1 :
  extended d (deliveries router s (dest_keys router d) now cursor n) d1 →
  deliveries router s (dest_keys router d1) now (cursor + n) m =
    deliveries router s (dest_keys router d) now (cursor + n) m.
Proof.
  intros Hx. apply omap_ext_in. intros seq [Hseq _]%elem_of_seqZ. unfold delivery, dest_keys in *.
  destruct (exactly_once router) eqn:Heo; [|done].
  assert (source_key router s seq ∈ router_dest_idempotency_keys d1 ↔
          source_key router s seq ∈ router_dest_idempotency_keys d) as Hiff.
  { rewrite (extended_keys _ _ _ _ Hx). split; [|by left]. intros [?|(r & Hr & Hk)]; [done|].
    apply list_elem_of_omap in Hr as (seq' & Hseq'%elem_of_seqZ & Hdel).
    apply delivery_key in Hdel as [Hk' _]; [|done]. rewrite Hk in Hk'.
    apply (inj Some), source_key_inj in Hk'. lia. }
  by rewrite (bool_decide_ext _ _ Hiff).
Qed.

Lemma deliveries_app router s keys now cursor n m :
  0 <= n → 0 <= m →
  deliveries router s keys now cursor (n + m) =
    deliveries router s keys now cursor n ++ deliveries router s keys now (cursor + n) m.
Proof.
  intros. unfold deliveries. rewrite seqZ_app, omap_app by done. do 3 f_equal. lia.
Qed.

(** ** One pass *)
Lemma dest_admits_unlimited d recs r : unlimited (b_config d) → dest_admits d recs r = true.
Proof.
  intros (_ & Hr & Hb). unfold dest_admits, admit_write. destruct (cfg_discard _); [done|].
  by rewrite Hr, Hb.
Qed.

Lemma forward_loop_run router s d now seqs recs c f :
  unlimited (b_config d) → copyable router s now →
  ∃ f', forward_loop router s d (dest_keys router d) now seqs (mkFwd recs c f false) =
    mkFwd (recs ++ omap (delivery router s (dest_keys router d) now) seqs)
      (c + Z.of_nat (length seqs)) f' false.
Proof.
  intros Hu Hcopy. revert recs c f. induction seqs as [|seq seqs IH]; intros recs c f.
  { exists f. simpl. rewrite app_nil_r. f_equal. lia. }
  set (del := delivery router s (dest_keys router d) now) in *.
  change (omap del (seq :: seqs)) with (match del seq with Some y => y :: omap del seqs | None => omap del seqs end).
  assert (Hc : ∀ x, c + Z.of_nat (length (x :: seqs)) = c + 1 + Z.of_nat (length seqs)) by (simpl; lia).
  rewrite Hc. cbn [forward_loop fw_append fw_consumed fw_forwarded].
  assert (Hdel : del seq = delivery router s (dest_keys router d) now seq) by done.
  rewrite Hdel. clear Hdel. clearbody del. unfold forward_decide, delivery, eligible. fold (source_key router s seq).
  pose proof (λ h, Hcopy h seq) as Hcp. unfold eligible in Hcp.
  destruct (forward_lookup s seq) as [[r [|]]|]; [|apply IH..]. rewrite Z.leb_antisym.
  destruct (r_hops r <? MAX_ROUTER_HOPS); [|apply IH]. cbn [negb].
  destruct (filter_passes router r); [|apply IH]. cbn [negb mbind option_bind].
  destruct (exactly_once router) eqn:Heo; cbn [andb].
  - destruct (bool_decide _); [apply IH|]. destruct (Hcp eq_refl r eq_refl) as [sr ->].
    rewrite dest_admits_unlimited by done. destruct (IH (recs ++ [sr]) (c + 1) (f + 1)) as [f' ->].
    exists f'. by rewrite <-app_assoc.
  - destruct (forward_copy router s now seq r) as [sr|]; [|apply IH].
    rewrite dest_admits_unlimited by done. destruct (IH (recs ++ [sr]) (c + 1) (f + 1)) as [f' ->].
    exists f'. by rewrite <-app_assoc.
Qed.

Lemma mark_topic_dirty_run name e b :
  e_topics e !! name = Some b → ∃ sc, mark_topic_dirty name e = (set_sched e sc, Ok tt).
Proof.
  intros Hb. unfold mark_topic_dirty. rewrite (bind_ok _ _ e e b) by (unfold topic_ref; by rewrite Hb).
  by eexists.
Qed.

Lemma derived_append_run name recs now e b :
  e_topics e !! name = Some b → e_max_total_bytes e = 0 → recs ≠ [] → settled b → appendable b recs →
  ∃ seqs, derived_append name recs now e =
    (set_topics e (<[name := appended b recs now]> (e_topics e)), Ok seqs).
Proof.
  intros Hb Hq Hne Hst Happ. pose proof (append_eq b recs now (st_wf _ Hst) Hne Happ) as Heq.
  unfold derived_append. destruct recs as [|r0 recs0] eqn:Hrecs; [done|]. rewrite <-Hrecs in *.
  rewrite (bind_ok _ _ e e e) by done. rewrite Hq. cbn [Z.eqb negb].
  rewrite (bind_ok _ _ e e true) by done. cbn [negb].
  rewrite (bind_ok _ _ e e b) by (unfold topic_ref; by rewrite Hb).
  unfold append in Heq. destruct (stage_append b recs) as [b1 staged].
  destruct (staged_is_empty staged).
  { apply (f_equal (length ∘ snd)) in Heq. simpl in Heq. rewrite length_seqZ, Hrecs in Heq. simpl in Heq. lia. }
  injection Heq as Heq Hseqs. rewrite Heq. by eexists.
Qed.

(** What a pass leaves alone besides the topics and the routers. *)
Definition same_setting e e1 : Prop := e_now e1 = e_now e ∧ e_max_total_bytes e1 = e_max_total_bytes e.

Lemma append_forwarded_run router recs now e s d :
  e_topics e !! rt_source router = Some s → e_topics e !! rt_dest router = Some d →
  e_max_total_bytes e = 0 → unlimited (b_config d) → settled d → appendable d recs →
  ∃ e1 d1, append_forwarded router recs now e = (e1, Ok true) ∧ extended d recs d1 ∧
    e_topics e1 = <[rt_dest router := d1]> (e_topics e) ∧ e_routers e1 = e_routers e ∧ same_setting e e1.
Proof.
  intros Hs Hd Hq Hu Hst Happ. destruct recs as [|r0 recs0] eqn:Hrecs.
  { exists e, d. split_and!; try done; [apply extended_refl; done|by rewrite insert_id]. }
  unfold append_forwarded. rewrite <-Hrecs in *. set (d1 := appended d recs now).
  set (e1 := set_topics e (<[rt_dest router := d1]> (e_topics e))).
  assert (Hd1 : e_topics e1 !! rt_dest router = Some d1) by (unfold e1; simpl; by simplify_map_eq).
  destruct (derived_append_run (rt_dest router) recs now e d) as [seqs Hrun]; [done..|by rewrite Hrecs|done|done|].
  rewrite (bind_ok _ _ e e1 (Ok seqs)) by (by rewrite attempt_run, Hrun).
  rewrite (bind_ok _ _ e1 e1 (Ok tt))
    by (rewrite attempt_run; by rewrite (retention_unlimited _ _ _ d1)).
  destruct (mark_topic_dirty_run (rt_dest router) e1 d1 Hd1) as [sc Hm].
  rewrite (bind_ok _ _ e1 (set_sched e1 sc) tt Hm).
  eexists _, d1. split; [done|]. split; [by apply extended_appended|done].
Qed.

Lemma finish_pass_run router cursor recs n f behind e s :
  e_topics e !! rt_source router = Some s → 0 < n →
  ∃ e1 f', finish_pass (rt_name router) router cursor (mkFwd recs n f false) behind e = (e1, Ok n) ∧
    e_topics e1 = e_topics e ∧ same_setting e e1 ∧
    e_routers e1 = note_forwarded (e_routers e) (rt_name router) (cursor + n) f'.
Proof.
  intros Hs Hn. unfold finish_pass. cbn [fw_consumed fw_forwarded fw_deferred orb].
  rewrite (proj2 (Z.ltb_lt 0 n)) by done.
  set (e1 := set_routers e (note_forwarded (e_routers e) (rt_name router) (cursor + n) f)).
  rewrite (bind_ok _ _ e e1 tt) by done. destruct behind; [|by exists e1, f].
  destruct (mark_topic_dirty_run (rt_source router) e1 s Hs) as [sc Hm].
  rewrite (bind_ok _ _ e1 (set_sched e1 sc) tt Hm). by exists (set_sched e1 sc), f.
Qed.

(** The number of source records one pass covers. *)
Definition pass_size s (cursor : Z) : Z := Z.min (b_head_seq s - cursor) ROUTER_BATCH.

Lemma forward_pass_run router s d cursor e :
  forwarding e router s d cursor → lossless router s d (e_now e) cursor → settled d →
  cursor < b_head_seq s →
  appendable d (deliveries router s (dest_keys router d) (e_now e) cursor (pass_size s cursor)) →
  ∃ e1 d1, forward_pass (rt_name router) router cursor (e_now e) e = (e1, Ok (pass_size s cursor)) ∧
    forwarding e1 router s d1 (cursor + pass_size s cursor) ∧ same_setting e e1 ∧
    extended d (deliveries router s (dest_keys router d) (e_now e) cursor (pass_size s cursor)) d1 ∧
    e_topics e1 = <[rt_dest router := d1]> (e_topics e) ∧ g_routers (e_routers e1) = g_routers (e_routers e).
Proof.
  intros [Hg Hc Hs Hd Hne Hq] [Hus Hud Hev Hcopy] Hst Hlt Happ. unfold forward_pass.
  assert (Hts : ∀ {A} (f : TopicState V → EM V A), (topic_ref (rt_source router) ≫= f) e = f s e)
    by (intros; apply bind_ok; unfold topic_ref; by rewrite Hs).
  assert (Htd : ∀ {A} (f : TopicState V → EM V A), (topic_ref (rt_dest router) ≫= f) e = f d e)
    by (intros; apply bind_ok; unfold topic_ref; by rewrite Hd).
  rewrite Hts, (proj2 (Z.leb_gt _ _)) by done. unfold clamp_cursor.
  rewrite (proj2 (Z.ltb_ge _ _)) by done. rewrite (bind_ok _ _ e e cursor) by done. rewrite Htd.
  rewrite (bind_ok _ _ e e (Ok tt)).
  2: { destruct (cfg_discard (b_config d)); [done|].
       rewrite attempt_run. by rewrite (retention_unlimited _ _ _ d). }
  rewrite Hts, Htd. fold (dest_keys router d). cbv zeta.
  replace (Z.min (b_head_seq s) (cursor + ROUTER_BATCH) - cursor) with (pass_size s cursor)
    by (unfold pass_size; lia).
  destruct (forward_loop_run router s d (e_now e) (seqZ (cursor + 1) (pass_size s cursor)) [] 0 0
              Hud Hcopy) as [f Hloop].
  rewrite Hloop, length_seqZ. clear Hloop. cbn [fw_append app].
  destruct (append_forwarded_run router _ (e_now e) e s d Hs Hd Hq Hud Hst Happ)
    as (e1 & d1 & Hrun & Hx & Ht1 & Hr1 & Hnow1 & Hq1).
  unfold deliveries in Hrun. rewrite (bind_ok _ _ e e1 true Hrun). cbn [negb].
  assert (Hn : 0 < pass_size s cursor) by (unfold pass_size, ROUTER_BATCH; lia).
  rewrite Z2Nat.id, Z.add_0_l by lia.
  destruct (finish_pass_run router cursor
    (omap (delivery router s (dest_keys router d) (e_now e)) (seqZ (cursor + 1) (pass_size s cursor)))
    (pass_size s cursor) f (Z.min (b_head_seq s) (cursor + ROUTER_BATCH) <? b_head_seq s) e1 s)
    as (e2 & f' & Hfin & Ht2 & [Hnow2 Hq2] & Hr2); [rewrite Ht1; by simplify_map_eq|done|].
  exists e2, d1. rewrite Hfin. split; [done|]. split; [|split; [split; congruence|]].
  - split; rewrite ?Ht2, ?Ht1, ?Hr2; simpl; unfold graph_cursor; try by simplify_map_eq.
    + unfold graph_get in *. simpl. by rewrite Hr1.
    + congruence.
  - split; [done|]. rewrite Ht2, Hr2. simpl. by rewrite Hr1.
Qed.

Lemma advance_router_run router s d cursor e :
  forwarding e router s d cursor → unlimited (b_config s) →
  advance_router (rt_name router) e = forward_pass (rt_name router) router cursor (e_now e) e.
Proof.
  intros [Hg Hc Hs Hd _ _] Hu. unfold advance_router. rewrite (bind_ok _ _ e e e) by done. rewrite Hg, Hc.
  rewrite (bind_ok _ _ e e (Some s)) by (unfold get_topic; simpl; by rewrite <-Hs).
  rewrite (bind_ok _ _ e e (Some d)) by (unfold get_topic; simpl; by rewrite <-Hd).
  by rewrite (bind_ok _ _ e e (Ok tt)) by (rewrite attempt_run; by rewrite (retention_unlimited _ _ _ s)).
Qed.

(** ** All passes *)
Lemma drive_router_run fuel router s d cursor e :
  forwarding e router s d cursor → lossless router s d (e_now e) cursor → settled d →
  cursor <= b_head_seq s → b_head_seq s - cursor <= ROUTER_BATCH * Z.of_nat fuel →
  appendable d (deliveries router s (dest_keys router d) (e_now e) cursor (b_head_seq s - cursor)) →
  ∃ e1 d1, drive_router fuel (rt_name router) e = (e1, Ok tt) ∧
    forwarding e1 router s d1 (b_head_seq s) ∧ same_setting e e1 ∧
    extended d (deliveries router s (dest_keys router d) (e_now e) cursor (b_head_seq s - cursor)) d1 ∧
    e_topics e1 = <[rt_dest router := d1]> (e_topics e) ∧ g_routers (e_routers e1) = g_routers (e_routers e).
Proof.
  revert cursor d e. induction fuel as [|fuel IH]; intros cursor d e Hfo Hlo Hst Hle Hfuel Happ.
  all: destruct (decide (cursor = b_head_seq s)) as [->|Hneq]; [|try lia].
  1,2: rewrite Z.sub_diag; exists e, d; (split; [|split; [done|split; [done|split; [by apply extended_refl|
    by rewrite insert_id by apply Hfo]]]]).
  - done.
  - cbn [drive_router]. rewrite (bind_ok _ _ e e 0); [done|].
    rewrite (advance_router_run router s d (b_head_seq s)) by (done || apply Hlo).
    unfold forward_pass. rewrite (bind_ok _ _ e e s) by (unfold topic_ref; by rewrite (fo_source _ _ _ _ _ Hfo)).
    by rewrite Z.leb_refl.
  - set (n := pass_size s cursor).
    assert (Hn : 0 < n <= b_head_seq s - cursor ∧ b_head_seq s - (cursor + n) <= ROUTER_BATCH * Z.of_nat fuel).
    { unfold n, pass_size, ROUTER_BATCH in *. lia. }
    replace (b_head_seq s - cursor) with (n + (b_head_seq s - (cursor + n))) in * by lia.
    rewrite deliveries_app in Happ |- * by lia.
    destruct (appendable_app d _ _ Hst Happ) as [Happ1 Happ2].
    destruct (forward_pass_run router s d cursor e)
      as (e1 & d1 & Hrun & Hfo1 & [Hnow Hq] & Hx & Ht & Hg); [done..|lia|done|]. fold n in Hrun, Hfo1, Hx.
    specialize (Happ2 d1 Hx). rewrite <-(deliveries_extended _ _ _ _ _ _ _ d1 Hx), <-Hnow in Happ2 |- *.
    destruct (IH (cursor + n) d1 e1) as (e2 & d2 & Hrun2 & Hfo2 & [Hnow2 Hq2] & Hx2 & Ht2 & Hg2);
      [done| |apply Hx|lia..|done|].
    { destruct Hlo as [? ? ? ?]. split; [done| |lia|by rewrite Hnow].
      destruct Hx as (_ & _ & -> & _). done. }
    exists e2, d2. split; [|split; [done|split; [split; congruence|split]]].
    + cbn [drive_router]. rewrite (bind_ok _ _ e e1 n).
      * by rewrite (proj2 (Z.ltb_lt 0 n)) by lia.
      * by rewrite (advance_router_run router s d cursor) by (done || apply Hlo).
    + rewrite Hnow in Hx2 |- *. by eapply extended_app.
    + rewrite Ht2, Ht, insert_insert_eq. split; [done|congruence].
Qed.

Lemma catch_up_dest_run router dest_name e :
  filter (λ r : Router, rt_dest r = dest_name) (graph_iter (e_routers e)) = [router] →
  ∀ e1, drive_router (Z.to_nat CATCH_UP_PASSES) (rt_name router) e = (e1, Ok tt) →
  catch_up_dest dest_name e = (e1, Ok tt).
Proof.
  intros Hf e1 Hrun. unfold catch_up_dest. rewrite (bind_ok _ _ e e e) by done. rewrite Hf.
  cbn [fmap list_fmap drive_routers]. by rewrite (bind_ok _ _ e e1 tt Hrun).
Qed.

(** ** Exactly-once deliveries *)
Lemma elem_of_deliveries router s keys now cursor n sr :
  sr ∈ deliveries router s keys now cursor n ↔
    ∃ seq, cursor < seq <= cursor + n ∧ delivery router s keys now seq = Some sr.
Proof.
  unfold deliveries. rewrite list_elem_of_omap. setoid_rewrite elem_of_seqZ.
  split; intros (seq & ? & ?); exists seq; split; (done || lia).
Qed.

Lemma deliveries_complete router s keys now cursor n seq r :
  exactly_once router = true → copyable router s now → cursor < seq <= cursor + n →
  eligible router s seq = Some r →
  source_key router s seq ∈ keys ∨
  ∃ sr, sr ∈ deliveries router s keys now cursor n ∧
    router_meta_idempotency_key (r_meta sr) = Some (source_key router s seq).
Proof.
  intros Heo Hcopy Hseq Hel. destruct (decide (source_key router s seq ∈ keys)) as [|Hnot]; [by left|right].
  destruct (Hcopy Heo seq r Hel) as [sr Hsr].
  assert (Hdel : delivery router s keys now seq = Some sr).
  { unfold delivery. rewrite Hel. simpl. by rewrite Heo, bool_decide_eq_false_2, Hsr by done. }
  exists sr. split; [apply elem_of_deliveries; eauto|]. by apply (delivery_key _ _ _ _ _ _ Heo) in Hdel as [? _].
Qed.

Lemma delivery_index_inj router s keys now seqs i j r1 r2 k :
  exactly_once router = true → NoDup seqs →
  omap (delivery router s keys now) seqs !! i = Some r1 →
  omap (delivery router s keys now) seqs !! j = Some r2 →
  router_meta_idempotency_key (r_meta r1) = Some k →
  router_meta_idempotency_key (r_meta r2) = Some k → i = j.
Proof.
  intros Heo Hnd. revert i j. set (del := delivery router s keys now).
  assert (Hother : ∀ x (seqs : list Z) y r' i, x ∉ seqs → del x = Some y → omap del seqs !! i = Some r' →
    router_meta_idempotency_key (r_meta y) = Some k → router_meta_idempotency_key (r_meta r') = Some k → False).
  { intros x l y r' i Hx Hy Hi Hk Hk'. apply list_elem_of_lookup_2, list_elem_of_omap in Hi as (x' & Hx' & Hy').
    apply (delivery_key _ _ _ _ _ _ Heo) in Hy as [Hy _], Hy' as [Hy' _]. rewrite Hk in Hy. rewrite Hk' in Hy'.
    rewrite Hy in Hy'. apply (inj Some), source_key_inj in Hy'. by subst. }
  induction Hnd as [|x seqs Hx Hnd IH]; intros i j; [done|].
  change (omap del (x :: seqs)) with (match del x with Some y => y :: omap del seqs | None => omap del seqs end).
  destruct (del x) as [y|] eqn:Hy; [|apply IH].
  destruct i as [|i], j as [|j]; simpl; intros Hi Hj Hk1 Hk2; [done|..].
  - injection Hi as <-. by edestruct (Hother x seqs y r2 j).
  - injection Hj as <-. by edestruct (Hother x seqs y r1 i).
  - f_equal. by apply IH.
Qed.

Lemma deliveries_unique router s d now cursor n d1 :
  exactly_once router = true → keys_unique d →
  extended d (deliveries router s (dest_keys router d) now cursor n) d1 → keys_unique d1.
Proof.
  intros Heo Hu Hx t1 t2 r1 r2 k. unfold dest_keys in Hx. rewrite Heo in Hx.
  assert (Hnew : ∀ t r t' i r', view d t = Some r → router_meta_idempotency_key (r_meta r) = Some k →
    deliveries router s (router_dest_idempotency_keys d) now cursor n !! i = Some r' →
    router_meta_idempotency_key (r_meta r') = Some k → t = t').
  { intros t r t' i r' Hv Hk Hi Hk'. apply list_elem_of_lookup_2, elem_of_deliveries in Hi as (seq & _ & Hdel).
    apply (delivery_key _ _ _ _ _ _ Heo) in Hdel as [Hk2 Hnot]. rewrite Hk' in Hk2. injection Hk2 as ->.
    destruct Hnot. apply elem_of_dest_keys. eauto. }
  rewrite !(extended_view_Some _ _ _ _ _ Hx).
  intros [Hv1|[Ht1 Hi1]] [Hv2|[Ht2 Hi2]] Hk1 Hk2.
  - by eapply Hu.
  - by eapply Hnew.
  - symmetry. by eapply Hnew.
  - assert (Hij := delivery_index_inj router s _ now _ _ _ _ _ _ Heo (NoDup_seqZ _ _) Hi1 Hi2 Hk1 Hk2). lia.
Qed.

(** ** Theorems *)

(** C32. A catch-up read brings a destination without back-pressure up to date. Let
    exactly one router feed the destination, both topics be unlimited with their
    payloads in memory and no byte quota on the server, nothing of the backlog be
    evicted from the source, every copy fit the limits of a record, and the backlog be
    within the [1024] records of each of the loop's million passes. Then the call
    succeeds, the cursor reaches the source's head, the destination is its old log
    followed by a copy of every eligible source record of the backlog in source order
    (less the ones an exactly-once router finds there already), and no other topic
    changes. *)
Theorem catch_up_delivers dest_name router s d cursor e :
  filter (λ r : Router, rt_dest r = dest_name) (graph_iter (e_routers e)) = [router] →
  forwarding e router s d cursor → lossless router s d (e_now e) cursor → settled d →
  cursor <= b_head_seq s → b_head_seq s - cursor <= ROUTER_BATCH * CATCH_UP_PASSES →
  appendable d (deliveries router s (dest_keys router d) (e_now e) cursor (b_head_seq s - cursor)) →
  ∃ e1 d1, catch_up_dest dest_name e = (e1, Ok tt) ∧
    forwarding e1 router s d1 (b_head_seq s) ∧
    extended d (deliveries router s (dest_keys router d) (e_now e) cursor (b_head_seq s - cursor)) d1 ∧
    e_topics e1 = <[rt_dest router := d1]> (e_topics e).
Proof.
  intros Hf Hfo Hlo Hst Hle Hfuel Happ.
  destruct (drive_router_run (Z.to_nat CATCH_UP_PASSES) router s d cursor e)
    as (e1 & d1 & Hrun & Hfo1 & _ & Hx & Ht & _); [done..|by rewrite Z2Nat.id|done|].
  exists e1, d1. split; [by apply (catch_up_dest_run router)|done].
Qed.

(** C31. Exactly-once forwarding, under the conditions of [catch_up_delivers] (one
    router feeds the destination, both topics unlimited with their payloads in memory,
    no byte quota, nothing of the backlog evicted, every copy within the limits, the
    backlog within the passes of the loop): from any cursor, however old, and any
    destination in which no key occurs twice, a catch-up read ends with every eligible
    source record of the backlog present in the destination under its key, and still no
    key twice. Records that had reached the destination before the cursor was lost are
    not forwarded again. *)
Theorem exactly_once_delivers dest_name router s d cursor e :
  filter (λ r : Router, rt_dest r = dest_name) (graph_iter (e_routers e)) = [router] →
  exactly_once router = true → keys_unique d →
  forwarding e router s d cursor → lossless router s d (e_now e) cursor → settled d →
  cursor <= b_head_seq s → b_head_seq s - cursor <= ROUTER_BATCH * CATCH_UP_PASSES →
  appendable d (deliveries router s (dest_keys router d) (e_now e) cursor (b_head_seq s - cursor)) →
  ∃ e1 d1, catch_up_dest dest_name e = (e1, Ok tt) ∧
    e_topics e1 !! rt_dest router = Some d1 ∧ keys_unique d1 ∧
    (∀ t r, view d t = Some r → view d1 t = Some r) ∧
    ∀ seq r, cursor < seq <= b_head_seq s → eligible router s seq = Some r →
      ∃ t r', view d1 t = Some r' ∧
        router_meta_idempotency_key (r_meta r') = Some (source_key router s seq).
Proof.
  intros Hf Heo Hu Hfo Hlo Hst Hle Hfuel Happ.
  destruct (drive_router_run (Z.to_nat CATCH_UP_PASSES) router s d cursor e)
    as (e1 & d1 & Hrun & Hfo1 & _ & Hx & Ht & _); [done..|by rewrite Z2Nat.id|done|].
  exists e1, d1. split; [by apply (catch_up_dest_run router)|]. clear Hrun.
  split_and!; [rewrite Ht; by simplify_map_eq|..].
  - by eapply deliveries_unique.
  - intros t r Hv. apply (extended_view_Some _ _ _ _ _ Hx). by left.
  - intros seq r Hseq Hel. apply elem_of_dest_keys, (extended_keys _ _ _ _ Hx).
    destruct (deliveries_complete router s (dest_keys router d) (e_now e) cursor
      (b_head_seq s - cursor) seq r Heo (lo_copyable _ _ _ _ _ Hlo)) as [Hin|Hin]; [lia|done| |by right].
    left. unfold dest_keys in Hin. by rewrite Heo in Hin.
Qed.
End forward_spec.

(** ** Concrete routers *)
Module ForwardSamples.
Import JsonSample.
#[local] Instance linear_pow : Powf := λ q, q.

Definition job (tag : string) (n : Z) : StoredRecord Json :=
  mkRecord 1000 None (Some tag) (JNumber n) None 8 false true 0.

Definition source : TopicState Json :=
  appended (topic_new "a" 1 default_config 1 1) [job "x" 1; job "y" 2; job "x" 3] 1000.
Definition empty_dest : TopicState Json := topic_new "b" 2 default_config 1 1.

(** A filtering at-least-once router and an exactly-once one. *)
Definition x_only : Router :=
  mkRouter "r" "a" "b" true true false (Some (mkFilter FilterOp.Eq "x")) false AtLeastOnce.
Definition once : Router := mkRouter "r" "a" "b" true true false None false ExactlyOnce.

(** The destination that already has the copy of the first source record. *)
Definition half_dest : TopicState Json :=
  appended empty_dest (deliveries once source ∅ 1000 0 1) 1000.

Definition engine_of (router : Router) (d : TopicState Json) : Engine Json :=
  mkEngine {["a"%string := source; "b"%string := d]} 2 3 0 0 0 None [] 1000 0
    (graph_restore graph_new router 0 0 0) sched_new.

Lemma source_settled : settled source.
Proof.
  apply appended_settled; [by apply topic_new_settled|]. split_and!; [by repeat constructor|by vm_compute..].
Qed.

Lemma half_settled : settled half_dest.
Proof.
  apply appended_settled; [by apply topic_new_settled|].
  split_and!; [|by vm_compute..]. by repeat constructor; vm_compute.
Qed.

Lemma once_copyable : copyable once source 1000.
Proof.
  intros _ seq r Hel. assert (Hseq : seq = 1 ∨ seq = 2 ∨ seq = 3).
  { unfold eligible, forward_lookup, get in Hel. destruct (seq <? _) eqn:Hlt; [done|].
    apply Z.ltb_ge in Hlt. change (base_seq (b_index source)) with 1 in *.
    destruct (records (b_index source) !! Z.to_nat (seq - 1)) eqn:Hl; [|done].
    apply lookup_lt_Some in Hl. change (length (records (b_index source))) with 3%nat in Hl. lia. }
  destruct Hseq as [Hseq|[Hseq|Hseq]]; subst seq; vm_compute in Hel; injection Hel as <-; eexists; by vm_compute.
Qed.

Lemma x_only_lossless : lossless x_only source empty_dest 1000 0.
Proof. split; [done|done|by vm_compute|done]. Qed.

Lemma once_lossless : lossless once source half_dest 1000 0.
Proof. split; [done|done|by vm_compute|apply once_copyable]. Qed.

Lemma half_keys_unique : keys_unique half_dest.
Proof.
  assert (Hone : ∀ t r, view half_dest t = Some r → t = 1).
  { intros t r. rewrite view_Some. change (b_head_seq half_dest) with 1.
    change (earliest_seq half_dest) with 1. lia. }
  intros t1 t2 r1 r2 k Hv1 Hv2 _ _. by rewrite (Hone _ _ Hv1), (Hone _ _ Hv2).
Qed.

Lemma catch_up_delivers_witness :
  map (λ r, (r_tag r, r_data r)) (deliveries x_only source ∅ 1000 0 3) =
    [(Some "x"%string, JNumber 1); (Some "x"%string, JNumber 3)] ∧
  ∃ e1 d1, catch_up_dest "b" (engine_of x_only empty_dest) = (e1, Ok tt) ∧
    forwarding e1 x_only source d1 3 ∧ extended empty_dest (deliveries x_only source ∅ 1000 0 3) d1 ∧
    e_topics e1 = <["b"%string := d1]> (e_topics (engine_of x_only empty_dest)).
Proof.
  split; [by vm_compute|].
  apply (catch_up_delivers "b" x_only source empty_dest 0 (engine_of x_only empty_dest)).
  - by vm_compute.
  - split; by vm_compute.
  - apply x_only_lossless.
  - by apply topic_new_settled.
  - by vm_compute.
  - by vm_compute.
  - split_and!; [|by vm_compute..]. repeat constructor; by vm_compute.
Defined.

Lemma exactly_once_delivers_witness :
  ∃ e1 d1, catch_up_dest "b" (engine_of once half_dest) = (e1, Ok tt) ∧
    e_topics e1 !! "b"%string = Some d1 ∧ keys_unique d1 ∧
    (∀ t r, view half_dest t = Some r → view d1 t = Some r) ∧
    ∀ seq r, 0 < seq <= 3 → eligible once source seq = Some r →
      ∃ t r', view d1 t = Some r' ∧
        router_meta_idempotency_key (r_meta r') = Some (source_key once source seq).
Proof.
  apply (exactly_once_delivers "b" once source half_dest 0 (engine_of once half_dest)).
  - by vm_compute.
  - done.
  - apply half_keys_unique.
  - split; by vm_compute.
  - apply once_lossless.
  - apply half_settled.
  - by vm_compute.
  - by vm_compute.
  - split_and!; [|by vm_compute..]. repeat constructor; by vm_compute.
Defined.
End ForwardSamples.
