(* ===== verification/Api.v ===== *)
(** * The request handlers

    Models the handlers of [src/engine/mod.rs] above the shared append path:
    [write] with its idempotency window, [diff], [delete], [delete_topic] with the
    router cascade, [put_router] and [delete_router].  Each is one computation of
    the request monad; the per-key gate and the publish ticket of the source order
    concurrent requests and have no effect on a single one; the ticket is the subject of
    [Gate]. *)

From S2P Require Import Prelude Types Eviction TopicIndex QueueProjection TopicState TopicLog.
From S2P Require Import Bytes Wal Json Router Sched Diff Engine EngineLogic Forward.

Record RecordIn (V : Type) := mkRecordIn {
  ri_data : V;
  ri_tag : option string;
  ri_node : option string;
  ri_meta : option V
}.
Arguments mkRecordIn {V}.
Arguments ri_data {V}.
Arguments ri_tag {V}.
Arguments ri_node {V}.
Arguments ri_meta {V}.

Record WriteRequest (V : Type) := mkWriteRequest {
  wq_records : list (RecordIn V);
  wq_node : option string;
  wq_idempotency_key : option string;
  wq_create : option bool;
  wq_config : option TopicConfig
}.
Arguments mkWriteRequest {V}.
Arguments wq_records {V}.
Arguments wq_node {V}.
Arguments wq_idempotency_key {V}.
Arguments wq_create {V}.
Arguments wq_config {V}.

Record WriteResponse := mkWriteResponse {
  wp_first_seq : Z;
  wp_last_seq : Z;
  wp_seqs : option (list Z);
  wp_head_seq : Z;
  wp_count : Z;
  wp_created : bool;
  wp_deduped : bool
}.

Record DeleteRequest := mkDeleteRequest {
  dq_before_seq : option Z;
  dq_match : option Filter
}.

Record DeleteResponse := mkDeleteResponse {
  dp_deleted : Z;
  dp_earliest_seq : Z;
  dp_head_seq : Z;
  dp_count : Z;
  dp_bytes : Z
}.

Record RouterCreateRequest := mkRouterCreate {
  rq_source : string;
  rq_dest : string;
  rq_preserve_node : bool;
  rq_preserve_tag : bool;
  rq_create_dest : bool;
  rq_filter : option Filter;
  rq_allow_cycle : bool;
  rq_guarantee : RouterGuarantee
}.

Section api.
Context {V : Type} `{!JsonNull V} `{!Serde V} `{!Powf}.
Implicit Types (b : TopicState V) (e : Engine V).

(** ** Write *)

(** [build_stored], with the batch default of [node]. *)
Definition build_stored (rec : RecordIn V) (node : option string) (now : Z) :
    result ErrorCode (StoredRecord V) :=
  build_stored_owned (ri_data rec) (ri_tag rec)
    (match ri_node rec with Some n => Some n | None => node end) (ri_meta rec) now.

Fixpoint build_batch (recs : list (RecordIn V)) (node : option string) (now : Z) :
    result ErrorCode (list (StoredRecord V)) :=
  match recs with
  | [] => Ok []
  | r :: recs =>
      let? sr := build_stored r node now in
      let? srs := build_batch recs node now in
      Ok (sr :: srs)
  end.

(** The batch limits, then the records. *)
Definition validate_write (req : WriteRequest V) (now : Z) : result ErrorCode (list (StoredRecord V)) :=
  let n := Z.of_nat (length (wq_records req)) in
  if n =? 0 then Err InvalidRequest
  else if MAX_BATCH_RECORDS <? n then Err BatchTooLarge
  else match wq_idempotency_key req with
       | Some k => if MAX_IDEMPOTENCY_KEY_LEN <? string_len k then Err InvalidRequest
                   else build_batch (wq_records req) (wq_node req) now
       | None => build_batch (wq_records req) (wq_node req) now
       end.

(** Resolving the topic, creating it when the request or its config allows. *)
Definition resolve_topic (name : string) (req : WriteRequest V) : EM V bool :=
  o ← get_topic name;
  match o with
  | Some _ => mret false
  | None =>
      let create_cfg := default default_config (wq_config req) in
      let may_create := default (cfg_auto_create create_cfg) (wq_create req) in
      if negb may_create then throw TopicNotFound
      else if negb (is_valid_name name) then throw InvalidRequest
      else match validate_config create_cfg with
           | Err c => throw c
           | Ok _ =>
               p ← put_topic name create_cfg;
               o ← get_topic name;
               match o with Some _ => mret p.1 | None => throw Internal end
           end
  end.

(** Pruning the dedupe entries that fell out of the window. *)
Definition prune_dedupe (m : gmap string DedupeEntry) (now window_ms : Z) : gmap string DedupeEntry :=
  filter (λ kv, i64_sat_sub now (d_created_ms kv.2) <= window_ms) m.

(** The dedupe check of a keyed write. *)
Definition check_dedupe (name : string) (key : option string) (now : Z) :
    EM V (option DedupeEntry) :=
  match key with
  | None => mret None
  | Some k =>
      b ← topic_ref name;
      let m := prune_dedupe (b_dedupe b) now (as_i64 (cfg_idempotency_window_ms (b_config b))) in
      _ ← store_topic name (with_dedupe b m);
      mret (m !! k)
  end.

(** Admission under [discard: "reject"]. *)
Definition check_admission b (count incoming_bytes : Z) : result ErrorCode unit :=
  let c := b_config b in
  if (0 <? cfg_cap_bytes c) && (cfg_cap_bytes c <? incoming_bytes)
     && bool_decide (cfg_discard c = Reject) then Err RecordTooLarge
  else if (0 <? cfg_cap_records c) && (cfg_cap_records c <? count)
     && bool_decide (cfg_discard c = Reject) then Err RecordTooLarge
  else match admit_write (cfg_discard c) (cfg_cap_records c) (cfg_cap_bytes c)
               (b_live_count b) (b_bytes_retained b) count incoming_bytes with
       | RejectWrite => Err TopicFull
       | Admit => Ok tt
       end.

Definition write_response (seqs : list Z) (head_seq : Z) (return_seqs created deduped : bool) :
    WriteResponse :=
  mkWriteResponse (default 0 (head seqs)) (default 0 (last seqs))
    (if return_seqs then Some seqs else None) head_seq (Z.of_nat (length seqs)) created deduped.

(** Recording a keyed write for its retries. *)
Definition record_dedupe (name : string) (key : option string) (seqs : list Z) (head now : Z) :
    EM V unit :=
  match key with
  | None => mret tt
  | Some k =>
      b ← topic_ref name;
      store_topic name (with_dedupe b (<[k := mkDedupe seqs head now]> (b_dedupe b)))
  end.

(** [Engine::write].  The append section (reservation, staging, WAL, publish)
    is the one of [durable_append]. *)
Definition write (name : string) (req : WriteRequest V) (return_seqs : bool) : EM V WriteResponse :=
  e ← eget;
  let now := e_now e in
  match validate_write req now with
  | Err c => throw c
  | Ok stored =>
      let incoming_bytes := foldl (λ acc r, acc +s r_bytes r) 0 stored in
      created ← resolve_topic name req;
      hit ← check_dedupe name (wq_idempotency_key req) now;
      match hit with
      | Some entry => mret (write_response (d_seqs entry) (d_head_seq entry) return_seqs false true)
      | None =>
          _ ← enforce_retention_durable name now;
          b ← topic_ref name;
          match check_admission b (Z.of_nat (length stored)) incoming_bytes with
          | Err c => throw c
          | Ok _ =>
              seqs ← durable_append name stored now;
              b ← topic_ref name;
              let head := b_head_seq b in
              _ ← enforce_retention_durable name now;
              _ ← record_dedupe name (wq_idempotency_key req) seqs head now;
              _ ← mark_topic_dirty name;
              mret (write_response seqs head return_seqs created false)
          end
      end
  end.

(** ** Read *)

(** [Engine::diff] *)
Definition diff (name : string) (req : DiffRequest) : EM V (DiffResponse V) :=
  o ← get_topic name;
  match o with
  | None => throw TopicNotFound
  | Some _ =>
      _ ← catch_up_dest name;
      e ← eget;
      let now := e_now e in
      _ ← enforce_retention_durable name now;
      b ← topic_ref name;
      let b := with_last_consumed (with_last_read b now) now in
      _ ← store_topic name b;
      mret (diff_read b now req)
  end.

(** ** Delete *)

(** Submitting one frame and waiting for its commit; without a WAL there is
    nothing to wait for. *)
Definition submit_and_wait (record : WalRecord.t) (durable : bool) : EM V unit :=
  e ← eget;
  match e_wal e with
  | None => mret tt
  | Some _ =>
      o ← next_outcome;
      match o with
      | SubmitFull => throw Throttled
      | SubmitFailed | CommitFailed => throw Internal
      | Committed => log_frames [(record, durable)]
      end
  end.

(** [Engine::delete] *)
Definition delete_records (name : string) (req : DeleteRequest) : EM V DeleteResponse :=
  if bool_decide (dq_before_seq req = None) && bool_decide (dq_match req = None)
  then throw InvalidRequest
  else
    o ← get_topic name;
    match o with
    | None => throw TopicNotFound
    | Some b =>
        e ← eget;
        let now := e_now e in
        let class := durability_class (b_config b) in
        _ ← enforce_retention_durable name now;
        b ← topic_ref name;
        let bound_head := b_head_seq b +s 1 in
        _ ← (if bool_decide (class = Ephemeral) then mret tt
             else submit_and_wait (WalRecord.Delete (b_topic_id b) (dq_before_seq req)
                    (filter_to_matchsel <$> dq_match req) [] (Some bound_head) (ts_of now))
                    (bool_decide (class = Fsync)));
        let '(b', stats) := apply_delete_stats b (dq_before_seq req) (dq_match req)
                              (Some bound_head) now in
        _ ← store_topic name b';
        _ ← release_total_bytes (ds_bytes_freed stats);
        mret (mkDeleteResponse (ds_deleted stats) (earliest_seq b') (b_head_seq b')
                (b_live_count b') (b_bytes_retained b'))
    end.

(** ** Topic deletion *)

(** The router tombstones of [delete_topic], one frame each. *)
Fixpoint log_router_deletes (names : list string) (ts : Z) : EM V unit :=
  match names with
  | [] => mret tt
  | r :: names => _ ← wal_log (WalRecord.RouterDelete r ts) true; log_router_deletes names ts
  end.

(** [Engine::delete_topic] *)
Definition delete_topic (name : string) (if_empty : bool) : EM V (bool * list string) :=
  o ← get_topic name;
  match o with
  | None => mret (false, [])
  | Some _ =>
      e ← eget;
      _ ← (if if_empty
           then _ ← enforce_retention_durable name (e_now e);
                b ← topic_ref name;
                if b_live_count b =? 0 then mret tt else throw TopicNotEmpty
           else mret tt);
      b ← topic_ref name;
      let routers_removed := routers_touching_topic (e_routers e) name in
      let ts := ts_of (e_now e) in
      _ ← wal_log (WalRecord.TopicConfig (b_topic_id b) (mkTopicConfigOp name []) true ts) true;
      _ ← log_router_deletes routers_removed ts;
      _ ← emodify (λ e, set_topics e (delete name (e_topics e)));
      _ ← emodify (λ e, set_topic_count e (e_topic_count e - 1));
      _ ← release_total_bytes (b_bytes_retained b);
      _ ← emodify (λ e, set_sched e (forget_dirty name (e_sched e)));
      _ ← emodify (λ e, set_routers e (remove_touching_topic (e_routers e) name).1);
      mret (true, routers_removed)
  end.

(** ** Routers *)

(** [ensure_router_topics] *)
Definition ensure_router_topics (req : RouterCreateRequest) : EM V unit :=
  o ← get_topic (rq_source req);
  _ ← match o with
      | Some _ => mret tt
      | None => _ ← put_topic (rq_source req) default_config; mret tt
      end;
  o ← get_topic (rq_dest req);
  match o with
  | Some _ => mret tt
  | None => _ ← put_topic (rq_dest req) default_config; mret tt
  end.

(** The single-owner rule: another router with another source feeds the
    destination already. *)
Definition fan_in (g : RouterGraph) (name : string) (req : RouterCreateRequest) : bool :=
  existsb (λ rn, negb (bool_decide (rn = name)) &&
                 match graph_get g rn with
                 | Some r => bool_decide (rt_dest r = rq_dest req) &&
                             negb (bool_decide (rt_source r = rq_source req))
                 | None => false
                 end)
    (routers_touching_topic g (rq_dest req)).

(** Whether the request would re-point an existing router. *)
Definition repoints (g : RouterGraph) (name : string) (req : RouterCreateRequest) : bool :=
  match graph_get g name with
  | Some r => negb (bool_decide (rt_source r = rq_source req)) ||
              negb (bool_decide (rt_dest r = rq_dest req))
  | None => false
  end.

Definition router_of (name : string) (req : RouterCreateRequest) : Router :=
  mkRouter name (rq_source req) (rq_dest req) (rq_preserve_node req) (rq_preserve_tag req)
    (rq_create_dest req) (rq_filter req) (rq_allow_cycle req) (rq_guarantee req).

Definition router_op (name : string) (req : RouterCreateRequest) (cursor base : Z) : RouterOp :=
  mkRouterOp name (rq_source req) (rq_dest req) (rq_preserve_node req) (rq_preserve_tag req)
    (rq_create_dest req) (rq_allow_cycle req) (bool_decide (rq_guarantee req = ExactlyOnce))
    (filter_to_matchsel <$> rq_filter req) cursor base.

(** Undoing the insert of a router whose creation failed. *)
Definition unregister_if (created : bool) (name : string) : EM V unit :=
  if created then emodify (λ e, set_routers e (graph_remove (e_routers e) name).1) else mret tt.

(** The part of [put_router] after its checks. *)
Definition register_router (name : string) (req : RouterCreateRequest) : EM V bool :=
  src ← get_topic (rq_source req);
  let src_head := match src with Some b => b_head_seq b | None => 0 end in
  e ← eget;
  match upsert_capped (e_routers e) (router_of name req) (e_max_routers e) with
  | Err c => throw c
  | Ok (g, created) =>
      _ ← emodify (λ e, set_routers e (if created then note_forwarded g name src_head 0 else g));
      r ← attempt (ensure_router_topics req);
      match r with
      | Err c => _ ← unregister_if created name; throw c
      | Ok _ =>
          d ← get_topic (rq_dest req);
          let dest_head := match d with Some b => b_head_seq b | None => 0 end in
          _ ← (if created
               then emodify (λ e, set_routers e (seed_dest_base (e_routers e) name dest_head))
               else mret tt);
          e ← eget;
          r ← attempt (wal_log (WalRecord.RouterCreate
                 (router_op name req (graph_cursor (e_routers e) name) (dest_base (e_routers e) name))
                 (ts_of (e_now e))) true);
          match r with
          | Err c => _ ← unregister_if created name; throw c
          | Ok _ => mret created
          end
      end
  end.

(** [Engine::put_router] *)
Definition put_router (name : string) (req : RouterCreateRequest) : EM V bool :=
  if negb (is_valid_router_name name) then throw InvalidRequest
  else
    match validate_router (rq_source req) (rq_dest req) with
    | Err c => throw c
    | Ok _ =>
        d ← get_topic (rq_dest req);
        if match d with Some _ => false | None => negb (rq_create_dest req) end
        then throw TopicNotFound
        else
          e ← eget;
          if fan_in (e_routers e) name req || repoints (e_routers e) name req
          then throw TopicExistsIncompatible
          else register_router name req
    end.

(** [Engine::delete_router] *)
Definition delete_router (name : string) : EM V bool :=
  e ← eget;
  _ ← match graph_get (e_routers e) name with
      | Some _ => wal_log (WalRecord.RouterDelete name (ts_of (e_now e))) true
      | None => mret tt
      end;
  e ← eget;
  let '(g, deleted) := graph_remove (e_routers e) name in
  _ ← emodify (λ e, set_routers e g);
  mret deleted.
End api.
