(* ===== verification/Ws.v ===== *)
(** * The WebSocket

    Models [src/http/ws.rs] and [watch_topic_states] of [src/engine/mod.rs].  One
    connection has two tasks: the socket task runs the commands of the client
    ([handle_socket], [handle_command]), and the delivery task drains the subscribed
    topics in pages of [diff_shared_frames] ([delivery_loop]).  They share the map of
    the subscriptions, under a mutex that each holds for single accesses, and the
    channel to the client.  A state is the topics with their rings, the clock, the map,
    the point the delivery task is at, the replies of the socket task, and what was sent; the other requests of the
    server change the topics at any time.  A send is a step of its own, so that the
    replies of the socket task come in between.  [HashMap] iteration order is any
    order for the snapshot of the pass, and that of the model's map for the topics of a
    command.

    [ws_delivery_exact]: as long as no command names a topic while the delivery task
    works on it, the client gets each record of the subscription once and in order,
    and misses none that is still there.  [ws_drains]: the drain of a topic ends, at
    its head.  [ws_only_allowed]: nothing of a topic is sent that the key may not read.
    The samples show what a command in the middle of a page does: the cursor of a new
    subscription is overwritten, and the frames of one projection are cached as those
    of another. *)

From stdpp Require Import base gmap list strings sorting list_numbers relations.
From S2P Require Import Prelude Bytes Types Eviction TopicIndex QueueProjection TopicState TopicLog Diff Broadcast Watch.
From S2P Require Import Wal Auth Limits Http Json Router Sched Engine EngineLogic Forward Api.

Record WatchTopicOptions := mkWatchOptions {
  wo_from_seq : Z;
  wo_tail : bool
}.

Record WatchTopicState := mkWatchState {
  wt_from_seq : Z;
  wt_head_seq : Z;
  wt_earliest_seq : Z
}.

Record WsSub := mkSub {
  su_cursor : Z;
  su_node : option NodeFilter;
  su_limit : Z;
  su_max_batch_bytes : Z;
  su_include_data : bool;
  su_include_tags : bool;
  su_include_meta : bool;
  su_caught_up : bool
}.

Abbreviation Subs := (gmap string WsSub).

Definition with_cursor (s : WsSub) (cursor : Z) : WsSub :=
  mkSub cursor (su_node s) (su_limit s) (su_max_batch_bytes s) (su_include_data s) (su_include_tags s)
    (su_include_meta s) (su_caught_up s).
Definition with_caught_up (s : WsSub) (up : bool) : WsSub :=
  mkSub (su_cursor s) (su_node s) (su_limit s) (su_max_batch_bytes s) (su_include_data s) (su_include_tags s)
    (su_include_meta s) up.

(** The codes of an error message. *)
Inductive WsCode := InvalidJson | UnsupportedMessage | ServerShuttingDown | CodeOf (c : ErrorCode).

Section ws.
Context {V : Type} `{!JsonNull V} `{!Serde V} `{!Powf} {R : Type} (serialize_frame : RecordOut V → bool → R).
Implicit Types (b : TopicState V) (c : CacheState R) (p : Principal).

Inductive WsCommand :=
  | Subscribe (request_id : option V) (topic : option string) (topics : gmap string WatchTopicOptions)
      (from_seq : Z) (tail : bool) (node : option NodeFilter) (limit max_batch_bytes : Z)
      (include_data include_tags include_meta lenient : bool)
  | Unsubscribe (request_id : option V) (topic : option string) (topics : list string)
  | Publish (request_id : option V) (topic : string) (req : WriteRequest V) (return_seqs : bool)
  | Ping (request_id : option V).

(** What is sent to the client. *)
Inductive WsMessage :=
  | MsSubscribed (request_id : option V) (topics : gmap string WatchTopicState)
  | MsUnsubscribed (request_id : option V) (topics : list string)
  | MsAck (request_id : option V) (topic : string) (resp : WriteResponse)
  | MsPong (request_id : option V)
  | MsError (request_id : option V) (code : WsCode)
  | MsPongFrame (payload : bytes)
  | MsTopicDeleted (topic : string)
  | MsTombstone (topic : string) (t : Tombstone)
  | MsRecord (topic : string) (from_seq to_seq head_seq : Z) (records : list R)
  | MsCaughtUp (topic : string) (head_seq : Z).

(** What the client sends; a text is the command that [serde_json] reads from it. *)
Inductive SocketMessage :=
  | Text (cmd : option WsCommand)
  | Binary
  | PingFrame (payload : bytes)
  | PongFrame
  | Close.

(** ** The commands *)

(** [Engine::watch_topic_states] *)
Fixpoint watch_states (now : Z) (topics : list (string * WatchTopicOptions)) (lenient : bool)
    (out : gmap string WatchTopicState) : EM V (gmap string WatchTopicState) :=
  match topics with
  | [] => mret out
  | (name, opts) :: topics =>
      o ← get_topic name;
      match o with
      | Some _ =>
          _ ← enforce_retention_durable name now;
          b ← topic_ref name;
          let from_seq := if wo_tail opts then b_head_seq b else wo_from_seq opts in
          watch_states now topics lenient
            (<[name := mkWatchState from_seq (b_head_seq b) (earliest_seq b)]> out)
      | None => if lenient then watch_states now topics lenient out else throw TopicNotFound
      end
  end.
Definition watch_topic_states (topics : gmap string WatchTopicOptions) (lenient : bool) :
    EM V (gmap string WatchTopicState) :=
  e ← eget; watch_states (e_now e) (map_to_list topics) lenient ∅.

(** [topics.entry(topic).or_insert] *)
Definition subscribe_topics (topic : option string) (topics : gmap string WatchTopicOptions) (from_seq : Z) (tail : bool) :
    gmap string WatchTopicOptions :=
  match topic with
  | Some t => match topics !! t with Some _ => topics | None => <[t := mkWatchOptions from_seq tail]> topics end
  | None => topics
  end.

(** The new subscriptions replace those of the same topics. *)
Definition add_subs (mk : Z → WsSub) (states : gmap string WatchTopicState) (subs : Subs) : Subs :=
  ((λ st, mk (wt_from_seq st)) <$> states) ∪ subs.

(** [handle_command]: the subscriptions after it, and its reply.  Whether the write is
    run inline or on the blocking pool does not change it. *)
Definition handle_command p (subs : Subs) (cmd : option WsCommand) : EM V (Subs * WsMessage) :=
  match cmd with
  | None => mret (subs, MsError None InvalidJson)
  | Some (Subscribe rid topic topics from_seq tail node limit mbb data tags meta lenient) =>
      let topics := subscribe_topics topic topics from_seq tail in
      match ws_subscribe_auth p (map_to_list topics).*1 with
      | Err c => mret (subs, MsError rid (CodeOf c))
      | Ok _ =>
          r ← attempt (watch_topic_states topics lenient);
          match r with
          | Err c => mret (subs, MsError rid (CodeOf c))
          | Ok states =>
              mret (add_subs (λ from, mkSub from node limit mbb data tags meta false) states subs, MsSubscribed rid states)
          end
      end
  | Some (Unsubscribe rid topic topics) =>
      let topics := topics ++ option_list topic in
      match topics with
      | [] => mret (subs, MsError rid (CodeOf InvalidRequest))
      | _ => mret (foldl (flip delete) subs topics, MsUnsubscribed rid topics)
      end
  | Some (Publish rid topic req return_seqs) =>
      match ws_publish_auth p (bool_decide (is_Some (Api.wq_config req))) topic with
      | Err c => mret (subs, MsError rid (CodeOf c))
      | Ok _ =>
          r ← attempt (write topic req return_seqs);
          match r with
          | Err c => mret (subs, MsError rid (CodeOf c))
          | Ok resp => mret (subs, MsAck rid topic resp)
          end
      end
  | Some (Ping rid) => mret (subs, MsPong rid)
  end.

(** One message of the socket: the subscriptions after it and what is sent; [None]
    ends the connection. *)
Definition handle_message p (subs : Subs) (m : SocketMessage) : EM V (option (Subs * list WsMessage)) :=
  match m with
  | Text cmd => r ← handle_command p subs cmd; mret (Some (r.1, [r.2]))
  | Binary => mret (Some (subs, [MsError None UnsupportedMessage]))
  | PingFrame payload => mret (Some (subs, [MsPongFrame payload]))
  | PongFrame => mret (Some (subs, []))
  | Close => mret None
  end.

(** ** The delivery loop *)

Definition sub_variant (s : WsSub) : FrameVariant :=
  frame_variant_new (su_include_data s) (su_include_tags s) (su_include_meta s).
Definition sub_request (s : WsSub) : DiffRequest :=
  mkDiffRequest (su_cursor s) (su_limit s) (su_node s) (su_include_tags s) (su_include_meta s) (su_max_batch_bytes s).

(** Where the task is: at the head of the loop; dropping the subscriptions of the
    snapshot whose topic is gone; at the next topic of the pass; at the head of the
    loop over its pages; with the subscription it read; with the page, before each of
    the three accesses to the map; sending a message; waiting; ended. *)
Inductive Phase :=
  | PhTop
  | PhCheck (todo live : list (string * WsSub))
  | PhNext (live : list (string * WsSub))
  | PhPage (name : string) (v : FrameVariant) (rest : list (string * WsSub))
  | PhDiff (name : string) (v : FrameVariant) (current : WsSub) (rest : list (string * WsSub))
  | PhTomb (name : string) (v : FrameVariant) (from_seq : Z) (d : SharedFrameDiff R) (rest : list (string * WsSub))
  | PhRecs (name : string) (v : FrameVariant) (from_seq : Z) (d : SharedFrameDiff R) (rest : list (string * WsSub))
  | PhUp (name : string) (v : FrameVariant) (d : SharedFrameDiff R) (rest : list (string * WsSub))
  | PhSend (m : WsMessage) (next : Phase)
  | PhPark
  | PhStopped.

(** [stored.cursor = seq; stored.caught_up = false] where the topic is still
    subscribed. *)
Definition store_cursor (subs : Subs) (name : string) (seq : Z) : Subs :=
  alter (λ s, with_caught_up (with_cursor s seq) false) name subs.

Definition page_tomb (subs : Subs) (name : string) (d : SharedFrameDiff R) : Subs * list WsMessage :=
  match sf_tombstone d with
  | Some t => (store_cursor subs name (t_gap_to t), [MsTombstone name t])
  | None => (subs, [])
  end.
Definition page_recs (subs : Subs) (name : string) (from_seq : Z) (d : SharedFrameDiff R) : Subs * list WsMessage :=
  match sf_records d with
  | [] => (alter (λ s, with_cursor s (sf_next_from_seq d)) name subs, [])
  | _ => (store_cursor subs name (sf_next_from_seq d),
          [MsRecord name from_seq (sf_next_from_seq d) (sf_head_seq d) (sf_records d)])
  end.
Definition page_up (subs : Subs) (name : string) (d : SharedFrameDiff R) : Subs * list WsMessage :=
  match subs !! name with
  | Some s =>
      if sf_caught_up d && negb (su_caught_up s)
      then (<[name := with_caught_up s true]> subs, [MsCaughtUp name (sf_head_seq d)])
      else (subs, [])
  | None => (subs, [])
  end.
Definition then_send (ms : list WsMessage) (k : Phase) : Phase := foldr PhSend k ms.

(** [diff_shared_frames] of the engine: retention first, then the page through the
    ring of the topic. *)
Definition shared_read b c (now : Z) (s : WsSub) (v : FrameVariant) :
    TopicState V * CacheState R * SharedFrameDiff R :=
  let b := (enforce_retention b now).1 in
  let '(c, d) := diff_shared_frames serialize_frame b now (sub_request s) v c in (b, c, d).

Record Ws := mkWs {
  ws_topics : gmap string (TopicState V * CacheState R);
  ws_now : Z;
  ws_subs : Subs;
  ws_phase : Phase;
  ws_replies : list WsMessage;
  ws_out : list WsMessage
}.

Definition set_phase (g : Ws) (ph : Phase) : Ws := mkWs (ws_topics g) (ws_now g) (ws_subs g) ph (ws_replies g) (ws_out g).
Definition set_subs (g : Ws) (subs : Subs) : Ws := mkWs (ws_topics g) (ws_now g) subs (ws_phase g) (ws_replies g) (ws_out g).
Definition set_ws_topics (g : Ws) (ts : gmap string (TopicState V * CacheState R)) : Ws :=
  mkWs ts (ws_now g) (ws_subs g) (ws_phase g) (ws_replies g) (ws_out g).
Definition set_replies (g : Ws) (ms : list WsMessage) : Ws :=
  mkWs (ws_topics g) (ws_now g) (ws_subs g) (ws_phase g) ms (ws_out g).
Definition send (g : Ws) (m : WsMessage) : Ws :=
  mkWs (ws_topics g) (ws_now g) (ws_subs g) (ws_phase g) (ws_replies g) (ws_out g ++ [m]).

(** The steps of the delivery task. *)
Inductive deliver_step : Ws → Ws → Prop :=
  | ds_shutdown g :
      ws_phase g = PhTop → deliver_step g (set_phase g (PhSend (MsError None ServerShuttingDown) PhStopped))
  | ds_snapshot g snap :
      ws_phase g = PhTop → snap ≡ₚ map_to_list (ws_subs g) → deliver_step g (set_phase g (PhCheck snap []))
  | ds_gone g name s todo live :
      ws_phase g = PhCheck ((name, s) :: todo) live → ws_topics g !! name = None →
      deliver_step g (set_phase (set_subs g (delete name (ws_subs g))) (PhSend (MsTopicDeleted name) (PhCheck todo live)))
  | ds_live g name s todo live :
      ws_phase g = PhCheck ((name, s) :: todo) live → is_Some (ws_topics g !! name) →
      deliver_step g (set_phase g (PhCheck todo (live ++ [(name, s)])))
  | ds_checked g live : ws_phase g = PhCheck [] live → deliver_step g (set_phase g (PhNext live))
  | ds_next g name s rest :
      ws_phase g = PhNext ((name, s) :: rest) → deliver_step g (set_phase g (PhPage name (sub_variant s) rest))
  | ds_pass_done g : ws_phase g = PhNext [] → deliver_step g (set_phase g PhPark)
  | ds_current g name v rest s :
      ws_phase g = PhPage name v rest → ws_subs g !! name = Some s → deliver_step g (set_phase g (PhDiff name v s rest))
  | ds_unsubscribed g name v rest :
      ws_phase g = PhPage name v rest → ws_subs g !! name = None → deliver_step g (set_phase g (PhNext rest))
  | ds_diff_fails g name v s rest :
      ws_phase g = PhDiff name v s rest →
      deliver_step g (set_phase (set_subs g (delete name (ws_subs g))) (PhSend (MsTopicDeleted name) (PhNext rest)))
  | ds_diff g name v s rest b c b' c' d :
      ws_phase g = PhDiff name v s rest → ws_topics g !! name = Some (b, c) → shared_read b c (ws_now g) s v = (b', c', d) →
      deliver_step g (set_phase (set_ws_topics g (<[name := (b', c')]> (ws_topics g))) (PhTomb name v (su_cursor s) d rest))
  | ds_tomb g name v from d rest subs ms :
      ws_phase g = PhTomb name v from d rest →
      page_tomb (ws_subs g) name d = (subs, ms) →
      deliver_step g (set_phase (set_subs g subs) (then_send ms (PhRecs name v from d rest)))
  | ds_recs g name v from d rest subs ms :
      ws_phase g = PhRecs name v from d rest →
      page_recs (ws_subs g) name from d = (subs, ms) →
      deliver_step g (set_phase (set_subs g subs) (then_send ms (PhUp name v d rest)))
  | ds_up g name v d rest subs ms :
      ws_phase g = PhUp name v d rest →
      page_up (ws_subs g) name d = (subs, ms) →
      deliver_step g (set_phase (set_subs g subs) (then_send ms (if sf_caught_up d then PhNext rest else PhPage name v rest)))
  | ds_send g m next : ws_phase g = PhSend m next → deliver_step g (set_phase (send g m) next)
  | ds_wake g : ws_phase g = PhPark → deliver_step g (set_phase g PhTop).

(** What the rest of the server does: operations on a topic and reads of other
    streams, new topics, deleted topics, and the clock. *)
Inductive server_step : Ws → Ws → Prop :=
  | sv_topic g name b c o :
      ws_topics g !! name = Some (b, c) → stream_op_ok o (b, c) →
      server_step g (set_ws_topics g (<[name := stream_op serialize_frame o (b, c)]> (ws_topics g)))
  | sv_create g name id config seq_base epoch :
      ws_topics g !! name = None → 1 <= seq_base <= u64_max →
      server_step g (set_ws_topics g (<[name := (topic_new name id config seq_base epoch, cache_new)]> (ws_topics g)))
  | sv_delete g name : server_step g (set_ws_topics g (delete name (ws_topics g)))
  | sv_clock g now : ws_now g <= now → server_step g (mkWs (ws_topics g) now (ws_subs g) (ws_phase g) (ws_replies g) (ws_out g)).

(** The socket task: one message of the client, run on some state of the engine, and
    then its replies. *)
Inductive socket_step p : Ws → Ws → Prop :=
  | so_message g m e e' subs ms :
      ws_replies g = [] → handle_message p (ws_subs g) m e = (e', Ok (Some (subs, ms))) →
      socket_step p g (set_replies (set_subs g subs) ms)
  | so_reply g m ms : ws_replies g = m :: ms → socket_step p g (send (set_replies g ms) m).

Inductive ws_step p : Ws → Ws → Prop :=
  | wst_deliver g g' : deliver_step g g' → ws_step p g g'
  | wst_server g g' : server_step g g' → ws_step p g g'
  | wst_socket g g' : socket_step p g g' → ws_step p g g'.

(** ** What the commands do *)
Definition carries_records (m : WsMessage) : bool := match m with MsRecord _ _ _ _ _ => true | _ => false end.
Definition msg_topics (m : WsMessage) : list string :=
  match m with
  | MsSubscribed _ states => (map_to_list states).*1
  | MsTopicDeleted n | MsTombstone n _ | MsRecord n _ _ _ _ | MsCaughtUp n _ => [n]
  | _ => []
  end.
Definition readable p (name : string) : Prop := allows_scope p SCOPE_READ = true ∧ allows_name p name = true.

Lemma watch_states_dom now topics lenient out e e' out' n :
  watch_states now topics lenient out e = (e', Ok out') → is_Some (out' !! n) → is_Some (out !! n) ∨ n ∈ topics.*1.
Proof.
  revert out e. induction topics as [|[name opts] topics IH]; intros out e; simpl; [intros [= _ <-]; by left|].
  unfold mbind, EM_bind. destruct (get_topic name e) as [e1 [[b|]|]]; [| |done].
  - destruct (enforce_retention_durable name now e1) as [e2 [[]|]]; [|done]. destruct (topic_ref name e2) as [e3 [b'|]]; [|done].
    intros Hw Hn. destruct (IH _ _ Hw Hn) as [Ho|]; [|by right; right].
    destruct (decide (n = name)) as [-> |]; [by right; left|]. rewrite lookup_insert_ne in Ho by done. by left.
  - destruct lenient; [|done]. intros Hw Hn. destruct (IH _ _ Hw Hn); [by left|by right; right].
Qed.

Lemma subscribe_auth_ok p names n :
  ws_subscribe_auth p names = Ok tt → n ∈ names → readable p n.
Proof.
  unfold ws_subscribe_auth, names_allowed. destruct (allows_scope p SCOPE_READ) eqn:Hs; [|done]. simpl.
  destruct names as [|n0 ns] eqn:Hn; [done|]. rewrite <-Hn. destruct (forallb _ _) eqn:Hall; [|done]. intros _ Hin.
  split; [done|]. rewrite forallb_forall in Hall. apply Hall. by apply list_elem_of_In.
Qed.

Lemma unsubscribed_lookup l (subs : Subs) n : is_Some (foldl (flip delete) subs l !! n) → is_Some (subs !! n).
Proof.
  revert subs. induction l as [|x l IH]; intros subs; simpl; [done|]. intros Hn%IH. by destruct Hn as [? [_ ?]%lookup_delete_Some].
Qed.

(** A reply carries no records; the topics it tells of may be read with the key, and so
    may a topic that is subscribed after a command and was not before it. *)
Lemma handle_command_spec p subs cmd (e e' : Engine V) r :
  handle_command p subs cmd e = (e', Ok r) →
  carries_records r.2 = false ∧ Forall (readable p) (msg_topics r.2) ∧
  ∀ n, is_Some (r.1 !! n) → is_Some (subs !! n) ∨ readable p n.
Proof.
  destruct cmd as [[rid topic topics from tl nd lim mbb dt tg mt len|rid topic topics|rid topic req rs|rid]|]; cbn;
    try (intros [= _ <-]; by auto).
  - destruct (ws_subscribe_auth _ _) as [[]|] eqn:Hauth; [|intros [= _ <-]; by auto].
    unfold mbind, EM_bind, attempt. set (tps := subscribe_topics topic topics from tl) in *. unfold watch_topic_states, mbind, EM_bind, eget.
    destruct (watch_states _ _ _ _ _) as [e1 [states|]] eqn:Hw; intros [= _ <-]; [|by auto]. simpl.
    assert (Hrd : ∀ n, is_Some (states !! n) → readable p n).
    { intros n Hn. eapply subscribe_auth_ok; [done|]. destruct (watch_states_dom _ _ _ _ _ _ _ _ Hw Hn) as [Hno|]; [|done].
      rewrite lookup_empty in Hno. by destruct Hno. }
    split_and!; [done|..].
    + apply Forall_forall. intros n ([n' st] & -> & Hn%elem_of_map_to_list)%list_elem_of_fmap. apply Hrd. eauto.
    + intros n Hn. unfold add_subs in Hn. rewrite lookup_union_is_Some, lookup_fmap, fmap_is_Some in Hn.
      destruct Hn as [Hn|]; [right; by apply Hrd|by left].
  - destruct (topics ++ option_list topic) as [|t ts] eqn:Ht; intros [= _ <-]; [by auto|]. split_and!; [done|by apply Forall_nil_2|]. intros n Hn. left.
    by apply (unsubscribed_lookup (t :: ts)).
  - destruct (ws_publish_auth _ _ _); [|intros [= _ <-]; by auto]. unfold mbind, EM_bind, attempt.
    destruct (write topic req rs e) as [e1 [resp|]]; intros [= _ <-]; by auto.
Qed.

Lemma handle_message_spec p subs m (e e' : Engine V) subs' ms :
  handle_message p subs m e = (e', Ok (Some (subs', ms))) →
  Forall (λ m, carries_records m = false ∧ Forall (readable p) (msg_topics m)) ms ∧
  ∀ n, is_Some (subs' !! n) → is_Some (subs !! n) ∨ readable p n.
Proof.
  destruct m as [cmd| |pl| |]; cbn; try (intros [= _ <- <-]; split; [by repeat constructor|by auto]); [|done].
  unfold mbind, EM_bind. destruct (handle_command p subs cmd e) as [e1 [[subs1 m1]|]] eqn:Hc; [|done]. intros [= _ <- <-].
  apply handle_command_spec in Hc as (? & ? & ?). split; [by repeat constructor|done].
Qed.

(** ** A topic between two reads *)

(** The topic goes on: no seq that it had shows another record. *)
Definition evolves b b' : Prop :=
  b_config b' = b_config b ∧ b_head_seq b <= b_head_seq b' ∧
  ∀ s r, s <= b_head_seq b → view b' s = Some r → view b s = Some r.

Lemma evolves_refl b : evolves b b.
Proof. by split. Qed.

Lemma evolves_trans b1 b2 b3 : evolves b1 b2 → evolves b2 b3 → evolves b1 b3.
Proof.
  intros (C1 & H1 & V1) (C2 & H2 & V2). split_and!; [congruence|lia|]. intros s r Hs Hv. apply V1, V2; [lia..|done].
Qed.

Lemma retention_config b now : topic_wf b → b_config (enforce_retention b now).1 = b_config b.
Proof. intros Hwf. destruct (enforce_retention_cases b now Hwf) as [-> | ->]; [done|apply retained_fields]. Qed.

Lemma reclaim_config b head : b_config (reclaim_front b head).1 = b_config b.
Proof. apply reclaim_front_fields. Qed.

Lemma marked_config b seqs : b_config (marked b seqs) = b_config b.
Proof. unfold marked. by destruct (mark_all _ _ _ _) as [[ix freed] deleted]. Qed.

Lemma exec_op_config op b : topic_wf b → op_ok op b → b_config (exec_op op b) = b_config b.
Proof.
  intros Hwf Hok. destruct op as [recs now|now|bs m bh now|seqs| |reserved]; simpl in *.
  - destruct (decide (recs = [])) as [-> |]; [done|]. by rewrite append_eq.
  - by apply retention_config.
  - rewrite apply_delete_eq, reclaim_config. unfold prefix_floored. simpl.
    rewrite <-(retention_config b now Hwf). destruct m, bs; simpl; apply marked_config.
  - by rewrite delete_seqs_eq, reclaim_config, marked_config.
  - done.
  - unfold restore_head_watermark. by destruct (_ <=? _).
Qed.

Lemma exec_op_evolves op b : settled b → op_ok op b → evolves b (exec_op op b).
Proof.
  intros Hst Hok. pose proof (run_ops_monotone [op] b) as Hm. simpl in Hm.
  split_and!; [by apply exec_op_config; [apply Hst|]|by apply (Hm 0)|].
  intros s r Hs Hv. destruct (Hm s Hst ltac:(done)) as [_ Hm']. destruct (Hm' Hs) as [He|He]; congruence.
Qed.

(** A record that is deliverable was deliverable at an earlier time. *)
Lemma delivers_earlier b b0 now now0 req r :
  b_config b = b_config b0 → now0 <= now → diff_delivers b now req r = true → diff_delivers b0 now0 req r = true.
Proof.
  intros Hc Hn. unfold diff_delivers, diff_node_filter. rewrite Hc, !bool_decide_eq_true. unfold evaluate.
  set (ttl := cfg_ttl_ms _). destruct (Z.ltb_spec 0 ttl); simpl; [|done].
  destruct (Z.ltb_spec (as_i64 ttl) (i64_sat_sub now (r_ts r))); [done|].
  rewrite (proj2 (Z.ltb_ge (as_i64 ttl) (i64_sat_sub now0 (r_ts r)))); [done|]. unfold i64_sat_sub in *. lia.
Qed.

Lemma covers_mono rq (P P' : TopicState V → Z → Prop) cur rs i :
  (∀ b now, P b now → P' b now) → covers rq P cur rs i → covers rq P' cur rs i.
Proof. intros HP [? ? ? Hp]. split; try done. intros s Hs. destruct (Hp s Hs) as (b & now & ? & ? & ?). exists b, now. auto. Qed.

(** ** One subscription *)
Section subscription.
Context (name : string) (s0 : WsSub).

(** What was sent of the topic. *)
Definition msg_frames (m : WsMessage) : list R :=
  match m with MsRecord n _ _ _ rs => if bool_decide (n = name) then rs else [] | _ => [] end.
Definition frames_of (ms : list WsMessage) : list R := concat (msg_frames <$> ms).
Definition serialized (rs : list (RecordOut V)) : list R := (λ o, serialize_frame o (su_include_data s0)) <$> rs.

(** The subscription as it was made, up to its cursor. *)
Definition same_sub (s : WsSub) : Prop :=
  su_node s = su_node s0 ∧ su_limit s = su_limit s0 ∧ su_max_batch_bytes s = su_max_batch_bytes s0 ∧
  su_include_data s = su_include_data s0 ∧ su_include_tags s = su_include_tags s0 ∧ su_include_meta s = su_include_meta s0.
Definition sub_watch : WatchRequest :=
  mkWatch (su_node s0) (su_limit s0) (su_max_batch_bytes s0) (su_include_meta s0) (su_include_tags s0).

(** The delivery task has the topic in its hands. *)
Definition listed (l : list (string * WsSub)) : bool := bool_decide (name ∈ l.*1).
Definition about (m : WsMessage) : bool :=
  match m with MsRecord n _ _ _ _ => bool_decide (n = name) | _ => false end.
Fixpoint holds (ph : Phase) : bool :=
  match ph with
  | PhTop | PhPark | PhStopped => false
  | PhCheck todo live => listed todo || listed live
  | PhNext live => listed live
  | PhPage n _ rest | PhDiff n _ _ rest | PhTomb n _ _ _ rest | PhRecs n _ _ _ rest | PhUp n _ _ rest =>
      bool_decide (n = name) || listed rest
  | PhSend m next => about m || holds next
  end.

(** The invariant of the delivery task: [P] is what the topic has been, [B] bounds the
    cursor by its head, [S] is the subscription, [i0] the cursor it began with, and
    [rs] what was sent. *)
Section phase.
Context (P : TopicState V → Z → Prop) (B : Z → Prop) (S : option WsSub) (i0 : Z).

Definition cursor_at (cur : Z) : Prop := ∀ s, S = Some s → same_sub s ∧ su_cursor s = cur.
Definition resting (cur : Z) (rs : list (RecordOut V)) : Prop := covers sub_watch P i0 rs cur ∧ cursor_at cur ∧ B cur.
Definition entries_ok (l : list (string * WsSub)) : Prop := ∀ s, (name, s) ∈ l → same_sub s.

(** A page in hand: what it holds from [cur] on. *)
Definition paging (cur : Z) (d : SharedFrameDiff R) : Prop :=
  ∃ outs, sf_records d = serialized outs ∧ covers sub_watch P cur outs (sf_next_from_seq d) ∧ B (sf_next_from_seq d).
Definition gapped (from : Z) (d : SharedFrameDiff R) : Prop :=
  match sf_tombstone d with
  | Some t => covers sub_watch P from [] (t_gap_to t) ∧ B (t_gap_to t) ∧ paging (t_gap_to t) d
  | None => paging from d
  end.

Fixpoint phase_ok (ph : Phase) (rs : list (RecordOut V)) : Prop :=
  match ph with
  | PhTop | PhPark | PhStopped => ∃ cur, resting cur rs
  | PhCheck todo live => entries_ok (todo ++ live) ∧ ∃ cur, resting cur rs
  | PhNext live => entries_ok live ∧ ∃ cur, resting cur rs
  | PhPage n v rest => entries_ok rest ∧ (n = name → v = sub_variant s0) ∧ ∃ cur, resting cur rs
  | PhDiff n v s rest =>
      entries_ok rest ∧ (n = name → v = sub_variant s0 ∧ same_sub s) ∧
      ∃ cur, resting cur rs ∧ (n = name → su_cursor s = cur)
  | PhTomb n v from d rest =>
      entries_ok rest ∧ (n = name → v = sub_variant s0) ∧
      ∃ cur, resting cur rs ∧ (n = name → from = cur ∧ gapped cur d)
  | PhRecs n v from d rest =>
      entries_ok rest ∧ (n = name → v = sub_variant s0) ∧ ∃ cur, resting cur rs ∧ (n = name → paging cur d)
  | PhUp n v d rest => entries_ok rest ∧ (n = name → v = sub_variant s0) ∧ ∃ cur, resting cur rs
  | PhSend m next => ∃ outs, msg_frames m = serialized outs ∧ phase_ok next (rs ++ outs)
  end.
End phase.

Lemma phase_ok_mono (P P' : TopicState V → Z → Prop) (B B' : Z → Prop) S i0 ph rs :
  (∀ b now, P b now → P' b now) → (∀ cur, B cur → B' cur) → phase_ok P B S i0 ph rs → phase_ok P' B' S i0 ph rs.
Proof.
  intros HP HB. assert (Hr : ∀ cur rs, resting P B S i0 cur rs → resting P' B' S i0 cur rs).
  { intros cur rs' (Hc & Hs & Hb). split_and!; [by eapply covers_mono|done|auto]. }
  assert (Hpg : ∀ cur d, paging P B cur d → paging P' B' cur d).
  { intros cur d (outs & ? & ? & ?). exists outs. split_and!; [done|by eapply covers_mono|auto]. }
  assert (Hgp : ∀ cur d, gapped P B cur d → gapped P' B' cur d).
  { intros cur d. unfold gapped. destruct (sf_tombstone d); [|auto]. intros (? & ? & ?). split_and!; [by eapply covers_mono|auto..]. }
  revert rs. induction ph; intros rs'; simpl; try naive_solver.
  all: try (intros (? & ? & cur & ? & ?); split_and!; [done..|]; exists cur; naive_solver).
Qed.

(** An empty message keeps what was sent. *)
Lemma then_send_ok P B S i0 ms k rs :
  Forall (λ m, msg_frames m = []) ms → phase_ok P B S i0 k rs → phase_ok P B S i0 (then_send ms k) rs.
Proof.
  intros Hms. revert rs. induction Hms as [|m ms Hm _ IH]; intros rs Hk; simpl; [done|].
  exists []. rewrite app_nil_r. split; [done|by apply IH].
Qed.

(** At the start of a pass nothing of the topic is in hand. *)
Lemma phase_ok_start P B S i0 ph :
  holds ph = false → resting P B S i0 i0 [] → phase_ok P B S i0 ph [].
Proof.
  intros Hh Hr. assert (Hl : ∀ l, listed l = false → entries_ok l).
  { intros l Hl s Hs. apply bool_decide_eq_false in Hl. destruct Hl. apply list_elem_of_fmap. by exists (name, s). }
  induction ph; simpl in *; rewrite ?orb_false_iff, ?bool_decide_eq_false in Hh; try (by eauto);
    try (destruct Hh as [Hn Hrest]).
  all: try (split_and!; [by apply Hl|by intros ->|]; exists i0; by split).
  - split; [|eauto]. intros s [?|?]%elem_of_app; [by apply (Hl todo)|by apply (Hl live)].
  - split_and!; [by apply Hl|by intros ->|eauto].
  - split_and!; [by apply Hl|by intros ->|eauto].
  - exists []. split; [|by apply IHph]. destruct m; simpl in *; try done. by rewrite Hn.
Qed.

(** What the topic has been up to a state, and the bound its head gives. *)
Definition past (g : Ws) b0 (now0 : Z) : Prop :=
  now0 <= ws_now g ∧ ∀ b c, ws_topics g !! name = Some (b, c) → evolves b0 b.
Definition bounded (g : Ws) (cur : Z) : Prop := 0 <= cur ∧ ∀ b c, ws_topics g !! name = Some (b, c) → cur <= b_head_seq b.
Definition topic_good (g : Ws) : Prop :=
  ∀ b c, ws_topics g !! name = Some (b, c) → settled b ∧ ring_ok c ∧ coherent serialize_frame b c.

Record ws_inv (i0 : Z) (old : list R) (g : Ws) : Prop := {
  wi_good : topic_good g;
  wi_replies : Forall (λ m, msg_frames m = []) (ws_replies g);
  wi_sent : ∃ rs, frames_of (ws_out g) = old ++ serialized rs ∧
    phase_ok (past g) (bounded g) (ws_subs g !! name) i0 (ws_phase g) rs
}.

Definition goes_on (g g' : Ws) : Prop :=
  ws_now g <= ws_now g' ∧
  ∀ b' c', ws_topics g' !! name = Some (b', c') → ∃ b c, ws_topics g !! name = Some (b, c) ∧ evolves b b'.

Lemma goes_on_past g g' b0 now0 : goes_on g g' → past g b0 now0 → past g' b0 now0.
Proof.
  intros [Hn Ht] [Hp Hb]. split; [lia|]. intros b' c' (b & c & Hg & He)%Ht. eapply evolves_trans; eauto.
Qed.

Lemma goes_on_bounded g g' cur : goes_on g g' → bounded g cur → bounded g' cur.
Proof.
  intros [_ Ht] [H0 Hb]. split; [done|]. intros b' c' (b & c & Hg & _ & Hh & _)%Ht. specialize (Hb _ _ Hg). lia.
Qed.

Lemma frames_of_app ms ms' : frames_of (ms ++ ms') = frames_of ms ++ frames_of ms'.
Proof. unfold frames_of. by rewrite fmap_app, concat_app. Qed.

Lemma serialized_app rs rs' : serialized (rs ++ rs') = serialized rs ++ serialized rs'.
Proof. apply fmap_app. Qed.

(** A step of the server. *)
Lemma server_inv i0 old g g' :
  server_step g g' → (ws_topics g !! name = None → ws_topics g' !! name = None) →
  ws_inv i0 old g → ws_inv i0 old g'.
Proof.
  intros Hst Hnew [Hgood Hrep (rs & Hs & Hph)].
  assert (goes_on g g' ∧ topic_good g') as [Hgo Hgood'].
  { destruct Hst as [g n b c o Hn Hok|g n id config sb epoch Hn Hsb|g n|g now Hnow]; simpl in *.
    - destruct (decide (n = name)) as [-> |Hne].
      + destruct (Hgood _ _ Hn) as (Hb & Hr & Hc). pose proof (stream_op_inv serialize_frame o (b, c) Hok Hb Hr Hc) as Hinv. split.
        * split; simpl; [lia|]. intros b' c'. rewrite lookup_insert_eq. intros [= Heq]. exists b, c. split; [done|].
          destruct o as [op|now req d]; simpl in *; injection Heq as <- _; [by apply exec_op_evolves|apply evolves_refl].
        * intros b' c'. simpl. rewrite lookup_insert_eq. intros [= Heq]. by rewrite Heq in Hinv.
      + split; [split; simpl; [lia|]|]; intros b' c'; simpl; rewrite lookup_insert_ne by done; [|apply Hgood].
        eauto using evolves_refl.
    - destruct (decide (n = name)) as [-> |Hne]; [rewrite lookup_insert_eq in Hnew; by specialize (Hnew Hn)|].
      split; [split; simpl; [lia|]|]; intros b' c'; simpl; rewrite lookup_insert_ne by done; [|apply Hgood].
      eauto using evolves_refl.
    - split; [split; simpl; [lia|]|]; intros b' c'; simpl; intros [_ Hl]%lookup_delete_Some; [|by apply (Hgood _ c')].
      eauto using evolves_refl.
    - split; [split; simpl; [lia|]|]; eauto using evolves_refl. }
  assert (ws_subs g' = ws_subs g ∧ ws_phase g' = ws_phase g ∧ ws_replies g' = ws_replies g ∧ ws_out g' = ws_out g)
    as (Es & Ep & Er & Eo) by (by destruct Hst).
  split; [done|by rewrite Er|]. exists rs. rewrite Eo, Es, Ep. split; [done|].
  eapply phase_ok_mono; [..|done]; eauto using goes_on_past, goes_on_bounded.
Qed.


(** A step of the socket task that does not change the subscription. *)
Lemma socket_inv p i0 old g g' :
  socket_step p g g' → ws_subs g' !! name = ws_subs g !! name → ws_inv i0 old g → ws_inv i0 old g'.
Proof.
  intros Hst Hsub [Hgood Hrep (rs & Hs & Hph)].
  destruct Hst as [g m e e' subs ms Hr Hm|g m ms Hr]; simpl in *.
  - apply handle_message_spec in Hm as [Hms _]. split; simpl; [done| |].
    + eapply Forall_impl; [exact Hms|]. intros m' [Hm _]. by destruct m'.
    + exists rs. rewrite Hsub. by split.
  - rewrite Hr in Hrep. apply Forall_cons in Hrep as [Hm Hrep]. split; simpl; [done..|]. exists rs.
    rewrite frames_of_app, Hs. unfold frames_of. simpl. rewrite Hm. simpl. by rewrite !app_nil_r.
Qed.

(** A step of the delivery task that leaves the topics and the out channel. *)
Lemma local_inv i0 old g ph subs :
  ws_inv i0 old g →
  (∀ rs, phase_ok (past g) (bounded g) (ws_subs g !! name) i0 (ws_phase g) rs →
     phase_ok (past g) (bounded g) (subs !! name) i0 ph rs) →
  ws_inv i0 old (set_phase (set_subs g subs) ph).
Proof. intros [Hgood Hrep (rs & Hs & Hph)] Hk. split; simpl; [done..|]. exists rs. split; [done|]. by apply Hk. Qed.

Lemma local_phase_inv i0 old g ph :
  ws_inv i0 old g →
  (∀ rs, phase_ok (past g) (bounded g) (ws_subs g !! name) i0 (ws_phase g) rs →
     phase_ok (past g) (bounded g) (ws_subs g !! name) i0 ph rs) →
  ws_inv i0 old (set_phase g ph).
Proof. intros Hinv Hk. pose proof (local_inv i0 old g ph (ws_subs g) Hinv Hk) as H1. by destruct g. Qed.

Lemma resting_removed P B S i0 cur rs : resting P B S i0 cur rs → resting P B None i0 cur rs.
Proof. intros (? & ? & ?). by split_and!. Qed.

(** Storing the cursor of the page. *)
Lemma resting_moved P B (S S' : option WsSub) i0 cur rs outs cur' :
  resting P B S i0 cur rs → covers sub_watch P cur outs cur' → B cur' →
  (∀ s', S' = Some s' → ∃ s, S = Some s ∧ (same_sub s → same_sub s') ∧ su_cursor s' = cur') →
  resting P B S' i0 cur' (rs ++ outs).
Proof.
  intros (Hc & Hs & _) Ho Hb HS. split_and!; [by eapply covers_app| |done].
  intros s' (s & Hss & Hsame & Hcur)%HS. destruct (Hs _ Hss). auto.
Qed.

Lemma tomb_ok P B (subs : Subs) i0 n v from d rest rs subs' ms :
  phase_ok P B (subs !! name) i0 (PhTomb n v from d rest) rs → page_tomb subs n d = (subs', ms) →
  phase_ok P B (subs' !! name) i0 (then_send ms (PhRecs n v from d rest)) rs.
Proof.
  intros (He & Hv & cur & Hr & Hn) Hp. unfold page_tomb, store_cursor in Hp.
  destruct (sf_tombstone d) as [t|] eqn:Ht; injection Hp as <- <-; apply then_send_ok; try (by repeat constructor); simpl.
  - split_and!; [done..|]. destruct (decide (n = name)) as [-> |Hne].
    + destruct (Hn eq_refl) as [-> Hg]. unfold gapped in Hg. rewrite Ht in Hg. destruct Hg as (Hgap & Hb & Hpg).
      exists (t_gap_to t). split; [|done]. rewrite <-(app_nil_r rs). eapply resting_moved; [done..|].
      intros s'. rewrite lookup_alter_eq. intros (s & Hs & ->)%fmap_Some. by exists s.
    + exists cur. rewrite lookup_alter_ne by done. by split.
  - split_and!; [done..|]. exists cur. split; [done|]. intros ->. destruct (Hn eq_refl) as [-> Hg]. unfold gapped in Hg. by rewrite Ht in Hg.
Qed.

Lemma recs_ok P B (subs : Subs) i0 n v from d rest rs subs' ms :
  phase_ok P B (subs !! name) i0 (PhRecs n v from d rest) rs → page_recs subs n from d = (subs', ms) →
  phase_ok P B (subs' !! name) i0 (then_send ms (PhUp n v d rest)) rs.
Proof.
  intros (He & Hv & cur & Hr & Hn) Hp. unfold page_recs, store_cursor in Hp.
  destruct (decide (n = name)) as [-> |Hne].
  - destruct (Hn eq_refl) as (outs & Hser & Hcov & Hb). destruct (sf_records d) as [|fr frs] eqn:Hrecs; injection Hp as <- <-; simpl.
    + assert (outs = []) as -> by (by destruct outs). split_and!; [done..|]. exists (sf_next_from_seq d).
      rewrite <-(app_nil_r rs). eapply resting_moved; [done..|].
      intros s'. rewrite lookup_alter_eq. intros (s & Hs & ->)%fmap_Some. by exists s.
    + exists outs. rewrite bool_decide_true by done. split; [done|]. split_and!; [done..|]. exists (sf_next_from_seq d).
      eapply resting_moved; [done..|]. intros s'. rewrite lookup_alter_eq. intros (s & Hs & ->)%fmap_Some. by exists s.
  - destruct (sf_records d) as [|fr frs] eqn:Hrecs; injection Hp as <- <-; simpl; rewrite lookup_alter_ne by done; [by eauto|].
    exists []. rewrite bool_decide_false, app_nil_r by done. split; [done|]. by eauto.
Qed.

Lemma up_ok P B (subs : Subs) i0 n v d rest rs subs' ms k :
  phase_ok P B (subs !! name) i0 (PhUp n v d rest) rs → page_up subs n d = (subs', ms) →
  k = PhNext rest ∨ k = PhPage n v rest →
  phase_ok P B (subs' !! name) i0 (then_send ms k) rs.
Proof.
  intros (He & Hv & cur & Hr) Hp Hk.
  assert (resting P B (subs' !! name) i0 cur rs ∧ Forall (λ m, msg_frames m = []) ms) as [Hr' Hms].
  { unfold page_up in Hp. destruct (subs !! n) as [s|] eqn:Hs; [|by injection Hp as <- <-].
    destruct (_ && _); injection Hp as <- <-; [|by split]. split; [|by repeat constructor].
    destruct (decide (n = name)) as [-> |]; [|by rewrite lookup_insert_ne]. rewrite lookup_insert_eq, Hs in *.
    destruct Hr as (? & Hc & ?). split_and!; [done| |done]. intros s' [= <-]. by destruct (Hc s eq_refl). }
  apply then_send_ok; [done|]. destruct Hk as [-> | ->]; simpl; eauto.
Qed.

Lemma retention_evolves b now : settled b → evolves b (enforce_retention b now).1.
Proof. intros Hst. apply (exec_op_evolves (OpRetention now) b Hst I). Qed.

(** A page of the topic, read with the projection of the subscription. *)
Lemma read_page b c now s b' c' d :
  settled b → ring_ok c → coherent serialize_frame b c → same_sub s → 0 <= su_limit s0 → 0 <= su_cursor s <= b_head_seq b →
  shared_read b c now s (sub_variant s0) = (b', c', d) →
  settled b' ∧ ring_ok c' ∧ coherent serialize_frame b' c' ∧ evolves b b' ∧
  sf_caught_up d = (sf_next_from_seq d =? b_head_seq b') ∧
  (sf_next_from_seq d < b_head_seq b' → su_cursor s < sf_next_from_seq d) ∧
  ∀ P : TopicState V → Z → Prop, P b' now → gapped P (λ cur, 0 <= cur <= b_head_seq b') (su_cursor s) d.
Proof.
  intros Hst Hr Hc Hsame Hlim Hcur Hread. unfold shared_read in Hread. pose proof (retention_evolves b now Hst) as Hev.
  pose proof (enforce_retention_settled b now Hst) as Hst'. pose proof (coherent_kept _ _ _ _ (retention_kept b now (st_wf _ Hst)) Hc) as Hc'.
  set (b1 := (enforce_retention b now).1) in *. clearbody b1.
  assert (Hreq : sub_request s = watch_request sub_watch (su_cursor s)).
  { destruct Hsame as (H1 & H2 & H3 & H4 & H5 & H6). unfold sub_request, watch_request. simpl. congruence. }
  destruct Hev as (Hcfg & Hh & Hv).
  pose proof (shared_diff_equiv serialize_frame b1 now (sub_request s) (su_include_data s0) c Hst' ltac:(simpl; lia) Hr Hc') as He.
  cbv zeta in He. rewrite Hreq in He, Hread. change (frame_variant_new _ _ _) with (sub_variant s0) in He.
  destruct (diff_shared_frames _ _ _ _ _ c) as [c1 d1]. injection Hread as -> -> ->. destruct He as (-> & Hr' & Hc1). cbn.
  destruct (diff_read_spec b' now (watch_request sub_watch (su_cursor s)) Hst' ltac:(simpl; lia) ltac:(done)) as (_ & _ & _ & Hprog).
  destruct (diff_start_cursor b' (watch_request sub_watch (su_cursor s)) Hst' ltac:(simpl; lia)) as (_ & _ & Hle & _). simpl in Hle.
  split_and!; try done.
  { apply diff_caught_up. } { intros Hlt. specialize (Hprog Hlt). specialize (Hle ltac:(lia)). lia. }
  intros P HP. destruct (page_covers sub_watch P b' now (su_cursor s) Hst' HP ltac:(lia) Hlim) as [Hn Hp].
  unfold gapped, paging. cbn. destruct (df_tombstone _) as [t|].
  - destruct Hp as [Hg Hpg]. pose proof (cv_le _ _ _ _ _ Hg). pose proof (cv_le _ _ _ _ _ Hpg).
    split_and!; [done|lia..|]. eexists. split_and!; [done..|lia|lia].
  - pose proof (cv_le _ _ _ _ _ Hp). eexists. split_and!; [done..|lia|lia].
Qed.

Lemma gapped_mono P (B B' : Z → Prop) from d : (∀ cur, B cur → B' cur) → gapped P B from d → gapped P B' from d.
Proof.
  intros HB. unfold gapped, paging. destruct (sf_tombstone d); [intros (? & ? & ? & ? & ? & ?)|intros (? & ? & ? & ?)]; eauto 10.
Qed.

Lemma diff_inv i0 old g n v s rest b c b' c' d :
  0 <= su_limit s0 → ws_inv i0 old g → ws_phase g = PhDiff n v s rest →
  ws_topics g !! n = Some (b, c) → shared_read b c (ws_now g) s v = (b', c', d) →
  ws_inv i0 old (set_phase (set_ws_topics g (<[n := (b', c')]> (ws_topics g))) (PhTomb n v (su_cursor s) d rest)).
Proof.
  intros Hlim [Hgood Hrep (rs & Hs & Hph)] Hphase Hn Hread. rewrite Hphase in Hph.
  destruct Hph as (He & Hv & cur & Hr & Hcur). set (g' := set_phase _ _).
  destruct (decide (n = name)) as [-> |Hne].
  - destruct (Hv eq_refl) as [-> Hsame]. specialize (Hcur eq_refl) as <-. destruct (Hgood _ _ Hn) as (Hb & Hring & Hc).
    destruct Hr as (Hcov & Hat & H0 & Hbd). specialize (Hbd _ _ Hn).
    destruct (read_page b c (ws_now g) s b' c' d Hb Hring Hc Hsame Hlim ltac:(lia) Hread) as (Hb' & Hring' & Hc' & Hev & _ & _ & Hgap).
    assert (Hgo : goes_on g g').
    { split; simpl; [lia|]. intros b1 c1. rewrite lookup_insert_eq. intros [= <- <-]. eauto. }
    assert (Htop : ∀ b1 c1, ws_topics g' !! name = Some (b1, c1) → b1 = b').
    { intros b1 c1. simpl. rewrite lookup_insert_eq. by intros [= <- <-]. }
    split; [|done|].
    + intros b1 c1. simpl. rewrite lookup_insert_eq. by intros [= <- <-].
    + exists rs. split; [done|]. split_and!; [done..|]. exists (su_cursor s). split_and!.
      * split_and!; [|done|]; [eapply covers_mono; [|done]; eauto using goes_on_past|].
        apply (goes_on_bounded g); [done|]. split; [done|]. intros b1 c1 Hb1. rewrite Hn in Hb1. by simplify_eq.
      * intros _. split; [done|]. eapply gapped_mono; [|apply Hgap].
        -- intros x Hx. cbn in Hx. split; [lia|]. intros b1 c1 ->%Htop. lia.
        -- split; [simpl; lia|]. intros b1 c1 ->%Htop. apply evolves_refl.
  - assert (Htop : ws_topics g' !! name = ws_topics g !! name) by (by simpl; rewrite lookup_insert_ne).
    assert (Hgo : goes_on g g') by (split; [simpl; lia|]; rewrite Htop; eauto using evolves_refl).
    split; [by unfold topic_good; rewrite Htop|done|]. exists rs. split; [done|]. split_and!; [done|naive_solver|].
    exists cur. split; [|done]. destruct Hr as (? & ? & ?).
    split_and!; [eapply covers_mono; [|done]; eauto using goes_on_past|done|by apply (goes_on_bounded g)].
Qed.

Lemma entries_snapshot P B (subs : Subs) i0 cur rs snap :
  resting P B (subs !! name) i0 cur rs → snap ≡ₚ map_to_list subs → entries_ok snap.
Proof.
  intros (_ & Hat & _) Hp s Hs. rewrite Hp in Hs. apply elem_of_map_to_list in Hs. by destruct (Hat s Hs).
Qed.

Lemma deliver_inv i0 old g g' : 0 <= su_limit s0 → deliver_step g g' → ws_inv i0 old g → ws_inv i0 old g'.
Proof.
  intros Hlim Hst Hinv. destruct Hst as [g Hp|g snap Hp Hsn|g n s todo live Hp Hg|g n s todo live Hp Hg|g live Hp|g n s rest Hp|g Hp
    |g n v rest s Hp Hs|g n v rest Hp Hs|g n v s rest Hp|g n v s rest b c b' c' d Hp Hn Hr|g n v from d rest subs ms Hp Hpg
    |g n v from d rest subs ms Hp Hpg|g n v d rest subs ms Hp Hpg|g m next Hp|g Hp].
  - apply local_phase_inv; [done|]. intros rs. rewrite Hp. intros Hr. exists []. by rewrite app_nil_r.
  - apply local_phase_inv; [done|]. intros rs. rewrite Hp. intros [cur Hr]. simpl. rewrite app_nil_r.
    split; [by eapply entries_snapshot|eauto].
  - apply local_inv; [done|]. intros rs. rewrite Hp. intros (He & cur & Hr). exists []. rewrite app_nil_r. split; [done|].
    split; [intros s' Hs'; apply He; by right|]. exists cur. destruct (decide (n = name)) as [-> |].
    + rewrite lookup_delete_eq. by eapply resting_removed.
    + by rewrite lookup_delete_ne.
  - apply local_phase_inv; [done|]. intros rs. rewrite Hp. intros (He & Hr). split; [|done]. intros s' Hs'. apply He. set_solver.
  - apply local_phase_inv; [done|]. intros rs. by rewrite Hp.
  - apply local_phase_inv; [done|]. intros rs. rewrite Hp. intros (He & Hr). split_and!; [intros s' Hs'; apply He; by right| |done].
    intros ->. destruct (He s) as (_ & _ & _ & E1 & E2 & E3); [by left|]. unfold sub_variant. congruence.
  - apply local_phase_inv; [done|]. intros rs. rewrite Hp. by intros (_ & Hr).
  - apply local_phase_inv; [done|]. intros rs. rewrite Hp. intros (He & Hv & cur & Hr). split; [done|]. split.
    + intros ->. split; [by apply Hv|]. destruct Hr as (_ & Hat & _). by destruct (Hat s Hs).
    + exists cur. split; [done|]. intros ->. destruct Hr as (_ & Hat & _). by destruct (Hat s Hs).
  - apply local_phase_inv; [done|]. intros rs. rewrite Hp. by intros (He & Hv & Hr).
  - apply local_inv; [done|]. intros rs. rewrite Hp. intros (He & _ & cur & Hr & _). exists []. rewrite app_nil_r. split; [done|].
    split; [done|]. exists cur. destruct (decide (n = name)) as [-> |].
    + rewrite lookup_delete_eq. by eapply resting_removed.
    + by rewrite lookup_delete_ne.
  - by eapply diff_inv.
  - apply local_inv; [done|]. intros rs. rewrite Hp. intros Hr. by eapply tomb_ok.
  - apply local_inv; [done|]. intros rs. rewrite Hp. intros Hr. by eapply recs_ok.
  - apply local_inv; [done|]. intros rs. rewrite Hp. intros Hr. eapply up_ok; [done..|]. destruct (sf_caught_up d); auto.
  - destruct Hinv as [Hgood Hrep (rs & Hs & Hph)]. rewrite Hp in Hph. destruct Hph as (outs & Ho & Hph). split; simpl; [done..|].
    exists (rs ++ outs). split; [|done]. rewrite frames_of_app, Hs, serialized_app. unfold frames_of. simpl. by rewrite Ho, app_nil_r, (assoc_L (++)).
  - apply local_phase_inv; [done|]. intros rs. by rewrite Hp.
Qed.

(** Steps in which no command changes the subscription and the topic, once deleted, is
    not created again. *)
Inductive quiet_step p : Ws → Ws → Prop :=
  | qs_deliver g g' : deliver_step g g' → quiet_step p g g'
  | qs_server g g' :
      server_step g g' → (ws_topics g !! name = None → ws_topics g' !! name = None) → quiet_step p g g'
  | qs_socket g g' : socket_step p g g' → ws_subs g' !! name = ws_subs g !! name → quiet_step p g g'.

Lemma quiet_inv p i0 old g g' : 0 <= su_limit s0 → rtc (quiet_step p) g g' → ws_inv i0 old g → ws_inv i0 old g'.
Proof.
  intros Hlim. induction 1 as [|g1 g2 g3 Hst _ IH]; [done|]. intros Hinv. apply IH.
  destruct Hst; [by eapply deliver_inv|by eapply server_inv|by eapply socket_inv].
Qed.

(** The frames of the messages the task is about to send. *)
Fixpoint in_hand (ph : Phase) : list R :=
  match ph with PhSend m next => msg_frames m ++ in_hand next | _ => [] end.

Lemma phase_ok_resting P B S i0 ph rs :
  phase_ok P B S i0 ph rs → ∃ cur outs, in_hand ph = serialized outs ∧ resting P B S i0 cur (rs ++ outs).
Proof.
  revert rs. induction ph; intros rs Hp; simpl in Hp.
  1-8,10-11: enough (∃ cur, resting P B S i0 cur rs) as [cur Hc]
    by (exists cur, []; by rewrite app_nil_r); naive_solver.
  destruct Hp as (outs & Ho & Hk). destruct (IHph _ Hk) as (cur & outs' & Hi & Hc). exists cur, (outs ++ outs').
  simpl. by rewrite Ho, Hi, serialized_app, (assoc_L (++)).
Qed.


(** ** The drain of a topic ends *)
Lemma sends_run g ms k :
  ws_phase g = then_send ms k → ∃ g', rtc deliver_step g g' ∧ ws_phase g' = k ∧ ws_subs g' = ws_subs g ∧ ws_topics g' = ws_topics g ∧
    ws_now g' = ws_now g.
Proof.
  revert g. induction ms as [|m ms IH]; intros g Hp; simpl in Hp; [exists g; by split_and!|].
  destruct (IH (set_phase (send g m) (then_send ms k)) eq_refl) as (g' & Hr & ? & ? & ? & ?). exists g'. split_and!; try done.
  eapply rtc_l; [by apply ds_send|done].
Qed.

(** The map after the three accesses of a page. *)
Lemma page_subs (subs subs1 subs2 subs3 : Subs) ms1 ms2 ms3 s from d :
  subs !! name = Some s → same_sub s → page_tomb subs name d = (subs1, ms1) → page_recs subs1 name from d = (subs2, ms2) →
  page_up subs2 name d = (subs3, ms3) → ∃ s', subs3 !! name = Some s' ∧ same_sub s' ∧ su_cursor s' = sf_next_from_seq d.
Proof.
  intros Hs Hsame H1 H2 H3.
  assert (∃ s1, subs1 !! name = Some s1 ∧ same_sub s1) as (s1 & Hs1 & Hsame1).
  { unfold page_tomb, store_cursor in H1. destruct (sf_tombstone d); injection H1 as <- _; [|by eauto].
    rewrite lookup_alter_eq, Hs. by eexists. }
  assert (∃ s2, subs2 !! name = Some s2 ∧ same_sub s2 ∧ su_cursor s2 = sf_next_from_seq d) as (s2 & Hs2 & Hsame2 & Hc2).
  { unfold page_recs, store_cursor in H2. destruct (sf_records d); injection H2 as <- _; rewrite lookup_alter_eq, Hs1; by eexists. }
  unfold page_up in H3. rewrite Hs2 in H3. destruct (_ && _); injection H3 as <- _; [|by eauto].
  rewrite lookup_insert_eq. by eexists.
Qed.

(** One round of the loop over the pages. *)
Lemma page_round g rest s b c :
  ws_phase g = PhPage name (sub_variant s0) rest → ws_subs g !! name = Some s → same_sub s →
  ws_topics g !! name = Some (b, c) → topic_good g → 0 <= su_limit s0 → 0 <= su_cursor s <= b_head_seq b →
  ∃ g' s' b' c', rtc deliver_step g g' ∧ ws_subs g' !! name = Some s' ∧ same_sub s' ∧ ws_topics g' !! name = Some (b', c') ∧
    topic_good g' ∧ b_head_seq b' = b_head_seq b ∧
    (ws_phase g' = PhNext rest ∧ su_cursor s' = b_head_seq b' ∨
     ws_phase g' = PhPage name (sub_variant s0) rest ∧ su_cursor s < su_cursor s' <= b_head_seq b').
Proof.
  intros Hp Hs Hsame Ht Hgood Hlim Hcur. destruct (Hgood _ _ Ht) as (Hb & Hr & Hc).
  destruct (shared_read b c (ws_now g) s (sub_variant s0)) as [[b' c'] d] eqn:Hread.
  destruct (read_page b c _ s b' c' d Hb Hr Hc Hsame Hlim Hcur Hread) as (Hb' & Hr' & Hc' & _ & Hup & Hprog & Hgap).
  assert (Hh : b_head_seq b' = b_head_seq b).
  { unfold shared_read in Hread. destruct (diff_shared_frames _ _ _ _ _ _). injection Hread as <- _ _.
    by apply enforce_retention_head, Hb. }
  assert (Hnext : 0 <= sf_next_from_seq d <= b_head_seq b').
  { specialize (Hgap (λ _ _, True) I). unfold gapped, paging in Hgap. destruct (sf_tombstone d); naive_solver. }
  set (g1 := set_phase g (PhDiff name (sub_variant s0) s rest)).
  set (g2 := set_phase (set_ws_topics g1 (<[name := (b', c')]> (ws_topics g1))) (PhTomb name (sub_variant s0) (su_cursor s) d rest)).
  destruct (page_tomb (ws_subs g2) name d) as [subs1 ms1] eqn:H1.
  destruct (sends_run (set_phase (set_subs g2 subs1) (then_send ms1 (PhRecs name (sub_variant s0) (su_cursor s) d rest))) ms1 _ eq_refl)
    as (g3 & R3 & P3 & S3 & T3 & _).
  destruct (page_recs (ws_subs g3) name (su_cursor s) d) as [subs2 ms2] eqn:H2.
  destruct (sends_run (set_phase (set_subs g3 subs2) (then_send ms2 (PhUp name (sub_variant s0) d rest))) ms2 _ eq_refl)
    as (g4 & R4 & P4 & S4 & T4 & _).
  destruct (page_up (ws_subs g4) name d) as [subs3 ms3] eqn:H3.
  set (k := if sf_caught_up d then PhNext rest else PhPage name (sub_variant s0) rest).
  destruct (sends_run (set_phase (set_subs g4 subs3) (then_send ms3 k)) ms3 k eq_refl) as (g5 & R5 & P5 & S5 & T5 & _).
  destruct (page_subs (ws_subs g2) subs1 subs2 subs3 ms1 ms2 ms3 s (su_cursor s) d) as (s' & Hs' & Hsame' & Hcur');
    [done|done|done|by rewrite S3 in H2|by rewrite S4 in H3|].
  assert (Htop : ws_topics g5 !! name = Some (b', c')) by (rewrite T5; simpl; rewrite T4; simpl; rewrite T3; simpl; by rewrite lookup_insert_eq).
  exists g5, s', b', c'. split_and!; try done.
  - eapply rtc_l; [by apply ds_current|]. eapply rtc_l; [by eapply (ds_diff g1)|]. eapply rtc_l; [by eapply (ds_tomb g2)|].
    etrans; [exact R3|]. eapply rtc_l; [by eapply (ds_recs g3)|]. etrans; [exact R4|]. eapply rtc_l; [by eapply (ds_up g4)|]. exact R5.
  - by rewrite S5.
  - intros b1 c1 Hb1. rewrite Htop in Hb1. by injection Hb1 as <- <-.
  - rewrite P5, Hcur'. unfold k. rewrite Hup. destruct (Z.eqb_spec (sf_next_from_seq d) (b_head_seq b')); [by left|right].
    split; [done|]. lia.
Qed.

(** Left to itself, the delivery task drains the topic to its head. *)
Theorem ws_drains g rest s b c :
  ws_phase g = PhPage name (sub_variant s0) rest → ws_subs g !! name = Some s → same_sub s →
  ws_topics g !! name = Some (b, c) → topic_good g → 0 <= su_limit s0 → 0 <= su_cursor s <= b_head_seq b →
  ∃ g' s' b' c', rtc deliver_step g g' ∧ ws_phase g' = PhNext rest ∧ ws_subs g' !! name = Some s' ∧
    ws_topics g' !! name = Some (b', c') ∧ su_cursor s' = b_head_seq b' ∧ b_head_seq b' = b_head_seq b.
Proof.
  remember (Z.to_nat (b_head_seq b - su_cursor s)) as n eqn:Hn. revert g s b c Hn.
  induction n as [n IH] using lt_wf_ind. intros g s b c -> Hp Hs Hsame Ht Hgood Hlim Hcur.
  destruct (page_round g rest s b c) as (g1 & s1 & b1 & c1 & R1 & Hs1 & Hsame1 & Ht1 & Hgood1 & Hh & [[Hp1 Hc1]|[Hp1 Hc1]]); try done.
  { exists g1, s1, b1, c1. by split_and!. }
  edestruct (IH (Z.to_nat (b_head_seq b1 - su_cursor s1))) as (g' & s' & b' & c' & R2 & ? & ? & ? & ? & ?);
    [|reflexivity|exact Hp1|exact Hs1|done|exact Ht1|done|done|lia|]; [lia|].
  exists g', s', b', c'. split_and!; try done; [by etrans|lia].
Qed.
End subscription.

(** ** Nothing that may not be read *)
Definition phase_entries (ph : Phase) : list string :=
  match ph with
  | PhCheck todo live => todo.*1 ++ live.*1
  | PhNext live => live.*1
  | PhPage n _ rest | PhDiff n _ _ rest | PhTomb n _ _ _ rest | PhRecs n _ _ _ rest | PhUp n _ _ rest => n :: rest.*1
  | _ => []
  end.
Fixpoint phase_names (ph : Phase) : list string :=
  match ph with PhSend m next => msg_topics m ++ phase_names next | _ => phase_entries ph end.

Record allowed p (g : Ws) : Prop := {
  al_subs n : is_Some (ws_subs g !! n) → readable p n;
  al_phase : Forall (readable p) (phase_names (ws_phase g));
  al_replies : Forall (λ m, Forall (readable p) (msg_topics m)) (ws_replies g);
  al_out : Forall (λ m, Forall (readable p) (msg_topics m)) (ws_out g)
}.

Definition ws_init (topics : gmap string (TopicState V * CacheState R)) (now : Z) : Ws := mkWs topics now ∅ PhTop [] [].

Lemma then_send_names ms k : phase_names (then_send ms k) = concat (msg_topics <$> ms) ++ phase_names k.
Proof. induction ms as [|m ms IH]; simpl; [done|]. by rewrite IH, (assoc_L (++)). Qed.

(** The accesses of a page tell of its topic only, and add no subscription. *)
Lemma page_allowed (subs subs' : Subs) n ms from d :
  page_tomb subs n d = (subs', ms) ∨ page_recs subs n from d = (subs', ms) ∨ page_up subs n d = (subs', ms) →
  (∀ x, is_Some (subs' !! x) → is_Some (subs !! x)) ∧ ∀ x, x ∈ concat (msg_topics <$> ms) → x = n.
Proof.
  assert (Ha : ∀ f x, is_Some (alter f n subs !! x) → is_Some (subs !! x)) by (intros f x; by rewrite lookup_alter_is_Some).
  unfold page_tomb, page_recs, page_up, store_cursor. intros [Hp|[Hp|Hp]].
  - destruct (sf_tombstone d); injection Hp as <- <-; (split; [eauto|set_solver]).
  - destruct (sf_records d); injection Hp as <- <-; (split; [eauto|set_solver]).
  - destruct (subs !! n) as [s|] eqn:Hs; [destruct (_ && _)|]; injection Hp as <- <-; (split; [|set_solver]); try done.
    intros x. destruct (decide (x = n)) as [-> |]; [rewrite Hs; by eauto|by rewrite lookup_insert_ne].
Qed.

Lemma allowed_deliver p g subs ph :
  allowed p g → (∀ n, is_Some (subs !! n) → is_Some (ws_subs g !! n)) →
  (∀ n, n ∈ phase_names ph → n ∈ phase_names (ws_phase g) ∨ is_Some (ws_subs g !! n)) →
  allowed p (set_phase (set_subs g subs) ph).
Proof.
  intros [Hs Hph Hr Ho] Hsubs Hn. split; simpl; [by auto| |done..].
  apply Forall_forall. intros n [Hin|Hin]%Hn; [by apply (proj1 (Forall_forall _ _) Hph)|by apply Hs].
Qed.

Lemma deliver_allowed p g g' : deliver_step g g' → allowed p g → allowed p g'.
Proof.
  intros Hst Ha. pose proof Ha as [Hsub Hph Hrep Hout].
  assert (Hset : ∀ ph, set_phase g ph = set_phase (set_subs g (ws_subs g)) ph) by (by destruct g).
  destruct Hst as [g Hp|g snap Hp Hsn|g n s todo live Hp Hg|g n s todo live Hp Hg|g live Hp|g n s rest Hp|g Hp
    |g n v rest s Hp Hs|g n v rest Hp Hs|g n v s rest Hp|g n v s rest b c b' c' d Hp Hn Hr|g n v from d rest subs ms Hp Hpg
    |g n v from d rest subs ms Hp Hpg|g n v d rest subs ms Hp Hpg|g m next Hp|g Hp].
  1,4-9,16: rewrite Hset; apply allowed_deliver; [done..|]; intros x Hx; left; rewrite Hp; simpl in *; set_solver.
  - rewrite Hset. apply allowed_deliver; [done..|]. intros x Hx. right. simpl in Hx. rewrite app_nil_r in Hx.
    apply list_elem_of_fmap in Hx as ([x' s] & -> & Hx). rewrite Hsn in Hx. apply elem_of_map_to_list in Hx. eauto.
  - apply allowed_deliver; [done|by intros x [? [_ ?]%lookup_delete_Some]|]. intros x Hx. left. rewrite Hp. simpl in *. set_solver.
  - apply allowed_deliver; [done|by intros x [? [_ ?]%lookup_delete_Some]|]. intros x Hx. left. rewrite Hp. simpl in *. set_solver.
  - split; simpl; try done. by rewrite Hp in Hph.
  - destruct (page_allowed (ws_subs g) subs n ms from d) as [Hs Hm]; [by left|]. apply allowed_deliver; [done..|].
    intros x. rewrite then_send_names, elem_of_app. intros [->%Hm|Hx]; left; rewrite Hp; simpl in *; set_solver.
  - destruct (page_allowed (ws_subs g) subs n ms from d) as [Hs Hm]; [by right; left|]. apply allowed_deliver; [done..|].
    intros x. rewrite then_send_names, elem_of_app. intros [->%Hm|Hx]; left; rewrite Hp; simpl in *; set_solver.
  - destruct (page_allowed (ws_subs g) subs n ms 0 d) as [Hs Hm]; [by right; right|]. apply allowed_deliver; [done..|].
    intros x. rewrite then_send_names, elem_of_app. intros [->%Hm|Hx]; left; rewrite Hp; simpl in *; [set_solver|].
    destruct (sf_caught_up d); simpl in Hx; set_solver.
  - rewrite Hp in Hph. simpl in Hph. apply Forall_app in Hph as [Hm Hk]. split; simpl; try done. apply Forall_app. by repeat constructor.
Qed.

Lemma socket_allowed p g g' : socket_step p g g' → allowed p g → allowed p g'.
Proof.
  intros Hst [Hsub Hph Hrep Hout]. destruct Hst as [g m e e' subs ms Hr Hm|g m ms Hr].
  - apply handle_message_spec in Hm as [Hms Hs]. split; simpl; try done.
    + intros n [?|?]%Hs; auto.
    + eapply Forall_impl; [exact Hms|]. by intros ? [].
  - rewrite Hr in Hrep. apply Forall_cons in Hrep as [Hm Hrep]. split; simpl; try done. apply Forall_app. by repeat constructor.
Qed.

(** C38.  Whatever the client sends and however the two tasks interleave, every message that
    tells of the content of a topic is of a topic that the key of the connection may
    read. *)
Theorem ws_only_allowed p topics now g :
  rtc (ws_step p) (ws_init topics now) g → ∀ m n, m ∈ ws_out g → n ∈ msg_topics m → readable p n.
Proof.
  intros Hrun m n Hm Hn. assert (allowed p g) as Ha.
  { remember (ws_init topics now) as g0 eqn:Hg0. assert (allowed p g0) as H0.
    { subst. split; simpl; [|done..]. intros x. rewrite lookup_empty. by intros [? ?]. }
    clear Hg0 Hm Hn. induction Hrun as [|g0 g1 g2 Hst _ IH]; [done|]. apply IH.
    destruct Hst as [g0 g1 Hst|g0 g1 Hst|g0 g1 Hst]; [by eapply deliver_allowed| |by eapply socket_allowed].
    destruct H0. by destruct Hst; split. }
  pose proof (proj1 (Forall_forall _ _) (al_out _ _ Ha) _ Hm) as Hall. by apply (proj1 (Forall_forall _ _) Hall).
Qed.

(** ** Running the delivery task *)

(** Its next step on its own, when the server is not shutting down. *)
Definition deliver (g : Ws) : Ws :=
  match ws_phase g with
  | PhTop => set_phase g (PhCheck (map_to_list (ws_subs g)) [])
  | PhCheck ((n, s) :: todo) live =>
      match ws_topics g !! n with
      | None => set_phase (set_subs g (delete n (ws_subs g))) (PhSend (MsTopicDeleted n) (PhCheck todo live))
      | Some _ => set_phase g (PhCheck todo (live ++ [(n, s)]))
      end
  | PhCheck [] live => set_phase g (PhNext live)
  | PhNext ((n, s) :: rest) => set_phase g (PhPage n (sub_variant s) rest)
  | PhNext [] => set_phase g PhPark
  | PhPage n v rest => match ws_subs g !! n with Some s => set_phase g (PhDiff n v s rest) | None => set_phase g (PhNext rest) end
  | PhDiff n v s rest =>
      match ws_topics g !! n with
      | Some (b, c) =>
          let '(b', c', d) := shared_read b c (ws_now g) s v in
          set_phase (set_ws_topics g (<[n := (b', c')]> (ws_topics g))) (PhTomb n v (su_cursor s) d rest)
      | None => set_phase (set_subs g (delete n (ws_subs g))) (PhSend (MsTopicDeleted n) (PhNext rest))
      end
  | PhTomb n v from d rest =>
      let '(subs, ms) := page_tomb (ws_subs g) n d in set_phase (set_subs g subs) (then_send ms (PhRecs n v from d rest))
  | PhRecs n v from d rest =>
      let '(subs, ms) := page_recs (ws_subs g) n from d in set_phase (set_subs g subs) (then_send ms (PhUp n v d rest))
  | PhUp n v d rest =>
      let '(subs, ms) := page_up (ws_subs g) n d in
      set_phase (set_subs g subs) (then_send ms (if sf_caught_up d then PhNext rest else PhPage n v rest))
  | PhSend m next => set_phase (send g m) next
  | PhPark => set_phase g PhTop
  | PhStopped => g
  end.

Lemma deliver_runs g : rtc deliver_step g (deliver g).
Proof.
  unfold deliver. destruct (ws_phase g) as [|[|[n s] todo] live|[|[n s] rest]|n v rest|n v s rest|n v from d rest|n v from d rest|n v d rest|m next| |] eqn:Hp;
    try (by eapply rtc_once; econstructor; eauto).
  - destruct (ws_topics g !! n) eqn:Hn; eapply rtc_once; [by eapply ds_live|by eapply ds_gone].
  - destruct (ws_subs g !! n) eqn:Hn; eapply rtc_once; [by eapply ds_current|by eapply ds_unsubscribed].
  - destruct (ws_topics g !! n) as [[b c]|] eqn:Hn; [|eapply rtc_once; by eapply ds_diff_fails].
    destruct (shared_read b c (ws_now g) s v) as [[b' c'] d] eqn:Hr. eapply rtc_once. by eapply ds_diff.
  - destruct (page_tomb (ws_subs g) n d) eqn:Hpg. eapply rtc_once. by eapply ds_tomb.
  - destruct (page_recs (ws_subs g) n from d) eqn:Hpg. eapply rtc_once. by eapply ds_recs.
  - destruct (page_up (ws_subs g) n d) eqn:Hpg. eapply rtc_once. by eapply ds_up.
  - done.
Qed.

Lemma iter_deliver_runs k g : rtc deliver_step g (Nat.iter k deliver g).
Proof. induction k as [|k IH]; simpl; [done|]. etrans; [exact IH|]. apply deliver_runs. Qed.

(** A message of the client and its reply, with the engine in state [e]. *)
Definition command p (e : Engine V) (m : SocketMessage) (g : Ws) : Ws :=
  match ws_replies g, handle_message p (ws_subs g) m e with
  | [], (_, Ok (Some (subs, [m]))) => send (set_replies (set_subs g subs) []) m
  | _, _ => g
  end.

Lemma command_runs p e m g : rtc (ws_step p) g (command p e m g).
Proof.
  unfold command. destruct (ws_replies g) as [|r rs] eqn:Hr; [|done].
  destruct (handle_message p (ws_subs g) m e) as [e' [[[subs [|m' [|? ?]]]|]|]] eqn:Hm; try done.
  eapply rtc_l; [apply wst_socket; by eapply so_message|]. eapply rtc_once, wst_socket.
  by apply (so_reply p (set_replies (set_subs g subs) [m']) m' []).
Qed.

Lemma deliver_quiet p name g g' : rtc deliver_step g g' → rtc (quiet_step name p) g g'.
Proof. apply rtc_subrel. intros x y. by constructor. Qed.

Lemma deliver_steps p g g' : rtc deliver_step g g' → rtc (ws_step p) g g'.
Proof. apply rtc_subrel. intros x y. by constructor. Qed.
End ws.

(** ** Samples *)
Module WsSamples.
Import JsonSample.
#[local] Instance sample_pow : Powf := λ q, q.

(** Frames as seq and tag. *)
Definition tag_frame (o : RecordOut Json) (d : bool) : Z * option string := (ro_seq o, ro_tag o).

(** Ten records in topic [jobs]. *)
Definition jobs_batch : list (StoredRecord Json) :=
  (λ i, mkRecord (Z.of_nat i) None (Some "t"%string) (JNumber (Z.of_nat i)) None 10 false true 0) <$> seq 0 10.
Definition jobs_new : TopicState Json := topic_new "jobs" 7 default_config 1 1.
Definition jobs : TopicState Json := (append jobs_new jobs_batch 0).1.
Definition jobs_engine : Engine Json :=
  mkEngine {["jobs"%string := jobs]} 1 8 0 0 0 None [] 0 0 graph_new sched_new.

Lemma jobs_settled : settled jobs.
Proof.
  apply (exec_op_refines (OpAppend jobs_batch 0)); [apply topic_new_settled; by vm_compute|].
  split; [|by vm_compute]. repeat (apply Forall_cons; split; [by vm_compute|]). apply Forall_nil_2.
Qed.

(** A subscription with its cursor at [from], four records a page. *)
Definition jobs_sub (from : Z) (tags : bool) : WsSub := mkSub from None 4 0 true tags true false.
Definition jobs_ws (from : Z) (tags : bool) : Ws (R := Z * option string) :=
  mkWs {["jobs"%string := (jobs, cache_new)]} 0 {["jobs"%string := jobs_sub from tags]} PhTop [] [].
Definition resubscribe (from : Z) (tags : bool) : SocketMessage (V := Json) :=
  Text (Some (Subscribe None (Some "jobs"%string) ∅ from false None 4 0 true tags true false)).

Lemma jobs_ws_good from tags : topic_good tag_frame "jobs" (jobs_ws from tags).
Proof.
  intros b c. simpl. rewrite lookup_singleton_eq. intros [= <- <-]. destruct (cache_new_ok tag_frame jobs). by split; [apply jobs_settled|].
Qed.


Lemma ws_drains_witness :
  let g := set_phase (jobs_ws 0 true) (PhPage "jobs" (sub_variant (jobs_sub 0 true)) []) in
  ∃ g', rtc (deliver_step tag_frame) g g' ∧ ws_phase g' = PhNext [].
Proof.
  cbv zeta. destruct (ws_drains tag_frame "jobs" (jobs_sub 0 true)
    (set_phase (jobs_ws 0 true) (PhPage "jobs" (sub_variant (jobs_sub 0 true)) [])) [] (jobs_sub 0 true) jobs cache_new)
    as (g' & s' & b' & c' & Hr & Hp & _).
  - done.
  - done.
  - by split_and!.
  - done.
  - apply jobs_ws_good.
  - by vm_compute.
  - by vm_compute.
  - by exists g'.
Defined.

(** A key that may read the topics that begin with j. *)
Definition jobs_key : Principal := mkPrincipal None SCOPE_READ ["j"%string].

Definition watched : Ws (R := Z * option string) :=
  Nat.iter 40 (deliver tag_frame)
    (command jobs_key jobs_engine (resubscribe 5 true) (ws_init {["jobs"%string := (jobs, cache_new)]} 0)).

Lemma ws_only_allowed_witness :
  length (ws_out watched) = 4%nat ∧ ∀ m n, m ∈ ws_out watched → n ∈ msg_topics m → readable jobs_key n.
Proof.
  split; [by vm_compute|].
  apply (ws_only_allowed tag_frame jobs_key {["jobs"%string := (jobs, cache_new)]} 0).
  etrans; [apply command_runs|]. apply deliver_steps, iter_deliver_runs.
Defined.

(** A client at seq 5 subscribes again from the start while a page is in hand: the
    task stores the cursor of the page over that of the new subscription, so the client
    gets 6 to 10 after the reply, is told that it has caught up, and never gets 1 to 5. *)
Definition rewound : Ws (R := Z * option string) :=
  Nat.iter 40 (deliver tag_frame)
    (command jobs_key jobs_engine (resubscribe 0 true) (Nat.iter 6 (deliver tag_frame) (jobs_ws 5 true))).

Example resubscribe_overwritten :
  rtc (ws_step tag_frame jobs_key) (jobs_ws 5 true) rewound ∧
  head (ws_out rewound) = Some (MsSubscribed None {["jobs"%string := mkWatchState 0 10 1]}) ∧
  (frames_of "jobs" (ws_out rewound)).*1 = seqZ 6 5 ∧ last (ws_out rewound) = Some (MsCaughtUp "jobs" 10).
Proof.
  split; [|by vm_compute]. etrans; [|etrans; [apply command_runs|apply deliver_steps, iter_deliver_runs]].
  apply deliver_steps, iter_deliver_runs.
Qed.

(** A client subscribes again with tags while the task is at the head of the pages of
    the topic: the page is read with tags and cached as frames without.  Another stream
    that reads without tags then gets them. *)
Definition mixed : Ws (R := Z * option string) :=
  Nat.iter 40 (deliver tag_frame)
    (command jobs_key jobs_engine (resubscribe 0 true) (Nat.iter 4 (deliver tag_frame) (jobs_ws 0 false))).

Example resubscribe_poisons_ring :
  rtc (ws_step tag_frame jobs_key) (jobs_ws 0 false) mixed ∧
  ∃ b c, ws_topics mixed !! "jobs"%string = Some (b, c) ∧
    let req := mkDiffRequest 0 1 None false true 0 in
    sf_records (diff_shared_frames tag_frame b 0 req (request_variant req true) c).2 = [(1, Some "t"%string)] ∧
    (λ o, tag_frame o true) <$> df_records (diff_read b 0 req) = [(1, None)].
Proof.
  split; [etrans; [|etrans; [apply command_runs|apply deliver_steps, iter_deliver_runs]]; apply deliver_steps, iter_deliver_runs|].
  eexists _, _. split; [by vm_compute|]. by vm_compute.
Qed.
End WsSamples.
