(* ===== verification/Recovery.v ===== *)
(** * Recovery

    Models the replay of the WAL into the registry: [replay_frame] of
    [src/engine/recovery.rs] with the [*_for_recovery] methods of
    [src/engine/mod.rs], the head reservations applied after it, and the order in
    which the shards of the WAL are replayed.  The registry replay starts from is an
    argument: empty here and in [Durability], restored from a snapshot in [Snapshot]
    and [Replay].  A frame that would make the source panic throws [Internal]. *)

From stdpp Require Import base gmap list strings pretty.
From S2P Require Import Prelude Types Eviction TopicIndex QueueProjection TopicState TopicLog.
From S2P Require Import Bytes Wal Json Router Sched Engine EngineLogic Forward.

(** The discriminants of [LeaseEvent]; other bytes are ignored. *)
Definition lease_event_of (byte : Z) : option LeaseEvent :=
  if byte =? 0 then Some Claimed
  else if byte =? 1 then Some Released
  else if byte =? 2 then Some Extended
  else if byte =? 3 then Some Acked
  else None.

(** [shard_for_topic], over the hash of an id. *)
Definition shard_for_topic (hash : Z → Z) (topic_id : Z) (n : nat) : nat :=
  if (n <=? 1)%nat || (topic_id =? 0) then 0%nat
  else Z.to_nat (hash topic_id mod Z.of_nat n).

(** The frames of shard [s], in the order they were logged. *)
Definition shard_frames (hash : Z → Z) (n s : nat) (log : list WalRecord.t) : list WalRecord.t :=
  filter (λ r, shard_for_topic hash (record_topic_id r) n = s) log.

(** The replay order of a WAL written with [n] shards: shard by shard. *)
Definition shard_order (hash : Z → Z) (n : nat) (log : list WalRecord.t) : list WalRecord.t :=
  concat ((λ s, shard_frames hash n s log) <$> seq 0 n).

(** The router of a logged [RouterOp]. *)
Definition router_of_op (op : RouterOp) : Router :=
  mkRouter (ro_name op) (ro_source op) (ro_dest op) (ro_preserve_node op) (ro_preserve_tag op)
    (ro_create_dest op) (matchsel_to_filter <$> ro_filter op) (ro_allow_cycle op)
    (if ro_exactly_once op then ExactlyOnce else AtLeastOnce).

(** [apply_router_create_for_recovery] *)
Definition apply_router_create (g : RouterGraph) (op : RouterOp) : RouterGraph :=
  match upsert g (router_of_op op) with
  | Err _ => g
  | Ok (g, created) =>
      if created
      then seed_dest_base (note_forwarded g (ro_name op) (ro_initial_cursor op) 0) (ro_name op)
             (ro_initial_dest_base op)
      else g
  end.

(** Replaying an [EvictWatermark]: each floor only advances. *)
Definition raise_loss_floors (f : Floors) (evict expiry : Z) : Floors :=
  mkFloors (if evict_floor f <? evict then evict else evict_floor f)
    (if expiry_floor f <? expiry then expiry else expiry_floor f)
    (delete_floor f) (source_trim_floor f).

Section recovery.
Context {V : Type} `{!JsonNull V} `{!Serde V} `{!Powf}.
Implicit Types (b : TopicState V) (e : Engine V).

(** [get_topic_by_id]: the registry entry with the id. *)
Definition get_topic_by_id e (topic_id : Z) : option (string * TopicState V) :=
  head (filter (λ kv, b_topic_id kv.2 = topic_id) (map_to_list (e_topics e))).

(** [apply_put_topic_for_recovery] *)
Definition apply_put_topic_for_recovery (name : string) (config : TopicConfig) (forced_id : option Z) :
    EM V (bool * Z) :=
  o ← apply_put_topic name config forced_id None 0;
  match o with Some p => mret p | None => throw Internal end.

(** [remove_topic_for_recovery] *)
Definition remove_topic_for_recovery (name : string) : EM V unit :=
  e ← eget;
  _ ← match e_topics e !! name with
      | Some _ =>
          _ ← emodify (λ e, set_topics e (delete name (e_topics e)));
          emodify (λ e, set_topic_count e (e_topic_count e - 1))
      | None => mret tt
      end;
  emodify (λ e, set_routers e (remove_touching_topic (e_routers e) name).1).

(** [apply_append_for_recovery] *)
Definition replay_record (ts : Z) (node tag : option string) (data : bytes) : StoredRecord V :=
  let '(rdata, meta) := decode_record_payload data in
  mkRecord ts node tag rdata meta (payload_bytes rdata meta) false true 0.

(** Apply [f] to a persistent topic found by id; other frames are ignored. *)
Definition on_topic_by_id (topic_id : Z) (f : TopicState V → TopicState V) : EM V unit :=
  e ← eget;
  match get_topic_by_id e topic_id with
  | Some (name, b) =>
      if uses_persistent_record_store (b_config b) then store_topic name (f b) else mret tt
  | None => mret tt
  end.

(** The append branch of [replay_frame] on the topic: overlaps and jumps are
    skipped. *)
Definition replay_append (seq : Z) (sr : StoredRecord V) (ts : Z) b : TopicState V :=
  if seq <=? b_head_seq b then b
  else if negb (seq =? b_head_seq b + 1) then b
  else (append b [sr] ts).1.

(** The delete branch of [replay_frame] on the topic. *)
Definition replay_delete (before_seq : option Z) (match_ : option MatchSel) (seqs : list Z)
    (bound_head : option Z) (ts : Z) b : TopicState V :=
  match seqs with
  | [] => (apply_delete_stats b before_seq (matchsel_to_filter <$> match_) bound_head ts).1
  | _ => (delete_seqs_stats b seqs).1
  end.

(** [replay_frame] *)
Definition replay_frame (record : WalRecord.t) : EM V unit :=
  match record with
  | WalRecord.Append topic_id seq ts node tag data =>
      e ← eget;
      _ ← match get_topic_by_id e topic_id with
          | Some _ => mret tt
          | None =>
              _ ← apply_put_topic_for_recovery ("topic-" +:+ pretty topic_id) default_config
                    (Some topic_id);
              e ← eget;
              match get_topic_by_id e topic_id with Some _ => mret tt | None => throw Internal end
          end;
      on_topic_by_id topic_id
        (replay_append seq (replay_record (as_i64 ts) node tag data) (as_i64 ts))
  | WalRecord.Delete topic_id before_seq match_ seqs bound_head ts =>
      on_topic_by_id topic_id (replay_delete before_seq match_ seqs bound_head (as_i64 ts))
  | WalRecord.TopicConfig topic_id op tombstone _ =>
      if tombstone then remove_topic_for_recovery (tc_name op)
      else
        _ ← apply_put_topic_for_recovery (tc_name op)
              (default default_config (config_from_slice (tc_config op))) (Some topic_id);
        mret tt
  | WalRecord.RouterCreate op _ =>
      emodify (λ e, set_routers e (apply_router_create (e_routers e) op))
  | WalRecord.RouterDelete name _ =>
      emodify (λ e, set_routers e (graph_remove (e_routers e) name).1)
  | WalRecord.EvictWatermark topic_id evict expiry _ _ =>
      e ← eget;
      match get_topic_by_id e topic_id with
      | Some (name, b) => store_topic name (with_floors b (raise_loss_floors (b_floors b) evict expiry))
      | None => mret tt
      end
  | WalRecord.Lease topic_id seq event node lease_id deadline deliveries _ =>
      on_topic_by_id topic_id (λ b,
        match b_queue b, lease_event_of event with
        | Some q, Some ev =>
            with_queue b (Some (apply_lease_event q ev seq node lease_id (as_i64 deadline) deliveries))
        | Some q, None =>
            with_queue b (Some (if next_lease_id q <=? lease_id
                                then set_next_lease_id q (lease_id + 1) else q))
        | None, _ => b
        end)
  | WalRecord.HeadWatermark topic_id head_seq _ =>
      on_topic_by_id topic_id (λ b, set_reserved_head b head_seq)
  | WalRecord.CheckpointMark _ _ => mret tt
  end.

Definition replay_frames (log : list WalRecord.t) e : Engine V :=
  foldl (λ e r, (replay_frame r e).1) e log.

(** [apply_head_watermarks] *)
Definition apply_head_watermarks e : Engine V :=
  set_topics e ((λ b, if b_head_seq b <? b_reserved_head b
                      then restore_head_watermark b (b_reserved_head b) else b) <$> e_topics e).

(** [reforward_routers_on_recovery]: passes over all routers until one makes no
    progress. *)
Fixpoint drive_counted (fuel : nat) (name : string) (total : Z) : EM V Z :=
  match fuel with
  | O => mret total
  | S fuel =>
      n ← advance_router name;
      if n =? 0 then mret total else drive_counted fuel name (total + n)
  end.

Fixpoint reforward_pass (names : list string) (progressed : Z) : EM V Z :=
  match names with
  | [] => mret progressed
  | name :: names =>
      progressed ← drive_counted (Z.to_nat CATCH_UP_PASSES) name progressed;
      reforward_pass names progressed
  end.

Fixpoint reforward_loop (passes : nat) (names : list string) : EM V unit :=
  match passes with
  | O => mret tt
  | S passes =>
      progressed ← reforward_pass names 0;
      if progressed =? 0 then mret tt else reforward_loop passes names
  end.

Definition reforward_routers_on_recovery : EM V unit :=
  e ← eget;
  reforward_loop 65 (rt_name <$> graph_iter (e_routers e)).

(** A recovery from the frames of one WAL, in replay order. *)
Definition recover (log : list WalRecord.t) e : Engine V :=
  (reforward_routers_on_recovery (apply_head_watermarks (replay_frames log e))).1.
End recovery.
