(* ===== verification/Durability.v ===== *)
(** * Acknowledged requests survive a crash

    The write path and the recovery path against each other.  For topics of the
    [fsync] class with unlimited retention, every history of topic creations,
    writes, deletes and topic deletions leaves a WAL whose replay rebuilds the
    registry that the live engine holds: same topics, same heads, same records.
    The WAL may refuse frames along the way (a full or stopped queue); what it may
    not do is accept a frame and then fail to commit it, and
    [Durability.DurabilitySamples] shows what happens when it does. *)

From stdpp Require Import base gmap list strings sorting list_numbers pretty.
From S2P Require Import Prelude Types Eviction TopicIndex QueueProjection TopicState TopicLog.
From S2P Require Import Bytes Wal Json Router Sched Diff Engine EngineLogic EngineSpec Forward Api Recovery.

(** No retention, and every acknowledged write is fsynced. *)
Definition archival (c : TopicConfig) : Prop :=
  cfg_ttl_ms c = 0 ∧ cfg_cap_records c = 0 ∧ cfg_cap_bytes c = 0 ∧ durability_class c = Fsync.

Lemma archival_normalize c : archival c → archival (normalize_durability (normalize_config c)).
Proof. intros (? & ? & ? & Hd). by split_and!. Qed.

(** ** Topic-level facts *)
Section topic_facts.
Context {V : Type} `{!JsonNull V}.
Implicit Types (b : TopicState V) (r : StoredRecord V).

Lemma archival_unlimited c : archival c → unlimited c.
Proof. by intros (? & ? & ? & _). Qed.

Lemma archival_retention b now : archival (b_config b) → enforce_retention b now = (b, no_advance).
Proof. intros. by apply unlimited_retention, archival_unlimited. Qed.

Lemma marked_identity b seqs : identity (marked b seqs) = identity b.
Proof. unfold marked. by destruct (mark_all _ _ _ _) as [[? ?] ?]. Qed.

Lemma marked_bytes b seqs :
  topic_wf b → total_bytes (records (b_index (marked b seqs))) <= total_bytes (records (b_index b)).
Proof.
  intros Hwf. pose proof (mark_all_spec seqs (b_index b) 0 0 (tw_index _ Hwf) ltac:(lia)
    ltac:(pose proof (tw_total _ Hwf); lia)) as Hm.
  unfold marked. destruct (mark_all _ _ _ _) as [[ix' freed] deleted].
  destruct Hm as (_ & _ & _ & _ & _ & ? & _ & ? & _). simpl. lia.
Qed.

(** A delete on a topic without retention. *)
Lemma archival_delete b before_seq match_ bound_head now :
  settled b → archival (b_config b) → u64_opt before_seq → u64_opt bound_head →
  (∀ x, bound_head = Some x → x <= b_head_seq b + 1) →
  let b' := (apply_delete_stats b before_seq match_ bound_head now).1 in
  settled b' ∧ b_head_seq b' = b_head_seq b ∧ identity b' = identity b ∧
  total_bytes (records (b_index b')) <= total_bytes (records (b_index b)) ∧
  ∀ s, view b' s =
    match view b s with
    | Some r => if del_selects match_ (delete_bound b before_seq bound_head) s r then None else Some r
    | None => None
    end.
Proof.
  intros Hst Harch Hbs Hbh Hx b'.
  pose proof (apply_delete_spec b before_seq match_ bound_head now Hst Hbs Hbh Hx) as Hs.
  cbv zeta in Hs. fold b' in Hs. rewrite archival_retention in Hs by done. destruct Hs as (Hst' & Hh & Hv).
  split_and!; try done; unfold b'; rewrite apply_delete_eq, archival_retention by done; simpl.
  - rewrite reclaim_front_identity. unfold prefix_floored. destruct match_, before_seq; apply marked_identity.
  - set (b1 := marked b _).
    assert (Hb1 : Forall slot_ok (records (b_index b1))).
    { apply (wf_slots _ (tw_index _ (st_wf _ (marked_settled b _ Hst)))). }
    assert (Hb2 : total_bytes (records (b_index b1)) <= total_bytes (records (b_index b)))
      by (apply marked_bytes, Hst).
    clearbody b1. etrans; [apply reclaim_front_bytes|]; unfold prefix_floored;
      destruct match_, before_seq; done.
Qed.

End topic_facts.

(** Replaying a single logged frame. *)
Ltac replay_one :=
  cbv zeta;
  repeat match goal with
    | |- context [replay_frames [(?r, ?d)].*1 ?e] =>
        change (replay_frames [(r, d)].*1 e) with (replay_frame r e).1
    end.

(** ** Live and replayed registries *)
Section durability.
Context {V : Type} `{!JsonNull V} `{!Serde V} `{!SerdeLaws V} `{!Powf}.
Implicit Types (b : TopicState V) (e : Engine V).

(** The bytes of a batch of maximal size. *)
Definition BATCH_BYTES : Z := MAX_BATCH_RECORDS * MAX_RECORD_BYTES.

(** A record that was written directly and is in memory. *)
Definition plain (r : StoredRecord V) : Prop := r_payload_resident r = true ∧ r_hops r = 0.

(** An unlimited [fsync] topic that has taken at most [k] batches. *)
Record archived (k : Z) b : Prop := {
  ar_settled : settled b;
  ar_config : archival (b_config b);
  ar_head : b_head_seq b <= MAX_BATCH_RECORDS * k;
  ar_reserved : b_reserved_head b <= b_head_seq b;
  ar_bytes : total_bytes (records (b_index b)) <= BATCH_BYTES * k;
  ar_plain : ∀ s r, view b s = Some r → plain r
}.

(** A replayed topic [b'] matches the live topic [b]. *)
Definition matches b b' : Prop :=
  b_topic_id b' = b_topic_id b ∧ b_config b' = b_config b ∧
  b_head_seq b' = b_head_seq b ∧ ∀ s, view b' s = view b s.

Definition mirror (k : Z) (ts ts' : gmap string (TopicState V)) : Prop :=
  ∀ n, match ts !! n, ts' !! n with
       | Some b, Some b' => archived k b ∧ archived k b' ∧ matches b b'
       | None, None => True
       | _, _ => False
       end.

Definition ids_distinct (ts : gmap string (TopicState V)) : Prop :=
  ∀ n n' b b', ts !! n = Some b → ts !! n' = Some b' → b_topic_id b = b_topic_id b' → n = n'.

(** The environment a request leaves alone: the clock, the routers, and faults it
    has not met yet. *)
Record same_env e e' : Prop := {
  se_now : e_now e' = e_now e;
  se_routers : e_routers e' = e_routers e;
  se_oracle : e_oracle e' `suffix_of` e_oracle e;
  se_next : e_next_topic_id e <= e_next_topic_id e'
}.

(** Replaying the live log from [e0], after its first [n0] frames, rebuilds the
    live registry. *)
Record tracked (n0 : nat) (e0 : Engine V) (k : Z) e : Prop := {
  tk_count : 0 <= k;
  tk_now : 0 <= e_now e < 2 ^ 63;
  tk_oracle : CommitFailed ∉ e_oracle e;
  tk_routers : e_routers e = graph_new;
  tk_fresh : ∀ n b, e_topics e !! n = Some b → b_topic_id b < e_next_topic_id e;
  tk_distinct : ids_distinct (e_topics e);
  tk_named : ∀ n b, e_topics e !! n = Some b → b_name b = n;
  tk_log : ∃ log, e_wal e = Some log ∧ (n0 <= length log)%nat ∧
             e_routers (replay_frames (drop n0 log).*1 e0) = graph_new ∧
             mirror k (e_topics e) (e_topics (replay_frames (drop n0 log).*1 e0))
}.

(** ** Generic facts *)
Lemma batch_bytes_value : BATCH_BYTES = 10485760000.
Proof. done. Qed.

Lemma same_env_refl e : same_env e e.
Proof. done. Qed.
Lemma same_env_trans e1 e2 e3 : same_env e1 e2 → same_env e2 e3 → same_env e1 e3.
Proof. intros [] []. split; [congruence|congruence|by etrans|lia]. Qed.
Lemma suffix_no_fail (o o' : list WalOutcome) : o' `suffix_of` o → CommitFailed ∉ o → CommitFailed ∉ o'.
Proof. intros [l ->]. rewrite elem_of_app. tauto. Qed.

Lemma mirror_weaken k k' ts ts' : k <= k' → mirror k ts ts' → mirror k' ts ts'.
Proof.
  intros Hk Hm n. specialize (Hm n).
  assert (Hw : ∀ b, archived k b → archived k' b).
  { intros b [? ? Hh ? Hb ?]. rewrite batch_bytes_value in Hb. unfold MAX_BATCH_RECORDS in Hh.
    split; try done; rewrite ?batch_bytes_value; unfold MAX_BATCH_RECORDS; lia. }
  destruct (ts !! n), (ts' !! n); naive_solver.
Qed.

Lemma mirror_insert k ts ts' n b b' :
  mirror k ts ts' → archived k b → archived k b' → matches b b' →
  mirror k (<[n := b]> ts) (<[n := b']> ts').
Proof.
  intros Hm Hb Hb' Hbb n'. destruct (decide (n' = n)) as [->|]; simplify_map_eq; [done|apply Hm].
Qed.

Lemma mirror_delete k ts ts' n : mirror k ts ts' → mirror k (delete n ts) (delete n ts').
Proof.
  intros Hm n'. destruct (decide (n' = n)) as [->|]; simplify_map_eq; [done|apply Hm].
Qed.

Lemma mirror_distinct k ts ts' : mirror k ts ts' → ids_distinct ts → ids_distinct ts'.
Proof.
  intros Hm Hd n n' b b' Hn Hn' Heq. pose proof (Hm n) as H1. pose proof (Hm n') as H2.
  rewrite Hn in H1. rewrite Hn' in H2.
  destruct (ts !! n) as [c|] eqn:Hc, (ts !! n') as [c'|] eqn:Hc'; try done.
  destruct H1 as (_ & _ & Hi & _), H2 as (_ & _ & Hi' & _). eapply Hd; [done..|congruence].
Qed.

(** A topic is found by its id when ids are distinct. *)
Lemma by_id_found e n b :
  ids_distinct (e_topics e) → e_topics e !! n = Some b → get_topic_by_id e (b_topic_id b) = Some (n, b).
Proof.
  intros Hd Hn. unfold get_topic_by_id.
  assert (Hin : (n, b) ∈ filter (λ kv : string * TopicState V, b_topic_id kv.2 = b_topic_id b)
                           (map_to_list (e_topics e))).
  { apply list_elem_of_filter. split; [done|]. by apply elem_of_map_to_list. }
  destruct (filter _ _) as [|[n' b'] l] eqn:Hf; [by apply not_elem_of_nil in Hin|]. simpl.
  assert (Hin' : (n', b') ∈ filter (λ kv : string * TopicState V, b_topic_id kv.2 = b_topic_id b)
                           (map_to_list (e_topics e))) by (rewrite Hf; by left).
  apply list_elem_of_filter in Hin' as [Hid Hin']. apply elem_of_map_to_list in Hin'. simpl in Hid.
  assert (n' = n) as -> by (by eapply Hd). congruence.
Qed.

(** ** Pieces of the handlers *)
Lemma retention_archival name now e b :
  e_topics e !! name = Some b → archival (b_config b) →
  enforce_retention_durable name now e = (e, Ok tt).
Proof. intros Hb Harch. by apply (retention_unlimited _ _ _ b), archival_unlimited. Qed.

(** A control frame is either refused, with nothing changed, or logged. *)
Lemma wal_log_run r e log :
  e_wal e = Some log → CommitFailed ∉ e_oracle e →
  ∃ e1 res, wal_log r true e = (e1, res) ∧
    same_env e e1 ∧ e_topics e1 = e_topics e ∧ e_topic_count e1 = e_topic_count e ∧
    e_wal e1 = Some (match res with Ok _ => log ++ [(r, true)] | Err _ => log end).
Proof.
  intros Hw Hno. unfold wal_log, wal_commit. rewrite (bind_ok eget _ e e e) by done. rewrite Hw.
  unfold next_outcome. destruct (e_oracle e) as [|o os] eqn:Ho.
  { rewrite (bind_ok _ _ e e Committed) by (by rewrite Ho). eexists _, _. split; [done|].
    split_and!; [split; simpl; try done; by rewrite Ho|done|done|]. simpl. by rewrite Hw. }
  rewrite (bind_ok _ _ e (set_wal e (e_wal e) os) o) by (by rewrite Ho).
  assert (Hos : os `suffix_of` e_oracle e) by (rewrite Ho; by apply suffix_cons_r).
  destruct o; [| | |set_solver]; eexists _, _; (split; [done|]);
    (split_and!; [by split|done|done|]); simpl; by rewrite Hw.
Qed.

(** So is the frame of a delete. *)
Lemma submit_run r e log :
  e_wal e = Some log → CommitFailed ∉ e_oracle e →
  ∃ e1 res, submit_and_wait r true e = (e1, res) ∧
    same_env e e1 ∧ e_topics e1 = e_topics e ∧
    e_wal e1 = Some (match res with Ok _ => log ++ [(r, true)] | Err _ => log end).
Proof.
  intros Hw Hno. unfold submit_and_wait. rewrite (bind_ok eget _ e e e) by done. rewrite Hw.
  unfold next_outcome. destruct (e_oracle e) as [|o os] eqn:Ho.
  { rewrite (bind_ok _ _ e e Committed) by (by rewrite Ho). eexists _, _. split; [done|].
    split_and!; [split; simpl; try done; by rewrite Ho|done|]. simpl. by rewrite Hw. }
  rewrite (bind_ok _ _ e (set_wal e (e_wal e) os) o) by (by rewrite Ho).
  assert (Hos : os `suffix_of` e_oracle e) by (rewrite Ho; by apply suffix_cons_r).
  destruct o; [| | |set_solver]; eexists _, _; (split; [done|]);
    (split_and!; [by split|done|]); simpl; by rewrite Hw.
Qed.

(** Submitting the frames of a batch. *)
Lemma enqueue_run id seqs recs now e log :
  e_wal e = Some log → CommitFailed ∉ e_oracle e →
  ∃ e1 res, wal_enqueue_batch (V := V) id seqs recs now true e = (e1, res) ∧
    same_env e e1 ∧ e_topics e1 = e_topics e ∧ e_topic_count e1 = e_topic_count e ∧
    match res with
    | Ok tok => tok = Some true ∧
        e_wal e1 = Some (log ++ ((λ f, (f, true)) <$> append_frames id seqs recs now))
    | Err _ => e_wal e1 = Some log
    end.
Proof.
  intros Hw Hno. unfold wal_enqueue_batch. rewrite (bind_ok eget _ e e e) by done. rewrite Hw.
  unfold next_outcome. destruct (e_oracle e) as [|o os] eqn:Ho.
  { rewrite (bind_ok _ _ e e Committed) by (by rewrite Ho). eexists _, _. split; [done|].
    split_and!; [split; simpl; try done; by rewrite Ho|done|done|done|]. simpl. by rewrite Hw. }
  rewrite (bind_ok _ _ e (set_wal e (e_wal e) os) o) by (by rewrite Ho).
  assert (Hos : os `suffix_of` e_oracle e) by (rewrite Ho; by apply suffix_cons_r).
  destruct o; [| | |set_solver]; eexists _, _; (split; [done|]);
    (split_and!; [by split|done|done|..]); try done; simpl; by rewrite Hw.
Qed.

(** A batch is either refused, with the topic as it was, or appended and logged
    whole. *)
Lemma durable_append_run name recs now e b log :
  e_topics e !! name = Some b → settled b → archival (b_config b) →
  recs ≠ [] → appendable b recs → e_wal e = Some log → CommitFailed ∉ e_oracle e →
  ∃ e1 res, durable_append name recs now e = (e1, res) ∧
    same_env e e1 ∧ e_topic_count e1 = e_topic_count e ∧
    match res with
    | Err _ => e_topics e1 = e_topics e ∧ e_wal e1 = Some log
    | Ok seqs =>
        seqs = seqZ (b_head_seq b + 1) (Z.of_nat (length recs)) ∧
        e_topics e1 = <[name := appended b recs now]> (e_topics e) ∧
        e_wal e1 = Some (log ++ ((λ f, (f, true)) <$> append_frames (b_topic_id b) seqs recs now))
    end.
Proof.
  intros Hb Hst (_ & _ & _ & Hd) Hne Happ Hw Hno.
  pose proof (append_eq b recs now (st_wf _ Hst) Hne Happ) as Hap. rewrite (st_tail _ Hst) in Hap.
  pose proof (rollback_stage b recs (tw_index _ (st_wf _ Hst)) (appendable_slots _ _ Happ)) as Hrb.
  unfold append in Hap.
  destruct (stage_append b recs) as [b1 st] eqn:Hstage. simpl in Hrb.
  assert (Hne' : staged_is_empty st = false).
  { destruct recs as [|r0 recs]; [done|]. injection Hstage as <- <-. unfold staged_is_empty. simpl. lia. }
  rewrite Hne' in Hap. injection Hap as Hpub Hseqs.
  destruct recs as [|r0 recs0]; [done|]. unfold durable_append.
  set (recs := r0 :: recs0) in *. clearbody recs. clear Hne r0 recs0.
  rewrite (bind_ok eget _ e e e) by done.
  destruct (quota_run (negb (e_max_total_bytes e =? 0)) (total_bytes recs) e) as (m & ok & Hq).
  rewrite (bind_ok _ _ _ _ _ Hq). destruct ok; cbn [negb]; cycle 1.
  { eexists _, _. split; [done|]. by split_and!. }
  set (e1 := set_total_bytes e m).
  rewrite (bind_ok _ _ e1 e1 b) by (unfold topic_ref; simpl; by rewrite Hb).
  cbv zeta. rewrite Hd, Hw, Hstage. cbv beta iota.
  rewrite (bind_ok _ _ e1 (set_topics e1 (<[name := b1]> (e_topics e1))) tt) by done.
  set (e2 := set_topics e1 _). rewrite (bool_decide_eq_true_2 (Fsync = Fsync)) by done.
  rewrite (bool_decide_eq_false_2 (Fsync = Ephemeral)), (bool_decide_eq_false_2 (Fsync = Disk)) by done.
  cbn [negb].
  destruct (enqueue_run (b_topic_id b) (staged_seqs st) recs now e2 log Hw Hno)
    as (e3 & res & Henq & Hse & Ht & Hc & Hres).
  rewrite (bind_ok (attempt _) _ e2 e3 res) by (rewrite attempt_run, Henq; done).
  assert (Hse' : same_env e e3) by (eapply same_env_trans; [|done]; by split).
  destruct res as [tok|c].
  - destruct Hres as [-> Hlog].
    rewrite (bind_ok _ _ e3 e3 (Ok tt)) by done.
    rewrite (bind_ok _ _ e3 e3 b1) by (unfold topic_ref; rewrite Ht; simpl; by rewrite lookup_insert_eq).
    eexists _, _. split; [done|]. rewrite Hseqs. split_and!; try done.
    + destruct Hse'. by split.
    + simpl. rewrite Ht, Hpub. simpl. by rewrite insert_insert_eq.
    + simpl. by rewrite Hlog, Hseqs.
  - set (e4 := set_topics e3 (<[name := rollback_staged b1 st]> (e_topics e3))).
    rewrite (bind_ok _ _ e3 e4 tt) by done.
    destruct (release_run (negb (e_max_total_bytes e =? 0)) (total_bytes recs) e4) as (m' & Hrel).
    rewrite (bind_ok _ _ _ _ _ Hrel). eexists _, _. split; [done|]. split_and!; try done.
    + destruct Hse'. by split.
    + simpl. rewrite Ht, Hrb. simpl. rewrite insert_insert_eq. by apply insert_id.
Qed.

(** ** Replay *)
Lemma replay_frames_app l1 l2 e : replay_frames (l1 ++ l2) e = replay_frames l2 (replay_frames l1 e).
Proof. unfold replay_frames. by rewrite foldl_app. Qed.

(** A frame for a persistent topic changes that topic only. *)
Lemma on_topic_run f e n b :
  ids_distinct (e_topics e) → e_topics e !! n = Some b → archival (b_config b) →
  on_topic_by_id (b_topic_id b) f e = (set_topics e (<[n := f b]> (e_topics e)), Ok tt).
Proof.
  intros Hd Hn (_ & _ & _ & Hdc). unfold on_topic_by_id.
  rewrite (bind_ok eget _ e e e) by done. rewrite (by_id_found e n b) by done.
  unfold uses_persistent_record_store. by rewrite Hdc.
Qed.

Lemma replay_append_run e n b seq ts node tag data :
  ids_distinct (e_topics e) → e_topics e !! n = Some b → archival (b_config b) →
  (replay_frame (WalRecord.Append (b_topic_id b) seq ts node tag data) e).1 =
    set_topics e (<[n := replay_append seq (replay_record (as_i64 ts) node tag data) (as_i64 ts) b]>
                    (e_topics e)).
Proof.
  intros Hd Hn Ha. unfold replay_frame. rewrite (bind_ok eget _ e e e) by done.
  rewrite (by_id_found e n b) by done. rewrite (bind_ok _ _ e e tt) by done.
  by rewrite (on_topic_run _ e n b).
Qed.

(** A record as the write path builds it. *)
Definition built (now : Z) (r : StoredRecord V) : Prop :=
  r = mkRecord now (r_node r) (r_tag r) (r_data r) (r_meta r) (payload_bytes (r_data r) (r_meta r))
        false true 0.

Lemma as_i64_small x : 0 <= x < 2 ^ 63 → as_i64 x = x.
Proof. intros Hx. unfold as_i64, i64_max. by rewrite (proj2 (Z.leb_le _ _)) by lia. Qed.

Lemma replay_record_built now r :
  0 <= now < 2 ^ 63 → built now r →
  replay_record (as_i64 (ts_of now)) (r_node r) (r_tag r) (encode_record_payload (r_data r) (r_meta r)) = r.
Proof.
  intros Hnow Hr. unfold replay_record. rewrite decode_encode_payload.
  unfold ts_of. rewrite Z.max_l by lia. by rewrite as_i64_small by lia.
Qed.

Lemma replay_batch recs now e n b :
  0 <= now < 2 ^ 63 → Forall (built now) recs →
  ids_distinct (e_topics e) → e_topics e !! n = Some b → archival (b_config b) →
  settled b → appendable b recs →
  let seqs := seqZ (b_head_seq b + 1) (Z.of_nat (length recs)) in
  ∃ b1, extended b recs b1 ∧
    replay_frames (append_frames (b_topic_id b) seqs recs now) e = set_topics e (<[n := b1]> (e_topics e)).
Proof.
  intros Hnow Hrecs. revert e b. induction Hrecs as [|r recs Hr Hrecs IH];
    intros e b Hd Hn Ha Hst Happ.
  { exists b. split; [by apply extended_refl|simpl; rewrite insert_id by done; by destruct e]. }
  destruct (appendable_app b [r] recs Hst Happ) as [Hap1 Hap2].
  pose proof (extended_appended b [r] now Hst Hap1) as Hx1. specialize (Hap2 _ Hx1).
  set (b1 := appended b [r] now) in *.
  cbn [length]. rewrite Nat2Z.inj_succ. rewrite seqZ_cons by lia. rewrite Z.pred_succ.
  cbn [append_frames zip_with]. unfold replay_frames at 1. cbn [foldl].
  rewrite (replay_append_run e n b) by done. rewrite replay_record_built by done.
  assert (Hstep : replay_append (b_head_seq b + 1) r (as_i64 (ts_of now)) b = b1).
  { unfold replay_append. rewrite (proj2 (Z.leb_gt _ _)), Z.eqb_refl by lia. cbn [negb].
    unfold ts_of. rewrite Z.max_l, as_i64_small by lia.
    by rewrite (append_eq b [r] now) by (done || apply Hst). }
  rewrite Hstep. clearbody b1. set (e1 := set_topics e (<[n := b1]> (e_topics e))).
  destruct Hx1 as (Hs1 & Hi1 & Hc1 & Hr1 & Hh1 & Hbytes1 & Hv1).
  destruct (IH e1 b1) as (b2 & Hx2 & Hrep).
  - intros x x' c c'. unfold e1. simpl. rewrite !lookup_insert_Some. intros Hx Hx' Heq.
    destruct Hx as [[<- <-]|[? Hx]], Hx' as [[<- <-]|[? Hx']]; [done|..].
    + eapply Hd; [done..|congruence].
    + eapply Hd; [done..|congruence].
    + by eapply Hd.
  - by simplify_map_eq.
  - by rewrite Hc1.
  - done.
  - done.
  - exists b2. split; [apply (extended_app b [r] b1 recs); [|done]; by split_and!|].
    rewrite Hh1, Hi1 in Hrep. change (Z.of_nat (length [r])) with 1 in Hrep.
    unfold append_frames, replay_frames in Hrep. unfold Z.succ. rewrite Hrep. unfold e1. simpl.
    unfold set_topics. simpl. by rewrite insert_insert_eq.
Qed.

(** ** Requests keep the log and the registry together *)
Context (n0 : nat) (e0 : Engine V).

Lemma tracked_weaken k k' e : k <= k' → tracked n0 e0 k e → tracked n0 e0 k' e.
Proof.
  intros Hk [? ? ? ? ? ? ? (log & ? & ? & ? & Hm)]. split; try done; [lia|]. exists log.
  split_and!; try done. by eapply mirror_weaken.
Qed.

(** A refused request. *)
Lemma tracked_quiet k e e1 :
  tracked n0 e0 k e → same_env e e1 → e_topics e1 = e_topics e → e_wal e1 = e_wal e → tracked n0 e0 k e1.
Proof.
  intros [? ? ? ? Hf ? ? (log & Hw & ? & ? & Hm)] [Hn Hr Ho Hx] Ht Hw1. split; rewrite ?Hn, ?Hr, ?Ht; try done.
  - by eapply suffix_no_fail.
  - intros n b Hb. specialize (Hf n b Hb). lia.
  - exists log. by rewrite Hw1.
Qed.

(** A request that changed topic [n] and logged [fs]. *)
Lemma tracked_logged k k' e e1 log fs (n : string) (o o' : option (TopicState V)) :
  tracked n0 e0 k e → e_wal e = Some log → same_env e e1 → k <= k' →
  e_wal e1 = Some (log ++ fs) →
  e_topics e1 = partial_alter (λ _, o) n (e_topics e) →
  (∀ b, o = Some b → b_topic_id b < e_next_topic_id e1 ∧ b_name b = n ∧
     ∀ n' b', n' ≠ n → e_topics e !! n' = Some b' → b_topic_id b' ≠ b_topic_id b) →
  match o, o' with
  | Some b, Some b' => archived k' b ∧ archived k' b' ∧ matches b b'
  | None, None => True
  | _, _ => False
  end →
  (let er := replay_frames (drop n0 log).*1 e0 in let er1 := replay_frames fs.*1 er in
   e_topics er1 = partial_alter (λ _, o') n (e_topics er) ∧ e_routers er1 = graph_new) →
  tracked n0 e0 k' e1.
Proof.
  intros [? ? ? Hrt Hf Hd Hnm (log' & Hw & Hlen & ? & Hm)] Hlog [Hn Hr Ho Hx] Hk Hw1 Ht Hid Hoo [Her Hgr].
  assert (log' = log) as -> by congruence.
  assert (Hlk : ∀ n' b, e_topics e1 !! n' = Some b →
    n' = n ∧ o = Some b ∨ n' ≠ n ∧ e_topics e !! n' = Some b).
  { intros n' b. rewrite Ht. destruct (decide (n' = n)) as [->|]; [rewrite lookup_partial_alter_eq; by left|].
    rewrite lookup_partial_alter_ne by done. by right. }
  split; rewrite ?Hn, ?Hr; try done; [lia|by eapply suffix_no_fail|..].
  - intros n' b [[-> Hb]|[_ Hb]]%Hlk; [by apply Hid|]. specialize (Hf n' b Hb). lia.
  - intros x x' b b' [[-> Hb]|[? Hb]]%Hlk [[-> Hb']|[? Hb']]%Hlk Heq; [done|..].
    + by destruct (proj2 (proj2 (Hid b Hb)) x' b').
    + by destruct (proj2 (proj2 (Hid b' Hb')) x b).
    + by eapply Hd.
  - intros n' b [[-> Hb]|[_ Hb]]%Hlk; [by apply Hid|by apply Hnm].
  - exists (log ++ fs). split; [done|]. split; [rewrite length_app; lia|].
    rewrite drop_app_le, fmap_app, replay_frames_app by done. split; [done|]. rewrite Her, Ht. intros n'. specialize (mirror_weaken _ k' _ _ Hk Hm n') as Hm'.
    destruct (decide (n' = n)) as [->|]; [by rewrite !lookup_partial_alter_eq|].
    by rewrite !lookup_partial_alter_ne.
Qed.

(** The topic a request finds, with its replayed counterpart. *)
Lemma tracked_topic k e log n :
  tracked n0 e0 k e → e_wal e = Some log →
  let er := replay_frames (drop n0 log).*1 e0 in
  ids_distinct (e_topics er) ∧ e_routers er = graph_new ∧
  match e_topics e !! n with
  | Some b => ∃ b', e_topics er !! n = Some b' ∧ archived k b ∧ archived k b' ∧ matches b b'
  | None => e_topics er !! n = None
  end.
Proof.
  intros [? ? ? ? ? Hd _ (log' & Hw & _ & Hg & Hm)] Hlog. assert (log' = log) as -> by congruence.
  split; [by eapply mirror_distinct|]. split; [done|]. specialize (Hm n).
  destruct (e_topics e !! n) as [b|], (e_topics (replay_frames (drop n0 log).*1 e0) !! n) as [b'|]; try done. eauto.
Qed.

Lemma archived_with_config k b c : archived k b → archival c → archived k (with_config b c).
Proof.
  intros [[Hwf ? ?] ? ? ? ? ?] Hc. split; [split; [|done|done]|done|done|done|done|done]. destruct Hwf. by split.
Qed.

Lemma matches_with_config b b' c : matches b b' → matches (with_config b c) (with_config b' c).
Proof. intros (? & _ & ? & Hv). split_and!; [done..|]. intros s. exact (Hv s). Qed.

Lemma archived_new k name id c : 0 <= k → archival c → archived k (topic_new name id c SEQ_BASE 1).
Proof.
  intros Hk Hc. split; [by apply topic_new_settled; vm_compute|done| |done| |].
  - unfold topic_new, MAX_BATCH_RECORDS. simpl. rewrite sat_sub_exact; unfold SEQ_BASE; lia.
  - rewrite batch_bytes_value. simpl. unfold total_bytes. simpl. lia.
  - intros s r Hv. apply view_Some in Hv as (_ & Hg & _). unfold get in Hg. simpl in Hg.
    by destruct (s <? SEQ_BASE).
Qed.

(** Replaying a create or update frame. *)
Lemma replay_config_run e n id config ts :
  archival config →
  let e1 := (replay_frame (WalRecord.TopicConfig id (mkTopicConfigOp n (config_to_vec config)) false ts) e).1 in
  e_routers e1 = e_routers e ∧
  e_topics e1 = <[n := match e_topics e !! n with
                       | Some b => with_config b config
                       | None => topic_new n id config SEQ_BASE 1
                       end]> (e_topics e).
Proof.
  intros Ha. simpl. unfold apply_put_topic_for_recovery, apply_put_topic. rewrite config_roundtrip. simpl.
  destruct (e_topics e !! n) as [b|] eqn:Hb; unfold mbind, EM_bind; simpl; rewrite Hb; simpl; [|done].
  by rewrite archival_retention.
Qed.

Lemma update_topic_tracked k e name c b :
  tracked n0 e0 k e → archival c → e_topics e !! name = Some b → tracked n0 e0 k (update_topic name c b e).1.
Proof.
  intros Htr Hc Hb. pose proof (tk_log _ _ _ _ Htr) as (log & Hw & _).
  pose proof (tracked_topic k e log name Htr Hw) as (Hdr & Hgr & Hn). rewrite Hb in Hn.
  destruct Hn as (b' & Hb' & Harc & Harc' & Hmt).
  unfold update_topic. rewrite (bind_ok eget _ e e e) by done.
  destruct (wal_log_run (WalRecord.TopicConfig (b_topic_id b) (mkTopicConfigOp name (config_to_vec c))
     false (ts_of (e_now e))) e log Hw (tk_oracle _ _ _ _ Htr)) as (e1 & res & Hrun & Hse & Ht & _ & Hw1).
  destruct res as [[]|err]; [rewrite (bind_ok _ _ _ _ _ Hrun)|rewrite (bind_err _ _ _ _ _ Hrun)]; cycle 1.
  { apply (tracked_quiet k e e1); [done..|by rewrite Hw1, Hw]. }
  set (e2 := set_topics e1 (<[name := with_config b c]> (e_topics e1))).
  rewrite (bind_ok _ _ e1 e2 tt) by done.
  rewrite (bind_ok _ _ e2 e2 tt)
    by (apply (retention_archival _ _ _ (with_config b c)); [simpl; by rewrite lookup_insert_eq|done]).
  simpl. eapply (tracked_logged k k e e2 log _ name (Some (with_config b c)) (Some (with_config b' c)));
    [done|done|destruct Hse; by split|done|simpl; done|simpl; by rewrite Ht| | |].
  - intros ? [= <-]. simpl. split; [destruct Hse; pose proof (tk_fresh _ _ _ _ Htr _ _ Hb); simpl; lia|].
    split; [by apply (tk_named _ _ _ _ Htr)|].
    intros n' b2 Hne Hb2 Heq. apply Hne. by eapply (tk_distinct _ _ _ _ Htr).
  - split_and!; [by apply archived_with_config..|by apply matches_with_config].
  - replay_one.
    destruct (replay_config_run (replay_frames (drop n0 log).*1 e0) name (b_topic_id b) c (ts_of (e_now e)) Hc) as [Hg1 Ht1].
    by rewrite Ht1, Hg1, Hb'.
Qed.

Lemma create_topic_tracked k e name c :
  tracked n0 e0 k e → archival c → e_topics e !! name = None → tracked n0 e0 k (create_topic name c e).1.
Proof.
  intros Htr Hc Hb. pose proof (tk_log _ _ _ _ Htr) as (log & Hw & _).
  pose proof (tracked_topic k e log name Htr Hw) as (Hdr & Hgr & Hn). rewrite Hb in Hn.
  unfold create_topic. rewrite (bind_ok eget _ e e e) by done. unfold reserve_topic_slot.
  destruct (negb (e_max_topics e =? 0) && (e_max_topics e <=? e_topic_count e)) eqn:Hcap.
  { rewrite (bind_ok _ _ e e None) by (rewrite (bind_ok eget _ e e e) by done; by rewrite Hcap). done. }
  set (e1 := set_next_topic_id (set_topic_count e (e_topic_count e + 1)) (e_next_topic_id e + 1)).
  rewrite (bind_ok _ _ e e1 (Some (e_next_topic_id e)))
    by (rewrite (bind_ok eget _ e e e) by done; by rewrite Hcap).
  assert (Hse1 : same_env e e1) by (split; simpl; done || lia).
  destruct (wal_log_run (WalRecord.TopicConfig (e_next_topic_id e) (mkTopicConfigOp name (config_to_vec c))
     false (ts_of (e_now e))) e1 log Hw (tk_oracle _ _ _ _ Htr)) as (e2 & res & Hrun & Hse & Ht & _ & Hw1).
  rewrite (bind_ok (attempt _) _ e1 e2 res) by (rewrite attempt_run, Hrun; done).
  assert (Hse2 : same_env e e2) by (by eapply same_env_trans).
  destruct res as [[]|err]; cycle 1.
  { simpl. eapply tracked_quiet; [done|destruct Hse2; by split|simpl; by rewrite Ht|simpl; by rewrite Hw1, Hw]. }
  set (t := topic_new (V := V) name (e_next_topic_id e) c SEQ_BASE 1).
  assert (Hins : insert_reserved_topic name c (e_next_topic_id e) e2 =
    (set_topics e2 (<[name := t]> (e_topics e2)), Ok true)).
  { unfold insert_reserved_topic. rewrite (bind_ok _ _ e2 e2 None); [done|].
    unfold get_topic. rewrite Ht. simpl. by rewrite Hb. }
  rewrite (bind_ok _ _ _ _ _ Hins). simpl.
  eapply (tracked_logged k k e _ log _ name (Some t) (Some t));
    [done|done|destruct Hse2; by split|done|simpl; done|simpl; by rewrite Ht| | |].
  - intros ? [= <-]. simpl. split; [destruct Hse; simpl in *; lia|]. split; [done|].
    intros n' b2 Hne Hb2 Heq. pose proof (tk_fresh _ _ _ _ Htr _ _ Hb2). lia.
  - pose proof (tk_count _ _ _ _ Htr). split_and!; [by apply archived_new..|by split_and!].
  - replay_one.
    destruct (replay_config_run (replay_frames (drop n0 log).*1 e0) name (e_next_topic_id e) c (ts_of (e_now e)) Hc) as [Hg1 Ht1].
    by rewrite Ht1, Hg1, Hn.
Qed.

Lemma put_topic_tracked k e name config :
  tracked n0 e0 k e → archival config → tracked n0 e0 k (put_topic name config e).1.
Proof.
  intros Htr Ha. pose proof (archival_normalize _ Ha) as Hc.
  unfold put_topic. destruct (is_valid_name name); [|done]. cbn [negb].
  destruct (validate_config _); [|done]. destruct (is_queue _ && _); [done|].
  rewrite (bind_ok _ _ e e (e_topics e !! name)) by done.
  destruct (e_topics e !! name) as [b|] eqn:Hb; [|by apply create_topic_tracked].
  case_bool_decide; [|done]. by apply update_topic_tracked.
Qed.

(** *** Writes *)

(** The number of requests up to which seqs and byte counts stay within 64 bits
    whatever the requests are. *)
Definition HISTORY_LIMIT : Z := 1000000000.

(** A batch that passed validation. *)
Definition batch_ok (now : Z) (recs : list (StoredRecord V)) : Prop :=
  recs ≠ [] ∧ Z.of_nat (length recs) <= MAX_BATCH_RECORDS ∧
  Forall (λ r, built now r ∧ r_bytes r <= MAX_RECORD_BYTES) recs.

Lemma build_batch_ok recs node now stored :
  build_batch recs node now = Ok stored →
  length stored = length recs ∧ Forall (λ r, built now r ∧ r_bytes r <= MAX_RECORD_BYTES) stored.
Proof.
  revert stored. induction recs as [|r recs IH]; intros stored; simpl; [by intros [= <-]|].
  destruct (build_stored r node now) as [sr|] eqn:Hsr; [|done]. simpl.
  destruct (build_batch recs node now) as [srs|]; [|done]. simpl. intros [= <-].
  destruct (IH srs eq_refl) as [Hl Hf]. split; [simpl; by rewrite Hl|]. constructor; [|done].
  apply build_stored_ok in Hsr as [-> Hb]. done.
Qed.

Lemma validate_write_ok req now stored : validate_write req now = Ok stored → batch_ok now stored.
Proof.
  unfold validate_write. destruct (Z.eqb_spec (Z.of_nat (length (wq_records req))) 0) as [|Hne]; [done|].
  destruct (Z.ltb_spec MAX_BATCH_RECORDS (Z.of_nat (length (wq_records req)))); [done|].
  intros Hb. assert (Hb' : build_batch (wq_records req) (wq_node req) now = Ok stored).
  { destruct (wq_idempotency_key req) as [key|]; [|done]. by destruct (_ <? _). }
  apply build_batch_ok in Hb' as [Hl Hf]. split_and!; [|by rewrite Hl|done].
  intros ->. apply Hne. by rewrite <-Hl.
Qed.

Lemma total_bytes_bound now recs :
  Forall (λ r, built now r ∧ r_bytes r <= MAX_RECORD_BYTES) recs →
  0 <= total_bytes recs <= MAX_RECORD_BYTES * Z.of_nat (length recs).
Proof.
  unfold total_bytes. induction 1 as [|r recs [Hr Hb] _ IH]; simpl; [lia|].
  assert (0 <= r_bytes r) by (rewrite Hr; apply payload_bytes_nonneg). lia.
Qed.

Lemma batch_appendable k b now recs :
  archived k b → k < HISTORY_LIMIT → batch_ok now recs → appendable b recs.
Proof.
  intros [Hst _ Hh _ Hb _] Hk (_ & Hlen & Hf). pose proof (total_bytes_bound now recs Hf).
  rewrite batch_bytes_value in Hb. unfold MAX_BATCH_RECORDS, HISTORY_LIMIT in *.
  change MAX_RECORD_BYTES with 1048576 in *. split_and!.
  - eapply Forall_impl; [exact Hf|]. intros r [Hr _]. rewrite Hr. simpl.
    split; [apply payload_bytes_nonneg|done].
  - rewrite (st_tail _ Hst). unfold u64_max. lia.
  - unfold u64_max. lia.
Qed.

Lemma archived_extended k b now recs b1 :
  archived k b → batch_ok now recs → extended b recs b1 → archived (k + 1) b1.
Proof.
  intros [Hst Ha Hh Hr Hb Hpl] (_ & Hlen & Hf) (Hs1 & _ & Hc1 & Hr1 & Hh1 & Hb1 & Hv1).
  pose proof (total_bytes_bound now recs Hf). split; [done|by rewrite Hc1| |lia| |].
  - rewrite Hh1. unfold MAX_BATCH_RECORDS in *. lia.
  - rewrite Hb1. rewrite batch_bytes_value in *. unfold MAX_BATCH_RECORDS in *.
    change MAX_RECORD_BYTES with 1048576 in *. lia.
  - intros s r. rewrite Hv1. destruct (s <=? b_head_seq b); [apply Hpl|]. intros Hr0.
    apply (Forall_lookup_1 _ _ _ _ Hf) in Hr0 as [-> _]. done.
Qed.

Lemma extended_matches b b' recs b1 b1' :
  matches b b' → extended b recs b1 → extended b' recs b1' → matches b1 b1'.
Proof.
  intros (Hi & Hc & Hh & Hv) (_ & Hi1 & Hc1 & _ & Hh1 & _ & Hv1) (_ & Hi1' & Hc1' & _ & Hh1' & _ & Hv1').
  split_and!; [congruence..|]. intros s. by rewrite Hv1, Hv1', Hh, Hv.
Qed.

Lemma append_tracked k e name b recs :
  tracked n0 e0 k e → k < HISTORY_LIMIT → e_topics e !! name = Some b → batch_ok (e_now e) recs →
  ∃ e1 res b1, durable_append name recs (e_now e) e = (e1, res) ∧ tracked n0 e0 (k + 1) e1 ∧
    e_topics e1 !! name = Some b1.
Proof.
  intros Htr Hk Hb Hok. pose proof (tk_log _ _ _ _ Htr) as (log & Hw & _).
  pose proof (tracked_topic k e log name Htr Hw) as (Hdr & Hgr & Hn). rewrite Hb in Hn.
  destruct Hn as (b' & Hb' & Harc & Harc' & Hmt).
  pose proof (batch_appendable k b _ recs Harc Hk Hok) as Happ.
  pose proof (batch_appendable k b' _ recs Harc' Hk Hok) as Happ'.
  destruct (durable_append_run name recs (e_now e) e b log Hb (ar_settled _ _ Harc) (ar_config _ _ Harc)
    (proj1 Hok) Happ Hw (tk_oracle _ _ _ _ Htr)) as (e1 & res & Hrun & Hse & _ & Hres).
  pose proof (extended_appended b recs (e_now e) (ar_settled _ _ Harc) Happ) as Hx.
  set (b1 := appended b recs (e_now e)) in *.
  destruct res as [seqs|c]; cycle 1.
  { destruct Hres as [Ht Hw1]. exists e1, (Err c), b. split_and!; [done| |by rewrite Ht].
    apply (tracked_weaken k); [lia|]. by apply (tracked_quiet k e e1); [..|rewrite Hw1, Hw]. }
  destruct Hres as (-> & Ht & Hw1). eexists e1, _, b1. split; [done|].
  split; [|rewrite Ht; by rewrite lookup_insert_eq].
  destruct (replay_batch recs (e_now e) (replay_frames (drop n0 log).*1 e0) name b' (tk_now _ _ _ _ Htr)) as (b1' & Hx' & Hrep);
    [by eapply Forall_impl; [apply Hok|]; intros ? []|done|done|apply Harc'|apply Harc'|done|].
  pose proof Hmt as (Hid & Hcf & Hh & Hv).
  eapply (tracked_logged k (k + 1) e e1 log _ name (Some b1) (Some b1'));
    [done|done|done|lia|done|by rewrite Ht| | |].
  - intros ? [= <-]. split; [destruct Hse; pose proof (tk_fresh _ _ _ _ Htr _ _ Hb); simpl; lia|].
    split; [exact (tk_named _ _ _ _ Htr _ _ Hb)|].
    intros n' b2 Hne Hb2 Heq. apply Hne. by eapply (tk_distinct _ _ _ _ Htr).
  - split_and!; [by eapply (archived_extended k b)|by eapply (archived_extended k b')|].
    by eapply (extended_matches b b').
  - cbv zeta. rewrite <-list_fmap_compose.
    replace (fst ∘ (λ f : WalRecord.t, (f, true)) <$> _) with (append_frames (b_topic_id b')
      (seqZ (b_head_seq b' + 1) (Z.of_nat (length recs))) recs (e_now e)).
    + by rewrite Hrep.
    + rewrite Hid, Hh. by rewrite <-(list_fmap_id (append_frames _ _ _ _)) at 1.
Qed.

(** Changing what recovery does not rebuild: recency clocks, the dedupe map. *)
Lemma tracked_store k e name b b2 :
  tracked n0 e0 k e → e_topics e !! name = Some b → archived k b2 → matches b b2 → b_name b2 = b_name b →
  tracked n0 e0 k (set_topics e (<[name := b2]> (e_topics e))).
Proof.
  intros Htr Hb Harc2 (Hi2 & Hc2 & Hh2 & Hv2) Hnm2. pose proof (tk_log _ _ _ _ Htr) as (log & Hw & _).
  pose proof (tracked_topic k e log name Htr Hw) as (_ & Hgr & Hn). rewrite Hb in Hn.
  destruct Hn as (b' & Hb' & _ & Harc' & (Hi & Hc & Hh & Hv)).
  eapply (tracked_logged k k e _ log [] name (Some b2) (Some b'));
    [done|done|by split|done|simpl; by rewrite app_nil_r|done| | |].
  - intros ? [= <-]. split; [rewrite Hi2; by apply (tk_fresh _ _ _ _ Htr _ _ Hb)|].
    split; [rewrite Hnm2; by apply (tk_named _ _ _ _ Htr)|].
    intros n' b3 Hne Hb3 Heq. apply Hne. eapply (tk_distinct _ _ _ _ Htr); [done..|congruence].
  - split_and!; [done..|]. split_and!; [congruence..|]. intros s. by rewrite Hv2, Hv.
  - split; [|done]. rewrite <-Hb'. symmetry. apply partial_alter_self.
Qed.

Lemma archived_same k b b2 :
  archived k b → b_index b2 = b_index b → b_floors b2 = b_floors b → b_head_seq b2 = b_head_seq b →
  b_seq_base b2 = b_seq_base b → b_live_count b2 = b_live_count b →
  b_bytes_retained b2 = b_bytes_retained b → b_config b2 = b_config b → b_topic_id b2 = b_topic_id b →
  b_reserved_head b2 = b_reserved_head b → archived k b2 ∧ matches b b2.
Proof.
  intros [[[] ? ?] ? ? ? ? Hpl] Hix Hfl Hh Hsb Hl Hby Hc Hid Hres. split.
  - split; [split; [split|..]|..]; unfold published in *; rewrite ?Hix, ?Hfl, ?Hh, ?Hsb, ?Hl, ?Hby, ?Hc, ?Hres;
      try done.
    intros s r. unfold view, earliest_seq in *. rewrite Hix, Hfl, Hh, Hsb. apply Hpl.
  - split_and!; [done..|]. intros s. unfold view, earliest_seq. by rewrite Hix, Hfl, Hh, Hsb.
Qed.

(** Only an existing topic is resolved. *)
Lemma resolve_tracked k e name req :
  tracked n0 e0 k e →
  (wq_create req = Some false ∨ ∃ c, wq_config req = Some c ∧ archival c) →
  tracked n0 e0 k (resolve_topic name req e).1 ∧ e_now (resolve_topic name req e).1 = e_now e ∧
  match (resolve_topic name req e).2 with
  | Ok _ => is_Some (e_topics (resolve_topic name req e).1 !! name)
  | Err _ => True
  end.
Proof.
  intros Htr Hreq. unfold resolve_topic.
  rewrite (bind_ok _ _ e e (e_topics e !! name)) by done.
  destruct (e_topics e !! name) as [b|] eqn:Hb; [split_and!; [done|done|simpl; by rewrite Hb]|].
  destruct Hreq as [->|(c & -> & Hc)]; [done|]. change (default default_config (Some c)) with c.
  destruct (negb _); [done|]. destruct (negb _); [done|]. destruct (validate_config c); [|done].
  pose proof (put_topic_tracked k e name c Htr Hc) as Htr1.
  assert (Hnow : e_now (put_topic name c e).1 = e_now e) by apply now_put_topic.
  destruct (put_topic name c e) as [e1 [p|err]] eqn:Hrun; simpl in Htr1, Hnow.
  - rewrite (bind_ok _ _ _ _ _ Hrun). rewrite (bind_ok _ _ e1 e1 (e_topics e1 !! name)) by done.
    by destruct (e_topics e1 !! name) eqn:Hb1; simpl; rewrite ?Hb1.
  - by rewrite (bind_err _ _ _ _ _ Hrun).
Qed.

Lemma tracked_archived k e name b : tracked n0 e0 k e → e_topics e !! name = Some b → archived k b.
Proof.
  intros Htr Hb. pose proof (tk_log _ _ _ _ Htr) as (log & Hw & _).
  pose proof (tracked_topic k e log name Htr Hw) as (_ & _ & Hn). rewrite Hb in Hn. naive_solver.
Qed.

(** The dedupe bookkeeping of a write. *)
Lemma dedupe_tracked k e name b m :
  tracked n0 e0 k e → e_topics e !! name = Some b →
  tracked n0 e0 k (set_topics e (<[name := with_dedupe b m]> (e_topics e))).
Proof.
  intros Htr Hb. pose proof (tracked_archived _ _ _ _ Htr Hb) as Ha.
  destruct (archived_same k b (with_dedupe b m) Ha) as [Ha2 Hm]; [done..|]. by eapply tracked_store.
Qed.

Lemma check_dedupe_tracked k e name key now :
  tracked n0 e0 k e → is_Some (e_topics e !! name) →
  ∃ e1 hit b, check_dedupe name key now e = (e1, Ok hit) ∧ tracked n0 e0 k e1 ∧
    e_topics e1 !! name = Some b ∧ e_now e1 = e_now e.
Proof.
  intros Htr [b Hb]. unfold check_dedupe. destruct key as [key|]; [|by exists e, None, b].
  rewrite (bind_ok _ _ e e b) by (unfold topic_ref; by rewrite Hb).
  eexists _, _, _. split; [done|]. split_and!; [by apply dedupe_tracked| |done].
  simpl. apply lookup_insert_eq.
Qed.

(** The end of a write. *)
Lemma finish_write_tracked k e name key seqs head now b (r : WriteResponse) :
  tracked n0 e0 k e → e_topics e !! name = Some b →
  tracked n0 e0 k ((_ ← record_dedupe name key seqs head now; _ ← mark_topic_dirty name; mret r) e).1.
Proof.
  intros Htr Hb. assert (∃ e1 b1, record_dedupe name key seqs head now e = (e1, Ok tt) ∧
    tracked n0 e0 k e1 ∧ e_topics e1 !! name = Some b1) as (e1 & b1 & Hrun & Htr1 & Hb1).
  { unfold record_dedupe. destruct key as [key|]; [|by exists e, b].
    rewrite (bind_ok _ _ e e b) by (unfold topic_ref; by rewrite Hb).
    eexists _, _. split; [done|]. split; [by apply dedupe_tracked|]. simpl. apply lookup_insert_eq. }
  rewrite (bind_ok _ _ _ _ _ Hrun). unfold mark_topic_dirty.
  set (e2 := set_sched e1 (mark_dirty_fast name (effective_priority (e_now e1) b1) (e_sched e1))).
  rewrite (bind_ok _ _ e1 e2 tt); [|by rewrite (bind_ok _ _ e1 e1 b1) by (unfold topic_ref; by rewrite Hb1)].
  by apply (tracked_quiet k e1 e2).
Qed.

Lemma write_tracked k e name req return_seqs :
  tracked n0 e0 k e → k < HISTORY_LIMIT →
  (wq_create req = Some false ∨ ∃ c, wq_config req = Some c ∧ archival c) →
  tracked n0 e0 (k + 1) (write name req return_seqs e).1.
Proof.
  intros Htr Hk Hreq. assert (Hweak : ∀ e, tracked n0 e0 k e → tracked n0 e0 (k + 1) e).
  { intros e1. apply tracked_weaken. lia. }
  unfold write. rewrite (bind_ok eget _ e e e) by done.
  destruct (validate_write req (e_now e)) as [stored|c] eqn:Hval; [|by apply Hweak].
  apply validate_write_ok in Hval as Hok.
  destruct (resolve_tracked k e name req Htr Hreq) as (Htr1 & Hnow1 & Hsome).
  destruct (resolve_topic name req e) as [e1 [created|c]] eqn:Hrun; simpl in Htr1, Hnow1, Hsome;
    [rewrite (bind_ok _ _ _ _ _ Hrun)|rewrite (bind_err _ _ _ _ _ Hrun); by apply Hweak].
  destruct (check_dedupe_tracked k e1 name (wq_idempotency_key req) (e_now e) Htr1 Hsome)
    as (e2 & hit & b & Hrun2 & Htr2 & Hb & Hnow2). rewrite (bind_ok _ _ _ _ _ Hrun2).
  destruct hit as [entry|]; [by apply Hweak|].
  pose proof (tracked_archived _ _ _ _ Htr2 Hb) as Ha.
  rewrite (bind_ok _ _ e2 e2 tt) by (apply (retention_archival _ _ _ b); [done|apply Ha]).
  rewrite (bind_ok _ _ e2 e2 b) by (unfold topic_ref; by rewrite Hb).
  destruct (check_admission _ _ _) as [[]|c]; [|by apply Hweak].
  rewrite <-Hnow1, <-Hnow2 in *.
  destruct (append_tracked k e2 name b stored Htr2 Hk Hb Hok) as (e3 & res & b3 & Hrun3 & Htr3 & Hb3).
  destruct res as [seqs|c]; [rewrite (bind_ok _ _ _ _ _ Hrun3)|by rewrite (bind_err _ _ _ _ _ Hrun3)].
  rewrite (bind_ok _ _ e3 e3 b3) by (unfold topic_ref; by rewrite Hb3).
  pose proof (tracked_archived _ _ _ _ Htr3 Hb3) as Ha3. cbv zeta.
  rewrite (bind_ok _ _ e3 e3 tt) by (apply (retention_archival _ _ _ b3); [done|apply Ha3]).
  by eapply finish_write_tracked.
Qed.

(** *** Deletes *)
Lemma matchsel_roundtrip (f : option Filter) : matchsel_to_filter <$> (filter_to_matchsel <$> f) = f.
Proof. by destruct f as [[[] ?]|]. Qed.

(** The same delete on a live topic and on its replayed counterpart. *)
Lemma delete_matches k b b' before match_ now now' :
  archived k b → archived k b' → matches b b' → u64_opt before →
  let bound := Some (b_head_seq b + 1) in
  let b1 := (apply_delete_stats b before match_ bound now).1 in
  let b1' := (apply_delete_stats b' before match_ bound now').1 in
  archived k b1 ∧ archived k b1' ∧ matches b1 b1' ∧ b_topic_id b1 = b_topic_id b ∧ b_name b1 = b_name b.
Proof.
  intros [Hst Ha Hh Hr Hb Hpl] [Hst' Ha' Hh' Hr' Hb' Hpl'] (Hid & Hc & Hhd & Hv) Hu bound b1 b1'.
  pose proof (tw_head_lo _ (st_wf _ Hst)). pose proof (tw_seq_base _ (st_wf _ Hst)).
  destruct (archival_delete b before match_ bound now Hst Ha Hu) as (Hs1 & Hh1 & Hi1 & Hb1 & Hv1);
    [simpl; lia|intros x [= <-]; lia|].
  destruct (archival_delete b' before match_ bound now' Hst' Ha' Hu) as (Hs1' & Hh1' & Hi1' & Hb1' & Hv1');
    [simpl; lia|intros x [= <-]; lia|]. fold b1 in Hs1, Hh1, Hi1, Hb1, Hv1.
  fold b1' in Hs1', Hh1', Hi1', Hb1', Hv1'.
  injection Hi1 as Hnm1 Hid1 _ Hc1 _ Hr1. injection Hi1' as _ Hid1' _ Hc1' _ Hr1'.
  assert (Hview : ∀ x y bd s r, (∀ s r, view x s = Some r → plain r) →
    view y s = match view x s with
               | Some r => if del_selects match_ bd s r then None else Some r
               | None => None
               end → view y s = Some r → plain r).
  { intros x y bd s r Hx -> Hy. destruct (view x s) eqn:E; [|done].
    destruct (del_selects _ _ _ _); [done|]. simplify_eq. by eapply Hx. }
  split_and!; [split; [done|by rewrite Hc1|lia|lia|lia|eauto]|split; [done|by rewrite Hc1'|lia|lia|lia|eauto]| |done|done].
  split_and!; [congruence..|]. intros s. rewrite Hv1, Hv1', Hv.
  by replace (delete_bound b' before bound) with (delete_bound b before bound) by done.
Qed.

Lemma delete_tracked k e name req :
  tracked n0 e0 k e → u64_opt (dq_before_seq req) →
  tracked n0 e0 k (delete_records name req e).1.
Proof.
  intros Htr Hu. unfold delete_records. destruct (_ && _); [done|].
  rewrite (bind_ok _ _ e e (e_topics e !! name)) by done.
  pose proof (tk_log _ _ _ _ Htr) as (log & Hw & _).
  pose proof (tracked_topic k e log name Htr Hw) as (Hdr & Hgr & Hn).
  destruct (e_topics e !! name) as [b|] eqn:Hb; [|done]. destruct Hn as (b' & Hb' & Harc & Harc' & Hmt).
  rewrite (bind_ok eget _ e e e) by done. cbv zeta.
  rewrite (bind_ok _ _ e e tt) by (apply (retention_archival _ _ _ b); [done|apply Harc]).
  rewrite (bind_ok _ _ e e b) by (unfold topic_ref; by rewrite Hb).
  destruct (ar_config _ _ Harc) as (_ & _ & _ & Hd). rewrite Hd.
  rewrite (bool_decide_eq_false_2 (Fsync = Ephemeral)), (bool_decide_eq_true_2 (Fsync = Fsync)) by done.
  pose proof (tw_head_hi _ (st_wf _ (ar_settled _ _ Harc))). rewrite sat_add_exact by lia.
  set (fr := WalRecord.Delete _ _ _ _ _ _).
  destruct (submit_run fr e log Hw (tk_oracle _ _ _ _ Htr)) as (e1 & res & Hrun & Hse & Ht & Hw1).
  destruct res as [[]|c]; [rewrite (bind_ok _ _ _ _ _ Hrun)|rewrite (bind_err _ _ _ _ _ Hrun)]; cycle 1.
  { apply (tracked_quiet k e e1); [done..|by rewrite Hw1, Hw]. }
  pose proof (delete_matches k b b' (dq_before_seq req) (dq_match req) (e_now e)
    (as_i64 (ts_of (e_now e))) Harc Harc' Hmt Hu) as (Ha1 & Ha1' & Hm1 & Hid1 & Hnm1).
  set (bd := (apply_delete_stats b' _ _ _ _).1) in Ha1', Hm1.
  destruct (apply_delete_stats b _ _ _ _) as [b1 stats]. simpl in Ha1, Hm1, Hid1, Hnm1.
  set (e2 := set_topics e1 (<[name := b1]> (e_topics e1))).
  rewrite (bind_ok _ _ e1 e2 tt) by done.
  destruct (release_run true (ds_bytes_freed stats) e2) as (m & Hrel).
  rewrite (bind_ok _ _ e2 _ tt Hrel). simpl.
  eapply (tracked_logged k k e _ log _ name (Some b1) (Some bd));
    [done|done|destruct Hse; by split|done|simpl; done|simpl; by rewrite Ht| |done|].
  - intros ? [= <-]. rewrite Hid1, Hnm1.
    split; [destruct Hse; pose proof (tk_fresh _ _ _ _ Htr _ _ Hb); simpl; lia|].
    split; [by apply (tk_named _ _ _ _ Htr)|].
    intros n' b2 Hne Hb2 Heq. apply Hne. by eapply (tk_distinct _ _ _ _ Htr).
  - replay_one. unfold fr. destruct Hmt as (Hid & _). rewrite <-Hid. unfold replay_frame.
    rewrite (on_topic_run _ _ name b') by (done || apply Harc'). unfold replay_delete.
    rewrite matchsel_roundtrip. done.
Qed.

(** *** Topic deletion *)
Lemma delete_topic_tracked k e name if_empty :
  tracked n0 e0 k e → tracked n0 e0 k (delete_topic name if_empty e).1.
Proof.
  intros Htr. unfold delete_topic. rewrite (bind_ok _ _ e e (e_topics e !! name)) by done.
  pose proof (tk_log _ _ _ _ Htr) as (log & Hw & _).
  pose proof (tracked_topic k e log name Htr Hw) as (Hdr & Hgr & Hn).
  destruct (e_topics e !! name) as [b|] eqn:Hb; [|done]. destruct Hn as (b' & Hb' & Harc & _ & _).
  rewrite (bind_ok eget _ e e e) by done.
  set (guard := if if_empty then _ else _).
  assert (Hguard : guard e = (e, Ok tt) ∨ ∃ c, guard e = (e, Err c)).
  { unfold guard. destruct if_empty; [|by left].
    rewrite (bind_ok _ _ e e tt) by (apply (retention_archival _ _ _ b); [done|apply Harc]).
    rewrite (bind_ok _ _ e e b) by (unfold topic_ref; by rewrite Hb).
    destruct (b_live_count b =? 0); [by left|right; by eexists]. }
  destruct Hguard as [Hg|[c Hg]]; [rewrite (bind_ok _ _ _ _ _ Hg)|by rewrite (bind_err _ _ _ _ _ Hg)].
  rewrite (bind_ok _ _ e e b) by (unfold topic_ref; by rewrite Hb). cbv zeta.
  rewrite (tk_routers _ _ _ _ Htr). change (routers_touching_topic graph_new name) with (@nil string).
  set (fr := WalRecord.TopicConfig _ _ _ _).
  destruct (wal_log_run fr e log Hw (tk_oracle _ _ _ _ Htr)) as (e1 & res & Hrun & Hse & Ht & _ & Hw1).
  destruct res as [[]|c]; [rewrite (bind_ok _ _ _ _ _ Hrun)|rewrite (bind_err _ _ _ _ _ Hrun)]; cycle 1.
  { apply (tracked_quiet k e e1); [done..|by rewrite Hw1, Hw]. }
  rewrite (bind_ok _ _ e1 e1 tt) by done.
  set (e2 := set_topics e1 (delete name (e_topics e1))). rewrite (bind_ok _ _ e1 e2 tt) by done.
  set (e3 := set_topic_count e2 (e_topic_count e2 - 1)). rewrite (bind_ok _ _ e2 e3 tt) by done.
  destruct (release_run true (b_bytes_retained b) e3) as (m & Hrel).
  rewrite (bind_ok _ _ e3 _ tt Hrel). simpl.
  eapply (tracked_logged k k e _ log _ name None None);
    [done|done|destruct Hse as [? Hr ? ?]; split; [done| |done|done]|done|simpl; done|simpl; by rewrite Ht
    |done|done|].
  - simpl. rewrite Hr, (tk_routers _ _ _ _ Htr). done.
  - replay_one. unfold fr. simpl. unfold remove_topic_for_recovery. rewrite (bind_ok eget _ _ _ _ eq_refl).
    rewrite Hb'. simpl. split; [done|]. by rewrite Hgr.
Qed.
End durability.

(** ** Histories *)
Section histories.
Context {V : Type} `{!JsonNull V} `{!Serde V} `{!SerdeLaws V} `{!Powf}.
Implicit Types (e : Engine V).

Inductive Request :=
  | RqPut (name : string) (config : TopicConfig)
  | RqWrite (name : string) (req : WriteRequest V) (return_seqs : bool)
  | RqDelete (name : string) (req : DeleteRequest)
  | RqDeleteTopic (name : string) (if_empty : bool)
  | RqClock (now : Z).

Definition run_request (rq : Request) e : Engine V :=
  match rq with
  | RqPut name config => (put_topic name config e).1
  | RqWrite name req rs => (write name req rs e).1
  | RqDelete name req => (delete_records name req e).1
  | RqDeleteTopic name if_empty => (delete_topic name if_empty e).1
  | RqClock now => set_now e now
  end.

Definition run_requests (rqs : list Request) e : Engine V := foldl (flip run_request) e rqs.

(** Topics are created unlimited and [fsync]; numbers fit their widths. *)
Definition request_ok (rq : Request) : Prop :=
  match rq with
  | RqPut _ config => archival config
  | RqWrite _ req _ => wq_create req = Some false ∨ ∃ c, wq_config req = Some c ∧ archival c
  | RqDelete _ req => u64_opt (dq_before_seq req)
  | RqDeleteTopic _ _ => True
  | RqClock now => 0 <= now < 2 ^ 63
  end.

(** An engine that holds nothing yet. *)
Definition blank e : Prop := e_topics e = ∅ ∧ e_routers e = graph_new.

(** The frames of a log, as the WAL writes them. *)
Definition frames_of (log : list (WalRecord.t * bool)) : list WalFrame :=
  (λ f, mkWalFrame f.1 f.2) <$> log.

(** Two registries hold the same topics with the same records. *)
Definition same_registry (ts ts' : gmap string (TopicState V)) : Prop :=
  ∀ n, match ts !! n, ts' !! n with
       | Some b, Some b' => matches b b'
       | None, None => True
       | _, _ => False
       end.

Lemma run_request_tracked n0 e0 k e rq :
  tracked n0 e0 k e → k < HISTORY_LIMIT → request_ok rq → tracked n0 e0 (k + 1) (run_request rq e).
Proof.
  intros Htr Hk Hok. assert (Hweak : ∀ e, tracked n0 e0 k e → tracked n0 e0 (k + 1) e).
  { intros e1. apply tracked_weaken. lia. }
  destruct rq as [name config|name req rs|name req|name if_empty|now]; simpl in *.
  - by apply Hweak, put_topic_tracked.
  - by apply write_tracked.
  - by apply Hweak, delete_tracked.
  - by apply Hweak, delete_topic_tracked.
  - apply Hweak. destruct Htr. by split.
Qed.

Lemma run_requests_tracked n0 e0 rqs k e :
  tracked n0 e0 k e → k + Z.of_nat (length rqs) <= HISTORY_LIMIT → Forall request_ok rqs →
  tracked n0 e0 (k + Z.of_nat (length rqs)) (run_requests rqs e).
Proof.
  revert k e. induction rqs as [|rq rqs IH]; intros k e Htr Hk Hok; simpl in *; [by rewrite Z.add_0_r|].
  apply Forall_cons in Hok as [Hrq Hok].
  replace (k + Z.of_nat (S (length rqs))) with ((k + 1) + Z.of_nat (length rqs)) by lia.
  apply IH; [apply run_request_tracked; [done|lia|done]|lia|done].
Qed.

Lemma blank_tracked e0 e :
  blank e → blank e0 → e_wal e = Some [] → 0 <= e_now e < 2 ^ 63 → CommitFailed ∉ e_oracle e →
  tracked 0 e0 0 e.
Proof.
  intros [Ht Hr] [Ht0 Hr0] Hw Hnow Ho. split; try done.
  - intros n b. by rewrite Ht, lookup_empty.
  - intros n n' b b'. by rewrite Ht, lookup_empty.
  - intros n b. by rewrite Ht, lookup_empty.
  - exists []. split_and!; [done|done|done|]. intros n. simpl. by rewrite Ht, Ht0, !lookup_empty.
Qed.

(** After the replay of such a log, recovery has nothing left to do. *)
Lemma recover_tracked n0 k e0 e log :
  tracked n0 e0 k e → e_wal e = Some log → same_registry (e_topics e) (e_topics (recover (drop n0 log).*1 e0)).
Proof.
  intros Htr Hw. pose proof (tk_log _ _ _ _ Htr) as (log' & Hw' & _ & Hg & Hm).
  assert (log' = log) as -> by congruence. unfold recover, reforward_routers_on_recovery.
  rewrite (bind_ok eget _ _ _ _ eq_refl). set (er := replay_frames (drop n0 log).*1 e0) in *.
  change (e_routers (apply_head_watermarks er)) with (e_routers er). rewrite Hg.
  change (rt_name <$> graph_iter graph_new) with (@nil string).
  change ((reforward_loop 65 [] (apply_head_watermarks er)).1) with (apply_head_watermarks er).
  intros n. specialize (Hm n). unfold apply_head_watermarks. cbn [e_topics set_topics]. rewrite lookup_fmap.
  destruct (e_topics e !! n) as [b|], (e_topics er !! n) as [b'|]; try done.
  destruct Hm as (_ & Ha & Hb). simpl. pose proof (ar_reserved _ _ Ha).
  by rewrite (proj2 (Z.ltb_ge _ _)) by lia.
Qed.

(** C2. Every acknowledged request survives a crash.  Start from an engine with
    an empty WAL and run any history of topic creations and updates, writes,
    deletes, topic deletions and clock changes over unlimited [fsync] topics; the
    WAL may refuse any of the frames, but does not lose one it has accepted.  Then
    recovering from the bytes of that WAL, followed by anything that does not
    decode as a frame (a frame cut short, preallocated zeros), rebuilds exactly
    the live registry: the same topics with the same ids, configs, heads and
    records. *)
Theorem acked_requests_recovered (crc : bytes → Z) (e e0 : Engine V) (rqs : list Request)
    (log : list (WalRecord.t * bool)) (tail : bytes) :
  (∀ x, is_u64 (crc x)) →
  blank e → blank e0 → e_wal e = Some [] → 0 <= e_now e < 2 ^ 63 → CommitFailed ∉ e_oracle e →
  Forall request_ok rqs → Z.of_nat (length rqs) <= HISTORY_LIMIT →
  e_wal (run_requests rqs e) = Some log → frames_ok (frames_of log) → decode_one crc tail = Torn →
  same_registry (e_topics (run_requests rqs e))
    (e_topics (recover (wf_record <$> (wal_read crc (encode_all crc (frames_of log) ++ tail)).1) e0)).
Proof.
  intros Hcrc He He0 Hw Hnow Ho Hok Hlen Hlog Hfr Htail.
  pose proof (run_requests_tracked 0 e0 rqs 0 e (blank_tracked e0 e He He0 Hw Hnow Ho) ltac:(lia) Hok) as Htr.
  rewrite wal_read_all by done. unfold frames_of. simpl. rewrite <-list_fmap_compose.
  by apply (recover_tracked 0 _ _ _ log Htr).
Qed.
End histories.

(** ** Concrete histories *)
Module DurabilitySamples.
Import JsonSample WalSamples.
#[local] Instance unit_pow : Powf := λ q, q.

Definition fsync_config : TopicConfig :=
  set_durability default_config (Some Fsync) true.

Definition engine_with (oracle : list WalOutcome) : Engine Json :=
  mkEngine ∅ 0 1 0 0 0 (Some []) oracle 1000 0 graph_new sched_new.

Definition record_in (tag : string) (n : Z) : RecordIn Json := mkRecordIn (JNumber n) (Some tag) None None.
Definition write_of (recs : list (RecordIn Json)) : WriteRequest Json :=
  mkWriteRequest recs None None (Some false) None.

(** A topic with a batch, a refused write, a delete by tag and another write. *)
Definition sample_requests : list (Request (V := Json)) :=
  [RqPut "orders" fsync_config; RqWrite "orders" (write_of [record_in "a" 1; record_in "b" 2]) true;
   RqClock 2000; RqWrite "orders" (write_of [record_in "c" 3]) true;
   RqDelete "orders" (mkDeleteRequest None (Some (mkFilter FilterOp.Eq "a")));
   RqWrite "orders" (write_of [record_in "d" 4]) true].
Definition sample_oracle : list WalOutcome := [Committed; Committed; SubmitFull].
Definition sample_engine : Engine Json := run_requests sample_requests (engine_with sample_oracle).
Definition sample_log : list (WalRecord.t * bool) :=
  Eval vm_compute in default [] (e_wal sample_engine).

Lemma sample_log_ok : frames_ok (frames_of sample_log).
Proof. repeat constructor; by vm_compute. Qed.

Definition topic_of (e : Engine Json) (name : string) : TopicState Json :=
  default (topic_new name 0 default_config 1 1) (e_topics e !! name).

Lemma acked_requests_recovered_witness :
  same_registry (e_topics sample_engine)
    (e_topics (recover (wf_record <$>
       (wal_read sum_crc (encode_all sum_crc (frames_of sample_log) ++ replicate 5 Byte.x00)).1)
       (engine_with []))) ∧
  map (λ s, bool_decide (is_Some (view (topic_of sample_engine "orders") s))) [1; 2; 3; 4] =
    [false; true; true; false].
Proof.
  split; [|by vm_compute].
  apply (acked_requests_recovered sum_crc (engine_with sample_oracle) (engine_with []) sample_requests
    sample_log (replicate 5 Byte.x00)).
  - apply sum_crc_u64.
  - done.
  - done.
  - done.
  - by vm_compute.
  - vm_compute. set_solver.
  - repeat constructor; simpl; auto; by vm_compute.
  - by vm_compute.
  - by vm_compute.
  - apply sample_log_ok.
  - by vm_compute.
Defined.

(** A write whose commit fails, then one that is acknowledged. *)
Definition gap_requests : list (Request (V := Json)) :=
  [RqPut "orders" fsync_config; RqWrite "orders" (write_of [record_in "a" 1]) true;
   RqWrite "orders" (write_of [record_in "b" 2]) true].
Definition gap_engine : Engine Json := run_requests gap_requests (engine_with [Committed; CommitFailed]).
Definition logged (e : Engine Json) : list WalRecord.t := (default [] (e_wal e)).*1.

(** Why the commit failures are excluded: a failed commit leaves a hole in the
    seqs of the live topic but no frame, so replay drops every later frame of the
    topic as a jump.  Here the second write is acknowledged with seq 2 and visible
    in the live topic; after recovery the topic is empty. *)
Example failed_commit_loses_acked_write :
  (write "orders" (write_of [record_in "b" 2]) true
     (run_requests (take 2 gap_requests) (engine_with [Committed; CommitFailed]))).2 =
    Ok (write_response [2] 2 true false false) ∧
  is_Some (view (topic_of gap_engine "orders") 2) ∧
  let recovered := topic_of (recover (logged gap_engine) (engine_with [])) "orders" in
  b_head_seq recovered = 0 ∧ view recovered 2 = None.
Proof. split; [by vm_compute|]. split; [eexists; by vm_compute|]. split; by vm_compute. Qed.

(** A topic that is deleted and created again under the same name. *)
Definition reuse_requests : list (Request (V := Json)) :=
  [RqPut "orders" fsync_config; RqWrite "orders" (write_of [record_in "old" 1]) true;
   RqDeleteTopic "orders" false;
   RqPut "orders" fsync_config; RqWrite "orders" (write_of [record_in "new" 2]) true].
Definition reuse_engine : Engine Json := run_requests reuse_requests (engine_with []).

(** A hash that sends the id of the first topic to shard 1 and that of the second
    to shard 0. *)
Definition swap_hash (id : Z) : Z := id.

(** With two WAL shards, replay runs shard by shard, and a topic's deletion
    frame names the topic it deletes: when a topic is deleted and recreated under
    the same name and the two ids hash to different shards, recovery removes the
    recreated topic with its acknowledged records and brings the deleted ones back
    under a made-up name. *)
Example sharded_replay_loses_recreated_topic :
  is_Some (view (topic_of reuse_engine "orders") 1) ∧ e_topics reuse_engine !! "topic-1"%string = None ∧
  let recovered := recover (shard_order swap_hash 2 (logged reuse_engine)) (engine_with []) in
  e_topics recovered !! "orders"%string = None ∧
  r_data <$> view (topic_of recovered "topic-1") 1 = Some (JNumber 1).
Proof. split; [eexists; by vm_compute|]. split; [by vm_compute|]. split; by vm_compute. Qed.
End DurabilitySamples.
