(* ===== verification/Snapshot.v ===== *)
(** * Snapshots of the engine

    Models [src/engine/snapshot.rs]: the capture of the registry and the routers
    into a snapshot, with its flush barrier, and the restore of a snapshot into a
    fresh engine.  The WAL positions a snapshot records are an argument of the
    capture, and so are the payloads that a topic's segments give for its freed slots
    ([capture_box] takes them from the files).

    [snapshot_topic_roundtrip]: a restored topic shows the records of the captured
    one, freed payloads included, when the reads of its segments succeed;
    [failed_read_captures_null] shows what happens otherwise.  [checkpointed_recovery]: restoring a snapshot and replaying the frames
    logged after it rebuilds the live registry, when no topic ends in deleted
    records at the snapshot.  [restored_topic_reuses_seq] shows why that is needed. *)

From stdpp Require Import base gmap list strings.
From S2P Require Import Bytes Segment SegWriter Seam Reclaim.
From S2P Require Import Prelude Types Eviction TopicIndex QueueProjection TopicState TopicLog.
From S2P Require Import Bytes Wal Json Router Sched Engine EngineLogic Forward Api Recovery.
From S2P Require Import EngineSpec SnapshotStore Durability.

(** ** Capture *)

(** [router_to_snapshot] *)
Definition router_to_snapshot (r : Router) (cursor total base : Z) : SnapshotRouter :=
  mkSnapRouter (rt_name r) (rt_source r) (rt_dest r) (rt_preserve_node r) (rt_preserve_tag r)
    (rt_create_dest r) (rt_allow_cycle r) (bool_decide (rt_guarantee r = ExactlyOnce))
    ((λ f, (match f_op f with FilterOp.Eq => 0 | FilterOp.Glob => 1 end, f_value f)) <$> rt_filter r)
    cursor total base.

Section capture.
Context {V : Type} `{!JsonNull V} `{!Serde V}.
Implicit Types (b : TopicState V) (e : Engine V).

(** One captured record; a freed payload is what [resolve_sealed_off_lock] gives for the
    seq, [sealed]. *)
Definition capture_record (sealed : Z → V * option V) (seq : Z) (r : StoredRecord V) : SnapshotRecord :=
  let '(data, meta) := if r_payload_resident r then (r_data r, r_meta r) else sealed seq in
  mkSnapRecord seq (r_ts r) (r_node r) (r_tag r) (json_to_vec data) (json_to_vec <$> meta) (r_bytes r).

(** The live slots up to the head. *)
Fixpoint capture_slots (sealed : Z → V * option V) (seq head : Z) (recs : list (StoredRecord V)) : list SnapshotRecord :=
  match recs with
  | [] => []
  | r :: recs =>
      if r_deleted r then capture_slots sealed (seq + 1) head recs
      else if head <? seq then []
      else capture_record sealed seq r :: capture_slots sealed (seq + 1) head recs
  end.

(** [capture_topic] *)
Definition capture_topic (sealed : Z → V * option V) b : SnapshotTopic :=
  let config_json := config_to_vec (b_config b) in
  let head := b_head_seq b in
  if negb (uses_persistent_record_store (b_config b)) then
    mkSnapTopic (b_name b) (b_topic_id b) (b_epoch b) config_json (head +s 1) head 0 0 0 0 0 0 [] 0
  else
    let f := b_floors b in
    let ix := b_index b in
    mkSnapTopic (b_name b) (b_topic_id b) (b_epoch b) config_json (base_seq ix) head (evict_floor f)
      (expiry_floor f) (delete_floor f) (delete_below ix) (b_bytes_retained b) (b_live_count b)
      (capture_slots sealed (base_seq ix) head (records ix)) (source_trim_floor f).

(** A topic without a segment writer has no freed payloads to resolve. *)
Definition no_segments : Z → V * option V := λ _, (json_null, None).

(** [checkpoint_barrier_all]: a mark is submitted to each shard, then awaited. *)
Fixpoint checkpoint_barrier_all (shards : nat) (ok : bool) (now : Z) : EM V unit :=
  match shards with
  | O => if ok then mret tt else throw Internal
  | S shards =>
      o ← next_outcome;
      match o with
      | SubmitFull => throw Throttled
      | SubmitFailed => throw Internal
      | CommitFailed => checkpoint_barrier_all shards false now
      | Committed =>
          _ ← log_frames [(WalRecord.CheckpointMark 0 now, true)];
          checkpoint_barrier_all shards ok now
      end
  end.

(** The topics, each after a retention pass. *)
Fixpoint capture_topics (names : list string) : EM V (list SnapshotTopic) :=
  match names with
  | [] => mret []
  | name :: names =>
      e ← eget;
      _ ← enforce_retention_durable name (e_now e);
      b ← topic_ref name;
      rest ← capture_topics names;
      mret (capture_topic no_segments b :: rest)
  end.

(** [capture], for a WAL of [shards] writers whose positions after the barrier,
    with those of the leftover groups, are [keyed]. *)
Definition capture (id : Z) (shards : nat) (keyed : list (string * (Z * Z))) : EM V (option Snapshot) :=
  e ← eget;
  match e_wal e with
  | None => mret None
  | Some _ =>
      let now := ts_of (e_now e) in
      r ← attempt (checkpoint_barrier_all shards true now);
      match r with
      | Err _ => mret None
      | Ok _ =>
          let positions := keyed.*2 in
          let '(wal_idx, wal_offset) := default (0, 0) (head positions) in
          t ← attempt (capture_topics (map_to_list (e_topics e)).*1);
          match t with
          | Err _ => mret None
          | Ok topics =>
              e ← eget;
              let routers :=
                (λ p : Router * Z * Z * Z, let '(r, c, t, b) := p in router_to_snapshot r c t b)
                  <$> snapshot_all (e_routers e) in
              let max_seq := foldr (λ t acc, Z.max (snt_head_seq t) acc) 0 topics in
              mret (Some (mkSnapshot id now (e_next_topic_id e)
                            (mkCheckpoint wal_idx wal_offset max_seq positions keyed.*1) topics routers))
          end
      end
  end.

(** ** Restore *)

(** The record of a captured one; the forward hops are not part of it. *)
Definition restore_record (r : SnapshotRecord) : StoredRecord V :=
  mkRecord (snr_ts r) (snr_node r) (snr_tag r) (default json_null (json_from_slice (snr_data_json r)))
    (m ← snr_meta_json r; json_from_slice m) (snr_bytes r) false true 0.

(** One step of the loop over the records: holes up to the seq, then the record. *)
Definition restore_push (ix : TopicIndex V) (r : SnapshotRecord) : TopicIndex V :=
  let ix := pad_holes ix (snr_seq r - 1) in
  let m := match snr_tag r with
           | Some t => index_tag (snr_seq r) t (tag_index ix)
           | None => tag_index ix
           end in
  mkTopicIndex (base_seq ix) (records ix ++ [restore_record r]) m (delete_below ix).

(** [restore_topic] *)
Definition restore_topic (sb : SnapshotTopic) (config : TopicConfig) : TopicState V :=
  let b := topic_new (snt_name sb) (snt_topic_id sb) config SEQ_BASE (snt_epoch sb) in
  let ix := foldl restore_push (mkTopicIndex (snt_base_seq sb) [] ∅ (snt_delete_below sb)) (snt_records sb) in
  let b := with_index b ix in
  let b := with_floors b (mkFloors (snt_evict_floor sb) (snt_expiry_floor sb) (snt_delete_floor sb)
                            (snt_source_trim_floor sb)) in
  let b := set_reserved_head (with_head b (snt_head_seq sb)) (snt_head_seq sb) in
  with_counts b (snt_bytes_retained sb) (snt_live_count sb).

(** The router of a captured one. *)
Definition restore_router (sr : SnapshotRouter) : Router :=
  mkRouter (sro_name sr) (sro_source sr) (sro_dest sr) (sro_preserve_node sr) (sro_preserve_tag sr)
    (sro_create_dest sr)
    ((λ f : Z * string, mkFilter (if f.1 =? 0 then FilterOp.Eq else FilterOp.Glob) f.2) <$> sro_filter sr)
    (sro_allow_cycle sr) (if sro_exactly_once sr then ExactlyOnce else AtLeastOnce).

Definition restore_one e (sb : SnapshotTopic) : Engine V :=
  let b := restore_topic sb (default default_config (config_from_slice (snt_config_json sb))) in
  let e := match e_topics e !! b_name b with
           | None => set_topic_count e (e_topic_count e + 1)
           | Some _ => e
           end in
  set_total_bytes (set_topics e (<[b_name b := b]> (e_topics e))) (e_total_bytes_live e + b_bytes_retained b).

(** [restore] *)
Definition restore (snap : Snapshot) e : Engine V :=
  let e := set_next_topic_id e (sn_next_topic_id snap) in
  let e := foldl restore_one e (sn_topics snap) in
  set_routers e
    (foldl (λ g sr, graph_restore g (restore_router sr) (sro_forward_cursor sr) (sro_forwarded_total sr)
                      (sro_dest_base sr)) (e_routers e) (sn_routers snap)).
End capture.

(** ** A restored topic *)
Section restored.
Context {V : Type} `{!JsonNull V} `{!Serde V} `{!SerdeLaws V}.
Context (sealed : Z → V * option V).
Implicit Types (b : TopicState V) (ix : TopicIndex V) (r : StoredRecord V) (recs : list (StoredRecord V)).

(** What a record is after a snapshot: as it was, with its hops forgotten. *)
Definition restored r : StoredRecord V :=
  mkRecord (r_ts r) (r_node r) (r_tag r) (r_data r) (r_meta r) (r_bytes r) false true 0.

(** A record with its freed payload resolved. *)
Definition with_sealed (seq : Z) r : StoredRecord V :=
  if r_payload_resident r then r
  else mkRecord (r_ts r) (r_node r) (r_tag r) (sealed seq).1 (sealed seq).2 (r_bytes r) (r_deleted r) false (r_hops r).

Lemma restore_capture_record seq r : restore_record (capture_record sealed seq r) = restored (with_sealed seq r).
Proof.
  unfold capture_record, restore_record, with_sealed. destruct (r_payload_resident r), (sealed seq) as [data meta];
    cbn -[json_from_slice json_to_vec]; rewrite from_slice_to_vec; unfold restored; f_equal;
    [destruct (r_meta r)|destruct meta]; simpl; try done; apply from_slice_to_vec.
Qed.

Definition live r : option (StoredRecord V) := if r_deleted r then None else Some r.
Definition live_slot ix (s : Z) : option (StoredRecord V) := get ix s ≫= live.

Lemma view_live_slot b s :
  view b s = if (earliest_seq b <=? s) && (s <=? b_head_seq b) then live_slot (b_index b) s else None.
Proof. unfold view, live_slot. destruct (_ && _); [|done]. by destruct (get _ s). Qed.

(** One step of the restore is a push at the seq. *)
Lemma restore_push_spec ix seq r :
  index_wf ix → tail_seq ix <= seq → slot_ok r → r_deleted r = false →
  let sr := restore_record (capture_record sealed seq r) in
  let ix' := restore_push ix (capture_record sealed seq r) in
  index_wf ix' ∧ base_seq ix' = base_seq ix ∧ delete_below ix' = delete_below ix ∧
  tail_seq ix' = seq + 1 ∧ live_slots (records ix') = live_slots (records ix) + 1 ∧
  total_bytes (records ix') = total_bytes (records ix) + r_bytes r ∧
  ∀ s, live_slot ix' s = if s =? seq then Some sr else live_slot ix s.
Proof.
  intros Hwf Ht [Hby _] Hd sr ix'.
  destruct (pad_holes_fields ix (seq - 1) Hwf ltac:(lia)) as (Hpw & Hpt & Hpl & Hpb).
  assert (Hseq : snr_seq (capture_record sealed seq r) = seq).
  { unfold capture_record. by destruct (if r_payload_resident r then _ else _). }
  assert (Htag : snr_tag (capture_record sealed seq r) = r_tag sr).
  { unfold sr, restore_record, capture_record. by destruct (if r_payload_resident r then _ else _). }
  assert (Hbytes : r_bytes sr = r_bytes r).
  { unfold sr, restore_record, capture_record. by destruct (if r_payload_resident r then _ else _). }
  assert (Hix : ix' = push_record (pad_holes ix (seq - 1)) sr).
  { unfold ix', restore_push, push_record. rewrite Hseq, Htag, Hpt. by rewrite Z.sub_add. }
  assert (Hdel : r_deleted sr = false) by done.
  clearbody sr. rewrite Hix. pose proof (foldl_push_get [sr] (pad_holes ix (seq - 1))) as Hg.
  cbn [foldl] in Hg. split_and!; try done.
  - apply push_record_wf; [done|]. split; [lia|]. by rewrite Hdel.
  - rewrite push_record_tail. lia.
  - cbn [push_record records]. rewrite live_slots_app, live_slots_cons, Hdel. change (live_slots []) with 0. lia.
  - cbn [push_record records]. rewrite total_bytes_app. change (total_bytes [sr]) with (r_bytes sr + 0). lia.
  - intros s. unfold live_slot. rewrite Hg, Hpt, Z.sub_add, pad_holes_get.
    destruct (Z.ltb_spec s seq), (Z.eqb_spec s seq); try lia.
    + destruct (get ix s) as [r'|]; [done|]. by destruct (_ && _ && _).
    + subst s. rewrite Z.sub_diag. simpl. unfold live. by rewrite Hdel.
    + destruct (get ix s) as [r'|] eqn:E.
      { pose proof (proj1 (get_is_Some ix s) ltac:(eauto)). lia. }
      by destruct (Z.to_nat (s - seq)) eqn:En; [lia|].
Qed.

(** The restore of all captured slots. *)
Lemma restore_slots_spec recs ix seq head :
  index_wf ix → tail_seq ix <= seq → Forall slot_ok recs →
  seq + Z.of_nat (length recs) <= head + 1 →
  let ix' := foldl restore_push ix (capture_slots sealed seq head recs) in
  index_wf ix' ∧ base_seq ix' = base_seq ix ∧ delete_below ix' = delete_below ix ∧
  tail_seq ix' <= seq + Z.of_nat (length recs) ∧
  live_slots (records ix') = live_slots (records ix) + live_slots recs ∧
  total_bytes (records ix') = total_bytes (records ix) + total_bytes recs ∧
  (∀ r, last recs = Some r → r_deleted r = false → tail_seq ix' = seq + Z.of_nat (length recs)) ∧
  ∀ s, live_slot ix' s =
    if s <? seq then live_slot ix s
    else r ← recs !! Z.to_nat (s - seq); r ← live r; Some (restore_record (capture_record sealed s r)).
Proof.
  revert ix seq. induction recs as [|r recs IH]; intros ix seq Hwf Ht Hok Hhead; simpl in *.
  { split_and!; try done; try lia.
    - change (live_slots []) with 0. lia.
    - intros s. destruct (Z.ltb_spec s seq); [done|]. unfold live_slot.
      destruct (get ix s) eqn:E; [|done]. pose proof (proj1 (get_is_Some ix s) ltac:(eauto)). lia. }
  apply Forall_cons in Hok as [Hr Hok]. rewrite live_slots_cons.
  destruct (r_deleted r) eqn:Hd.
  - destruct (IH ix (seq + 1) Hwf ltac:(lia) Hok ltac:(lia)) as (H1 & H2 & H3 & H4 & H5 & H6 & H7 & H8).
    destruct Hr as [_ Hz]. destruct (Hz Hd) as [_ Hb0].
    split_and!; try done; try lia.
    + intros x Hx Hdx. destruct recs as [|y recs]; [simpl in Hx; congruence|].
      rewrite (H7 x Hx Hdx). simpl. lia.
    + intros s. rewrite H8. destruct (Z.ltb_spec s (seq + 1)), (Z.ltb_spec s seq); try lia; [done|..].
      * assert (s = seq) as -> by lia. rewrite Z.sub_diag. simpl. unfold live. rewrite Hd. simpl.
        unfold live_slot. destruct (get ix seq) eqn:E; [|done].
        pose proof (proj1 (get_is_Some ix seq) ltac:(eauto)). lia.
      * by replace (Z.to_nat (s - seq)) with (S (Z.to_nat (s - (seq + 1)))) by lia.
  - rewrite (proj2 (Z.ltb_ge head seq)) by lia. simpl.
    destruct (restore_push_spec ix seq r Hwf Ht Hr Hd) as (P1 & P2 & P3 & P4 & P5 & P6 & P7).
    destruct (IH _ (seq + 1) P1 ltac:(lia) Hok ltac:(lia)) as (H1 & H2 & H3 & H4 & H5 & H6 & H7 & H8).
    split_and!; try done; try congruence; try lia.
    + intros x Hx Hdx. destruct recs as [|y recs]; [simpl; lia|].
      rewrite (H7 x Hx Hdx). simpl. lia.
    + intros s. rewrite H8, P7. destruct (Z.ltb_spec s (seq + 1)), (Z.ltb_spec s seq), (Z.eqb_spec s seq);
        try lia; [done|..].
      * subst s. rewrite Z.sub_diag. simpl. unfold live. by rewrite Hd.
      * by replace (Z.to_nat (s - seq)) with (S (Z.to_nat (s - (seq + 1)))) by lia.
Qed.

(** The topic a snapshot gives back. *)
Definition reloaded b : TopicState V :=
  let sb := capture_topic sealed b in
  restore_topic sb (default default_config (config_from_slice (snt_config_json sb))).

(** No deleted record at the end of the index. *)
Definition tail_live b : Prop := ∀ r, last (records (b_index b)) = Some r → r_deleted r = false.

Lemma reloaded_fields b :
  uses_persistent_record_store (b_config b) = true →
  b_name (reloaded b) = b_name b ∧ b_topic_id (reloaded b) = b_topic_id b ∧
  b_config (reloaded b) = b_config b ∧ b_epoch (reloaded b) = b_epoch b ∧
  b_head_seq (reloaded b) = b_head_seq b ∧ b_floors (reloaded b) = b_floors b ∧
  b_bytes_retained (reloaded b) = b_bytes_retained b ∧ b_live_count (reloaded b) = b_live_count b ∧
  b_seq_base (reloaded b) = SEQ_BASE ∧ b_reserved_head (reloaded b) = Z.max 0 (b_head_seq b) ∧
  b_index (reloaded b) =
    foldl restore_push (mkTopicIndex (base_seq (b_index b)) [] ∅ (delete_below (b_index b)))
      (capture_slots sealed (base_seq (b_index b)) (b_head_seq b) (records (b_index b))).
Proof.
  intros Hp. unfold reloaded, capture_topic. rewrite Hp. cbn [negb snt_config_json].
  rewrite config_roundtrip. destruct (b_floors b). split_and!; done.
Qed.

Lemma empty_index_wf base below : 0 <= base → is_u64 below → index_wf (mkTopicIndex (V := V) base [] ∅ below).
Proof.
  intros Hb Hd. split; [done|constructor| |done]. split; cbn [tag_index records base_seq].
  - intros t l. by rewrite lookup_empty.
  - intros t. unfold postings. rewrite lookup_empty. constructor.
  - intros t s. unfold postings. rewrite lookup_empty. simpl. split; [by intros ?%elem_of_nil|].
    by intros (i & r & Hi & _).
Qed.

(** The index a snapshot gives back. *)
Lemma reloaded_index b :
  settled b → uses_persistent_record_store (b_config b) = true →
  let ix := b_index b in let ix' := b_index (reloaded b) in
  index_wf ix' ∧ base_seq ix' = base_seq ix ∧ delete_below ix' = delete_below ix ∧
  live_slots (records ix') = live_slots (records ix) ∧ total_bytes (records ix') = total_bytes (records ix) ∧
  (tail_live b → tail_seq ix' = tail_seq ix) ∧
  ∀ s, live_slot ix' s = r ← live_slot ix s; Some (restore_record (capture_record sealed s r)).
Proof.
  intros [Hwf Ht Hf] Hp ix ix'. pose proof (tw_index _ Hwf) as Hix.
  assert (Hix' : ix' = _) by apply (reloaded_fields b Hp).
  destruct (restore_slots_spec (records ix) (mkTopicIndex (base_seq ix) [] ∅ (delete_below ix)) (base_seq ix)
    (b_head_seq b)) as (H1 & H2 & H3 & H4 & H5 & H6 & H7 & H8).
  - apply empty_index_wf; apply Hix.
  - unfold tail_seq. simpl. lia.
  - apply Hix.
  - unfold tail_seq in Ht. fold ix in Ht. lia.
  - fold ix in Hix'. rewrite <-Hix' in *. change (live_slots (records (mkTopicIndex _ [] _ _))) with 0 in H5.
    change (total_bytes (records (mkTopicIndex _ [] _ _))) with 0 in H6. split_and!; try done; try lia.
    + intros Hl. unfold tail_seq at 2. destruct (last (records ix)) as [r|] eqn:E; [by apply (H7 r), Hl|].
      apply last_None in E. rewrite E in *. simpl in Hix' |- *. rewrite Hix'. done.
    + intros s. rewrite H8. unfold live_slot at 1 2, get. simpl.
      destruct (Z.ltb_spec s (base_seq ix)); [done|].
      by destruct (records ix !! Z.to_nat (s - base_seq ix)).
Qed.

Lemma reloaded_settled b :
  settled b → uses_persistent_record_store (b_config b) = true → tail_live b → settled (reloaded b).
Proof.
  intros Hst Hp Hl. destruct (reloaded_index b Hst Hp) as (H1 & H2 & H3 & H4 & H5 & H6 & _).
  destruct (reloaded_fields b Hp) as (_ & _ & _ & _ & Hh & Hfl & Hby & Hlc & Hsb & _ & _).
  destruct Hst as [[Hi Hs Hlo Hhi Hlv Hbt Hto Hfu Hd] Ht Hf]. specialize (H6 Hl).
  unfold published in *. rewrite take_ge in Hlv, Hbt by (unfold tail_seq in Ht; lia).
  split; [split|..]; unfold published; rewrite ?Hh, ?Hfl, ?Hby, ?Hlc, ?Hsb, ?H2, ?H3, ?H6, ?H5; try done;
    unfold SEQ_BASE in *; try lia.
  - rewrite take_ge by (unfold tail_seq in H6, Ht; lia). lia.
  - rewrite take_ge by (unfold tail_seq in H6, Ht; lia). lia.
Qed.

Lemma reloaded_view b s :
  settled b → uses_persistent_record_store (b_config b) = true →
  view (reloaded b) s = (λ r, restored (with_sealed s r)) <$> view b s.
Proof.
  intros Hst Hp. destruct (reloaded_index b Hst Hp) as (_ & H2 & _ & _ & _ & _ & H8).
  destruct (reloaded_fields b Hp) as (_ & _ & _ & _ & Hh & Hfl & _ & _ & Hsb & _ & _).
  assert (He : earliest_seq (reloaded b) = earliest_seq b).
  { unfold earliest_seq, floors_earliest_seq. rewrite Hh, Hfl, Hsb, H2.
    destruct Hst as [[Hi Hs Hlo Hhi _ _ _ (? & ? & ? & ?) _] Ht _].
    set (m := Z.max _ (source_trim_floor _)). assert (0 <= m) by (unfold is_u64 in *; lia). clearbody m.
    unfold SEQ_BASE, sat_add, u64_max in *. lia. }
  rewrite !view_live_slot, He, Hh, H8. destruct (_ && _); [|done].
  destruct (live_slot (b_index b) s) as [r|]; [|done]. simpl. f_equal. apply restore_capture_record.
Qed.
End restored.

(** ** Capturing a topic over its segments *)
Section segments.
Context {V : Type} `{!JsonNull V} `{!Serde V} (crc : bytes → Z).
Implicit Types (b : TopicState V) (w : SegmentWriter V) (t : TopicTier) (recs : list (StoredRecord V)).

(** The captured slots whose payload was freed. *)
Fixpoint freed_slots (seq head : Z) recs : list Z :=
  match recs with
  | [] => []
  | r :: recs =>
      if r_deleted r then freed_slots (seq + 1) head recs
      else if head <? seq then []
      else if r_payload_resident r then freed_slots (seq + 1) head recs
      else seq :: freed_slots (seq + 1) head recs
  end.

(** They are resolved one after the other, off the index lock. *)
Fixpoint read_slots (fault : Z → ReadFault) w t (seqs : list Z) : SegmentWriter V * gmap Z (V * option V) :=
  match seqs with
  | [] => (w, ∅)
  | seq :: seqs =>
      let '(w, p, _) := resolve_sealed_off_lock crc (fault seq) seq w t in
      let '(w, m) := read_slots fault w t seqs in
      (w, <[seq := p]> m)
  end.

(** [capture_topic] of a topic that has a segment writer, when no other operation runs
    during it: the writer after the reads, and the captured topic. *)
Definition capture_box (fault : Z → ReadFault) (x : SegBox V) : SegmentWriter V * SnapshotTopic :=
  let b := bx_topic x in
  if negb (uses_persistent_record_store (b_config b)) then (ts_writer (bx_segs x), capture_topic no_segments b)
  else
    let '(w, m) := read_slots fault (ts_writer (bx_segs x)) (ts_tier (bx_segs x))
      (freed_slots (base_seq (b_index b)) (b_head_seq b) (records (b_index b))) in
    (w, capture_topic (λ seq, default (json_null, None) (m !! seq)) b).
End segments.

(** ** The round trip of a topic *)
Section roundtrip.
Context {V : Type} `{!JsonNull V} `{!Serde V} `{!SerdeLaws V} (crc : bytes → Z).
Hypothesis crc_u64 : ∀ b, is_u64 (crc b).
Context (size : Z) (cfg : SegmentConfig).
Implicit Types (b m : TopicState V) (w : SegmentWriter V) (t : TopicTier) (recs : list (StoredRecord V)).

Lemma freed_slots_in recs : ∀ seq head s r,
  recs !! Z.to_nat (s - seq) = Some r → seq <= s <= head → r_deleted r = false → r_payload_resident r = false →
  s ∈ freed_slots seq head recs.
Proof.
  induction recs as [|r0 recs IH]; intros seq head s r Hi Hs Hd Hp; [done|]. simpl.
  destruct (decide (s = seq)) as [->|Hne].
  - rewrite Z.sub_diag in Hi. injection Hi as ->. rewrite Hd, Hp, (proj2 (Z.ltb_ge _ _)) by lia. by left.
  - assert (Hin : s ∈ freed_slots (seq + 1) head recs).
    { apply (IH _ _ _ r); [|lia|done|done]. replace (Z.to_nat (s - seq)) with (S (Z.to_nat (s - (seq + 1)))) in Hi by lia. done. }
    destruct (r_deleted r0); [done|]. rewrite (proj2 (Z.ltb_ge _ _)) by lia. destruct (r_payload_resident r0); [done|by right].
Qed.

(** Each read gives the payload of the log. *)
Lemma read_slots_spec seqs t L dead n : ∀ w,
  writer_inv crc size cfg w t L dead n →
  let '(w', m) := read_slots crc (λ _, ReadOk) w t seqs in
  ∀ s rec, s ∈ seqs → registered w s → s ∉ dead → L !! s = Some rec → m !! s = Some (decode_payload (sr_data rec)).
Proof.
  induction seqs as [|q seqs IH]; intros w Hw; [by intros s rec ?%not_elem_of_nil|]. cbn [read_slots].
  unfold resolve_sealed_off_lock. pose proof (resolve_inv crc size crc_u64 ReadOk cfg w t L dead n q Hw) as [Hw1 Hs1].
  assert (Hq : ∀ rec, registered w q → q ∉ dead → L !! q = Some rec →
    (resolve_sealed crc ReadOk w t q).2 = Some (decode_payload (sr_data rec))).
  { intros rec (seg & Hin & Hr) Hd HL. destruct (resolve_sealed_spec crc size crc_u64 ReadOk cfg w t L dead n seg q Hw Hin Hr)
      as (rec' & HL' & _ & Hok). assert (rec' = rec) as -> by congruence. by apply Hok. }
  destruct (resolve_sealed crc ReadOk w t q) as [w1 p]. simpl in Hw1, Hs1, Hq. specialize (IH w1 Hw1).
  destruct (read_slots crc _ w1 t seqs) as [w2 m]. intros s rec Hin Hreg Hd HL. destruct (decide (s = q)) as [->|Hne].
  - rewrite lookup_insert_eq. by rewrite (Hq rec Hreg Hd HL).
  - rewrite lookup_insert_ne by done. apply IH; [set_solver|unfold registered in *; by rewrite Hs1|done|done].
Qed.

Lemma same_tail_live b m : same b m → tail_live m → tail_live b.
Proof.
  intros Hs Hm r Hr. apply (f_equal (λ x, last (records (b_index x)))) in Hs. simpl in Hs. rewrite !fmap_last, Hr in Hs.
  destruct (last (records (b_index m))) as [mr|] eqn:E; [|done]. specialize (Hm mr E). by injection Hs as _ _ _ _ ->.
Qed.

(** C30. The snapshot of a topic over its segments gives back what the topic in memory
    shows.  Take a new persistent topic and a sequence of operations as in the theorem
    that the segments are transparent: appends, retention passes, deletes and source-trim
    holes that run to their end, relocations and reads in any interleaving and with any
    failures, and a segment kept below 4 GiB.  If the reads of the capture succeed and no
    other operation runs during it, then the restored topic has the name, id, config,
    epoch, head, floors and counters, and every record a reader could see with its payload,
    resident or freed, only its forward hops forgotten; and it is again ready for appends
    at the next seq when it did not end in deleted records. *)
Theorem snapshot_topic_roundtrip name id config seq_base epoch has_cold ops :
  config_ok size cfg → 1 <= seq_base <= u64_max → box_ops_ok crc size ops (topic_new name id config seq_base epoch) →
  let x := foldl (exec_box crc) (box_new name id config seq_base epoch cfg has_cold) ops in
  let m := foldl (λ m op, mem_op op m) (topic_new name id config seq_base epoch) ops in
  uses_persistent_record_store (b_config m) = true →
  let '(w', sb) := capture_box crc (λ _, ReadOk) x in
  let b' := restore_topic sb (default default_config (config_from_slice (snt_config_json sb))) in
  (b_name b', b_topic_id b', b_config b', b_epoch b', b_head_seq b') =
    (b_name m, b_topic_id m, b_config m, b_epoch m, b_head_seq m) ∧
  b_floors b' = b_floors m ∧ b_bytes_retained b' = b_bytes_retained m ∧ b_live_count b' = b_live_count m ∧
  (∀ s, view b' s = restored <$> view m s) ∧
  (tail_live m → settled b').
Proof.
  intros Hcfg Hb Hops x m Hp.
  assert (Hsim : sim crc size cfg x m) by (apply run_sim; [done..|by apply box_new_sim|done]).
  destruct Hsim as [Hs Hst _ (L & dead & [Hw _ _] & [Hsv _])]. clearbody x m. destruct x as [b seam [w t rl rs]]. simpl in Hs, Hw, Hsv, Hp.
  pose proof (same_settled b m Hs Hst) as Hsb. pose proof Hs as Hs0. unfold same in Hs0.
  assert (Hpb : uses_persistent_record_store (b_config b) = true) by (by apply (f_equal b_config) in Hs0; simpl in Hs0; rewrite Hs0).
  unfold capture_box. cbn [bx_topic bx_segs ts_writer ts_tier]. rewrite Hpb. cbn [negb].
  pose proof (read_slots_spec (freed_slots (base_seq (b_index b)) (b_head_seq b) (records (b_index b))) t L dead _ w Hw) as Hread.
  destruct (read_slots crc _ w t _) as [w' reads]. set (sealed := λ seq, default (json_null, None) (reads !! seq)).
  cbv zeta. fold sealed. change (restore_topic _ _) with (reloaded sealed b).
  destruct (reloaded_fields sealed b Hpb) as (-> & -> & -> & -> & -> & -> & -> & -> & _).
  split_and!; [exact (f_equal (λ y, (b_name y, b_topic_id y, b_config y, b_epoch y, b_head_seq y)) Hs0)|by apply (f_equal b_floors) in Hs0|by apply (f_equal b_bytes_retained) in Hs0|by apply (f_equal b_live_count) in Hs0| |].
  - intros s. rewrite reloaded_view by done. pose proof (same_view b m s Hs) as Hv.
    destruct (view b s) as [r|] eqn:Hr, (view m s) as [mr|] eqn:Hmr; try done. simpl. f_equal.
    apply (inj Some (strip r) (strip mr)) in Hv. destruct (Hsv s mr Hmr) as (HL & Hnd & r' & Hr' & Hslot).
    apply view_Some in Hr as (Hrange & Hg & Hdel). assert (r' = r) as -> by congruence.
    assert (Hpay : (r_data (with_sealed sealed s r), r_meta (with_sealed sealed s r)) = (r_data mr, r_meta mr)).
    { unfold with_sealed. destruct Hslot as [(-> & -> & ->)|(Hres & _ & _ & Hreg)]; [done|]. rewrite Hres. unfold sealed. simpl.
      rewrite (Hread s (stored_seg s mr)); [|..|done|done|done].
      - simpl. rewrite decode_payload_encode. done.
      - unfold get in Hg. destruct (Z.ltb_spec s (base_seq (b_index b))); [done|]. eapply freed_slots_in; [exact Hg|lia|done|done]. }
    injection Hpay as Hd1 Hd2. unfold restored. rewrite Hd1, Hd2. unfold with_sealed. injection Hv as ? ? ? ? ? ?.
    destruct (r_payload_resident r); simpl; congruence.
  - intros Htl. apply reloaded_settled; [done|done|]. by eapply same_tail_live.
Qed.
End roundtrip.

(** ** Recovery from a snapshot *)
Section checkpoint.
Context {V : Type} `{!JsonNull V} `{!Serde V} `{!SerdeLaws V} `{!Powf}.
Implicit Types (b : TopicState V) (e : Engine V).

Lemma archival_persistent c : archival c → uses_persistent_record_store c = true.
Proof. intros (_ & _ & _ & Hd). unfold uses_persistent_record_store. by rewrite Hd. Qed.

Lemma reloaded_archived k b :
  archived k b → tail_live b → archived k (reloaded no_segments b) ∧ matches b (reloaded no_segments b).
Proof.
  intros [Hst Hc Hh Hr Hb Hpl] Hl. pose proof (archival_persistent _ Hc) as Hp.
  destruct (reloaded_fields no_segments b Hp) as (_ & Hid & Hcf & _ & Hhd & _ & _ & _ & _ & Hrs & _).
  destruct (reloaded_index no_segments b Hst Hp) as (_ & _ & _ & _ & Hby & _).
  assert (Hv : ∀ s, view (reloaded no_segments b) s = view b s).
  { intros s. rewrite reloaded_view by done.
    destruct (view b s) as [r|] eqn:E; [|done]. simpl. f_equal. destruct (Hpl s r E) as [H1 H2].
    apply view_Some in E as (_ & _ & H3). unfold restored, with_sealed. rewrite H1. destruct r; simpl in *. by subst. }
  pose proof (tw_head_lo _ (st_wf _ Hst)). pose proof (tw_seq_base _ (st_wf _ Hst)).
  split; [|by split_and!]. split.
  - by apply reloaded_settled.
  - by rewrite Hcf.
  - by rewrite Hhd.
  - rewrite Hrs, Hhd. lia.
  - by rewrite Hby.
  - intros s r. rewrite Hv. apply Hpl.
Qed.

(** The topics of a list of captures. *)
Lemma restore_topics (l : list (string * TopicState V)) e x :
  NoDup l.*1 → (∀ n b, (n, b) ∈ l → b_name b = n ∧ uses_persistent_record_store (b_config b) = true) →
  e_topics (foldl restore_one e (capture_topic no_segments <$> l.*2)) !! x =
    match (list_to_map l : gmap string (TopicState V)) !! x with
    | Some b => Some (reloaded no_segments b)
    | None => e_topics e !! x
    end.
Proof.
  revert e. induction l as [|[n b] l IH]; intros e Hnd Hl; simpl; [by rewrite lookup_empty|].
  apply NoDup_cons in Hnd as [Hn Hnd]. destruct (Hl n b (list_elem_of_here _ _)) as [Hname Hp].
  rewrite IH; [|done|intros; apply Hl; by right].
  assert (Hone : e_topics (restore_one e (capture_topic no_segments b)) = <[n := reloaded no_segments b]> (e_topics e)).
  { unfold restore_one. fold (reloaded no_segments b). destruct (reloaded_fields no_segments b Hp) as (-> & _). rewrite Hname.
    by destruct (e_topics e !! n). }
  rewrite Hone. destruct (decide (x = n)) as [->|Hne].
  - rewrite lookup_insert_eq, not_elem_of_list_to_map_1 by done. by rewrite lookup_insert_eq.
  - by rewrite !lookup_insert_ne.
Qed.

Lemma restore_routers (snap : Snapshot) e :
  sn_routers snap = [] → e_routers (restore snap e) = e_routers e ∧
  e_topics (restore snap e) = e_topics (foldl restore_one (set_next_topic_id e (sn_next_topic_id snap)) (sn_topics snap)).
Proof.
  intros Hr. unfold restore. rewrite Hr. simpl. split; [|done].
  assert (∀ l e, e_routers (foldl restore_one e l) = e_routers e) as ->; [|done].
  induction l as [|sb l IH]; intros e1; simpl; [done|]. rewrite IH. unfold restore_one. simpl.
  by destruct (e_topics e1 !! _).
Qed.

Lemma capture_topics_run l e :
  (∀ n b, (n, b) ∈ l → e_topics e !! n = Some b ∧ archival (b_config b)) →
  capture_topics l.*1 e = (e, Ok (capture_topic no_segments <$> l.*2)).
Proof.
  induction l as [|[n b] l IH]; intros Hl; simpl; [done|].
  destruct (Hl n b (list_elem_of_here _ _)) as [Hb Ha].
  rewrite (bind_ok eget _ e e e) by done.
  rewrite (bind_ok _ _ e e tt) by (by eapply retention_archival).
  rewrite (bind_ok _ _ e e b) by (unfold topic_ref; by rewrite Hb).
  rewrite (bind_ok _ _ _ _ _ (IH ltac:(intros; apply Hl; by right))). done.
Qed.

Lemma barrier_run n ok now e log :
  e_wal e = Some log →
  ∃ e1 res marks, checkpoint_barrier_all n ok now e = (e1, res) ∧ same_env e e1 ∧
    e_topics e1 = e_topics e ∧ e_next_topic_id e1 = e_next_topic_id e ∧ e_wal e1 = Some (log ++ marks).
Proof.
  revert ok e log. induction n as [|n IH]; intros ok e log Hw; simpl.
  { exists e. destruct ok; eexists _, []; split_and!; try done; by rewrite app_nil_r. }
  unfold next_outcome. unfold mbind, EM_bind.
  assert (Hsuf : ∀ o os, e_oracle e = o :: os → same_env e (set_wal e (e_wal e) os)).
  { intros o os E. split; simpl; try done. rewrite E. by exists [o]. }
  assert (Hmark : ∀ e', same_env e e' → e_topics e' = e_topics e → e_next_topic_id e' = e_next_topic_id e →
    e_wal e' = Some log →
    ∃ e1 res marks, checkpoint_barrier_all n ok now
      (set_wal e' ((λ l, l ++ [(WalRecord.CheckpointMark 0 now, true)]) <$> e_wal e') (e_oracle e')) = (e1, res) ∧
      same_env e e1 ∧ e_topics e1 = e_topics e ∧ e_next_topic_id e1 = e_next_topic_id e ∧
      e_wal e1 = Some (log ++ marks)).
  { intros e' Hse Ht Hx Hw'. rewrite Hw'. simpl.
    edestruct (IH ok) as (e1 & res & marks & Hrun & Hse1 & Ht1 & Hx1 & Hw1);
      [|exists e1, res, ((WalRecord.CheckpointMark 0 now, true) :: marks); split_and!; [exact Hrun|..]].
    - simpl. reflexivity.
    - eapply same_env_trans; [done|]. eapply same_env_trans; [|done]. by split.
    - by rewrite Ht1, <-Ht.
    - by rewrite Hx1, <-Hx.
    - rewrite Hw1. by rewrite <-app_assoc. }
  destruct (e_oracle e) as [|o os] eqn:Ho; [by apply (Hmark e)|].
  specialize (Hsuf o os eq_refl). set (e' := set_wal e (e_wal e) os) in *.
  assert (Hstop : ∀ res : result ErrorCode unit, ∃ e1 res' marks, (e', res) = (e1, res') ∧ same_env e e1 ∧
    e_topics e1 = e_topics e ∧ e_next_topic_id e1 = e_next_topic_id e ∧ e_wal e1 = Some (log ++ marks)).
  { intros res. exists e', res, []. split_and!; try done. by rewrite app_nil_r. }
  destruct o; [by apply (Hmark e')|apply Hstop|apply Hstop|].
  destruct (IH false e' log Hw) as (e1 & res & marks & Hrun & Hse1 & Ht1 & Hx1 & Hw1).
  exists e1, res, marks. split_and!; try done. by eapply same_env_trans.
Qed.

(** A capture of a tracked engine: the snapshot stands for the log so far. *)
Lemma capture_tracked n0 e0 k e id shards keyed e2 snap e0' :
  tracked n0 e0 k e → capture id shards keyed e = (e2, Ok (Some snap)) → blank e0' →
  (∀ n b, e_topics e !! n = Some b → tail_live b) →
  ∃ log, e_wal e2 = Some log ∧ tracked (length log) (restore snap e0') k e2.
Proof.
  intros Htr Hcap [Ht0 Hr0] Htail. pose proof (tk_log _ _ _ _ Htr) as (log & Hw & _ & _ & Hm).
  revert Hcap. unfold capture. rewrite (bind_ok eget _ e e e) by done. rewrite Hw.
  destruct (barrier_run shards true (ts_of (e_now e)) e log Hw)
    as (e1 & res & marks & Hrun & Hse & Ht & Hx & Hw1).
  rewrite (bind_ok (attempt _) _ e e1 res) by (rewrite attempt_run, Hrun; done).
  destruct res as [[]|c]; [|done]. destruct (default (0, 0) (head keyed.*2)) as [wi wo].
  set (l := map_to_list (e_topics e)).
  assert (Hl : ∀ n b, (n, b) ∈ l → e_topics e1 !! n = Some b ∧ archived k b ∧ b_name b = n).
  { intros n b Hin%elem_of_map_to_list. rewrite Ht. split; [done|]. split; [|by apply (tk_named _ _ _ _ Htr)].
    specialize (Hm n). rewrite Hin in Hm. destruct (_ !! n); [apply Hm|done]. }
  rewrite (bind_ok (attempt _) _ e1 e1 (Ok (capture_topic no_segments <$> l.*2)))
    by (rewrite attempt_run, (capture_topics_run l); [done|]; intros n b Hin; destruct (Hl n b Hin) as (? & [] & ?); done).
  rewrite (bind_ok eget _ e1 e1 e1) by done. intros [= <- <-].
  destruct Hse as [Hn Hr Ho Hnx]. exists (log ++ marks). split; [done|].
  split; rewrite ?Hn, ?Hr, ?Ht, ?Hx; try apply Htr.
  { eapply suffix_no_fail; [done|apply Htr]. }
  exists (log ++ marks). split; [done|]. split; [done|]. rewrite drop_all.
  match goal with |- context [restore ?sn e0'] => set (snap := sn) end.
  change (replay_frames [].*1 (restore snap e0')) with (restore snap e0').
  assert (sn_routers snap = []) as Hro.
  { unfold snap. simpl. rewrite ?Hr, (tk_routers _ _ _ _ Htr). done. }
  destruct (restore_routers snap e0' Hro) as [-> ->]. split; [done|]. intros n.
  rewrite (restore_topics l).
  - unfold l. rewrite list_to_map_to_list. destruct (e_topics e !! n) as [b|] eqn:Hb.
    + assert (archived k b) as Ha by (apply (Hl n b), elem_of_map_to_list, Hb).
      destruct (reloaded_archived k b Ha (Htail n b Hb)). done.
    + simpl. by rewrite Ht0, lookup_empty.
  - apply NoDup_fst_map_to_list.
  - intros n' b Hin. destruct (Hl n' b Hin) as (_ & Ha & ?). split; [done|].
    apply archival_persistent, Ha.
Qed.

(** Restoring a snapshot and replaying only the frames logged after it rebuilds
    the live registry, provided no topic ended in deleted records when the snapshot
    was taken. *)
Lemma checkpointed_recovery (e e0 : Engine V) (rqs1 rqs2 : list Request) id shards keyed e2 snap log1 log2 :
  blank e → blank e0 → e_wal e = Some [] → 0 <= e_now e < 2 ^ 63 → CommitFailed ∉ e_oracle e →
  Forall request_ok (rqs1 ++ rqs2) → Z.of_nat (length (rqs1 ++ rqs2)) <= HISTORY_LIMIT →
  (∀ n b, e_topics (run_requests rqs1 e) !! n = Some b → tail_live b) →
  capture id shards keyed (run_requests rqs1 e) = (e2, Ok (Some snap)) →
  e_wal e2 = Some log1 → e_wal (run_requests rqs2 e2) = Some log2 →
  same_registry (e_topics (run_requests rqs2 e2))
    (e_topics (recover (drop (length log1) log2).*1 (restore snap e0))).
Proof.
  intros He He0 Hw Hnow Ho [Hok1 Hok2]%Forall_app Hlen Htail Hcap Hw1 Hw2.
  rewrite length_app in Hlen.
  pose proof (run_requests_tracked 0 e0 rqs1 0 e (blank_tracked e0 e He He0 Hw Hnow Ho) ltac:(lia) Hok1) as Htr1.
  destruct (capture_tracked _ _ _ _ _ _ _ _ _ e0 Htr1 Hcap He0 Htail) as (log & Hlog & Htr2).
  assert (log = log1) as -> by congruence.
  eapply recover_tracked; [|done].
  eapply run_requests_tracked; [exact Htr2|lia|done].
Qed.

(** The positions a snapshot records. *)
Lemma capture_positions id shards keyed e e2 snap :
  capture id shards keyed e = (e2, Ok (Some snap)) →
  ck_shards (sn_checkpoint snap) = keyed.*2 ∧ ck_shard_keys (sn_checkpoint snap) = keyed.*1.
Proof.
  unfold capture, mbind, EM_bind, eget. destruct (e_wal e); [|done]. unfold attempt.
  destruct (checkpoint_barrier_all _ _ _ _) as [e1 [[]|c]]; [|done].
  destruct (default (0, 0) (head keyed.*2)) as [wi wo].
  destruct (capture_topics _ _) as [e3 [ts|c]]; [|done]. intros [= <- <-]. done.
Qed.
End checkpoint.

(** ** Concrete snapshots *)
Module SnapshotRuns.
Import JsonSample WalSamples DurabilitySamples.
#[local] Instance id_pow : Powf := λ q, q.

(** A topic two of whose records are sealed and freed; the payload of record 1 is in a
    segment. *)
Lemma snapshot_topic_roundtrip_witness :
  let '(w, sb) := capture_box SegmentSamples.len_crc (λ _, ReadOk) ReclaimSamples.lived in
  let b' := restore_topic sb (default default_config (config_from_slice (snt_config_json sb))) in
  view b' 1 = Some (restored (ReclaimSamples.rec (JNumber 1))).
Proof.
  pose proof (snapshot_topic_roundtrip SegmentSamples.len_crc SegmentSamples.len_crc_u64 1000 ReclaimSamples.pair_cfg "t" 1 default_config 1 0 false
    ReclaimSamples.life ReclaimSamples.pair_cfg_ok ReclaimSamples.base_ok ReclaimSamples.life_ok) as Hall.
  cbv zeta in Hall. specialize (Hall eq_refl). unfold ReclaimSamples.lived, ReclaimSamples.fresh_box.
  destruct (capture_box SegmentSamples.len_crc _ _) as [w sb]. destruct Hall as (_ & _ & _ & _ & Hv & _). cbv zeta.
  specialize (Hv 1). rewrite ReclaimSamples.life_first in Hv. exact Hv.
Defined.

(** A read of the capture that fails puts null into the snapshot for a record that is live
    and whose segment is whole. *)
Example failed_read_captures_null :
  let x := mkBox (bx_topic ReclaimSamples.lived) (bx_seam ReclaimSamples.lived)
             (SegWriterSamples.uncached (bx_segs ReclaimSamples.lived)) in
  let sb := (capture_box SegmentSamples.len_crc (λ _, ReadFailsData) x).2 in
  r_data <$> view (restore_topic sb default_config) 1 = Some JNull ∧
  serve SegmentSamples.len_crc ReadOk x 1 = (λ r, (r, (JNumber 1, None))) <$> view (bx_topic x) 1.
Proof. by vm_compute. Qed.

(** Three requests, a snapshot on one shard, two more requests. *)
Definition before_snapshot : Engine Json := run_requests (take 4 sample_requests) (engine_with sample_oracle).
Definition at_snapshot : Engine Json * result ErrorCode (option Snapshot) :=
  capture 1 1 [(EmptyString, (1, 512))] before_snapshot.
Definition taken : Snapshot :=
  match at_snapshot.2 with
  | Ok (Some snap) => snap
  | _ => mkSnapshot 0 0 0 (mkCheckpoint 0 0 0 [] []) [] []
  end.

(** No topic of that engine ends in a deleted record. *)
Lemma before_snapshot_tails n b : e_topics before_snapshot !! n = Some b → tail_live b.
Proof.
  intros Hb. assert (e_topics before_snapshot = {["orders"%string := topic_of before_snapshot "orders"]}) as E
    by (by vm_compute).
  rewrite E in Hb. apply lookup_singleton_Some in Hb as [_ <-].
  intros r Hr. vm_compute in Hr. by injection Hr as <-.
Qed.

(** A topic whose last record is deleted, its snapshot, and the engine restored
    from it. *)
Definition holed : Engine Json :=
  run_requests [RqPut "orders" fsync_config; RqWrite "orders" (write_of [record_in "a" 1; record_in "b" 2]) true;
                RqDelete "orders" (mkDeleteRequest None (Some (mkFilter FilterOp.Eq "b")))] (engine_with []).
Definition holed_snapshot : Snapshot :=
  match (capture 1 1 [(EmptyString, (1, 512))] holed).2 with
  | Ok (Some snap) => snap
  | _ => mkSnapshot 0 0 0 (mkCheckpoint 0 0 0 [] []) [] []
  end.
Definition restarted : Engine Json := recover [] (restore holed_snapshot (engine_with [])).

(**  A snapshot does not record the deleted slots at the end of a topic and the
    restore does not pad them back: the next write after the restart is given a
    seq that was already acknowledged and deleted, and since its frame is not
    above the head of the snapshot the next recovery drops it. *)
Example restored_topic_reuses_seq :
  b_head_seq (topic_of holed "orders") = 2 ∧
  let '(e, r) := write "orders" (write_of [record_in "c" 3]) true restarted in
  r = Ok (write_response [2] 2 true false false) ∧
  r_data <$> view (topic_of e "orders") 2 = Some (JNumber 3) ∧
  view (topic_of (recover (logged e) (restore holed_snapshot (engine_with []))) "orders") 2 = None.
Proof. vm_compute. by split_and!. Qed.
End SnapshotRuns.
