(* ===== verification/Replay.v ===== *)
(** * Recovery from the files of the WAL

    Models the driver of [src/engine/recovery.rs]: the discovery of the WAL groups
    (the flat layout and the [shard-NN] directories), the order in which they are
    replayed, the checkpoint position of each, the topics whose frames are split
    over several groups by a change of the shard count, the tails at which the
    writers resume, and the removal of absorbed files.  The files are given by
    their contents; how they are written and read back is the subject of
    [WalWriter].  The order in which a hash map yields the split topics is an
    argument.

    [restart_from_snapshot]: a snapshot and the frames after its checkpoint rebuild the
    live registry.  [split_order_chronological]: a split topic is replayed in
    the order it was logged.  [create_only_group_loses_topic] and
    [returned_shard_count_loses_record] show the cases the order does not cover. *)

From stdpp Require Import base gmap list strings sorting pretty.
From S2P Require Import Prelude Types Eviction TopicIndex QueueProjection TopicState TopicLog.
From S2P Require Import Bytes Names Wal Json Router Sched Engine EngineLogic EngineSpec Forward Api Recovery.
From S2P Require Import SnapshotStore Durability Snapshot.

(** ** Groups of WAL files *)

(** [format!("{:02}")] *)
Definition fmt02 (n : Z) : string := if n <? 100 then digits 2 n else pretty n.

(** [shard_subdir], [shard_group_key] *)
Definition shard_subdir (s : nat) : string := "shard-" +:+ fmt02 (Z.of_nat s).
Definition shard_group_key (s n : nat) : string := if (n <=? 1)%nat then EmptyString else shard_subdir s.

(** A group: the index and the directory it is named by, and its files by number. *)
Record WalShardGroup := mkGroup {
  gr_shard_idx : Z;
  gr_key : string;
  gr_files : list (Z * bytes)
}.

(** [parse_shard_dir] *)
Definition parse_shard_dir (name : string) : option Z :=
  rest ← strip_prefix "shard-" name; parse_u64 rest.

Definition shard_le (a b : WalShardGroup) : Prop := gr_shard_idx a <= gr_shard_idx b.
#[export] Instance shard_le_dec a b : Decision (shard_le a b).
Proof. unfold shard_le. apply _. Defined.

(** [discover_shard_groups]: the flat files of the WAL directory, and its entries
    with the files of each. *)
Definition discover_shard_groups (flat : list (Z * bytes)) (entries : list (string * list (Z * bytes))) :
    list WalShardGroup :=
  merge_sort shard_le
    ((match flat with [] => [] | _ => [mkGroup 0 EmptyString flat] end) ++
     omap (λ en : string * list (Z * bytes),
             match parse_shard_dir en.1 with Some i => Some (mkGroup i en.1 en.2) | None => None end) entries).

(** Whether the current layout of [n] shards writes to the group. *)
Definition is_current (n : nat) (g : WalShardGroup) : bool :=
  bool_decide (gr_key g ∈ (λ s, shard_group_key s n) <$> seq 0 n).

(** The order of replay: leftover groups first, by shard index. *)
Definition replay_le (n : nat) (a b : WalShardGroup) : Prop :=
  match is_current n a, is_current n b with
  | false, true => True
  | true, false => False
  | _, _ => shard_le a b
  end.
#[export] Instance replay_le_dec n a b : Decision (replay_le n a b).
Proof. unfold replay_le. destruct (is_current n a), (is_current n b); apply _. Defined.

Definition replay_order (n : nat) (groups : list WalShardGroup) : list WalShardGroup :=
  merge_sort (replay_le n) groups.

(** The checkpoint of a group. *)
Definition ckpt_for (c : option Checkpoint) (g : WalShardGroup) : Z * Z :=
  default (0, 0) (c ≫= λ c, position_for_key c (gr_key g)).

(** ** Reading from a checkpoint *)
Section read.
Context (crc : bytes → Z).

(** The frames of a file with the offset each one ends at. *)
Fixpoint read_ends (fuel : nat) (buf : bytes) (pos : nat) : list (WalRecord.t * Z) :=
  match fuel with
  | O => []
  | S fuel =>
      match decode_one crc (drop pos buf) with
      | Frame frame consumed =>
          (wf_record frame, Z.of_nat (pos + consumed)) :: read_ends fuel buf (pos + consumed)
      | Torn => []
      end
  end.
Definition file_frames (buf : bytes) : list (WalRecord.t * Z) := read_ends (S (length buf)) buf 0.

(** The frames of a file that end after the checkpoint. *)
Definition file_records (ckpt : Z * Z) (f : Z * bytes) : list WalRecord.t :=
  if f.1 <? ckpt.1 then []
  else
    let start_offset := if f.1 =? ckpt.1 then ckpt.2 else 0 in
    (filter (λ fr, start_offset < fr.2) (file_frames f.2)).*1.

Definition group_records (c : option Checkpoint) (g : WalShardGroup) : list WalRecord.t :=
  concat (file_records (ckpt_for c g) <$> gr_files g).

(** [count_replay_frames] *)
Definition count_replay_frames (c : option Checkpoint) (g : WalShardGroup) : Z :=
  Z.of_nat (length (group_records c g)).

(** The active file of a group and its valid length after replay. *)
Definition group_tail (c : option Checkpoint) (g : WalShardGroup) : option (Z * Z) :=
  let ckpt := ckpt_for c g in
  match last (gr_files g) with
  | None => None
  | Some f => Some (if f.1 <? ckpt.1 then (Z.max ckpt.1 1, ckpt.2)
                    else (f.1, Z.of_nat (wal_read crc f.2).2))
  end.

(** The position at which the writer of a directory resumes. *)
Definition resume_position (files : list (Z * bytes)) : Z * Z :=
  match last files with
  | None => (1, 0)
  | Some f => (f.1, Z.of_nat (wal_read crc f.2).2)
  end.

(** [discover_group_tails]: the tail a snapshot records for a leftover group. *)
Definition discover_group_tails (groups : list WalShardGroup) : list (string * (Z * Z)) :=
  omap (λ g, match last (gr_files g) with
             | None => None
             | Some f => Some (gr_key g, (f.1, Z.of_nat (wal_read crc f.2).2))
             end) groups.
End read.

(** ** Split topics *)

(** The topics of a list of records; id 0 stands for records of no topic. *)
Definition topics_in (rs : list WalRecord.t) : gset Z :=
  list_to_set (filter (λ id, id ≠ 0) (record_topic_id <$> rs)).

(** [find_split_topics] *)
Definition find_split_topics (groups : list (list WalRecord.t)) : gset Z :=
  filter (λ id, (1 < length (filter (λ rs, id ∈ topics_in rs) groups))%nat) (⋃ (topics_in <$> groups)).

(** A buffered frame: the order of its group, its place in it, the record. *)
Definition SplitFrame : Type := nat * nat * WalRecord.t.

(** The frames of a topic in group [go], the next one being number [i]. *)
Fixpoint group_frames (id : Z) (go i : nat) (rs : list WalRecord.t) : list SplitFrame :=
  match rs with
  | [] => []
  | r :: rs =>
      if record_topic_id r =? id then (go, i, r) :: group_frames id go (S i) rs
      else group_frames id go (S i) rs
  end.

Fixpoint buffer_from (id : Z) (go : nat) (groups : list (list WalRecord.t)) : list SplitFrame :=
  match groups with
  | [] => []
  | rs :: groups => group_frames id go 0 rs ++ buffer_from id (S go) groups
  end.
Definition buffered (id : Z) (groups : list (list WalRecord.t)) : list SplitFrame := buffer_from id 0 groups.

(** The lowest seq appended by the frames of group [go]. *)
Definition min_seq (go : nat) (frames : list SplitFrame) : option Z :=
  foldl (λ acc f,
           match f.2 with
           | WalRecord.Append _ seq _ _ _ _ =>
               if decide (f.1.1 = go)
               then Some (match acc with Some m => if seq <? m then seq else m | None => seq end)
               else acc
           | _ => acc
           end) None frames.

(** The sort key of a buffered frame, compared as the tuple
    [(rank.is_none(), rank.unwrap_or(0), group_order, in_group_idx)]. *)
Definition frame_le (frames : list SplitFrame) (a b : SplitFrame) : Prop :=
  let ka := min_seq a.1.1 frames in
  let kb := min_seq b.1.1 frames in
  match ka, kb with
  | Some _, None => True
  | None, Some _ => False
  | _, _ =>
      let ra := default 0 ka in
      let rb := default 0 kb in
      ra < rb ∨ ra = rb ∧ ((a.1.1 < b.1.1)%nat ∨ a.1.1 = b.1.1 ∧ (a.1.2 <= b.1.2)%nat)
  end.
#[export] Instance frame_le_dec frames a b : Decision (frame_le frames a b).
Proof. unfold frame_le. destruct (min_seq _ _), (min_seq _ _); apply _. Defined.

(** The order in which a split topic's frames are replayed. *)
Definition split_order (id : Z) (groups : list (list WalRecord.t)) : list WalRecord.t :=
  let frames := buffered id groups in (merge_sort (frame_le frames) frames).*2.

(** ** Removing absorbed files *)

(** [drop_absorbed_wal_files] on the files of one directory of the WAL, named by its
    key. *)
Definition keep_files (positions : list (Z * Z)) (n : nat) (key : string) (files : list (Z * bytes)) :
    list (Z * bytes) :=
  let n := Nat.max n 1 in
  let files :=
    foldl (λ files s,
             if decide (key = shard_group_key s n)
             then filter (λ f, ¬ f.1 < default 0 (fst <$> positions !! s)) files
             else files) files (seq 0 n) in
  match parse_shard_dir key with
  | Some idx => if (1 <? n)%nat && (idx <? Z.of_nat n) then files else []
  | None => files
  end.

Definition drop_absorbed_wal_files (positions : list (Z * Z)) (n : nat) (groups : list WalShardGroup) :
    list WalShardGroup :=
  (λ g, mkGroup (gr_shard_idx g) (gr_key g) (keep_files positions n (gr_key g) (gr_files g))) <$> groups.

(** ** The driver *)
Section driver.
Context (crc : bytes → Z) {V : Type} `{!JsonNull V} `{!Serde V} `{!Powf}.
Implicit Types (e : Engine V).

(** The replay of the groups; [order] is the order of the split topics. *)
Definition replay_groups (order : gset Z → list Z) (n : nat) (c : option Checkpoint)
    (groups : list WalShardGroup) e : Engine V :=
  let recs := group_records crc c <$> replay_order n groups in
  let split := if (1 <? length groups)%nat then find_split_topics recs else ∅ in
  let e := replay_frames (filter (λ r, record_topic_id r ∉ split) (concat recs)) e in
  foldl (λ e id, replay_frames (split_order id recs) e) e (order split).

(** [recover_and_open_with], up to the opening of the writers: the snapshot that
    was loaded, the groups that were found. *)
Definition recover_and_open (order : gset Z → list Z) (n : nat) (snap : option Snapshot)
    (flat : list (Z * bytes)) (entries : list (string * list (Z * bytes))) e : Engine V :=
  let '(e, c) := match snap with
                 | Some s => (restore s e, Some (sn_checkpoint s))
                 | None => (e, None)
                 end in
  let e := replay_groups order (Nat.max n 1) c (discover_shard_groups flat entries) e in
  (reforward_routers_on_recovery (apply_head_watermarks e)).1.
End driver.

(** ** Frames after a checkpoint *)
Section checkpoint.
Context (crc : bytes → Z).
Abbreviation enc := (encode_all crc).

(** The frames with the offsets they end at, the first one starting at [pos]. *)
Fixpoint with_ends (pos : nat) (fs : list WalFrame) : list (WalRecord.t * Z) :=
  match fs with
  | [] => []
  | f :: fs =>
      let e := (pos + length (encode_frame crc (wf_record f) (wf_durable f)))%nat in
      (wf_record f, Z.of_nat e) :: with_ends e fs
  end.

Lemma with_ends_records pos fs : (with_ends pos fs).*1 = wf_record <$> fs.
Proof. revert pos. induction fs as [|f fs IH]; intros pos; simpl; [done|]. by rewrite IH. Qed.

Lemma with_ends_app pos fs1 fs2 :
  with_ends pos (fs1 ++ fs2) = with_ends pos fs1 ++ with_ends (pos + length (enc fs1)) fs2.
Proof.
  revert pos. induction fs1 as [|f fs1 IH]; intros pos; [simpl; by rewrite Nat.add_0_r|].
  rewrite encode_all_cons, length_app. simpl. rewrite IH. do 3 f_equal. lia.
Qed.

Lemma with_ends_bounds pos fs x :
  x ∈ with_ends pos fs → Z.of_nat pos < x.2 <= Z.of_nat (pos + length (enc fs)).
Proof.
  revert pos. induction fs as [|f fs IH]; intros pos; [by intros ?%elem_of_nil|].
  rewrite encode_all_cons, length_app. simpl. rewrite length_encode_frame.
  intros [->|Hx]%elem_of_cons; [simpl; lia|]. apply IH in Hx. lia.
Qed.

Lemma file_frames_all fs tail :
  (∀ x, is_u64 (crc x)) → frames_ok fs → decode_one crc tail = Torn →
  file_frames crc (enc fs ++ tail) = with_ends 0 fs.
Proof.
  intros Hcrc Hfs Htail. unfold file_frames.
  assert (Hgo : ∀ fuel pre, (length fs < fuel)%nat →
    read_ends crc fuel (pre ++ enc fs ++ tail) (length pre) = with_ends (length pre) fs).
  { induction Hfs as [|[r d] fs Hr _ IH]; intros fuel pre Hfuel;
      (destruct fuel as [|fuel]; [simpl in Hfuel; lia|]); cbn [read_ends].
    - rewrite drop_app_length. simpl. by rewrite Htail.
    - rewrite encode_all_cons, <-app_assoc, drop_app_length. cbn [wf_record wf_durable] in *.
      rewrite decode_encode_frame by done. cbn [with_ends wf_record wf_durable]. f_equal.
      rewrite (app_assoc pre), <-length_app. apply IH. simpl in Hfuel. lia. }
  apply (Hgo _ []). rewrite length_app. clear -Hfs. induction Hfs as [|[r d] fs _ _ IH]; [simpl; lia|].
  rewrite encode_all_cons, length_app, length_encode_frame. simpl length. lia.
Qed.

(** A file that holds [fs] and then nothing that decodes. *)
Definition holds_frames (f : Z * bytes) (fs : list WalFrame) : Prop :=
  frames_ok fs ∧ ∃ tail, f.2 = enc fs ++ tail ∧ decode_one crc tail = Torn.

Lemma file_records_after ckpt f pre post :
  (∀ x, is_u64 (crc x)) → holds_frames f (pre ++ post) →
  f.1 = ckpt.1 → ckpt.2 = Z.of_nat (length (enc pre)) → file_records crc ckpt f = wf_record <$> post.
Proof.
  intros Hcrc (Hok & tail & Hf & Ht) Hi Ho. unfold file_records.
  rewrite Hi, Z.ltb_irrefl, Z.eqb_refl, Hf, file_frames_all by done.
  rewrite with_ends_app, filter_app, Ho, fmap_app. simpl.
  assert (filter (λ fr, Z.of_nat (length (enc pre)) < fr.2) (with_ends 0 pre) = []) as ->.
  { apply filter_none. intros x Hx%with_ends_bounds. lia. }
  rewrite (list_filter_all _ (with_ends _ post)), with_ends_records; [done|].
  intros x Hx%with_ends_bounds. lia.
Qed.

Lemma file_records_later ckpt f fs :
  (∀ x, is_u64 (crc x)) → holds_frames f fs → ckpt.1 < f.1 → file_records crc ckpt f = wf_record <$> fs.
Proof.
  intros Hcrc (Hok & tail & Hf & Ht) Hi. unfold file_records.
  rewrite (proj2 (Z.ltb_ge _ _)), (proj2 (Z.eqb_neq _ _)), Hf, file_frames_all by (done || lia).
  rewrite list_filter_all, with_ends_records; [done|]. intros x Hx%with_ends_bounds. lia.
Qed.

(** The records of a group past its checkpoint: files numbered below it are
    skipped, the file it lies in is read from its offset, later files in full. *)
Lemma group_records_after c g absorbed idx f later pre post parts :
  (∀ x, is_u64 (crc x)) →
  ckpt_for c g = (idx, Z.of_nat (length (enc pre))) →
  gr_files g = absorbed ++ f :: later → f.1 = idx → holds_frames f (pre ++ post) →
  Forall (λ f, f.1 < idx) absorbed →
  Forall2 (λ f fs, idx < f.1 ∧ holds_frames f fs) later parts →
  group_records crc c g = wf_record <$> (post ++ concat parts).
Proof.
  intros Hcrc Hck Hfiles Hf Hhold Hab Hl. unfold group_records. rewrite Hck, Hfiles, fmap_app, concat_app.
  assert (concat (file_records crc (idx, Z.of_nat (length (enc pre))) <$> absorbed) = []) as ->.
  { clear -Hab. induction Hab as [|x l Hx _ IH]; [done|]. rewrite fmap_cons. cbn [concat]. rewrite IH, app_nil_r.
    unfold file_records. simpl. by rewrite (proj2 (Z.ltb_lt _ _)). }
  rewrite fmap_cons. cbn [concat app]. rewrite (file_records_after _ f pre post) by done. rewrite fmap_app. f_equal.
  clear -Hcrc Hl. induction Hl as [|x fs later parts [Hx Hh] _ IH]; [done|].
  rewrite fmap_cons. cbn [concat]. rewrite fmap_app, IH. f_equal. by apply file_records_later.
Qed.
End checkpoint.

(** ** Restart from a snapshot *)
Section restart.
Context (crc : bytes → Z) {V : Type} `{!JsonNull V} `{!Serde V} `{!SerdeLaws V} `{!Powf}.
Implicit Types (e : Engine V).

(** A single flat group is replayed as it stands. *)
Lemma recover_flat order (snap : Snapshot) files e :
  (∀ s, order s ≡ₚ elements s) → files ≠ [] →
  recover_and_open crc order 1 (Some snap) files [] e =
    recover (group_records crc (Some (sn_checkpoint snap)) (mkGroup 0 EmptyString files)) (restore snap e).
Proof.
  intros Hord Hne. unfold recover_and_open, recover, replay_groups.
  assert (discover_shard_groups files [] = [mkGroup 0 EmptyString files]) as -> by (by destruct files).
  assert (order ∅ = []) as Ho.
  { apply Permutation_nil_r. rewrite Hord. by rewrite elements_empty. }
  change (replay_order (Nat.max 1 1) [mkGroup 0 EmptyString files]) with [mkGroup 0 EmptyString files].
  change (1 <? length [mkGroup 0 EmptyString files])%nat with false. cbn beta iota zeta. rewrite Ho.
  cbn [foldl fmap list_fmap concat]. rewrite app_nil_r, list_filter_all; [done|]. intros x _. set_solver.
Qed.

(** C1. A restart from a snapshot loses nothing that was acknowledged, on a server with
    one WAL shard whose topics are all unlimited and [fsync]. From an empty server, run
    any history of topic creations, writes, deletes, topic deletions and clock changes
    over such topics, none of whose commits fails, take a snapshot that records the
    position of the WAL writer, and run any further such history, of at most
    [HISTORY_LIMIT] requests in all. Whatever older WAL files are still there, in
    whatever files the frames logged after the snapshot lie, and whatever torn bytes
    follow the last frame of each file, recovering from that snapshot and those files
    (the flat group, with no shard directories) rebuilds exactly the live registry,
    provided no topic ended in deleted records at the snapshot. *)
Theorem restart_from_snapshot (e e0 : Engine V) (rqs1 rqs2 : list Request) id e2 snap log1 log2
    order absorbed idx f later pre post parts :
  (∀ x, is_u64 (crc x)) → (∀ s, order s ≡ₚ elements s) →
  blank e → blank e0 → e_wal e = Some [] → 0 <= e_now e < 2 ^ 63 → CommitFailed ∉ e_oracle e →
  Forall request_ok (rqs1 ++ rqs2) → Z.of_nat (length (rqs1 ++ rqs2)) <= HISTORY_LIMIT →
  (∀ n b, e_topics (run_requests rqs1 e) !! n = Some b → tail_live b) →
  capture id 1 [(EmptyString, (idx, Z.of_nat (length (encode_all crc pre))))] (run_requests rqs1 e) =
    (e2, Ok (Some snap)) →
  e_wal e2 = Some log1 → e_wal (run_requests rqs2 e2) = Some log2 →
  frames_of (drop (length log1) log2) = post ++ concat parts →
  f.1 = idx → holds_frames crc f (pre ++ post) → Forall (λ f, f.1 < idx) absorbed →
  Forall2 (λ f fs, idx < f.1 ∧ holds_frames crc f fs) later parts →
  same_registry (e_topics (run_requests rqs2 e2))
    (e_topics (recover_and_open crc order 1 (Some snap) (absorbed ++ f :: later) [] e0)).
Proof.
  intros Hcrc Hord He He0 Hw Hnow Ho Hok Hlen Htail Hcap Hw1 Hw2 Hfr Hf Hhold Hab Hl.
  rewrite recover_flat by (done || by destruct absorbed).
  destruct (capture_positions _ _ _ _ _ _ Hcap) as [Hs Hk].
  rewrite (group_records_after crc _ _ absorbed idx f later pre post parts); try done.
  - rewrite <-Hfr. unfold frames_of. rewrite <-list_fmap_compose.
    eapply (checkpointed_recovery e e0 rqs1 rqs2); done.
  - unfold ckpt_for, position_for_key. simpl. by rewrite Hk, Hs.
Qed.
End restart.

(** ** The order of split topics *)
Section split.
Context (id : Z) (groups : list (list WalRecord.t)).

(** The part of the topic's log that lies in a group. *)
Definition fragment (go : nat) : list WalRecord.t :=
  filter (λ r, record_topic_id r = id) (default [] (groups !! go)).

Definition appended_seq (r : WalRecord.t) : option Z :=
  match r with WalRecord.Append _ seq _ _ _ _ => Some seq | _ => None end.

Definition tagged (go : nat) : list SplitFrame := group_frames id go 0 (default [] (groups !! go)).

Lemma group_frames_records go i rs : (group_frames id go i rs).*2 = filter (λ r, record_topic_id r = id) rs.
Proof.
  revert i. induction rs as [|r rs IH]; intros i; simpl; [done|]. rewrite filter_cons.
  destruct (Z.eqb_spec (record_topic_id r) id) as [E|E]; [rewrite decide_True by done|rewrite decide_False by done];
    simpl; by rewrite IH.
Qed.

Lemma elem_of_group_frames go i rs a :
  a ∈ group_frames id go i rs → a.1.1 = go ∧ (i <= a.1.2)%nat ∧ rs !! (a.1.2 - i)%nat = Some a.2.
Proof.
  revert i. induction rs as [|r rs IH]; intros i Ha; [by apply elem_of_nil in Ha|].
  assert (Hrest : a ∈ group_frames id go (S i) rs →
    a.1.1 = go ∧ (i <= a.1.2)%nat ∧ (r :: rs) !! (a.1.2 - i)%nat = Some a.2).
  { intros (H1 & H2 & H3)%IH. split_and!; [done|lia|].
    by replace (a.1.2 - i)%nat with (S (a.1.2 - S i)) by lia. }
  simpl in Ha. destruct (_ =? _); [|by apply Hrest].
  apply elem_of_cons in Ha as [->|Ha]; [|by apply Hrest]. simpl. by rewrite Nat.sub_diag.
Qed.

Lemma group_frames_sorted go i rs :
  StronglySorted (λ a b, (a.1.2 < b.1.2)%nat) (group_frames id go i rs).
Proof.
  revert i. induction rs as [|r rs IH]; intros i; simpl; [constructor|].
  destruct (_ =? _); [|apply IH]. constructor; [apply IH|]. apply Forall_forall.
  intros a (_ & ? & _)%elem_of_group_frames. simpl. lia.
Qed.

Lemma buffered_tagged : buffered id groups = concat (tagged <$> seq 0 (length groups)).
Proof.
  unfold buffered, tagged.
  assert (∀ gs k, (∀ j, gs !! j = groups !! (k + j)%nat) →
    buffer_from id k gs =
      concat ((λ go, group_frames id go 0 (default [] (groups !! go))) <$> seq k (length gs))) as H;
    [|by apply H].
  induction gs as [|rs gs IH]; intros k Hk; simpl; [done|].
  pose proof (Hk 0%nat) as H0. rewrite Nat.add_0_r in H0. simpl in H0. rewrite <-H0. simpl. f_equal. apply IH.
  intros j. rewrite Nat.add_succ_comm, <-Hk. done.
Qed.

(** The rank of a group is its lowest appended seq. *)
Lemma min_seq_spec go (frames : list SplitFrame) :
  match min_seq go frames with
  | Some m => ∃ a, a ∈ frames ∧ a.1.1 = go ∧ appended_seq a.2 = Some m
  | None => ∀ a, a ∈ frames → a.1.1 = go → appended_seq a.2 = None
  end.
Proof.
  unfold min_seq. match goal with |- context [foldl ?g None frames] => set (step := g) end.
  assert (Hgo : ∀ done acc,
    match acc with
    | Some m => ∃ a, a ∈ done ∧ a.1.1 = go ∧ appended_seq a.2 = Some m
    | None => ∀ a, a ∈ done → a.1.1 = go → appended_seq a.2 = None
    end →
    match foldl step acc frames with
    | Some m => ∃ a, a ∈ done ++ frames ∧ a.1.1 = go ∧ appended_seq a.2 = Some m
    | None => ∀ a, a ∈ done ++ frames → a.1.1 = go → appended_seq a.2 = None
    end).
  { induction frames as [|f frames IH]; intros dn acc Hacc; simpl; [by rewrite app_nil_r|].
    rewrite (app_assoc dn [f] frames : dn ++ f :: frames = _). apply IH. clear IH.
    assert (Hkeep : (f.1.1 = go → appended_seq f.2 = None) →
      match acc with
      | Some m => ∃ a, a ∈ dn ++ [f] ∧ a.1.1 = go ∧ appended_seq a.2 = Some m
      | None => ∀ a, a ∈ dn ++ [f] → a.1.1 = go → appended_seq a.2 = None
      end).
    { intros Hf. destruct acc as [m|].
      - destruct Hacc as (a & ? & ? & ?). exists a. rewrite elem_of_app. auto.
      - intros a [Ha|Ha%list_elem_of_singleton]%elem_of_app; [by apply Hacc|by subst a]. }
    unfold step. destruct (f.2) as [? seq ? ? ? ?| | | | | | | |] eqn:Ef; try (by apply Hkeep).
    destruct (decide (f.1.1 = go)) as [Hg|]; [|by apply Hkeep].
    assert (Hself : ∃ a, a ∈ dn ++ [f] ∧ a.1.1 = go ∧ appended_seq a.2 = Some seq).
    { exists f. rewrite elem_of_app, list_elem_of_singleton, Ef. auto. }
    destruct acc as [m|]; [|done]. destruct (seq <? m); [done|].
    destruct Hacc as (a & ? & ? & ?). exists a. rewrite elem_of_app. auto. }
  apply (Hgo [] None). by intros a Ha%elem_of_nil.
Qed.

#[local] Instance frame_le_trans frames : Transitive (frame_le frames).
Proof.
  intros a b c. unfold frame_le.
  destruct (min_seq a.1.1 frames), (min_seq b.1.1 frames), (min_seq c.1.1 frames); simpl; try done; lia.
Qed.
#[local] Instance frame_le_total frames : Total (frame_le frames).
Proof.
  intros a b. unfold frame_le.
  destruct (min_seq a.1.1 frames), (min_seq b.1.1 frames); simpl; try (by left); try (by right); lia.
Qed.

(** The frames of the groups [runs], one group after the other. *)
Definition in_runs (runs : list nat) : list SplitFrame := concat (tagged <$> runs).

Lemma in_runs_permutation runs :
  NoDup runs → (∀ go, fragment go ≠ [] ↔ go ∈ runs) → in_runs runs ≡ₚ buffered id groups.
Proof.
  intros Hnd Hruns. rewrite buffered_tagged. unfold in_runs.
  assert (Hne : ∀ go, tagged go = [] ↔ fragment go = []).
  { intros go. unfold tagged, fragment. rewrite <-(group_frames_records go 0).
    by destruct (group_frames id go 0 (default [] (groups !! go))). }
  assert (Hdrop : ∀ l, concat (tagged <$> l) = concat (tagged <$> filter (λ go, tagged go ≠ []) l)).
  { induction l as [|go l IH]; [done|]. rewrite filter_cons. case_decide as E; rewrite !fmap_cons; cbn [concat].
    - by rewrite IH.
    - by rewrite IH, E. }
  rewrite (Hdrop (seq 0 (length groups))).
  assert (runs ≡ₚ filter (λ go, tagged go ≠ []) (seq 0 (length groups))) as Hp.
  { apply NoDup_Permutation; [done|apply NoDup_filter, NoDup_seq|]. intros go.
    rewrite list_elem_of_filter, elem_of_seq, <-Hruns, Hne. split; [|by intros []]. intros Hf. split; [done|].
    split; [lia|]. simpl. apply lookup_lt_is_Some_1. unfold fragment in Hf.
    by destruct (groups !! go). }
  by rewrite <-Hp.
Qed.

Lemma elem_of_in_runs runs a :
  a ∈ in_runs runs ↔ ∃ go, go ∈ runs ∧ a ∈ tagged go.
Proof.
  unfold in_runs. induction runs as [|go runs IH]; [set_solver|]. rewrite fmap_cons. cbn [concat].
  rewrite elem_of_app, IH. set_solver.
Qed.

(** The rank of a group that holds an append is one of its appended seqs. *)
Lemma run_rank runs go :
  in_runs runs ≡ₚ buffered id groups → go ∈ runs → omap appended_seq (fragment go) ≠ [] →
  ∃ m, min_seq go (buffered id groups) = Some m ∧ m ∈ omap appended_seq (fragment go).
Proof.
  intros Hperm Hgo Happ. pose proof (min_seq_spec go (buffered id groups)) as Hs.
  destruct (min_seq go _) as [m|].
  - destruct Hs as (a & Ha & Hg & Hm). exists m. split; [done|]. apply list_elem_of_omap. exists a.2.
    split; [|done]. rewrite <-Hperm in Ha. apply elem_of_in_runs in Ha as (go' & _ & Ha).
    pose proof Ha as (E & _)%elem_of_group_frames. rewrite Hg in E. subst go'.
    unfold fragment. rewrite <-(group_frames_records go 0). by apply list_elem_of_fmap_2.
  - destruct Happ. destruct (omap appended_seq (fragment go)) as [|x l] eqn:El; [done|].
    assert (x ∈ omap appended_seq (fragment go)) as (r & Hr & Hx)%list_elem_of_omap by (rewrite El; left).
    unfold fragment in Hr. rewrite <-(group_frames_records go 0) in Hr.
    apply list_elem_of_fmap in Hr as (a & -> & Ha). rewrite Hs in Hx; [done| |].
    + rewrite <-Hperm. apply elem_of_in_runs. by exists go.
    + by apply elem_of_group_frames in Ha as [? _].
Qed.

Lemma tagged_sorted frames go : StronglySorted (frame_le frames) (tagged go).
Proof.
  pose proof (group_frames_sorted go 0 (default [] (groups !! go))) as Hs. fold (tagged go) in Hs.
  assert (Hgo : ∀ a, a ∈ tagged go → a.1.1 = go) by (by intros a [? _]%elem_of_group_frames).
  induction Hs as [|a l Hl IH Ha]; [constructor|].
  constructor; [apply IH; intros; apply Hgo; by right|]. rewrite Forall_forall in Ha |- *. intros b Hb.
  unfold frame_le. rewrite (Hgo a), (Hgo b) by (by left || by right).
  specialize (Ha b Hb). destruct (min_seq go frames); lia.
Qed.

Lemma in_runs_sorted frames runs :
  StronglySorted (λ i j, ∃ x y, min_seq i frames = Some x ∧ min_seq j frames = Some y ∧ x < y) runs →
  StronglySorted (frame_le frames) (in_runs runs).
Proof.
  induction 1 as [|go runs _ IH Hgo]; [constructor|]. unfold in_runs. rewrite fmap_cons. cbn [concat].
  apply StronglySorted_app_2; [|apply tagged_sorted|exact IH].
  intros a b [E1 _]%elem_of_group_frames (go' & Hin & [E2 _]%elem_of_group_frames)%elem_of_in_runs.
  rewrite Forall_forall in Hgo. destruct (Hgo go' Hin) as (x & y & Hx & Hy & Hlt).
  unfold frame_le. rewrite E1, E2, Hx, Hy. simpl. lia.
Qed.

(** Two buffered frames with the same key are the same frame. *)
Lemma in_runs_key frames runs a b :
  a ∈ in_runs runs → b ∈ in_runs runs → frame_le frames a b → frame_le frames b a → a = b.
Proof.
  intros (go & _ & Ha)%elem_of_in_runs (go' & _ & Hb)%elem_of_in_runs Hab Hba.
  apply elem_of_group_frames in Ha as (E1 & _ & H1), Hb as (E2 & _ & H2).
  assert (a.1.1 = b.1.1 ∧ a.1.2 = b.1.2) as [Eg Ei].
  { revert Hab Hba. unfold frame_le.
    destruct (min_seq a.1.1 frames), (min_seq b.1.1 frames); simpl; try done; lia. }
  assert (go = go') as <- by congruence. rewrite Nat.sub_0_r in H1, H2. rewrite Ei, H2 in H1.
  destruct a as [[? ?] ?], b as [[? ?] ?]. simpl in *. by simplify_eq.
Qed.

(** C33.  A topic whose frames are spread over several WAL groups by changes of the
    shard count is replayed in the order it was logged, if each group was written in one
    stretch of time: list the groups that hold its frames so that the appended seqs rise
    from group to group, and let each of them hold an append; the replay of the topic is
    then the frames of the first group, those of the second, and so on, whatever order
    the groups are found in.  A shard count that returns to an earlier value writes a
    group in two stretches, and is outside ([returned_shard_count_loses_record]). *)
Theorem split_order_chronological runs :
  NoDup runs → (∀ go, fragment go ≠ [] ↔ go ∈ runs) →
  (∀ go, go ∈ runs → omap appended_seq (fragment go) ≠ []) →
  StronglySorted (λ i j, ∀ x y, x ∈ omap appended_seq (fragment i) → y ∈ omap appended_seq (fragment j) →
                         x < y) runs →
  split_order id groups = concat (fragment <$> runs).
Proof.
  intros Hnd Hruns Happ Hsort. unfold split_order. set (frames := buffered id groups).
  pose proof (in_runs_permutation runs Hnd Hruns) as Hperm.
  assert (StronglySorted (λ i j, ∃ x y, min_seq i frames = Some x ∧ min_seq j frames = Some y ∧ x < y) runs)
    as Hranks.
  { assert (Hr : ∀ go, go ∈ runs → ∃ m, min_seq go frames = Some m ∧ m ∈ omap appended_seq (fragment go)).
    { intros go Hgo. by apply (run_rank runs); [..|apply Happ]. }
    clear -Hsort Hr. induction Hsort as [|go runs _ IH Hgo]; [constructor|].
    constructor; [apply IH; intros; apply Hr; by right|]. rewrite Forall_forall in Hgo |- *. intros go' Hgo'.
    destruct (Hr go) as (x & Hx & Hx'); [by left|]. destruct (Hr go') as (y & Hy & Hy'); [by right|].
    exists x, y. split_and!; [done..|]. by apply (Hgo go'). }
  assert (merge_sort (frame_le frames) frames = in_runs runs) as ->.
  { apply (StronglySorted_unique_strong (frame_le frames)).
    - intros a b Ha Hb. apply (in_runs_key frames runs); [|done].
      rewrite merge_sort_Permutation in Ha. by rewrite Hperm.
    - by apply (StronglySorted_merge_sort _).
    - by apply in_runs_sorted.
    - by rewrite merge_sort_Permutation, Hperm. }
  clear. unfold in_runs. induction runs as [|go runs IH]; [done|]. rewrite !fmap_cons. cbn [concat].
  rewrite fmap_app, IH. f_equal. apply group_frames_records.
Qed.
End split.

(** ** Concrete restarts *)
Module ReplaySamples.
Import JsonSample WalSamples DurabilitySamples SnapshotRuns.
#[local] Instance flat_pow : Powf := λ q, q.

(** The frames logged before the snapshot of [at_snapshot], its mark included, and
    after it. *)
Definition frames_before : list WalFrame := Eval vm_compute in frames_of (default [] (e_wal at_snapshot.1)).
Definition frames_after : list WalFrame := Eval vm_compute in
  frames_of (drop (length (default [] (e_wal at_snapshot.1)))
               (default [] (e_wal (run_requests (drop 4 sample_requests) at_snapshot.1)))).

Definition checkpoint_at : Z := Eval vm_compute in Z.of_nat (length (encode_all sum_crc frames_before)).

(** The snapshot of [before_snapshot], with the writer's position. *)
Definition positioned : Engine Json * result ErrorCode (option Snapshot) :=
  capture 1 1 [(EmptyString, (2, checkpoint_at))] before_snapshot.
Definition positioned_snapshot : Snapshot :=
  match positioned.2 with Ok (Some snap) => snap | _ => taken end.

(** The active file, with preallocated zeros after its frames, and an older one. *)
Definition active : Z * bytes := (2, encode_all sum_crc (frames_before ++ frames_after) ++ replicate 7 Byte.x00).

Lemma restart_from_snapshot_witness :
  same_registry (e_topics (run_requests (drop 4 sample_requests) positioned.1))
    (e_topics (recover_and_open sum_crc elements 1 (Some positioned_snapshot) [(1, []); active] []
                 (engine_with []))).
Proof.
  apply (restart_from_snapshot sum_crc (engine_with sample_oracle) (engine_with []) (take 4 sample_requests)
    (drop 4 sample_requests) 1 positioned.1 positioned_snapshot (default [] (e_wal positioned.1))
    (default [] (e_wal (run_requests (drop 4 sample_requests) positioned.1))) elements [(1, [])] 2 active []
    frames_before frames_after []).
  - apply sum_crc_u64.
  - done.
  - done.
  - done.
  - done.
  - by vm_compute.
  - vm_compute. set_solver.
  - repeat constructor; simpl; auto; by vm_compute.
  - by vm_compute.
  - exact before_snapshot_tails.
  - by vm_compute.
  - by vm_compute.
  - by vm_compute.
  - by vm_compute.
  - done.
  - split; [repeat constructor; by vm_compute|]. exists (replicate 7 Byte.x00). split; [done|by vm_compute].
  - repeat constructor.
  - constructor.
Defined.

(** Two runs of a topic: the later one lies in the group that is found first. *)
Definition split_groups : list (list WalRecord.t) :=
  [[WalRecord.Append 7 3 0 None None []; WalRecord.Delete 7 (Some 2) None [] None 0];
   [WalRecord.CheckpointMark 0 0];
   [WalRecord.TopicConfig 7 (mkTopicConfigOp "t" []) false 0; WalRecord.Append 7 1 0 None None [];
    WalRecord.Append 7 2 0 None None []]].

Lemma split_order_chronological_witness :
  split_order 7 split_groups = concat (fragment 7 split_groups <$> [2; 0]%nat).
Proof.
  apply (split_order_chronological 7 split_groups [2; 0]%nat).
  - repeat constructor; set_solver.
  - intros [|[|[|go]]]; vm_compute; set_solver.
  - intros go Hgo. assert (go = 2 ∨ go = 0)%nat as [->| ->] by set_solver; by vm_compute.
  - repeat constructor. intros x y Hx Hy. vm_compute in Hx, Hy.
    assert (x = 1 ∨ x = 2) by set_solver. assert (y = 3) by set_solver. lia.
Defined.

(** A topic created under two shards, then written after a restart with one. *)
Definition created : list WalFrame :=
  frames_of (default [] (e_wal (run_requests [RqPut "orders" fsync_config] (engine_with [])))).
Definition two_shards : list (string * list (Z * bytes)) := [("shard-01"%string, [(1, encode_all sum_crc created)])].
Definition reopened : Engine Json := recover_and_open sum_crc elements 1 None [] two_shards (engine_with []).

(**  The order of split topics puts a group without an append last: a topic that
    was created and not yet written when the shard count changed, and written
    after, is recovered with its append first.  The acknowledged record lands in a
    made-up topic [topic-1] under the default config, and the topic itself comes
    back empty, with the same id. *)
Example create_only_group_loses_topic :
  let '(e, r) := write "orders" (write_of [record_in "a" 1]) true reopened in
  r = Ok (write_response [1] 1 true false false) ∧
  let again := recover_and_open sum_crc elements 1 None
    [(1, encode_all sum_crc (frames_of (default [] (e_wal e))))] two_shards (engine_with []) in
  view (topic_of again "orders") 1 = None ∧
  r_data <$> view (topic_of again "topic-1") 1 = Some (JNumber 1) ∧
  b_topic_id (topic_of again "orders") = b_topic_id (topic_of again "topic-1").
Proof. vm_compute. by split_and!. Qed.

(** A topic written under two shards, then under one, then under two again: the first and
    the last run lie in one group, which the order of split topics replays as a whole
    before the middle one.  The record of the last run, acknowledged and synced, then comes
    with a gap below its seq and is skipped. *)
Definition wal_file (e : Engine Json) : bytes := encode_all sum_crc (frames_of (default [] (e_wal e))).
Definition acked (v : Z) (e : Engine Json) : Engine Json * result ErrorCode WriteResponse :=
  write "orders" (write_of [record_in "a" v]) true e.
Definition open_runs (n : nat) (flat shard : bytes) : Engine Json :=
  recover_and_open sum_crc elements n None [(1, flat)] [("shard-01"%string, [(1, shard)])] (engine_with []).

Example returned_shard_count_loses_record :
  let run1 := acked 1 (run_requests [RqPut "orders" fsync_config] (engine_with [])) in
  let run2 := acked 2 (open_runs 1 [] (wal_file run1.1)) in
  let run3 := acked 3 (open_runs 2 (wal_file run2.1) (wal_file run1.1)) in
  let again := open_runs 2 (wal_file run2.1) (wal_file run1.1 ++ wal_file run3.1) in
  run1.2 = Ok (write_response [1] 1 true false false) ∧ run2.2 = Ok (write_response [2] 2 true false false) ∧
  run3.2 = Ok (write_response [3] 3 true false false) ∧
  (λ s, r_data <$> view (topic_of again "orders") s) <$> [1; 2; 3] = [Some (JNumber 1); Some (JNumber 2); None].
Proof. vm_compute. by split_and!. Qed.
End ReplaySamples.
