(* ===== verification/Queue.v ===== *)
(** * Queues: claim, ack, nack, extend, dead-lettering

    Models the engine half of [src/engine/queue.rs] over the projection of
    [QueueProjection]: the batched claim coordinator [run_claim_cohort] with its
    round-robin division and dead-lettering, the fenced [ack], [nack] and
    [extend], the permanent delete of one job, the release of a work
    connection's leases, and the counters.

    The theorems: a claim leases only live, unleased jobs, each under a fresh
    lease id; a job below the claim cursor is never out of reach ([tracked]); a
    claim that returns fewer jobs than asked for has left nothing claimable; a
    stale lease token changes nothing; the O(working set) ready counter is the
    number of claimable jobs. *)

From S2P Require Import Prelude Types Eviction TopicIndex QueueProjection TopicState Bytes Wal Json Engine.

Definition MAX_CLAIM : Z := 1000.
Definition MAX_NACK_DELAY_MS : Z := 86400000.
Definition MAX_NODE_BYTES : Z := 128.

Record Claimer := mkClaimer {
  cm_node : string;
  cm_max : Z;
  cm_work_conn : option Z
}.

Record LeasedJob (V : Type) := mkJob {
  j_seq : Z;
  j_lease_id : Z;
  j_deadline : Z;
  j_ts : Z;
  j_tag : option string;
  j_deliveries : Z;
  j_data : V;
  j_meta : option V
}.
Arguments mkJob {V}.
Arguments j_seq {V}.
Arguments j_lease_id {V}.
Arguments j_deadline {V}.
Arguments j_ts {V}.
Arguments j_tag {V}.
Arguments j_deliveries {V}.
Arguments j_data {V}.
Arguments j_meta {V}.

(** [lease_token_ok] *)
Definition lease_token_ok (lease_ids : list (option Z)) (i : nat) (held : Z) : bool :=
  match lease_ids !! i with
  | Some (Some want) => want =? held
  | _ => true
  end.

(** [check_seqs_len] *)
Definition check_seqs_len (seqs : list Z) : result ErrorCode unit :=
  if MAX_CLAIM <? Z.of_nat (length seqs) then Err BatchTooLarge else Ok tt.

(** [check_lease_ids_len] *)
Definition check_lease_ids_len (seqs : list Z) (lease_ids : list (option Z)) : result ErrorCode unit :=
  if negb (length lease_ids =? 0)%nat && negb (length lease_ids =? length seqs)%nat
  then Err InvalidRequest else Ok tt.

Section queue.
Context {V : Type} `{!JsonNull V} `{!Serde V}.
Implicit Types (b : TopicState V) (ix : TopicIndex V) (q : QueueProjection).

(** ** The next claimable job *)

(** The freelist loop of [next_claimable]. *)
Fixpoint next_reclaim (fuel : nat) q ix : option Z * QueueProjection :=
  match fuel with
  | O => (None, q)
  | S fuel =>
      match pop_reclaim q with
      | None => (None, q)
      | Some (seq, q) =>
          match leases q !! seq with
          | Some _ => next_reclaim fuel q ix
          | None => if live_at ix seq then (Some seq, q) else next_reclaim fuel q ix
          end
      end
  end.

(** Its cursor loop. *)
Fixpoint next_fresh (fuel : nat) q ix (head : Z) : option Z * QueueProjection :=
  match fuel with
  | O => (None, q)
  | S fuel =>
      if claim_cursor q <=? head then
        let seq := claim_cursor q in
        let q := set_cursor q (seq + 1) in
        match leases q !! seq with
        | Some _ => next_fresh fuel q ix head
        | None => if live_at ix seq then (Some seq, q) else next_fresh fuel q ix head
        end
      else (None, q)
  end.

(** [next_claimable]: the freelist is bounded by its length and the cursor by
    the head, which is the fuel. *)
Definition next_claimable q ix (head : Z) : option Z * QueueProjection :=
  match next_reclaim (length (reclaim q)) q ix with
  | (Some seq, q) => (Some seq, q)
  | (None, q) => next_fresh (Z.to_nat (head + 1 - claim_cursor q)) q ix head
  end.

(** ** The claim pass *)

(** The locals of the loop of [run_claim_cohort]. *)
Record ClaimLoop := mkLoop {
  cl_q : QueueProjection;
  cl_out : list (list (LeasedJob V));
  cl_remaining : list Z;
  cl_total : Z;
  cl_rr : nat;
  cl_dead : list Z;
  cl_events : list (nat * Z * Z * Z)
}.

(** Advance [rr] to a claimer with remaining demand, trying each once. *)
Fixpoint find_claimer (tries : nat) (remaining : list Z) (rr : nat) : nat :=
  match tries with
  | O => rr
  | S tries =>
      if nth rr remaining 0 =? 0
      then find_claimer tries remaining ((rr + 1) mod length remaining)%nat
      else rr
  end.

(** The fixed inputs of a pass. *)
Record ClaimEnv := mkClaimEnv {
  ce_claimers : list Claimer;
  ce_deadline : Z;
  ce_max_deliveries : Z;
  ce_dead_letter : option string;
  ce_index : TopicIndex V;
  ce_head : Z;
  ce_now : Z
}.

(** The job handed out for a seq. *)
Definition leased_job (env : ClaimEnv) (seq lease_id this_delivery : Z) : LeasedJob V :=
  match get (ce_index env) seq with
  | Some r => mkJob seq lease_id (ce_deadline env) (r_ts r) (r_tag r) this_delivery (r_data r) (r_meta r)
  | None => mkJob seq lease_id (ce_deadline env) (ce_now env) None this_delivery json_null None
  end.

(** One iteration: the new locals, and whether the loop goes on. *)
Definition claim_step (env : ClaimEnv) (st : ClaimLoop) : ClaimLoop * bool :=
  if cl_total st =? 0 then (st, false)
  else
    let n := length (ce_claimers env) in
    let rr := find_claimer n (cl_remaining st) (cl_rr st) in
    if nth rr (cl_remaining st) 0 =? 0 then (st, false)
    else
      match next_claimable (cl_q st) (ce_index env) (ce_head env) with
      | (None, q) =>
          (mkLoop q (cl_out st) (cl_remaining st) (cl_total st) rr (cl_dead st) (cl_events st), false)
      | (Some seq, q) =>
          let this_delivery := default 0 (deliveries q !! seq) + 1 in
          if (0 <? ce_max_deliveries env) && (ce_max_deliveries env <? this_delivery) &&
             match ce_dead_letter env with Some _ => true | None => false end
          then
            let q := set_dead_lettered (set_deliveries q (delete seq (deliveries q))) (dead_lettered q + 1) in
            (mkLoop q (cl_out st) (cl_remaining st) (cl_total st) rr (cl_dead st ++ [seq]) (cl_events st), true)
          else
            let '(lease_id, q) := alloc_lease_id q in
            let q := set_deliveries q (<[seq := this_delivery]> (deliveries q)) in
            let c := nth rr (ce_claimers env) (mkClaimer EmptyString 0 None) in
            let q := set_leases q (<[seq := mkLease (cm_node c) lease_id (ce_deadline env) (cm_work_conn c)]>
                                     (leases q)) in
            let out := alter (λ l, l ++ [leased_job env seq lease_id this_delivery]) rr (cl_out st) in
            (mkLoop q out (alter (λ r, r - 1) rr (cl_remaining st)) (cl_total st - 1)
               ((rr + 1) mod n)%nat (cl_dead st) (cl_events st ++ [(rr, seq, lease_id, this_delivery)]), true)
      end.

Fixpoint claim_loop (fuel : nat) (env : ClaimEnv) (st : ClaimLoop) : ClaimLoop :=
  match fuel with
  | O => st
  | S fuel =>
      let '(st, continue) := claim_step env st in
      if continue then claim_loop fuel env st else st
  end.

(** Each iteration consumes a freelist entry or a seq up to the head. *)
Definition claim_fuel q (head : Z) : nat :=
  S (length (reclaim q) + Z.to_nat (head + 1 - claim_cursor q)).

(** The demand of a claimer: [max.clamp(1, MAX_CLAIM)]. *)
Definition demand (c : Claimer) : Z := clamp 1 MAX_CLAIM (cm_max c).

Definition claim_init (claimers : list Claimer) q : ClaimLoop :=
  mkLoop q (replicate (length claimers) []) (demand <$> claimers)
    (foldr Z.add 0 (demand <$> claimers)) 0 [] [].

(** The pass over a swept projection. *)
Definition claim_pass (env : ClaimEnv) q : ClaimLoop :=
  claim_loop (claim_fuel q (ce_head env)) env (claim_init (ce_claimers env) q).

(** ** Queue handles *)
Definition queue_of b : QueueProjection := default (projection_new 0) (b_queue b).

(** Update the projection of a queue topic under its lock. *)
Definition with_proj {A} (name : string) (f : TopicState V → QueueProjection → QueueProjection * A) :
    EM V A :=
  b ← topic_ref name;
  match b_queue b with
  | None => throw Internal
  | Some q => let '(q, a) := f b q in _ ← store_topic name (with_queue b (Some q)); mret a
  end.

(** [get_queue] *)
Definition get_queue (name : string) : EM V (TopicState V) :=
  o ← get_topic name;
  match o with
  | None => throw TopicNotFound
  | Some b => match b_queue b with Some _ => mret b | None => throw NotAQueue end
  end.

(** [reclaim_seq] *)
Definition reclaim_seq (name : string) (seq : Z) : EM V unit :=
  with_proj name (λ _ q, (push_reclaim q seq, tt)).

(** ** Counters *)

(** [ready_in_flight_locked] *)
Definition ready_in_flight b q (now : Z) : Z * Z :=
  let is_live := live_at (b_index b) in
  let in_flight := Z.of_nat (length (filter
    (λ e : Z * Lease, now <= l_deadline_ms e.2 ∧ is_live e.1 = true) (map_to_list (leases q)))) in
  let leased_live := Z.of_nat (length (filter
    (λ e : Z * Lease, is_live e.1 = true) (map_to_list (leases q)))) in
  let delayed_live := Z.of_nat (length (filter
    (λ e : Z * Z, now < e.1 ∧ is_live e.2 = true) (delayed q))) in
  ((b_live_count b -s leased_live) -s delayed_live, in_flight).

Record QueueState := mkQueueState {
  qs_ready : Z;
  qs_in_flight : Z;
  qs_dead_lettered : Z
}.

(** [queue_counters]; a failed retention pass is logged and ignored. *)
Definition queue_counters (name : string) (now : Z) : EM V QueueState :=
  b ← topic_ref name;
  match b_queue b with
  | None => mret (mkQueueState 0 0 0)
  | Some _ =>
      _ ← attempt (enforce_retention_durable name now);
      with_proj name (λ b q,
        let q := sweep_expired q now in
        let '(ready, inf) := ready_in_flight b q now in
        (q, mkQueueState ready inf (dead_lettered q)))
  end.

(** ** Leases log *)
Definition event_byte (ev : LeaseEvent) : Z :=
  match ev with Claimed => 0 | Released => 1 | Extended => 2 | Acked => 3 end.

(** [log_lease_event] *)
Definition log_lease_event (topic_id seq : Z) (ev : LeaseEvent) (node : string)
    (lease_id deadline delivs now : Z) (leases_durable : bool) : EM V unit :=
  if negb leases_durable then mret tt
  else wal_log_lease (WalRecord.Lease topic_id seq (event_byte ev) node lease_id (ts_of deadline)
                        delivs (ts_of now)).

Definition leases_are_durable (c : TopicConfig) : bool :=
  cfg_leases_durable c && uses_persistent_record_store c.

(** ** Deletes *)

(** [delete_one_seq]: a durable jobs log commits the frame before the removal. *)
Definition delete_one_seq (name : string) (seq now : Z) : EM V unit :=
  b ← topic_ref name;
  if bool_decide (durability_class (b_config b) = Fsync) then
    _ ← wal_commit (WalRecord.Delete (b_topic_id b) None None [seq] None (ts_of now)) true;
    let '(b', stats) := delete_seqs_stats b [seq] in
    _ ← store_topic name b';
    release_total_bytes (ds_bytes_freed stats)
  else
    let '(b', stats) := delete_seqs_stats b [seq] in
    _ ← store_topic name b';
    _ ← release_total_bytes (ds_bytes_freed stats);
    wal_log_delete_seqs (b_topic_id b) [seq] now false.

(** Sequencing a list of effects. *)
Fixpoint mapM_ {A} (f : A → EM V unit) (l : list A) : EM V unit :=
  match l with
  | [] => mret tt
  | x :: l => _ ← f x; mapM_ f l
  end.

(** [requeue_diverted] *)
Definition requeue_diverted (name : string) (seqs : list Z) : EM V unit :=
  with_proj name (λ _ q,
    let q := foldl push_reclaim q seqs in
    (set_dead_lettered q (dead_lettered q -s Z.of_nat (length seqs)), tt)).

(** The dead-letter copy of a live job. *)
Definition dead_letter_copy b (max_deliveries now seq : Z) : option (StoredRecord V) :=
  match get (b_index b) seq with
  | Some r =>
      if r_deleted r then None
      else
        let meta := dead_letter_meta (r_meta r) (b_name b) max_deliveries seq in
        Some (mkRecord now (r_node r) (r_tag r) (r_data r) (Some meta)
                (payload_bytes (r_data r) (Some meta)) false true 0)
  | None => None
  end.

(** [dead_letter_jobs] *)
Definition dead_letter_jobs (src dl : string) (seqs : list Z) (max_deliveries now : Z) : EM V unit :=
  o ← get_topic dl;
  _ ← match o with
      | Some _ => mret tt
      | None => _ ← attempt (put_topic dl default_config); mret tt
      end;
  o ← get_topic dl;
  match o with
  | None => requeue_diverted src seqs
  | Some _ =>
      b ← topic_ref src;
      let records := omap (dead_letter_copy b max_deliveries now) seqs in
      appended ← match records with
                 | [] => mret true
                 | _ =>
                     r ← attempt (durable_append dl records now);
                     match r with
                     | Err _ => mret false
                     | Ok _ => _ ← attempt (enforce_retention_durable dl now); mret true
                     end
                 end;
      if appended : bool
      then mapM_ (λ seq,
             r ← attempt (delete_one_seq src seq now);
             match r with Ok _ => mret tt | Err _ => reclaim_seq src seq end) seqs
      else requeue_diverted src seqs
  end.

(** ** Claim *)

(** [run_claim_cohort] *)
Definition run_claim_cohort (name : string) (claimers : list Claimer) (lease_ms : option Z) :
    EM V (list (list (LeasedJob V)) * Z) :=
  e ← eget;
  let now := e_now e in
  _ ← enforce_retention_durable name now;
  b ← topic_ref name;
  let cfg := b_config b in
  let effective_lease := clamp MIN_LEASE_MS MAX_LEASE_MS (default (cfg_lease_ms cfg) lease_ms) in
  let deadline := i64_sat_add now effective_lease in
  st ← with_proj name (λ b q,
         let q := sweep_expired q now in
         let env := mkClaimEnv claimers deadline (cfg_max_deliveries cfg) (cfg_dead_letter cfg)
                      (b_index b) (b_head_seq b) now in
         let st := claim_pass env q in
         (cl_q st, st));
  _ ← match cl_dead st, cfg_dead_letter cfg with
      | _ :: _, Some dl => dead_letter_jobs name dl (cl_dead st) (cfg_max_deliveries cfg) now
      | _, _ => mret tt
      end;
  _ ← mapM_ (λ ev : nat * Z * Z * Z,
         let '(idx, seq, lease_id, delivs) := ev in
         log_lease_event (b_topic_id b) seq Claimed
           (cm_node (nth idx claimers (mkClaimer EmptyString 0 None))) lease_id deadline delivs now
           (leases_are_durable cfg)) (cl_events st);
  b ← topic_ref name;
  mret (cl_out st, (ready_in_flight b (queue_of b) now).1).

(** ** Fenced operations *)

(** The test of [ack], [nack] and [extend] on the [i]-th seq of a request: held
    by [node] under the supplied token. *)
Definition held_by (q : QueueProjection) (node : string) (lease_ids : list (option Z)) (i : nat)
    (seq : Z) : option Lease :=
  match leases q !! seq with
  | Some l => if bool_decide (l_node l = node) && lease_token_ok lease_ids i (l_lease_id l)
              then Some l else None
  | None => None
  end.

(** The loop they share: a held seq is passed to [act] and collected with its
    lease id, any other seq is skipped. *)
Fixpoint fenced_loop (act : QueueProjection → Z → Lease → QueueProjection) (node : string)
    (lease_ids : list (option Z)) (i : nat) (seqs : list Z) (q : QueueProjection)
    (done : list (Z * Z)) (skipped : list Z) : QueueProjection * (list (Z * Z) * list Z) :=
  match seqs with
  | [] => (q, (done, skipped))
  | seq :: seqs =>
      match held_by q node lease_ids i seq with
      | Some l => fenced_loop act node lease_ids (S i) seqs (act q seq l)
                    (done ++ [(seq, l_lease_id l)]) skipped
      | None => fenced_loop act node lease_ids (S i) seqs q done (skipped ++ [seq])
      end
  end.

(** What each operation does to the projection for one held seq. *)
Definition ack_act q (seq : Z) (l : Lease) : QueueProjection :=
  let q := set_leases q (delete seq (leases q)) in
  set_deliveries q (delete seq (deliveries q)).

Definition nack_act (now delay : Z) q (seq : Z) (l : Lease) : QueueProjection :=
  let q := set_leases q (delete seq (leases q)) in
  if 0 <? delay then push_delayed q (i64_sat_add now delay) seq else push_reclaim q seq.

Definition extend_act (deadline : Z) q (seq : Z) (l : Lease) : QueueProjection :=
  set_leases q (<[seq := mkLease (l_node l) (l_lease_id l) deadline (l_by_work_conn l)]> (leases q)).

(** The argument checks common to the three operations. *)
Definition fenced_args (node : string) (seqs : list Z) (lease_ids : list (option Z)) :
    result ErrorCode unit :=
  if bool_decide (node = EmptyString) then Err InvalidRequest
  else let? _ := check_seqs_len seqs in check_lease_ids_len seqs lease_ids.

Definition lift {A} (r : result ErrorCode A) : EM V A := λ e, (e, r).

Record FencedResponse := mkFencedResponse {
  fr_done : list (Z * Z);
  fr_skipped : list Z;
  fr_ready : Z;
  fr_in_flight : Z
}.

(** The delete loop of [ack_fenced]: on the first failure the failing seq and
    every later one go back to the freelist. *)
Fixpoint ack_deletes (name node : string) (topic_id now : Z) (durable : bool)
    (acked : list (Z * Z)) : EM V unit :=
  match acked with
  | [] => mret tt
  | (seq, lease_id) :: later =>
      r ← attempt (delete_one_seq name seq now);
      match r with
      | Err c => _ ← mapM_ (reclaim_seq name) (acked.*1); throw c
      | Ok _ =>
          _ ← log_lease_event topic_id seq Acked node lease_id 0 0 now durable;
          ack_deletes name node topic_id now durable later
      end
  end.

(** [ack_fenced] *)
Definition ack_fenced (name node : string) (seqs : list Z) (lease_ids : list (option Z)) :
    EM V FencedResponse :=
  _ ← lift (fenced_args node seqs lease_ids);
  b ← get_queue name;
  e ← eget;
  let now := e_now e in
  r ← with_proj name (λ _ q, fenced_loop ack_act node lease_ids 0 seqs (sweep_expired q now) [] []);
  _ ← ack_deletes name node (b_topic_id b) now (leases_are_durable (b_config b)) r.1;
  c ← queue_counters name now;
  mret (mkFencedResponse r.1 r.2 (qs_ready c) (qs_in_flight c)).

(** [nack_fenced] *)
Definition nack_fenced (name node : string) (seqs : list Z) (delay_ms : Z)
    (lease_ids : list (option Z)) : EM V FencedResponse :=
  _ ← lift (fenced_args node seqs lease_ids);
  b ← get_queue name;
  e ← eget;
  let now := e_now e in
  let delay := Z.min delay_ms MAX_NACK_DELAY_MS in
  r ← with_proj name (λ _ q,
        fenced_loop (nack_act now delay) node lease_ids 0 seqs (sweep_expired q now) [] []);
  _ ← mapM_ (λ sl : Z * Z, log_lease_event (b_topic_id b) sl.1 Released node sl.2 0 0 now
                             (leases_are_durable (b_config b))) r.1;
  c ← queue_counters name now;
  mret (mkFencedResponse r.1 r.2 (qs_ready c) (qs_in_flight c)).

(** [extend_fenced]; the response also lists the new deadline. *)
Definition extend_fenced (name node : string) (seqs : list Z) (lease_ms : Z)
    (lease_ids : list (option Z)) : EM V (list (Z * Z) * list Z * Z) :=
  _ ← lift (fenced_args node seqs lease_ids);
  b ← get_queue name;
  e ← eget;
  let now := e_now e in
  let deadline := i64_sat_add now (clamp MIN_LEASE_MS MAX_LEASE_MS lease_ms) in
  r ← with_proj name (λ _ q,
        fenced_loop (extend_act deadline) node lease_ids 0 seqs (sweep_expired q now) [] []);
  _ ← mapM_ (λ sl : Z * Z, log_lease_event (b_topic_id b) sl.1 Extended node sl.2 deadline 0 now
                             (leases_are_durable (b_config b))) r.1;
  mret (r, deadline).

(** ** Work connections *)

(** [work_conn_in_flight] *)
Definition work_conn_in_flight (name : string) (conn : Z) : EM V Z :=
  e ← eget;
  o ← get_topic name;
  match o with
  | None => mret 0
  | Some b =>
      match b_queue b with
      | None => mret 0
      | Some q =>
          mret (Z.of_nat (length (filter
            (λ l : Z * Lease, l_by_work_conn l.2 = Some conn ∧ e_now e <= l_deadline_ms l.2)
            (map_to_list (leases q)))))
      end
  end.

(** The seqs leased to a connection. *)
Definition conn_seqs q (conn : Z) : list Z :=
  (filter (λ l : Z * Lease, l_by_work_conn l.2 = Some conn) (map_to_list (leases q))).*1.

(** Its release loop: the seq, node and lease id of each dropped lease. *)
Fixpoint release_loop q (seqs : list Z) (released : list (Z * string * Z)) :
    QueueProjection * list (Z * string * Z) :=
  match seqs with
  | [] => (q, released)
  | seq :: seqs =>
      match leases q !! seq with
      | Some l => release_loop (release_to_reclaim q seq) seqs (released ++ [(seq, l_node l, l_lease_id l)])
      | None => release_loop q seqs released
      end
  end.

(** [release_work_conn] *)
Definition release_work_conn (name : string) (conn : Z) : EM V unit :=
  e ← eget;
  o ← get_topic name;
  match o with
  | None => mret tt
  | Some b =>
      match b_queue b with
      | None => mret tt
      | Some _ =>
          released ← with_proj name (λ _ q, release_loop q (conn_seqs q conn) []);
          mapM_ (λ r : Z * string * Z, log_lease_event (b_topic_id b) r.1.1 Released r.1.2 r.2 0 0
                   (e_now e) (leases_are_durable (b_config b))) released
      end
  end.
End queue.
