(* ===== verification/Listing.v ===== *)
(** * State reads and listings

    Models [topic_state], [list_topics], [get_router], [list_routers] and the list
    cursors of [src/engine/mod.rs].  A listing sorts the names that the caller may see
    and that lie after its cursor, returns the first page of them, and when there are
    more a cursor with the last name of the page.  The cursor is base64 of a JSON
    object, both third-party code: [Base64] is the codec with the laws the code relies
    on.

    [listing_exact]: a client that follows the cursors while topics come and go gets
    names in strictly ascending order, so none twice, only of topics it may see, and
    every such topic that was there throughout; on a registry that stays as it is the
    listing ends after at most one page a topic.  [router_listing_exact] is the same of
    routers. *)

From stdpp Require Import base gmap list strings sorting list_numbers.
From S2P Require Import Prelude Bytes Types Eviction TopicIndex QueueProjection TopicState TopicLog.
From S2P Require Import Wal Json Router Sched Diff Engine EngineLogic Forward Queue.

(** ** Cursors *)

(** [base64::engine::general_purpose::STANDARD] *)
Class Base64 := {
  b64_encode : bytes → string;
  b64_decode : string → option bytes
}.
Class Base64Laws `{!Base64} : Prop := {
  b64_roundtrip bs : b64_decode (b64_encode bs) = Some bs;
  b64_nonempty bs : b64_encode bs = EmptyString → bs = []
}.

Definition MAX_PAGE_SIZE : Z := 1000.

(** Names in byte order. *)
Definition name_lt (a b : string) : Prop := ~ String.le b a.

Definition after_ok (after : option string) (n : string) : bool :=
  match after with Some a => negb (bool_decide (String.le n a)) | None => true end.
Definition prefix_ok (prefix : option string) (n : string) : bool :=
  match prefix with Some p => starts_with p n | None => true end.

(** Sort, test for more, truncate; the cursor of the next page. *)
Definition page_of {A} (key : A → string) (size : nat) (l : list A) : list A * option string :=
  let l := merge_sort (λ x y, String.le (key x) (key y)) l in
  let has_more := (size <? length l)%nat in
  let l := take size l in
  (l, if has_more then key <$> last l else None).

Definition page_size_of (page_size : Z) : nat := Z.to_nat (Z.max 1 (Z.min page_size MAX_PAGE_SIZE)).

Record TopicSummary := mkTopicSummary {
  tm_name : string;
  tm_head_seq : Z;
  tm_earliest_seq : Z;
  tm_count : Z;
  tm_bytes : Z;
  tm_durable : bool;
  tm_effective_priority : Z
}.
Record TopicListResponse := mkTopicList {
  tl_topics : list TopicSummary;
  tl_next_cursor : option string
}.
Record TopicStateResponse := mkTopicStateResponse {
  tr_name : string;
  tr_type : TopicType;
  tr_head_seq : Z;
  tr_earliest_seq : Z;
  tr_next_seq : Z;
  tr_count : Z;
  tr_bytes : Z;
  tr_config : TopicConfig;
  tr_effective_priority : Z;
  tr_last_write_ts : option Z;
  tr_last_read_ts : option Z;
  tr_queue : option QueueState
}.
Record RouterSummary := mkRouterSummary {
  rm_router : string;
  rm_source : string;
  rm_dest : string;
  rm_guarantee : RouterGuarantee;
  rm_forwarded_total : Z
}.
Record RouterListResponse := mkRouterList {
  rl_routers : list RouterSummary;
  rl_next_cursor : option string
}.
Record RouterGetResponse := mkRouterGet {
  rg_router : Router;
  rg_forwarded_total : Z
}.

Section listing.
Context {V : Type} `{!JsonNull V} `{!Serde V} `{!Powf} `{!Base64}.
Implicit Types (e : Engine V).

(** [encode_cursor], [decode_cursor] *)
Definition encode_cursor (after : string) : string :=
  b64_encode (json_to_vec (json_object (V := V) {["after"%string := json_string after]})).
Definition decode_cursor (cursor : option string) : result ErrorCode (option string) :=
  match cursor with
  | None => Ok None
  | Some c =>
      if bool_decide (c = EmptyString) then Ok None
      else
        match b64_decode c with
        | None => Err InvalidRequest
        | Some bs =>
            match json_from_slice (V := V) bs with
            | None => Err InvalidRequest
            | Some v => Ok (m ← json_as_object v; x ← m !! "after"%string; json_as_str x)
            end
        end
  end.

Definition lift_result {A} (r : result ErrorCode A) : EM V A := λ e, (e, r).

(** ** Topics *)

(** [Engine::topic_state] *)
Definition topic_state (name : string) (touch : bool) : EM V TopicStateResponse :=
  o ← get_topic name;
  match o with
  | None => throw TopicNotFound
  | Some _ =>
      _ ← catch_up_dest name;
      e ← eget;
      let now := e_now e in
      _ ← enforce_retention_durable name now;
      b ← topic_ref name;
      _ ← (if touch then store_topic name (with_last_consumed (with_last_read b now) now) else mret tt);
      b ← topic_ref name;
      let head := b_head_seq b in
      let earliest := earliest_seq b in
      let config := b_config b in
      let priority := effective_priority now b in
      queue ← match b_queue b with
              | Some _ => c ← queue_counters name now; mret (Some c)
              | None => mret None
              end;
      b ← topic_ref name;
      mret (mkTopicStateResponse name (cfg_type config) head earliest (head +s 1) (b_live_count b) (b_bytes_retained b)
              config priority (read_ts (b_last_write_ms b)) (read_ts (b_last_read_ms b)) queue)
  end.

(** The names a caller may see after its cursor. *)
Definition visible_names (prefix : option string) (allow : list string) e : list string :=
  filter (λ n, prefix_ok prefix n && name_allowed n allow = true) (map_to_list (e_topics e)).*1.

(** One summary: the topic's retention first. *)
Definition topic_summary (name : string) (now : Z) (touch : bool) : EM V (list TopicSummary) :=
  o ← get_topic name;
  match o with
  | None => mret []
  | Some _ =>
      _ ← enforce_retention_durable name now;
      b ← topic_ref name;
      _ ← (if touch then store_topic name (with_last_consumed b now) else mret tt);
      b ← topic_ref name;
      mret [mkTopicSummary name (b_head_seq b) (earliest_seq b) (b_live_count b) (b_bytes_retained b)
              (cfg_durable (b_config b)) (effective_priority now b)]
  end.
Fixpoint topic_summaries (names : list string) (now : Z) (touch : bool) : EM V (list TopicSummary) :=
  match names with
  | [] => mret []
  | n :: names => s ← topic_summary n now touch; rest ← topic_summaries names now touch; mret (s ++ rest)
  end.

(** [Engine::list_topics] *)
Definition list_topics (prefix : option string) (page_size : Z) (cursor : option string) (touch : bool)
    (allow : list string) : EM V TopicListResponse :=
  after ← lift_result (decode_cursor cursor);
  e ← eget;
  let now := e_now e in
  let names := filter (λ n, after_ok after n = true) (visible_names prefix allow e) in
  let '(names, next) := page_of id (page_size_of page_size) names in
  topics ← topic_summaries names now touch;
  mret (mkTopicList topics (encode_cursor <$> next)).

(** ** Routers *)
Definition GET_ROUTER_PASSES : Z := 1000001.

(** [Engine::get_router]: the router is driven to the head of its source first. *)
Definition get_router (name : string) : EM V RouterGetResponse :=
  _ ← drive_router (Z.to_nat GET_ROUTER_PASSES) name;
  e ← eget;
  match graph_get (e_routers e) name with
  | None => throw RouterNotFound
  | Some r => mret (mkRouterGet r (forwarded_total (e_routers e) name))
  end.

Definition opt_eq (o : option string) (s : string) : bool :=
  match o with Some x => bool_decide (s = x) | None => true end.

Definition router_visible (prefix source dest : option string) (allow : list string) (r : Router) : bool :=
  prefix_ok prefix (rt_name r) &&
  (name_allowed (rt_name r) allow && name_allowed (rt_source r) allow && name_allowed (rt_dest r) allow) &&
  opt_eq source (rt_source r) && opt_eq dest (rt_dest r).

Definition router_summary (g : RouterGraph) (r : Router) : RouterSummary :=
  mkRouterSummary (rt_name r) (rt_source r) (rt_dest r) (rt_guarantee r) (forwarded_total g (rt_name r)).

(** [Engine::list_routers] *)
Definition list_routers (prefix source dest : option string) (page_size : Z) (cursor : option string)
    (allow : list string) : EM V RouterListResponse :=
  after ← lift_result (decode_cursor cursor);
  e ← eget;
  let g := e_routers e in
  let routers := filter (λ r, after_ok after (rt_name r) = true)
    (filter (λ r, router_visible prefix source dest allow r = true) (graph_iter g)) in
  let '(summaries, next) := page_of rm_router (page_size_of page_size) (router_summary g <$> routers) in
  mret (mkRouterList summaries (encode_cursor <$> next)).
End listing.

(** ** Paging *)
Lemma name_lt_trans a b c : name_lt a b → name_lt b c → name_lt a c.
Proof.
  unfold name_lt. intros H1 H2 H3. destruct (total String.le b a) as [?|Hab]; [done|]. apply H2. by transitivity a.
Qed.

Lemma name_le_lt a b c : String.le a b → name_lt b c → name_lt a c.
Proof. unfold name_lt. intros H1 H2 H3. apply H2. by transitivity a. Qed.

Lemma after_ok_lt a n : after_ok (Some a) n = true ↔ name_lt a n.
Proof. unfold after_ok, name_lt. rewrite negb_true_iff. apply bool_decide_eq_false. Qed.

Lemma filter_shorter {A} (p q : A → bool) (l : list A) z :
  (∀ x, q x = true → p x = true) → z ∈ l → p z = true → q z = false →
  (length (filter (λ x, q x = true) l) < length (filter (λ x, p x = true) l))%nat.
Proof.
  intros Himp. assert (Hle : ∀ l, (length (filter (λ x, q x = true) l) <= length (filter (λ x, p x = true) l))%nat).
  { clear l. induction l as [|x l IH]; [done|]. rewrite !filter_cons. repeat case_decide; simpl; try lia. exfalso. by auto. }
  induction l as [|x l IH]; intros Hz Hp Hq; [by apply not_elem_of_nil in Hz|]. specialize (Hle l). rewrite !filter_cons.
  apply elem_of_cons in Hz as [<-|Hz].
  - rewrite (decide_False (P := q z = true)) by (by rewrite Hq). rewrite decide_True by done. simpl. lia.
  - specialize (IH Hz Hp Hq). repeat case_decide; simpl; try lia. exfalso. by auto.
Qed.

Section paging.
Context {A : Type} (key : A → string) (size : nat).

Lemma sorted_strict (l : list A) :
  StronglySorted (λ x y, String.le (key x) (key y)) l → NoDup (key <$> l) → StronglySorted name_lt (key <$> l).
Proof.
  induction 1 as [|x l Hl IH Hx]; [constructor|]. rewrite fmap_cons. intros [Hn Hd]%NoDup_cons. constructor; [by apply IH|].
  apply Forall_forall. intros y (z & -> & Hz)%list_elem_of_fmap. intros Hle. apply Hn.
  rewrite (anti_symm String.le (key x) (key z)); [|by apply (proj1 (Forall_forall _ _) Hx)|done]. by apply list_elem_of_fmap_2.
Qed.

Lemma page_of_spec (l : list A) :
  (0 < size)%nat → NoDup (key <$> l) →
  let '(pg, next) := page_of key size l in
  StronglySorted name_lt (key <$> pg) ∧ (∀ x, x ∈ pg → x ∈ l) ∧
  match next with
  | None => ∀ x, x ∈ l → x ∈ pg
  | Some c => (∃ x, x ∈ pg ∧ key x = c) ∧ (∀ x, x ∈ pg → String.le (key x) c) ∧ ∀ x, x ∈ l → x ∈ pg ∨ name_lt c (key x)
  end.
Proof.
  intros Hsz Hnd. unfold page_of. set (R := λ x y, String.le (key x) (key y)). set (s := merge_sort R l).
  assert (Hp : s ≡ₚ l) by apply merge_sort_Permutation.
  assert (Hs : StronglySorted name_lt (key <$> s)).
  { apply sorted_strict; [|by rewrite Hp]. apply StronglySorted_merge_sort; unfold R.
    - intros x y z ? ?. by transitivity (key y).
    - intros x y. apply total. apply _. }
  clearbody s. rewrite <-(take_drop size s), fmap_app in Hs. apply StronglySorted_app in Hs as (Hcross & Htake & _).
  split; [done|]. split; [intros x Hx; rewrite <-Hp; by apply (subseteq_take size s)|].
  destruct (Nat.ltb_spec size (length s)) as [Hlt|Hge]; [|rewrite take_ge by lia; intros x; by rewrite Hp].
  destruct (last (take size s)) as [x|] eqn:Hl.
  2:{ apply last_None in Hl. apply (f_equal length) in Hl. rewrite length_take in Hl. simpl in Hl. lia. }
  simpl. pose proof Hl as [l' Hl']%last_Some. rewrite Hl', fmap_app in Htake. apply StronglySorted_app in Htake as (Hlast & _ & _).
  split_and!.
  - exists x. split; [|done]. rewrite Hl'. apply elem_of_app. right. by left.
  - intros y Hy. rewrite Hl' in Hy. apply elem_of_app in Hy as [Hy|Hy%list_elem_of_singleton]; [|by subst].
    destruct (total String.le (key y) (key x)) as [|Hle]; [done|]. exfalso.
    apply (Hlast (key y) (key x)); [by apply list_elem_of_fmap_2|by left|done].
  - intros y Hy. rewrite <-Hp, <-(take_drop size s) in Hy. apply elem_of_app in Hy as [Hy|Hy]; [by left|right].
    apply Hcross; apply list_elem_of_fmap_2; [|done]. rewrite Hl'. apply elem_of_app. right. by left.
Qed.

(** A client that follows the cursors, over the candidates that each page sees. *)
Fixpoint follow (vis : list (list A)) (after : option string) : option (list A) :=
  match vis with
  | [] => None
  | v :: vis =>
      let '(pg, next) := page_of key size (filter (λ x, after_ok after (key x) = true) v) in
      match next with
      | None => Some pg
      | Some c => (λ rest, pg ++ rest) <$> follow vis (Some c)
      end
  end.

Lemma NoDup_keys_filter (P : A → Prop) `{!∀ x, Decision (P x)} (l : list A) : NoDup (key <$> l) → NoDup (key <$> filter P l).
Proof.
  induction l as [|x l IH]; [done|]. rewrite fmap_cons. intros [Hx Hl]%NoDup_cons. rewrite filter_cons. case_decide; [|by apply IH].
  rewrite fmap_cons. apply NoDup_cons. split; [|by apply IH]. intros (y & Hy & [_ Hin]%list_elem_of_filter)%list_elem_of_fmap.
  apply Hx. rewrite Hy. by apply list_elem_of_fmap_2.
Qed.

Lemma follow_spec vis after out :
  (0 < size)%nat → Forall (λ v, NoDup (key <$> v)) vis → follow vis after = Some out →
  StronglySorted name_lt (key <$> out) ∧ (∀ x, x ∈ out → after_ok after (key x) = true ∧ ∃ v, v ∈ vis ∧ x ∈ v) ∧
  (∀ n, after_ok after n = true → (∀ v, v ∈ vis → n ∈ key <$> v) → n ∈ key <$> out).
Proof.
  intros Hsz. revert after out. induction vis as [|v vis IH]; intros after out Hnd; [done|]. apply Forall_cons in Hnd as [Hv Hnd].
  cbn [follow]. set (cand := filter _ v).
  pose proof (page_of_spec cand Hsz ltac:(by apply NoDup_keys_filter)) as Hpg.
  assert (Hc : ∀ x, x ∈ cand ↔ after_ok after (key x) = true ∧ x ∈ v) by (intros x; unfold cand; by rewrite list_elem_of_filter).
  assert (Hin : ∀ n, after_ok after n = true → n ∈ key <$> v → ∃ x, x ∈ cand ∧ key x = n).
  { intros n Hn (x & -> & Hx)%list_elem_of_fmap. exists x. by rewrite Hc. }
  destruct (page_of key size cand) as [pg [c|]]; destruct Hpg as (Hs & Hsub & Hrest).
  - destruct (follow vis (Some c)) as [rest|] eqn:Hf; [|done]. intros [= <-].
    destruct (IH _ _ Hnd Hf) as (Hs' & Hsub' & Hall'). destruct Hrest as ((z & Hz & Hzc) & Hle & Hcov). split_and!.
    + rewrite fmap_app. apply StronglySorted_app. split_and!; [|done..].
      intros x y (x' & -> & Hx)%list_elem_of_fmap (y' & -> & Hy)%list_elem_of_fmap.
      destruct (Hsub' _ Hy) as [Ha%after_ok_lt _]. eapply name_le_lt; [by apply Hle|done].
    + intros x [Hx|Hx]%elem_of_app.
      * apply Hsub, Hc in Hx as [? ?]. split; [done|]. exists v. split; [by left|done].
      * destruct (Hsub' _ Hx) as [Ha%after_ok_lt (v' & ? & ?)]. split; [|exists v'; split; [by right|done]].
        apply Hsub, Hc in Hz as [Hza _]. destruct after as [a|]; [|done]. apply after_ok_lt in Hza. apply after_ok_lt.
        rewrite Hzc in Hza. by eapply name_lt_trans.
    + intros n Hn Hev. rewrite fmap_app, elem_of_app. destruct (Hin n Hn) as (x & Hx & <-); [apply Hev; by left|].
      destruct (Hcov x Hx) as [?|Hlt]; [left; by apply list_elem_of_fmap_2|right].
      apply Hall'; [by apply after_ok_lt|]. intros v' Hv'. apply Hev. by right.
  - intros [= <-]. split_and!; [done|..].
    + intros x Hx%Hsub%Hc. destruct Hx. split; [done|]. exists v. split; [by left|done].
    + intros n Hn Hev. destruct (Hin n Hn) as (x & Hx & <-); [apply Hev; by left|]. apply list_elem_of_fmap_2. by apply Hrest.
Qed.

(** On candidates that stay the same every page but the last takes at least one. *)
Lemma follow_ends v after k :
  (0 < size)%nat → NoDup (key <$> v) →
  (length (filter (λ x, after_ok after (key x) = true) v) <= k)%nat → is_Some (follow (replicate (S k) v) after).
Proof.
  intros Hsz Hnd. revert after. induction k as [|k IH]; intros after Hk; cbn [replicate follow];
    set (cand := filter _ v) in *; pose proof (page_of_spec cand Hsz ltac:(by apply NoDup_keys_filter)) as Hpg.
  - destruct (page_of key size cand) as [pg [c|]]; [|by eexists]. destruct Hpg as (_ & Hsub & (z & Hz%Hsub & _) & _).
    destruct cand; [by apply not_elem_of_nil in Hz|simpl in Hk; lia].
  - destruct (page_of key size cand) as [pg [c|]]; [|by eexists]. destruct Hpg as (_ & Hsub & (z & Hz & Hzc) & _).
    apply fmap_is_Some. apply IH. apply Nat.lt_succ_r. eapply Nat.lt_le_trans; [|exact Hk].
    apply Hsub, list_elem_of_filter in Hz as [Hza Hzv]. clear -Hza Hzv Hzc.
    assert (Himp : ∀ x, after_ok (Some c) (key x) = true → after_ok after (key x) = true).
    { intros x Hx%after_ok_lt. destruct after as [a|]; [|done]. apply after_ok_lt in Hza. apply after_ok_lt.
      rewrite Hzc in Hza. by eapply name_lt_trans. }
    assert (Hnz : after_ok (Some c) (key z) = false) by (simpl; rewrite Hzc; by rewrite bool_decide_true).
    by apply (filter_shorter _ _ v z).
Qed.
End paging.

(** ** Following the cursors *)

(** A JSON document is never empty. *)
Class JsonText (V : Type) `{!Serde V} : Prop := to_vec_nonempty (v : V) : json_to_vec v ≠ [].

Section listings.
Context {V : Type} `{!JsonNull V} `{!Serde V} `{!Powf} `{!Base64}.
Implicit Types (e : Engine V).

Lemma cursor_roundtrip `{!SerdeLaws V} `{!JsonText V} `{!Base64Laws} n :
  decode_cursor (V := V) (Some (encode_cursor (V := V) n)) = Ok (Some n).
Proof.
  unfold decode_cursor, encode_cursor. set (v := json_object _). rewrite bool_decide_false.
  - rewrite b64_roundtrip, from_slice_to_vec. unfold v. rewrite as_object_object. cbn.
    rewrite lookup_singleton_eq. cbn. by rewrite as_str_string.
  - intros Hv%b64_nonempty. by apply (to_vec_nonempty v).
Qed.

#[local] Opaque decode_cursor encode_cursor.

(** Retention keeps every topic registered, and succeeds when the WAL takes its frame. *)
Lemma retention_registered n now e x :
  is_Some (e_topics e !! x) → is_Some (e_topics (enforce_retention_durable n now e).1 !! x).
Proof.
  intros Hx. destruct (decide (n = x)) as [-> |Hne]; [|by rewrite keeps_retention].
  unfold enforce_retention_durable. destruct Hx as [b Hb]. unfold mbind, EM_bind, topic_ref at 1. rewrite Hb.
  destruct (negb _).
  - destruct (enforce_retention b now) as [b' adv]. unfold store_topic, emodify, release_total_bytes. cbn.
    unfold emodify. destruct (_ =? 0); cbn; rewrite lookup_insert_eq; eauto.
  - assert (Hfin : ∀ e1 (r : result ErrorCode unit), is_Some (e_topics ((let '(b', res) := enforce_retention_hardened b now (λ _, r) in
      λ e0, match store_topic x b' e0 with
      | (e', Ok _) => match res with Ok adv => release_total_bytes (ra_bytes_reclaimed adv) | Err c => throw c end e'
      | (e', Err c) => (e', Err c)
      end) e1).1 !! x)).
    { intros e1 r. destruct (enforce_retention_hardened b now (λ _, r)) as [b' [adv|c]]; unfold store_topic, emodify; cbn.
      - unfold release_total_bytes, emodify. destruct (_ =? 0); cbn; rewrite lookup_insert_eq; eauto.
      - rewrite lookup_insert_eq; eauto. }
    destruct (retention_hardens b now); [|exact (Hfin e (Ok tt))].
    unfold attempt. destruct (log_evict_watermark _ _ _ e) as [e1 r]. exact (Hfin e1 r).
Qed.

Definition willing e : Prop := e_oracle e = [].

Lemma wal_log_willing r d e : willing e → ∃ e', wal_log r d e = (e', Ok tt) ∧ willing e' ∧ e_topics e' = e_topics e.
Proof.
  unfold willing, wal_log, wal_commit, mbind, EM_bind, eget, next_outcome. intros Ho.
  destruct (e_wal e); [|by eauto]. rewrite Ho. unfold log_frames, emodify. eexists. split; [done|]. by cbn.
Qed.

Lemma hardened_ok (b : TopicState V) now : ∃ b' adv, enforce_retention_hardened (E := ErrorCode) b now (λ _, Ok tt) = (b', Ok adv).
Proof.
  unfold enforce_retention_hardened. destruct (_ =? 0); [by eauto|]. destruct (_ && _ && _); [by eauto|].
  destruct (_ && _); destruct (reclaim_front _ _); by eauto.
Qed.

Lemma retention_willing n now e :
  willing e → is_Some (e_topics e !! n) → ∃ e', enforce_retention_durable n now e = (e', Ok tt) ∧ willing e'.
Proof.
  intros Hw [b Hb]. unfold enforce_retention_durable, mbind, EM_bind, topic_ref. rewrite Hb. destruct (negb _).
  - destruct (enforce_retention b now) as [b' adv]. unfold store_topic, emodify, release_total_bytes. cbn.
    unfold emodify. destruct (_ =? 0); cbn; eauto.
  - assert (Hfin : ∀ e1, willing e1 → ∃ e', (let '(b', res) := enforce_retention_hardened (E := ErrorCode) b now (λ _, Ok tt) in
      λ e0, match store_topic n b' e0 with
      | (e', Ok _) => match res with Ok adv => release_total_bytes (ra_bytes_reclaimed adv) | Err c => throw c end e'
      | (e', Err c) => (e', Err c)
      end) e1 = (e', Ok tt) ∧ willing e').
    { intros e1 Hw1. destruct (hardened_ok b now) as (b' & adv & ->). unfold store_topic, emodify, release_total_bytes. cbn.
      unfold emodify. destruct (_ =? 0); cbn; eauto. }
    destruct (retention_hardens b now); [|exact (Hfin e Hw)].
    unfold attempt, log_evict_watermark, mbind, EM_bind, eget. destruct (e_wal e); [|exact (Hfin e Hw)].
    destruct (_ =? 0); [exact (Hfin e Hw)|].
    match goal with |- context [wal_log ?r ?d e] => destruct (wal_log_willing r d e Hw) as (e2 & -> & Hw2 & _) end.
    exact (Hfin e2 Hw2).
Qed.

(** One summary. *)
Lemma topic_summary_spec n now touch e e' l :
  topic_summary n now touch e = (e', Ok l) →
  (∀ x, is_Some (e_topics e !! x) → is_Some (e_topics e' !! x)) ∧ (is_Some (e_topics e !! n) → tm_name <$> l = [n]).
Proof.
  unfold topic_summary, mbind, EM_bind, get_topic. destruct (e_topics e !! n) as [b|] eqn:Hb; [|intros [= <- <-]; split; [done|by intros []]].
  pose proof (retention_registered n now e) as Hreg. destruct (enforce_retention_durable n now e) as [e1 [[]|]]; [|done]. cbn in Hreg.
  unfold topic_ref. destruct (e_topics e1 !! n) as [b1|] eqn:Hb1; [|done].
  destruct touch; cbn; rewrite ?lookup_insert_eq, ?Hb1; intros [= <- <-]; (split; [|done]); intros x Hx; [|by auto].
  destruct (decide (n = x)) as [-> |]; cbn; [by rewrite lookup_insert_eq; eauto|rewrite lookup_insert_ne; auto].
Qed.

Lemma topic_summaries_spec names now touch e e' l :
  topic_summaries names now touch e = (e', Ok l) → (∀ n, n ∈ names → is_Some (e_topics e !! n)) → tm_name <$> l = names.
Proof.
  revert e l. induction names as [|n names IH]; intros e l; cbn; [by intros [= <- <-]|].
  unfold mbind, EM_bind. destruct (topic_summary n now touch e) as [e1 [s|]] eqn:Hs; [|done].
  destruct (topic_summaries names now touch e1) as [e2 [rest|]] eqn:Hr; [|done]. intros [= <- <-] Hin.
  apply topic_summary_spec in Hs as [Hreg Hn]. rewrite fmap_app, Hn by (apply Hin; by left).
  rewrite (IH _ _ Hr); [done|]. intros x Hx. apply Hreg, Hin. by right.
Qed.

Lemma visible_names_NoDup prefix allow e : NoDup (id <$> visible_names prefix allow e).
Proof. rewrite list_fmap_id. apply NoDup_filter, NoDup_fst_map_to_list. Qed.

Lemma elem_of_visible prefix allow e n :
  n ∈ visible_names prefix allow e ↔ prefix_ok prefix n = true ∧ name_allowed n allow = true ∧ is_Some (e_topics e !! n).
Proof.
  unfold visible_names. rewrite list_elem_of_filter, andb_true_iff, list_elem_of_fmap. split.
  - intros ([? ?] & [n' b] & -> & Hb%elem_of_map_to_list). simpl in *. eauto.
  - intros (? & ? & b & Hb). split; [done|]. exists (n, b). split; [done|]. by apply elem_of_map_to_list.
Qed.

Section client.
Context `{!SerdeLaws V} `{!JsonText V} `{!Base64Laws}.
Context (prefix : option string) (page_size : Z) (touch : bool) (allow : list string).

Lemma list_topics_page cursor after e e' resp :
  decode_cursor (V := V) cursor = Ok after → list_topics prefix page_size cursor touch allow e = (e', Ok resp) →
  page_of id (page_size_of page_size) (filter (λ n, after_ok after (id n) = true) (visible_names prefix allow e)) =
    (tm_name <$> tl_topics resp, match tl_next_cursor resp with Some c => default None (match decode_cursor (V := V) (Some c) with Ok o => Some o | Err _ => None end) | None => None end).
Proof.
  intros Hc. unfold list_topics, lift_result, mbind, EM_bind, eget. rewrite Hc.
  change (filter (λ n, after_ok after n = true) (visible_names prefix allow e))
    with (filter (λ n, after_ok after (id n) = true) (visible_names prefix allow e)).
  set (cand := filter _ _). destruct (page_of id _ cand) as [names next] eqn:Hp.
  destruct (topic_summaries names (e_now e) touch e) as [e1 [l|]] eqn:Hs; [|done]. intros [= <- <-]. cbn.
  f_equal; [symmetry; eapply topic_summaries_spec; [done|]|].
  - intros n Hn. pose proof (page_of_spec id (page_size_of page_size) cand) as Hpg. rewrite Hp in Hpg.
    destruct Hpg as (_ & Hsub & _); [unfold page_size_of; lia|apply NoDup_keys_filter, visible_names_NoDup|].
    apply Hsub, list_elem_of_filter in Hn as [_ Hn%elem_of_visible]. apply Hn.
  - destruct next as [c|]; [|done]. cbn [fmap option_fmap option_map]. by rewrite cursor_roundtrip.
Qed.

(** A client that lists all topics: one request for each engine state, each with the
    cursor of the page before; [None] when a request fails or the states run out. *)
Fixpoint client_lists (es : list (Engine V)) (cursor : option string) : option (list TopicSummary) :=
  match es with
  | [] => None
  | e :: es =>
      match list_topics prefix page_size cursor touch allow e with
      | (_, Ok resp) =>
          match tl_next_cursor resp with
          | None => Some (tl_topics resp)
          | Some c => (λ rest, tl_topics resp ++ rest) <$> client_lists es (Some c)
          end
      | (_, Err _) => None
      end
  end.

Lemma next_cursor_decodes cursor e e' resp c :
  list_topics prefix page_size cursor touch allow e = (e', Ok resp) → tl_next_cursor resp = Some c →
  ∃ n, decode_cursor (V := V) (Some c) = Ok (Some n).
Proof.
  unfold list_topics, lift_result, mbind, EM_bind, eget. destruct (decode_cursor cursor) as [after|]; [|done].
  destruct (page_of id _ _) as [names next]. destruct (topic_summaries names (e_now e) touch e) as [e1 [l|]]; [|done]. intros [= <- <-]. cbn.
  destruct next as [n|]; [|done]. intros [= <-]. exists n. apply cursor_roundtrip.
Qed.

Lemma client_follows es cursor after out :
  decode_cursor (V := V) cursor = Ok after → client_lists es cursor = Some out →
  follow id (page_size_of page_size) (visible_names prefix allow <$> es) after = Some (tm_name <$> out).
Proof.
  revert cursor after out. induction es as [|e es IH]; intros cursor after out Hc; [done|]. cbn [client_lists follow fmap list_fmap].
  destruct (list_topics prefix page_size cursor touch allow e) as [e' [resp|]] eqn:Hl; [|done].
  rewrite (list_topics_page cursor after e e' resp Hc Hl). destruct (tl_next_cursor resp) as [c|] eqn:Hn; [|by intros [= <-]].
  destruct (next_cursor_decodes _ _ _ _ _ Hl Hn) as [n Hd]. rewrite Hd. cbn [default id].
  destruct (client_lists es (Some c)) as [rest|] eqn:Hr; [|done]. intros [= <-]. rewrite (IH _ _ _ Hd Hr). cbn. by rewrite fmap_app.
Qed.

(** A page is served when the WAL takes the frames of its retention passes. *)
Lemma topic_summaries_willing names now e :
  willing e → ∃ e' l, topic_summaries names now touch e = (e', Ok l).
Proof.
  revert e. induction names as [|n names IH]; intros e Hw; cbn; [by eauto|]. unfold mbind, EM_bind.
  assert (∃ e1 s, topic_summary n now touch e = (e1, Ok s) ∧ willing e1) as (e1 & s & -> & Hw1).
  { unfold topic_summary, mbind, EM_bind, get_topic. destruct (e_topics e !! n) as [b|] eqn:Hb; [|by eauto].
    destruct (retention_willing n now e Hw ltac:(eauto)) as (e1 & Hr & Hw1).
    pose proof (retention_registered n now e n ltac:(eauto)) as [b1 Hb1]. rewrite Hr in Hb1 |- *. cbn in Hb1. unfold topic_ref. rewrite Hb1.
    destruct touch; cbn; rewrite ?lookup_insert_eq, ?Hb1; eauto. }
  destruct (IH e1 Hw1) as (e2 & l & ->). eauto.
Qed.

Lemma client_ends es cursor after e :
  willing e → decode_cursor (V := V) cursor = Ok after → Forall (eq e) es →
  is_Some (follow id (page_size_of page_size) (visible_names prefix allow <$> es) after) → is_Some (client_lists es cursor).
Proof.
  intros Hw. revert cursor after. induction es as [|e' es IH]; intros cursor after Hc Hes; [by intros [? [=]]|]. apply Forall_cons in Hes as [<- Hes].
  cbn [client_lists follow fmap list_fmap].
  assert (∃ e' resp, list_topics prefix page_size cursor touch allow e = (e', Ok resp)) as (e' & resp & Hl).
  { unfold list_topics, lift_result, mbind, EM_bind, eget. rewrite Hc. destruct (page_of id _ _) as [names next].
    destruct (topic_summaries_willing names (e_now e) e Hw) as (e1 & l & ->). eauto. }
  rewrite Hl, (list_topics_page cursor after e e' resp Hc Hl). destruct (tl_next_cursor resp) as [c|] eqn:Hn; [|by eauto].
  destruct (next_cursor_decodes _ _ _ _ _ Hl Hn) as [n Hd]. rewrite Hd. cbn [default id].
  rewrite !fmap_is_Some. by apply IH.
Qed.

(** C37.  A client that lists the topics by following the cursors, while topics are
    created, deleted and written between its requests, gets names in strictly ascending
    order, so none twice; only of topics that were registered when it asked, have the
    prefix and are allowed to its key; and every such topic that was registered at each
    of its requests.  When the registry stays as it is and the WAL takes the frames of
    the retention passes, the listing ends within one page more than there are topics. *)
Theorem listing_exact e0 :
  (∀ es out, client_lists es None = Some out →
     StronglySorted name_lt (tm_name <$> out) ∧
     (∀ n, n ∈ tm_name <$> out →
        prefix_ok prefix n = true ∧ name_allowed n allow = true ∧ ∃ e, e ∈ es ∧ is_Some (e_topics e !! n)) ∧
     (∀ n, prefix_ok prefix n = true → name_allowed n allow = true →
        (∀ e, e ∈ es → is_Some (e_topics e !! n)) → n ∈ tm_name <$> out)) ∧
  (e_oracle e0 = [] → is_Some (client_lists (replicate (S (size (e_topics e0))) e0) None)).
Proof.
  assert (Hsz : (0 < page_size_of page_size)%nat) by (unfold page_size_of; lia).
  split.
  - intros es out Hl. apply (client_follows es None None) in Hl; [|done].
    apply follow_spec in Hl as (Hs & Hsub & Hall); [|done|].
    2:{ apply Forall_fmap, Forall_forall. intros e _. apply visible_names_NoDup. }
    rewrite list_fmap_id in Hs, Hall. split_and!; [done|..].
    + intros n Hn. destruct (Hsub n Hn) as (_ & v & (e & -> & He)%list_elem_of_fmap & Hv%elem_of_visible). naive_solver.
    + intros n Hp Ha Hev. apply Hall; [done|]. intros v (e & -> & He)%list_elem_of_fmap. rewrite list_fmap_id. by apply elem_of_visible; auto.
  - intros Hw. eapply (client_ends _ None None); [exact Hw|done|apply Forall_replicate; done|].
    rewrite fmap_replicate. apply follow_ends; [done|apply visible_names_NoDup|].
    etrans; [apply length_filter|]. unfold visible_names. etrans; [apply length_filter|].
    rewrite length_fmap, length_map_to_list. done.
Qed.
End client.

(** ** Routers *)
Section router_client.
Context `{!SerdeLaws V} `{!JsonText V} `{!Base64Laws}.
Context (prefix source dest : option string) (page_size : Z) (allow : list string).

Definition visible_routers e : list RouterSummary :=
  router_summary (e_routers e) <$> filter (λ r, router_visible prefix source dest allow r = true) (graph_iter (e_routers e)).

Lemma visible_routers_NoDup e : names_ok (e_routers e) → NoDup (rm_router <$> visible_routers e).
Proof.
  intros Hn. unfold visible_routers. rewrite <-list_fmap_compose. change (rm_router ∘ router_summary (e_routers e)) with rt_name.
  apply NoDup_keys_filter. unfold graph_iter.
  assert (Heq : rt_name <$> (map_to_list (g_routers (e_routers e))).*2 = (map_to_list (g_routers (e_routers e))).*1).
  { rewrite <-list_fmap_compose. apply list_fmap_ext. intros i [n r] Hi. apply Hn, elem_of_map_to_list, list_elem_of_lookup. eauto. }
  rewrite Heq. apply NoDup_fst_map_to_list.
Qed.

Lemma filter_summary after (g : RouterGraph) (l : list Router) :
  filter (λ s, after_ok after (rm_router s) = true) (router_summary g <$> l) =
    router_summary g <$> filter (λ r, after_ok after (rt_name r) = true) l.
Proof.
  induction l as [|r l IH]; [done|]. rewrite fmap_cons, !filter_cons. cbn [rm_router router_summary].
  case_decide; by rewrite IH.
Qed.

Lemma list_routers_page cursor after e :
  decode_cursor (V := V) cursor = Ok after →
  list_routers prefix source dest page_size cursor allow e =
    (let '(pg, next) := page_of rm_router (page_size_of page_size) (filter (λ s, after_ok after (rm_router s) = true) (visible_routers e)) in
     (e, Ok (mkRouterList pg (encode_cursor (V := V) <$> next)))).
Proof.
  intros Hc. unfold list_routers, lift_result, mbind, EM_bind, eget. rewrite Hc. unfold visible_routers. rewrite filter_summary.
  by destruct (page_of rm_router _ _).
Qed.

Fixpoint client_routers (es : list (Engine V)) (cursor : option string) : option (list RouterSummary) :=
  match es with
  | [] => None
  | e :: es =>
      match list_routers prefix source dest page_size cursor allow e with
      | (_, Ok resp) =>
          match rl_next_cursor resp with
          | None => Some (rl_routers resp)
          | Some c => (λ rest, rl_routers resp ++ rest) <$> client_routers es (Some c)
          end
      | (_, Err _) => None
      end
  end.

Lemma client_routers_follow es cursor after :
  decode_cursor (V := V) cursor = Ok after →
  client_routers es cursor = follow rm_router (page_size_of page_size) (visible_routers <$> es) after.
Proof.
  revert cursor after. induction es as [|e es IH]; intros cursor after Hc; [done|]. cbn [client_routers follow fmap list_fmap].
  rewrite (list_routers_page cursor after e Hc). destruct (page_of rm_router _ _) as [pg [n|]]; [|done].
  cbn. by rewrite (IH (Some (encode_cursor n)) (Some n)) by apply cursor_roundtrip.
Qed.

(** The same of the listing of routers: a router is listed when its name and both its
    ends are allowed. *)
Theorem router_listing_exact es :
  Forall (λ e, names_ok (e_routers e)) es →
  (∀ out, client_routers es None = Some out →
     StronglySorted name_lt (rm_router <$> out) ∧
     (∀ s, s ∈ out → ∃ e, e ∈ es ∧ s ∈ visible_routers e) ∧
     (∀ n, (∀ e, e ∈ es → n ∈ rm_router <$> visible_routers e) → n ∈ rm_router <$> out)) ∧
  ∀ e, e ∈ es → is_Some (client_routers (replicate (S (size (g_routers (e_routers e)))) e) None).
Proof.
  intros Hes. assert (Hsz : (0 < page_size_of page_size)%nat) by (unfold page_size_of; lia). split.
  - intros out. rewrite (client_routers_follow es None None) by done. intros Hf.
    apply follow_spec in Hf as (Hs & Hsub & Hall); [|done|].
    2:{ apply Forall_fmap. eapply Forall_impl; [done|]. intros e. apply visible_routers_NoDup. }
    split_and!; [done|..].
    + intros s Hs'. destruct (Hsub s Hs') as (_ & v & (e & -> & He)%list_elem_of_fmap & Hv). eauto.
    + intros n Hev. apply Hall; [done|]. intros v (e & -> & He)%list_elem_of_fmap. by apply Hev.
  - intros e He. rewrite (client_routers_follow _ None None) by done. rewrite fmap_replicate.
    apply follow_ends; [done|apply visible_routers_NoDup; by apply (proj1 (Forall_forall _ _) Hes)|].
    etrans; [apply length_filter|]. unfold visible_routers. rewrite length_fmap. etrans; [apply length_filter|].
    unfold graph_iter. by rewrite length_fmap, length_map_to_list.
Qed.
End router_client.
End listings.

(** ** Samples *)
Module ListingSamples.
Import JsonSample.
#[local] Instance listing_pow : Powf := λ q, q.

(** Bytes kept as they are. *)
#[local] Instance plain64 : Base64 := {|
  b64_encode := String.string_of_list_byte;
  b64_decode := λ s, Some (as_bytes s)
|}.
#[local] Instance plain64_laws : Base64Laws.
Proof.
  split; [|by intros []]. intros bs. unfold b64_decode, b64_encode, plain64, as_bytes. by rewrite String.list_byte_of_string_of_list_byte.
Qed.
#[local] Instance json_text : JsonText Json.
Proof. intros v Hv. pose proof (from_slice_to_vec v) as Hr. rewrite Hv in Hr. vm_compute in Hr. discriminate. Qed.

(** Topics [a1], [a2], [a3] and [b1]; the key is limited to names that begin with a. *)
Definition topic_named (n : string) : TopicState Json := topic_new n 1 default_config 1 1.
Definition registry (ns : list string) : gmap string (TopicState Json) := list_to_map ((λ n, (n, topic_named n)) <$> ns).
Definition listed_engine (ns : list string) : Engine Json := mkEngine (registry ns) 0 1 0 0 0 None [] 0 0 graph_new sched_new.

(** Between the pages [a2] is deleted and [a0] and [a4] are created. *)
Definition listed_states : list (Engine Json) :=
  [listed_engine ["b1"; "a3"; "a1"; "a2"]; listed_engine ["a4"; "a0"; "b1"; "a3"; "a1"]]%string.

Lemma listing_exact_witness :
  ∃ out, client_lists None 2 false ["a"%string] listed_states None = Some out ∧ tm_name <$> out = ["a1"; "a2"; "a3"; "a4"]%string ∧
    StronglySorted name_lt (tm_name <$> out) ∧
    is_Some (client_lists None 2 false ["a"%string] (replicate 5 (listed_engine ["b1"; "a3"; "a1"; "a2"]%string)) None).
Proof.
  destruct (listing_exact (V := Json) None 2 false ["a"%string] (listed_engine ["b1"; "a3"; "a1"; "a2"]%string)) as [H1 H2].
  eexists. split; [by vm_compute|]. split; [by vm_compute|]. split; [|by apply H2].
  refine (proj1 (H1 listed_states _ _)). by vm_compute.
Defined.

Definition routed_engine : Engine Json :=
  let r n d := mkRouter n "a1"%string d true true true None false AtLeastOnce in
  mkEngine (registry ["a1"; "a2"; "b1"]%string) 3 4 0 0 0 None [] 0 0
    (mkGraph (<["ra"%string := r "ra" "a2"]> (<["rb"%string := r "rb" "b1"]> (<["rc"%string := r "rc" "a2"]> ∅)))%string ∅ ∅ ∅) sched_new.

Lemma router_listing_exact_witness :
  is_Some (client_routers None None (Some "a2"%string) 1 [] (replicate 4 routed_engine) None) ∧
  rm_router <$> default [] (client_routers None None (Some "a2"%string) 1 [] [routed_engine; routed_engine] None) = ["ra"; "rc"]%string.
Proof.
  split; [|by vm_compute].
  destruct (router_listing_exact (V := Json) None None (Some "a2"%string) 1 [] [routed_engine]) as [_ H2].
  - apply Forall_singleton. intros n r Hr. unfold routed_engine in Hr. cbn [e_routers g_routers] in Hr.
    rewrite !lookup_insert_Some, lookup_empty in Hr. naive_solver.
  - apply (H2 routed_engine). by left.
Defined.
End ListingSamples.
