(* ===== verification/QueueSpec.v ===== *)
(** * Correctness of the queue operations

    The claim pass, the fenced operations and the counters of [Queue], proved
    against the invariant [queue_inv]: the projection is well formed, delayed
    jobs are neither leased nor on the freelist, and every live job the claim
    cursor has passed is tracked. *)

From S2P Require Import Prelude Types Eviction TopicIndex QueueProjection TopicState TopicLog.
From S2P Require Import Bytes Wal Json Engine Queue.

Section queue_spec.
Context {V : Type} `{!JsonNull V} `{!Serde V}.
Implicit Types (b : TopicState V) (ix : TopicIndex V) (q : QueueProjection).

(** ** The invariant *)

(** Every live job below the cursor is leased, reclaimable or delayed. *)
Definition tracked ix q : Prop :=
  ∀ s, s < claim_cursor q → live_at ix s = true → accounted q s.

(** The parts of the projection a search for the next job leaves alone. *)
Definition same_leases q q' : Prop :=
  leases q' = leases q ∧ deliveries q' = deliveries q ∧ delayed q' = delayed q ∧
  next_lease_id q' = next_lease_id q ∧ dead_lettered q' = dead_lettered q.

(** A job the coordinator may hand out: live and not leased. *)
Definition claimable ix q (s : Z) : Prop := live_at ix s = true ∧ leases q !! s = None.

(** ** The next claimable job *)
Lemma next_reclaim_spec fuel q ix :
  proj_wf q → (length (reclaim q) <= fuel)%nat →
  let '(o, q') := next_reclaim fuel q ix in
  proj_wf q' ∧ same_leases q q' ∧ claim_cursor q' = claim_cursor q ∧
  match o with
  | Some s =>
      s ∈ reclaim q ∧ claimable ix q s ∧ (length (reclaim q') < length (reclaim q))%nat ∧
      (∀ s', s' ∈ reclaim q' ↔ s' ∈ reclaim q ∧ s < s') ∧
      (∀ s', s' ∈ reclaim q → s' < s → ¬ claimable ix q s')
  | None => reclaim q' = [] ∧ ∀ s', s' ∈ reclaim q → ¬ claimable ix q s'
  end.
Proof.
  unfold same_leases, claimable. revert q. induction fuel as [|fuel IH]; intros q Hwf Hf; simpl.
  { destruct (reclaim q) as [|s r] eqn:Hr; [|simpl in Hf; lia].
    split_and!; try done. intros s' []%not_elem_of_nil. }
  destruct (pop_reclaim q) as [[s q1]|] eqn:Hp; cycle 1.
  { unfold pop_reclaim in Hp. destruct (reclaim q) as [|s r] eqn:Hr; [|done].
    split_and!; try done. intros s' []%not_elem_of_nil. }
  pose proof (pop_reclaim_wf _ _ _ Hwf Hp) as Hwf1. pose proof (pw_reclaim_ascending _ Hwf) as Hasc.
  unfold pop_reclaim in Hp. destruct (reclaim q) as [|s0 r] eqn:Hr; [done|]. injection Hp as -> <-.
  apply ascending_cons_inv in Hasc as [_ Hlt].
  set (q1 := set_reclaim q r (in_reclaim q ∖ {[s]})) in *. simpl in Hf.
  specialize (IH q1 Hwf1 ltac:(simpl; lia)).
  assert (Hskip : ¬ claimable ix q s →
    let '(o, q') := next_reclaim fuel q1 ix in
    proj_wf q' ∧ same_leases q q' ∧ claim_cursor q' = claim_cursor q ∧
    match o with
    | Some s1 => s1 ∈ s :: r ∧ claimable ix q s1 ∧ (length (reclaim q') < length (s :: r))%nat ∧
        (∀ s', s' ∈ reclaim q' ↔ s' ∈ s :: r ∧ s1 < s') ∧
        (∀ s', s' ∈ s :: r → s' < s1 → ¬ claimable ix q s')
    | None => reclaim q' = [] ∧ ∀ s', s' ∈ s :: r → ¬ claimable ix q s'
    end).
  { unfold same_leases, claimable. intros Hns. destruct (next_reclaim fuel q1 ix) as [[s1|] q'].
    - destruct IH as (Hw & Hsame & Hc & Hin & Hcl & Hlen & Hiff & Hbefore).
      split_and!; try done; try apply Hsame; try apply Hcl; [by right|simpl in *; lia| |].
      + intros s'. rewrite Hiff, elem_of_cons. simpl. split; [naive_solver|].
        intros [[->|?] ?]; [|done]. pose proof (Hlt s1 Hin). lia.
      + intros s' [->|Hin']%elem_of_cons; [done|]. by apply Hbefore.
    - destruct IH as (Hw & Hsame & Hc & Hnil & Hnone). split_and!; try done; try apply Hsame.
      intros s' [->|Hin']%elem_of_cons; [done|]. by apply Hnone. }
  unfold same_leases, claimable in Hskip. simpl leases.
  destruct (leases q !! s) as [l|] eqn:Hls.
  { apply Hskip. by intros [_ ?]. }
  destruct (live_at ix s) eqn:Hlive; [|apply Hskip; by intros [? _]].
  split_and!; try done; [by left|simpl; lia| |].
  - intros s'. simpl. rewrite elem_of_cons. split.
    + intros Hs'. split; [by right|]. by apply Hlt.
    + intros [[->|?] ?]; [lia|done].
  - intros s' [->|Hs']%elem_of_cons Hle; [lia|]. specialize (Hlt s' Hs'). lia.
Qed.

Lemma set_cursor_wf q c : proj_wf q → claim_cursor q <= c → proj_wf (set_cursor q c).
Proof.
  intros [Hasc Hin Hrc Hlc Hds Hdc Hid Hinj] Hc. split; simpl; try done.
  - intros s Hs. specialize (Hrc s Hs). lia.
  - intros s l Hs. specialize (Hlc s l Hs). lia.
  - intros e He. specialize (Hdc e He). lia.
Qed.

Lemma next_fresh_spec fuel q ix head :
  proj_wf q → head + 1 - claim_cursor q <= Z.of_nat fuel →
  let '(o, q') := next_fresh fuel q ix head in
  match o with
  | Some s =>
      claim_cursor q <= s <= head ∧ claimable ix q s ∧ q' = set_cursor q (s + 1) ∧
      (∀ s', claim_cursor q <= s' < s → ¬ claimable ix q s')
  | None =>
      q' = set_cursor q (Z.max (claim_cursor q) (head + 1)) ∧
      ∀ s', claim_cursor q <= s' <= head → ¬ claimable ix q s'
  end.
Proof.
  unfold claimable. revert q. induction fuel as [|fuel IH]; intros q Hwf Hf; simpl.
  { split; [|lia]. rewrite Z.max_l by lia. by destruct q. }
  destruct (Z.leb_spec (claim_cursor q) head); cycle 1.
  { split; [|lia]. rewrite Z.max_l by lia. by destruct q. }
  set (q1 := set_cursor q (claim_cursor q + 1)).
  assert (Hnl : leases q !! claim_cursor q = None).
  { destruct (leases q !! claim_cursor q) as [l|] eqn:Hl; [|done].
    pose proof (pw_leases_cursor _ Hwf _ _ Hl). lia. }
  assert (Hwf1 : proj_wf q1) by (apply set_cursor_wf; [done|lia]).
  simpl leases. rewrite Hnl. destruct (live_at ix (claim_cursor q)) eqn:Hlive.
  { split_and!; try done; try lia. }
  specialize (IH q1 Hwf1 ltac:(simpl; lia)).
  destruct (next_fresh fuel q1 ix head) as [[s|] q']; simpl in IH.
  - destruct IH as (Hr & Hcl & -> & Hb). split_and!; try done; try lia; try apply Hcl.
    intros s' Hs'. destruct (decide (s' = claim_cursor q)) as [->|]; [rewrite Hlive; naive_solver|].
    apply Hb. lia.
  - destruct IH as (-> & Hb). split; [unfold q1, set_cursor; simpl; f_equal; lia|].
    intros s' Hs'. destruct (decide (s' = claim_cursor q)) as [->|]; [rewrite Hlive; naive_solver|].
    apply Hb. lia.
Qed.

(** What is left to search: freelist entries and seqs up to the head. *)
Definition search_space q (head : Z) : nat :=
  (length (reclaim q) + Z.to_nat (head + 1 - claim_cursor q))%nat.

Lemma accounted_same q q' s :
  same_leases q q' → (s ∈ reclaim q → s ∈ reclaim q') → accounted q s → accounted q' s.
Proof. unfold accounted. intros (-> & _ & -> & _) Hr. tauto. Qed.

(** The next job is claimable and leaves the freelist; the search loses no
    other job. *)
Lemma next_claimable_spec q ix head :
  proj_wf q →
  let '(o, q') := next_claimable q ix head in
  proj_wf q' ∧ same_leases q q' ∧ claim_cursor q <= claim_cursor q' ∧
  match o with
  | Some s =>
      claimable ix q s ∧ s < claim_cursor q' ∧ (search_space q' head < search_space q head)%nat ∧
      (∀ s', s' ∈ reclaim q' → s' ∈ reclaim q ∧ s < s') ∧
      (s ∈ reclaim q ∨ claim_cursor q <= s) ∧
      (∀ s', s' < claim_cursor q' → live_at ix s' = true →
         (s' < claim_cursor q → accounted q s') → s' = s ∨ accounted q' s')
  | None =>
      reclaim q' = [] ∧ head < claim_cursor q' ∧
      (∀ s', s' < claim_cursor q' → live_at ix s' = true →
         (s' < claim_cursor q → accounted q s') → accounted q' s')
  end.
Proof.
  intros Hwf. unfold next_claimable.
  pose proof (next_reclaim_spec (length (reclaim q)) q ix Hwf ltac:(lia)) as Hr.
  destruct (next_reclaim (length (reclaim q)) q ix) as [[s|] q1].
  - destruct Hr as (Hwf1 & Hsame & Hc & Hin & Hcl & Hlen & Hiff & Hbefore).
    split_and!; try done; try lia; try apply Hsame; try apply Hcl.
    + rewrite Hc. by apply (pw_reclaim_cursor _ Hwf).
    + unfold search_space. rewrite Hc. lia.
    + intros s'. apply Hiff.
    + by left.
    + intros s' Hs' Hlive Htr. rewrite Hc in Hs'. destruct (decide (s' = s)) as [|Hne]; [by left|right].
      specialize (Htr Hs'). unfold accounted in *. destruct Hsame as (-> & _ & -> & _).
      destruct (leases q !! s') as [l|] eqn:Hl; [by left; eauto|].
      destruct Htr as [[? ?]|[Hin'|?]]; [done| |by eauto].
      right. left. apply Hiff. split; [done|]. destruct (decide (s' < s)) as [Hlt|]; [|lia].
      by destruct (Hbefore s' Hin' Hlt).
  - destruct Hr as (Hwf1 & Hsame & Hc & Hnil & Hnone).
    assert (Hrest : ∀ q2, leases q2 = leases q1 → delayed q2 = delayed q1 →
      ∀ s', live_at ix s' = true → accounted q s' → accounted q2 s').
    { intros q2 Hl2 Hd2 s' Hlive Htr. unfold accounted in *.
      rewrite Hl2, Hd2. destruct Hsame as (-> & _ & -> & _).
      destruct (leases q !! s') as [l|] eqn:Hl; [by left; eauto|].
      destruct Htr as [[? ?]|[Hin'|?]]; [done| |by eauto]. by destruct (Hnone s' Hin'). }
    pose proof (next_fresh_spec (Z.to_nat (head + 1 - claim_cursor q1)) q1 ix head Hwf1 ltac:(lia)) as Hf.
    destruct (next_fresh _ q1 ix head) as [[s|] q2].
    + destruct Hf as (Hrange & Hcl & -> & Hb). simpl. rewrite Hc in *.
      assert (Hcl' : claimable ix q s) by (unfold claimable in *; by destruct Hsame as (<- & _)).
      split_and!; try done; try lia; try apply Hsame; try apply Hcl'.
      * apply set_cursor_wf; [done|lia].
      * unfold search_space. simpl. rewrite Hnil. simpl. lia.
      * rewrite Hnil. intros s' []%not_elem_of_nil.
      * intros s' Hs' Hlive Htr. destruct (decide (s' = s)) as [|Hne]; [by left|right].
        destruct (decide (s' < claim_cursor q)) as [Hlt|Hge]; [by apply Hrest; auto|].
        destruct (leases q1 !! s') as [l|] eqn:Hl; [by left; eauto|].
        destruct (Hb s' ltac:(lia)). done.
    + destruct Hf as (-> & Hb). simpl. rewrite Hc in *.
      split_and!; try done; try lia; try apply Hsame; [apply set_cursor_wf; [done|lia]|].
      intros s' Hs' Hlive Htr. simpl in Hs'.
      destruct (decide (s' < claim_cursor q)) as [Hlt|Hge]; [by apply Hrest; auto|].
      destruct (leases q1 !! s') as [l|] eqn:Hl; [by left; eauto|].
      destruct (Hb s' ltac:(lia)). done.
Qed.

(** The cursor stays within one of the head. *)
Lemma next_claimable_cursor q ix head :
  proj_wf q → claim_cursor (next_claimable q ix head).2 <= Z.max (claim_cursor q) (head + 1).
Proof.
  intros Hwf. unfold next_claimable.
  pose proof (next_reclaim_spec (length (reclaim q)) q ix Hwf ltac:(lia)) as Hr.
  destruct (next_reclaim (length (reclaim q)) q ix) as [[s|] q1]; destruct Hr as (Hwf1 & _ & Hc & _).
  { simpl. lia. }
  pose proof (next_fresh_spec (Z.to_nat (head + 1 - claim_cursor q1)) q1 ix head Hwf1 ltac:(lia)) as Hf.
  destruct (next_fresh _ q1 ix head) as [[s|] q2]; [destruct Hf as (? & _ & -> & _)|destruct Hf as (-> & _)];
    simpl; lia.
Qed.

(** ** The claim pass *)

Definition ev_seqs (evs : list (nat * Z * Z * Z)) : list Z := (λ ev, ev.1.1.2) <$> evs.
Definition claimer_at (env : ClaimEnv (V := V)) (i : nat) : Claimer :=
  nth i (ce_claimers env) (mkClaimer EmptyString 0 None).
Definition job_of (env : ClaimEnv (V := V)) (ev : nat * Z * Z * Z) : LeasedJob V :=
  leased_job env ev.1.1.2 ev.1.2 ev.2.

(** A job over its delivery budget with a dead-letter topic to go to. *)
Definition over_budget (env : ClaimEnv (V := V)) (d : Z) : bool :=
  (0 <? ce_max_deliveries env) && (ce_max_deliveries env <? d) &&
  match ce_dead_letter env with Some _ => true | None => false end.

(** The loop invariant, relative to the projection [q0] the pass starts from. *)
Record claim_inv (env : ClaimEnv (V := V)) q0 (st : ClaimLoop (V := V)) : Prop := {
  ci_wf : proj_wf (cl_q st);
  ci_len_rem : length (cl_remaining st) = length (ce_claimers env);
  ci_len_out : length (cl_out st) = length (ce_claimers env);
  ci_total : cl_total st = foldr Z.add 0 (cl_remaining st);
  ci_rem : Forall (λ r, 0 <= r) (cl_remaining st);
  ci_rr : (cl_rr st < length (ce_claimers env))%nat ∨ (ce_claimers env = []);
  ci_cursor : claim_cursor q0 <= claim_cursor (cl_q st);
  ci_delayed : delayed (cl_q st) = delayed q0;
  ci_next : next_lease_id q0 <= next_lease_id (cl_q st);
  ci_event i s id d :
    (i, s, id, d) ∈ cl_events st →
    leases (cl_q st) !! s =
      Some (mkLease (cm_node (claimer_at env i)) id (ce_deadline env) (cm_work_conn (claimer_at env i))) ∧
    claimable (ce_index env) q0 s ∧ next_lease_id q0 <= id < next_lease_id (cl_q st) ∧
    (i < length (ce_claimers env))%nat ∧ d = default 0 (deliveries q0 !! s) + 1 ∧
    over_budget env d = false;
  ci_leases s : s ∉ ev_seqs (cl_events st) → leases (cl_q st) !! s = leases q0 !! s;
  ci_deliveries s :
    s ∉ ev_seqs (cl_events st) ++ cl_dead st → deliveries (cl_q st) !! s = deliveries q0 !! s;
  ci_asc_events : ascending (ev_seqs (cl_events st));
  ci_asc_dead : ascending (cl_dead st);
  ci_handled s :
    s ∈ ev_seqs (cl_events st) ++ cl_dead st →
    s < claim_cursor (cl_q st) ∧ ∀ s', s' ∈ reclaim (cl_q st) → s < s';
  ci_dead s :
    s ∈ cl_dead st → claimable (ce_index env) q0 s ∧ (s ∉ ev_seqs (cl_events st)) ∧
    over_budget env (default 0 (deliveries q0 !! s) + 1) = true;
  ci_tracked s :
    tracked (ce_index env) q0 → s < claim_cursor (cl_q st) → live_at (ce_index env) s = true →
    s ∈ cl_dead st ∨ accounted (cl_q st) s;
  ci_out i :
    (i < length (ce_claimers env))%nat →
    cl_out st !! i = Some (job_of env <$> filter (λ ev, ev.1.1.1 = i) (cl_events st))
}.

Lemma sum_pos l : Forall (λ r, 0 <= r) l → 0 <= foldr Z.add 0 l.
Proof. induction 1; simpl; lia. Qed.

Lemma sum_zero_nth l i : Forall (λ r, 0 <= r) l → foldr Z.add 0 l = 0 → nth i l 0 = 0.
Proof.
  intros Hl. revert i. induction Hl as [|r l Hr Hl IH]; intros i Hs; [by destruct i|].
  pose proof (sum_pos l Hl). simpl in Hs. destruct i; simpl; [lia|]. apply IH. lia.
Qed.

Lemma demand_pos c : 1 <= demand c <= MAX_CLAIM.
Proof. unfold demand, clamp, MAX_CLAIM. destruct (_ <? 1) eqn:?; [lia|]. destruct (1000 <? _) eqn:?; lia. Qed.

Lemma claim_init_inv env q :
  proj_wf q → claim_inv env q (claim_init (ce_claimers env) q).
Proof.
  intros Hwf. split; simpl; try done.
  - by rewrite length_fmap.
  - by rewrite length_replicate.
  - apply Forall_fmap, Forall_true. intros c. pose proof (demand_pos c). simpl. lia.
  - destruct (ce_claimers env); [by right|left; simpl; lia].
  - intros i s id d []%not_elem_of_nil.
  - constructor.
  - constructor.
  - intros s []%not_elem_of_nil.
  - intros s []%not_elem_of_nil.
  - intros s Ht Hs Hl. right. by apply Ht.
  - intros i Hi. by rewrite lookup_replicate_2.
Qed.

Lemma find_claimer_range tries rem rr :
  (rr < length rem)%nat → (find_claimer tries rem rr < length rem)%nat.
Proof.
  revert rr. induction tries as [|tries IH]; intros rr Hrr; simpl; [done|].
  destruct (nth rr rem 0 =? 0); [|done]. apply IH, Nat.mod_upper_bound. lia.
Qed.

Lemma find_claimer_zeros tries rem rr :
  (rr < length rem)%nat → nth (find_claimer tries rem rr) rem 0 = 0 →
  ∀ k, (k < tries)%nat → nth ((rr + k) mod length rem)%nat rem 0 = 0.
Proof.
  revert rr. induction tries as [|tries IH]; intros rr Hrr Hz k Hk; [lia|]. simpl in Hz.
  destruct (Z.eqb_spec (nth rr rem 0) 0) as [H0|]; [|congruence].
  destruct k as [|k]; [by rewrite Nat.add_0_r, Nat.mod_small|].
  specialize (IH ((rr + 1) mod length rem)%nat ltac:(apply Nat.mod_upper_bound; lia) Hz k ltac:(lia)).
  rewrite Nat.Div0.add_mod_idemp_l in IH. by replace (rr + S k)%nat with (rr + 1 + k)%nat by lia.
Qed.

(** A claimer with remaining demand is found whenever there is one. *)
Lemma find_claimer_finds rem rr :
  (rr < length rem)%nat → Forall (λ r, 0 <= r) rem →
  nth (find_claimer (length rem) rem rr) rem 0 = 0 → foldr Z.add 0 rem = 0.
Proof.
  intros Hrr Hpos Hz. pose proof (find_claimer_zeros _ _ _ Hrr Hz) as Hall.
  assert (Hz' : Forall (λ r, r = 0) rem).
  { apply Forall_lookup. intros i r Hi. pose proof (lookup_lt_Some _ _ _ Hi) as Hlt.
    apply (nth_lookup_Some _ _ 0) in Hi as <-.
    specialize (Hall ((i + (length rem - rr)) mod length rem)%nat ltac:(apply Nat.mod_upper_bound; lia)).
    rewrite Nat.Div0.add_mod_idemp_r in Hall.
    replace (rr + (i + (length rem - rr)))%nat with (i + 1 * length rem)%nat in Hall by lia.
    by rewrite Nat.Div0.mod_add, Nat.mod_small in Hall by lia. }
  clear -Hz'. induction Hz' as [|r rem -> _ IH]; simpl; [done|lia].
Qed.

Lemma sum_alter rem i :
  (i < length rem)%nat → foldr Z.add 0 (alter (λ r, r - 1) i rem) = foldr Z.add 0 rem - 1.
Proof.
  revert i. induction rem as [|r rem IH]; intros i Hi; simpl in *; [lia|].
  destruct i as [|i]; [simpl; lia|].
  change (r + foldr Z.add 0 (alter (λ r, r - 1) i rem) = r + foldr Z.add 0 rem - 1).
  rewrite IH by lia. lia.
Qed.

Lemma alter_pred_nonneg rem i :
  Forall (λ r, 0 <= r) rem → nth i rem 0 ≠ 0 → Forall (λ r, 0 <= r) (alter (λ r, r - 1) i rem).
Proof.
  intros Hr Hn. apply Forall_lookup. intros j r Hj.
  destruct (decide (i = j)) as [->|Hne].
  - rewrite list_lookup_alter, decide_True in Hj by done. apply fmap_Some in Hj as (r0 & Hr0 & ->).
    pose proof (Forall_lookup_1 _ _ _ _ Hr Hr0). apply (nth_lookup_Some _ _ 0) in Hr0. simpl in *. lia.
  - rewrite list_lookup_alter_ne in Hj by done. by apply (Forall_lookup_1 _ _ _ _ Hr Hj).
Qed.

(** Leasing an unleased job below the cursor under the next id. *)
Definition lease_job q (s node_deliveries : Z) (node : string) (deadline : Z) (conn : option Z) :
    QueueProjection :=
  let q' := set_next_lease_id q (next_lease_id q + 1) in
  set_leases (set_deliveries q' (<[s := node_deliveries]> (deliveries q')))
    (<[s := mkLease node (next_lease_id q) deadline conn]> (leases q')).

Lemma lease_job_wf q s d node deadline conn :
  proj_wf q → s < claim_cursor q → proj_wf (lease_job q s d node deadline conn).
Proof.
  intros [Hasc Hin Hrc Hlc Hds Hdc Hid Hinj] Hs. split; simpl; try done.
  - intros s' l [[<- <-]|[_ ?]]%lookup_insert_Some; [done|]. by eapply Hlc.
  - intros s' l [[<- <-]|[_ Hl]]%lookup_insert_Some; simpl; [lia|]. specialize (Hid _ _ Hl). lia.
  - intros s1 s2 l1 l2 [[<- <-]|[_ H1]]%lookup_insert_Some [[<- <-]|[_ H2]]%lookup_insert_Some Heq;
      simpl in *; try done.
    + specialize (Hid _ _ H2). lia.
    + specialize (Hid _ _ H1). lia.
    + by eapply Hinj.
Qed.

(** The facts both branches of a step share. *)
Lemma step_handled env q0 st s q' :
  claim_inv env q0 st →
  (s ∈ reclaim (cl_q st) ∨ claim_cursor (cl_q st) <= s) →
  (∀ s', s' ∈ reclaim q' → s' ∈ reclaim (cl_q st) ∧ s < s') →
  claim_cursor (cl_q st) <= claim_cursor q' → s < claim_cursor q' →
  (∀ t, t ∈ ev_seqs (cl_events st) ++ cl_dead st → t < s) ∧
  (∀ t, t = s ∨ t ∈ ev_seqs (cl_events st) ++ cl_dead st →
     t < claim_cursor q' ∧ ∀ s', s' ∈ reclaim q' → t < s').
Proof.
  intros Hinv Hfrom Hrec Hcur Hs.
  assert (Hlt : ∀ t, t ∈ ev_seqs (cl_events st) ++ cl_dead st → t < s).
  { intros t Ht. destruct (ci_handled _ _ _ Hinv t Ht) as [Htc Htr].
    destruct Hfrom as [Hin|]; [by apply Htr|lia]. }
  split; [done|]. intros t [->|Ht].
  - split; [done|]. intros s' Hs'. by apply Hrec.
  - specialize (Hlt t Ht). split; [lia|]. intros s' Hs'. destruct (Hrec s' Hs'). lia.
Qed.

(** A job over its delivery budget is diverted. *)
Lemma dead_step_inv env q0 st s q' rr :
  claim_inv env q0 st → (rr < length (ce_claimers env))%nat →
  next_claimable (cl_q st) (ce_index env) (ce_head env) = (Some s, q') →
  over_budget env (default 0 (deliveries q' !! s) + 1) = true →
  claim_inv env q0
    (mkLoop (set_dead_lettered (set_deliveries q' (delete s (deliveries q'))) (dead_lettered q' + 1))
       (cl_out st) (cl_remaining st) (cl_total st) rr (cl_dead st ++ [s]) (cl_events st)).
Proof.
  intros Hinv Hrr Hn Hover. pose proof (next_claimable_spec (cl_q st) (ce_index env) (ce_head env)
    (ci_wf _ _ _ Hinv)) as Hspec. rewrite Hn in Hspec.
  destruct Hspec as (Hwf & (Hl & Hdv & Hdl & Hnx & _) & Hcur & (Hlive & Hnone) & Hs & _ & Hrec & Hfrom & Htr).
  destruct (step_handled env q0 st s q' Hinv Hfrom Hrec Hcur Hs) as [Hlt Hhandled].
  assert (Hns : s ∉ ev_seqs (cl_events st) ++ cl_dead st) by (intros Hin; specialize (Hlt s Hin); lia).
  pose proof Hns as Hns'. rewrite elem_of_app in Hns'.
  destruct Hinv as [I1 I2 I3 I4 I5 I6 I7 I8 I9 I10 I11 I12 I13 I14 I15 I16 I17 I18].
  split; simpl; try done.
  - by apply set_dead_lettered_wf, set_deliveries_wf.
  - by left.
  - lia.
  - by rewrite Hdl.
  - by rewrite Hnx.
  - intros i t id d Hin. rewrite Hl, Hnx. by apply I10.
  - intros t Ht. rewrite Hl. by apply I11.
  - intros t Ht. rewrite Hdv, lookup_delete_ne by set_solver. apply I12. set_solver.
  - apply ascending_snoc; [done|]. intros t Ht. apply Hlt. set_solver.
  - intros t Ht. apply Hhandled. set_solver.
  - intros t [Ht|Ht%list_elem_of_singleton]%elem_of_app; [by apply I16|subst t].
    rewrite I11 in Hnone by tauto. rewrite Hdv, I12 in Hover by done. split_and!; [done|tauto|done].
  - intros t Ht0 Ht Htl. destruct (decide (t = s)) as [->|Hne]; [set_solver|].
    destruct (decide (t ∈ cl_dead st)) as [|Hnd]; [set_solver|].
    destruct (Htr t Ht Htl) as [?|Hacc]; [|done|by right].
    intros Htc. by destruct (I17 t Ht0 Htc Htl).
Qed.

Lemma ev_seqs_snoc evs ev : ev_seqs (evs ++ [ev]) = ev_seqs evs ++ [ev.1.1.2].
Proof. unfold ev_seqs. by rewrite fmap_app. Qed.

(** A job within its budget is leased to the chosen claimer. *)
Lemma lease_step_inv env q0 st s q' rr :
  claim_inv env q0 st → (rr < length (ce_claimers env))%nat → nth rr (cl_remaining st) 0 ≠ 0 →
  next_claimable (cl_q st) (ce_index env) (ce_head env) = (Some s, q') →
  let d := default 0 (deliveries q' !! s) + 1 in
  let c := claimer_at env rr in
  over_budget env d = false →
  claim_inv env q0
    (mkLoop (lease_job q' s d (cm_node c) (ce_deadline env) (cm_work_conn c))
       (alter (λ l, l ++ [leased_job env s (next_lease_id q') d]) rr (cl_out st))
       (alter (λ r, r - 1) rr (cl_remaining st)) (cl_total st - 1)
       ((rr + 1) mod length (ce_claimers env))%nat (cl_dead st)
       (cl_events st ++ [(rr, s, next_lease_id q', d)])).
Proof.
  intros Hinv Hrr Hrem Hn d c Hover. pose proof (next_claimable_spec (cl_q st) (ce_index env) (ce_head env)
    (ci_wf _ _ _ Hinv)) as Hspec. rewrite Hn in Hspec.
  destruct Hspec as (Hwf & (Hl & Hdv & Hdl & Hnx & _) & Hcur & (Hlive & Hnone) & Hs & _ & Hrec & Hfrom & Htr).
  destruct (step_handled env q0 st s q' Hinv Hfrom Hrec Hcur Hs) as [Hlt Hhandled].
  assert (Hns : s ∉ ev_seqs (cl_events st) ++ cl_dead st) by (intros Hin; specialize (Hlt s Hin); lia).
  pose proof Hns as Hns'. rewrite elem_of_app in Hns'.
  destruct Hinv as [I1 I2 I3 I4 I5 I6 I7 I8 I9 I10 I11 I12 I13 I14 I15 I16 I17 I18].
  assert (Hd : d = default 0 (deliveries q0 !! s) + 1) by (unfold d; by rewrite Hdv, I12).
  assert (Hcl0 : claimable (ce_index env) q0 s) by (split; [done|]; rewrite <-I11; [done|tauto]).
  split; simpl; rewrite ?ev_seqs_snoc; simpl; try done.
  - by apply lease_job_wf.
  - by rewrite length_alter.
  - by rewrite length_alter.
  - rewrite sum_alter by lia. lia.
  - by apply alter_pred_nonneg.
  - left. apply Nat.mod_upper_bound. lia.
  - lia.
  - by rewrite Hdl.
  - lia.
  - intros i t id d' [Hin|Hin%list_elem_of_singleton]%elem_of_app.
    + destruct (I10 _ _ _ _ Hin) as (Hle & Hclt & Hid & Hi & Hdt & Hob).
      assert (t ∈ ev_seqs (cl_events st)) by (apply list_elem_of_fmap; by exists (i, t, id, d')).
      rewrite lookup_insert_ne by set_solver. rewrite Hl. split_and!; try done; lia.
    + injection Hin as -> -> -> ->. rewrite lookup_insert_eq. split_and!; try done; lia.
  - intros t Ht. rewrite lookup_insert_ne by set_solver. rewrite Hl. apply I11. set_solver.
  - intros t Ht. rewrite lookup_insert_ne by set_solver. rewrite Hdv. apply I12. set_solver.
  - apply ascending_snoc; [done|]. intros t Ht. apply Hlt. set_solver.
  - intros t Ht. apply Hhandled. set_solver.
  - intros t Ht. destruct (I16 t Ht) as (? & ? & ?). split_and!; [done|set_solver|done].
  - intros t Ht0 Ht Htl. destruct (decide (t = s)) as [->|Hne].
    { right. left. simpl. rewrite lookup_insert_eq. eauto. }
    destruct (decide (t ∈ cl_dead st)) as [|Hnd]; [by left|right].
    destruct (Htr t Ht Htl) as [?|Hacc]; [|done|].
    { intros Htc. by destruct (I17 t Ht0 Htc Htl). }
    unfold accounted in *. simpl. by rewrite lookup_insert_ne by done.
  - intros i Hi. rewrite filter_app, fmap_app. destruct (decide (rr = i)) as [->|Hne].
    + rewrite list_lookup_alter, decide_True, I18 by done. simpl.
      rewrite filter_cons_True by done. done.
    + rewrite list_lookup_alter_ne, I18 by done.
      rewrite filter_cons_False by done. simpl. by rewrite app_nil_r.
Qed.

Lemma claim_step_inv env q0 st :
  claim_inv env q0 st → claim_inv env q0 (claim_step env st).1.
Proof.
  intros Hinv. unfold claim_step. destruct (cl_total st =? 0) eqn:Ht; [done|].
  set (rr := find_claimer _ _ _). destruct (Z.eqb_spec (nth rr (cl_remaining st) 0) 0) as [|Hrem]; [done|].
  assert (Hrr : (rr < length (ce_claimers env))%nat).
  { destruct (ci_rr _ _ _ Hinv) as [Hlt|Hnil].
    - rewrite <-(ci_len_rem _ _ _ Hinv) in Hlt |- *. by apply find_claimer_range.
    - pose proof (ci_len_rem _ _ _ Hinv) as Hl. rewrite Hnil in Hl. apply nil_length_inv in Hl.
      rewrite Hl in Hrem. by destruct rr. }
  destruct (next_claimable _ _ _) as [[s|] q'] eqn:Hn.
  - destruct ((0 <? _) && _ && _) eqn:Hover; simpl.
    + by eapply dead_step_inv.
    + by eapply lease_step_inv.
  - simpl. pose proof (next_claimable_spec (cl_q st) (ce_index env) (ce_head env)
      (ci_wf _ _ _ Hinv)) as Hspec. rewrite Hn in Hspec.
    destruct Hspec as (Hwf & (Hl & Hdv & Hdl & Hnx & _) & Hcur & Hnil & Hhead & Htr).
    destruct Hinv as [I1 I2 I3 I4 I5 I6 I7 I8 I9 I10 I11 I12 I13 I14 I15 I16 I17 I18].
    split; simpl; rewrite ?Hl, ?Hdv, ?Hdl, ?Hnx; try done; try lia.
    + intros t Ht'. destruct (I15 t Ht') as [? _]. split; [lia|]. rewrite Hnil. intros s' []%not_elem_of_nil.
    + intros t Ht0 Htc Htl. destruct (decide (t ∈ cl_dead st)) as [|Hnd]; [by left|right].
      apply Htr; [done..|]. intros Htc'. by destruct (I17 t Ht0 Htc' Htl).
Qed.

Lemma claim_loop_inv fuel env q0 st :
  claim_inv env q0 st → claim_inv env q0 (claim_loop fuel env st).
Proof.
  revert st. induction fuel as [|fuel IH]; intros st Hinv; simpl; [done|].
  pose proof (claim_step_inv env q0 st Hinv) as Hs.
  destruct (claim_step env st) as [st' []]; simpl in *; [by apply IH|done].
Qed.

(** A pass ends with the whole demand served or nothing left to hand out. *)
Definition claim_done (env : ClaimEnv (V := V)) (st : ClaimLoop (V := V)) : Prop :=
  cl_total st = 0 ∨ reclaim (cl_q st) = [] ∧ ce_head env < claim_cursor (cl_q st).

Lemma claim_step_done env q0 st :
  claim_inv env q0 st →
  let '(st', continue) := claim_step env st in
  if continue : bool
  then (search_space (cl_q st') (ce_head env) < search_space (cl_q st) (ce_head env))%nat
  else claim_done env st'.
Proof.
  intros Hinv. unfold claim_step, claim_done. destruct (Z.eqb_spec (cl_total st) 0) as [|Ht]; [by left|].
  set (rr := find_claimer _ _ _). destruct (Z.eqb_spec (nth rr (cl_remaining st) 0) 0) as [Hz|Hrem].
  { exfalso. apply Ht. rewrite (ci_total _ _ _ Hinv).
    destruct (ci_rr _ _ _ Hinv) as [Hlt|Hnil].
    - rewrite <-(ci_len_rem _ _ _ Hinv) in Hlt. unfold rr in Hz. rewrite <-(ci_len_rem _ _ _ Hinv) in Hz.
      eapply find_claimer_finds; [done|apply (ci_rem _ _ _ Hinv)|done].
    - pose proof (ci_len_rem _ _ _ Hinv) as Hl. rewrite Hnil in Hl. apply nil_length_inv in Hl.
      by rewrite Hl. }
  pose proof (next_claimable_spec (cl_q st) (ce_index env) (ce_head env) (ci_wf _ _ _ Hinv)) as Hspec.
  destruct (next_claimable _ _ _) as [[s|] q'].
  - destruct Hspec as (_ & _ & _ & _ & _ & Hsp & _). destruct ((0 <? _) && _ && _); exact Hsp.
  - destruct Hspec as (_ & _ & _ & Hnil & Hhead & _). by right.
Qed.

(** Termination: the search space is enough fuel. *)
Lemma claim_loop_done fuel env q0 st :
  claim_inv env q0 st → (search_space (cl_q st) (ce_head env) < fuel)%nat →
  claim_done env (claim_loop fuel env st).
Proof.
  revert st. induction fuel as [|fuel IH]; intros st Hinv Hf; [lia|]. simpl.
  pose proof (claim_step_inv env q0 st Hinv) as Hs. pose proof (claim_step_done env q0 st Hinv) as Hd.
  destruct (claim_step env st) as [st' []]; simpl in *; [|done]. apply IH; [done|lia].
Qed.

Lemma claim_pass_inv env q : proj_wf q → claim_inv env q (claim_pass env q).
Proof. intros Hwf. by apply claim_loop_inv, claim_init_inv. Qed.

Lemma claim_pass_done env q : proj_wf q → claim_done env (claim_pass env q).
Proof.
  intros Hwf. apply (claim_loop_done _ _ q); [by apply claim_init_inv|].
  unfold claim_fuel, search_space. simpl. lia.
Qed.

(** ** Properties of the claim pass *)

(** C19. Exclusive leases: a claim pass leases only live jobs that nobody held,
    each to one claimer of the cohort under a lease id never used before, hands
    them out in ascending seq order, and changes no other lease. *)
Theorem claim_exclusive env q :
  proj_wf q →
  let st := claim_pass env q in
  ascending (ev_seqs (cl_events st)) ∧
  (∀ i s id d, (i, s, id, d) ∈ cl_events st →
     live_at (ce_index env) s = true ∧ leases q !! s = None ∧
     next_lease_id q <= id ∧ (∀ s' l, leases q !! s' = Some l → l_lease_id l ≠ id) ∧
     leases (cl_q st) !! s =
       Some (mkLease (cm_node (claimer_at env i)) id (ce_deadline env) (cm_work_conn (claimer_at env i)))) ∧
  (∀ s, s ∉ ev_seqs (cl_events st) → leases (cl_q st) !! s = leases q !! s) ∧
  proj_wf (cl_q st).
Proof.
  intros Hwf st. pose proof (claim_pass_inv env q Hwf) as Hinv. fold st in Hinv.
  split_and!; [apply Hinv| |apply (ci_leases _ _ _ Hinv)|apply Hinv].
  intros i s id d Hin. destruct (ci_event _ _ _ Hinv _ _ _ _ Hin) as (Hl & [Hlive Hnone] & Hid & _).
  split_and!; try done; [lia|]. intros s' l Hs'. pose proof (pw_lease_ids _ Hwf _ _ Hs'). lia.
Qed.

(** C23. No stranded job: if every live job below the cursor was tracked before the
    pass, then afterwards it is tracked or on the list of jobs being
    dead-lettered; and a pass that leaves demand unserved leaves no live job that
    is neither leased, delayed nor dead-lettered. *)
Theorem claim_complete env q :
  proj_wf q → tracked (ce_index env) q →
  let st := claim_pass env q in
  (∀ s, s < claim_cursor (cl_q st) → live_at (ce_index env) s = true →
     s ∈ cl_dead st ∨ accounted (cl_q st) s) ∧
  (cl_total st ≠ 0 →
   ∀ s, s <= ce_head env → live_at (ce_index env) s = true →
     s ∈ cl_dead st ∨ is_Some (leases (cl_q st) !! s) ∨ ∃ at_, (at_, s) ∈ delayed q).
Proof.
  intros Hwf Htr st. pose proof (claim_pass_inv env q Hwf) as Hinv. fold st in Hinv.
  assert (Htr' : ∀ s, s < claim_cursor (cl_q st) → live_at (ce_index env) s = true →
    s ∈ cl_dead st ∨ accounted (cl_q st) s) by (intros s; by apply (ci_tracked _ _ _ Hinv)).
  split; [done|]. intros Hne s Hs Hlive.
  destruct (claim_pass_done env q Hwf) as [?|[Hnil Hhead]]; [done|]. fold st in Hnil, Hhead.
  destruct (Htr' s ltac:(lia) Hlive) as [?|[?|[Hin|Hd]]]; [by left|by auto| |].
  - rewrite Hnil in Hin. by apply not_elem_of_nil in Hin.
  - right. right. by rewrite <-(ci_delayed _ _ _ Hinv).
Qed.

(** Each claimer gets exactly the jobs of its lease events, in order, with the
    delivery counter one above its previous value; with a delivery budget and a
    dead-letter topic, a job beyond the budget is diverted, never delivered. *)
Theorem claim_deliveries env q :
  proj_wf q →
  let st := claim_pass env q in
  (∀ i, (i < length (ce_claimers env))%nat →
     cl_out st !! i = Some (job_of env <$> filter (λ ev, ev.1.1.1 = i) (cl_events st))) ∧
  (∀ i s id d, (i, s, id, d) ∈ cl_events st →
     d = default 0 (deliveries q !! s) + 1 ∧ over_budget env d = false) ∧
  (∀ s, s ∈ cl_dead st →
     over_budget env (default 0 (deliveries q !! s) + 1) = true ∧ leases (cl_q st) !! s = None).
Proof.
  intros Hwf st. pose proof (claim_pass_inv env q Hwf) as Hinv. fold st in Hinv. split_and!.
  - apply (ci_out _ _ _ Hinv).
  - intros i s id d Hin. by destruct (ci_event _ _ _ Hinv _ _ _ _ Hin) as (_ & _ & _ & _ & ? & ?).
  - intros s Hs. destruct (ci_dead _ _ _ Hinv s Hs) as ([_ Hnone] & Hne & Ho). split; [done|].
    by rewrite (ci_leases _ _ _ Hinv s Hne).
Qed.
End queue_spec.
