(* ===== verification/QueueInv.v ===== *)
(** * The queue invariant across requests

    [proj_inv] is what a queue keeps between its critical sections: a well-formed
    projection in which no job is in two places, the cursor at most one past the
    head, and every live job the cursor has passed either tracked or among the
    jobs [S] a request holds in hand (acked or diverted but not yet deleted).
    Every request of [Queue] keeps it, under every pattern of WAL faults, so no
    live job is ever stranded. *)

From S2P Require Import Prelude Types Eviction TopicIndex QueueProjection TopicState TopicLog.
From S2P Require Import Bytes Wal Json Engine EngineLogic Queue QueueSpec.

(** A job is leased, reclaimable or delayed, in one place only. *)
Record proj_disjoint (q : QueueProjection) : Prop := {
  pd_lease_reclaim s : is_Some (leases q !! s) → s ∉ reclaim q;
  pd_lease_delayed s at_ : is_Some (leases q !! s) → (at_, s) ∉ delayed q;
  pd_reclaim_delayed s at_ : s ∈ reclaim q → (at_, s) ∉ delayed q;
  pd_delayed_once : NoDup ((delayed q).*2)
}.

Section queue_inv.
Context {V : Type} `{!JsonNull V} `{!Serde V}.
Implicit Types (b : TopicState V) (ix : TopicIndex V) (q : QueueProjection) (S : list Z).

Record proj_inv S ix (head : Z) q : Prop := {
  pi_wf : proj_wf q;
  pi_disjoint : proj_disjoint q;
  pi_head : claim_cursor q <= head + 1;
  pi_once : NoDup S;
  pi_hand s : s ∈ S → s < claim_cursor q ∧ ¬ accounted q s;
  pi_tracked s : s < claim_cursor q → live_at ix s = true → s ∈ S ∨ accounted q s
}.

(** ** Changes of the log *)
Lemma proj_inv_live S ix ix' head head' q :
  proj_inv S ix head q → head <= head' →
  (∀ s, s <= head → live_at ix' s = true → live_at ix s = true) → proj_inv S ix' head' q.
Proof.
  intros [] Hh Hl. split; try done; [lia|]. intros s Hs Hlive. apply pi_tracked0; [done|].
  apply Hl; [lia|done].
Qed.

Lemma proj_inv_deleted S ix ix' head q s :
  proj_inv (s :: S) ix head q →
  (∀ t, live_at ix' t = true → live_at ix t = true ∧ t ≠ s) → proj_inv S ix' head q.
Proof.
  intros [] Hl. split; try done.
  - by apply NoDup_cons in pi_once0 as [_ ?].
  - intros t Ht. apply pi_hand0. by right.
  - intros t Ht [Hlive Hne]%Hl. destruct (pi_tracked0 t Ht Hlive) as [[->|?]%elem_of_cons|?]; auto. done.
Qed.

Lemma proj_inv_perm S S' ix head q : S ≡ₚ S' → proj_inv S ix head q → proj_inv S' ix head q.
Proof.
  intros Hp []. split; try done.
  - by rewrite <-Hp.
  - intros s. rewrite <-Hp. apply pi_hand0.
  - intros s. rewrite <-Hp. apply pi_tracked0.
Qed.

Lemma proj_inv_new base ix head : base <= head + 1 → (∀ s, s < base → live_at ix s = false) →
  proj_inv [] ix head (projection_new base).
Proof.
  intros Hb Hl. split; simpl; try done.
  - apply projection_new_wf.
  - split; simpl; try set_solver. constructor.
  - constructor.
  - intros s []%not_elem_of_nil.
  - intros s Hs Hlive. by rewrite Hl in Hlive.
Qed.

(** ** Changes of the projection *)

(** The fields that matter, up to the counters. *)
Lemma proj_inv_ext S ix head q q' :
  proj_inv S ix head q → proj_wf q' → leases q' = leases q → reclaim q' = reclaim q →
  delayed q' = delayed q → claim_cursor q' = claim_cursor q → proj_inv S ix head q'.
Proof.
  intros [Hwf [] ? ? Hh Ht] Hwf' Hl Hr Hd Hc. unfold accounted in *.
  split; unfold accounted; rewrite ?Hl, ?Hr, ?Hd, ?Hc; try done.
  by split; rewrite ?Hl, ?Hr, ?Hd.
Qed.

(** A job in hand goes back to the freelist. *)
Lemma proj_inv_push_reclaim S ix head q s :
  proj_inv (s :: S) ix head q → proj_inv S ix head (push_reclaim q s).
Proof.
  intros [Hwf [H1 H2 H3 H4] ? [Hns ?]%NoDup_cons Hh Ht].
  destruct (Hh s) as [Hsc Hsa]; [by left|].
  destruct (push_reclaim_fields q s) as (Hl & _ & Hd & Hc & _).
  pose proof (elem_of_push_reclaim q s) as Hr.
  assert (leases q !! s = None ∧ ∀ at_, (at_, s) ∉ delayed q) as [Hln Hdn].
  { unfold accounted in Hsa. split; [apply eq_None_not_Some; tauto|naive_solver]. }
  split; try done; rewrite ?Hc; try done.
  - by apply push_reclaim_wf.
  - split; rewrite ?Hl, ?Hd; try done.
    + intros t [l ?]. rewrite Hr by done. intros [->|?]; [congruence|]. by eapply H1.
    + intros t at_. rewrite Hr by done. intros [->|?]; [done|]. by apply H3.
  - intros t HtS. destruct (Hh t) as [? Hna]; [by right|]. split; [done|].
    unfold accounted in *. rewrite Hl, Hd, Hr by done. intros [?|[[->|?]|?]]; tauto.
  - intros t Htc Hlive. unfold accounted. rewrite Hl, Hd, Hr by done.
    destruct (Ht t Htc Hlive) as [[->|?]%elem_of_cons|[?|[?|?]]]; tauto.
Qed.

(** Dropping a lease puts its job in hand. *)
Lemma proj_inv_unlease S ix head q s :
  proj_inv S ix head q → is_Some (leases q !! s) →
  proj_inv (s :: S) ix head (set_leases q (delete s (leases q))).
Proof.
  intros [Hwf [H1 H2 H3 H4] ? ? Hh Ht] [l Hls].
  assert (s ∉ S) by (intros [_ Hn]%Hh; apply Hn; left; eauto).
  split; simpl; try done.
  - by apply set_leases_delete_wf.
  - split; simpl; try done.
    + intros t [_ ?]%lookup_delete_is_Some. by apply H1.
    + intros t at_ [_ ?]%lookup_delete_is_Some. by apply H2.
  - by apply NoDup_cons.
  - intros t [->|HtS]%elem_of_cons.
    + split; [by eapply pw_leases_cursor|]. unfold accounted. simpl. rewrite lookup_delete_eq.
      intros [[? ?]|[?|[? ?]]]; [done|by eapply H1; eauto|by eapply H2; eauto].
    + destruct (Hh t HtS) as [? Hna]. split; [done|]. unfold accounted in *. simpl.
      rewrite lookup_delete_is_Some. naive_solver.
  - intros t Htc Hlive. destruct (decide (t = s)) as [->|Hne]; [left; by left|].
    unfold accounted. simpl. rewrite lookup_delete_ne by done.
    destruct (Ht t Htc Hlive) as [?|?]; [left; by right|by right].
Qed.

(** A job in hand is leased under a fresh id. *)
Lemma proj_inv_lease S ix head q s d node deadline conn :
  proj_inv (s :: S) ix head q → proj_inv S ix head (lease_job q s d node deadline conn).
Proof.
  intros [Hwf [H1 H2 H3 H4] ? [Hns ?]%NoDup_cons Hh Ht].
  destruct (Hh s) as [Hsc Hsa]; [by left|]. unfold accounted in Hsa.
  split; simpl; try done.
  - by apply lease_job_wf.
  - split; simpl; try done.
    + intros t [<-|[_ ?]]%lookup_insert_is_Some; [tauto|]. by apply H1.
    + intros t at_ [<-|[_ ?]]%lookup_insert_is_Some; [naive_solver|]. by apply H2.
  - intros t HtS. destruct (Hh t) as [? Hna]; [by right|]. split; [done|]. unfold accounted in *. simpl.
    rewrite lookup_insert_ne by set_solver. done.
  - intros t Htc Hlive. unfold accounted. simpl. rewrite lookup_insert_is_Some.
    destruct (decide (s = t)) as [->|Hne]; [tauto|].
    destruct (Ht t Htc Hlive) as [[->|?]%elem_of_cons|[?|?]]; tauto.
Qed.

(** An extension replaces a lease by one with the same id. *)
Lemma proj_inv_extend S ix head q s l deadline :
  proj_inv S ix head q → leases q !! s = Some l → proj_inv S ix head (extend_act deadline q s l).
Proof.
  intros [Hwf [H1 H2 H3 H4] ? ? Hh Ht] Hl. unfold extend_act.
  assert (Hdom : ∀ t, is_Some (<[s := mkLease (l_node l) (l_lease_id l) deadline (l_by_work_conn l)]>
    (leases q) !! t) ↔ is_Some (leases q !! t)).
  { intros t. rewrite lookup_insert_is_Some. destruct (decide (s = t)) as [<-|]; [|tauto].
    split; eauto. }
  assert (Hid : ∀ t l', <[s := mkLease (l_node l) (l_lease_id l) deadline (l_by_work_conn l)]>
    (leases q) !! t = Some l' → ∃ l0, leases q !! t = Some l0 ∧ l_lease_id l0 = l_lease_id l').
  { intros t l' [[<- <-]|[_ ?]]%lookup_insert_Some; eauto. }
  split; simpl; try done.
  - destruct Hwf as [Hasc Hin Hrc Hlc Hds Hdc Hidc Hinj]. split; simpl; try done.
    + intros t l' (l0 & ? & _)%Hid. by eapply Hlc.
    + intros t l' (l0 & ? & <-)%Hid. by eapply Hidc.
    + intros t t' l1 l2 (l1' & ? & <-)%Hid (l2' & ? & <-)%Hid ?. by eapply Hinj.
  - split; simpl; try done.
    + intros t ?%Hdom. by apply H1.
    + intros t at_ ?%Hdom. by apply H2.
  - intros t HtS. unfold accounted. simpl. rewrite Hdom. by apply Hh.
  - intros t Htc Hlive. unfold accounted. simpl. rewrite Hdom. by apply Ht.
Qed.

(** A job in hand is delayed. *)
Lemma proj_inv_push_delayed S ix head q s at_ :
  proj_inv (s :: S) ix head q → proj_inv S ix head (push_delayed q at_ s).
Proof.
  intros [Hwf [H1 H2 H3 H4] ? [Hns ?]%NoDup_cons Hh Ht].
  destruct (Hh s) as [Hsc Hsa]; [by left|]. unfold accounted in Hsa.
  split; simpl; try done.
  - by apply push_delayed_wf.
  - split; simpl; try done.
    + intros t at' Hl [[= -> ->]|?]%elem_of_heap_push; [tauto|by eapply H2].
    + intros t at' Hl [[= -> ->]|?]%elem_of_heap_push; [tauto|by eapply H3].
    + rewrite heap_push_perm. simpl. apply NoDup_cons. split; [|done].
      intros ((at' & ?) & -> & ?)%list_elem_of_fmap. naive_solver.
  - intros t HtS. destruct (Hh t) as [? Hna]; [by right|]. split; [done|]. unfold accounted in *. simpl.
    intros [?|[?|[at' [[= -> ->]|?]%elem_of_heap_push]]]; naive_solver.
  - intros t Htc Hlive. unfold accounted. simpl.
    destruct (Ht t Htc Hlive) as [[->|?]%elem_of_cons|[?|[?|[at' ?]]]]; [right| tauto | tauto | tauto | right].
    + do 2 right. exists at_. apply elem_of_heap_push. by left.
    + do 2 right. exists at'. apply elem_of_heap_push. by right.
Qed.

Lemma proj_inv_sweep S ix head q now :
  proj_inv S ix head q → proj_inv S ix head (sweep_expired q now).
Proof.
  intros [Hwf [H1 H2 H3 H4] ? ? Hh Ht].
  destruct (sweep_expired_spec q now Hwf) as (Hwf' & Hl & Hr & Hd & _ & Hc & _).
  assert (Hl' : ∀ s, is_Some (leases (sweep_expired q now) !! s) → is_Some (leases q !! s)).
  { intros s [l [? _]%Hl]. eauto. }
  assert (Hlive : ∀ s l, leases q !! s = Some l → l_deadline_ms l < now →
    ¬ is_Some (leases (sweep_expired q now) !! s)).
  { intros s l Hs Hx [l' [? ?]%Hl]. simplify_eq. lia. }
  split; rewrite ?Hc; try done.
  - split; rewrite ?Hd.
    + intros s Hs. rewrite Hr. intros [?|[(l & ? & ?)|[Hn _]]].
      * by eapply H1; eauto.
      * by eapply Hlive.
      * destruct (Hl' s Hs) as [? ?]. congruence.
    + intros s at_ Hs [_ ?]%list_elem_of_filter. by eapply H2; eauto.
    + intros s at_. rewrite Hr. intros [?|[(l & ? & ?)|(Hn & at' & ? & Hin)]] [Hlt Hin']%list_elem_of_filter.
      * by eapply H3.
      * by eapply H2; eauto.
      * simpl in Hlt. apply list_elem_of_lookup in Hin as [i Hi], Hin' as [j Hj].
        assert (i = j) by (eapply NoDup_lookup; [apply H4|rewrite list_lookup_fmap, Hi; done|
          rewrite list_lookup_fmap, Hj; done]). simplify_eq. lia.
    + eapply sublist_NoDup; [exact H4|]. apply fmap_sublist, sublist_filter.
  - intros s HsS. destruct (Hh s HsS) as [? Hna]. split; [done|]. unfold accounted in *.
    rewrite Hr, Hd. intros [?|[[?|[(l & ? & ?)|(? & at_ & ? & ?)]]|[at_ [_ ?]%list_elem_of_filter]]];
      apply Hna; eauto.
  - intros s Hs Hliv. destruct (Ht s Hs Hliv) as [?|?]; [by left|right]. by apply sweep_expired_accounted.
Qed.

(** ** The claim pass *)

(** The search takes the next job in hand. *)
Lemma proj_inv_next_claimable S ix head q :
  proj_inv S ix head q →
  let '(o, q') := next_claimable q ix head in
  match o with
  | Some s => proj_inv (s :: S) ix head q'
  | None => proj_inv S ix head q'
  end.
Proof.
  intros [Hwf [H1 H2 H3 H4] Hhd Hnd Hh Ht]. pose proof (next_claimable_spec q ix head Hwf) as Hspec.
  pose proof (next_claimable_cursor q ix head Hwf) as Hcb.
  destruct (next_claimable q ix head) as [o q']. simpl in Hcb.
  destruct Hspec as (Hwf' & (Hl & _ & Hd & _) & Hc & Hspec).
  assert (Hfresh : ∀ s, claim_cursor q <= s → ¬ accounted q s).
  { intros s Hs [[l ?]|[?|[at_ ?]]].
    - pose proof (pw_leases_cursor _ Hwf s l ltac:(done)). lia.
    - pose proof (pw_reclaim_cursor _ Hwf s ltac:(done)). lia.
    - pose proof (pw_delayed_cursor _ Hwf (at_, s) ltac:(done)). simpl in *. lia. }
  assert (Hsub : ∀ s, s ∈ reclaim q' → s ∈ reclaim q).
  { destruct o as [s|]; [intros t ?; by apply Hspec|]. destruct Hspec as [-> _]. set_solver. }
  assert (Hacc : ∀ s, accounted q' s → accounted q s).
  { intros s. unfold accounted. rewrite Hl, Hd. naive_solver. }
  assert (Hdis : proj_disjoint q').
  { split; rewrite ?Hl, ?Hd; try done; intros s; [|intros at_]; intros Hs; [|by apply H3, Hsub].
    intros ?%Hsub. by eapply H1. }
  destruct o as [s|].
  - destruct Hspec as ((Hlive & Hnone) & Hsc & _ & Hrec & Hfrom & Htr).
    assert (HsS : s ∉ S).
    { intros [? Hna]%Hh. destruct Hfrom; [|lia]. apply Hna. unfold accounted. tauto. }
    split; try done; [lia|by apply NoDup_cons| |].
    + intros t [->|Ht']%elem_of_cons; cycle 1.
      { destruct (Hh t Ht'). split; [lia|naive_solver]. }
      split; [done|]. unfold accounted. rewrite Hl, Hd, Hnone.
      intros [[? ?]|[Hin|[at_ Hin]]]; [done|apply Hrec in Hin; lia|].
      destruct Hfrom as [?|Hge]; [by eapply H3|]. eapply Hfresh; [done|]. unfold accounted. eauto.
    + intros t Htc Hlt. destruct (decide (t ∈ S)) as [|HnS]; [left; by right|].
      destruct (Htr t Htc Hlt) as [->|?]; [|left; by left|by right].
      intros Htc'. by destruct (Ht t Htc' Hlt).
  - destruct Hspec as (Hnil & Hhead & Htr). split; try done; [lia| |].
    + intros t Ht'. destruct (Hh t Ht'). split; [lia|naive_solver].
    + intros t Htc Hlt. destruct (decide (t ∈ S)) as [|HnS]; [by left|right].
      apply Htr; [done..|]. intros Htc'. by destruct (Ht t Htc' Hlt).
Qed.

Lemma proj_inv_claim_step S (env : ClaimEnv (V := V)) st :
  proj_inv (cl_dead st ++ S) (ce_index env) (ce_head env) (cl_q st) →
  proj_inv (cl_dead (claim_step env st).1 ++ S) (ce_index env) (ce_head env) (cl_q (claim_step env st).1).
Proof.
  intros Hinv. unfold claim_step. destruct (cl_total st =? 0); [done|].
  destruct (nth _ _ _ =? 0); [done|].
  pose proof (proj_inv_next_claimable _ _ _ _ Hinv) as Hn.
  destruct (next_claimable _ _ _) as [[s|] q']; [|done].
  destruct ((0 <? _) && _ && _); simpl.
  - eapply proj_inv_perm; [|eapply proj_inv_ext; [exact Hn|..]]; simpl; try done.
    + rewrite <-app_assoc. simpl. by rewrite Permutation_middle.
    + apply set_dead_lettered_wf, set_deliveries_wf, Hn.
  - by apply proj_inv_lease.
Qed.

Lemma proj_inv_claim_pass (env : ClaimEnv (V := V)) q :
  proj_inv [] (ce_index env) (ce_head env) q →
  proj_inv (cl_dead (claim_pass env q)) (ce_index env) (ce_head env) (cl_q (claim_pass env q)).
Proof.
  intros Hinv. unfold claim_pass. generalize (claim_fuel q (ce_head env)) as fuel. intros fuel.
  pose (st := claim_init (V := V) (ce_claimers env) q). fold st.
  assert (Hst : proj_inv (cl_dead st ++ []) (ce_index env) (ce_head env) (cl_q st)) by done.
  clearbody st. revert st Hst.
  induction fuel as [|fuel IH]; intros st Hst; simpl; [by rewrite app_nil_r in Hst|].
  pose proof (proj_inv_claim_step [] env st Hst) as Hs. destruct (claim_step env st) as [st' []]; simpl in *;
    [by apply IH|by rewrite app_nil_r in Hs].
Qed.

(** ** Batches of jobs *)

(** A fenced loop whose action keeps the invariant, with what it acted on. *)
Lemma fenced_loop_spec (P : list Z → QueueProjection → Prop) act node ids i seqs q done_ skipped :
  (∀ q s l dn, P dn q → leases q !! s = Some l → P (dn ++ [s]) (act q s l)) →
  P (done_.*1) q →
  let '(q', (done', _)) := fenced_loop act node ids i seqs q done_ skipped in P (done'.*1) q'.
Proof.
  intros Hact. revert i q done_ skipped. induction seqs as [|s seqs IH]; intros i q done_ skipped HP; [done|].
  simpl. unfold held_by. destruct (leases q !! s) as [l|] eqn:Hl; [|by apply IH].
  destruct (bool_decide _ && _); [|by apply IH]. apply IH. rewrite fmap_app. by apply Hact.
Qed.

Lemma proj_inv_release_loop S ix head q seqs released :
  proj_inv S ix head q → proj_inv S ix head (release_loop q seqs released).1.
Proof.
  revert q released. induction seqs as [|s seqs IH]; intros q released Hinv; simpl; [done|].
  destruct (leases q !! s) as [l|] eqn:Hl; apply IH; [|done].
  apply proj_inv_push_reclaim, proj_inv_unlease; eauto.
Qed.

Lemma proj_inv_requeue S ix head q seqs :
  proj_inv (seqs ++ S) ix head q → proj_inv S ix head (foldl push_reclaim q seqs).
Proof.
  revert q. induction seqs as [|s seqs IH]; intros q Hinv; simpl; [done|].
  by apply IH, proj_inv_push_reclaim.
Qed.
End queue_inv.

(** ** What log operations do to the jobs *)
Section log_step.
Context {V : Type} `{!JsonNull V}.
Implicit Types (b : TopicState V).

(** No job at or below the head comes back to life, and the queue is untouched. *)
Record log_step b b' : Prop := {
  ls_settled : settled b';
  ls_config : b_config b' = b_config b;
  ls_queue : b_queue b' = b_queue b;
  ls_head : b_head_seq b <= b_head_seq b';
  ls_live s : s <= b_head_seq b → live_at (b_index b') s = true → live_at (b_index b) s = true
}.

Lemma log_step_refl b : settled b → log_step b b.
Proof. intros. by split. Qed.

Lemma reclaim_front_live b s :
  topic_wf b → live_at (b_index (reclaim_front b (b_head_seq b)).1) s = true →
  live_at (b_index b) s = true.
Proof. intros Hwf. unfold live_at. rewrite reclaim_front_get by done. by destruct (s <? _). Qed.

Lemma marked_live b seqs s :
  topic_wf b → live_at (b_index (marked b seqs)) s = true →
  live_at (b_index b) s = true ∧ s ∉ seqs.
Proof.
  intros Hwf. unfold live_at. rewrite marked_get by done.
  destruct (get (b_index b) s) as [r|]; [|done]. case_bool_decide as Hs; [done|].
  destruct (r_deleted r); [done|]. naive_solver.
Qed.

Lemma retained_step b now : settled b → log_step b (retained b now).
Proof.
  intros Hst. destruct (retained_fields b now) as (Hh & Hc & _ & Hq & _). split; try done.
  - by apply retained_settled.
  - lia.
  - intros s _ Hs. unfold retained in Hs.
    apply (reclaim_front_live (with_floors b (commit_floors (b_floors b) (plan_retention b now)))) in Hs; [done|].
    pose proof (plan_retention_floors b now (st_wf _ Hst)) as Hpf.
    apply with_floors_wf; [apply Hst| |done]. apply Hpf.
Qed.

Lemma marked_same b seqs : b_config (marked b seqs) = b_config b ∧ b_queue (marked b seqs) = b_queue b.
Proof. unfold marked. by destruct (mark_all _ _ _ _) as [[? ?] ?]. Qed.

(** A permanent delete also kills the listed jobs. *)
Lemma delete_seqs_step b seqs :
  settled b → log_step b (delete_seqs_stats b seqs).1 ∧
  ∀ s, live_at (b_index (delete_seqs_stats b seqs).1) s = true → live_at (b_index b) s = true ∧ s ∉ seqs.
Proof.
  intros Hst. destruct (delete_seqs_spec b seqs Hst) as (Hst' & Hh & _).
  pose proof (marked_settled b seqs Hst) as Hm.
  destruct (marked_fields b seqs (st_wf _ Hst)) as (Hmh & _).
  assert (Hl : ∀ s, live_at (b_index (delete_seqs_stats b seqs).1) s = true →
    live_at (b_index b) s = true ∧ s ∉ seqs).
  { intros s. rewrite delete_seqs_eq, <-Hmh. intros Hs%reclaim_front_live; [|apply Hm].
    apply marked_live; [apply Hst|done]. }
  split; [|done]. destruct (marked_same b seqs) as [Hc Hq].
  destruct (reclaim_front_fields (marked b seqs) (b_head_seq b)) as (_ & _ & Hc' & _ & Hq' & _).
  rewrite <-delete_seqs_eq in Hc', Hq'.
  split; [done|congruence|congruence|lia|]. intros s _ Hs. by apply Hl.
Qed.

Lemma hardened_step {E} b now (harden : RetentionAdvance → result E unit) :
  settled b → log_step b (enforce_retention_hardened b now harden).1.
Proof.
  intros Hst. unfold enforce_retention_hardened.
  destruct (b_head_seq b =? 0); [by apply log_step_refl|].
  destruct (_ && _ && _); [by apply log_step_refl|].
  destruct (if ra_floor_advanced _ && _ then _ else _) as [u|c]; [|by apply log_step_refl].
  pose proof (retained_step b now Hst) as Hr. unfold retained in Hr.
  destruct (ra_floor_advanced (plan_retention b now)) eqn:Hadv.
  - by destruct (reclaim_front (with_floors b _) _).
  - rewrite commit_no_advance in Hr by (done || apply Hst).
    replace (with_floors b (b_floors b)) with b in Hr by (by destruct b).
    by destruct (reclaim_front b _).
Qed.

Lemma retention_step b now : settled b → log_step b (enforce_retention b now).1.
Proof.
  intros Hst. unfold enforce_retention.
  pose proof (hardened_step (E := Empty_set) b now (λ _, Ok tt) Hst) as Hs.
  by destruct (enforce_retention_hardened _ _ _) as [b' [?|[]]].
Qed.

Lemma append_step b recs now : settled b → appendable b recs → log_step b (append b recs now).1.
Proof.
  intros Hst Happ. destruct (decide (recs = [])) as [->|Hne].
  { rewrite append_nil. by apply log_step_refl. }
  rewrite append_eq by (done || apply Hst). simpl. pose proof (appended_settled b recs now Hst Happ).
  split; try done.
  - simpl. rewrite (st_tail _ Hst). lia.
  - intros s Hs. unfold live_at. simpl. rewrite foldl_push_get. rewrite (st_tail _ Hst).
    by rewrite (proj2 (Z.ltb_lt s _)) by lia.
Qed.

(** The whole delete request: retention, marking, the prefix floor, the reclaim. *)
Lemma apply_delete_step b before match_ bound now :
  settled b → op_ok (OpDelete before match_ bound now) b →
  log_step b (apply_delete_stats b before match_ bound now).1.
Proof.
  intros Hst (Hb & Hbh & Hx). pose proof (retention_step b now Hst) as Hr.
  set (b0 := (enforce_retention b now).1) in Hr.
  destruct (apply_delete_spec b before match_ bound now Hst Hb Hbh Hx) as (Hst' & Hh & _).
  pose proof (enforce_retention_head b now (st_wf _ Hst)) as Hh0. fold b0 in Hh0.
  set (d := delete_bound b0 before bound). set (b1 := marked b0 (delete_victims b0 match_ d)).
  pose proof (marked_settled b0 (delete_victims b0 match_ d) (ls_settled _ _ Hr)) as Hm. fold b1 in Hm.
  destruct (marked_fields b0 (delete_victims b0 match_ d) (st_wf _ (ls_settled _ _ Hr))) as (Hh1 & _).
  fold b1 in Hh1.
  assert (Hd : 0 <= d <= b_head_seq b1 + 1).
  { rewrite Hh1. apply delete_bound_range; [apply Hr|done|done|]. by rewrite Hh0. }
  destruct (prefix_floored_fields b1 before match_ d (st_wf _ Hm) Hd) as (Hwf2 & Hh2 & Hb2 & Hr2 & _).
  set (b2 := prefix_floored b1 before match_ d) in *.
  assert (Heq : (apply_delete_stats b before match_ bound now).1 = (reclaim_front b2 (b_head_seq b2)).1).
  { rewrite apply_delete_eq. unfold b2, b1, d, b0 in *. by rewrite Hh2, Hh1. }
  destruct (marked_same b0 (delete_victims b0 match_ d)) as [Hc1 Hq1]. fold b1 in Hc1, Hq1.
  destruct (reclaim_front_fields b2 (b_head_seq b2)) as (_ & _ & Hc' & _ & Hq' & _).
  split; [done| | |lia|].
  - rewrite Heq, Hc', <-(ls_config _ _ Hr), <-Hc1. done.
  - rewrite Heq, Hq', <-(ls_queue _ _ Hr), <-Hq1. done.
  - intros s Hs. rewrite Heq. intros Hl%reclaim_front_live; [|done].
    assert (live_at (b_index b2) s = live_at (b_index b1) s) as Hl12.
    { unfold live_at, get, slot_idx. by rewrite Hb2, Hr2. }
    rewrite Hl12 in Hl. apply marked_live in Hl as [Hl _]; [|apply Hr]. by apply (ls_live _ _ Hr).
Qed.

Lemma exec_op_step op b : settled b → op_ok op b → log_step b (exec_op op b).
Proof.
  intros Hst Hok. destruct op; simpl exec_op.
  - by apply append_step.
  - by apply retention_step.
  - by apply apply_delete_step.
  - by apply delete_seqs_step.
  - destruct (source_trim_spec b Hst Hok) as (Hst' & Hh & _). split; try done; [lia|].
    intros s Hs. unfold live_at. unfold note_source_trim, stage_append. simpl b_index.
    change (push_record (b_index b) deleted_hole) with (foldl push_record (b_index b) [deleted_hole]).
    rewrite foldl_push_get, (st_tail _ Hst). by rewrite (proj2 (Z.ltb_lt s _)) by lia.
  - destruct (restore_head_spec b reserved Hst Hok) as (Hst' & Hh & _).
    unfold restore_head_watermark in *. simpl b_head_seq in *.
    destruct (reserved <=? b_head_seq b); [by split|]. split; try done; [simpl in *; lia|].
    intros s Hs. unfold live_at. simpl. rewrite pad_holes_get.
    destruct (get (b_index b) s); [done|]. by destruct (_ && _ && _).
Qed.
End log_step.

(** ** Requests *)
Section requests.
Context {V : Type} `{!JsonNull V} `{!Serde V}.
Implicit Types (b : TopicState V) (e : Engine V) (q : QueueProjection) (S : list Z).

(** *** Predicates of one topic *)
Definition topic_at (name : string) (Φ : TopicState V → Prop) e : Prop :=
  ∃ b, e_topics e !! name = Some b ∧ Φ b.

(** Predicates of settled topics that log operations preserve. *)
Record log_stable (Φ : TopicState V → Prop) : Prop := {
  lst_settled b : Φ b → settled b;
  lst_step b b' : log_step b b' → Φ b → Φ b'
}.

Lemma topic_at_keeps {A} name Φ (m : EM V A) :
  keeps name m → triple (topic_at name Φ) m (λ _, topic_at name Φ) (topic_at name Φ).
Proof.
  intros Hk e (b & Hb & Hg). specialize (Hk e).
  destruct (m e) as [e' [a|c]]; simpl in Hk; exists b; by rewrite Hk.
Qed.

Lemma topic_at_store name Φ e b :
  Φ b → topic_at name Φ (set_topics e (<[name := b]> (e_topics e))).
Proof. intros Hg. exists b. simpl. by rewrite lookup_insert_eq. Qed.

Lemma topic_at_topics name Φ e e' :
  e_topics e' !! name = e_topics e !! name → topic_at name Φ e → topic_at name Φ e'.
Proof. unfold topic_at. by intros ->. Qed.

Lemma topic_at_release name Φ n e : topic_at name Φ e → topic_at name Φ (release_total_bytes n e).1.
Proof. apply topic_at_topics. apply keeps_release. Qed.

Lemma with_proj_at {A} name (Φ : TopicState V → Prop) (Ψ : A → TopicState V → Prop) f R :
  (∀ b q, Φ b → b_queue b = Some q → Ψ (f b q).2 (with_queue b (Some (f b q).1))) →
  (∀ b, Φ b → is_Some (b_queue b)) →
  triple (topic_at name Φ) (with_proj (V := V) name f) (λ a, topic_at name (Ψ a)) R.
Proof.
  intros Hf Hs e (b & Hb & Hg). unfold with_proj, mbind, EM_bind, topic_ref. rewrite Hb.
  destruct (Hs b Hg) as [q Hq]. rewrite Hq. specialize (Hf b q Hg Hq).
  destruct (f b q) as [q' a]. by apply topic_at_store.
Qed.

(** A retention pass, hardened or not, succeeding or not, is a log step. *)
Lemma retention_at name Φ now :
  log_stable Φ →
  triple (topic_at name Φ) (enforce_retention_durable (V := V) name now)
    (λ _, topic_at name Φ) (topic_at name Φ).
Proof.
  intros [Hset Hstep] e (b & Hb & Hg). pose proof (Hset b Hg) as Hst.
  unfold enforce_retention_durable, mbind, EM_bind, topic_ref. rewrite Hb.
  destruct (negb _).
  - pose proof (retention_step b now Hst) as Hs. destruct (enforce_retention b now) as [b' adv].
    apply (topic_at_release name Φ _ (set_topics e (<[name:=b']> (e_topics e)))), topic_at_store.
    by eapply Hstep.
  - assert (Hpre : ∃ e' r, (if retention_hardens b now
      then attempt (log_evict_watermark (b_topic_id b) (plan_retention b now) now)
      else mret (Ok tt)) e = (e', Ok r) ∧ e_topics e' !! name = e_topics e !! name).
    { destruct (retention_hardens b now); [|by eexists _, _].
      pose proof (keeps_evict_watermark name (b_topic_id b) (plan_retention b now) now e) as Hk.
      unfold attempt. destruct (log_evict_watermark _ _ _ _) as [e' r]. by eexists _, _. }
    destruct Hpre as (e' & r & -> & Hk).
    pose proof (hardened_step b now (λ _, r) Hst) as Hs.
    destruct (enforce_retention_hardened b now _) as [b' res]. simpl in Hs.
    assert (Hq : topic_at name Φ (set_topics e' (<[name:=b']> (e_topics e')))).
    { apply topic_at_store. by eapply Hstep. }
    destruct res as [adv|c]; [|done]. by apply (topic_at_release name Φ).
Qed.

(** The permanent delete of one job happens, or fails before any change. *)
Lemma delete_one_at name (Φ Ψ : TopicState V → Prop) s now :
  (∀ b, Φ b → Ψ (delete_seqs_stats b [s]).1) →
  triple (topic_at name Φ) (delete_one_seq (V := V) name s now)
    (λ _, topic_at name Ψ) (topic_at name Φ).
Proof.
  intros HΨ e (b & Hb & Hg). unfold delete_one_seq, mbind, EM_bind, topic_ref. rewrite Hb.
  specialize (HΨ b Hg).
  case_bool_decide.
  - pose proof (keeps_wal_commit name (WalRecord.Delete (b_topic_id b) None None [s] None (ts_of now)) true e) as Hk.
    destruct (wal_commit _ _ e) as [e' [?|c]]; simpl in Hk; [|exists b; by rewrite Hk].
    destruct (delete_seqs_stats b [s]) as [b' stats].
    by apply (topic_at_release name Ψ _ (set_topics e' _)), topic_at_store.
  - destruct (delete_seqs_stats b [s]) as [b' stats]. cbn [store_topic emodify release_total_bytes].
    match goal with |- match wal_log_delete_seqs _ _ _ _ ?e1 with _ => _ end =>
      pose proof (topic_at_keeps name Ψ (wal_log_delete_seqs (b_topic_id b) [s] now false)
        ltac:(unfold wal_log_delete_seqs; auto with keeps) e1) as Hw end.
    destruct (wal_log_delete_seqs _ _ _ _ _) as [e' [?|c]] eqn:Hlog; [apply Hw|].
    + by apply (topic_at_release name Ψ _ (set_topics e _)), topic_at_store.
    + exfalso. unfold wal_log_delete_seqs, wal_log_best_effort, mbind, EM_bind, attempt in Hlog.
      by destruct (wal_commit _ _ _).
Qed.

(** A queue topic in good order, with the jobs [S] in hand. *)
Record queue_good (name : string) S b : Prop := {
  qg_settled : settled b;
  qg_dead_letter : cfg_dead_letter (b_config b) ≠ Some name;
  qg_queue : ∃ q, b_queue b = Some q ∧ proj_inv S (b_index b) (b_head_seq b) q
}.

Definition queue_inv (name : string) S e : Prop := topic_at name (queue_good name S) e.

(** A computation that restores the invariant whether it returns or fails. *)
Abbreviation restores name S m := (triple (queue_inv name S) m (λ _, queue_inv name S) (queue_inv name S)).

Lemma restores_keeps {A} name S (m : EM V A) : keeps name m → restores name S m.
Proof. apply topic_at_keeps. Qed.

Lemma queue_good_step name S b b' : log_step b b' → queue_good name S b → queue_good name S b'.
Proof.
  intros [] [Hst Hdl (q & Hq & Hi)]. split; [done|by rewrite ls_config0|].
  exists q. split; [by rewrite ls_queue0|]. by eapply proj_inv_live.
Qed.

Lemma queue_good_stable name S : log_stable (queue_good name S).
Proof. split; [by intros b []|apply queue_good_step]. Qed.

(** Updating the projection under its lock. *)
Lemma with_proj_inv {A} name S (T : A → list Z) f R :
  (∀ b q, proj_inv S (b_index b) (b_head_seq b) q →
     proj_inv (T (f b q).2) (b_index b) (b_head_seq b) (f b q).1) →
  triple (queue_inv name S) (with_proj (V := V) name f) (λ a, queue_inv name (T a)) R.
Proof.
  intros Hf. apply (with_proj_at name _ (λ a, queue_good name (T a))).
  - intros b q [Hst Hdl (q0 & Hq0 & Hi)] Hq. simplify_eq. split; [by destruct Hst as [[] ? ?]|done|].
    simpl. eexists. split; [done|]. by apply Hf.
  - intros b [_ _ (q & -> & _)]. eauto.
Qed.

Lemma retention_restores name S now : restores name S (enforce_retention_durable (V := V) name now).
Proof. apply retention_at, queue_good_stable. Qed.

(** *** Jobs in hand *)
Lemma queue_good_delete name S b s :
  queue_good name (s :: S) b → queue_good name S (delete_seqs_stats b [s]).1.
Proof.
  intros [Hst Hdl (q & Hq & Hi)]. destruct (delete_seqs_step b [s] Hst) as [[] Hl].
  split; [done|by rewrite ls_config0|]. exists q. split; [by rewrite ls_queue0|].
  assert (Hi' : proj_inv S (b_index (delete_seqs_stats b [s]).1) (b_head_seq b) q).
  { eapply proj_inv_deleted; [done|]. intros t Ht. apply Hl in Ht. set_solver. }
  by eapply proj_inv_live.
Qed.

(** A deleted job leaves the hand; a failed delete keeps it there. *)
Lemma delete_one_inv name S s now :
  triple (queue_inv name (s :: S)) (delete_one_seq (V := V) name s now)
    (λ _, queue_inv name S) (queue_inv name (s :: S)).
Proof. apply delete_one_at. intros b. apply queue_good_delete. Qed.

Lemma reclaim_seq_inv name S s R :
  triple (queue_inv name (s :: S)) (reclaim_seq (V := V) name s) (λ _, queue_inv name S) R.
Proof. apply (with_proj_inv name (s :: S) (λ _, S)). intros b q. apply proj_inv_push_reclaim. Qed.

Lemma requeue_inv name seqs R :
  triple (queue_inv name seqs) (requeue_diverted (V := V) name seqs) (λ _, queue_inv name []) R.
Proof.
  apply (with_proj_inv name seqs (λ _, [])). intros b q Hi. simpl.
  assert (Hr : proj_inv [] (b_index b) (b_head_seq b) (foldl push_reclaim q seqs)).
  { apply proj_inv_requeue. by rewrite app_nil_r. }
  eapply proj_inv_ext; [exact Hr|apply set_dead_lettered_wf, Hr|done..].
Qed.

(** Handling the jobs in hand one by one. *)
Lemma mapM_inv name (f : Z → EM V unit) S R :
  (∀ s S, triple (queue_inv name (s :: S)) (f s) (λ _, queue_inv name S) R) →
  triple (queue_inv name S) (mapM_ f S) (λ _, queue_inv name []) R.
Proof.
  intros Hf. induction S as [|s S IH]; [by intros e He|]. simpl.
  eapply triple_bind; [apply Hf|]. done.
Qed.

Lemma mapM_keeps {A} name (f : A → EM V unit) l : (∀ x, keeps name (f x)) → keeps name (mapM_ f l).
Proof. intros Hf. induction l as [|x l IH]; simpl; [apply keeps_ret|by apply keeps_bind]. Qed.

(** *** Dead-lettering *)

(** Computations that cannot fail. *)
Definition total {A} (m : EM V A) : Prop := ∀ e, ∃ e' a, m e = (e', Ok a).

Lemma total_attempt {A} (m : EM V A) : total (attempt m).
Proof. intros e. unfold attempt. destruct (m e) as [e' r]. by eexists _, _. Qed.
Lemma total_bind {A B} (m : EM V A) (k : A → EM V B) : total m → (∀ a, total (k a)) → total (m ≫= k).
Proof. intros Hm Hk e. unfold mbind, EM_bind. destruct (Hm e) as (e' & a & ->). apply Hk. Qed.
Lemma total_ret {A} (a : A) : total (mret a).
Proof. intros e. by eexists _, _. Qed.

Lemma restores_total {A} name S (m : EM V A) R :
  keeps name m → total m → triple (queue_inv name S) m (λ _, queue_inv name S) R.
Proof.
  intros Hk Ht e He. pose proof (restores_keeps name S m Hk e He) as Hr.
  destruct (Ht e) as (e' & a & Heq). by rewrite Heq in Hr |- *.
Qed.

Lemma get_topic_inv name S n R :
  triple (queue_inv name S) (get_topic n) (λ _, queue_inv name S) R.
Proof. intros e He. done. Qed.

Lemma eget_inv name S R : triple (queue_inv name S) eget (λ _, queue_inv name S) R.
Proof. by intros e He. Qed.

Lemma topic_ref_inv name S R :
  triple (queue_inv name S) (topic_ref name)
    (λ b e, queue_inv name S e ∧ e_topics e !! name = Some b) R.
Proof. intros e (b & Hb & Hg). unfold topic_ref. rewrite Hb. split; [by exists b|done]. Qed.

Lemma delete_or_reclaim_inv name S s now R :
  triple (queue_inv name (s :: S))
    (r ← attempt (delete_one_seq (V := V) name s now);
     match r with Ok _ => mret tt | Err _ => reclaim_seq name s end)
    (λ _, queue_inv name S) R.
Proof.
  eapply triple_bind.
  { eapply triple_conseq; [apply triple_attempt, delete_one_inv|done|by intros r e He; exact He|done]. }
  intros [u|c].
  - intros e He. exact He.
  - apply reclaim_seq_inv.
Qed.

Lemma dead_letter_inv name dl seqs maxd now R :
  dl ≠ name →
  triple (queue_inv name seqs) (dead_letter_jobs (V := V) name dl seqs maxd now)
    (λ _, queue_inv name []) R.
Proof.
  intros Hne. unfold dead_letter_jobs.
  pose proof (requeue_inv name seqs R) as Hrq.
  eapply triple_bind; [apply get_topic_inv|intros o].
  eapply triple_bind.
  { apply restores_total; destruct o; eauto using total_ret, total_bind, total_attempt with keeps.
    keeps_tac. }
  intros u. eapply triple_bind; [apply get_topic_inv|intros [d|]]; [|done].
  eapply triple_bind.
  { eapply triple_conseq; [apply topic_ref_inv|done|by intros b e [He _]; exact He|done]. }
  intros b.
  eapply triple_bind.
  { apply restores_total; destruct (omap _ seqs) as [|r rs].
    - apply keeps_ret.
    - keeps_tac.
    - apply total_ret.
    - apply total_bind; [apply total_attempt|]. intros [?|?]; eauto using total_ret, total_bind, total_attempt. }
  intros [|]; [|done]. apply mapM_inv. intros s S. apply delete_or_reclaim_inv.
Qed.

(** *** Claim *)
Lemma keeps_log_lease name id s ev node lid dl dv now d :
  keeps name (log_lease_event (V := V) id s ev node lid dl dv now d).
Proof. unfold log_lease_event, wal_log_lease. keeps_tac. Qed.

Lemma claim_pass_dead (env : ClaimEnv (V := V)) q :
  proj_wf q → ce_dead_letter env = None → cl_dead (claim_pass env q) = [].
Proof.
  intros Hwf Hn. pose proof (ci_dead _ _ _ (claim_pass_inv env q Hwf)) as Hd.
  destruct (cl_dead _) as [|s l]; [done|]. destruct (Hd s) as (_ & _ & Ho); [by left|].
  unfold over_budget in Ho. rewrite Hn in Ho. by rewrite andb_false_r in Ho.
Qed.

(** The knowledge of a topic just read. *)
Lemma topic_read_inv {A} name S (k : TopicState V → EM V A) Q R :
  (∀ b, queue_good name S b → triple (queue_inv name S) (k b) Q R) →
  triple (queue_inv name S) (b ← topic_ref name; k b) Q R.
Proof.
  intros Hk e He. pose proof He as (b & Hb & Hg). unfold mbind, EM_bind, topic_ref. rewrite Hb.
  by apply Hk.
Qed.

Lemma run_claim_cohort_inv name claimers lease_ms :
  restores name [] (run_claim_cohort (V := V) name claimers lease_ms).
Proof.
  unfold run_claim_cohort. eapply triple_bind; [apply eget_inv|intros e0].
  eapply triple_bind; [apply retention_restores|intros u].
  apply topic_read_inv. intros b Hg. set (cfg := b_config b).
  eapply triple_bind.
  { apply (with_proj_inv name [] (λ st, match cfg_dead_letter cfg with Some _ => cl_dead st | None => [] end)).
    intros b1 q Hi. simpl. apply (proj_inv_sweep _ _ _ _ (e_now e0)) in Hi.
    match goal with |- proj_inv _ _ _ (cl_q (claim_pass ?env ?q)) =>
      pose proof (proj_inv_claim_pass env q Hi) as Hp; pose proof (claim_pass_dead env q (pi_wf _ _ _ _ Hi)) as Hd end.
    simpl in *. destruct (cfg_dead_letter cfg); [done|]. by rewrite Hd in Hp. }
  intros st. eapply (triple_bind _ _ _ _ (λ _, queue_inv name [])).
  { pose proof (qg_dead_letter _ _ _ Hg) as Hdl. fold cfg in Hdl.
    destruct (cl_dead st) as [|s dead], (cfg_dead_letter cfg) as [dl|]; try by intros e He.
    apply dead_letter_inv. by intros ->. }
  intros u1. eapply triple_bind.
  { apply restores_keeps, mapM_keeps. intros [[[idx s] lid] d]. apply keeps_log_lease. }
  intros u2. apply topic_read_inv. intros b2 _ e He. exact He.
Qed.

(** *** Ack, nack, extend, release *)
Lemma attempt_restores {A} name S (m : EM V A) R :
  restores name S m → triple (queue_inv name S) (attempt m) (λ _, queue_inv name S) R.
Proof.
  intros Hm e He. specialize (Hm e He). unfold attempt. by destruct (m e) as [e' [a|c]].
Qed.

Lemma queue_counters_restores name S now : restores name S (queue_counters (V := V) name now).
Proof.
  unfold queue_counters. apply topic_read_inv. intros b Hg. destruct (b_queue b); [|by intros e He].
  eapply triple_bind.
  { apply attempt_restores, retention_restores. }
  intros r. apply (with_proj_inv name S (λ _, S)).
  intros b1 q1 Hi. destruct (ready_in_flight _ _ _). simpl. by apply proj_inv_sweep.
Qed.

Lemma ack_deletes_inv name node id now d acked :
  triple (queue_inv name (acked.*1)) (ack_deletes (V := V) name node id now d acked)
    (λ _, queue_inv name []) (queue_inv name []).
Proof.
  induction acked as [|[s lid] acked IH]; [by intros e He|]. cbn [ack_deletes]. rewrite fmap_cons. cbn [fst].
  eapply triple_bind.
  { eapply triple_conseq; [apply triple_attempt, delete_one_inv|done|by intros r e He; exact He|done]. }
  intros [u|c].
  - eapply triple_bind; [|intros ?; exact IH].
    apply restores_total; [apply keeps_log_lease|].
    unfold log_lease_event, wal_log_lease, wal_log_best_effort. destruct (negb d);
      eauto using total_ret, total_bind, total_attempt.
  - eapply (triple_bind _ _ _ _ (λ _, queue_inv name [])); [|by intros u e He].
    apply mapM_inv. intros t S. apply reclaim_seq_inv.
Qed.

(** The prologue of a fenced request. *)
Lemma fenced_prologue {A} name node seqs ids (k : TopicState V → Engine V → EM V A) :
  (∀ b e0, restores name [] (k b e0)) →
  restores name [] (_ ← lift (fenced_args node seqs ids); b ← get_queue name; e ← eget; k b e).
Proof.
  intros Hk. eapply triple_bind; [apply restores_keeps; by intros e|intros u].
  eapply triple_bind; [apply restores_keeps; unfold get_queue; keeps_tac|intros b].
  eapply triple_bind; [apply eget_inv|intros e0]. apply Hk.
Qed.

(** A fenced loop over a swept projection: jobs acted on go to [T]. *)
Lemma fenced_loop_inv name (T : list Z → list Z) act node ids seqs now R :
  T [] = [] →
  (∀ (ix : TopicIndex V) head q s l dn, proj_inv (T dn) ix head q → leases q !! s = Some l →
     proj_inv (T (dn ++ [s])) ix head (act q s l)) →
  triple (queue_inv name [])
    (with_proj (V := V) name (λ _ q, fenced_loop act node ids 0 seqs (sweep_expired q now) [] []))
    (λ r, queue_inv name (T (r.1.*1))) R.
Proof.
  intros HT Hact. apply with_proj_inv. intros b q Hi. apply (proj_inv_sweep _ _ _ _ now) in Hi.
  pose proof (fenced_loop_spec (λ dn q, proj_inv (T dn) (b_index b) (b_head_seq b) q) act node ids 0 seqs
    (sweep_expired q now) [] []) as Hl.
  destruct (fenced_loop _ _ _ _ _ _ _ _) as [q' [dn sk]]. simpl in *. apply Hl.
  - intros. by apply Hact.
  - by rewrite HT.
Qed.

(** Acked jobs are in hand until they are deleted. *)
Lemma ack_loop_inv name node ids seqs now R :
  triple (queue_inv name [])
    (with_proj (V := V) name (λ _ q, fenced_loop ack_act node ids 0 seqs (sweep_expired q now) [] []))
    (λ r, queue_inv name (r.1.*1)) R.
Proof.
  apply (fenced_loop_inv name id); [done|].
  intros ix head q s l dn Hi Hl. simpl. eapply proj_inv_perm; [apply Permutation_cons_append|].
  eapply proj_inv_ext; [apply proj_inv_unlease; [done|eauto]|..]; try done.
  by apply set_deliveries_wf, set_leases_delete_wf, Hi.
Qed.

Lemma ack_fenced_inv name node seqs ids : restores name [] (ack_fenced (V := V) name node seqs ids).
Proof.
  apply fenced_prologue. intros b e0. eapply triple_bind; [apply ack_loop_inv|]. intros r. eapply triple_bind; [apply ack_deletes_inv|intros u].
  eapply triple_bind; [apply queue_counters_restores|]. by intros c e He.
Qed.

Lemma nack_fenced_inv name node seqs delay ids :
  restores name [] (nack_fenced (V := V) name node seqs delay ids).
Proof.
  apply fenced_prologue. intros b e0. eapply triple_bind; [apply (fenced_loop_inv name (λ _, [])); [done|]|].
  { intros ix head q s l dn Hi Hl. unfold nack_act.
    pose proof (proj_inv_unlease _ _ _ _ s Hi ltac:(eauto)).
    destruct (0 <? _); [by apply proj_inv_push_delayed|by apply proj_inv_push_reclaim]. }
  intros r. eapply triple_bind; [apply restores_keeps, mapM_keeps; intros; apply keeps_log_lease|intros u].
  eapply triple_bind; [apply queue_counters_restores|]. by intros c e He.
Qed.

Lemma extend_fenced_inv name node seqs lease ids :
  restores name [] (extend_fenced (V := V) name node seqs lease ids).
Proof.
  apply fenced_prologue. intros b e0. eapply triple_bind; [apply (fenced_loop_inv name (λ _, [])); [done|]|].
  { intros ix head q s l dn Hi Hl. by apply proj_inv_extend. }
  intros r. eapply triple_bind; [apply restores_keeps, mapM_keeps; intros; apply keeps_log_lease|].
  by intros u e He.
Qed.

Lemma release_work_conn_inv name conn : restores name [] (release_work_conn (V := V) name conn).
Proof.
  unfold release_work_conn. eapply triple_bind; [apply eget_inv|intros e0].
  eapply triple_bind; [apply get_topic_inv|intros [b|]]; [|by intros e He].
  destruct (b_queue b); [|by intros e He].
  eapply triple_bind; [apply (with_proj_inv name [] (λ _, []))|].
  { intros b1 q1 Hi. by apply proj_inv_release_loop. }
  intros r. apply restores_keeps, mapM_keeps. intros. apply keeps_log_lease.
Qed.
End requests.
