(* ===== verification/QueueTheorems.v ===== *)
(** * What a queue promises

    The theorems about queues that a client relies on, from the invariant of
    [QueueInv]: no request strands a job, an unexpired lease is exclusive and
    fenced by its token, a failed ack keeps the job, and the counters count what
    can be claimed.  [QueueSamples] instantiates them at a small queue. *)

From S2P Require Import Prelude Types Eviction TopicIndex QueueProjection TopicState TopicLog.
From S2P Require Import Bytes Router Sched Wal Json Engine EngineLogic Queue QueueSpec QueueInv.

Section queue_theorems.
Context {V : Type} `{!JsonNull V} `{!Serde V}.
Implicit Types (b : TopicState V) (e : Engine V) (q : QueueProjection).

(** ** Histories *)

(** The requests that reach one queue, with the operations on its log that other
    requests perform and the passing of time. *)
Inductive QueueOp :=
  | QClaim (claimers : list Claimer) (lease_ms : option Z)
  | QAck (node : string) (seqs : list Z) (lease_ids : list (option Z))
  | QNack (node : string) (seqs : list Z) (delay_ms : Z) (lease_ids : list (option Z))
  | QExtend (node : string) (seqs : list Z) (lease_ms : Z) (lease_ids : list (option Z))
  | QRelease (conn : Z)
  | QCounters
  | QLog (op : TopicOp (V := V))
  | QClock (now : Z).

Definition run_queue_op (name : string) (op : QueueOp) e : Engine V :=
  match op with
  | QClaim claimers lease_ms => (run_claim_cohort name claimers lease_ms e).1
  | QAck node seqs ids => (ack_fenced name node seqs ids e).1
  | QNack node seqs delay ids => (nack_fenced name node seqs delay ids e).1
  | QExtend node seqs lease ids => (extend_fenced name node seqs lease ids e).1
  | QRelease conn => (release_work_conn name conn e).1
  | QCounters => (queue_counters name (e_now e) e).1
  | QLog op =>
      match e_topics e !! name with
      | Some b => set_topics e (<[name := exec_op op b]> (e_topics e))
      | None => e
      end
  | QClock now => set_now e now
  end.

Definition run_queue_ops (name : string) (ops : list QueueOp) e : Engine V :=
  foldl (λ e op, run_queue_op name op e) e ops.

(** Log operations respect their own preconditions (widths, batch shape). *)
Fixpoint queue_ops_ok (name : string) (ops : list QueueOp) e : Prop :=
  match ops with
  | [] => True
  | op :: ops =>
      match op with
      | QLog op => ∀ b, e_topics e !! name = Some b → op_ok op b
      | _ => True
      end ∧ queue_ops_ok name ops (run_queue_op name op e)
  end.

Lemma restores_fst {A} name S (m : EM V A) e :
  triple (queue_inv name S) m (λ _, queue_inv name S) (queue_inv name S) →
  queue_inv name S e → queue_inv name S (m e).1.
Proof. intros Hm He. specialize (Hm e He). by destruct (m e) as [e' [a|c]]. Qed.

Lemma run_queue_op_inv name op e :
  queue_inv name [] e →
  match op with QLog op => ∀ b, e_topics e !! name = Some b → op_ok op b | _ => True end →
  queue_inv name [] (run_queue_op name op e).
Proof.
  intros He Hok. destruct op; simpl.
  - apply restores_fst; [apply run_claim_cohort_inv|done].
  - apply restores_fst; [apply ack_fenced_inv|done].
  - apply restores_fst; [apply nack_fenced_inv|done].
  - apply restores_fst; [apply extend_fenced_inv|done].
  - apply restores_fst; [apply release_work_conn_inv|done].
  - apply restores_fst; [apply queue_counters_restores|done].
  - destruct He as (b & Hb & Hg). rewrite Hb. apply topic_at_store.
    eapply queue_good_step; [apply exec_op_step; [apply Hg|by apply Hok]|done].
  - done.
Qed.

Lemma run_queue_ops_inv name ops e :
  queue_inv name [] e → queue_ops_ok name ops e → queue_inv name [] (run_queue_ops name ops e).
Proof.
  revert e. induction ops as [|op ops IH]; intros e He Hok; [done|].
  destruct Hok as [Hop Hok]. apply IH; [by apply run_queue_op_inv|done].
Qed.

Lemma topic_new_queue_good name id config base epoch :
  1 <= base <= u64_max → is_queue config = true → cfg_dead_letter config ≠ Some name →
  queue_good name [] (topic_new (V := V) name id config base epoch).
Proof.
  intros Hb Hq Hdl. split; [by apply topic_new_settled|done|]. simpl. rewrite Hq.
  exists (projection_new base). split; [done|]. apply proj_inv_new; [sat_lia|].
  intros s Hs. unfold live_at, get, slot_idx. simpl. by rewrite (proj2 (Z.ltb_lt s base)).
Qed.

(** C6. No stranded job: whatever claims, acks, nacks, extensions, releases, writes,
    deletes and retention passes reach a new queue, in whatever order and with
    whatever WAL submissions failing, every live job is still ahead of the claim
    cursor, leased, on the freelist or delayed, and never in two of these. *)
Theorem queue_no_stranded_job name id config base epoch ops e :
  1 <= base <= u64_max → is_queue config = true → cfg_dead_letter config ≠ Some name →
  e_topics e !! name = Some (topic_new name id config base epoch) →
  queue_ops_ok name ops e →
  ∃ b q, e_topics (run_queue_ops name ops e) !! name = Some b ∧ b_queue b = Some q ∧
    proj_wf q ∧ proj_disjoint q ∧ claim_cursor q <= b_head_seq b + 1 ∧
    ∀ s, live_at (b_index b) s = true → claim_cursor q <= s ∨ accounted q s.
Proof.
  intros Hb Hq Hdl He Hok.
  destruct (run_queue_ops_inv name ops e) as (b & Hb' & [Hst _ (q & Hq' & Hi)]); [|done|].
  { eexists. split; [exact He|]. by apply topic_new_queue_good. }
  exists b, q. destruct Hi. split_and!; try done. intros s Hs.
  destruct (decide (s < claim_cursor q)) as [Hlt|]; [|lia].
  destruct (pi_tracked s Hlt Hs) as [[]%not_elem_of_nil|?]; by right.
Qed.

(** A lease is exclusive until its deadline: a claim at a time the lease has not
    expired neither hands the job to anyone nor touches the lease. *)
Theorem unexpired_lease_kept (env : ClaimEnv (V := V)) q s l :
  proj_wf q → leases q !! s = Some l → ce_now env <= l_deadline_ms l →
  let st := claim_pass env (sweep_expired q (ce_now env)) in
  leases (cl_q st) !! s = Some l ∧ (s ∉ ev_seqs (cl_events st)) ∧
  ∀ jobs j, jobs ∈ cl_out st → j ∈ jobs → j_seq j ≠ s.
Proof.
  intros Hwf Hl Hd st. destruct (sweep_expired_spec q (ce_now env) Hwf) as (Hwf' & Hls & _).
  assert (Hl' : leases (sweep_expired q (ce_now env)) !! s = Some l) by (by apply Hls).
  pose proof (claim_pass_inv env _ Hwf') as Hi. fold st in Hi.
  assert (Hev : s ∉ ev_seqs (cl_events st)).
  { intros ([[[i t] id] d] & -> & Hin)%list_elem_of_fmap.
    destruct (ci_event _ _ _ Hi _ _ _ _ Hin) as (_ & [_ Hn] & _). simpl in Hl'. congruence. }
  split_and!; [by rewrite (ci_leases _ _ _ Hi)|done|].
  intros jobs j (i & Hjobs)%list_elem_of_lookup Hj.
  pose proof (lookup_lt_Some _ _ _ Hjobs) as Hlt. rewrite (ci_len_out _ _ _ Hi) in Hlt.
  rewrite (ci_out _ _ _ Hi i Hlt) in Hjobs. injection Hjobs as <-.
  apply list_elem_of_fmap in Hj as (ev & -> & [_ Hin]%list_elem_of_filter).
  intros <-. apply Hev. apply list_elem_of_fmap. exists ev. split; [|done].
  unfold job_of, leased_job. by destruct (get _ _).
Qed.

(** ** Fencing *)

(** The three actions of the fenced operations. *)
Inductive FencedAct : (QueueProjection → Z → Lease → QueueProjection) → Prop :=
  | FAck : FencedAct ack_act
  | FNack now delay : FencedAct (nack_act now delay)
  | FExtend deadline : FencedAct (extend_act deadline).

Lemma fenced_act_local act q s l t :
  FencedAct act → t ≠ s →
  leases (act q s l) !! t = leases q !! t ∧ deliveries (act q s l) !! t = deliveries q !! t.
Proof.
  intros Ha Hne. destruct Ha; simpl.
  - by rewrite !lookup_delete_ne by done.
  - unfold nack_act. destruct (0 <? delay); simpl; [by rewrite lookup_delete_ne|].
    destruct (push_reclaim_fields (set_leases q (delete s (leases q))) s) as (-> & -> & _).
    simpl. by rewrite lookup_delete_ne.
  - by rewrite lookup_insert_ne.
Qed.

(** Whether the [i]-th seq of a request is refused for the lease [l]. *)
Definition refused (node : string) (ids : list (option Z)) (l : Lease) (i : nat) : Prop :=
  l_node l ≠ node ∨ ∃ want, ids !! i = Some (Some want) ∧ want ≠ l_lease_id l.

Lemma refused_token q node ids i s l :
  leases q !! s = Some l → refused node ids l i → held_by q node ids i s = None.
Proof.
  intros Hl Hr. unfold held_by. rewrite Hl. destruct (bool_decide _ && _) eqn:Hb; [|done].
  apply andb_true_iff in Hb as [Hn%bool_decide_eq_true Ht]. destruct Hr as [?|(w & Hw & Hne)]; [done|].
  unfold lease_token_ok in Ht. rewrite Hw in Ht. lia.
Qed.

Lemma fenced_loop_refused act node ids i seqs q dn sk s l :
  FencedAct act → leases q !! s = Some l →
  (∀ j, seqs !! j = Some s → refused node ids l (i + j)) →
  let '(q', (dn', sk')) := fenced_loop act node ids i seqs q dn sk in
  leases q' !! s = Some l ∧ deliveries q' !! s = deliveries q !! s ∧
  (s ∈ dn'.*1 → s ∈ dn.*1) ∧ (s ∈ seqs → s ∈ sk') ∧ (∀ t, t ∈ sk → t ∈ sk').
Proof.
  intros Ha. revert i q dn sk. induction seqs as [|t seqs IH]; intros i q dn sk Hl Hr; simpl.
  { split_and!; try done. by intros []%not_elem_of_nil. }
  assert (Hr' : ∀ j, seqs !! j = Some s → refused node ids l (S i + j)).
  { intros j Hj. specialize (Hr (S j) Hj). by replace (S i + j)%nat with (i + S j)%nat by lia. }
  destruct (held_by q node ids i t) as [l'|] eqn:Hh.
  - assert (Hne : s ≠ t).
    { intros <-. specialize (Hr 0%nat eq_refl). rewrite Nat.add_0_r in Hr.
      by rewrite (refused_token q node ids i s l) in Hh. }
    destruct (fenced_act_local act q t l' s Ha Hne) as [Hl' Hd'].
    specialize (IH (S i) (act q t l') (dn ++ [(t, l_lease_id l')]) sk ltac:(by rewrite Hl') Hr').
    destruct (fenced_loop _ _ _ _ _ _ _ _) as [q' [dn' sk']].
    destruct IH as (? & ? & Hdn & Hsk & Hmono). split_and!; try done; [congruence| |set_solver].
    intros Hin%Hdn. rewrite fmap_app in Hin. set_solver.
  - specialize (IH (S i) q dn (sk ++ [t]) Hl Hr').
    destruct (fenced_loop _ _ _ _ _ _ _ _) as [q' [dn' sk']].
    destruct IH as (? & ? & Hdn & Hsk & Hmono). split_and!; try done; [|set_solver].
    intros [->|?]%elem_of_cons; [apply Hmono; set_solver|by apply Hsk].
Qed.

(** Fencing: an ack, nack or extend whose node does not hold a job's lease, or
    which names it with a lease id other than the current one, leaves the lease
    and the delivery count as they are and reports the job as skipped. *)
Theorem stale_token_changes_nothing act node ids seqs q s l :
  FencedAct act → leases q !! s = Some l → s ∈ seqs →
  (∀ i, seqs !! i = Some s → refused node ids l i) →
  let '(q', (dn, skipped)) := fenced_loop act node ids 0 seqs q [] [] in
  leases q' !! s = Some l ∧ deliveries q' !! s = deliveries q !! s ∧
  (s ∉ dn.*1) ∧ s ∈ skipped.
Proof.
  intros Ha Hl Hin Hr. pose proof (fenced_loop_refused act node ids 0 seqs q [] [] s l Ha Hl Hr) as Hs.
  destruct (fenced_loop _ _ _ _ _ _ _ _) as [q' [dn sk]]. destruct Hs as (? & ? & Hdn & Hsk & _).
  split_and!; try done; [|by apply Hsk]. intros Hd%Hdn. by apply not_elem_of_nil in Hd.
Qed.

(** ** Acked jobs are gone *)

(** The jobs [D] of a queue are deleted for good; the jobs [P] are in its log. *)
Record gone (D P : list Z) b : Prop := {
  gn_settled : settled b;
  gn_queue : is_Some (b_queue b);
  gn_dead s : s ∈ D → s <= b_head_seq b ∧ live_at (b_index b) s = false;
  gn_pending s : s ∈ P → s <= b_head_seq b
}.

Lemma gone_stable D P : log_stable (gone D P).
Proof.
  split; [by intros b []|]. intros b b' [] [Hst Hq HD HP]. split; [done|by rewrite ls_queue| |].
  - intros s Hs. destruct (HD s Hs) as [Hh Hl]. split; [lia|].
    destruct (live_at (b_index b') s) eqn:Hl'; [|done]. by rewrite ls_live in Hl.
  - intros s Hs. specialize (HP s Hs). lia.
Qed.

Lemma gone_with_proj {A} name D P (f : TopicState V → QueueProjection → QueueProjection * A) R :
  triple (topic_at name (gone D P)) (with_proj name f) (λ _, topic_at name (gone D P)) R.
Proof.
  apply (with_proj_at name (gone D P) (λ _, gone D P)); [|by intros b []].
  intros b q [Hst Hq HD] _. split; [by destruct Hst as [[] ? ?]|by eexists|done..].
Qed.

Lemma gone_delete D P b s :
  gone D (s :: P) b → gone (D ++ [s]) P (delete_seqs_stats b [s]).1.
Proof.
  intros Hg. destruct (delete_seqs_step b [s] (gn_settled _ _ _ Hg)) as [Hstep Hl].
  destruct (lst_step _ (gone_stable D (s :: P)) _ _ Hstep Hg) as [Hst' Hq' HD' HP'].
  split; [done..| |by intros t Ht; apply HP'; right].
  intros t [?|Ht%list_elem_of_singleton]%elem_of_app; [by apply HD'|subst t].
  split; [apply HP'; by left|].
  destruct (live_at _ s) eqn:Hls; [|done]. apply Hl in Hls as [_ Hn]. set_solver.
Qed.

Lemma ack_deletes_gone name node id now d acked D :
  triple (topic_at name (gone D (acked.*1))) (ack_deletes (V := V) name node id now d acked)
    (λ _, topic_at name (gone (D ++ acked.*1) [])) (λ _, True).
Proof.
  revert D. induction acked as [|[s lid] acked IH]; intros D.
  { intros e He. simpl. by rewrite app_nil_r. }
  cbn [ack_deletes]. rewrite fmap_cons. cbn [fst]. eapply triple_bind.
  { pose proof (delete_one_at name _ _ s now (λ b, gone_delete D (acked.*1) b s)) as Hd.
    eapply triple_conseq; [apply triple_attempt, Hd|done|by intros r e He; exact He|done]. }
  intros [u|c]; cycle 1.
  { intros e He. unfold mbind, EM_bind. by destruct (mapM_ _ _ e) as [e' [?|?]]. }
  eapply triple_bind.
  { eapply triple_conseq; [apply topic_at_keeps, keeps_log_lease|by intros e He; exact He|done|done]. }
  intros u1. specialize (IH (D ++ [s])). rewrite <-app_assoc in IH. exact IH.
Qed.

Lemma ack_loop_gone name node ids seqs now R :
  triple (queue_inv name [])
    (with_proj (V := V) name (λ _ q, fenced_loop ack_act node ids 0 seqs (sweep_expired q now) [] []))
    (λ r, topic_at name (gone [] (r.1.*1))) R.
Proof.
  eapply triple_conseq; [apply (ack_loop_inv name node ids seqs now R)|done| |done].
  intros r e (b & Hb & [Hst _ (q & Hq & Hi)]). exists b. split; [done|]. split; [done|by eexists| |].
  - intros s []%not_elem_of_nil.
  - intros s Hs. destruct (pi_hand _ _ _ _ Hi s Hs). pose proof (pi_head _ _ _ _ Hi). lia.
Qed.

Lemma queue_counters_gone name D now :
  triple (topic_at name (gone D [])) (queue_counters (V := V) name now)
    (λ _, topic_at name (gone D [])) (λ _, True).
Proof.
  intros e He. unfold queue_counters, mbind, EM_bind, topic_ref. pose proof He as (b & Hb & Hg). rewrite Hb.
  destruct (gn_queue _ _ _ Hg) as [q ->].
  pose proof (retention_at name (gone D []) now (gone_stable D []) e He) as Hr.
  unfold attempt. destruct (enforce_retention_durable name now e) as [e' r].
  assert (He' : topic_at name (gone D []) e') by (by destruct r).
  by apply (gone_with_proj name D [] _ (λ _, True)).
Qed.

(** C20. Acked means gone: when an ack returns, every job it reports as acked is
    deleted from the log for good; a job whose delete could not be made durable
    is not reported. *)
Theorem ack_deletes_jobs name node seqs ids e e' resp :
  queue_inv name [] e → ack_fenced (V := V) name node seqs ids e = (e', Ok resp) →
  ∃ b, e_topics e' !! name = Some b ∧
    ∀ s, s ∈ (fr_done resp).*1 → s <= b_head_seq b ∧ live_at (b_index b) s = false.
Proof.
  intros He. set (Q := λ r : FencedResponse, topic_at name (gone (fr_done r).*1 [])).
  assert (Ht : triple (queue_inv name []) (ack_fenced (V := V) name node seqs ids) Q (λ _, True)).
  { unfold ack_fenced. eapply triple_bind; [|intros u].
    { eapply triple_conseq; [apply (restores_keeps name []); by intros e0|done|by intros ? ? H; exact H|done]. }
    eapply triple_bind; [|intros b].
    { eapply triple_conseq; [apply (restores_keeps name []); unfold get_queue; keeps_tac|by intros ? H; exact H|
        by intros ? ? H; exact H|done]. }
    eapply triple_bind; [apply eget_inv|intros e0]. eapply triple_bind; [apply ack_loop_gone|intros r].
    eapply triple_bind; [apply (ack_deletes_gone _ _ _ _ _ _ [])|intros u1].
    eapply triple_bind; [apply queue_counters_gone|]. intros c e1 He1. exact He1. }
  intros Hr. specialize (Ht e He). rewrite Hr in Ht. destruct Ht as (b & Hb & Hg).
  exists b. split; [done|]. apply Hg.
Qed.

(** ** Counters *)

(** The live seqs of an index, as many as its live slots. *)
Definition live_seqs (ix : TopicIndex V) : list Z :=
  filter (λ s, live_at ix s = true) (seqZ (base_seq ix) (tail_seq ix - base_seq ix)).

Lemma live_seqs_count base recs m d :
  Z.of_nat (length (live_seqs (mkTopicIndex base recs m d))) = live_slots recs.
Proof.
  unfold live_seqs, tail_seq, live_slots. simpl. revert base. induction recs as [|r recs IH]; intros base.
  { by rewrite seqZ_nil by (simpl; lia). }
  rewrite seqZ_cons by (simpl; lia).
  assert (Hhead : live_at (mkTopicIndex base (r :: recs) m d) base = negb (r_deleted r)).
  { unfold live_at, get. simpl. rewrite Z.ltb_irrefl. by replace (Z.to_nat (base - base)) with 0%nat by lia. }
  assert (Htail : filter (λ s, live_at (mkTopicIndex base (r :: recs) m d) s = true)
      (seqZ (Z.succ base) (Z.pred (base + Z.of_nat (length (r :: recs)) - base))) =
    filter (λ s, live_at (mkTopicIndex (base + 1) recs m d) s = true)
      (seqZ (base + 1) (base + 1 + Z.of_nat (length recs) - (base + 1)))).
  { replace (Z.pred _) with (base + 1 + Z.of_nat (length recs) - (base + 1)) by (simpl; lia).
    apply filter_ext_elem. intros s Hs%elem_of_seqZ. unfold live_at, get. simpl.
    rewrite !(proj2 (Z.ltb_ge _ _)) by lia.
    by replace (Z.to_nat (s - base)) with (S (Z.to_nat (s - (base + 1)))) by lia. }
  rewrite filter_cons, Htail, Hhead. specialize (IH (base + 1)). rewrite (filter_cons _ r recs).
  destruct (r_deleted r); simpl length; simpl; lia.
Qed.

(** The jobs a claim at [now] could hand out: live, not leased, not delayed. *)
Definition ready_jobs b q (now : Z) : list Z :=
  filter (λ s, leases q !! s = None ∧ Forall (λ d : Z * Z, now < d.1 → d.2 ≠ s) (delayed q))
    (live_seqs (b_index b)).

Lemma elem_of_live_seqs b s :
  topic_wf b → s ∈ live_seqs (b_index b) ↔ live_at (b_index b) s = true.
Proof.
  intros Hwf. unfold live_seqs. rewrite list_elem_of_filter, elem_of_seqZ. split; [tauto|].
  intros Hl. split; [done|]. apply live_at_get in Hl as (r & Hr & _).
  assert (is_Some (get (b_index b) s)) as Hi by eauto. apply get_is_Some in Hi. unfold tail_seq in *. lia.
Qed.

(** The live jobs that are leased, and those delayed past [now]. *)
Definition leased_jobs b q : list Z :=
  (filter (λ e : Z * Lease, live_at (b_index b) e.1 = true) (map_to_list (leases q))).*1.
Definition delayed_jobs b q (now : Z) : list Z :=
  (filter (λ e : Z * Z, now < e.1 ∧ live_at (b_index b) e.2 = true) (delayed q)).*2.

Lemma elem_of_leased_jobs b q s :
  s ∈ leased_jobs b q ↔ is_Some (leases q !! s) ∧ live_at (b_index b) s = true.
Proof.
  unfold leased_jobs. rewrite list_elem_of_fmap. split.
  - intros ([t l] & -> & [Hl Hin]%list_elem_of_filter). apply elem_of_map_to_list in Hin. simpl in *. eauto.
  - intros [[l Hs] Hl]. exists (s, l). split; [done|]. apply list_elem_of_filter.
    split; [done|]. by apply elem_of_map_to_list.
Qed.

Lemma elem_of_delayed_jobs b q now s :
  s ∈ delayed_jobs b q now ↔ live_at (b_index b) s = true ∧ ∃ at_, now < at_ ∧ (at_, s) ∈ delayed q.
Proof.
  unfold delayed_jobs. rewrite list_elem_of_fmap. split.
  - intros ([at_ t] & -> & [[Hn Hl] Hin]%list_elem_of_filter). simpl in *. eauto.
  - intros (Hl & at_ & Hn & Hin). exists (at_, s). split; [done|]. by apply list_elem_of_filter.
Qed.

(** The live jobs split into leased, delayed and ready ones. *)
Lemma live_seqs_split b q now :
  topic_wf b → proj_disjoint q →
  live_seqs (b_index b) ≡ₚ leased_jobs b q ++ delayed_jobs b q now ++ ready_jobs b q now.
Proof.
  intros Hwf [H1 H2 H3 H4].
  assert (Hlive : NoDup (live_seqs (b_index b))) by apply NoDup_filter, NoDup_seqZ.
  assert (Hready : ∀ s, s ∈ ready_jobs b q now ↔ live_at (b_index b) s = true ∧ leases q !! s = None ∧
    ¬ ∃ at_, now < at_ ∧ (at_, s) ∈ delayed q).
  { intros s. unfold ready_jobs. rewrite list_elem_of_filter, elem_of_live_seqs, Forall_forall by done.
    split.
    - intros ([Hn Hf] & Hl). split_and!; [done..|]. intros (at_ & Ha & Hin). by apply (Hf (at_, s)).
    - intros (Hl & Hn & Hno). split_and!; [done| |done]. intros [at_ t] Hin Ha Ht. simpl in *. subst t. eauto. }
  apply NoDup_Permutation; [done| |].
  - rewrite !NoDup_app. split_and!.
    + eapply sublist_NoDup; [apply (NoDup_fst_map_to_list (leases q))|]. apply fmap_sublist, sublist_filter.
    + intros s [[l Hl] _]%elem_of_leased_jobs. rewrite elem_of_app, elem_of_delayed_jobs, Hready.
      intros [(_ & at_ & _ & Hin)|(_ & Hn & _)]; [by eapply H2; eauto|congruence].
    + eapply sublist_NoDup; [exact H4|]. apply fmap_sublist, sublist_filter.
    + intros s. rewrite elem_of_delayed_jobs, Hready. tauto.
    + by apply NoDup_filter.
  - intros s. rewrite !elem_of_app, elem_of_live_seqs, elem_of_leased_jobs, elem_of_delayed_jobs, Hready by done.
    split; [|tauto]. intros Hl. destruct (leases q !! s) as [l|]; [left; eauto|right].
    destruct (decide (Exists (λ e : Z * Z, now < e.1 ∧ e.2 = s) (delayed q))) as [He|Hne].
    + left. apply Exists_exists in He as ([at_ t] & Hin & ? & <-). simpl in *. eauto.
    + right. split_and!; [done..|]. intros (at_ & Ha & Hin). apply Hne, Exists_exists. by exists (at_, s).
Qed.

(** The constant-time ready counter is exact: in a queue in good order it is the
    number of live jobs that are neither leased nor delayed past [now]. *)
Theorem ready_counter_exact name b q now :
  queue_good name [] b → b_queue b = Some q →
  (ready_in_flight b q now).1 = Z.of_nat (length (ready_jobs b q now)).
Proof.
  intros [Hst _ (q0 & Hq0 & Hi)] Hq. rewrite Hq in Hq0. injection Hq0 as <-. pose proof (st_wf _ Hst) as Hwf.
  pose proof (live_seqs_split b q now Hwf (pi_disjoint _ _ _ _ Hi)) as Hp. apply Permutation_length in Hp.
  assert (Hlc : b_live_count b = Z.of_nat (length (live_seqs (b_index b)))).
  { rewrite (tw_live _ Hwf). unfold published. rewrite take_ge.
    - destruct (b_index b). simpl. by rewrite live_seqs_count.
    - pose proof (st_tail _ Hst). unfold tail_seq in *. lia. }
  rewrite !length_app in Hp. unfold leased_jobs, delayed_jobs in Hp. rewrite !length_fmap in Hp.
  unfold ready_in_flight. simpl. sat_lia.
Qed.
End queue_theorems.

(** ** A small queue *)
Module QueueSamples.

(** A JSON stand-in with one value. *)
#[local] Instance unit_null : JsonNull unit := tt.
#[local] Instance unit_serde : Serde unit := {|
  json_to_vec := λ _, [];
  json_from_slice := λ _, Some tt;
  json_object := λ _, tt;
  json_as_object := λ _, None;
  json_string := λ _, tt;
  json_as_str := λ _, None;
  json_number := λ _, tt;
  config_to_vec := λ _, [];
  config_from_slice := λ _, None |}.

Definition jobs_config : TopicConfig := {|
  cfg_type := Queue; cfg_ttl_ms := 0; cfg_cap_records := 0; cfg_cap_bytes := 0;
  cfg_discard := Old; cfg_durable := true; cfg_durability := Some Fsync;
  cfg_priority := None; cfg_auto_priority := true; cfg_auto_create := true;
  cfg_idempotency_window_ms := 120000; cfg_dedupe_node := true;
  cfg_lease_ms := 30000; cfg_claim_jitter_ms := 0; cfg_max_deliveries := 1;
  cfg_dead_letter := Some "dead"%string; cfg_leases_durable := true |}.

Definition job : StoredRecord unit := mkRecord 0 None None tt None 1 false true 0.
Definition jobs_new : TopicState unit := topic_new "jobs" 1 jobs_config 1 1.
Definition jobs_engine (oracle : list WalOutcome) : Engine unit :=
  mkEngine {["jobs"%string := jobs_new]} 1 2 0 0 0 (Some []) oracle 1000 0 graph_new sched_new.

Definition two_workers : list Claimer := [mkClaimer "a" 1 None; mkClaimer "b" 1 None].

(** Three jobs, two of them claimed. *)
Definition claimed_engine : Engine unit :=
  run_queue_ops "jobs" [QLog (OpAppend [job; job; job] 0); QClaim two_workers None] (jobs_engine []).
Definition jobs_topic (e : Engine unit) : TopicState unit := default jobs_new (e_topics e !! "jobs"%string).
Definition claimed_queue : QueueProjection := queue_of (jobs_topic claimed_engine).
Definition sample_env (now : Z) : ClaimEnv (V := unit) :=
  mkClaimEnv two_workers (now + 30000) 1 (Some "dead"%string) (b_index (jobs_topic claimed_engine)) 3 now.

Lemma jobs_appendable : appendable jobs_new [job; job; job].
Proof. split_and!; [by repeat constructor|by vm_compute..]. Qed.

Lemma jobs_op_ok e :
  e_topics e !! "jobs"%string = Some jobs_new →
  ∀ b, e_topics e !! "jobs"%string = Some b → op_ok (OpAppend [job; job; job] 0) b.
Proof. intros -> b [= <-]. apply jobs_appendable. Qed.

Lemma claimed_inv : queue_inv "jobs" [] claimed_engine.
Proof.
  apply run_queue_ops_inv.
  - eexists. split; [reflexivity|]. by apply topic_new_queue_good.
  - split; [by apply jobs_op_ok|done].
Qed.

Lemma claimed_good : queue_good "jobs" [] (jobs_topic claimed_engine) ∧
  b_queue (jobs_topic claimed_engine) = Some claimed_queue.
Proof.
  destruct claimed_inv as (b & Hb & Hg). unfold claimed_queue, queue_of, jobs_topic. rewrite Hb. simpl.
  split; [done|]. destruct (qg_queue _ _ _ Hg) as (q & -> & _). done.
Qed.

Lemma claimed_wf : proj_wf claimed_queue.
Proof.
  destruct claimed_good as [[_ _ (q & Hq & Hi)] Hq']. rewrite Hq in Hq'. injection Hq' as <-. apply Hi.
Qed.

Lemma claim_exclusive_witness :
  let st := claim_pass (sample_env 1001) claimed_queue in
  ev_seqs (cl_events st) = [3] ∧ proj_wf (cl_q st) ∧ ascending (ev_seqs (cl_events st)).
Proof.
  pose proof (claim_exclusive (sample_env 1001) claimed_queue claimed_wf) as (Ha & _ & _ & Hw).
  split_and!; [by vm_compute|exact Hw|exact Ha].
Defined.

Lemma claim_complete_witness :
  let st := claim_pass (sample_env 1001) claimed_queue in
  cl_total st = 1 ∧
  (∀ s, s <= 3 → live_at (b_index (jobs_topic claimed_engine)) s = true →
     s ∈ cl_dead st ∨ is_Some (leases (cl_q st) !! s) ∨ ∃ at_, (at_, s) ∈ delayed claimed_queue).
Proof.
  assert (Ht : tracked (ce_index (sample_env 1001)) claimed_queue).
  { destruct claimed_good as [[_ _ (q & Hq & Hi)] Hq']. rewrite Hq in Hq'. injection Hq' as <-.
    intros s Hs Hl. destruct (pi_tracked _ _ _ _ Hi s Hs Hl) as [[]%not_elem_of_nil|?]; done. }
  pose proof (claim_complete (sample_env 1001) claimed_queue claimed_wf Ht) as (_ & Hc).
  split; [by vm_compute|]. apply Hc. by vm_compute.
Defined.

(** The leases of the first claim have expired: their jobs are over budget. *)
Lemma claim_deliveries_witness :
  let st := claim_pass (sample_env 99999) (sweep_expired claimed_queue 99999) in
  cl_dead st = [1; 2] ∧ cl_out st !! 0%nat = Some [mkJob 3 3 129999 0 None 1 tt None] ∧
  ∀ s, s ∈ cl_dead st → leases (cl_q st) !! s = None.
Proof.
  assert (Hwf : proj_wf (sweep_expired claimed_queue 99999))
    by (destruct (sweep_expired_spec claimed_queue 99999 claimed_wf); done).
  pose proof (claim_deliveries (sample_env 99999) _ Hwf) as (_ & _ & Hd).
  split_and!; [by vm_compute|by vm_compute|]. intros s Hs. by apply Hd.
Defined.

(** A history with a failed ack: the third WAL submission, the delete frame of
    the first acked job, is refused. *)
Definition failing_history : list (QueueOp (V := unit)) :=
  [QLog (OpAppend [job; job; job] 0); QClaim two_workers None; QAck "a" [1] [None];
   QNack "b" [2] 500 [Some 2]; QClock 99999; QClaim two_workers None].

Lemma queue_no_stranded_job_witness :
  let e := run_queue_ops "jobs" failing_history (jobs_engine [Committed; Committed; SubmitFailed]) in
  ∃ b q, e_topics e !! "jobs"%string = Some b ∧ b_queue b = Some q ∧
    proj_wf q ∧ proj_disjoint q ∧ claim_cursor q <= b_head_seq b + 1 ∧
    (∀ s, live_at (b_index b) s = true → claim_cursor q <= s ∨ accounted q s) ∧
    live_at (b_index (jobs_topic e)) 1 = true.
Proof.
  destruct (queue_no_stranded_job "jobs" 1 jobs_config 1 1 failing_history
    (jobs_engine [Committed; Committed; SubmitFailed])) as (b & q & H1 & H2 & H3 & H4 & H5 & H6);
    [done|done|done|done|split; [by apply jobs_op_ok|done]|].
  exists b, q. split_and!; [exact H1|exact H2|exact H3|exact H4|exact H5|exact H6|by vm_compute].
Defined.

Lemma unexpired_lease_kept_witness :
  let st := claim_pass (sample_env 1001) (sweep_expired claimed_queue 1001) in
  leases (cl_q st) !! 1 = Some (mkLease "a" 1 31000 None) ∧ (1 ∉ ev_seqs (cl_events st)) ∧
  ∀ jobs j, jobs ∈ cl_out st → j ∈ jobs → j_seq j ≠ 1.
Proof.
  apply (unexpired_lease_kept (sample_env 1001) claimed_queue 1 (mkLease "a" 1 31000 None) claimed_wf);
    [by vm_compute|by vm_compute].
Defined.

(** Worker [b] acks a job of worker [a]; worker [a] acks with a stale token. *)
Lemma stale_token_changes_nothing_witness :
  let '(q', (dn, skipped)) := fenced_loop ack_act "a" [Some 9; None] 0 [1; 3] claimed_queue [] [] in
  leases q' !! 1 = Some (mkLease "a" 1 31000 None) ∧
  deliveries q' !! 1 = deliveries claimed_queue !! 1 ∧ (1 ∉ dn.*1) ∧ 1 ∈ skipped.
Proof.
  apply (stale_token_changes_nothing ack_act "a" [Some 9; None] [1; 3] claimed_queue 1
    (mkLease "a" 1 31000 None)); [constructor|by vm_compute|by left|].
  intros [|[|i]] Hi; simpl in Hi; [right; by exists 9|done|done].
Defined.

Lemma ack_deletes_jobs_witness :
  let r := ack_fenced "jobs" "a" [1; 2] [] claimed_engine in
  ∃ b, e_topics r.1 !! "jobs"%string = Some b ∧
    (∀ s, s ∈ [1] → s <= b_head_seq b ∧ live_at (b_index b) s = false).
Proof.
  destruct (ack_fenced "jobs" "a" [1; 2] [] claimed_engine) as [e' [resp|c]] eqn:Hr;
    [|by vm_compute in Hr].
  assert (Hd : (fr_done resp).*1 = [1]) by (vm_compute in Hr; injection Hr as _ <-; done).
  destruct (ack_deletes_jobs "jobs" "a" [1; 2] [] claimed_engine e' resp claimed_inv Hr) as (b & Hb & Hg).
  exists b. rewrite <-Hd. split; [exact Hb|exact Hg].
Defined.

Lemma ready_counter_exact_witness :
  (ready_in_flight (jobs_topic claimed_engine) claimed_queue 1001).1 =
    Z.of_nat (length (ready_jobs (jobs_topic claimed_engine) claimed_queue 1001)) ∧
  ready_jobs (jobs_topic claimed_engine) claimed_queue 1001 = [3].
Proof.
  split; [apply (ready_counter_exact "jobs"); apply claimed_good|by vm_compute].
Defined.

(** Replay of a claim leaves the job on the freelist where an earlier release
    put it: after a restart a delayed nack is handed out again at once. *)
Example replayed_release_voids_delay :
  let q0 := foldl (λ q ev, apply_lease_event q ev.1 1 "a" ev.2 31000 1) (projection_new 1)
              [(Claimed, 1); (Released, 1); (Claimed, 2)] in
  let q1 := (fenced_loop (nack_act 1000 5000) "a" [Some 2] 0 [1] q0 [] []).1 in
  delayed q1 = [(6000, 1)] ∧
  (next_claimable (sweep_expired q1 1001) (b_index (jobs_topic claimed_engine)) 3).1 = Some 1.
Proof. by vm_compute. Qed.
End QueueSamples.
