(* ===== verification/Work.v ===== *)
(** * Work connections

    Models the push side of queues: [claim] and [claim_cohort] of
    [src/engine/queue.rs], and [run_claim], the work stream ([work],
    [build_work_stream]) and its guard ([WorkConnGuard]) of [src/http/queue.rs].  A work
    connection keeps up to [max] jobs leased to its client: each turn of its loop reads
    how many it holds, claims the difference, pushes the jobs and parks; when the stream
    is dropped its guard releases what the connection holds.  The claim of a turn runs
    on the blocking pool (or in a cohort) and is not cancelled with the stream.

    [work_conn_bounded]: in every interleaving with the requests of other clients the
    connection holds at most [max] live leases.  [work_conn_released]: once its stream
    has ended, no job is leased to it, provided no stream is dropped in the middle of a
    claim; [dropped_claim_strands_leases] shows what such a drop leaves. *)

From stdpp Require Import relations.
From S2P Require Import Prelude Types Eviction TopicIndex QueueProjection TopicState TopicLog.
From S2P Require Import Bytes Router Sched Wal Json Engine EngineLogic Forward Queue Listing QueueSpec QueueInv QueueTheorems Cohort.

(** ** Claims *)
Section work.
Context {V : Type} `{!JsonNull V} `{!Serde V} `{!Powf}.
Implicit Types (e : Engine V).

Record ClaimedJob := mkClaimedJob {
  cj_seq : Z;
  cj_lease_id : string;
  cj_deadline : Z;
  cj_ts : Z;
  cj_tag : option string;
  cj_deliveries : Z;
  cj_data : V;
  cj_meta : option V
}.
Definition to_claimed_job (j : LeasedJob V) : ClaimedJob :=
  mkClaimedJob (j_seq j) (lease_token (j_lease_id j)) (j_deadline j) (j_ts j) (j_tag j) (j_deliveries j)
    (j_data j) (j_meta j).

(** The checks of a claim on its node. *)
Definition check_claim_node (node : string) : result ErrorCode unit :=
  if bool_decide (node = EmptyString) then Err InvalidRequest
  else if MAX_NODE_BYTES <? string_len node then Err InvalidRequest else Ok tt.

(** [Engine::claim_cohort] *)
Definition claim_cohort (name : string) (claimers : list Claimer) (lease_ms : option Z) :
    EM V (list (list (LeasedJob V)) * Z) :=
  _ ← catch_up_dest name;
  _ ← get_queue name;
  run_claim_cohort name claimers lease_ms.

(** [Engine::claim]: the claimed jobs and the ready count of the response. *)
Definition claim (name node : string) (max : Z) (lease_ms : option Z) : EM V (list ClaimedJob * Z) :=
  _ ← lift (check_claim_node node);
  _ ← catch_up_dest name;
  _ ← get_queue name;
  r ← run_claim_cohort name [mkClaimer node (clamp 1 MAX_CLAIM max) None] lease_ms;
  mret (to_claimed_job <$> default [] (last r.1), r.2).

(** The other members of the cohort a claim ends up in, and the lease of its leader. *)
Record CohortMates := mkMates { mates_before : list Claimer; mates_after : list Claimer; mates_lease : option Z }.

(** [run_claim] of [http/queue.rs].  [Cohort] is how a cohort forms. *)
Definition run_claim (name node : string) (max : Z) (lease_ms work_conn : option Z) (m : CohortMates) :
    EM V (list (LeasedJob V) * Z) :=
  o ← get_topic name;
  match o with
  | None => throw TopicNotFound
  | Some b =>
      if negb (is_queue (b_config b)) then throw NotAQueue
      else
        _ ← lift (check_claim_node node);
        let claimer := mkClaimer node (clamp 1 MAX_CLAIM max) work_conn in
        if Z.min (cfg_claim_jitter_ms (b_config b)) MAX_CLAIM_JITTER_MS =? 0 then
          r ← claim_cohort name [claimer] lease_ms;
          mret (default [] (last r.1), r.2)
        else
          r ← claim_cohort name (mates_before m ++ claimer :: mates_after m) (mates_lease m);
          st ← topic_state name false;
          mret (nth (length (mates_before m)) r.1 [], default 0 (qs_ready <$> tr_queue st))
  end.

(** ** The work stream *)
Context (name node : string) (max : Z) (lease_ms : option Z) (conn : Z).

(** What the client is sent. *)
Inductive WorkFrame :=
| FrRetry
| FrJob (j : LeasedJob V)
| FrShutdown
| FrNotQueue.

(** Where the stream is: before its first poll, at the head of its loop, in the claim of
    a turn, with jobs to push, parked, or dropped. *)
Inductive WorkPhase :=
| WkOpen
| WkHead
| WkClaim (deficit : Z)
| WkPush (jobs : list (LeasedJob V))
| WkPark
| WkClosed.

(** [wk_stray] is a claim on the blocking pool, or in a cohort, whose stream is gone. *)
Record WorkConn := mkWork {
  wk_engine : Engine V;
  wk_phase : WorkPhase;
  wk_stray : option Z;
  wk_down : bool;
  wk_sent : list WorkFrame
}.
Definition set_work (s : WorkConn) (e : Engine V) (ph : WorkPhase) (fs : list WorkFrame) : WorkConn :=
  mkWork e ph (wk_stray s) (wk_down s) (wk_sent s ++ fs).

(** The end of the stream, by [break] or by a drop: [WorkConnGuard::drop]. *)
Definition work_close (e : Engine V) (fs : list WorkFrame) (s : WorkConn) : WorkConn :=
  set_work s (release_work_conn name conn e).1 WkClosed fs.

(** The head of the loop. *)
Definition work_head (s : WorkConn) : WorkConn :=
  if wk_down s then work_close (wk_engine s) [FrShutdown] s
  else match work_conn_in_flight name conn (wk_engine s) with
       | (e, Ok in_flight) =>
           let deficit := max -s in_flight in
           set_work s e (if 0 <? deficit then WkClaim deficit else WkPush []) []
       | (e, Err _) => s
       end.

(** The claim returns. *)
Definition work_claim (m : CohortMates) (deficit : Z) (s : WorkConn) : WorkConn :=
  match run_claim name node deficit lease_ms (Some conn) m (wk_engine s) with
  | (e, Ok r) => set_work s e (WkPush r.1) []
  | (e, Err _) => work_close e [FrNotQueue] s
  end.

(** The rest of a claim whose stream was dropped: nobody takes its result. *)
Definition stray_claim (m : CohortMates) (deficit : Z) (e : Engine V) : Engine V :=
  (claim_cohort name (mates_before m ++ mkClaimer node (clamp 1 MAX_CLAIM deficit) (Some conn) :: mates_after m)
     (mates_lease m) e).1.

(** After the jobs of a turn. *)
Definition work_park (s : WorkConn) : WorkConn :=
  match e_topics (wk_engine s) !! name with
  | Some _ => set_work s (wk_engine s) WkPark []
  | None => work_close (wk_engine s) [] s
  end.

(** The stream can be dropped where it is suspended outside of a claim. *)
Definition suspended (ph : WorkPhase) : bool :=
  match ph with WkOpen | WkPush _ | WkPark => true | _ => false end.

(** A claim for the connection. *)
Definition claims_for (claimers : list Claimer) : Prop :=
  ∃ i c, claimers !! i = Some c ∧ cm_work_conn c = Some conn.

(** The requests of other clients; the clock does not run back. *)
Definition other_op (op : QueueOp (V := V)) (e : Engine V) : Prop :=
  match op with
  | QClaim claimers _ => ¬ claims_for claimers
  | QClock now => e_now e <= now <= i64_max
  | _ => True
  end.

Inductive work_step (cancellable : bool) (s : WorkConn) : WorkConn → Prop :=
| wk_opened : wk_phase s = WkOpen → work_step cancellable s (set_work s (wk_engine s) WkHead [FrRetry])
| wk_turn : wk_phase s = WkHead → work_step cancellable s (work_head s)
| wk_claimed d m :
    wk_phase s = WkClaim d → ¬ claims_for (mates_before m ++ mates_after m) →
    work_step cancellable s (work_claim m d s)
| wk_pushed j js :
    wk_phase s = WkPush (j :: js) →
    work_step cancellable s (set_work s (wk_engine s) (WkPush js) [FrJob j])
| wk_parks : wk_phase s = WkPush [] → work_step cancellable s (work_park s)
| wk_wakes : wk_phase s = WkPark → work_step cancellable s (set_work s (wk_engine s) WkHead [])
| wk_dropped : suspended (wk_phase s) = true → work_step cancellable s (work_close (wk_engine s) [] s)
| wk_dropped_claiming d :
    wk_phase s = WkClaim d → cancellable = true →
    work_step cancellable s
      (let s' := work_close (wk_engine s) [] s in
       mkWork (wk_engine s') (wk_phase s') (Some d) (wk_down s') (wk_sent s'))
| wk_stray_runs d m :
    wk_stray s = Some d → ¬ claims_for (mates_before m ++ mates_after m) →
    work_step cancellable s
      (mkWork (stray_claim m d (wk_engine s)) (wk_phase s) None (wk_down s) (wk_sent s))
| wk_other op :
    other_op op (wk_engine s) →
    work_step cancellable s (set_work s (run_queue_op name op (wk_engine s)) (wk_phase s) [])
| wk_shutdown : work_step cancellable s (mkWork (wk_engine s) (wk_phase s) (wk_stray s) true (wk_sent s)).

Definition work_init (e : Engine V) : WorkConn := mkWork e WkOpen None false [].
End work.
Arguments WorkConn V : clear implicits.
Arguments WorkPhase V : clear implicits.
Arguments WorkFrame V : clear implicits.

(** ** The projection through a request *)

(** A topic operation leaves the projection alone. *)
Section topic_queue.
Context {V : Type} `{!JsonNull V}.
Implicit Types (b : TopicState V).

Lemma queue_stage b recs : b_queue (stage_append b recs).1 = b_queue b.
Proof. unfold stage_append. by repeat case_match. Qed.
Lemma queue_publish b s now : b_queue (publish_staged_no_seal b s now).1 = b_queue b.
Proof. unfold publish_staged_no_seal. by repeat case_match. Qed.
Lemma queue_rollback b s : b_queue (rollback_staged b s) = b_queue b.
Proof. unfold rollback_staged. by repeat case_match. Qed.
Lemma queue_rollback_seqs b s : b_queue (rollback_staged_by_seqs b s) = b_queue b.
Proof. unfold rollback_staged_by_seqs. by repeat case_match. Qed.
Lemma queue_reserved b n : b_queue (set_reserved_head b n) = b_queue b.
Proof. done. Qed.
Lemma queue_reclaim b head : b_queue (reclaim_front b head).1 = b_queue b.
Proof. unfold reclaim_front. by repeat case_match. Qed.
Ltac queue_reclaimed :=
  match goal with
  | |- context [reclaim_front ?x ?h] =>
      pose proof (queue_reclaim x h); destruct (reclaim_front x h); simpl in *
  end.
Lemma queue_hardened {E} b now (h : RetentionAdvance → result E unit) :
  b_queue (enforce_retention_hardened b now h).1 = b_queue b.
Proof.
  unfold enforce_retention_hardened. do 2 (case_match; [done|]). case_match; [|done].
  queue_reclaimed. etrans; [eassumption|]. by case_match.
Qed.
Lemma queue_retention b now : b_queue (enforce_retention b now).1 = b_queue b.
Proof.
  unfold enforce_retention. pose proof (queue_hardened (E := Empty_set) b now (λ _, Ok tt)) as H.
  by destruct (enforce_retention_hardened _ _ _) as [b' [|[]]].
Qed.
Lemma queue_delete b seqs : b_queue (delete_seqs_stats b seqs).1 = b_queue b.
Proof. unfold delete_seqs_stats. destruct (mark_all _ _ _ _) as [[ix f] d]. by queue_reclaimed. Qed.
Lemma queue_trim_one b : b_queue (note_source_trim b) = b_queue b.
Proof. done. Qed.
Lemma queue_trim b n : b_queue (Nat.iter n note_source_trim b) = b_queue b.
Proof. induction n as [|n IH]; [done|]. etrans; [apply queue_trim_one|done]. Qed.
Lemma queue_apply_delete b before match_ bound now :
  b_queue (apply_delete_stats b before match_ bound now).1 = b_queue b.
Proof.
  unfold apply_delete_stats. pose proof (queue_retention b now) as Hr.
  destruct (enforce_retention b now) as [b1 adv]. simpl in Hr. destruct (mark_all _ _ _ _) as [[ix f] d].
  queue_reclaimed. etrans; [eassumption|]. done.
Qed.
Lemma queue_exec_op op b : b_queue (exec_op op b) = b_queue b.
Proof.
  destruct op; simpl.
  - unfold append. pose proof (queue_stage b recs) as Hs. destruct (stage_append b recs) as [b1 s].
    case_match; [done|]. etrans; [apply queue_publish|done].
  - apply queue_retention.
  - apply queue_apply_delete.
  - apply queue_delete.
  - apply queue_trim_one.
  - unfold restore_head_watermark. by repeat case_match.
Qed.
End topic_queue.

Create Rewrite HintDb queue_eq.
#[export] Hint Rewrite @queue_stage @queue_publish @queue_rollback @queue_rollback_seqs @queue_reserved
  @queue_hardened @queue_retention @queue_delete @queue_trim : queue_eq.

(** A computation that leaves the projection of the topic [name] at [Q]. *)
Section frames.
Context {V : Type} `{!JsonNull V} `{!Serde V} (name : string) (Q : option QueueProjection).
Implicit Types (b : TopicState V) (e : Engine V).

Definition queue_is e : Prop := topic_at name (λ b, b_queue b = Q) e.
Definition leaves {A} (m : EM V A) : Prop := triple queue_is m (λ _, queue_is) queue_is.

Lemma leaves_keeps {A} (m : EM V A) : keeps name m → leaves m.
Proof. apply topic_at_keeps. Qed.
Lemma leaves_bind {A B} (m : EM V A) (k : A → EM V B) : leaves m → (∀ a, leaves (k a)) → leaves (m ≫= k).
Proof. intros Hm Hk. eapply triple_bind; [exact Hm|done]. Qed.
Lemma leaves_attempt {A} (m : EM V A) : leaves m → leaves (attempt m).
Proof. intros Hm e He. specialize (Hm e He). unfold attempt. by destruct (m e) as [e' [a|c]]. Qed.
Lemma leaves_read {A} n (k : TopicState V → EM V A) :
  (∀ b, (n = name → b_queue b = Q) → leaves (k b)) → leaves (topic_ref n ≫= k).
Proof.
  intros Hk e He. unfold mbind, EM_bind, topic_ref. destruct (e_topics e !! n) as [b|] eqn:Hb; [|done].
  apply Hk; [|done]. intros ->. destruct He as (b' & Hb' & ?). by simplify_eq.
Qed.
Lemma leaves_store n b : (n = name → b_queue b = Q) → leaves (store_topic n b).
Proof.
  intros Hb e (b' & Hb' & Hq). destruct (decide (n = name)) as [->|Hne].
  - exists b. simpl. rewrite lookup_insert_eq. auto.
  - exists b'. simpl. by rewrite lookup_insert_ne.
Qed.
End frames.

Create HintDb leaves.
#[export] Hint Resolve leaves_attempt : leaves.
Ltac leaves_tac :=
  repeat first
    [ progress intros
    | solve [auto with leaves]
    | apply leaves_attempt
    | apply leaves_read
    | apply leaves_bind
    | apply leaves_store; intros; autorewrite with queue_eq; by auto
    | solve [apply leaves_keeps; solve [eauto with keeps | apply keeps_emodify; done]]
    | match goal with
      | |- leaves _ _ (match ?x with _ => _ end) => destruct x eqn:?
      end ].

Section leaving.
Context {V : Type} `{!JsonNull V} `{!Serde V} `{!Powf} (name : string) (Q : option QueueProjection).
Abbreviation leaves := (leaves (V := V) name Q).

Lemma leaves_retention n now : leaves (enforce_retention_durable n now).
Proof.
  unfold enforce_retention_durable. apply leaves_read. intros b Hb. case_match.
  - pose proof (queue_retention b now). destruct (enforce_retention b now) as [b' adv]. simpl in *.
    leaves_tac. apply leaves_store. intros. etrans; [done|auto].
  - apply leaves_bind; [leaves_tac|]. intros r.
    pose proof (queue_hardened b now (λ _, r)). destruct (enforce_retention_hardened _ _ _) as [b' res]. simpl in *.
    leaves_tac. apply leaves_store. intros. etrans; [done|auto].
Qed.
Lemma leaves_reserved n head now : leaves (ensure_disk_head_reserved n head now).
Proof. unfold ensure_disk_head_reserved. leaves_tac. Qed.
#[local] Hint Resolve leaves_retention leaves_reserved : leaves.

Lemma leaves_derived_append n recs now : leaves (derived_append n recs now).
Proof.
  unfold derived_append. destruct recs as [|r recs]; [leaves_tac|].
  leaves_tac.
Qed.
Lemma leaves_durable_append n recs now : leaves (durable_append n recs now).
Proof. unfold durable_append. destruct recs as [|r recs]; [leaves_tac|]. leaves_tac. Qed.
#[local] Hint Resolve leaves_derived_append leaves_durable_append : leaves.

Lemma leaves_mark_dirty n : leaves (mark_topic_dirty n).
Proof. unfold mark_topic_dirty. leaves_tac. Qed.
#[local] Hint Resolve leaves_mark_dirty : leaves.
Lemma leaves_append_forwarded router recs now : leaves (append_forwarded router recs now).
Proof. unfold append_forwarded. leaves_tac. Qed.
Lemma leaves_clamp n router source cursor : leaves (clamp_cursor n router source cursor).
Proof. unfold clamp_cursor. leaves_tac. Qed.
Lemma leaves_finish n router cursor st behind : leaves (finish_pass n router cursor st behind).
Proof. unfold finish_pass. leaves_tac. Qed.
#[local] Hint Resolve leaves_append_forwarded leaves_clamp leaves_finish : leaves.
Lemma leaves_forward n router cursor now : leaves (forward_pass n router cursor now).
Proof. unfold forward_pass. leaves_tac. Qed.
#[local] Hint Resolve leaves_forward : leaves.
Lemma leaves_advance n : leaves (advance_router n).
Proof.
  unfold advance_router. apply leaves_bind; [leaves_tac|]. intros e.
  destruct (graph_get _ _) as [router|]; [|leaves_tac].
  apply leaves_bind; [leaves_tac|]. intros s. apply leaves_bind; [leaves_tac|]. intros d.
  destruct s, d; leaves_tac.
Qed.
#[local] Hint Resolve leaves_advance : leaves.
Lemma leaves_drive fuel n : leaves (drive_router fuel n).
Proof. induction fuel; simpl; leaves_tac. Qed.
#[local] Hint Resolve leaves_drive : leaves.
Lemma leaves_catch_up n : leaves (catch_up_dest n).
Proof.
  unfold catch_up_dest. apply leaves_bind; [leaves_tac|]. intros e. generalize (Z.to_nat CATCH_UP_PASSES) as fuel.
  induction (rt_name <$> _) as [|r rs IH]; intros fuel; simpl; leaves_tac.
Qed.
End leaving.

(** ** The leases of a connection *)
Section leases.
Context {V : Type} `{!JsonNull V} (conn t : Z).
Implicit Types (q : QueueProjection) (l : Lease).

Definition of_conn l : Prop := l_by_work_conn l = Some conn.

(** The jobs leased to the connection, and those of them whose lease has not run out
    at [t]. *)
Definition conn_held q : gset Z := dom (filter (λ kv : Z * Lease, of_conn kv.2) (leases q)).
Definition conn_live q : gset Z :=
  dom (filter (λ kv : Z * Lease, of_conn kv.2 ∧ t <= l_deadline_ms kv.2) (leases q)).

Lemma elem_of_conn_held q s : s ∈ conn_held q ↔ ∃ l, leases q !! s = Some l ∧ of_conn l.
Proof. unfold conn_held. rewrite elem_of_dom. unfold is_Some. setoid_rewrite map_lookup_filter_Some. done. Qed.
Lemma elem_of_conn_live q s :
  s ∈ conn_live q ↔ ∃ l, leases q !! s = Some l ∧ of_conn l ∧ t <= l_deadline_ms l.
Proof. unfold conn_live. rewrite elem_of_dom. unfold is_Some. setoid_rewrite map_lookup_filter_Some. done. Qed.

(** [q'] has no lease of the connection that [q] has not, and none that lives longer. *)
Definition fewer q' q : Prop :=
  ∀ s l', leases q' !! s = Some l' → of_conn l' →
    ∃ l, leases q !! s = Some l ∧ of_conn l ∧ (t <= l_deadline_ms l' → t <= l_deadline_ms l).

Lemma fewer_refl q : fewer q q.
Proof. intros s l Hl Hc. eauto. Qed.
Lemma fewer_trans q1 q2 q3 : fewer q1 q2 → fewer q2 q3 → fewer q1 q3.
Proof. intros H1 H2 s l Hl Hc. destruct (H1 s l Hl Hc) as (l2 & Hl2 & Hc2 & ?). destruct (H2 s l2 Hl2 Hc2). naive_solver. Qed.
Lemma fewer_same q q' : leases q' = leases q → fewer q' q.
Proof. unfold fewer. intros ->. apply fewer_refl. Qed.
Lemma fewer_delete q s : fewer (set_leases q (delete s (leases q))) q.
Proof. intros s' l Hl Hc. simpl in Hl. apply lookup_delete_Some in Hl as [_ Hl]. eauto. Qed.

Lemma fewer_held q q' : fewer q' q → conn_held q' ⊆ conn_held q.
Proof. intros H s. rewrite !elem_of_conn_held. intros (l & Hl & Hc). destruct (H s l Hl Hc). naive_solver. Qed.
Lemma fewer_live q q' : fewer q' q → conn_live q' ⊆ conn_live q.
Proof. intros H s. rewrite !elem_of_conn_live. intros (l & Hl & Hc & Ht). destruct (H s l Hl Hc). naive_solver. Qed.
Lemma live_held q : conn_live q ⊆ conn_held q.
Proof. intros s. rewrite elem_of_conn_live, elem_of_conn_held. naive_solver. Qed.

(** *** What the operations do to it *)
Lemma fewer_release q s : fewer (release_to_reclaim q s) q.
Proof.
  unfold release_to_reclaim. eapply fewer_trans; [apply fewer_same, push_reclaim_fields|apply fewer_delete].
Qed.

Lemma foldl_release_leases ss q s l :
  leases (foldl release_to_reclaim q ss) !! s = Some l → (s ∉ ss) ∧ leases q !! s = Some l.
Proof.
  revert q. induction ss as [|s' ss IH]; intros q; simpl.
  { intros Hl. split; [apply not_elem_of_nil|done]. }
  intros [Hn Hl]%IH. unfold release_to_reclaim in Hl.
  rewrite (proj1 (push_reclaim_fields _ _)) in Hl. simpl in Hl. apply lookup_delete_Some in Hl as [Hne Hl]. set_solver.
Qed.

Lemma sweep_lookup q s l : leases (sweep_expired q t) !! s = Some l → leases q !! s = Some l ∧ t <= l_deadline_ms l.
Proof.
  unfold sweep_expired. intros [Hn Hl]%foldl_release_leases. rewrite elem_of_expired_seqs in Hn.
  rewrite (proj1 (sweep_delayed_fields _ _ _)) in Hl. split; [done|].
  destruct (Z.le_gt_cases t (l_deadline_ms l)); [done|]. destruct Hn. exists l.
  rewrite (proj1 (sweep_delayed_fields _ _ _)). split; [done|lia].
Qed.

Lemma fewer_sweep q : fewer (sweep_expired q t) q.
Proof. intros s l [Hl Ht]%sweep_lookup Hc. eauto. Qed.

Lemma sweep_held_live q : conn_held (sweep_expired q t) ⊆ conn_live q.
Proof. intros s. rewrite elem_of_conn_held, elem_of_conn_live. intros (l & [Hl Ht]%sweep_lookup & Hc). eauto. Qed.

Lemma fewer_requeue q ss : fewer (foldl push_reclaim q ss) q.
Proof.
  revert q. induction ss as [|s ss IH]; intros q; simpl; [apply fewer_refl|].
  eapply fewer_trans; [apply IH|apply fewer_same, push_reclaim_fields].
Qed.

Lemma fewer_release_loop q ss acc : fewer (release_loop q ss acc).1 q.
Proof.
  revert q acc. induction ss as [|s ss IH]; intros q acc; simpl; [apply fewer_refl|].
  case_match; [|done]. eapply fewer_trans; [apply IH|apply fewer_release].
Qed.

(** A fenced operation on a swept projection: [extend] renews leases that live. *)
Lemma fewer_fenced act node ids i seqs q dn sk :
  (∀ q s l, leases q !! s = Some l → (∀ s l, leases q !! s = Some l → t <= l_deadline_ms l) →
     fewer (act q s l) q ∧ ∀ s' l', leases (act q s l) !! s' = Some l' → t <= l_deadline_ms l') →
  (∀ s l, leases q !! s = Some l → t <= l_deadline_ms l) →
  fewer (fenced_loop act node ids i seqs q dn sk).1 q.
Proof.
  intros Hact. revert i q dn sk. induction seqs as [|s seqs IH]; intros i q dn sk Hq; simpl; [apply fewer_refl|].
  destruct (held_by q node ids i s) as [l|] eqn:Hh; [|by apply IH].
  assert (leases q !! s = Some l) as Hl by (unfold held_by in Hh; repeat case_match; by simplify_eq).
  destruct (Hact q s l Hl Hq) as [Hf Hq']. eapply fewer_trans; [by apply IH|done].
Qed.

Lemma swept_live q s l : leases (sweep_expired q t) !! s = Some l → t <= l_deadline_ms l.
Proof. by intros [_ ?]%sweep_lookup. Qed.

Lemma fewer_ack node ids seqs q : fewer (fenced_loop ack_act node ids 0 seqs (sweep_expired q t) [] []).1 q.
Proof.
  eapply fewer_trans; [apply fewer_fenced|apply fewer_sweep]; [|apply swept_live].
  intros q' s l Hl Hq. split; [apply fewer_delete|]. simpl. intros s' l' [_ ?]%lookup_delete_Some. eauto.
Qed.

Lemma fewer_nack now delay node ids seqs q :
  fewer (fenced_loop (nack_act now delay) node ids 0 seqs (sweep_expired q t) [] []).1 q.
Proof.
  eapply fewer_trans; [apply fewer_fenced|apply fewer_sweep]; [|apply swept_live].
  intros q' s l Hl Hq. assert (leases (nack_act now delay q' s l) = delete s (leases q')) as E.
  { unfold nack_act. case_match; [done|]. by rewrite (proj1 (push_reclaim_fields _ _)). }
  split.
  - intros s' l'. rewrite E. intros [_ ?]%lookup_delete_Some. eauto.
  - intros s' l'. rewrite E. intros [_ ?]%lookup_delete_Some. eauto.
Qed.

Lemma fewer_extend deadline node ids seqs q :
  t <= deadline → fewer (fenced_loop (extend_act deadline) node ids 0 seqs (sweep_expired q t) [] []).1 q.
Proof.
  intros Hd. eapply fewer_trans; [apply fewer_fenced|apply fewer_sweep]; [|apply swept_live].
  intros q' s l Hl Hq. split.
  - intros s' l'. simpl. intros [[<- <-]|[_ ?]]%lookup_insert_Some Hc; [|eauto]. exists l. eauto.
  - intros s' l'. simpl. intros [[<- <-]|[_ ?]]%lookup_insert_Some; [done|eauto].
Qed.

(** The claim pass: each job leased to the connection uses up one of the demand of its
    claimer. *)
Lemma next_reclaim_leases fuel q (ix : TopicIndex V) : leases (next_reclaim fuel q ix).2 = leases q.
Proof.
  revert q. induction fuel as [|fuel IH]; intros q; simpl; [done|]. unfold pop_reclaim.
  destruct (reclaim q); [done|]. repeat case_match; simplify_eq; simpl in *; first [done | by rewrite IH].
Qed.
Lemma next_fresh_leases fuel q (ix : TopicIndex V) head : leases (next_fresh fuel q ix head).2 = leases q.
Proof.
  revert q. induction fuel as [|fuel IH]; intros q; simpl; [done|].
  repeat case_match; simpl; first [done | by rewrite IH].
Qed.
Lemma next_claimable_leases q (ix : TopicIndex V) head : leases (next_claimable q ix head).2 = leases q.
Proof.
  unfold next_claimable. pose proof (next_reclaim_leases (length (reclaim q)) q ix) as H.
  destruct (next_reclaim _ _ _) as [[s|] q']; simpl in *; [done|]. by rewrite next_fresh_leases.
Qed.

Definition claimer_of (env : ClaimEnv (V := V)) (i : nat) : Claimer :=
  nth i (ce_claimers env) (mkClaimer EmptyString 0 None).

(** One turn of the loop: the projection keeps its leases, or one more job is leased to
    the claimer at [rr]. *)
Lemma claim_step_leases env (st : ClaimLoop (V := V)) :
  let st' := (claim_step env st).1 in
  leases (cl_q st') = leases (cl_q st) ∧ cl_remaining st' = cl_remaining st ∨
  ∃ rr s l, leases (cl_q st') = <[s := l]> (leases (cl_q st)) ∧
    l_by_work_conn l = cm_work_conn (claimer_of env rr) ∧
    cl_remaining st' = alter (λ r, r - 1) rr (cl_remaining st) ∧ nth rr (cl_remaining st) 0 ≠ 0.
Proof.
  unfold claim_step. case_match; [by left|]. set (rr := find_claimer _ _ _).
  destruct (nth rr (cl_remaining st) 0 =? 0) eqn:Hrr; [by left|]. apply Z.eqb_neq in Hrr.
  pose proof (next_claimable_leases (cl_q st) (ce_index env) (ce_head env)) as Hl.
  destruct (next_claimable _ _ _) as [[s|] q]; simpl in Hl; [|by left].
  case_match; [by left|]. right. simpl. rewrite Hl. exists rr, s. eexists. split; [done|]. done.
Qed.

Lemma claimer_of_conn env rr :
  cm_work_conn (claimer_of env rr) = Some conn → ∃ c, ce_claimers env !! rr = Some c ∧ claimer_of env rr = c.
Proof.
  unfold claimer_of. rewrite nth_lookup. destruct (ce_claimers env !! rr); simpl; [eauto|done].
Qed.

Lemma fewer_claim_loop fuel env (st : ClaimLoop (V := V)) :
  ¬ claims_for conn (ce_claimers env) → fewer (cl_q (claim_loop fuel env st)) (cl_q st).
Proof.
  intros Hno. revert st. induction fuel as [|fuel IH]; intros st; simpl; [apply fewer_refl|].
  pose proof (claim_step_leases env st) as Hs. destruct (claim_step env st) as [st' go]. simpl in Hs.
  assert (fewer (cl_q st') (cl_q st)) as Hf.
  { destruct Hs as [[E _]|(rr & s & l & E & Hc & _)]; [by apply fewer_same|].
    intros s' l'. rewrite E. intros [[<- <-]|[_ ?]]%lookup_insert_Some Hl; [|eauto].
    destruct Hno. unfold of_conn in Hl. rewrite Hc in Hl.
    destruct (claimer_of_conn env rr Hl) as (c & ? & E'). exists rr, c. split; [done|]. by rewrite <-E'. }
  destruct go; [|done]. eapply fewer_trans; [apply IH|done].
Qed.

(** A pass with one claimer of the connection. *)
Lemma conn_held_insert q s l m :
  leases q = <[s := l]> m → conn_held q ⊆ {[s]} ∪ conn_held (set_leases q m).
Proof.
  intros E s'. rewrite elem_of_union, elem_of_singleton, !elem_of_conn_held. rewrite E. simpl.
  intros (l' & [[<- <-]|[_ ?]]%lookup_insert_Some & Hc); [by left|]. right. eauto.
Qed.

Lemma held_same q q' : leases q' = leases q → conn_held q' = conn_held q.
Proof. unfold conn_held. by intros ->. Qed.

Lemma conn_held_insert_size q q' s l :
  leases q' = <[s := l]> (leases q) →
  Z.of_nat (size (conn_held q')) <= Z.of_nat (size (conn_held q)) + (if decide (of_conn l) then 1 else 0).
Proof.
  intros E. case_decide as Hc.
  - pose proof (conn_held_insert q' s l (leases q) E) as H. apply subseteq_size in H.
    rewrite size_union_alt in H. pose proof (subseteq_size (conn_held (set_leases q' (leases q)) ∖ {[s]})
      (conn_held (set_leases q' (leases q))) ltac:(set_solver)) as H2. rewrite size_singleton in H.
    rewrite (held_same q (set_leases q' (leases q))) in * by done. lia.
  - assert (conn_held q' ⊆ conn_held q) as H.
    { intros s'. rewrite !elem_of_conn_held, E. intros (l' & [[<- <-]|[_ ?]]%lookup_insert_Some & ?); [done|eauto]. }
    apply subseteq_size in H. lia.
Qed.

Lemma nth_alter (f : Z → Z) i j (l : list Z) :
  nth j (alter f i l) 0 = if decide (i = j ∧ (j < length l)%nat) then f (nth j l 0) else nth j l 0.
Proof.
  rewrite !nth_lookup. case_decide as H.
  - destruct H as [-> Hlt]. rewrite list_lookup_alter_eq. by destruct (lookup_lt_is_Some_2 l j Hlt) as [x ->].
  - destruct (decide (i = j)) as [->|]; [|by rewrite list_lookup_alter_ne].
    rewrite list_lookup_alter_eq. destruct (l !! j) eqn:E; [|done]. apply lookup_lt_Some in E. tauto.
Qed.

Lemma nonneg_nth (l : list Z) j : Forall (λ r, 0 <= r) l → 0 <= nth j l 0.
Proof.
  intros Hl. rewrite nth_lookup. destruct (l !! j) eqn:E; simpl; [|lia]. by eapply Forall_lookup_1 in Hl.
Qed.

Lemma claim_step_mine env (st : ClaimLoop (V := V)) j :
  (∀ rr, cm_work_conn (claimer_of env rr) = Some conn → rr = j) → Forall (λ r, 0 <= r) (cl_remaining st) →
  let st' := (claim_step env st).1 in
  Forall (λ r, 0 <= r) (cl_remaining st') ∧
  Z.of_nat (size (conn_held (cl_q st'))) + nth j (cl_remaining st') 0 <=
    Z.of_nat (size (conn_held (cl_q st))) + nth j (cl_remaining st) 0.
Proof.
  intros Hj Hr. pose proof (claim_step_leases env st) as Hs. destruct (claim_step env st) as [st' go]. simpl in *.
  destruct Hs as [[E1 E2]|(rr & s & l & E1 & Hc & E2 & Hne)].
  - rewrite E2, (held_same (cl_q st) (cl_q st')) by done. split; [done|lia].
  - rewrite E2. split; [by apply alter_pred_nonneg|]. pose proof (conn_held_insert_size _ _ _ _ E1) as Hh.
    rewrite nth_alter. revert Hh.
    destruct (decide (of_conn l)) as [Hl|], (decide (rr = j ∧ _)) as [|Hrr]; intros Hh; try lia.
    unfold of_conn in Hl. rewrite Hc in Hl. apply Hj in Hl as ->. destruct Hrr. split; [done|].
    destruct (Nat.lt_ge_cases j (length (cl_remaining st))); [done|]. destruct Hne. by apply nth_overflow.
Qed.

Lemma claim_loop_mine fuel env (st : ClaimLoop (V := V)) j :
  (∀ rr, cm_work_conn (claimer_of env rr) = Some conn → rr = j) → Forall (λ r, 0 <= r) (cl_remaining st) →
  Z.of_nat (size (conn_held (cl_q (claim_loop fuel env st)))) <=
    Z.of_nat (size (conn_held (cl_q st))) + nth j (cl_remaining st) 0.
Proof.
  intros Hj. revert st. induction fuel as [|fuel IH]; intros st Hr; simpl.
  { pose proof (nonneg_nth _ j Hr). lia. }
  destruct (claim_step_mine env st j Hj Hr) as [Hr' Hle]. destruct (claim_step env st) as [st' go]. simpl in *.
  destruct go; [specialize (IH st' Hr'); lia|]. pose proof (nonneg_nth _ j Hr'). lia.
Qed.

(** A whole pass. *)
Lemma fewer_claim_pass env q :
  ¬ claims_for conn (ce_claimers env) → fewer (cl_q (claim_pass env (sweep_expired q t))) q.
Proof. intros Hno. eapply fewer_trans; [by apply fewer_claim_loop|apply fewer_sweep]. Qed.

Lemma claim_pass_mine (env : ClaimEnv (V := V)) pre c post q :
  ce_claimers env = pre ++ c :: post → ¬ claims_for conn (pre ++ post) →
  Z.of_nat (size (conn_held (cl_q (claim_pass env (sweep_expired q t))))) <=
    Z.of_nat (size (conn_live q)) + demand c.
Proof.
  intros He Hno. pose proof (subseteq_size _ _ (sweep_held_live q)).
  etrans; [apply (claim_loop_mine _ _ _ (length pre))|].
  - intros rr Hc. destruct (claimer_of_conn env rr Hc) as (c' & Hc' & E). rewrite E in Hc. rewrite He in Hc'.
    destruct (decide (rr = length pre)) as [|Hne]; [done|]. destruct Hno.
    apply lookup_app_Some in Hc' as [Hl|[Hge Hl]].
    + exists rr, c'. split; [|done]. by apply lookup_app_l_Some.
    + destruct (rr - length pre)%nat as [|k] eqn:Ek; [lia|]. exists (length pre + k)%nat, c'.
      split; [|done]. simpl in Hl. rewrite lookup_app_r by lia. by replace (length pre + k - length pre)%nat with k by lia.
  - simpl. apply Forall_fmap, Forall_true. intros x. pose proof (demand_pos x). simpl. lia.
  - simpl. rewrite He, fmap_app, app_nth2; rewrite length_fmap; [|lia]. rewrite Nat.sub_diag. simpl. lia.
Qed.

Lemma release_loop_leases ss q acc s l :
  leases (release_loop q ss acc).1 !! s = Some l → (s ∉ ss) ∧ leases q !! s = Some l.
Proof.
  revert q acc. induction ss as [|s' ss IH]; intros q acc; simpl.
  { intros Hl. split; [apply not_elem_of_nil|done]. }
  destruct (leases q !! s') as [l'|] eqn:Hs; intros [Hn Hl]%IH.
  - unfold release_to_reclaim in Hl. rewrite (proj1 (push_reclaim_fields _ _)) in Hl. simpl in Hl.
    apply lookup_delete_Some in Hl as [Hne Hl]. split; [|done]. set_solver.
  - split; [|done]. rewrite not_elem_of_cons. split; [|done]. by intros ->; rewrite Hs in Hl.
Qed.

Lemma release_loop_none q : conn_held (release_loop q (conn_seqs q conn) []).1 = ∅.
Proof.
  apply set_eq. intros s. rewrite elem_of_conn_held. split; [|set_solver].
  intros (l & [Hn Hl]%release_loop_leases & Hc). destruct Hn. unfold conn_seqs. apply list_elem_of_fmap.
  exists (s, l). split; [done|]. apply list_elem_of_filter. split; [done|]. by apply elem_of_map_to_list.
Qed.
End leases.

(** ** Requests and the leases of a connection *)
Section requests.
Context {V : Type} `{!JsonNull V} `{!Serde V} `{!Powf} (name : string).
Implicit Types (e : Engine V) (Φ Ψ : QueueProjection → Prop).

Definition queue_at Φ e : Prop := topic_at name (λ b, ∃ q, b_queue b = Some q ∧ Φ q) e.
Abbreviation stays Φ m := (triple (queue_at Φ) m (λ _, queue_at Φ) (queue_at Φ)).

Lemma stays_leaves {A} Φ (m : EM V A) : (∀ Q, leaves name Q m) → stays Φ m.
Proof.
  intros Hm e (b & Hb & q & Hq & HΦ). specialize (Hm (b_queue b) e (ex_intro _ b (conj Hb eq_refl))).
  assert (∀ e', queue_is name (b_queue b) e' → queue_at Φ e') as Hat.
  { intros e' (b' & Hb' & Hq'). exists b'. split; [done|]. exists q. split; [congruence|done]. }
  destruct (m e) as [e' [a|c]]; by apply Hat.
Qed.
Lemma stays_keeps {A} Φ (m : EM V A) : keeps name m → stays Φ m.
Proof. apply topic_at_keeps. Qed.
Lemma stays_attempt {A} Φ (m : EM V A) R : stays Φ m → triple (queue_at Φ) (attempt m) (λ _, queue_at Φ) R.
Proof. intros Hm e He. specialize (Hm e He). unfold attempt. by destruct (m e) as [e' [a|c]]. Qed.
Lemma proj_at {A} Φ Ψ (f : TopicState V → QueueProjection → QueueProjection * A) R :
  (∀ b q, Φ q → Ψ (f b q).1) → triple (queue_at Φ) (with_proj name f) (λ _, queue_at Ψ) R.
Proof.
  intros Hf. apply (with_proj_at name _ (λ _ b, ∃ q, b_queue b = Some q ∧ Ψ q)).
  - intros b q (q' & Hq' & HΦ) Hq. simplify_eq. simpl. eauto.
  - intros b (q & -> & _). eauto.
Qed.
Lemma read_at {A} Φ (k : TopicState V → EM V A) Q R :
  (∀ b, triple (queue_at Φ) (k b) Q R) → triple (queue_at Φ) (b ← topic_ref name; k b) Q R.
Proof.
  intros Hk e He. pose proof He as (b & Hb & _). unfold mbind, EM_bind, topic_ref. rewrite Hb. by apply Hk.
Qed.

(** Predicates that survive the loss of leases. *)
Section down.
Context (conn t : Z) Φ (Hdown : ∀ q q', fewer conn t q' q → Φ q → Φ q') (Hclock : t <= i64_max).

Lemma stays_reclaim s R : triple (queue_at Φ) (reclaim_seq name s) (λ _, queue_at Φ) R.
Proof. apply proj_at. intros b q. apply Hdown, fewer_same, push_reclaim_fields. Qed.
Lemma stays_requeue seqs R : triple (queue_at Φ) (requeue_diverted name seqs) (λ _, queue_at Φ) R.
Proof.
  apply proj_at. intros b q. apply Hdown. eapply fewer_trans; [by apply fewer_same|]. apply fewer_requeue.
Qed.
Lemma stays_delete_one s now : stays Φ (delete_one_seq name s now).
Proof.
  apply stays_leaves. intros Q. unfold delete_one_seq. apply leaves_read. intros b Hb.
  pose proof (queue_delete b [s]) as Hd. destruct (delete_seqs_stats b [s]) as [b' stats]. simpl in Hd.
  assert (leaves name Q (store_topic name b')) by (apply leaves_store; intros; etrans; [done|auto]).
  unfold wal_log_delete_seqs. leaves_tac.
Qed.
Lemma stays_mapM {A} (f : A → EM V unit) l : (∀ x, stays Φ (f x)) → stays Φ (mapM_ f l).
Proof. intros Hf. induction l as [|x l IH]; simpl; [by intros e|]. by eapply triple_bind; [apply Hf|]. Qed.
Lemma stays_log_lease id s ev node lid dl dv now d : stays Φ (log_lease_event id s ev node lid dl dv now d).
Proof. apply stays_keeps, keeps_log_lease. Qed.

Lemma stays_dead_letter dl seqs maxd now : stays Φ (dead_letter_jobs name dl seqs maxd now).
Proof.
  unfold dead_letter_jobs.
  eapply (triple_bind _ _ _ _ (λ o e, queue_at Φ e ∧ (o = None → dl ≠ name))).
  { intros e He. split; [done|]. simpl. intros Hn ->. destruct He as (b & Hb & _). congruence. }
  intros o. eapply (triple_bind _ _ _ _ (λ _, queue_at Φ)).
  { intros e [He Hne]. destruct o as [b|]; [done|]. revert e He. eapply triple_bind; [apply stays_attempt, stays_keeps, keeps_put_topic, Hne; done|by intros a e]. }
  intros _. eapply triple_bind; [by apply stays_keeps|]. intros [b|]; [|apply stays_requeue].
  apply read_at. intros b1. eapply (triple_bind _ _ _ _ (λ _, queue_at Φ)).
  { destruct (omap _ _) as [|r rs]; [by intros e|]. eapply triple_bind.
    { apply stays_attempt, stays_leaves. intros Q. apply leaves_durable_append. }
    intros [a|c]; [|by intros e1]. eapply triple_bind; [|intros a1 e1 He1; exact He1].
    apply stays_attempt, stays_leaves. intros Q. apply leaves_retention. }
  intros [|]; [|apply stays_requeue]. apply stays_mapM. intros s.
  eapply triple_bind; [apply stays_attempt, stays_delete_one|]. intros [a|c]; [by intros e|apply stays_reclaim].
Qed.

Lemma stays_counters now : now = t → stays Φ (queue_counters name now).
Proof.
  intros ->. unfold queue_counters. apply read_at. intros b. destruct (b_queue b); [|by intros e].
  eapply triple_bind; [apply stays_attempt, stays_leaves; intros Q; apply leaves_retention|]. intros r.
  apply proj_at. intros b1 q1. destruct (ready_in_flight _ _ _). apply Hdown, fewer_sweep.
Qed.

Lemma stays_ack_deletes node id now d acked : stays Φ (ack_deletes name node id now d acked).
Proof.
  induction acked as [|[s lid] acked IH]; [by intros e|]. cbn [ack_deletes].
  eapply triple_bind; [apply stays_attempt, stays_delete_one|]. intros [a|c].
  - by eapply triple_bind; [apply stays_log_lease|].
  - eapply triple_bind; [apply stays_mapM; intros; apply stays_reclaim|by intros a e].
Qed.

(** The claim pass takes [Φ] to [Ψ]. *)
Lemma claim_at Ψ claimers lease_ms :
  (∀ q, Ψ q → Φ q) →
  (∀ env q, ce_claimers env = claimers → Ψ q → Φ (cl_q (claim_pass (V := V) env (sweep_expired q t)))) →
  triple (λ e, queue_at Ψ e ∧ e_now e = t) (run_claim_cohort name claimers lease_ms)
    (λ _, queue_at Φ) (queue_at Φ).
Proof.
  intros Hsub Hpass. unfold run_claim_cohort.
  eapply (triple_bind _ _ _ _ (λ e0 e, e_now e0 = t ∧ queue_at Ψ e)); [by intros e [He Ht]|]. intros e0.
  eapply (triple_bind _ _ _ _ (λ _ e, e_now e0 = t ∧ queue_at Ψ e)).
  { intros e [Ht He]. pose proof (stays_leaves Ψ (enforce_retention_durable name (e_now e0))
      ltac:(intros; apply leaves_retention) e He) as Hr.
    destruct (enforce_retention_durable _ _ _) as [e' [a|c]]; [done|].
    destruct Hr as (b & Hb & q & Hq & HΨ). exists b. split; [done|]. eauto. }
  intros u. intros e [Ht He]. revert e He. rewrite Ht. apply read_at. intros b.
  eapply triple_bind; [apply proj_at; intros b1 q HΨ; by apply Hpass|]. intros st.
  eapply (triple_bind _ _ _ _ (λ _, queue_at Φ)).
  { destruct (cl_dead st), (cfg_dead_letter (b_config b)); try by intros e. apply stays_dead_letter. }
  intros u1. eapply triple_bind; [apply stays_mapM; intros [[[idx s] lid] d]; apply stays_log_lease|].
  intros u2. apply read_at. by intros b2 e He.
Qed.

Lemma fenced_pre {A} node seqs ids (k : TopicState V → Engine V → EM V A) :
  (∀ b e0, e_now e0 = t → stays Φ (k b e0)) →
  triple (λ e, queue_at Φ e ∧ e_now e = t)
    (_ ← lift (fenced_args node seqs ids); b ← get_queue name; e ← eget; k b e)
    (λ _, queue_at Φ) (queue_at Φ).
Proof.
  intros Hk e [He Ht]. unfold lift, get_queue, mbind, EM_bind, get_topic, eget. simpl.
  destruct (fenced_args node seqs ids); [|done]. destruct (e_topics e !! name) as [b|]; [|done].
  destruct (b_queue b); [|done]. by apply Hk.
Qed.

(** No request of another client gives the connection a lease. *)
Lemma op_at op e :
  queue_at Φ e → e_now e = t →
  match op with QClaim claimers _ => ¬ claims_for conn claimers | QClock _ => False | _ => True end →
  queue_at Φ (run_queue_op name op e).
Proof.
  intros He Ht Hop.
  assert (∀ A (m : EM V A), triple (λ e, queue_at Φ e ∧ e_now e = t) m (λ _, queue_at Φ) (queue_at Φ) →
    queue_at Φ (m e).1) as Hfst.
  { intros A m Hm. specialize (Hm e (conj He Ht)). by destruct (m e) as [e' [a|c]]. }
  destruct op as [claimers lm|node seqs ids|node seqs delay ids|node seqs lease ids|c| |op|now]; cbn [run_queue_op].
  - apply Hfst, claim_at; [done|]. intros env q1 <- HΦ. eapply Hdown; [by apply fewer_claim_pass|done].
  - apply Hfst, fenced_pre. intros b e0 ->.
    eapply triple_bind; [apply proj_at; intros b1 q1; apply Hdown, fewer_ack|]. intros r.
    eapply triple_bind; [apply stays_ack_deletes|]. intros u.
    eapply triple_bind; [by apply stays_counters|by intros a e1].
  - apply Hfst, fenced_pre. intros b e0 ->.
    eapply triple_bind; [apply proj_at; intros b1 q1; apply Hdown, fewer_nack|]. intros r.
    eapply triple_bind; [apply stays_mapM; intros; apply stays_log_lease|]. intros u.
    eapply triple_bind; [by apply stays_counters|by intros a e1].
  - apply Hfst, fenced_pre. intros b e0 ->.
    eapply triple_bind; [apply proj_at; intros b1 q1; apply Hdown, fewer_extend|].
    { unfold i64_sat_add, clamp, MIN_LEASE_MS, MAX_LEASE_MS, i64_max, i64_min in *. repeat case_match; lia. }
    intros r. eapply triple_bind; [apply stays_mapM; intros; apply stays_log_lease|by intros a e1].
  - apply Hfst. unfold release_work_conn. intros e0 [He0 _]. revert e0 He0.
    eapply triple_bind; [by apply stays_keeps|]. intros e0. eapply triple_bind; [by apply stays_keeps|].
    intros [b|]; [|by intros e1]. destruct (b_queue b); [|by intros e1].
    eapply triple_bind; [apply proj_at; intros b1 q1; apply Hdown, fewer_release_loop|].
    intros r. apply stays_mapM. intros. apply stays_log_lease.
  - apply Hfst. intros e0 [He0 _]. by apply stays_counters.
  - destruct He as (b & Hb & q & Hq & HΦ). rewrite Hb. apply topic_at_store. exists q. by rewrite queue_exec_op.
  - done.
Qed.
End down.
End requests.

(** ** No request moves the clock *)
Section clock.
Context {V : Type} `{!JsonNull V} `{!Serde V} `{!Powf}.
Abbreviation keeps_now := (keeps_now (V := V)).

Lemma now_with_proj {A} n (f : TopicState V → QueueProjection → QueueProjection * A) : keeps_now (with_proj n f).
Proof. unfold with_proj. now_tac. Qed.
Lemma now_best_effort r d : keeps_now (wal_log_best_effort r d).
Proof. unfold wal_log_best_effort, wal_commit. now_tac. Qed.
#[local] Hint Resolve now_with_proj now_best_effort : keeps_now.
Lemma now_commit r d : keeps_now (wal_commit r d).
Proof. unfold wal_commit. now_tac. Qed.
Lemma now_log_lease id s ev node lid dl dv now d : keeps_now (log_lease_event id s ev node lid dl dv now d).
Proof. unfold log_lease_event, wal_log_lease. now_tac. Qed.
#[local] Hint Resolve now_commit now_log_lease : keeps_now.
Lemma now_mapM {A} (f : A → EM V unit) l : (∀ x, keeps_now (f x)) → keeps_now (mapM_ f l).
Proof. intros Hf. induction l; simpl; now_tac. Qed.
Lemma now_delete_one n s now : keeps_now (delete_one_seq n s now).
Proof. unfold delete_one_seq, wal_log_delete_seqs. now_tac. Qed.
Lemma now_reserved n head now : keeps_now (ensure_disk_head_reserved n head now).
Proof. unfold ensure_disk_head_reserved. now_tac. Qed.
#[local] Hint Resolve now_delete_one now_reserved : keeps_now.
Lemma now_enqueue id seqs recs now d : keeps_now (wal_enqueue_batch id seqs recs now d).
Proof. unfold wal_enqueue_batch. now_tac. Qed.
#[local] Hint Resolve now_enqueue : keeps_now.
Lemma now_durable_append n recs now : keeps_now (durable_append n recs now).
Proof. unfold durable_append, release_if. now_tac. Qed.
Lemma now_derived_append n recs now : keeps_now (derived_append n recs now).
Proof. unfold derived_append. now_tac. Qed.
#[local] Hint Resolve now_durable_append now_derived_append : keeps_now.
Lemma now_dead_letter n dl seqs maxd now : keeps_now (dead_letter_jobs n dl seqs maxd now).
Proof. unfold dead_letter_jobs, requeue_diverted, reclaim_seq. now_tac; apply now_mapM; now_tac. Qed.
#[local] Hint Resolve now_dead_letter : keeps_now.
Lemma now_claim n claimers lm : keeps_now (run_claim_cohort n claimers lm).
Proof. unfold run_claim_cohort. now_tac; apply now_mapM; intros [[[? ?] ?] ?]; now_tac. Qed.
Lemma now_counters n now : keeps_now (queue_counters n now).
Proof. unfold queue_counters. now_tac. Qed.
#[local] Hint Resolve now_claim now_counters : keeps_now.
Lemma now_ack_deletes n node id now d acked : keeps_now (ack_deletes n node id now d acked).
Proof. induction acked as [|[s lid] acked IH]; cbn [ack_deletes]; now_tac. apply now_mapM. unfold reclaim_seq. now_tac. Qed.
Lemma now_lift {A} (r : result ErrorCode A) : keeps_now (lift r).
Proof. done. Qed.
Lemma now_get_queue n : keeps_now (get_queue n).
Proof. unfold get_queue. now_tac. Qed.
#[local] Hint Resolve now_ack_deletes now_lift now_get_queue : keeps_now.

Lemma now_ack n node seqs ids : keeps_now (ack_fenced n node seqs ids).
Proof. unfold ack_fenced. now_tac. Qed.
Lemma now_nack n node seqs delay ids : keeps_now (nack_fenced n node seqs delay ids).
Proof. unfold nack_fenced. now_tac. apply now_mapM. now_tac. Qed.
Lemma now_extend n node seqs lease ids : keeps_now (extend_fenced n node seqs lease ids).
Proof. unfold extend_fenced. now_tac. apply now_mapM. now_tac. Qed.
Lemma now_release_conn n conn : keeps_now (release_work_conn n conn).
Proof. unfold release_work_conn. now_tac. apply now_mapM. now_tac. Qed.

Lemma now_queue_op name op e :
  match op with QClock _ => False | _ => True end → e_now (run_queue_op name op e) = e_now e.
Proof.
  destruct op; cbn [run_queue_op]; intros Hop;
    [apply now_claim|apply now_ack|apply now_nack|apply now_extend|apply now_release_conn|apply now_counters| |done].
  by destruct (e_topics e !! name).
Qed.

Lemma now_mark_dirty n : keeps_now (mark_topic_dirty n).
Proof. unfold mark_topic_dirty. now_tac. Qed.
#[local] Hint Resolve now_mark_dirty : keeps_now.
Lemma now_forward n router cursor now : keeps_now (forward_pass n router cursor now).
Proof. unfold forward_pass, clamp_cursor, append_forwarded, finish_pass. now_tac. Qed.
#[local] Hint Resolve now_forward : keeps_now.
Lemma now_advance n : keeps_now (advance_router n).
Proof.
  unfold advance_router. apply now_bind; [now_tac|]. intros e. destruct (graph_get _ _); [|now_tac].
  apply now_bind; [now_tac|]. intros s. apply now_bind; [now_tac|]. intros d. destruct s, d; now_tac.
Qed.
#[local] Hint Resolve now_advance : keeps_now.
Lemma now_catch_up n : keeps_now (catch_up_dest n).
Proof.
  unfold catch_up_dest. apply now_bind; [now_tac|]. intros e. generalize (Z.to_nat CATCH_UP_PASSES) as fuel.
  induction (rt_name <$> _) as [|r rs IH]; intros fuel; simpl; now_tac.
  induction fuel; simpl; now_tac.
Qed.
End clock.

(** ** The bound of a connection *)
Section theorems.
Context {V : Type} `{!JsonNull V} `{!Serde V} `{!Powf}.
Context (name node : string) (max : Z) (lease_ms : option Z) (conn : Z).
Implicit Types (s : WorkConn V) (e : Engine V).

Lemma in_flight_live t q :
  length (filter (λ l : Z * Lease, l_by_work_conn l.2 = Some conn ∧ t <= l_deadline_ms l.2)
            (map_to_list (leases q))) = size (conn_live conn t q).
Proof.
  unfold conn_live. rewrite size_dom, <-length_map_to_list. apply Permutation_length, NoDup_Permutation.
  - apply NoDup_filter, NoDup_map_to_list.
  - apply NoDup_map_to_list.
  - intros [k l]. rewrite list_elem_of_filter, !elem_of_map_to_list, map_lookup_filter_Some. simpl. tauto.
Qed.

(** The leases the connection may still be given: those of its claim, or of a stray
    one. *)
Definition reserved s : Z :=
  match wk_phase s with WkClaim d => d | _ => 0 end + default 0 (wk_stray s).

Definition within (t n : Z) (q : QueueProjection) : Prop := Z.of_nat (size (conn_live conn t q)) <= n.
Definition none_held (q : QueueProjection) : Prop := conn_held conn q = ∅.

Lemma within_down t n q q' : fewer conn t q' q → within t n q → within t n q'.
Proof. intros Hf Hw. apply fewer_live, subseteq_size in Hf. unfold within in *. lia. Qed.
Lemma none_held_down t q q' : fewer conn t q' q → none_held q → none_held q'.
Proof. intros Hf%fewer_held. unfold none_held. set_solver. Qed.
Lemma within_later t t' n q : t <= t' → within t n q → within t' n q.
Proof.
  intros Ht Hw. unfold within in *. etrans; [|exact Hw]. apply inj_le, subseteq_size. intros x.
  rewrite !elem_of_conn_live. intros (l & ? & ? & ?). exists l. split_and!; [done..|lia].
Qed.
Lemma none_within t q : none_held q → within t 0 q.
Proof.
  intros Hn. unfold within. pose proof (subseteq_size _ _ (live_held conn t q)) as H0.
  rewrite Hn, size_empty in H0. lia.
Qed.

(** The state of the connection. *)
Record work_inv s : Prop := {
  wi_clock : e_now (wk_engine s) <= i64_max;
  wi_room : queue_at name (within (e_now (wk_engine s)) (max - reserved s)) (wk_engine s);
  wi_phase : match wk_phase s with WkClaim d => 1 <= d <= MAX_CLAIM | _ => True end;
  wi_stray : match wk_stray s with Some d => 1 <= d <= MAX_CLAIM | None => True end;
  wi_gone : is_Some (wk_stray s) → wk_phase s = WkClosed
}.

(** *** The claims *)
Abbreviation timed t Φ := (λ e, queue_at name Φ e ∧ e_now e = t).

Lemma queue_at_mono Φ Ψ e : (∀ q, Ψ q → Φ q) → queue_at name Ψ e → queue_at name Φ e.
Proof. intros Hsub (b & Hb & q & Hq & HΨ). exists b. split; [done|]. eauto. Qed.

Lemma timed_leaves {A} t Φ Ψ (m : EM V A) :
  (∀ q, Ψ q → Φ q) → (∀ Q, leaves name Q m) → keeps_now m →
  triple (timed t Ψ) m (λ _, timed t Ψ) (queue_at name Φ).
Proof.
  intros Hsub Hm Hn e [He Ht]. pose proof (stays_leaves name Ψ m Hm e He) as Hs. specialize (Hn e).
  destruct (m e) as [e' [a|c]]; simpl in *; [split; [done|congruence]|by eapply queue_at_mono].
Qed.

Lemma claim_cohort_at t Φ Ψ claimers lm :
  (∀ q q', fewer conn t q' q → Φ q → Φ q') → (∀ q, Ψ q → Φ q) →
  (∀ env q, ce_claimers env = claimers → Ψ q → Φ (cl_q (claim_pass (V := V) env (sweep_expired q t)))) →
  triple (timed t Ψ) (claim_cohort name claimers lm) (λ _, queue_at name Φ) (queue_at name Φ).
Proof.
  intros Hdown Hsub Hpass. unfold claim_cohort.
  eapply triple_bind; [apply timed_leaves; [done|intros; apply leaves_catch_up|apply now_catch_up]|]. intros u.
  eapply triple_bind; [|intros b; by eapply claim_at].
  apply timed_leaves; [done|intros; apply leaves_keeps; unfold get_queue; keeps_tac|apply now_get_queue].
Qed.

Lemma clamp_id d : 1 <= d <= MAX_CLAIM → clamp 1 MAX_CLAIM d = d.
Proof. unfold clamp, MAX_CLAIM. intros. repeat case_match; lia. Qed.

(** A claim of the connection takes up what was reserved for it. *)
Lemma my_claim t n d pre post lm :
  1 <= d <= MAX_CLAIM → ¬ claims_for conn (pre ++ post) →
  triple (λ e, queue_at name (within t (n - d)) e ∧ e_now e = t)
    (claim_cohort name (pre ++ mkClaimer node (clamp 1 MAX_CLAIM d) (Some conn) :: post) lm)
    (λ _, queue_at name (within t n)) (queue_at name (within t n)).
Proof.
  intros Hd Hno. apply claim_cohort_at.
  - intros q q'. apply within_down.
  - unfold within. lia.
  - intros env q Henv Hw. unfold within in *. pose proof (claim_pass_mine conn t env _ _ _ q Henv Hno) as Hm.
    unfold demand in Hm. simpl in Hm. rewrite !clamp_id in Hm by (rewrite ?clamp_id; done).
    pose proof (subseteq_size _ _ (live_held conn t (cl_q (claim_pass env (sweep_expired q t))))). lia.
Qed.

Lemma topic_state_at t n :
  triple (timed t (within t n)) (topic_state name false)
    (λ _, queue_at name (within t n)) (queue_at name (within t n)).
Proof.
  unfold topic_state. eapply triple_bind; [by apply timed_leaves; [|intros; apply leaves_keeps|]|].
  intros [b|]; [|by intros e [? _]].
  eapply triple_bind; [apply timed_leaves; [done|intros; apply leaves_catch_up|apply now_catch_up]|]. intros u.
  eapply (triple_bind _ _ _ _ (λ e0 e, queue_at name (within t n) e ∧ e_now e0 = t)); [by intros e [? ?]|].
  intros e0 e [He Ht]. revert e He. rewrite Ht.
  eapply triple_bind; [apply stays_leaves; intros; apply leaves_retention|]. intros u1.
  apply read_at. intros b0. eapply triple_bind; [by apply stays_keeps|]. intros u2. apply read_at. intros b1.
  eapply (triple_bind _ _ _ _ (λ _, queue_at name (within t n))).
  { destruct (b_queue b1); [|by intros e1]. eapply triple_bind; [|intros a e1 He1; exact He1].
    eapply stays_counters; [apply within_down|done]. }
  intros c. apply read_at. by intros b2 e1.
Qed.

Lemma now_claim_cohort claimers lm : keeps_now (claim_cohort (V := V) name claimers lm).
Proof.
  unfold claim_cohort. apply now_bind; [apply now_catch_up|]. intros _. apply now_bind; [apply now_get_queue|].
  intros _. apply now_claim.
Qed.

Lemma run_claim_at t n d m :
  1 <= d <= MAX_CLAIM → ¬ claims_for conn (mates_before m ++ mates_after m) →
  triple (timed t (within t (n - d))) (run_claim name node d lease_ms (Some conn) m)
    (λ _, queue_at name (within t n)) (queue_at name (within t n)).
Proof.
  intros Hd Hno. assert (∀ q, within t (n - d) q → within t n q) as Hsub by (unfold within; lia).
  unfold run_claim. eapply triple_bind; [by apply timed_leaves; [|intros; apply leaves_keeps|]|].
  intros [b|]; [|by intros e [? _]; eapply queue_at_mono].
  destruct (negb _); [by intros e [? _]; eapply queue_at_mono|].
  eapply triple_bind; [by apply timed_leaves; [|intros; apply leaves_keeps; intros e|intros e]|]. intros u.
  destruct (_ =? 0).
  - eapply triple_bind; [apply (my_claim t n d [] []); [done|]|by intros a e].
    intros (i & c & Hc & _). by destruct i.
  - eapply (triple_bind _ _ _ _ (λ _, timed t (within t n))).
    + intros e He. pose proof (my_claim t n d _ _ (mates_lease m) Hd Hno e He) as Hm.
      pose proof (now_claim_cohort (mates_before m ++ mkClaimer node (clamp 1 MAX_CLAIM d) (Some conn) :: mates_after m)
        (mates_lease m) e) as Hn.
      destruct (claim_cohort _ _ _ e) as [e' [a|c]]; simpl in *; [|done]. split; [done|]. destruct He. congruence.
    + intros r. eapply triple_bind; [apply topic_state_at|by intros a e].
Qed.

Lemma now_topic_state : keeps_now (topic_state (V := V) name false).
Proof.
  unfold topic_state. pose proof (now_catch_up (V := V) name). pose proof (now_counters (V := V) name). now_tac.
Qed.

Lemma now_run_claim d m : keeps_now (run_claim (V := V) name node d lease_ms (Some conn) m).
Proof.
  unfold run_claim. pose proof now_topic_state. pose proof now_claim_cohort.
  pose proof (λ A, now_lift (V := V) (A := A)). now_tac.
Qed.

(** *** The guard *)
Lemma release_at t Φ e :
  (∀ q q', fewer conn t q' q → Φ q → Φ q') → t <= i64_max → e_now e = t → queue_at name Φ e →
  queue_at name (λ q, Φ q ∧ none_held q) (release_work_conn name conn e).1.
Proof.
  intros Hdown Ht Hn (b & Hb & q & Hq & HΦ).
  assert (Hm : triple (queue_at name Φ) (release_work_conn (V := V) name conn) (λ _, queue_at name (λ q, Φ q ∧ none_held q))
                 (queue_at name (λ q, Φ q ∧ none_held q))); cycle 1.
  { specialize (Hm e (ex_intro _ b (conj Hb (ex_intro _ q (conj Hq HΦ))))).
    by destruct (release_work_conn name conn e) as [e' [a|c]]. }
  clear e Hn b Hb q Hq HΦ. unfold release_work_conn.
  eapply (triple_bind _ _ _ _ (λ _, queue_at name Φ)); [by intros e He|]. intros e0.
  eapply (triple_bind _ _ _ _ (λ o e, queue_at name Φ e ∧ ∃ b, o = Some b ∧ is_Some (b_queue b))).
  { intros e He. split; [done|]. destruct He as (b & Hb & q & Hq & _). simpl. exists b. eauto. }
  intros o e [He (b & -> & [q Hq])]. rewrite Hq. revert e He.
  eapply triple_bind; [apply (proj_at _ _ (λ q, Φ q ∧ none_held q))|].
  - intros b1 q1 HΦ. split; [eapply Hdown; [apply fewer_release_loop|done]|apply release_loop_none].
  - intros r. apply stays_mapM. intros. apply stays_keeps, keeps_log_lease.
Qed.

Lemma work_close_inv e fs s :
  e_now e <= i64_max → queue_at name (within (e_now e) (max - default 0 (wk_stray s))) e →
  match wk_stray s with Some d => 1 <= d <= MAX_CLAIM | None => True end →
  work_inv (work_close name conn e fs s) ∧ queue_at name none_held (wk_engine (work_close name conn e fs s)).
Proof.
  intros Hc Hq Hs. pose proof (release_at (e_now e) _ e (within_down _ _) Hc eq_refl Hq) as Hr.
  split; [|by eapply queue_at_mono; [|exact Hr]; intros q [_ ?]].
  pose proof (now_release_conn (V := V) name conn e) as Hn.
  split; simpl; rewrite ?Hn; try done. eapply queue_at_mono; [|exact Hr]. by intros q [? _].
Qed.

(** *** Every step *)
Context (Hmax : 1 <= max <= MAX_CLAIM).

Lemma phase_no_stray s : work_inv s → wk_phase s ≠ WkClosed → wk_stray s = None.
Proof. intros Hi Hp. destruct (wk_stray s) eqn:E; [|done]. destruct Hp. apply (wi_gone _ Hi). rewrite E. eauto. Qed.

Lemma work_head_inv s : wk_phase s = WkHead → work_inv s → work_inv (work_head name max conn s).
Proof.
  intros Hp Hi. pose proof (phase_no_stray s Hi ltac:(by rewrite Hp)) as Hn. destruct Hi as [Hc Hr _ Hs Hg].
  unfold work_head. destruct (wk_down s).
  { apply work_close_inv; [done| |done]. unfold reserved in Hr. by rewrite Hp in Hr. }
  pose proof Hr as (b & Hb & q & Hq & Hw). unfold work_conn_in_flight, mbind, EM_bind, eget, get_topic. simpl.
  rewrite Hb, Hq. simpl. rewrite in_flight_live.
  unfold reserved in *. rewrite Hp, Hn in *. simpl in *. unfold within in Hw.
  set (n := Z.of_nat (size (conn_live conn (e_now (wk_engine s)) q))) in *.
  assert (0 <= n) by lia. assert (max -s n = max - n) as -> by sat_lia.
  destruct (0 <? max - n) eqn:Hd.
  - apply Z.ltb_lt in Hd. split; simpl; rewrite ?Hn; try done; [|lia].
    exists b. split; [done|]. exists q. split; [done|]. unfold within, reserved. simpl. rewrite Hn. simpl. subst n. lia.
  - split; simpl; rewrite ?Hn; try done.
    exists b. split; [done|]. exists q. split; [done|]. unfold within, reserved. simpl. rewrite Hn. simpl. subst n. lia.
Qed.

Lemma claim_engine s d m :
  wk_phase s = WkClaim d → ¬ claims_for conn (mates_before m ++ mates_after m) → work_inv s →
  let e := (run_claim name node d lease_ms (Some conn) m (wk_engine s)).1 in
  e_now e <= i64_max ∧ queue_at name (within (e_now e) (max - 0)) e.
Proof.
  intros Hp Hno Hi. pose proof (phase_no_stray s Hi ltac:(by rewrite Hp)) as Hn. destruct Hi as [Hc Hr Hd Hs Hg].
  rewrite Hp in Hd. unfold reserved in Hr. rewrite Hp, Hn in Hr. simpl in Hr. rewrite Z.add_0_r in Hr.
  pose proof (run_claim_at (e_now (wk_engine s)) max d m Hd Hno (wk_engine s) (conj Hr eq_refl)) as Hcl.
  pose proof (now_run_claim d m (wk_engine s)) as Hnow.
  destruct (run_claim _ _ _ _ _ _ _) as [e r]; simpl in *. rewrite Hnow, Z.sub_0_r. by destruct r.
Qed.

Lemma work_claimed_inv s d m :
  wk_phase s = WkClaim d → ¬ claims_for conn (mates_before m ++ mates_after m) →
  work_inv s → work_inv (work_claim name node lease_ms conn m d s).
Proof.
  intros Hp Hno Hi. pose proof (phase_no_stray s Hi ltac:(by rewrite Hp)) as Hn.
  destruct (claim_engine s d m Hp Hno Hi) as [Hc Hq]. unfold work_claim.
  destruct (run_claim _ _ _ _ _ _ _) as [e [r|c]]; simpl in *; [|by apply work_close_inv; rewrite ?Hn].
  split; simpl; rewrite ?Hn; try done. unfold reserved. simpl. by rewrite Hn.
Qed.

Lemma work_stray_inv s d m :
  wk_stray s = Some d → ¬ claims_for conn (mates_before m ++ mates_after m) → work_inv s →
  work_inv (mkWork (stray_claim name node conn m d (wk_engine s)) (wk_phase s) None (wk_down s) (wk_sent s)).
Proof.
  intros Hst Hno [Hc Hr Hd Hs Hg]. rewrite Hst in Hs. pose proof (Hg ltac:(rewrite Hst; eauto)) as Hp.
  unfold reserved in Hr. rewrite Hp, Hst in Hr. simpl in Hr.
  pose proof (my_claim (e_now (wk_engine s)) max d (mates_before m) (mates_after m) (mates_lease m) Hs Hno
    (wk_engine s) (conj Hr eq_refl)) as Hcl.
  pose proof (now_claim_cohort (mates_before m ++ mkClaimer node (clamp 1 MAX_CLAIM d) (Some conn) :: mates_after m)
    (mates_lease m) (wk_engine s)) as Hnow.
  split; simpl; unfold stray_claim; rewrite ?Hp; simpl; try done; [by rewrite Hnow|].
  unfold reserved. simpl. rewrite ?Hp, Hnow, Z.sub_0_r. by destruct (claim_cohort _ _ _ _) as [e [a|c]].
Qed.

Definition is_clock (op : QueueOp (V := V)) : bool := match op with QClock _ => true | _ => false end.

Lemma other_at Φ op e :
  (∀ t q q', fewer conn t q' q → Φ q → Φ q') → e_now e <= i64_max → other_op conn op e →
  queue_at name Φ e → queue_at name Φ (run_queue_op name op e).
Proof.
  intros Hdown Hc Hop Hq. destruct (is_clock op) eqn:Hk.
  - by destruct op.
  - apply (op_at name conn (e_now e)); [apply Hdown|done|done|done|by destruct op].
Qed.

Lemma work_other_inv s op :
  other_op conn op (wk_engine s) → work_inv s →
  work_inv (set_work s (run_queue_op name op (wk_engine s)) (wk_phase s) []).
Proof.
  intros Hop [Hc Hr Hd Hs Hg].
  assert (e_now (wk_engine s) <= e_now (run_queue_op name op (wk_engine s)) <= i64_max) as [Hle Hc'].
  { destruct (is_clock op) eqn:Hk.
    - by destruct op.
    - rewrite now_queue_op; [done|by destruct op]. }
  split; simpl; try done. unfold reserved in *. simpl in *.
  assert (queue_at name (within (e_now (wk_engine s)) (max - reserved s)) (run_queue_op name op (wk_engine s))) as Hat.
  { destruct (is_clock op) eqn:Hk; [by destruct op|].
    eapply (op_at name conn (e_now (wk_engine s))); [apply within_down|done|done|done|by destruct op]. }
  eapply queue_at_mono; [|exact Hat]. intros q. by apply within_later.
Qed.

Lemma work_step_inv cancellable s s' :
  work_step name node max lease_ms conn cancellable s s' → work_inv s → work_inv s'.
Proof.
  intros Hst Hi. pose proof Hi as [Hc Hr Hd Hs Hg].
  pose proof (phase_no_stray s Hi) as Hno.
  destruct Hst as [Hp|Hp|d m Hp Hm|j js Hp|Hp|Hp|Hp|d Hp _|d m Hp Hm|op Hop|].
  1, 4, 6: split; unfold reserved in *; rewrite Hp in *; simpl; rewrite Hno in *; done.
  - by apply work_head_inv.
  - by apply work_claimed_inv.
  - unfold work_park, reserved in *. rewrite Hp in Hr.
    destruct (e_topics (wk_engine s) !! name); [|by apply work_close_inv].
    split; unfold reserved; simpl; rewrite ?Hno in * by (by rewrite Hp); done.
  - unfold reserved in Hr. apply work_close_inv; [done| |done]. by destruct (wk_phase s).
  - unfold reserved in Hr. rewrite Hp in Hr, Hd. rewrite Hno in Hr by (by rewrite Hp).
    pose proof (release_at _ _ _ (within_down _ _) Hc eq_refl Hr) as Hrel.
    pose proof (now_release_conn (V := V) name conn (wk_engine s)) as Hn.
    split; simpl; rewrite ?Hn; try done. eapply queue_at_mono; [|exact Hrel]. intros q [Hw _].
    unfold reserved. simpl in *. by rewrite Z.add_0_r in Hw.
  - by apply work_stray_inv.
  - by apply work_other_inv.
  - by split.
Qed.

Lemma work_init_inv e :
  e_now e <= i64_max → queue_at name none_held e → work_inv (work_init e).
Proof.
  intros Hc Hq. split; simpl; try done. eapply queue_at_mono; [|exact Hq].
  intros q Hn. apply (none_within (e_now e)) in Hn. unfold within, reserved in *. simpl. lia.
Qed.

(** C21.  A work connection never holds more than it asked for: through any interleaving
    of its turns and claims (alone or in a cohort) with the requests of other clients,
    writes, retention passes and WAL failures, with its stream dropped anywhere, also
    in the middle of a claim, and with a clock that does not run back, the leases that
    are live and keyed to the connection are at most [max]. *)
Theorem work_conn_bounded e s :
  e_now e <= i64_max → queue_at name none_held e →
  rtc (work_step name node max lease_ms conn true) (work_init e) s →
  ∃ n, work_conn_in_flight name conn (wk_engine s) = (wk_engine s, Ok n) ∧ 0 <= n <= max.
Proof.
  intros Hc Hq Hr. assert (work_inv s) as [_ Hroom Hd Hs _].
  { revert Hr. apply (rtc_ind_r work_inv); [by apply work_init_inv|]. intros. by eapply work_step_inv. }
  destruct Hroom as (b & Hb & q & Hq' & Hw). unfold work_conn_in_flight, mbind, EM_bind, eget, get_topic. simpl.
  rewrite Hb, Hq'. simpl. rewrite in_flight_live. eexists. split; [done|]. unfold within, reserved in Hw.
  destruct (wk_phase s), (wk_stray s); simpl in *; lia.
Qed.

(** The state of a connection whose claims are not cut short. *)
Definition calm s : Prop := work_inv s ∧ wk_stray s = None ∧ (wk_phase s = WkClosed → queue_at name none_held (wk_engine s)).

Lemma work_close_calm e fs s :
  e_now e <= i64_max → queue_at name (within (e_now e) (max - 0)) e → wk_stray s = None →
  queue_at name none_held (wk_engine (work_close name conn e fs s)).
Proof. intros Hc Hq Hn. by apply work_close_inv; rewrite ?Hn. Qed.

Lemma calm_step s s' : work_step name node max lease_ms conn false s s' → calm s → calm s'.
Proof.
  intros Hst (Hi & Hn & Hcl). pose proof (work_step_inv _ _ _ Hst Hi) as Hi'. split; [done|].
  pose proof Hi as [Hc Hr Hd _ _]. unfold reserved in Hr. rewrite Hn in Hr.
  destruct Hst as [Hp|Hp|d m Hp Hm|j js Hp|Hp|Hp|Hp|d Hp [=]|d m Hp Hm|op Hop|]; try done.
  - unfold work_head. rewrite Hp in Hr. destruct (wk_down s); [split; [done|]; intros _; by apply work_close_calm|].
    destruct (work_conn_in_flight _ _ _) as [e1 [n|c]]; [|done]. split; [done|]. simpl. by destruct (0 <? _).
  - destruct (claim_engine s d m Hp Hm Hi) as [Hc1 Hq1]. unfold work_claim.
    destruct (run_claim _ _ _ _ _ _ _) as [e1 [r|c]]; [done|]. split; [done|]. intros _. by apply work_close_calm.
  - unfold work_park. rewrite Hp in Hr. destruct (e_topics _ !! _); [done|]. split; [done|]. intros _. by apply work_close_calm.
  - split; [done|]. intros _. apply work_close_calm; [done| |done]. by destruct (wk_phase s).
  - simplify_eq.
  - split; [done|]. simpl. intros Hp. apply other_at; [apply none_held_down|done|done|by apply Hcl].
Qed.

(** C22.  A work connection leaves nothing behind: when no stream is dropped in the middle
    of a claim, from the moment the stream of the connection has ended, for whatever
    reason, no job is leased to it, whatever happens afterwards. *)
Theorem work_conn_released e s :
  e_now e <= i64_max → queue_at name none_held e →
  rtc (work_step name node max lease_ms conn false) (work_init e) s → wk_phase s = WkClosed →
  ∃ b q, e_topics (wk_engine s) !! name = Some b ∧ b_queue b = Some q ∧
    ∀ seq l, leases q !! seq = Some l → l_by_work_conn l ≠ Some conn.
Proof.
  intros Hc Hq Hr Hp. assert (calm s) as (_ & _ & Hcl).
  { revert Hr. clear Hp. apply (rtc_ind_r calm); [|intros; by eapply calm_step].
    split; [by apply work_init_inv|]. done. }
  destruct (Hcl Hp) as (b & Hb & q & Hq' & Hn). exists b, q. split; [done|]. split; [done|].
  intros seq l Hl Hconn. assert (seq ∈ conn_held conn q) by (apply elem_of_conn_held; eauto). set_solver.
Qed.
End theorems.

Module WorkSamples.
Import QueueSamples.
#[local] Existing Instances unit_null unit_serde.
#[local] Instance work_pow : Powf := λ q, q.

(** Three jobs, and a connection that takes two at a time. *)
Definition stocked : Engine unit := run_queue_ops "jobs" [QLog (OpAppend [job; job; job] 0)] (jobs_engine []).
Definition alone : CohortMates := mkMates [] [] None.
Abbreviation step := (work_step "jobs" "w" 2 None 7).

Definition opened : WorkConn unit := set_work (work_init stocked) stocked WkHead [FrRetry].
Definition asking : WorkConn unit := work_head "jobs" 2 7 opened.
Definition leased : WorkConn unit := work_claim "jobs" "w" None 7 alone 2 asking.
Definition disconnected : WorkConn unit := work_close "jobs" 7 (wk_engine leased) [] leased.

Lemma alone_other : ¬ claims_for 7 (mates_before alone ++ mates_after alone).
Proof. intros (i & c & Hc & _). by destruct i. Qed.

Lemma stocked_free : queue_at "jobs" (none_held 7) stocked.
Proof.
  eexists. split; [reflexivity|]. eexists. split; [reflexivity|]. by vm_compute.
Qed.

Lemma leased_reached c : rtc (step c) (work_init stocked) leased.
Proof.
  eapply rtc_l; [by apply wk_opened|]. fold opened. eapply rtc_l; [by apply wk_turn|]. fold asking.
  apply rtc_once, wk_claimed; [by vm_compute|apply alone_other].
Qed.

(** The connection holds the two jobs it asked for. *)
Lemma work_conn_bounded_witness :
  (work_conn_in_flight "jobs" 7 (wk_engine leased)).2 = Ok 2 ∧
  ∃ n, work_conn_in_flight "jobs" 7 (wk_engine leased) = (wk_engine leased, Ok n) ∧ 0 <= n <= 2.
Proof.
  split; [by vm_compute|].
  apply (work_conn_bounded "jobs" "w" 2 None 7 ltac:(unfold MAX_CLAIM; lia) stocked leased ltac:(by vm_compute)
    stocked_free (leased_reached true)).
Defined.

(** Its client disconnects. *)
Lemma work_conn_released_witness :
  ∃ b q, e_topics (wk_engine disconnected) !! "jobs"%string = Some b ∧ b_queue b = Some q ∧
    ∀ seq l, leases q !! seq = Some l → l_by_work_conn l ≠ Some 7.
Proof.
  apply (work_conn_released "jobs" "w" 2 None 7 ltac:(unfold MAX_CLAIM; lia) stocked disconnected ltac:(by vm_compute)
    stocked_free); [|done].
  eapply rtc_r; [apply leased_reached|]. apply wk_dropped. by vm_compute.
Defined.

(** Its client disconnects while the claim is on the blocking pool: the guard releases
    the leases of the connection, the claim then leases two jobs to it, and nothing
    releases them before they run out. *)
Definition cut : WorkConn unit :=
  let s := work_close "jobs" 7 (wk_engine asking) [] asking in
  mkWork (wk_engine s) (wk_phase s) (Some 2) (wk_down s) (wk_sent s).
Definition stranded : WorkConn unit :=
  mkWork (stray_claim "jobs" "w" 7 alone 2 (wk_engine cut)) (wk_phase cut) None (wk_down cut) (wk_sent cut).

Example dropped_claim_strands_leases :
  rtc (step true) (work_init stocked) stranded ∧ wk_phase stranded = WkClosed ∧ wk_stray stranded = None ∧
  (work_conn_in_flight "jobs" 7 (wk_engine stranded)).2 = Ok 2.
Proof.
  split; [|by vm_compute].
  eapply rtc_l; [by apply wk_opened|]. fold opened. eapply rtc_l; [by apply wk_turn|]. fold asking.
  eapply rtc_l; [by apply (wk_dropped_claiming _ _ _ _ _ _ _ 2); [vm_compute|]|]. fold cut.
  apply rtc_once. by apply (wk_stray_runs _ _ _ _ _ _ _ 2 alone); [|apply alone_other].
Qed.
End WorkSamples.
